(* ===== verification/_CoqProject ===== *)
-Q . S2P
Prelude.v
GoFloat.v
GoStrings.v
Routing.v
Metrics.v
FailureRateBreaker.v
CircuitBreaker.v
BulkheadConc.v
GoErrors.v
GoNet.v
Proposal.v
Constraints.v
Bounds.v
Dampener.v
Shadow.v
Envelope.v
AgentPipeline.v
Config.v
ConfigValidate.v
Reload.v
Http.v
Json.v
Redact.v
ApiError.v
Middleware.v
Auth.v
RateLimit.v
Deadline.v
Proxy.v
Writers.v
ProxyServe.v
Logging.v
LogWriter.v
Health.v
AdminJson.v
Admin.v
CertLoader.v
Goroutine.v
History.v
Concurrent.v
LimiterConc.v
Gateway.v
GatewayConc.v
ResponseHeaders.v
Echo.v
Lifecycle.v
PipelineConc.v
BufferConc.v
LogConc.v
HealthConc.v
CertConc.v
