(* ===== verification/Prelude.v ===== *)
(** * gateway-core: a verification development

    gateway-core is an HTTP API gateway in Go: a request passes a middleware
    chain (recovery, request id, deadline, security headers, logging, CORS, body
    limit, rate limit, authentication), is matched to a route by its path prefix,
    and is proxied to a backend under a circuit breaker with retries.  Beside the
    chain there are endpoints for health, metrics and administration; the
    configuration and the TLS certificate are reloaded while the gateway runs.  A
    second part, the optimisation envelope, decides whether proposals of an agent
    pipeline to change settings may be applied; nothing wires it to the gateway.

    ** Parts, files and sources

    - [Prelude], [GoFloat], [GoStrings], [GoErrors]: the Go the program uses --
      64-bit integers with wrap-around, [time.Duration] and clock differences,
      IEEE binary64, the parts of [strings]/[strconv]/[time] used for formatting
      and parsing, error values with their wrapping.
    - [Routing] (internal/routing/match.go): [MatchesPrefix] and its meaning
      [under_prefix].
    - [Metrics] (internal/metrics/metrics.go): the collectors and the trace of
      calls on them.  A component that touches a metric returns the events; the
      argument [m : bool] is the source's nil check of the metrics pointer.
    - [FailureRateBreaker] (internal/circuitbreaker/breaker.go,
      failure_rate.go): the ring-buffer breaker, one step per method.
    - [CircuitBreaker] (adaptive.go, timeout.go, bulkhead.go, composite.go of the
      same directory): the wrappers as a sum type, [CompositeBreaker] and its
      reload; [AdmissionControl]/[AdmissionLaws] state what the proxy needs of
      a breaker, discharged for the composite by [composite_laws].
    - [BulkheadConc]: the non-atomic [Allow] of the bulkhead, under every
      interleaving of requests.
    - [Goroutine]: programs of goroutines as a free monad of atomic actions, the
      pool that runs them, schedules, and protocols that bound what they do.
      [History]: shared states with a history, from which they are computed, and the
      interface [Promises] whose instances say what every entry of it tells.
      [Concurrent]: requests at the proxy, the breakers' part of a reload and the
      probes of a readiness check as such programs, on the breakers they share.
      [LimiterConc]: requests at the limiter, its part of a reload, the janitor and
      snapshots.  [GatewayConc]: the two together, with authentication between them.
      [PipelineConc] (agent.go): runs of the agent pipeline and calls of its other
      methods.  [BufferConc] (proxy.go, logging.go): the pools of response buffers
      and of captures, their objects on a heap.  [LogConc] (writer.go): writes to the
      log beside the cleanups that rotations start.  [HealthConc] (health.go):
      requests for the readiness at the cache.  [CertConc] (certloader.go): reloads
      of the certificate beside handshakes and changes of its files.
    - [Proposal], [Constraints], [Bounds], [Dampener], [Shadow], [Envelope]
      (internal/envelope/, file by file): the decision pipeline and its four
      stages; [AgentPipeline] (agent.go): planner, reviewers, error budget.
    - [Config], [ConfigValidate] (internal/config/config.go): types, environment
      expansion, defaults; validation, warnings, load.
    - [Http]: writers and requests; [ResponseWriter] is the interface the
      wrappers implement.  [Json]: the encoding of encoding/json, with a parser
      for what a client reads back.  [ApiError] (internal/apierror/apierror.go):
      error answers.
    - [Proxy], [Writers], [ProxyServe] (internal/proxy/proxy.go): construction
      and matching; the response wrappers; [Router.ServeHTTP].
    - [GoNet]: the parts of [net] and [net/netip] used to parse addresses.
    - [RateLimit] (internal/ratelimit/ratelimit.go): client identification,
      limits per route, the map of clients with its critical sections, the janitor.
    - [Auth] (internal/auth/auth.go): bearer tokens, claims, scopes.
    - [Middleware] (requestid.go, recovery.go, cors.go, security.go and
      bodylimit.go in internal/middleware/): functions from handlers to
      handlers, a handler being a function from a request to its [HandlerRun].
    - [Deadline] (internal/middleware/deadline.go): the race between a handler
      and the global deadline for the response.
    - [Redact], [Logging] (internal/middleware/logging.go): the redaction of
      logged bodies with its regular expression; levels, capture of bodies, the
      log entry.  [LogWriter] (internal/logging/writer.go): the rotated log file
      on a directory.
    - [Reload] (internal/config/reload.go): observers and rollback, concurrent
      reloads, debouncing of file events.  [CertLoader]
      (internal/tlsutil/certloader.go): the certificate that is served.
    - [Health], [Admin] (internal/health/health.go, internal/admin/admin.go): the
      readiness check with its cache; the guarded admin API with its paging.
      [AdminJson]: what the encoder makes of the structs the API shows, from the
      json tags in config.go and ratelimit.go.
    - [Gateway] (internal/gateway/gateway.go): the composition of all of these --
      [NewGateway], the handler [handle] with the chain and the bypass, the reload
      callback, and [gateway_event], a request, a reload or a janitor pass.
      [ResponseHeaders]: what of a response's header survives the whole chain.
      [Lifecycle] (cmd/gateway/main.go, [Gateway.Run], reload_unix.go): what is
      started and stopped, SIGHUP, the exit code.
    - [Echo] (cmd/echoserver/main.go, tests/load/gen-token.go): the test tools, a
      backend that echoes and a generator of tokens.

    ** Conventions

    A method is a function from the state it reads and the arguments to its
    results and the new state; the clock readings of a method are arguments
    ([now]), in program order when there are several ([RunEnv], [ServeEnv]).
    [None] as the result of a step is a run-time panic (an index out of range, a
    nil dereference and the like) or a blocking channel operation on a
    sequential path; theorems that a call returns are stated as
    [_ = Some _].  Methods under one mutex are single steps.  Logger calls are
    left out: they have no effect on the state.

    What the source runs concurrently is sequential here unless a file says
    otherwise: [BulkheadConc], [RateLimit], [Deadline] and [Reload] give their
    critical sections as steps of an interleaving relation, the last three with
    an executable scheduler for concrete runs.  The files named [...Conc] and
    [Concurrent] interleave whole goroutines, one critical section, channel
    operation, unlocked access, call on the file system or exchange with a backend
    at a time; their programs compute, when nothing interrupts them, what the
    sequential definitions say ([serve_alone], [limiter_alone], [request_alone],
    [run_computes], [cleanup_alone], [readiness_alone], [loadCert_alone]).  A shared state that keeps a
    history of what happened serves the statements only.

    Code outside the repository is a parameter: [ConfigLib] (YAML decoding, and
    [url.Parse]), [TokenBucket] (golang.org/x/time/rate), [JwtLib]
    (github.com/golang-jwt/jwt/v5, with its documented guarantees as [JwtSound] and,
    for tokens it signs itself, [JwtIssuer]), [GoFmt] (formatting of floats and
    quoting), [GoJson] (the encoder's texts of floats and times, with what is
    documented of them), [SortSlice] (an unstable sort, of which only the documented result is
    assumed), [GoPlatform] (the out-of-range conversion of a float to an integer); a
    backend, an agent or a simulator is a function or a list of its results. Each
    has a concrete instance among the witnesses.

    The components meet in [Gateway] by calls of each other's definitions; the
    wrappers of a response are instances of [ResponseWriter], a middleware is a
    function from [Handler]s to [Handler]s, a handler's result its calls on the
    writer, its exit, and the state after it.  The router and what stands directly
    above it write to a client, whose calls are then replayed under the rest of
    the chain ([run_replay]).

    Some loops are given fuel: [Config.expand] spends one unit per byte of input
    and starts with the length of the input ([expand_fuel] shows that more
    changes nothing), [RateLimit.evict_loop] one per batch, starting with the
    number of keys ([evict_loop_batches]), and the parser of [Json] one per value,
    starting with the length of the text ([parse_read] shows that it is enough
    for everything the encoder writes).  All other recursion is structural.

    ** What the theorems show

    - Circuit breakers: the ring buffer refines a sliding window of outcomes;
      exact conditions for tripping, rejecting, recovering; the state gauge
      follows the state; bulkhead slots equal admitted requests, also under
      interleaving; what a reload changes.
    - Proxy: the longest prefix wins whatever the order of the configuration;
      the retry policy with everything it reports; only admitted requests are
      forwarded; the breaker's slots balance whatever the backend does; buffered
      responses are transparent; the back-offs and where they overflow.
    - Rate limiter: who a client is, what it cannot forge and where it depends on how
      the proxy forwards; one bucket per
      client and limit under every interleaving; what the janitor removes; which
      limit applies.
    - Authentication: what a token must be for a protected route to be reached, which
      refusals are 401 and which 403, and that a token issued for the gateway does reach it.
    - Concurrency: whatever the schedule, no breaker call panics or blocks, a
      backend has no more exchanges than its limit, every goroutine ends, and then
      every slot is free; every bucket of the limiter answers as one token bucket,
      for a limit in force, whatever reloads and the janitor do meanwhile; and only
      what a bucket and authentication let pass is forwarded.  What a pooled buffer
      gives a client is its own request's, whoever had it before, and no other request
      uses it meanwhile (the status a retry logs after giving it back is excepted); the
      agent pipeline is the sequence of its critical sections, with one error or success
      recorded for every run that was not disabled; what the writes of the log report as
      taken is in the files put aside and the live one, whatever calls fail, and such a
      file is lost only to a cleanup or to a rotation of the same second; a readiness
      answer is that of one complete check; a certificate that is served is a pair the
      files held.
    - Middleware: every response carries the request's ID and the security headers,
      through all layers and also after a panic, unless the backend sends a 1xx first;
      how much of a body a handler can
      read; the form of generated IDs.
    - Deadline and reload: who claims the response first decides what the client
      receives, and the race ends; a reload that no other overlaps is all or nothing for
      the configuration, not for what observers did before one refused; bursts of events
      cause one reload.
    - Envelope: nothing is ever applied; each stage's exact acceptance
      condition, also where a subtraction wraps; adding stages only narrows; pipeline
      emission and error budget.
    - Configuration: validation accepts exactly the declaratively valid
      configurations; load; idempotent defaults; expansion; timeouts.

    - Logging: transparent for handler and client, one entry as specified; of a body
      whose strings have no quotes in them exactly the values of the documented names
      are hidden ([redaction_hides_values], against a specification without the pattern;
      escaped quotes and truncated values do leak); the rotated files are one stream
      that every write extends; every outcome of a write, on an open and a closed file.
    - Errors and health: an error body parses to what was put in, bytes that are no
      UTF-8 replaced; a readiness answer reports every route, in whatever order the probes end.
    - Admin API and certificates: nothing is shown outside the allow list; the
      configuration that is shown determines everything but the secret, on which it
      does not depend; the certificate served is the last that loaded, and files
      that are written or created take effect, while no two reloads overlap.
    - Gateway: after any sequence of events every backend has its breaker with no
      slot taken and the limits follow the current configuration; only requests
      that passed every gate are forwarded; every loadable configuration is
      accepted, what of it takes effect and what keeps the values of the start; when
      construction fails; that an
      aborted response ends the process if a global timeout is set; no SIGHUP is
      lost; the exit code.

    Some theorems record behaviour the source's comments deny; they are listed
    as findings in the manifest.

    ** Not modelled

    Out of scope: TLS and JWT cryptography, the reverse proxy of the standard library
    beyond its calls on the writer, network I/O, flags, log output, the export of the
    metrics.  The concurrent systems are separate ones where the program shares
    nothing between them: the buffers, the log file, the cache of the readiness check,
    the certificate and the envelope each have their own, and the goroutines of the deadline are in
    [Deadline], one request at a time.  The races of unlocked accesses are modelled as
    atomic reads and writes in any order, not by the memory model of the language.

    Assumptions: a 64-bit platform; no fused multiply-add; a field read outside its
    lock has one of the values written to it, also if it is a slice; strings are
    bytes, so changing case and space trimming cover
    ASCII; two spellings of one header in a route's [headers] map, whose order
    Go leaves open, are set in the order of the model's map; the metrics path is
    a plain path, without the method, host or wildcards a mux pattern may have,
    and paths need no URL escaping; a list of the configuration that is empty was
    absent from the file, a nil slice, which the admin API shows as null; the reverse
    proxy adds the headers of a response to those it finds, if no 1xx came before it. *)

From Stdlib Require Export ZArith Lia.
From stdpp Require Export gmap strings list numbers option.

#[export] Set Default Goal Selector "!".
Open Scope Z_scope.

(** ** Machine integers

    Go's [int], [int64] and [time.Duration] are 64-bit two's-complement values
    (a 64-bit platform is assumed throughout).  They are modelled as [Z]; an
    operation that can leave the range is followed by [wrap64]. *)

Definition int64_min : Z := -(2 ^ 63).
Definition int64_max : Z := 2 ^ 63 - 1.

(** [int64 z]: [z] is representable. *)
Definition int64 (z : Z) : Prop := int64_min ≤ z ≤ int64_max.

#[export] Instance int64_dec (z : Z) : Decision (int64 z).
Proof. unfold int64. apply _. Defined.

(** Two's-complement wrap-around to 64 bits. *)
Definition wrap64 (z : Z) : Z := (z + 2 ^ 63) mod 2 ^ 64 - 2 ^ 63.

(** Case analysis on the range predicates, then linear arithmetic. *)
Ltac int_solve :=
  unfold int64, int64_min, int64_max in *; lia.

Lemma wrap64_id (z : Z) : int64 z → wrap64 z = z.
Proof. intros H. unfold wrap64. rewrite Z.mod_small; int_solve. Qed.

Lemma wrap64_range (z : Z) : int64 (wrap64 z).
Proof.
  unfold wrap64. pose proof (Z.mod_pos_bound (z + 2 ^ 63) (2 ^ 64)). int_solve.
Qed.

(** ** Time

    A [time.Time] is the number of nanoseconds since the zero time
    (1 January of year 1, UTC), so that [time.Time{}.IsZero()] is [t = 0].  A
    [time.Duration] is a 64-bit number of nanoseconds. *)

Abbreviation Time := Z (only parsing).
Abbreviation Duration := Z (only parsing).

Definition Nanosecond : Duration := 1.
Definition Microsecond : Duration := 1000.
Definition Millisecond : Duration := 1000000.
Definition Second : Duration := 1000000000.
Definition Minute : Duration := 60 * Second.
Definition Hour : Duration := 60 * Minute.

(** [t.Sub(u)] saturates instead of wrapping. *)
Definition time_sub (t u : Time) : Duration :=
  Z.max int64_min (Z.min int64_max (t - u)).

Definition time_add (t : Time) (d : Duration) : Time := t + d.

Definition time_zero : Time := 0.

Definition time_is_zero (t : Time) : bool := bool_decide (t = time_zero).

Lemma time_sub_range (t u : Time) : int64 (time_sub t u).
Proof. unfold time_sub. int_solve. Qed.

Lemma time_sub_exact (t u : Time) : int64 (t - u) → time_sub t u = t - u.
Proof. unfold time_sub. int_solve. Qed.

(** Comparing an elapsed time with a non-negative duration sees no
    saturation. *)
Lemma time_sub_ge (t u : Time) (d : Duration) :
  0 ≤ d ≤ int64_max → (d ≤ time_sub t u ↔ d ≤ t - u).
Proof. unfold time_sub. int_solve. Qed.

Lemma time_sub_lt (t u : Time) (d : Duration) :
  0 ≤ d ≤ int64_max → (time_sub t u < d ↔ t - u < d).
Proof. unfold time_sub. int_solve. Qed.

(** ** Record update

    [r <| f := v |>] is [r] with the field [f] replaced by [v]; a record type
    takes part by giving its eta-expansion as an instance of [Eta]. *)

Class Eta (R : Type) := eta : R → R.
Class Update {R T : Type} (f : R → T) := update : (T → T) → R → R.
Arguments update {R T} f {_} _ _ /.

Ltac derive_update f :=
  match type of f with
  | ?R → _ =>
      let inst := constr:(_ : Eta R) in
      let body := eval hnf in inst in
      let abstracted := eval pattern f in body in
      match abstracted with
      | ?g _ =>
          let u := eval cbv beta in (λ k (r : R), g (λ r' : R, k (f r')) r) in
          exact u
      end
  end.

#[export] Hint Extern 1 (Update ?f) => derive_update f : typeclass_instances.

Notation "r <| f := v |>" := (update f (λ _, v) r)
  (at level 1, left associativity, format "r  <| f  :=  v |>").

(** ** Results of fallible code *)

(** A Go function that returns [(T, error)]: the value or the error. *)
Inductive result (T E : Type) : Type :=
| Ok (x : T)
| Err (e : E).
Arguments Ok {T E} _.
Arguments Err {T E} _.

#[export] Instance result_eq_dec `{EqDecision T, EqDecision E} :
  EqDecision (result T E).
Proof. solve_decision. Defined.

(** [is_nil e]: Go's [err == nil] for an optional error. *)
Definition is_nil {A : Type} (e : option A) : bool :=
  match e with None => true | Some _ => false end.

(** [len(l) == 0] *)
Definition is_nil_list {A : Type} (l : list A) : bool :=
  match l with [] => true | _ => false end.

(** The first failing check of a list, in order: the shape of a Go validation
    function made of [if bad { return err }] statements. *)
Fixpoint first_err {E : Type} (checks : list (bool * E)) : option E :=
  match checks with
  | [] => None
  | (bad, e) :: rest => if bad then Some e else first_err rest
  end.

Lemma first_err_None {E : Type} (cs : list (bool * E)) :
  first_err cs = None ↔ Forall (λ c, c.1 = false) cs.
Proof.
  induction cs as [|[b e] cs IH]; simpl.
  - split; [constructor | done].
  - rewrite Forall_cons_iff, <-IH. destruct b; simpl; [split; [done | by intros []] | tauto].
Qed.

(** The error reported is that of the first failing check. *)
Lemma first_err_Some {E : Type} (cs : list (bool * E)) (e : E) :
  first_err cs = Some e ↔
  ∃ l r, cs = l ++ (true, e) :: r ∧ Forall (λ c, c.1 = false) l.
Proof.
  induction cs as [|[b e'] cs IH]; simpl.
  - split; [done |]. intros ([|??] & r & ? & ?); done.
  - destruct b.
    + split.
      * intros [= ->]. by exists [], cs.
      * intros ([|[??] l] & r & ? & Hl); simplify_eq/=; [done |].
        by inversion Hl.
    + rewrite IH. split.
      * intros (l & r & -> & Hl). exists ((false, e') :: l), r.
        split; [done | by constructor].
      * intros ([|[??] l] & r & ? & Hl); simplify_eq/=.
        inversion Hl; subst. by exists l, r.
Qed.

(** ** Lists *)

Section lists.
Context {A : Type}.

(** The last [n] elements of a list. *)
Definition lastn (n : nat) (l : list A) : list A := drop (length l - n) l.

Lemma lastn_all (n : nat) (l : list A) : (length l ≤ n)%nat → lastn n l = l.
Proof. intros. unfold lastn. by replace (length l - n)%nat with 0%nat by lia. Qed.

Lemma length_lastn (n : nat) (l : list A) :
  length (lastn n l) = (length l `min` n)%nat.
Proof. unfold lastn. rewrite length_drop. lia. Qed.

(** Appending one element to a full window drops its oldest one. *)
Lemma lastn_snoc_full (n : nat) (x y : A) (l : list A) :
  length (x :: l) = n → lastn n ((x :: l) ++ [y]) = l ++ [y].
Proof.
  intros <-. unfold lastn. rewrite length_app. simpl.
  match goal with |- drop ?k _ = _ => by replace k with 1%nat by lia end.
Qed.

(** The number of elements that satisfy a boolean test, as a [Z]. *)
Fixpoint countZ (p : A → bool) (l : list A) : Z :=
  match l with
  | [] => 0
  | x :: l => (if p x then 1 else 0) + countZ p l
  end.

Lemma countZ_app p (l k : list A) : countZ p (l ++ k) = countZ p l + countZ p k.
Proof. induction l as [|x l IH]; simpl; [done | rewrite IH; lia]. Qed.

Lemma countZ_bound p (l : list A) : 0 ≤ countZ p l ≤ Z.of_nat (length l).
Proof. induction l as [|x l IH]; simpl; [done | destruct (p x); lia]. Qed.
End lists.

Create Rewrite HintDb list_count.
#[export] Hint Rewrite @countZ_app : list_count.

(** Splits the conditionals and matches of a goal. *)
Ltac split_cases := repeat (case_match || case_bool_decide); simplify_eq/=.
