(* ===== verification/GoFloat.v ===== *)
(** * IEEE 754 binary64, as Go's [float64]

    The type and the operations are those of the Standard Library's executable
    specification [SpecFloat], at precision 53 and maximal exponent 1024, with
    rounding to nearest even.  Go's comparison operators are the IEEE ones:
    each is false when an operand is a NaN, and [!=] is true.  No fused
    multiply-add is assumed (Go emits none on amd64). *)

From Stdlib Require Export SpecFloat.
From S2P Require Import Prelude.

Abbreviation float64 := spec_float (only parsing).

Definition f64_prec : Z := 53.
Definition f64_emax : Z := 1024.

(** [float64(z)] for an integer [z]: the nearest representable value. *)
Definition f64 (z : Z) : float64 := binary_normalize f64_prec f64_emax z 0 false.

#[global] Arguments f64 _ : simpl never.

Definition fadd : float64 → float64 → float64 := SFadd f64_prec f64_emax.
Definition fsub : float64 → float64 → float64 := SFsub f64_prec f64_emax.
Definition fmul : float64 → float64 → float64 := SFmul f64_prec f64_emax.
Definition fdiv : float64 → float64 → float64 := SFdiv f64_prec f64_emax.

(** [x < y], [x <= y] and [x == y]; [x > y] is [fltb y x] and [x != y] is the
    negation of [feqb]. *)
Definition fltb : float64 → float64 → bool := SFltb.
Definition fleb : float64 → float64 → bool := SFleb.
Definition feqb : float64 → float64 → bool := SFeqb.

(** A decimal literal [m / d]: both integers are exact, so the division rounds
    once, to the double nearest to the decimal value. *)
Definition f64_lit (m d : Z) : float64 := fdiv (f64 m) (f64 d).

Definition f64_nan : float64 := S754_nan.

#[export] Instance spec_float_eq_dec : EqDecision spec_float.
Proof. solve_decision. Defined.

(** Truncation towards zero; [None] for infinities and NaN. *)
Definition f64_trunc (x : float64) : option Z :=
  match x with
  | S754_zero _ => Some 0
  | S754_finite s m e =>
      let a := if 0 <=? e then Z.pos m * 2 ^ e else Z.shiftr (Z.pos m) (- e) in
      Some (if s then - a else a)
  | S754_infinity _ | S754_nan => None
  end.

(** The conversion [int64(x)] of a float whose truncation does not fit is
    implementation-defined in Go: the value is a parameter of the platform. *)
Class GoPlatform := {
  out_of_range_int64 : float64 → Z;
  out_of_range_int64_range x : int64 (out_of_range_int64 x)
}.

Definition f64_to_int64 `{GoPlatform} (x : float64) : Z :=
  match f64_trunc x with
  | Some z => if decide (int64 z) then z else out_of_range_int64 x
  | None => out_of_range_int64 x
  end.

(** amd64 yields the "integer indefinite" value. *)
#[export, refine] Instance amd64 : GoPlatform :=
  {| out_of_range_int64 _ := int64_min |}.
Proof. intros _. int_solve. Defined.

Lemma f64_to_int64_range `{GoPlatform} (x : float64) : int64 (f64_to_int64 x).
Proof.
  unfold f64_to_int64. destruct (f64_trunc x); [case_decide |];
    auto using out_of_range_int64_range.
Qed.

(** [d.Seconds()]: whole seconds plus the fraction. *)
Definition duration_seconds (d : Duration) : float64 :=
  fadd (f64 (Z.quot d Second)) (fdiv (f64 (Z.rem d Second)) (f64 1000000000)).

(** ** Comparisons *)

Lemma fltb_nan_l (x : float64) : fltb f64_nan x = false.
Proof. done. Qed.

Lemma fltb_nan_r (x : float64) : fltb x f64_nan = false.
Proof. by destruct x. Qed.

Lemma fleb_nan_l (x : float64) : fleb f64_nan x = false.
Proof. done. Qed.

Lemma fleb_nan_r (x : float64) : fleb x f64_nan = false.
Proof. by destruct x. Qed.

Lemma feqb_nan_l (x : float64) : feqb f64_nan x = false.
Proof. done. Qed.

Lemma feqb_iff (x y : float64) :
  feqb x y = true ↔
    x ≠ f64_nan ∧ (x = y ∨ ∃ s s', x = S754_zero s ∧ y = S754_zero s').
Proof.
  unfold feqb, SFeqb, f64_nan. split.
  - intros He. split; [by intros -> |].
    destruct x as [s|s| |s m e], y as [s'|s'| |s' m' e']; try (by destruct s, s'); try done;
      [right; by eauto | left; by destruct s, s' |].
    left. destruct s, s'; simpl in He; try done; destruct (e ?= e') eqn:Ee; try done;
      destruct (Pos.compare_cont Eq m m') eqn:Em; try done;
      by apply Z.compare_eq in Ee as ->; apply Pos.compare_eq in Em as ->.
  - intros [Hn [<-|(s & s' & -> & ->)]]; [|done].
    destruct x as [s|[]| |[] m e]; simpl; try done;
      rewrite Z.compare_refl; by change (Pos.compare_cont Eq m m) with (m ?= m)%positive;
        rewrite Pos.compare_refl.
Qed.

Lemma feqb_sym (x y : float64) : feqb x y = feqb y x.
Proof.
  apply eq_true_iff_eq. rewrite !feqb_iff.
  split; (intros [Hn [<-|(s & s' & -> & ->)]]; split; [done | by left | done | right; eauto]).
Qed.

Lemma feqb_trans (x y z : float64) : feqb x y = true → feqb y z = true → feqb x z = true.
Proof.
  rewrite !feqb_iff. intros [Hn [<-|(s & s' & -> & ->)]] [_ [<-|(t & t' & Ht & ->)]].
  - split; [done | by left].
  - split; [done | right; eauto].
  - split; [done | right; eauto].
  - split; [done | right; eauto].
Qed.

Lemma pos_compare_cont_antisym (p q : positive) :
  Pos.compare_cont Eq q p = CompOpp (Pos.compare_cont Eq p q).
Proof. apply (Pos.compare_antisym p q). Qed.

Lemma SFcompare_antisym (x y : float64) :
  SFcompare y x = option_map CompOpp (SFcompare x y).
Proof.
  destruct x as [[]|[]| |[] m1 e1], y as [[]|[]| |[] m2 e2]; simpl; try done;
    rewrite (Z.compare_antisym e1 e2), (pos_compare_cont_antisym m1 m2);
    by destruct (e1 ?= e2), (Pos.compare_cont Eq m1 m2).
Qed.

(** [x < y] excludes [y <= x]. *)
Lemma fltb_fleb (x y : float64) : fltb x y = true → fleb y x = false.
Proof.
  unfold fltb, fleb, SFltb, SFleb. rewrite (SFcompare_antisym x y).
  by destruct (SFcompare x y) as [[]|].
Qed.

(** Between non-NaN operands, one of [x < y] and [y <= x] holds. *)
Lemma fltb_total (x y : float64) :
  x ≠ f64_nan → y ≠ f64_nan → fltb x y = negb (fleb y x).
Proof.
  unfold fltb, fleb, SFltb, SFleb. intros Hx Hy.
  rewrite (SFcompare_antisym x y).
  destruct (SFcompare x y) as [[]|] eqn:Hc; try done.
  destruct x as [[]|[]| |[] ??], y as [[]|[]| |[] ??]; done.
Qed.

Create HintDb f64.
Create Rewrite HintDb f64.
#[export] Hint Rewrite fltb_nan_l fltb_nan_r fleb_nan_l fleb_nan_r feqb_nan_l : f64.
