(* ===== verification/GoStrings.v ===== *)
(** * The parts of Go's [strings], [strconv], [fmt] and [time] that the
    gateway formats and parses with

    A Go string is a sequence of bytes: a [string] of [ascii]. *)

From stdpp Require Export pretty.
From Stdlib Require Export Ascii.
From S2P Require Import Prelude GoFloat.

Open Scope Z_scope.

(** ** package strings *)

(** [len(s)] *)
Definition len (s : string) : nat := String.length s.

(** [strings.HasPrefix(s, p)] *)
Definition HasPrefix (s p : string) : bool := String.prefix p s.

(** [s[n:]] for [n <= len(s)] *)
Fixpoint sdrop (n : nat) (s : string) : string :=
  match n, s with
  | O, _ => s
  | S n, EmptyString => EmptyString
  | S n, String _ s => sdrop n s
  end.

(** [s[:n]] for [n <= len(s)] *)
Fixpoint stake (n : nat) (s : string) : string :=
  match n, s with
  | O, _ => EmptyString
  | S n, EmptyString => EmptyString
  | S n, String c s => String c (stake n s)
  end.

(** [strings.TrimPrefix(s, p)] *)
Definition TrimPrefix (s p : string) : string :=
  if HasPrefix s p then sdrop (len p) s else s.

(** [strings.Contains(s, sub)] *)
Fixpoint Contains (s sub : string) : bool :=
  HasPrefix s sub ||
  match s with EmptyString => false | String _ s => Contains s sub end.

(** Every byte satisfies [p]. *)
Fixpoint all_chars (p : ascii → bool) (s : string) : bool :=
  match s with EmptyString => true | String c r => p c && all_chars p r end.

(** The ASCII white space of [strings.TrimSpace] and [strings.Fields]. *)
Definition is_space (c : ascii) : bool :=
  let n := nat_of_ascii c in
  bool_decide (n = 32 ∨ (9 ≤ n ∧ n ≤ 13))%nat.

Fixpoint trim_left (s : string) : string :=
  match s with
  | String c r => if is_space c then trim_left r else s
  | EmptyString => EmptyString
  end.

Fixpoint trim_right (s : string) : string :=
  match s with
  | String c r =>
      match trim_right r with
      | EmptyString => if is_space c then EmptyString else String c EmptyString
      | r' => String c r'
      end
  | EmptyString => EmptyString
  end.

(** [strings.TrimSpace(s)] *)
Definition TrimSpace (s : string) : string := trim_right (trim_left s).

Definition upper_ascii (c : ascii) : ascii :=
  let n := nat_of_ascii c in
  if bool_decide (97 ≤ n ∧ n ≤ 122)%nat then ascii_of_nat (n - 32) else c.

(** [strings.ToUpper(s)] on ASCII strings. *)
Fixpoint ToUpper (s : string) : string :=
  match s with
  | EmptyString => EmptyString
  | String c r => String (upper_ascii c) (ToUpper r)
  end.

(** [strings.Split(s, sep)] for a one-byte separator. *)
Fixpoint Split (s : string) (sep : ascii) : list string :=
  match s with
  | EmptyString => [EmptyString]
  | String c r =>
      if Ascii.eqb c sep then EmptyString :: Split r sep
      else match Split r sep with
           | [] => [String c EmptyString]
           | w :: ws => String c w :: ws
           end
  end.

(** [strings.Join(l, sep)] *)
Fixpoint Join (l : list string) (sep : string) : string :=
  match l with
  | [] => ""
  | [w] => w
  | w :: ws => w +:+ sep +:+ Join ws sep
  end.

Definition quote : ascii := ascii_of_nat 34.

(** [s] between double quotes. *)
Definition dquoted (s : string) : string := String quote (s +:+ String quote EmptyString).

(** ** package strconv *)

(** [strconv.Itoa(z)], and the [%d] verb *)
Definition Itoa (z : Z) : string := pretty z.

(** Division rounding half to even, for a positive divisor. *)
Definition div_half_even (a b : Z) : Z :=
  let q := a / b in
  match (2 * (a mod b)) ?= b with
  | Lt => q
  | Gt => q + 1
  | Eq => if Z.even q then q else q + 1
  end.

(** [strconv.FormatFloat(x, 'f', 0, 64)]: the decimal rounding of the exact
    value, ties to even, without a fraction. *)
Definition FormatFloat_f0 (x : float64) : string :=
  match x with
  | S754_nan => "NaN"
  | S754_infinity s => if s then "-Inf" else "+Inf"
  | S754_zero s => if s then "-0" else "0"
  | S754_finite s m e =>
      let a := if 0 <=? e then Z.pos m * 2 ^ e
               else div_half_even (Z.pos m) (2 ^ (- e)) in
      (if s then "-" else "") +:+ Itoa a
  end.

(** ** package time: [Duration.String] *)

(** Drops the trailing zeros of a digit string. *)
Fixpoint strip_zeros (s : string) : string :=
  match s with
  | EmptyString => EmptyString
  | String c r =>
      match strip_zeros r with
      | EmptyString => if Ascii.eqb c "0" then EmptyString else String c EmptyString
      | r' => String c r'
      end
  end.

Fixpoint pad_left (n : nat) (s : string) : string :=
  match n with
  | O => s
  | S n => if bool_decide (len s ≤ n)%nat then String "0" (pad_left n s) else s
  end.

(** [time.fmtFrac]: the fraction [v / 10^prec] without trailing zeros, with its
    point unless it is empty; the second component is the integer part. *)
Definition fmtFrac (v : Z) (prec : nat) : string * Z :=
  let unit := 10 ^ Z.of_nat prec in
  let digits := strip_zeros (pad_left prec (Itoa (v mod unit))) in
  (if bool_decide (v mod unit = 0) then "" else "." +:+ digits, v / unit).

Definition duration_string (d : Duration) : string :=
  let u := Z.abs d in
  let sign := if bool_decide (d < 0) then "-" else "" in
  if decide (u = 0) then "0s"
  else if decide (u < Second) then
    let '(prec, suffix) :=
      if decide (u < Microsecond) then (0%nat, "ns")
      else if decide (u < Millisecond) then (3%nat, "µs") else (6%nat, "ms") in
    let '(frac, n) := fmtFrac u prec in
    sign +:+ Itoa n +:+ frac +:+ suffix
  else
    let '(frac, secs) := fmtFrac u 9 in
    let s := Itoa (secs mod 60) +:+ frac +:+ "s" in
    let mins := secs / 60 in
    if decide (mins = 0) then sign +:+ s
    else
      let m := Itoa (mins mod 60) +:+ "m" in
      let hours := mins / 60 in
      if decide (hours = 0) then sign +:+ m +:+ s
      else sign +:+ Itoa hours +:+ "h" +:+ m +:+ s.

Example duration_string_examples :
  duration_string (1500 * Millisecond) = "1.5s" ∧
  duration_string (90 * Second) = "1m30s" ∧
  duration_string (2 * Hour) = "2h0m0s" ∧
  duration_string (250 * Millisecond) = "250ms" ∧
  duration_string (-1050) = "-1.05µs".
Proof. repeat split; vm_compute; reflexivity. Qed.

(** ** package fmt

    The verbs whose output depends on shortest-float or Unicode tables are
    parameters: the text they produce only reaches log and audit messages. *)
Class GoFmt := {
  fmt_float : float64 → string;     (** [%v] of a float64 *)
  fmt_float4 : float64 → string;    (** [%.4f] *)
  fmt_quote : string → string       (** [%q] of a string *)
}.

(** ** Lemmas *)

Lemma HasPrefix_cons (c c' : ascii) (s p : string) :
  HasPrefix (String c' s) (String c p) = bool_decide (c = c') && HasPrefix s p.
Proof.
  unfold HasPrefix. cbn [String.prefix].
  destruct (ascii_dec c c'), (bool_decide_reflect (c = c')); simpl; congruence.
Qed.

Lemma HasPrefix_spec (s p : string) :
  HasPrefix s p = true ↔ ∃ r, s = p +:+ r.
Proof.
  revert s. induction p as [|c p IH]; intros s.
  - split; [intros _; by exists s | by destruct s].
  - destruct s as [|c' s].
    + split; [done | by intros [r ?]].
    + rewrite HasPrefix_cons, andb_true_iff, bool_decide_eq_true, IH. split.
      * intros [-> [r ->]]. by exists r.
      * intros [r Hr]. injection Hr as -> ->. split; [done | by exists r].
Qed.

Lemma string_app_assoc (s t u : string) : s +:+ (t +:+ u) = (s +:+ t) +:+ u.
Proof. induction s as [|a s IH]; [done | exact (f_equal (String a) IH)]. Qed.

Lemma all_chars_app p s t : all_chars p (s +:+ t) = all_chars p s && all_chars p t.
Proof. induction s as [|c s IH]; [done |]. cbn. by rewrite <-andb_assoc, <-IH. Qed.

Lemma string_cons_app (c : ascii) (s t : string) : String c s +:+ t = String c (s +:+ t).
Proof. done. Qed.

Lemma string_app_nil_r (s : string) : s +:+ "" = s.
Proof. induction s as [|c s IH]; [done | exact (f_equal (String c) IH)]. Qed.

Lemma len_app (s t : string) : len (s +:+ t) = (len s + len t)%nat.
Proof. induction s; simpl; auto. Qed.

Lemma len_stake (n : nat) (s : string) : len (stake n s) = Nat.min n (len s).
Proof.
  revert n. induction s as [|c s IH]; intros [|n]; [done.. |].
  exact (f_equal S (IH n)).
Qed.

Lemma sdrop_app (s t : string) : sdrop (len s) (s +:+ t) = t.
Proof. induction s; simpl; [by destruct t | done]. Qed.

Lemma TrimPrefix_app (p r : string) : TrimPrefix (p +:+ r) p = r.
Proof.
  unfold TrimPrefix.
  assert (HasPrefix (p +:+ r) p = true) as -> by (apply HasPrefix_spec; eauto).
  apply sdrop_app.
Qed.

Lemma string_app_inj (s s' t t' : string) :
  len s = len s' → s +:+ t = s' +:+ t' → s = s' ∧ t = t'.
Proof.
  revert s'. induction s as [|c s IH]; intros [|c' s'] Hlen Heq;
    simplify_eq/=; [done |].
  destruct (IH s') as [-> ->]; auto.
Qed.

(** Two prefixes of a string with the same length are equal. *)
Lemma HasPrefix_same_len (s p q : string) :
  HasPrefix s p = true → HasPrefix s q = true → len p = len q → p = q.
Proof.
  rewrite !HasPrefix_spec. intros [r ->] [r' Hr'] Hlen.
  by destruct (string_app_inj p q r r').
Qed.

Lemma HasPrefix_app w r : HasPrefix (w +:+ r) w = true.
Proof. apply HasPrefix_spec. by exists r. Qed.

Lemma stake_app s t : stake (len s) (s +:+ t) = s.
Proof. induction s as [|c s IH]; [by destruct t | simpl; by f_equal]. Qed.

Lemma stake_sdrop n s : stake n s +:+ sdrop (len (stake n s)) s = s.
Proof.
  revert s. induction n as [|n IH]; intros [|c s]; [done..|].
  simpl. by rewrite string_cons_app, IH.
Qed.

Lemma stake_all n s : (len s ≤ n)%nat → stake n s = s.
Proof.
  revert s. induction n as [|n IH]; intros [|c s] Hn; [done | cbn in Hn; lia | done |].
  simpl. f_equal. apply IH. cbn in Hn. unfold len. lia.
Qed.

Lemma stake_stake n m s : stake n (stake m s) = stake (Nat.min n m) s.
Proof.
  revert m s. induction n as [|n IH]; intros [|m] [|c s]; simpl; [done..|]. f_equal. apply IH.
Qed.

#[export] Hint Rewrite len_app sdrop_app TrimPrefix_app : list_count.
