(* ===== verification/Routing.v ===== *)
(** * Route matching (internal/routing/match.go)

    [MatchesPrefix] decides whether a request path falls under a configured
    prefix; the router, the rate limiter, the authentication check and the
    log-level lookup all use it. *)

From S2P Require Import Prelude GoFloat GoStrings.

Definition slash : ascii := "/"%char.

(** [prefix[len(prefix)-1] == '/'] for a non-empty prefix *)
Definition ends_with_slash (s : string) : bool :=
  match String.get (len s - 1) s with
  | Some c => Ascii.eqb c slash
  | None => false
  end.

(** [path[n] == '/'] for [n < len(path)] *)
Definition slash_at (s : string) (n : nat) : bool :=
  match String.get n s with
  | Some c => Ascii.eqb c slash
  | None => false
  end.

Definition MatchesPrefix (path pfx : string) : bool :=
  if bool_decide (pfx = "") then false
  else if negb (HasPrefix path pfx) then false
  else if bool_decide (len path = len pfx) then true
  else if ends_with_slash pfx then true
  else slash_at path (len pfx).

(** ** The boundary rule, declaratively *)

(** [path] is [pfx] followed by a remainder that starts a new path segment. *)
Definition under_prefix (path pfx : string) : Prop :=
  pfx ≠ "" ∧
  ∃ rest, path = pfx +:+ rest ∧
    (rest = "" ∨ ends_with_slash pfx = true ∨ ∃ r, rest = String slash r).

Lemma get_app_len (s t : string) : String.get (len s) (s +:+ t) = String.get 0 t.
Proof. induction s as [|c s IH]; [done | apply IH]. Qed.

Lemma slash_at_app (s t : string) :
  slash_at (s +:+ t) (len s) = true ↔ ∃ r, t = String slash r.
Proof.
  unfold slash_at. rewrite get_app_len. destruct t as [|c t]; simpl.
  - split; [done | by intros [r ?]].
  - rewrite Ascii.eqb_eq. split; [intros ->; eauto | intros [r Hr]; by simplify_eq].
Qed.

Lemma string_app_len_nil (s t : string) : len (s +:+ t) = len s ↔ t = "".
Proof. rewrite len_app. destruct t; simpl; split; (done || lia). Qed.

(** The code's four tests decide the boundary rule. *)
Lemma MatchesPrefix_iff (path pfx : string) :
  MatchesPrefix path pfx = true ↔ under_prefix path pfx.
Proof.
  unfold MatchesPrefix, under_prefix. case_bool_decide as Hnil; [naive_solver |].
  destruct (HasPrefix path pfx) eqn:Hp; simpl.
  - apply HasPrefix_spec in Hp as [rest ->].
    assert (∀ r, pfx +:+ rest = pfx +:+ r → r = rest) as Hinj.
    { intros r Hr. by destruct (string_app_inj pfx pfx rest r). }
    case_bool_decide as Hlen.
    + apply string_app_len_nil in Hlen as ->. naive_solver.
    + rewrite string_app_len_nil in Hlen. destruct (ends_with_slash pfx) eqn:He.
      * naive_solver.
      * rewrite slash_at_app. naive_solver.
  - split; [done |]. intros (_ & rest & -> & _).
    assert (HasPrefix (pfx +:+ rest) pfx = true); [|congruence].
    apply HasPrefix_spec. eauto.
Qed.

Lemma MatchesPrefix_HasPrefix (path pfx : string) :
  MatchesPrefix path pfx = true → HasPrefix path pfx = true.
Proof. unfold MatchesPrefix. by destruct (HasPrefix path pfx), (bool_decide _). Qed.

(** Prefixes of the same length that match the same path are equal. *)
Lemma MatchesPrefix_same_len (path p q : string) :
  MatchesPrefix path p = true → MatchesPrefix path q = true → len p = len q → p = q.
Proof. eauto using HasPrefix_same_len, MatchesPrefix_HasPrefix. Qed.

Lemma MatchesPrefix_nonempty (path p : string) :
  MatchesPrefix path p = true → (0 < len p)%nat.
Proof. rewrite MatchesPrefix_iff. intros [Hne _]. destruct p; simpl; [done | lia]. Qed.

#[export] Hint Resolve MatchesPrefix_HasPrefix MatchesPrefix_nonempty : core.
