(* ===== verification/Metrics.v ===== *)
(** * Prometheus instrumentation (internal/metrics/metrics.go)

    The collectors are external; the model records the calls the gateway makes
    on them, as a trace of [MetricEvent]s.  [WithLabelValues] panics when the
    number of values differs from the number of labels the collector was
    declared with, so [well_labelled] is what each emission owes. *)

From S2P Require Import Prelude GoFloat GoStrings.

(** The fields of the [Metrics] struct. *)
Inductive Collector :=
| RequestsTotal
| RequestDuration
| ActiveConnections
| RateLimitHits
| AuthFailures
| BackendErrors
| RetryTotal
| CircuitBreakerStateChanges
| CircuitBreakerState
| BulkheadRejections
| BulkheadInFlight
| RateLimitClientsTracked
| RateLimitClientsEvicted
| ConfigReloadRollbacks.

#[export] Instance Collector_eq_dec : EqDecision Collector.
Proof. solve_decision. Defined.

Inductive CollectorKind := Counter | Gauge | Histogram.

#[export] Instance CollectorKind_eq_dec : EqDecision CollectorKind.
Proof. solve_decision. Defined.

(** [metrics.New]: the kind, the name and the labels each collector is
    constructed with. *)
Definition collector_opts (c : Collector) : CollectorKind * string * list string :=
  match c with
  | RequestsTotal => (Counter, "gateway_requests_total", ["route"; "method"; "status"])
  | RequestDuration =>
      (Histogram, "gateway_request_duration_seconds", ["route"; "method"])
  | ActiveConnections => (Gauge, "gateway_active_connections", [])
  | RateLimitHits => (Counter, "gateway_rate_limit_hits_total", ["route"])
  | AuthFailures => (Counter, "gateway_auth_failures_total", ["reason"])
  | BackendErrors =>
      (Counter, "gateway_backend_errors_total", ["route"; "backend"; "status"])
  | RetryTotal => (Counter, "gateway_retries_total", ["route"; "backend"])
  | CircuitBreakerStateChanges =>
      (Counter, "gateway_circuit_breaker_state_changes_total", ["backend"; "from"; "to"])
  | CircuitBreakerState => (Gauge, "gateway_circuit_breaker_state", ["backend"])
  | BulkheadRejections =>
      (Counter, "gateway_bulkhead_rejections_total", ["backend"])
  | BulkheadInFlight => (Gauge, "gateway_bulkhead_in_flight", ["backend"])
  | RateLimitClientsTracked => (Gauge, "gateway_ratelimit_clients_tracked", [])
  | RateLimitClientsEvicted =>
      (Counter, "gateway_ratelimit_clients_evicted_total", [])
  | ConfigReloadRollbacks =>
      (Counter, "gateway_config_reload_rollbacks_total", ["reason"])
  end.

Definition collector_kind (c : Collector) : CollectorKind := (collector_opts c).1.1.
Definition collector_name (c : Collector) : string := (collector_opts c).1.2.
Definition collector_labels (c : Collector) : list string := (collector_opts c).2.

Inductive MetricOp :=
| Inc
| Dec
| Add (x : float64)
| SetTo (x : float64)
| Observe (x : float64).

(** One call [m.<collector>.WithLabelValues(labels...).<op>()]. *)
Record MetricEvent := mkEvent {
  ev_collector : Collector;
  ev_labels : list string;
  ev_op : MetricOp
}.

(** The operations the collector's Go type offers. *)
Definition op_allowed (k : CollectorKind) (o : MetricOp) : bool :=
  match k, o with
  | Counter, (Inc | Add _) => true
  | Gauge, (Inc | Dec | SetTo _) => true
  | Histogram, Observe _ => true
  | _, _ => false
  end.

Definition well_labelled (e : MetricEvent) : bool :=
  bool_decide (length (ev_labels e) = length (collector_labels (ev_collector e)))
  && op_allowed (collector_kind (ev_collector e)) (ev_op e).

(** [m != nil] guards every emission; [on] is that test. *)
Definition emit (on : bool) (es : list MetricEvent) : list MetricEvent :=
  if on then es else [].

(** How often the counter [c] was incremented with these label values. *)
Definition incs (c : Collector) (ls : list string) (es : list MetricEvent) : Z :=
  countZ (λ e, bool_decide (ev_collector e = c) && bool_decide (ev_labels e = ls)
               && match ev_op e with Inc => true | _ => false end) es.

(** [Metrics.IncRollback] *)
Definition IncRollback (reason : string) : list MetricEvent :=
  [mkEvent ConfigReloadRollbacks [reason] Inc].

Lemma collector_name_inj (c d : Collector) : collector_name c = collector_name d → c = d.
Proof. destruct c, d; done. Qed.

Lemma emit_well_labelled (on : bool) (es : list MetricEvent) :
  forallb well_labelled es = true → forallb well_labelled (emit on es) = true.
Proof. by destruct on. Qed.

Lemma incs_app c ls (es es' : list MetricEvent) :
  incs c ls (es ++ es') = incs c ls es + incs c ls es'.
Proof. apply countZ_app. Qed.

#[export] Hint Rewrite incs_app : list_count.
