(* ===== verification/FailureRateBreaker.v ===== *)
(** * The failure-rate circuit breaker
    (internal/circuitbreaker/breaker.go, failure_rate.go)

    Each method runs under the breaker's mutex, so it is one atomic step from a
    state to a state; the clock reading a method takes is its argument [now].
    The ring buffer is the source's: indexing it out of range, or a modulus by
    an empty window, is a run-time panic, here [None]. *)

From S2P Require Import Prelude GoFloat GoStrings Metrics.

Module FailureRate.

Inductive State := StateClosed | StateOpen | StateHalfOpen.

#[global] Instance State_eq_dec : EqDecision State.
Proof. solve_decision. Defined.

(** The [iota] value of a state. *)
Definition state_num (s : State) : Z :=
  match s with StateClosed => 0 | StateOpen => 1 | StateHalfOpen => 2 end.

Definition state_string (s : State) : string :=
  match s with
  | StateClosed => "closed"
  | StateOpen => "open"
  | StateHalfOpen => "half-open"
  end.

Record outcome := mkOutcome { failed : bool }.

#[global] Instance outcome_eq_dec : EqDecision outcome.
Proof. solve_decision. Defined.

Record FailureRateBreaker := mkFailureRate {
  state : State;
  backend : string;
  metrics : bool;              (** [b.metrics != nil] *)
  window : list outcome;
  head : Z;
  count : Z;
  failures : Z;
  windowSize : Z;
  failureThreshold : float64;
  resetTimeout : Duration;
  halfOpenMax : Z;
  halfOpenSuccess : Z;
  openedAt : Time
}.

#[global] Instance FailureRateBreaker_eta : Eta FailureRateBreaker := λ b,
  mkFailureRate (state b) (backend b) (metrics b) (window b) (head b) (count b)
    (failures b) (windowSize b) (failureThreshold b) (resetTimeout b)
    (halfOpenMax b) (halfOpenSuccess b) (openedAt b).

Definition NewFailureRateBreaker (backend : string) (windowSize : Z)
    (failureThreshold : float64) (resetTimeout : Duration) (halfOpenMax : Z)
    (m : bool) : FailureRateBreaker :=
  mkFailureRate StateClosed backend m
    (replicate (Z.to_nat windowSize) (mkOutcome false))
    0 0 0 windowSize failureThreshold resetTimeout halfOpenMax 0 time_zero.

(** [transitionTo]: the state change, its metrics, and the per-state resets. *)
Definition transitionTo (b : FailureRateBreaker) (newState : State) (now : Time)
    : FailureRateBreaker * list MetricEvent :=
  if decide (state b = newState) then (b, [])
  else
    let from := state b in
    let b := b <| state := newState |> in
    let evs := emit (metrics b)
      [mkEvent CircuitBreakerStateChanges
         [backend b; state_string from; state_string newState] Inc;
       mkEvent CircuitBreakerState [backend b] (SetTo (f64 (state_num newState)))] in
    let b :=
      match newState with
      | StateClosed =>
          b <| head := 0 |> <| count := 0 |> <| failures := 0 |>
            <| halfOpenSuccess := 0 |>
      | StateOpen => b <| openedAt := now |> <| halfOpenSuccess := 0 |>
      | StateHalfOpen => b <| halfOpenSuccess := 0 |>
      end in
    (b, evs).

(** [b.window[i]], [b.window[i] = o] *)
Definition window_get (w : list outcome) (i : Z) : option outcome :=
  if decide (0 ≤ i) then w !! Z.to_nat i else None.

Definition window_set (w : list outcome) (i : Z) (o : outcome)
    : option (list outcome) :=
  if decide (0 ≤ i < Z.of_nat (length w)) then Some (<[Z.to_nat i := o]> w)
  else None.

Definition recordOutcome (b : FailureRateBreaker) (f : bool)
    : option FailureRateBreaker :=
  b ← (if decide (count b = windowSize b) then
         o ← window_get (window b) (head b);
         Some (if failed o then b <| failures := failures b - 1 |> else b)
       else Some (b <| count := count b + 1 |>));
  w ← window_set (window b) (head b) (mkOutcome f);
  let b := b <| window := w |> in
  let b := if f then b <| failures := failures b + 1 |> else b in
  if decide (windowSize b = 0) then None
  else Some (b <| head := Z.rem (head b + 1) (windowSize b) |>).

Definition failureRate (b : FailureRateBreaker) : float64 :=
  if decide (count b = 0) then f64 0 else fdiv (f64 (failures b)) (f64 (count b)).

Definition Allow (b : FailureRateBreaker) (now : Time)
    : bool * FailureRateBreaker * list MetricEvent :=
  match state b with
  | StateClosed => (true, b, [])
  | StateOpen =>
      if decide (resetTimeout b ≤ time_sub now (openedAt b)) then
        let '(b, evs) := transitionTo b StateHalfOpen now in (true, b, evs)
      else (false, b, [])
  | StateHalfOpen => (true, b, [])
  end.

Definition RecordSuccess (b : FailureRateBreaker) (now : Time)
    : option (FailureRateBreaker * list MetricEvent) :=
  match state b with
  | StateClosed => b ← recordOutcome b false; Some (b, [])
  | StateHalfOpen =>
      let b := b <| halfOpenSuccess := halfOpenSuccess b + 1 |> in
      if decide (halfOpenMax b ≤ halfOpenSuccess b) then
        Some (transitionTo b StateClosed now)
      else Some (b, [])
  | StateOpen => Some (b, [])
  end.

Definition RecordFailure (b : FailureRateBreaker) (now : Time)
    : option (FailureRateBreaker * list MetricEvent) :=
  match state b with
  | StateClosed =>
      b ← recordOutcome b true;
      if decide (windowSize b ≤ count b)
      then if fleb (failureThreshold b) (failureRate b)
           then Some (transitionTo b StateOpen now)
           else Some (b, [])
      else Some (b, [])
  | StateHalfOpen => Some (transitionTo b StateOpen now)
  | StateOpen => Some (b, [])
  end.

Definition Reset (b : FailureRateBreaker) (now : Time)
    : FailureRateBreaker * list MetricEvent :=
  transitionTo b StateClosed now.

Definition SetFailureThreshold (b : FailureRateBreaker) (t : float64)
    : FailureRateBreaker :=
  b <| failureThreshold := t |>.

Example trips_at_threshold :
  let b := NewFailureRateBreaker "b" 2 (f64_lit 1 2) Second 1 true in
  (b ← RecordSuccess b 10; b ← RecordFailure b.1 20; Some (state b.1, openedAt b.1))
  = Some (StateOpen, 20).
Proof. vm_compute. reflexivity. Qed.

(** ** The representation invariant *)

(** The recorded outcomes, oldest first. *)
Definition recent (b : FailureRateBreaker) : list outcome :=
  if decide (count b = windowSize b)
  then drop (Z.to_nat (head b)) (window b) ++ take (Z.to_nat (head b)) (window b)
  else take (Z.to_nat (count b)) (window b).

Record wf (b : FailureRateBreaker) : Prop := {
  wf_size : 1 ≤ windowSize b ≤ int64_max;
  wf_window : Z.of_nat (length (window b)) = windowSize b;
  wf_count : 0 ≤ count b ≤ windowSize b;
  wf_head : 0 ≤ head b < windowSize b;
  wf_partial : count b < windowSize b → head b = count b;
  wf_failures : failures b = countZ failed (recent b);
  wf_half : 0 ≤ halfOpenSuccess b
}.

Lemma length_recent (b : FailureRateBreaker) :
  wf b → Z.of_nat (length (recent b)) = count b.
Proof.
  intros [? Hw ? ? ? ? ?]. unfold recent. case_decide.
  - rewrite length_app, length_drop, length_take. lia.
  - rewrite length_take. lia.
Qed.

(** The counters stay within the window, so none of them can overflow. *)
Lemma wf_bounds (b : FailureRateBreaker) : wf b → 0 ≤ failures b ≤ count b.
Proof.
  intros Hb. rewrite <-(length_recent b Hb), (wf_failures b Hb).
  apply countZ_bound.
Qed.

Lemma NewFailureRateBreaker_wf be ws thr rt hm m :
  1 ≤ ws ≤ int64_max → wf (NewFailureRateBreaker be ws thr rt hm m).
Proof.
  intros Hws. split; simpl; try lia.
  - rewrite length_replicate. lia.
  - unfold recent. simpl. case_decide; [lia | done].
Qed.

(** What [recordOutcome] changes. *)
Definition with_ring (b : FailureRateBreaker) w h c n : FailureRateBreaker :=
  b <| window := w |> <| head := h |> <| count := c |> <| failures := n |>.

Section ring.
Context (l r : list outcome) (o x : outcome).

Lemma ring_rotate :
  drop (length l) (l ++ o :: r) ++ take (length l) (l ++ o :: r) = o :: r ++ l.
Proof. by rewrite drop_app_length, take_app_length. Qed.

Lemma ring_rotate_next :
  drop (length l + 1) (l ++ x :: r) ++ take (length l + 1) (l ++ x :: r)
  = r ++ l ++ [x].
Proof.
  replace (l ++ x :: r) with ((l ++ [x]) ++ r) by (by rewrite <-app_assoc).
  replace (length l + 1)%nat with (length (l ++ [x])) by (rewrite length_app; done).
  by rewrite drop_app_length, take_app_length.
Qed.
End ring.

(** A ring slot in range splits the buffer around it. *)
Lemma ring_split (w : list outcome) (i : Z) :
  0 ≤ i < Z.of_nat (length w) →
  ∃ l o r, w = l ++ o :: r ∧ i = Z.of_nat (length l) ∧
    window_get w i = Some o ∧
    ∀ x, window_set w i x = Some (l ++ x :: r).
Proof.
  intros Hi. destruct (lookup_lt_is_Some_2 w (Z.to_nat i)) as [o Ho]; [lia |].
  exists (take (Z.to_nat i) w), o, (drop (S (Z.to_nat i)) w).
  split; [by rewrite take_drop_middle |].
  split; [rewrite length_take; lia |].
  unfold window_get, window_set. split.
  - by rewrite decide_True by lia.
  - intros x. rewrite decide_True by lia.
    by rewrite insert_take_drop by lia.
Qed.

Lemma countZ_cons_failed (o : outcome) (l : list outcome) :
  countZ failed l = countZ failed (o :: l) - (if failed o then 1 else 0).
Proof. simpl. destruct (failed o); lia. Qed.

(** The contract of [recordOutcome]: it does not panic on a well-formed breaker
    and slides the window, appending the outcome and dropping the oldest one of
    a full window. *)
Definition slides (b : FailureRateBreaker) (f : bool) : Prop :=
  ∃ w h c n, let b' := with_ring b w h c n in
    recordOutcome b f = Some b' ∧ wf b' ∧
    recent b' = lastn (Z.to_nat (windowSize b)) (recent b ++ [mkOutcome f]) ∧
    c = Z.min (count b + 1) (windowSize b).

(** The rotated contents after overwriting the oldest slot of a full ring. *)
Lemma full_ring_next (l r : list outcome) (x : outcome) (ws : Z) :
  Z.of_nat (length (l ++ x :: r)) = ws →
  let h := Z.to_nat (Z.rem (Z.of_nat (length l) + 1) ws) in
  drop h (l ++ x :: r) ++ take h (l ++ x :: r) = (r ++ l) ++ [x].
Proof.
  rewrite length_app. simpl. intros Hw.
  destruct (decide (Z.of_nat (length l) + 1 = ws)) as [He|He].
  - rewrite He, Z.rem_same by lia.
    destruct r; [|simpl in *; lia]. simpl. by rewrite take_0, app_nil_r.
  - rewrite Z.rem_small by lia.
    replace (Z.to_nat (Z.of_nat (length l) + 1)) with (length l + 1)%nat by lia.
    by rewrite ring_rotate_next, app_assoc.
Qed.

Lemma recordOutcome_full (b : FailureRateBreaker) (f : bool) :
  wf b → count b = windowSize b → slides b f.
Proof.
  intros Hb Hfull. pose proof (length_recent b Hb) as Hlen.
  destruct b as [st be m w h c fl ws thr rt hm hs oa].
  destruct Hb as [Hws Hw Hc Hh Hpart Hf Hhalf]; simpl in *; subst c.
  destruct (ring_split w h) as (l & o & r & -> & -> & Hget & Hset); [lia |].
  unfold recent in Hf, Hlen; simpl in *.
  rewrite decide_True, Nat2Z.id, ring_rotate in Hf, Hlen by done.
  set (x := mkOutcome f). set (h' := Z.rem (Z.of_nat (length l) + 1) ws).
  set (n := (if failed o then fl - 1 else fl) + if f then 1 else 0).
  assert (Hrec : drop (Z.to_nat h') (l ++ x :: r) ++ take (Z.to_nat h') (l ++ x :: r)
                 = (r ++ l) ++ [x]).
  { apply full_ring_next. rewrite length_app in *. done. }
  assert (Hn : n = countZ failed ((r ++ l) ++ [x])).
  { unfold n. rewrite countZ_app, (countZ_cons_failed o (r ++ l)).
    change (o :: r ++ l) with (o :: (r ++ l)) in Hf. rewrite <-Hf. simpl.
    destruct (failed o), f; lia. }
  exists (l ++ x :: r), h', ws, n.
  split; [|split; [|split]]; unfold with_ring; simpl; [| |unfold recent; simpl |lia].
  - unfold recordOutcome; simpl. rewrite decide_True, Hget by done. simpl.
    unfold x, n, h'. destruct (failed o), f; simpl; rewrite Hset; simpl;
      rewrite decide_False by lia; unfold update; do 2 f_equal; lia.
  - split; unfold recent; simpl; try lia.
    + rewrite length_app in *; simpl in *; lia.
    + apply Z.rem_bound_pos; lia.
    + by rewrite decide_True, Hrec.
  - rewrite !decide_True, Hrec, Nat2Z.id, ring_rotate by done.
    symmetry. apply (lastn_snoc_full _ o _ (r ++ l)). simpl in *. lia.
Qed.

Lemma recordOutcome_partial (b : FailureRateBreaker) (f : bool) :
  wf b → count b ≠ windowSize b → slides b f.
Proof.
  intros Hb Hpartial. pose proof (length_recent b Hb) as Hlen.
  destruct b as [st be m w h c fl ws thr rt hm hs oa].
  destruct Hb as [Hws Hw Hc Hh Hpart Hf Hhalf]; simpl in *.
  assert (h = c) as -> by lia.
  destruct (ring_split w c) as (l & o & r & -> & -> & _ & Hset); [lia |].
  unfold recent in Hf, Hlen; simpl in *.
  rewrite decide_False, Nat2Z.id, take_app_length in Hf, Hlen by done.
  set (x := mkOutcome f). set (c := Z.of_nat (length l) + 1).
  set (n := fl + if f then 1 else 0).
  rewrite length_app in Hw; simpl in Hw.
  assert (Hrec : recent (mkFailureRate st be m (l ++ x :: r) (Z.rem c ws) c n ws
                           thr rt hm hs oa) = l ++ [x]).
  { unfold recent; simpl. unfold c. case_decide as He.
    - rewrite He, Z.rem_same by lia. destruct r; [|simpl in *; lia].
      simpl. by rewrite take_0, app_nil_r.
    - replace (l ++ x :: r) with ((l ++ [x]) ++ r) by (by rewrite <-app_assoc).
      apply take_app_length'. rewrite length_app; simpl; lia. }
  exists (l ++ x :: r), (Z.rem c ws), c, n.
  split; [|split; [|split]]; unfold with_ring; simpl.
  - unfold recordOutcome; simpl. rewrite decide_False by lia. simpl.
    unfold x, n. destruct f; simpl; rewrite Hset; simpl;
      rewrite decide_False by lia; unfold update; do 2 f_equal; lia.
  - split; simpl; try (unfold c; lia).
    + rewrite length_app; simpl; lia.
    + apply Z.rem_bound_pos; lia.
    + intros. apply Z.rem_small. lia.
    + rewrite Hrec, countZ_app, <-Hf. unfold n. simpl. destruct f; lia.
  - rewrite Hrec. unfold recent; simpl.
    rewrite decide_False, Nat2Z.id, take_app_length by lia.
    symmetry. apply lastn_all. rewrite length_app; simpl; lia.
  - unfold c. lia.
Qed.

Lemma recordOutcome_spec (b : FailureRateBreaker) (f : bool) : wf b → slides b f.
Proof.
  intros Hb. destruct (decide (count b = windowSize b));
    eauto using recordOutcome_full, recordOutcome_partial.
Qed.

(** ** The abstract breaker

    What the breaker promises, without the ring buffer: in the closed mode it
    remembers the last [ab_size] outcomes and trips when that many are known
    and their failure ratio reaches the threshold. *)

Inductive mode :=
| Closed (hist : list bool)
| Open (since : Time)
| HalfOpen (successes : Z).

Record abstract := mkAbstract {
  ab_size : nat;
  ab_threshold : float64;
  ab_reset : Duration;
  ab_max : Z;
  ab_mode : mode
}.

#[global] Instance abstract_eta : Eta abstract := λ a,
  mkAbstract (ab_size a) (ab_threshold a) (ab_reset a) (ab_max a) (ab_mode a).

(** The share of [true] in a history, as the code computes it in floats. *)
Definition ratio (hist : list bool) : float64 :=
  match hist with
  | [] => f64 0
  | _ => fdiv (f64 (countZ id hist)) (f64 (Z.of_nat (length hist)))
  end.

(** The calls on a breaker. *)
Inductive op :=
| OpAllow
| OpSuccess
| OpFailure
| OpReset
| OpSetThreshold (t : float64).

(** One call on the abstract breaker at time [now]: [Allow]'s answer, if it is
    one, and the next state. *)
Definition spec_step (o : op) (now : Time) (a : abstract) : option bool * abstract :=
  let slide h f := lastn (ab_size a) (h ++ [f]) in
  match o, ab_mode a with
  | OpAllow, Open since =>
      if decide (ab_reset a ≤ time_sub now since)
      then (Some true, a <| ab_mode := HalfOpen 0 |>) else (Some false, a)
  | OpAllow, _ => (Some true, a)
  | OpSuccess, Closed h => (None, a <| ab_mode := Closed (slide h false) |>)
  | OpSuccess, HalfOpen n =>
      (None, a <| ab_mode := if decide (ab_max a ≤ n + 1) then Closed []
                             else HalfOpen (n + 1) |>)
  | OpFailure, Closed h =>
      let h := slide h true in
      (None, a <| ab_mode :=
         if decide (ab_size a ≤ length h)%nat
         then if fleb (ab_threshold a) (ratio h) then Open now else Closed h
         else Closed h |>)
  | OpFailure, HalfOpen _ => (None, a <| ab_mode := Open now |>)
  | (OpSuccess | OpFailure), Open _ => (None, a)
  | OpReset, Closed _ => (None, a)
  | OpReset, _ => (None, a <| ab_mode := Closed [] |>)
  | OpSetThreshold t, _ => (None, a <| ab_threshold := t |>)
  end.

(** The same calls on the concrete breaker. *)
Definition step (o : op) (now : Time) (b : FailureRateBreaker)
    : option (option bool * FailureRateBreaker * list MetricEvent) :=
  match o with
  | OpAllow => let '(r, b, e) := Allow b now in Some (Some r, b, e)
  | OpSuccess => '(b, e) ← RecordSuccess b now; Some (None, b, e)
  | OpFailure => '(b, e) ← RecordFailure b now; Some (None, b, e)
  | OpReset => let '(b, e) := Reset b now in Some (None, b, e)
  | OpSetThreshold t => Some (None, SetFailureThreshold b t, [])
  end.

(** A sequence of calls with their clock readings: the answers, the final
    state and the metrics emitted. *)
Fixpoint run (ops : list (op * Time)) (b : FailureRateBreaker)
    : option (list (option bool) * FailureRateBreaker * list MetricEvent) :=
  match ops with
  | [] => Some ([], b, [])
  | (o, now) :: ops =>
      '(r, b, e) ← step o now b;
      '(rs, b, es) ← run ops b;
      Some (r :: rs, b, e ++ es)
  end.

Fixpoint spec_run (ops : list (op * Time)) (a : abstract)
    : list (option bool) * abstract :=
  match ops with
  | [] => ([], a)
  | (o, now) :: ops =>
      let '(r, a) := spec_step o now a in
      let '(rs, a) := spec_run ops a in (r :: rs, a)
  end.

(** The abstraction function. *)
Definition abs (b : FailureRateBreaker) : abstract :=
  mkAbstract (Z.to_nat (windowSize b)) (failureThreshold b) (resetTimeout b)
    (halfOpenMax b)
    match state b with
    | StateClosed => Closed (failed <$> recent b)
    | StateOpen => Open (openedAt b)
    | StateHalfOpen => HalfOpen (halfOpenSuccess b)
    end.

(** ** Refinement *)

Lemma countZ_failed (l : list outcome) : countZ id (failed <$> l) = countZ failed l.
Proof. induction l as [|o l IH]; csimpl; [done | by rewrite IH]. Qed.

Lemma failureRate_ratio (b : FailureRateBreaker) :
  wf b → failureRate b = ratio (failed <$> recent b).
Proof.
  intros Hb. unfold failureRate, ratio.
  rewrite countZ_failed, length_fmap, (wf_failures b Hb), <-(length_recent b Hb).
  destruct (recent b); [done |]. case_decide as Hc; [simpl in Hc; lia | done].
Qed.

(** A transition keeps the invariant and never touches the recorded window,
    except that closing empties it. *)
Lemma transitionTo_wf (b : FailureRateBreaker) (s : State) (now : Time) :
  wf b → wf (transitionTo b s now).1.
Proof.
  intros Hb. unfold transitionTo. case_decide; [done |].
  destruct Hb, s; split; simpl; unfold recent in *; simpl; try done; try lia.
  by rewrite decide_False by lia.
Qed.

Lemma recent_closed (b : FailureRateBreaker) :
  wf b → recent (b <| head := 0 |> <| count := 0 |>) = [].
Proof. intros Hb. unfold recent. simpl. destruct Hb. case_decide; [lia | done]. Qed.

Lemma wf_success (b : FailureRateBreaker) :
  wf b → wf (b <| halfOpenSuccess := halfOpenSuccess b + 1 |>).
Proof. intros []. split; simpl; try done; lia. Qed.

Lemma wf_threshold (b : FailureRateBreaker) (t : float64) :
  wf b → wf (SetFailureThreshold b t).
Proof. intros []. by split. Qed.

(** The invariant and the simulation, for one concrete result. *)
Definition refines (o : op) (now : Time) (b : FailureRateBreaker) : Prop :=
  ∃ r b' e, step o now b = Some (r, b', e) ∧ wf b' ∧
    spec_step o now (abs b) = (r, abs b').

#[local] Hint Resolve wf_success wf_threshold transitionTo_wf : core.

Lemma abs_mode_slide (b : FailureRateBreaker) (f : bool) :
  wf b → state b = StateClosed →
  ∃ b', recordOutcome b f = Some b' ∧ wf b' ∧ state b' = StateClosed ∧
    windowSize b' = windowSize b ∧ failureThreshold b' = failureThreshold b ∧
    metrics b' = metrics b ∧ backend b' = backend b ∧
    abs b' = (abs b) <| ab_mode := Closed (lastn (Z.to_nat (windowSize b))
                                    ((failed <$> recent b) ++ [f])) |>.
Proof.
  intros Hb Hst. destruct (recordOutcome_spec b f Hb) as (w & h & c & n & Hrec & Hwf & Hr & _).
  eexists. split; [exact Hrec |]. split; [done |].
  repeat split; [done |]. unfold abs. simpl in *. rewrite Hst.
  do 2 f_equal. rewrite Hr. unfold lastn.
  by rewrite fmap_drop, fmap_app, !length_app, length_fmap.
Qed.

(** The mode a transition leads to. *)
Definition entered (s : State) (now : Time) : mode :=
  match s with
  | StateClosed => Closed []
  | StateOpen => Open now
  | StateHalfOpen => HalfOpen 0
  end.

Lemma transitionTo_abs (b : FailureRateBreaker) (s : State) (now : Time) :
  wf b → state b ≠ s →
  abs (transitionTo b s now).1 = (abs b) <| ab_mode := entered s now |>.
Proof.
  intros Hb Hne. unfold transitionTo. rewrite decide_False by done.
  destruct s; unfold abs; simpl; [|done..].
  do 2 f_equal. unfold recent; simpl. destruct Hb. by rewrite decide_False by lia.
Qed.

(** A step that consists of a transition refines the abstract step. *)
Lemma refines_transition (o : op) (now : Time) (b : FailureRateBreaker) r b0 s :
  step o now b =
    (let '(b', e) := transitionTo b0 s now in Some (r, b', e)) →
  wf b0 → state b0 ≠ s →
  spec_step o now (abs b) = (r, (abs b0) <| ab_mode := entered s now |>) →
  refines o now b.
Proof.
  intros Hstep Hb0 Hne Hspec. unfold refines. rewrite Hstep.
  pose proof (transitionTo_wf b0 s now Hb0) as Hwf.
  pose proof (transitionTo_abs b0 s now Hb0 Hne) as Habs.
  destruct (transitionTo b0 s now) as [b' e]. simpl in *.
  exists r, b', e. by rewrite Habs.
Qed.

(** A step that leaves the breaker as it is. *)
Lemma refines_same (o : op) (now : Time) (b : FailureRateBreaker) r :
  wf b → step o now b = Some (r, b, []) → spec_step o now (abs b) = (r, abs b) →
  refines o now b.
Proof. intros. by exists r, b, []. Qed.

Lemma abs_mode_eq (b : FailureRateBreaker) :
  ab_mode (abs b) = match state b with
                    | StateClosed => Closed (failed <$> recent b)
                    | StateOpen => Open (openedAt b)
                    | StateHalfOpen => HalfOpen (halfOpenSuccess b)
                    end.
Proof. done. Qed.

Ltac refine_step Hst :=
  unfold step, Allow, RecordSuccess, RecordFailure, Reset, spec_step;
  rewrite ?abs_mode_eq, ?Hst; simpl.

Lemma refines_allow (now : Time) (b : FailureRateBreaker) : wf b → refines OpAllow now b.
Proof.
  intros Hb. destruct (state b) eqn:Hst; [by apply (refines_same _ _ _ (Some true)); [|refine_step Hst..] | |
    by apply (refines_same _ _ _ (Some true)); [|refine_step Hst..]].
  destruct (decide (resetTimeout b ≤ time_sub now (openedAt b))) as [Hd|Hd].
  - apply (refines_transition _ _ _ (Some true) b StateHalfOpen); [|done|congruence|];
      refine_step Hst; rewrite decide_True by done; [by destruct (transitionTo _ _ _) | done].
  - apply (refines_same _ _ _ (Some false)); [done|..];
      refine_step Hst; by rewrite decide_False by done.
Qed.

Lemma refines_success (now : Time) (b : FailureRateBreaker) :
  wf b → refines OpSuccess now b.
Proof.
  intros Hb. destruct (state b) eqn:Hst.
  - destruct (abs_mode_slide b false Hb Hst) as (b' & Hr & Hwf & ? & ? & ? & ? & ? & Habs).
    exists None, b', []. rewrite Habs. refine_step Hst. by rewrite Hr.
  - apply (refines_same _ _ _ None); [done|..]; by refine_step Hst.
  - set (b0 := b <| halfOpenSuccess := halfOpenSuccess b + 1 |>).
    destruct (decide (halfOpenMax b ≤ halfOpenSuccess b + 1)) as [Hd|Hd].
    + apply (refines_transition _ _ _ None b0 StateClosed);
        [|by apply wf_success | simpl; congruence |];
        refine_step Hst; by rewrite decide_True by done.
    + exists None, b0, []. split; [|split; [by apply wf_success |]];
        refine_step Hst; rewrite decide_False by done; [done |].
      unfold abs; simpl. by rewrite Hst.
Qed.

Lemma refines_failure (now : Time) (b : FailureRateBreaker) :
  wf b → refines OpFailure now b.
Proof.
  intros Hb. destruct (state b) eqn:Hst.
  - destruct (abs_mode_slide b true Hb Hst)
      as (b' & Hr & Hwf & Hst' & Hsz & Hth & Hm & Hbe & Habs).
    pose proof (length_recent b' Hwf) as Hlen. pose proof (failureRate_ratio b' Hwf) as Hrate.
    assert (lastn (Z.to_nat (windowSize b)) ((failed <$> recent b) ++ [true])
            = failed <$> recent b') as Hrec.
    { pose proof (f_equal ab_mode Habs) as Hmode. rewrite abs_mode_eq, Hst' in Hmode.
      simpl in Hmode. congruence. }
    assert (Hfull : windowSize b' ≤ count b' ↔
      (Z.to_nat (windowSize b) ≤ length (failed <$> recent b'))%nat).
    { rewrite length_fmap, Hsz. destruct Hb. lia. }
    destruct (decide (windowSize b' ≤ count b')) as [Hd|Hd];
      [destruct (fleb (failureThreshold b') (failureRate b')) eqn:Hle |].
    + apply (refines_transition _ _ _ None b' StateOpen); [|done|congruence|rewrite Habs];
        refine_step Hst.
      * rewrite Hr; simpl. by rewrite decide_True, Hle by done.
      * rewrite Hrec, decide_True by tauto. by rewrite <-Hrate, <-Hth, Hle.
    + exists None, b', []. rewrite Habs. refine_step Hst. rewrite Hr; simpl.
      rewrite decide_True, Hle by done. split; [done |]. split; [done |].
      rewrite Hrec, decide_True by tauto. by rewrite <-Hrate, <-Hth, Hle.
    + exists None, b', []. rewrite Habs. refine_step Hst. rewrite Hr; simpl.
      rewrite decide_False by done. split; [done |]. split; [done |].
      by rewrite Hrec, decide_False by tauto.
  - apply (refines_same _ _ _ None); [done|..]; by refine_step Hst.
  - apply (refines_transition _ _ _ None b StateOpen); [|done|congruence|];
      by refine_step Hst.
Qed.

Lemma refines_reset (now : Time) (b : FailureRateBreaker) : wf b → refines OpReset now b.
Proof.
  intros Hb. destruct (state b) eqn:Hst;
    [apply (refines_same _ _ _ None); [done|..]; refine_step Hst |
     apply (refines_transition _ _ _ None b StateClosed); [|done|congruence|];
       by refine_step Hst..]; [|done].
  unfold transitionTo. by rewrite decide_True.
Qed.

Lemma step_refines (o : op) (now : Time) (b : FailureRateBreaker) :
  wf b → refines o now b.
Proof.
  destruct o; eauto using refines_allow, refines_success, refines_failure, refines_reset.
  intros Hb. exists None, (SetFailureThreshold b t), [].
  split; [done |]. split; [by apply wf_threshold | done].
Qed.

Lemma run_refines (ops : list (op * Time)) (b : FailureRateBreaker) :
  wf b → ∃ rs b' es, run ops b = Some (rs, b', es) ∧ wf b' ∧
    spec_run ops (abs b) = (rs, abs b').
Proof.
  revert b. induction ops as [|[o now] ops IH]; intros b Hb; simpl.
  - by exists [], b, [].
  - destruct (step_refines o now b Hb) as (r & b1 & e & -> & Hb1 & ->). simpl.
    destruct (IH b1 Hb1) as (rs & b2 & es & -> & Hb2 & ->). simpl.
    by exists (r :: rs), b2, (e ++ es).
Qed.

(** ** Lemmas on the abstract breaker *)

(** While an open breaker's timeout has not elapsed, no call but [Reset] changes
    its mode. *)
Definition not_reset (o : op) : bool := match o with OpReset => false | _ => true end.

Definition rejected (r : option bool) : Prop := r ≠ Some true.

Lemma spec_run_open (ops : list (op * Time)) (a : abstract) (since : Time) :
  ab_mode a = Open since →
  Forall (λ c, not_reset c.1 = true ∧ time_sub c.2 since < ab_reset a) ops →
  Forall rejected (spec_run ops a).1 ∧ ab_mode (spec_run ops a).2 = Open since.
Proof.
  revert a. induction ops as [|[o now] ops IH]; intros a Hm Hall; simpl; [done |].
  apply Forall_cons_iff in Hall as [[Ho Hnow] Hall]; simpl in *.
  destruct o; simpl in *; try done; rewrite ?Hm; simpl;
    [rewrite decide_False by lia |..];
    match goal with |- context [spec_run ops ?a'] =>
      destruct (IH a') as [Hr Hm']; [done | done |]; destruct (spec_run ops a')
    end; simpl in *; (split; [|done]);
    (constructor; [unfold rejected; congruence | done]).
Qed.

(** [k] consecutive successes in the half-open mode. *)
Lemma spec_run_half_open (times : list Time) (a : abstract) (n : Z) :
  ab_mode a = HalfOpen n → 0 ≤ n →
  n + Z.of_nat (length times) < ab_max a →
  (spec_run ((λ t, (OpSuccess, t)) <$> times) a).2 =
    a <| ab_mode := HalfOpen (n + Z.of_nat (length times)) |>.
Proof.
  revert a n. induction times as [|t times IH]; intros a n Hm Hn Hlt; simpl.
  - destruct a; simpl in *; subst. do 2 f_equal. lia.
  - rewrite Hm. simpl in *. rewrite decide_False by lia. simpl.
    match goal with |- context [spec_run _ ?a'] =>
      pose proof (IH a' (n + 1)) as Hrun; destruct (spec_run _ a') end.
    simpl in *. rewrite Hrun by (done || lia). unfold update. f_equal. f_equal. lia.
Qed.

(** Metrics: the value of the last write to the state gauge, if any. *)
Fixpoint last_gauge (es : list MetricEvent) (default : float64) : float64 :=
  match es with
  | [] => default
  | e :: es =>
      last_gauge es match ev_collector e, ev_op e with
                    | CircuitBreakerState, SetTo v => v
                    | _, _ => default
                    end
  end.

Lemma last_gauge_app (es es' : list MetricEvent) (d : float64) :
  last_gauge (es ++ es') d = last_gauge es' (last_gauge es d).
Proof. revert d. induction es as [|e es IH]; intros d; simpl; auto. Qed.

(** Events agree with a state change. *)
Definition reports (es : list MetricEvent) (from to : State) : Prop :=
  last_gauge es (f64 (state_num from)) = f64 (state_num to) ∧
  forallb well_labelled es = true.

Lemma reports_nil (s : State) : reports [] s s.
Proof. done. Qed.

Lemma reports_app (es es' : list MetricEvent) (s t u : State) :
  reports es s t → reports es' t u → reports (es ++ es') s u.
Proof.
  intros [H1 H2] [H3 H4]. split; [by rewrite last_gauge_app, H1 |].
  by rewrite forallb_app, H2, H4.
Qed.

Lemma transitionTo_reports (b : FailureRateBreaker) (s : State) (now : Time) :
  metrics b = true →
  let '(b', es) := transitionTo b s now in
  reports es (state b) (state b') ∧ metrics b' = true.
Proof.
  intros Hm. unfold transitionTo. case_decide as Hs; [done |].
  simpl. rewrite Hm. by destruct s.
Qed.

Lemma recordOutcome_frame (b b' : FailureRateBreaker) (f : bool) :
  recordOutcome b f = Some b' → state b' = state b ∧ metrics b' = metrics b.
Proof.
  unfold recordOutcome. intros H.
  repeat (case_match || destruct (window_get _ _) || destruct (window_set _ _ _)
          || simpl in * ); by simplify_eq/=.
Qed.

(** The events of a step from [b] to [b'] report its state change. *)
Definition faithful (b b' : FailureRateBreaker) (es : list MetricEvent) : Prop :=
  reports es (state b) (state b') ∧ metrics b' = true.

Lemma faithful_same (b b' : FailureRateBreaker) :
  metrics b = true → state b' = state b → metrics b' = metrics b → faithful b b' [].
Proof. intros ? Hs ?. split; [rewrite Hs; apply reports_nil | congruence]. Qed.

Lemma faithful_transition (b b0 : FailureRateBreaker) s now (r0 : option bool) o :
  metrics b = true → state b0 = state b → metrics b0 = metrics b →
  (let '(b1, e) := transitionTo b0 s now in Some (r0, b1, e)) = Some o →
  faithful b o.1.2 o.2.
Proof.
  intros Hm Hs Hm0 Heq. pose proof (transitionTo_reports b0 s now) as H.
  destruct (transitionTo b0 s now) as [b1 e]. simplify_eq/=.
  rewrite Hs in H. apply H. congruence.
Qed.

#[local] Hint Resolve faithful_same : core.

Lemma step_faithful (o : op) (now : Time) (b : FailureRateBreaker) res :
  metrics b = true → step o now b = Some res → faithful b res.1.2 res.2.
Proof.
  intros Hm. destruct o; simpl; unfold Allow, RecordSuccess, RecordFailure, Reset.
  - destruct (state b) eqn:Hst; [intros; simplify_eq/=; by auto | | intros; simplify_eq/=; by auto].
    case_decide; [|intros; simplify_eq/=; by auto].
    intros H1. apply (faithful_transition b b StateHalfOpen now (Some true)); auto.
    by destruct (transitionTo _ _ _).
  - destruct (state b) eqn:Hst; [| intros; simplify_eq/=; by auto |].
    + destruct (recordOutcome b false) as [b1|] eqn:Hr; [|done].
      apply recordOutcome_frame in Hr as [??]. intros; simplify_eq/=; by auto.
    + simpl. case_decide; simpl; [by apply faithful_transition |].
      intros; simplify_eq/=; by auto.
  - destruct (state b) eqn:Hst; [| intros; simplify_eq/=; by auto | by apply faithful_transition].
    destruct (recordOutcome b true) as [b1|] eqn:Hr; [|done]; simpl.
    apply recordOutcome_frame in Hr as [??].
    case_decide; [case_match |]; simpl;
      [by apply faithful_transition | intros; simplify_eq/=; by auto..].
  - by apply faithful_transition.
  - intros. simplify_eq. auto.
Qed.

Lemma run_reports (ops : list (op * Time)) (b b' : FailureRateBreaker) rs es :
  metrics b = true → run ops b = Some (rs, b', es) →
  reports es (state b) (state b').
Proof.
  revert b rs es. induction ops as [|[o now] ops IH]; intros b rs es Hm; simpl.
  - intros; by simplify_eq.
  - destruct (step o now b) as [[[r b1] e]|] eqn:Hs; [|done]; simpl.
    destruct (run ops b1) as [[[rs1 b2] e2]|] eqn:Hr; [|done]; simpl.
    intros ?; simplify_eq. apply step_faithful in Hs as [? ?]; [|done].
    eauto using reports_app.
Qed.

(** No call changes the breaker's parameters, except the threshold. *)
Lemma transitionTo_reset_timeout (b : FailureRateBreaker) s now :
  resetTimeout (transitionTo b s now).1 = resetTimeout b.
Proof. unfold transitionTo. case_decide; [done | by destruct s]. Qed.

Lemma spec_step_reset o now (a : abstract) : ab_reset (spec_step o now a).2 = ab_reset a.
Proof.
  unfold spec_step. destruct o, (ab_mode a) eqn:?; try done.
  by case_decide.
Qed.

Lemma spec_run_reset ops (a : abstract) : ab_reset (spec_run ops a).2 = ab_reset a.
Proof.
  revert a. induction ops as [|[o now] ops IH]; intros a; simpl; [done |].
  pose proof (spec_step_reset o now a) as Hs.
  destruct (spec_step o now a) as [r a1]. pose proof (IH a1).
  destruct (spec_run ops a1); simpl in *; congruence.
Qed.

Lemma run_reset_timeout ops (b b' : FailureRateBreaker) rs es :
  wf b → run ops b = Some (rs, b', es) → resetTimeout b' = resetTimeout b.
Proof.
  intros Hb Hrun. destruct (run_refines ops b Hb) as (? & ? & ? & Hrun' & _ & Hspec).
  rewrite Hrun' in Hrun. simplify_eq.
  pose proof (spec_run_reset ops (abs b)) as H. by rewrite Hspec in H.
Qed.

(** The abstract mode after one call, read off the concrete breaker. *)
Lemma step_mode (o : op) (now : Time) (b : FailureRateBreaker) :
  wf b → ∃ r b' es, step o now b = Some (r, b', es) ∧ wf b' ∧
    ab_mode (abs b') = ab_mode (spec_step o now (abs b)).2.
Proof.
  intros Hb. destruct (step_refines o now b Hb) as (r & b' & es & ? & ? & Hs).
  exists r, b', es. by rewrite Hs.
Qed.

Lemma mode_open (b : FailureRateBreaker) t :
  ab_mode (abs b) = Open t → state b = StateOpen ∧ openedAt b = t.
Proof. rewrite abs_mode_eq. by destruct (state b); intros; simplify_eq. Qed.

Lemma mode_closed (b : FailureRateBreaker) h :
  ab_mode (abs b) = Closed h → state b = StateClosed ∧ failed <$> recent b = h.
Proof. rewrite abs_mode_eq. by destruct (state b); intros; simplify_eq. Qed.

Lemma mode_half_open (b : FailureRateBreaker) n :
  ab_mode (abs b) = HalfOpen n → state b = StateHalfOpen ∧ halfOpenSuccess b = n.
Proof. rewrite abs_mode_eq. by destruct (state b); intros; simplify_eq. Qed.

Lemma RecordFailure_step (b : FailureRateBreaker) now r b' es :
  step OpFailure now b = Some (r, b', es) → RecordFailure b now = Some (b', es).
Proof. simpl. by destruct (RecordFailure b now) as [[]|]; intros; simplify_eq/=. Qed.

Lemma RecordSuccess_step (b : FailureRateBreaker) now r b' es :
  step OpSuccess now b = Some (r, b', es) → RecordSuccess b now = Some (b', es).
Proof. simpl. by destruct (RecordSuccess b now) as [[]|]; intros; simplify_eq/=. Qed.

(** The history after one more failure. *)
Definition failure_history (b : FailureRateBreaker) : list bool :=
  lastn (Z.to_nat (windowSize b)) ((failed <$> recent b) ++ [true]).

(** ** Properties *)

(** C1. From a fresh breaker with a window of at least one, every sequence of
    calls runs without a panic, keeps the representation invariant, gives the
    answers of the abstract sliding-window breaker started closed with no
    history, and ends in a state that abstracts to the abstract breaker's: the
    ring buffer with its running counters implements the window of the last
    [windowSize] outcomes. *)
Theorem breaker_refines_window (ops : list (op * Time)) be ws thr rt hm m :
  1 ≤ ws ≤ int64_max →
  ∃ rs b' es,
    run ops (NewFailureRateBreaker be ws thr rt hm m) = Some (rs, b', es) ∧ wf b' ∧
    spec_run ops (mkAbstract (Z.to_nat ws) thr rt hm (Closed [])) = (rs, abs b').
Proof.
  intros Hws. set (b := NewFailureRateBreaker be ws thr rt hm m).
  assert (wf b) as Hb by by apply NewFailureRateBreaker_wf.
  destruct (run_refines ops b Hb) as (rs & b' & es & Hrun & Hwf & Hspec).
  exists rs, b', es. split; [done |]. split; [done |]. rewrite <-Hspec. f_equal.
  unfold abs, recent; simpl. by rewrite decide_False by lia.
Qed.

(** C13. An open breaker rejects every request until [resetTimeout] has elapsed
    since it opened, whatever results are recorded and thresholds set in the
    meantime, and stays open with the same opening time; the first [Allow] at or
    after that instant succeeds and moves it to half-open. *)
Theorem open_rejects_until_timeout (b : FailureRateBreaker) (ops : list (op * Time)) :
  wf b → state b = StateOpen →
  Forall (λ c, not_reset c.1 = true ∧ time_sub c.2 (openedAt b) < resetTimeout b) ops →
  ∃ rs b' es, run ops b = Some (rs, b', es) ∧
    Forall rejected rs ∧ state b' = StateOpen ∧ openedAt b' = openedAt b ∧
    ∀ now, resetTimeout b ≤ time_sub now (openedAt b) →
      ∃ b'' es'', Allow b' now = (true, b'', es'') ∧ state b'' = StateHalfOpen.
Proof.
  intros Hb Hst Hops. destruct (run_refines ops b Hb) as (rs & b' & es & Hrun & Hwf & Hspec).
  assert (Hm : ab_mode (abs b) = Open (openedAt b)) by (rewrite abs_mode_eq; by rewrite Hst).
  destruct (spec_run_open ops (abs b) (openedAt b) Hm Hops) as [Hr Hm'].
  rewrite Hspec in Hr, Hm'. simpl in Hr, Hm'.
  destruct (state b') eqn:Hst'; try done. injection Hm' as Hop.
  exists rs, b', es. repeat split; auto. intros now Hnow.
  assert (resetTimeout b' = resetTimeout b) as Hrt by (eapply run_reset_timeout; eauto).
  unfold Allow. rewrite Hst', decide_True by (by rewrite Hrt, Hop).
  unfold transitionTo. rewrite Hst', decide_False by done. by eexists _, _.
Qed.

(** C14. A closed breaker trips on a failure exactly when the last [windowSize]
    outcomes are all known and their failure ratio has reached the threshold; it
    then records the time, and otherwise stays closed with that history. *)
Theorem trips_iff (b : FailureRateBreaker) (now : Time) :
  wf b → state b = StateClosed →
  ∃ b' es, RecordFailure b now = Some (b', es) ∧
    if decide (windowSize b ≤ Z.of_nat (length (failure_history b)) ∧
               fleb (failureThreshold b) (ratio (failure_history b)) = true)
    then state b' = StateOpen ∧ openedAt b' = now
    else state b' = StateClosed ∧ failed <$> recent b' = failure_history b.
Proof.
  intros Hb Hst. destruct (step_mode OpFailure now b Hb) as (r & b' & es & Hs & _ & Hm).
  exists b', es. split; [eauto using RecordFailure_step |]. unfold spec_step in Hm.
  rewrite (abs_mode_eq b), Hst in Hm. simpl in Hm. fold (failure_history b) in Hm.
  destruct Hb as [Hsize _ _ _ _ _ _].
  destruct (decide (Z.to_nat (windowSize b) ≤ length (failure_history b))%nat) as [Hl|Hl].
  - destruct (fleb (failureThreshold b) (ratio (failure_history b))).
    + rewrite decide_True by (split; [lia | done]). by apply mode_open.
    + rewrite decide_False by (by intros []). by apply mode_closed.
  - rewrite decide_False by (intros []; lia). by apply mode_closed.
Qed.

(** C15. From half-open, [halfOpenMax] successes in a row are needed to close the
    breaker and are enough: before the last of them it is still half-open and
    admits requests, a failure there reopens it at that time, and the last one
    closes it with an empty window. *)
Theorem half_open_recovery (b : FailureRateBreaker) (times : list Time) (now : Time) :
  wf b → state b = StateHalfOpen → halfOpenSuccess b = 0 →
  Z.of_nat (length times) = halfOpenMax b - 1 →
  ∃ rs b' es, run ((λ t, (OpSuccess, t)) <$> times) b = Some (rs, b', es) ∧
    state b' = StateHalfOpen ∧ Allow b' now = (true, b', []) ∧
    (∃ b1 es1, RecordSuccess b' now = Some (b1, es1) ∧
       state b1 = StateClosed ∧ failed <$> recent b1 = []) ∧
    (∃ b2 es2, RecordFailure b' now = Some (b2, es2) ∧
       state b2 = StateOpen ∧ openedAt b2 = now).
Proof.
  intros Hb Hst H0 Hlen.
  destruct (run_refines ((λ t, (OpSuccess, t)) <$> times) b Hb) as (rs & b' & es & Hrun & Hwf & Hs).
  exists rs, b', es. split; [done |].
  pose proof (spec_run_half_open times (abs b) 0) as Hspec.
  rewrite Hs, abs_mode_eq, Hst, H0 in Hspec. simpl in Hspec.
  specialize (Hspec eq_refl ltac:(lia) ltac:(lia)).
  assert (Hmax : halfOpenMax b' = halfOpenMax b) by exact (f_equal ab_max Hspec).
  apply (f_equal ab_mode) in Hspec as Hm. apply mode_half_open in Hm as [Hst' Hn].
  split; [done |]. split; [by unfold Allow; rewrite Hst' |]. split.
  - destruct (step_mode OpSuccess now b' Hwf) as (r & b1 & es1 & Hs1 & _ & Hm1).
    unfold spec_step in Hm1. rewrite (abs_mode_eq b'), Hst' in Hm1. simpl in Hm1.
    rewrite decide_True in Hm1 by lia.
    eauto 6 using RecordSuccess_step, mode_closed.
  - destruct (step_mode OpFailure now b' Hwf) as (r & b2 & es2 & Hs2 & _ & Hm2).
    unfold spec_step in Hm2. rewrite (abs_mode_eq b'), Hst' in Hm2. simpl in Hm2.
    eauto 6 using RecordFailure_step, mode_open.
Qed.

(** The state gauge never lies: after any run of a breaker with metrics, the
    last value written to it (or the initial one) is the number of the breaker's
    current state, and every emission carries the labels its collector was
    declared with, so no [WithLabelValues] call panics. *)
Theorem gauge_tracks_state (ops : list (op * Time)) (b b' : FailureRateBreaker) rs es :
  metrics b = true → run ops b = Some (rs, b', es) →
  last_gauge es (f64 (state_num (state b))) = f64 (state_num (state b')) ∧
  forallb well_labelled es = true.
Proof. apply run_reports. Qed.

(** ** Witnesses *)

(** A breaker of window 2 with one success behind it. *)
Definition ex_closed : FailureRateBreaker :=
  mkFailureRate StateClosed "http://b" true [mkOutcome false; mkOutcome false]
    1 1 0 2 (f64_lit 1 2) (30 * Second) 2 0 0.

Definition ex_open : FailureRateBreaker :=
  mkFailureRate StateOpen "http://b" true [mkOutcome false; mkOutcome true]
    0 2 1 2 (f64_lit 1 2) (30 * Second) 2 0 (100 * Second).

Definition ex_half_open : FailureRateBreaker := ex_open <| state := StateHalfOpen |>.

Ltac solve_wf := split; vm_compute; try done; try (split; congruence).

Lemma ex_closed_wf : wf ex_closed.
Proof. solve_wf. Qed.

Lemma ex_open_wf : wf ex_open.
Proof. solve_wf. Qed.

Lemma ex_half_open_wf : wf ex_half_open.
Proof. solve_wf. Qed.

Lemma breaker_refines_window_witness :
  ∃ rs b' es,
    run [(OpFailure, 1); (OpAllow, 2)]
      (NewFailureRateBreaker "http://b" 2 (f64_lit 1 2) Second 1 true)
      = Some (rs, b', es) ∧ wf b' ∧
    spec_run [(OpFailure, 1); (OpAllow, 2)]
      (mkAbstract (Z.to_nat 2) (f64_lit 1 2) Second 1 (Closed [])) = (rs, abs b').
Proof. apply breaker_refines_window. int_solve. Defined.

Lemma open_rejects_until_timeout_witness :
  ∃ rs b' es, run [(OpAllow, 110 * Second); (OpSuccess, 120 * Second)] ex_open
      = Some (rs, b', es) ∧
    Forall rejected rs ∧ state b' = StateOpen ∧ openedAt b' = openedAt ex_open ∧
    ∀ now, resetTimeout ex_open ≤ time_sub now (openedAt ex_open) →
      ∃ b'' es'', Allow b' now = (true, b'', es'') ∧ state b'' = StateHalfOpen.
Proof.
  apply (open_rejects_until_timeout ex_open); [apply ex_open_wf | reflexivity |].
  repeat constructor.
Defined.

Lemma trips_iff_witness :
  ∃ b' es, RecordFailure ex_closed 7 = Some (b', es) ∧
    if decide (windowSize ex_closed ≤ Z.of_nat (length (failure_history ex_closed)) ∧
               fleb (failureThreshold ex_closed) (ratio (failure_history ex_closed)) = true)
    then state b' = StateOpen ∧ openedAt b' = 7
    else state b' = StateClosed ∧ failed <$> recent b' = failure_history ex_closed.
Proof. apply (trips_iff ex_closed 7 ex_closed_wf eq_refl). Defined.

Lemma half_open_recovery_witness :
  ∃ rs b' es, run ((λ t, (OpSuccess, t)) <$> [5]) ex_half_open = Some (rs, b', es) ∧
    state b' = StateHalfOpen ∧ Allow b' 6 = (true, b', []) ∧
    (∃ b1 es1, RecordSuccess b' 6 = Some (b1, es1) ∧
       state b1 = StateClosed ∧ failed <$> recent b1 = []) ∧
    (∃ b2 es2, RecordFailure b' 6 = Some (b2, es2) ∧
       state b2 = StateOpen ∧ openedAt b2 = 6).
Proof.
  apply (half_open_recovery ex_half_open [5] 6 ex_half_open_wf); reflexivity.
Defined.

Lemma gauge_tracks_state_witness :
  ∃ rs b' es, run [(OpFailure, 1)] ex_closed = Some (rs, b', es) ∧
    state b' = StateOpen ∧
    last_gauge es (f64 (state_num (state ex_closed))) = f64 (state_num (state b')) ∧
    forallb well_labelled es = true.
Proof.
  eexists _, _, _. split; [vm_compute; reflexivity |]. split; [reflexivity |].
  eapply (gauge_tracks_state [(OpFailure, 1)] ex_closed); vm_compute; reflexivity.
Defined.

End FailureRate.
