(* ===== verification/CircuitBreaker.v ===== *)
(** * Composed circuit breakers
    (internal/circuitbreaker/adaptive.go, timeout.go, bulkhead.go, composite.go)

    A Go interface value of type [Breaker] is one of four implementations, each
    wrapper holding its inner breaker; [Breaker] is that sum, and a method call
    through the interface is a recursion on it.  [CompositeBreaker] keeps
    pointers to the innermost and outermost layers of one stack; since each
    layer is reachable only through its wrapper and through the composite, the
    model stores the stack once and derives the two aliases. *)

From S2P Require Import Prelude GoFloat GoStrings Metrics FailureRateBreaker.
Import FailureRate(State, StateClosed, StateOpen, StateHalfOpen,
  FailureRateBreaker, SetFailureThreshold).

(** ** Adaptive breaker *)

Record AdaptiveBreaker := mkAdaptive {
  ad_inner : FailureRateBreaker;
  ewmaLatency : float64;
  alpha : float64;
  baseThreshold : float64;
  minThreshold : float64;
  latencyCeiling : Duration
}.

#[export] Instance AdaptiveBreaker_eta : Eta AdaptiveBreaker := λ a,
  mkAdaptive (ad_inner a) (ewmaLatency a) (alpha a) (baseThreshold a)
    (minThreshold a) (latencyCeiling a).

Definition NewAdaptiveBreaker (inner : FailureRateBreaker)
    (base min : float64) (ceiling : Duration) (alpha : float64) : AdaptiveBreaker :=
  mkAdaptive inner (f64 0) alpha base min ceiling.

(** The threshold [updateThreshold] installs for an average latency [ewma]. *)
Definition adaptive_threshold (a : AdaptiveBreaker) (ewma : float64) : float64 :=
  let ceiling := f64 (latencyCeiling a) in
  if fleb ewma ceiling then baseThreshold a
  else
    let ratio := fdiv (fsub ewma ceiling) ceiling in
    let ratio := if fltb (f64 1) ratio then f64 1 else ratio in
    fsub (baseThreshold a) (fmul ratio (fsub (baseThreshold a) (minThreshold a))).

Definition next_ewma (a : AdaptiveBreaker) (latency : Duration) : float64 :=
  let ns := f64 latency in
  if feqb (ewmaLatency a) (f64 0) then ns
  else fadd (fmul (alpha a) ns) (fmul (fsub (f64 1) (alpha a)) (ewmaLatency a)).

Definition updateThreshold (a : AdaptiveBreaker) (latency : Duration)
    : AdaptiveBreaker :=
  let a := a <| ewmaLatency := next_ewma a latency |> in
  a <| ad_inner := SetFailureThreshold (ad_inner a)
                     (adaptive_threshold a (ewmaLatency a)) |>.

Definition adaptive_Reset (a : AdaptiveBreaker) (now : Time)
    : AdaptiveBreaker * list MetricEvent :=
  let '(fr, evs) := FailureRate.Reset (ad_inner a) now in
  let a := a <| ad_inner := fr |> <| ewmaLatency := f64 0 |> in
  (a <| ad_inner := SetFailureThreshold (ad_inner a) (baseThreshold a) |>, evs).

(** ** Bulkhead: the concurrency semaphore

    [sem] is a channel of capacity [sem_cap] holding [sem_len] tokens. *)

Record Bulkhead := mkBulkhead {
  sem_len : Z;
  sem_cap : Z;
  bh_backend : string;
  bh_metrics : bool
}.

#[export] Instance Bulkhead_eta : Eta Bulkhead := λ h,
  mkBulkhead (sem_len h) (sem_cap h) (bh_backend h) (bh_metrics h).

Definition NewBulkhead (maxConcurrent : Z) (backend : string) (m : bool) : Bulkhead :=
  mkBulkhead 0 maxConcurrent backend m.

Definition recordInFlight (h : Bulkhead) : list MetricEvent :=
  emit (bh_metrics h)
    [mkEvent BulkheadInFlight [bh_backend h] (SetTo (f64 (sem_len h)))].

(** The non-blocking send [case b.sem <- struct{}{}]: [None] is the [default]
    branch. *)
Definition try_acquire (h : Bulkhead) : option Bulkhead :=
  if decide (sem_len h < sem_cap h) then Some (h <| sem_len := sem_len h + 1 |>)
  else None.

(** The receive [<-b.sem]; [None]: the channel is empty and it blocks. *)
Definition sem_receive (h : Bulkhead) : option Bulkhead :=
  if decide (0 < sem_len h) then Some (h <| sem_len := sem_len h - 1 |>) else None.

Definition AtCapacity (h : Bulkhead) : bool := bool_decide (sem_cap h ≤ sem_len h).

(** ** Breakers behind the interface *)

Inductive Breaker :=
| BFailureRate (b : FailureRateBreaker)
| BAdaptive (a : AdaptiveBreaker)
| BTimeout (inner : Breaker) (slowThreshold : Duration)
| BBulkhead (inner : Breaker) (h : Bulkhead).

(** [b.Allow()].  In the bulkhead the slot taken is given back when the inner
    breaker rejects; that receive cannot block, the slot being its own. *)
Fixpoint breaker_Allow (b : Breaker) (now : Time)
    : bool * Breaker * list MetricEvent :=
  match b with
  | BFailureRate fr =>
      let '(r, fr, e) := FailureRate.Allow fr now in (r, BFailureRate fr, e)
  | BAdaptive a =>
      let '(r, fr, e) := FailureRate.Allow (ad_inner a) now in
      (r, BAdaptive (a <| ad_inner := fr |>), e)
  | BTimeout i slow =>
      let '(r, i, e) := breaker_Allow i now in (r, BTimeout i slow, e)
  | BBulkhead i h =>
      match try_acquire h with
      | Some h1 =>
          let '(r, i, e) := breaker_Allow i now in
          if r then (true, BBulkhead i h1, recordInFlight h1 ++ e)
          else
            let h2 := default h1 (sem_receive h1) in
            (false, BBulkhead i h2, recordInFlight h1 ++ e ++ recordInFlight h2)
      | None =>
          (false, b, emit (bh_metrics h)
                       [mkEvent BulkheadRejections [bh_backend h] Inc])
      end
  end.

(** [b.RecordFailure(latency)] *)
Fixpoint breaker_RecordFailure (b : Breaker) (latency : Duration) (now : Time)
    : option (Breaker * list MetricEvent) :=
  match b with
  | BFailureRate fr =>
      '(fr, e) ← FailureRate.RecordFailure fr now; Some (BFailureRate fr, e)
  | BAdaptive a =>
      '(fr, e) ← FailureRate.RecordFailure (ad_inner a) now;
      Some (BAdaptive (updateThreshold (a <| ad_inner := fr |>) latency), e)
  | BTimeout i slow =>
      '(i, e) ← breaker_RecordFailure i latency now; Some (BTimeout i slow, e)
  | BBulkhead i h =>
      '(i, e) ← breaker_RecordFailure i latency now; Some (BBulkhead i h, e)
  end.

(** [b.RecordSuccess(latency)]: the timeout layer turns a slow success into a
    failure of its inner breaker. *)
Fixpoint breaker_RecordSuccess (b : Breaker) (latency : Duration) (now : Time)
    : option (Breaker * list MetricEvent) :=
  match b with
  | BFailureRate fr =>
      '(fr, e) ← FailureRate.RecordSuccess fr now; Some (BFailureRate fr, e)
  | BAdaptive a =>
      '(fr, e) ← FailureRate.RecordSuccess (ad_inner a) now;
      Some (BAdaptive (updateThreshold (a <| ad_inner := fr |>) latency), e)
  | BTimeout i slow =>
      '(i, e) ← (if decide (slow < latency) then breaker_RecordFailure i latency now
                 else breaker_RecordSuccess i latency now);
      Some (BTimeout i slow, e)
  | BBulkhead i h =>
      '(i, e) ← breaker_RecordSuccess i latency now; Some (BBulkhead i h, e)
  end.

(** [b.Reset()] *)
Fixpoint breaker_Reset (b : Breaker) (now : Time) : Breaker * list MetricEvent :=
  match b with
  | BFailureRate fr =>
      let '(fr, e) := FailureRate.Reset fr now in (BFailureRate fr, e)
  | BAdaptive a => let '(a, e) := adaptive_Reset a now in (BAdaptive a, e)
  | BTimeout i slow => let '(i, e) := breaker_Reset i now in (BTimeout i slow, e)
  | BBulkhead i h => let '(i, e) := breaker_Reset i now in (BBulkhead i h, e)
  end.

(** ** Composite *)

(** [circuitbreaker.Config] *)
Record CBConfig := mkCBConfig {
  cb_WindowSize : Z;
  cb_FailureThreshold : float64;
  cb_ResetTimeout : Duration;
  cb_HalfOpenMax : Z;
  cb_SlowThreshold : Duration;
  cb_MaxConcurrent : Z;
  cb_Adaptive : bool;
  cb_LatencyCeiling : Duration;
  cb_MinThreshold : float64
}.

#[export] Instance CBConfig_eta : Eta CBConfig := λ c,
  mkCBConfig (cb_WindowSize c) (cb_FailureThreshold c) (cb_ResetTimeout c)
    (cb_HalfOpenMax c) (cb_SlowThreshold c) (cb_MaxConcurrent c) (cb_Adaptive c)
    (cb_LatencyCeiling c) (cb_MinThreshold c).

Record CompositeBreaker := mkComposite { effective : Breaker }.

(** The innermost failure-rate breaker: the pointer [c.failureRate]. *)
Fixpoint core (b : Breaker) : FailureRateBreaker :=
  match b with
  | BFailureRate fr => fr
  | BAdaptive a => ad_inner a
  | BTimeout i _ | BBulkhead i _ => core i
  end.

Fixpoint map_core (f : FailureRateBreaker → FailureRateBreaker) (b : Breaker) : Breaker :=
  match b with
  | BFailureRate fr => BFailureRate (f fr)
  | BAdaptive a => BAdaptive (a <| ad_inner := f (ad_inner a) |>)
  | BTimeout i slow => BTimeout (map_core f i) slow
  | BBulkhead i h => BBulkhead (map_core f i) h
  end.

(** The pointer [c.bulkhead], nil unless the outermost layer is one. *)
Definition bulkhead (c : CompositeBreaker) : option Bulkhead :=
  match effective c with BBulkhead _ h => Some h | _ => None end.

Definition NewComposite (backend : string) (cfg : CBConfig) (m : bool)
    : CompositeBreaker :=
  let fr := FailureRate.NewFailureRateBreaker backend (cb_WindowSize cfg)
              (cb_FailureThreshold cfg) (cb_ResetTimeout cfg) (cb_HalfOpenMax cfg) m in
  let current :=
    if cb_Adaptive cfg then
      BAdaptive (NewAdaptiveBreaker fr (cb_FailureThreshold cfg) (cb_MinThreshold cfg)
                   (cb_LatencyCeiling cfg) (f64_lit 3 10))
    else BFailureRate fr in
  let current :=
    if decide (0 < cb_SlowThreshold cfg) then BTimeout current (cb_SlowThreshold cfg)
    else current in
  mkComposite
    (if decide (0 < cb_MaxConcurrent cfg) then
       BBulkhead current (NewBulkhead (cb_MaxConcurrent cfg) backend m)
     else current).

Definition composite_Allow (c : CompositeBreaker) (now : Time)
    : bool * CompositeBreaker * list MetricEvent :=
  let '(r, b, e) := breaker_Allow (effective c) now in (r, mkComposite b, e).

Definition composite_RecordSuccess (c : CompositeBreaker) (latency : Duration)
    (now : Time) : option (CompositeBreaker * list MetricEvent) :=
  '(b, e) ← breaker_RecordSuccess (effective c) latency now; Some (mkComposite b, e).

Definition composite_RecordFailure (c : CompositeBreaker) (latency : Duration)
    (now : Time) : option (CompositeBreaker * list MetricEvent) :=
  '(b, e) ← breaker_RecordFailure (effective c) latency now; Some (mkComposite b, e).

Definition InnerState (c : CompositeBreaker) : State :=
  FailureRate.state (core (effective c)).

Definition EffectiveState (c : CompositeBreaker) : State :=
  match bulkhead c with
  | Some h => if AtCapacity h then StateOpen else InnerState c
  | None => InnerState c
  end.

Definition composite_Reset (c : CompositeBreaker) (now : Time)
    : CompositeBreaker * list MetricEvent :=
  let '(b, e) := breaker_Reset (effective c) now in (mkComposite b, e).

(** [c.Release()]: a no-op without a bulkhead; [None] if the receive blocks. *)
Definition Release (c : CompositeBreaker)
    : option (CompositeBreaker * list MetricEvent) :=
  match effective c with
  | BBulkhead i h =>
      h ← sem_receive h; Some (mkComposite (BBulkhead i h), recordInFlight h)
  | _ => Some (c, [])
  end.

Definition update_core (cfg : CBConfig) (b : FailureRateBreaker) : FailureRateBreaker :=
  let b := b <| FailureRate.failureThreshold := cb_FailureThreshold cfg |>
             <| FailureRate.resetTimeout := cb_ResetTimeout cfg |>
             <| FailureRate.halfOpenMax := cb_HalfOpenMax cfg |> in
  if decide (cb_WindowSize cfg = FailureRate.windowSize b) then b
  else
    b <| FailureRate.window :=
           replicate (Z.to_nat (cb_WindowSize cfg)) (FailureRate.mkOutcome false) |>
      <| FailureRate.windowSize := cb_WindowSize cfg |>
      <| FailureRate.head := 0 |> <| FailureRate.count := 0 |>
      <| FailureRate.failures := 0 |>.

Definition composite_UpdateConfig (c : CompositeBreaker) (cfg : CBConfig)
    : CompositeBreaker :=
  mkComposite (map_core (update_core cfg) (effective c)).

(** ** Layers and their core

    Below the bulkhead, every layer forwards to the core: the whole stack moves
    exactly as the failure-rate breaker at its bottom does. *)

Import FailureRate(wf).

Fixpoint no_bulkhead (b : Breaker) : Prop :=
  match b with
  | BFailureRate _ | BAdaptive _ => True
  | BTimeout i _ => no_bulkhead i
  | BBulkhead _ _ => False
  end.

Lemma core_map_core f (b : Breaker) : core (map_core f b) = f (core b).
Proof. by induction b. Qed.

Lemma no_bulkhead_map_core f (b : Breaker) : no_bulkhead b → no_bulkhead (map_core f b).
Proof. by induction b. Qed.

Lemma breaker_Allow_core (b : Breaker) (now : Time) :
  no_bulkhead b →
  breaker_Allow b now =
    let '(r, fr, e) := FailureRate.Allow (core b) now in (r, map_core (λ _, fr) b, e).
Proof.
  induction b as [| |i IH s|]; intros Hb; simpl in *; [done | done | | done].
  rewrite IH by done. by destruct (FailureRate.Allow (core i) now) as [[??]?].
Qed.

(** The core after a layer has recorded a result: the core's own step, up to the
    failure threshold an adaptive layer installs. *)
Definition up_to_threshold (fr fr' : FailureRateBreaker) : Prop :=
  ∃ t, fr' = SetFailureThreshold fr t.

Lemma up_to_threshold_refl fr : up_to_threshold fr fr.
Proof. exists (FailureRate.failureThreshold fr). by destruct fr. Qed.

Lemma up_to_threshold_wf fr fr' : up_to_threshold fr fr' → wf fr → wf fr'.
Proof. intros [t ->]. apply FailureRate.wf_threshold. Qed.

Lemma up_to_threshold_state fr fr' :
  up_to_threshold fr fr' → FailureRate.state fr' = FailureRate.state fr.
Proof. by intros [t ->]. Qed.

#[export] Hint Resolve up_to_threshold_refl : core.

Lemma updateThreshold_core (a : AdaptiveBreaker) (l : Duration) :
  up_to_threshold (ad_inner a) (ad_inner (updateThreshold a l)).
Proof. by eexists. Qed.

Lemma breaker_RecordFailure_core (b : Breaker) (l : Duration) (now : Time) fr e :
  no_bulkhead b → FailureRate.RecordFailure (core b) now = Some (fr, e) →
  ∃ b', breaker_RecordFailure b l now = Some (b', e) ∧ no_bulkhead b' ∧
    up_to_threshold fr (core b').
Proof.
  induction b as [| |i IH s|]; intros Hb Hfr; simpl in *; try done.
  - rewrite Hfr. eexists; simpl; eauto.
  - rewrite Hfr. eexists; simpl. split; [done |]. split; [done |].
    by eexists.
  - destruct (IH Hb Hfr) as (i' & -> & ? & ?). eexists; simpl; eauto.
Qed.

(** A result recorded as a success reaches the core as a success or, through a
    timeout layer, as a failure. *)
Lemma breaker_RecordSuccess_core (b : Breaker) (l : Duration) (now : Time) :
  no_bulkhead b → wf (core b) →
  ∃ b' fr e, breaker_RecordSuccess b l now = Some (b', e) ∧ no_bulkhead b' ∧
    up_to_threshold fr (core b') ∧
    (FailureRate.RecordSuccess (core b) now = Some (fr, e) ∨
     FailureRate.RecordFailure (core b) now = Some (fr, e)).
Proof.
  intros Hb Hwf.
  destruct (FailureRate.step_mode FailureRate.OpSuccess now (core b) Hwf)
    as (rs & frs & es & Hs%FailureRate.RecordSuccess_step & _).
  destruct (FailureRate.step_mode FailureRate.OpFailure now (core b) Hwf)
    as (rf & frf & ef & Hf%FailureRate.RecordFailure_step & _).
  induction b as [| |i IH s|]; simpl in *; try done.
  - rewrite Hs. eexists _, frs, es; simpl; eauto.
  - rewrite Hs. eexists _, frs, es; simpl. split; [done |]. split; [done |].
    split; [by eexists | by left].
  - case_decide.
    + destruct (breaker_RecordFailure_core i l now frf ef Hb Hf) as (i' & -> & ? & ?).
      eexists _, frf, ef; simpl; eauto.
    + destruct IH as (i' & fr & e & -> & ? & ? & ?); try done.
      eexists _, fr, e; simpl; eauto.
Qed.

(** ** The invariant of a composite *)

Definition bulkhead_ok (h : Bulkhead) : Prop := 0 ≤ sem_len h ≤ sem_cap h.

(** The stack [NewComposite] builds: at most one bulkhead, outermost. *)
Definition stack_ok (b : Breaker) : Prop :=
  match b with
  | BBulkhead i h => no_bulkhead i ∧ bulkhead_ok h
  | _ => no_bulkhead b
  end.

Definition composite_ok (c : CompositeBreaker) : Prop :=
  stack_ok (effective c) ∧ wf (core (effective c)).

(** The number of slots in use, and how many an admitted request takes. *)
Definition slots (c : CompositeBreaker) : Z :=
  match bulkhead c with Some h => sem_len h | None => 0 end.

Definition slot_unit (c : CompositeBreaker) : Z :=
  match bulkhead c with Some _ => 1 | None => 0 end.

Definition slot_cap (c : CompositeBreaker) : option Z := sem_cap <$> bulkhead c.

(** What a step of a composite keeps, and how it moves the slots. *)
Definition keeps (c c' : CompositeBreaker) (delta : Z) : Prop :=
  composite_ok c' ∧ slots c' = slots c + delta * slot_unit c ∧ slot_cap c' = slot_cap c.

Lemma keeps_unit (c c' : CompositeBreaker) (d : Z) :
  keeps c c' d → slot_unit c' = slot_unit c.
Proof.
  intros (_ & _ & Hcap). unfold slot_cap, slot_unit in *.
  by destruct (bulkhead c), (bulkhead c').
Qed.

Lemma FailureRate_Allow_wf fr now r fr' e :
  wf fr → FailureRate.Allow fr now = (r, fr', e) → wf fr'.
Proof.
  intros Hwf Ha.
  destruct (FailureRate.step_mode FailureRate.OpAllow now fr Hwf) as (? & ? & ? & Hs & ? & _).
  simpl in Hs. rewrite Ha in Hs. by simplify_eq.
Qed.

(** A stack without a bulkhead has no slots to account for. *)
Lemma keeps_no_bulkhead (b b' : Breaker) (d : Z) :
  no_bulkhead b → no_bulkhead b' → wf (core b') →
  keeps (mkComposite b) (mkComposite b') d.
Proof.
  intros Hb Hb' Hwf. split; [split; [by destruct b' | done] |].
  destruct b, b'; try done; unfold slots, slot_unit, slot_cap, bulkhead; simpl;
    split; (done || lia).
Qed.

Lemma keeps_bulkhead (i i' : Breaker) (h h' : Bulkhead) (d : Z) :
  no_bulkhead i' → wf (core i') → bulkhead_ok h' →
  sem_len h' = sem_len h + d → sem_cap h' = sem_cap h →
  keeps (mkComposite (BBulkhead i h)) (mkComposite (BBulkhead i' h')) d.
Proof.
  intros. split; [done |]. unfold slots, slot_unit, slot_cap, bulkhead; simpl.
  split; [lia | congruence].
Qed.

Lemma composite_Allow_keeps (c : CompositeBreaker) (now : Time) :
  composite_ok c →
  ∃ r c' e, composite_Allow c now = (r, c', e) ∧ keeps c c' (if r then 1 else 0).
Proof.
  destruct c as [b]. intros [Hst Hwf]. unfold composite_Allow; simpl in Hst, Hwf.
  assert (Hcore : ∀ i, no_bulkhead i → wf (core i) → ∃ r i' e,
    breaker_Allow i now = (r, i', e) ∧ no_bulkhead i' ∧ wf (core i')).
  { intros i Hi Hwi. rewrite breaker_Allow_core by done.
    destruct (FailureRate.Allow (core i) now) as [[r fr] e] eqn:Ha.
    exists r, (map_core (λ _, fr) i), e. rewrite core_map_core.
    eauto using no_bulkhead_map_core, FailureRate_Allow_wf. }
  destruct b as [| | |i h]; simpl in Hst;
    [match goal with |- context [effective (mkComposite ?b)] =>
       destruct (Hcore b Hst Hwf) as (r & b' & e & Ha & ? & ?) end;
     simpl in *; rewrite Ha; exists r, (mkComposite b'), e; by auto using keeps_no_bulkhead..|].
  destruct Hst as [Hi Hh]. destruct (Hcore i Hi Hwf) as (r & i' & e & Ha & ? & ?).
  simpl. unfold try_acquire. case_decide; simpl; [rewrite Ha; destruct r|].
  - eexists _, _, _. split; [done |].
    apply keeps_bulkhead; unfold bulkhead_ok in *; simpl; try done; lia.
  - eexists _, _, _. split; [done |]. unfold sem_receive; simpl.
    unfold bulkhead_ok in *. rewrite decide_True by lia. simpl.
    apply keeps_bulkhead; unfold bulkhead_ok; simpl; try done; lia.
  - eexists _, _, _. split; [done |]. by apply keeps_bulkhead; try lia.
Qed.

Lemma FailureRate_record_wf fr now fr' e :
  wf fr →
  FailureRate.RecordSuccess fr now = Some (fr', e) ∨
  FailureRate.RecordFailure fr now = Some (fr', e) → wf fr'.
Proof.
  intros Hwf [H|H];
    [destruct (FailureRate.step_mode FailureRate.OpSuccess now fr Hwf)
       as (? & ? & ? & Hs%FailureRate.RecordSuccess_step & ? & _)
    |destruct (FailureRate.step_mode FailureRate.OpFailure now fr Hwf)
       as (? & ? & ? & Hs%FailureRate.RecordFailure_step & ? & _)];
    rewrite Hs in H; by simplify_eq.
Qed.

(** Lifts a fact about the layers below the bulkhead to the whole composite. *)
Lemma composite_lift (P : Breaker → option (Breaker * list MetricEvent)) :
  (∀ i h, P (BBulkhead i h) = '(i, e) ← P i; Some (BBulkhead i h, e)) →
  (∀ i, no_bulkhead i → wf (core i) →
     ∃ i' e, P i = Some (i', e) ∧ no_bulkhead i' ∧ wf (core i')) →
  ∀ c, composite_ok c →
    ∃ c' e, ('(b, e) ← P (effective c); Some (mkComposite b, e)) = Some (c', e) ∧
      keeps c c' 0.
Proof.
  intros Hbh Hlayer [b] [Hst Hwf]. simpl in *.
  destruct b as [| | |i h]; simpl in Hst;
    [match goal with |- context [P ?b] =>
       destruct (Hlayer b Hst Hwf) as (b' & e & Hb & ? & ?) end;
     rewrite Hb; simpl; eexists _, e; by auto using keeps_no_bulkhead..|].
  destruct Hst as [Hi Hh]. destruct (Hlayer i Hi Hwf) as (i' & e & Hb & ? & ?).
  rewrite Hbh, Hb. simpl. eexists _, e. split; [done |]. apply keeps_bulkhead; try done; lia.
Qed.

Lemma composite_RecordSuccess_keeps (c : CompositeBreaker) l now :
  composite_ok c →
  ∃ c' e, composite_RecordSuccess c l now = Some (c', e) ∧ keeps c c' 0.
Proof.
  apply (composite_lift (λ b, breaker_RecordSuccess b l now)); [done |].
  intros i Hi Hw. destruct (breaker_RecordSuccess_core i l now Hi Hw)
    as (i' & fr & e & Hr & ? & Ht & Hor).
  exists i', e. eauto using up_to_threshold_wf, FailureRate_record_wf.
Qed.

Lemma composite_RecordFailure_keeps (c : CompositeBreaker) l now :
  composite_ok c →
  ∃ c' e, composite_RecordFailure c l now = Some (c', e) ∧ keeps c c' 0.
Proof.
  apply (composite_lift (λ b, breaker_RecordFailure b l now)); [done |].
  intros i Hi Hw.
  destruct (FailureRate.step_mode FailureRate.OpFailure now (core i) Hw)
    as (? & fr & e & Hf%FailureRate.RecordFailure_step & Hwf & _).
  destruct (breaker_RecordFailure_core i l now fr e Hi Hf) as (i' & Hr & ? & Ht).
  exists i', e. eauto using up_to_threshold_wf.
Qed.

Lemma breaker_Reset_core (b : Breaker) now :
  no_bulkhead b → no_bulkhead (breaker_Reset b now).1 ∧
    up_to_threshold (FailureRate.Reset (core b) now).1 (core (breaker_Reset b now).1).
Proof.
  induction b as [fr|a|i IH s|]; intros Hb; simpl in *; try done.
  - by destruct (FailureRate.Reset fr now).
  - unfold adaptive_Reset. destruct (FailureRate.Reset (ad_inner a) now); simpl.
    split; [done | by eexists].
  - destruct (IH Hb). by destruct (breaker_Reset i now).
Qed.

Lemma composite_Reset_keeps (c : CompositeBreaker) now :
  composite_ok c → keeps c (composite_Reset c now).1 0.
Proof.
  intros Hc.
  destruct (composite_lift (λ b, Some (breaker_Reset b now))) with c
    as (c' & e & Heq & Hk); [..|done|].
  - intros i h. simpl. by destruct (breaker_Reset i now).
  - intros i Hi Hw. destruct (breaker_Reset_core i now Hi) as [? Ht].
    destruct (breaker_Reset i now) as [i' e]. exists i', e. split; [done |].
    split; [done |]. eapply up_to_threshold_wf; [done |].
    by apply FailureRate.transitionTo_wf.
  - unfold composite_Reset. destruct (breaker_Reset _ _); by simplify_eq/=.
Qed.

Lemma Release_keeps (c : CompositeBreaker) :
  composite_ok c → slot_unit c ≤ slots c →
  ∃ c' e, Release c = Some (c', e) ∧ keeps c c' (-1).
Proof.
  destruct c as [b]. intros [Hst Hwf] Hs. simpl in Hst, Hwf.
  destruct b as [| | |i h];
    [eexists _, _; by auto using keeps_no_bulkhead..|].
  unfold Release, slots, slot_unit, bulkhead in *; simpl in *.
  destruct Hst as [Hi Hh]. unfold bulkhead_ok in *. unfold sem_receive.
  rewrite decide_True by lia. simpl. eexists _, _. split; [done |].
  apply keeps_bulkhead; unfold bulkhead_ok; simpl; try done; lia.
Qed.

Lemma update_core_wf (cfg : CBConfig) (b : FailureRateBreaker) :
  1 ≤ cb_WindowSize cfg ≤ int64_max → wf b → wf (update_core cfg b).
Proof.
  intros Hws []. unfold update_core. case_decide; simpl in *.
  - by split.
  - split; simpl; try done; try lia.
    + rewrite length_replicate. lia.
    + unfold FailureRate.recent; simpl. by rewrite decide_False by lia.
Qed.

Lemma UpdateConfig_keeps (c : CompositeBreaker) (cfg : CBConfig) :
  1 ≤ cb_WindowSize cfg ≤ int64_max → composite_ok c →
  keeps c (composite_UpdateConfig c cfg) 0.
Proof.
  intros Hws [Hst Hwf]. destruct c as [b]. simpl in *. unfold composite_UpdateConfig.
  destruct b as [| | |i h]; [apply keeps_no_bulkhead;
    [done | by apply no_bulkhead_map_core |
     simpl; rewrite ?core_map_core; by apply update_core_wf]..|].
  destruct Hst. apply keeps_bulkhead; simpl; try done; try lia;
    [by apply no_bulkhead_map_core | rewrite core_map_core; by apply update_core_wf].
Qed.

(** Applying a configuration twice changes nothing more. *)
Lemma update_core_eq cfg b :
  update_core cfg b =
  let same := bool_decide (cb_WindowSize cfg = FailureRate.windowSize b) in
  FailureRate.mkFailureRate (FailureRate.state b) (FailureRate.backend b) (FailureRate.metrics b)
    (if same then FailureRate.window b
     else replicate (Z.to_nat (cb_WindowSize cfg)) (FailureRate.mkOutcome false))
    (if same then FailureRate.head b else 0) (if same then FailureRate.count b else 0)
    (if same then FailureRate.failures b else 0) (cb_WindowSize cfg) (cb_FailureThreshold cfg)
    (cb_ResetTimeout cfg) (cb_HalfOpenMax cfg) (FailureRate.halfOpenSuccess b)
    (FailureRate.openedAt b).
Proof.
  destruct b as [s be m w h c f ws ft rt hm hs oa]. unfold update_core.
  destruct (decide (cb_WindowSize cfg = ws)) as [Hw|Hw].
  - rewrite (decide_True _ _ Hw), (bool_decide_eq_true_2 _ Hw). rewrite Hw. reflexivity.
  - rewrite (decide_False _ _ Hw), (bool_decide_eq_false_2 _ Hw). reflexivity.
Qed.

Lemma update_core_idemp cfg b : update_core cfg (update_core cfg b) = update_core cfg b.
Proof.
  rewrite !update_core_eq. cbn zeta. cbn [FailureRate.windowSize].
  rewrite (bool_decide_eq_true_2 (cb_WindowSize cfg = cb_WindowSize cfg)) by done. done.
Qed.

Lemma composite_UpdateConfig_idemp b cfg :
  composite_UpdateConfig (composite_UpdateConfig b cfg) cfg = composite_UpdateConfig b cfg.
Proof.
  unfold composite_UpdateConfig. simpl. f_equal. generalize (effective b). clear b.
  intros b. induction b as [fr|a|i IH slow|i IH h]; simpl; rewrite ?IH; [|destruct a; simpl | done..];
    by rewrite update_core_idemp.
Qed.

(** [config.validate] guarantees these bounds. *)
Definition cb_config_ok (cfg : CBConfig) : Prop :=
  1 ≤ cb_WindowSize cfg ≤ int64_max ∧ 0 ≤ cb_MaxConcurrent cfg.

Lemma NewComposite_ok be cfg m :
  cb_config_ok cfg → composite_ok (NewComposite be cfg m) ∧ slots (NewComposite be cfg m) = 0.
Proof.
  intros [Hws Hmc]. unfold NewComposite, composite_ok, slots, bulkhead.
  repeat case_decide; destruct (cb_Adaptive cfg); simpl;
    unfold bulkhead_ok; simpl; split_and?; try done; try lia;
    by apply FailureRate.NewFailureRateBreaker_wf.
Qed.

Create HintDb breaker.
#[export] Hint Resolve composite_Allow_keeps composite_RecordSuccess_keeps
  composite_RecordFailure_keeps Release_keeps : breaker.

(** ** The interface the proxy relies on

    The four operations a request performs on a backend's breaker, and what the
    breaker promises about them: on a well-formed breaker none of them panics or
    blocks, [Allow] takes [ac_unit] slots exactly when it admits, the recording
    calls take none, and [Release] gives back the slots of one admission. *)

Class AdmissionControl (B : Type) := {
  ac_Allow : B → Time → bool * B * list MetricEvent;
  ac_RecordSuccess : B → Duration → Time → option (B * list MetricEvent);
  ac_RecordFailure : B → Duration → Time → option (B * list MetricEvent);
  ac_Release : B → option (B * list MetricEvent)
}.

Class AdmissionLaws (B : Type) `{AdmissionControl B} := {
  ac_ok : B → Prop;
  ac_slots : B → Z;
  ac_unit : B → Z;
  ac_keeps (b b' : B) (d : Z) : Prop :=
    ac_ok b' ∧ ac_slots b' = ac_slots b + d * ac_unit b ∧ ac_unit b' = ac_unit b;
  ac_slots_nonneg b : ac_ok b → 0 ≤ ac_slots b;
  ac_Allow_law b now : ac_ok b →
    ∃ r b' e, ac_Allow b now = (r, b', e) ∧ ac_keeps b b' (if r then 1 else 0);
  ac_RecordSuccess_law b l now : ac_ok b →
    ∃ b' e, ac_RecordSuccess b l now = Some (b', e) ∧ ac_keeps b b' 0;
  ac_RecordFailure_law b l now : ac_ok b →
    ∃ b' e, ac_RecordFailure b l now = Some (b', e) ∧ ac_keeps b b' 0;
  ac_Release_law b : ac_ok b → ac_unit b ≤ ac_slots b →
    ∃ b' e, ac_Release b = Some (b', e) ∧ ac_keeps b b' (-1)
}.

#[export] Instance composite_admission : AdmissionControl CompositeBreaker := {
  ac_Allow := composite_Allow;
  ac_RecordSuccess := composite_RecordSuccess;
  ac_RecordFailure := composite_RecordFailure;
  ac_Release := Release
}.

Lemma keeps_weaken (c c' : CompositeBreaker) d :
  keeps c c' d →
  composite_ok c' ∧ slots c' = slots c + d * slot_unit c ∧ slot_unit c' = slot_unit c.
Proof. intros Hk. pose proof (keeps_unit c c' d Hk). by destruct Hk as (? & ? & ?). Qed.

#[export] Hint Resolve keeps_weaken : breaker.

#[export, refine] Instance composite_laws : AdmissionLaws CompositeBreaker := {|
  ac_ok := composite_ok; ac_slots := slots; ac_unit := slot_unit
|}.
Proof.
  - intros [b] [Hst _]. unfold slots, bulkhead. simpl in *.
    destruct b; try done. by destruct Hst as [_ [? _]].
  - intros b now Hb. destruct (composite_Allow_keeps b now Hb) as (r & b' & e & ? & ?).
    eauto 6 with breaker.
  - intros b l now Hb. destruct (composite_RecordSuccess_keeps b l now Hb) as (? & ? & ? & ?).
    eauto 6 with breaker.
  - intros b l now Hb. destruct (composite_RecordFailure_keeps b l now Hb) as (? & ? & ? & ?).
    eauto 6 with breaker.
  - intros b Hb Hu. destruct (Release_keeps b Hb Hu) as (? & ? & ? & ?).
    eauto 6 with breaker.
Defined.

(** ** Use of a composite by any number of requests

    [used c n]: [c] is reached from a fresh composite by calls of the proxy and
    the reloader that follow the protocol (one [Release] per admission), with
    [n] admitted requests not yet released. *)

Inductive used : CompositeBreaker → Z → Prop :=
| used_new be cfg m : cb_config_ok cfg → used (NewComposite be cfg m) 0
| used_allow c n now r c' e :
    used c n → composite_Allow c now = (r, c', e) → used c' (n + if r then 1 else 0)
| used_success c n l now c' e :
    used c n → composite_RecordSuccess c l now = Some (c', e) → used c' n
| used_failure c n l now c' e :
    used c n → composite_RecordFailure c l now = Some (c', e) → used c' n
| used_release c n c' e : used c n → 0 < n → Release c = Some (c', e) → used c' (n - 1)
| used_reset c n now : used c n → used (composite_Reset c now).1 n
| used_update c n cfg :
    used c n → cb_config_ok cfg → used (composite_UpdateConfig c cfg) n.

Definition accounts (c : CompositeBreaker) (n : Z) : Prop :=
  composite_ok c ∧ slots c = n * slot_unit c ∧ 0 ≤ n.

Lemma keeps_accounts (c c' : CompositeBreaker) n d :
  accounts c n → keeps c c' d → 0 ≤ n + d → accounts c' (n + d).
Proof.
  intros (? & Hs & ?) Hk ?. apply keeps_weaken in Hk as (? & Hs' & Hu).
  split; [done |]. rewrite Hs', Hu, Hs. split; lia.
Qed.

Lemma used_accounts (c : CompositeBreaker) (n : Z) : used c n → accounts c n.
Proof.
  induction 1 as [be cfg m Hcfg|c n now r c' e _ IH Ha|c n l now c' e _ IH Ha
    |c n l now c' e _ IH Ha|c n c' e _ IH Hn Ha|c n now _ IH|c n cfg _ IH [Hws _]].
  - destruct (NewComposite_ok be cfg m Hcfg). split; [done |]. lia.
  - destruct (composite_Allow_keeps c now) as (r' & c1 & e1 & Ha' & Hk); [apply IH |].
    rewrite Ha in Ha'. simplify_eq. apply (keeps_accounts c); [done..|].
    destruct IH as (_ & _ & ?). case_match; lia.
  - destruct (composite_RecordSuccess_keeps c l now) as (c1 & e1 & Ha' & Hk); [apply IH |].
    rewrite Ha in Ha'. simplify_eq. rewrite <-(Z.add_0_r n). apply (keeps_accounts c); [done..|].
    destruct IH as (_ & _ & ?). lia.
  - destruct (composite_RecordFailure_keeps c l now) as (c1 & e1 & Ha' & Hk); [apply IH |].
    rewrite Ha in Ha'. simplify_eq. rewrite <-(Z.add_0_r n). apply (keeps_accounts c); [done..|].
    destruct IH as (_ & _ & ?). lia.
  - destruct IH as (Hok & Hs & ?). destruct (Release_keeps c Hok) as (c1 & e1 & Ha' & Hk).
    { assert (0 ≤ slot_unit c) by (unfold slot_unit; case_match; lia). nia. }
    rewrite Ha in Ha'. simplify_eq. by apply (keeps_accounts c _ n (-1)); [| |lia].
  - rewrite <-(Z.add_0_r n). apply (keeps_accounts c);
      [done | apply composite_Reset_keeps, IH | destruct IH as (_ & _ & ?); lia].
  - rewrite <-(Z.add_0_r n). apply (keeps_accounts c);
      [done | apply UpdateConfig_keeps; [done | apply IH] | destruct IH as (_ & _ & ?); lia].
Qed.

(** ** Lemmas for the properties *)

(** The slow-response threshold of the outermost timeout layer. *)
Fixpoint slow_limit (b : Breaker) : option Duration :=
  match b with
  | BTimeout _ s => Some s
  | BBulkhead i _ => slow_limit i
  | _ => None
  end.

Lemma slow_success_is_failure (b : Breaker) (s l : Duration) (now : Time) :
  slow_limit b = Some s → s < l →
  breaker_RecordSuccess b l now = breaker_RecordFailure b l now.
Proof.
  induction b as [| |i IH s'|i IH h]; intros Hs Hl; simpl in *; simplify_eq.
  - by rewrite decide_True.
  - by rewrite IH.
Qed.

Lemma Allow_admits (fr : FailureRateBreaker) now :
  FailureRate.state fr ≠ StateOpen → (FailureRate.Allow fr now).1.1 = true.
Proof. unfold FailureRate.Allow. by destruct (FailureRate.state fr). Qed.

Lemma layer_Allow_admits (b : Breaker) now :
  no_bulkhead b → FailureRate.state (core b) ≠ StateOpen →
  (breaker_Allow b now).1.1 = true.
Proof.
  intros Hb Hs. rewrite breaker_Allow_core by done. pose proof (Allow_admits (core b) now Hs).
  by destruct (FailureRate.Allow (core b) now) as [[??]?].
Qed.

(** The adaptive layer of a stack, if any. *)
Fixpoint adaptive_layer (b : Breaker) : option AdaptiveBreaker :=
  match b with
  | BFailureRate _ => None
  | BAdaptive a => Some a
  | BTimeout i _ | BBulkhead i _ => adaptive_layer i
  end.

Lemma adaptive_layer_map_core f (b : Breaker) :
  adaptive_layer (map_core f b) =
    (λ a, a <| ad_inner := f (ad_inner a) |>) <$> adaptive_layer b.
Proof. by induction b. Qed.

(** After any recorded result the installed threshold is the one computed from
    the adaptive layer's own base threshold and the new average. *)
Definition adapted (a : AdaptiveBreaker) (l : Duration) (b' : Breaker) : Prop :=
  FailureRate.failureThreshold (core b') = adaptive_threshold a (next_ewma a l) ∧
  ∃ a', adaptive_layer b' = Some a' ∧ ewmaLatency a' = next_ewma a l ∧
    baseThreshold a' = baseThreshold a.

Lemma record_adapts (b b' : Breaker) (l : Duration) now e a :
  adaptive_layer b = Some a →
  breaker_RecordSuccess b l now = Some (b', e) ∨
  breaker_RecordFailure b l now = Some (b', e) →
  adapted a l b'.
Proof.
  revert b' e. induction b as [|a0|i IH s|i IH h]; intros b' e Ha Hor; simpl in *;
    simplify_eq.
  - destruct Hor as [H|H]; apply bind_Some in H as ([fr ev] & _ & H); simplify_eq/=;
      (split; [done | by eexists]).
  - destruct Hor as [H|H]; [case_decide|];
      apply bind_Some in H as ([i' ev] & Hi & H); simplify_eq/=;
      eapply (IH i'); eauto.
  - destruct Hor as [H|H]; apply bind_Some in H as ([i' ev] & Hi & H); simplify_eq/=;
      eapply (IH i'); eauto.
Qed.

(** Stacks with at most one timeout layer, as [NewComposite] builds them. *)
Fixpoint single_timeout (b : Breaker) : Prop :=
  match b with
  | BTimeout i _ => slow_limit i = None ∧ single_timeout i
  | BBulkhead i _ => single_timeout i
  | _ => True
  end.

(** A success at most as slow as every timeout layer allows reaches the core as
    a success. *)
Lemma fast_success_reaches_core (b b' : Breaker) (l : Duration) now e :
  (∀ s, slow_limit b = Some s → l ≤ s) → single_timeout b →
  breaker_RecordSuccess b l now = Some (b', e) →
  ∃ fr, FailureRate.RecordSuccess (core b) now = Some (fr, e) ∧
    up_to_threshold fr (core b').
Proof.
  revert b' e. induction b as [fr|a|i IH s|i IH h]; intros b' e Hl Hst H; simpl in *.
  - apply bind_Some in H as ([fr' ev] & -> & ?); simplify_eq/=. eauto.
  - apply bind_Some in H as ([fr' ev] & -> & ?); simplify_eq/=.
    eexists; split; [done | by eexists].
  - rewrite decide_False in H by (specialize (Hl s eq_refl); lia).
    apply bind_Some in H as ([i' ev] & H & ?); simplify_eq/=.
    destruct Hst as [Hn Hst]. apply (IH i'); [by rewrite Hn | done | done].
  - apply bind_Some in H as ([i' ev] & H & ?); simplify_eq/=. eauto.
Qed.

(** ** Histories of calls, and what no call changes *)

Inductive composite_op :=
| CAllow | CSuccess (l : Duration) | CFailure (l : Duration)
| CRelease | CReset | CUpdate (cfg : CBConfig).

Definition composite_step (o : composite_op) (now : Time) (c : CompositeBreaker)
    : option CompositeBreaker :=
  match o with
  | CAllow => Some (composite_Allow c now).1.2
  | CSuccess l => fst <$> composite_RecordSuccess c l now
  | CFailure l => fst <$> composite_RecordFailure c l now
  | CRelease => fst <$> Release c
  | CReset => Some (composite_Reset c now).1
  | CUpdate cfg => Some (composite_UpdateConfig c cfg)
  end.

Fixpoint composite_run (ops : list (composite_op * Time)) (c : CompositeBreaker)
    : option CompositeBreaker :=
  match ops with
  | [] => Some c
  | (o, now) :: ops => composite_step o now c ≫= composite_run ops
  end.

(** The settings of the layers around the core. *)
Fixpoint layer_settings (b : Breaker) :
    list (Duration + Z + (float64 * float64 * float64 * Duration)) :=
  match b with
  | BFailureRate _ => []
  | BAdaptive a => [inr (alpha a, baseThreshold a, minThreshold a, latencyCeiling a)]
  | BTimeout i s => inl (inl s) :: layer_settings i
  | BBulkhead i h => inl (inr (sem_cap h)) :: layer_settings i
  end.

Lemma layer_settings_map_core f (b : Breaker) :
  layer_settings (map_core f b) = layer_settings b.
Proof. induction b; simpl; congruence. Qed.

Lemma layer_settings_Allow (b : Breaker) now :
  layer_settings (breaker_Allow b now).1.2 = layer_settings b.
Proof.
  induction b as [fr|a|i IH s|i IH h]; simpl.
  - by destruct (FailureRate.Allow fr now) as [[??]?].
  - by destruct (FailureRate.Allow (ad_inner a) now) as [[??]?].
  - destruct (breaker_Allow i now) as [[??]?]; simpl in *; congruence.
  - unfold try_acquire. case_decide; [|done].
    destruct (breaker_Allow i now) as [[[] ?]?]; simpl in *; [congruence |].
    unfold sem_receive. case_decide; simpl; congruence.
Qed.

Lemma layer_settings_record (b b' : Breaker) l now e :
  breaker_RecordSuccess b l now = Some (b', e) ∨
  breaker_RecordFailure b l now = Some (b', e) →
  layer_settings b' = layer_settings b.
Proof.
  revert b' e. induction b as [fr|a|i IH s|i IH h]; intros b' e Hor; simpl in *;
    destruct Hor as [H|H]; try case_decide;
    apply bind_Some in H as ([i' ev] & Hi & H); simplify_eq/=; try done;
    f_equal; eapply IH; eauto.
Qed.

Lemma layer_settings_Reset (b : Breaker) now :
  layer_settings (breaker_Reset b now).1 = layer_settings b.
Proof.
  induction b as [fr|a|i IH s|i IH h]; simpl; unfold adaptive_Reset;
    repeat case_match; simplify_eq/=; congruence.
Qed.

Lemma composite_step_settings o now (c c' : CompositeBreaker) :
  composite_step o now c = Some c' →
  layer_settings (effective c') = layer_settings (effective c).
Proof.
  destruct o; simpl; intros H.
  - injection H as <-. pose proof (layer_settings_Allow (effective c) now) as E.
    unfold composite_Allow. by destruct (breaker_Allow _ _) as [[??]?].
  - apply fmap_Some in H as ([? ?] & H & ->).
    apply bind_Some in H as ([? ?] & H & ?); simplify_eq/=. eauto using layer_settings_record.
  - apply fmap_Some in H as ([? ?] & H & ->).
    apply bind_Some in H as ([? ?] & H & ?); simplify_eq/=. eauto using layer_settings_record.
  - apply fmap_Some in H as ([? ?] & H & ->). unfold Release, sem_receive in H.
    destruct (effective c) as [| | |i h] eqn:E; simplify_eq/=; try by rewrite E.
    case_decide; by simplify_eq/=.
  - injection H as <-. pose proof (layer_settings_Reset (effective c) now) as E.
    unfold composite_Reset. by destruct (breaker_Reset _ _).
  - injection H as <-. apply layer_settings_map_core.
Qed.

Lemma composite_run_settings ops (c c' : CompositeBreaker) :
  composite_run ops c = Some c' →
  layer_settings (effective c') = layer_settings (effective c).
Proof.
  revert c. induction ops as [|[o now] ops IH]; intros c H; simpl in *; [by simplify_eq |].
  apply bind_Some in H as (c1 & Hs & H). rewrite (IH c1 H).
  by eapply composite_step_settings.
Qed.

(** The slow threshold and the capacity are functions of the settings. *)
Lemma settings_slow_limit (b b' : Breaker) :
  layer_settings b = layer_settings b' → slow_limit b = slow_limit b'.
Proof.
  revert b'. induction b as [| | |i IH h]; intros []; simpl; intros; simplify_eq; auto.
Qed.

Lemma settings_slot_cap (c c' : CompositeBreaker) :
  layer_settings (effective c) = layer_settings (effective c') → slot_cap c = slot_cap c'.
Proof.
  destruct c as [b], c' as [b']. unfold slot_cap, bulkhead. simpl.
  destruct b, b'; simpl; intros; simplify_eq; congruence.
Qed.

Lemma settings_adaptive_layer (b b' : Breaker) :
  layer_settings b = layer_settings b' →
  (λ a, (alpha a, baseThreshold a, minThreshold a, latencyCeiling a)) <$> adaptive_layer b =
  (λ a, (alpha a, baseThreshold a, minThreshold a, latencyCeiling a)) <$> adaptive_layer b'.
Proof.
  revert b'. induction b as [|a|i IH s|i IH h]; intros [|a'| |]; simpl; intros;
    simplify_eq; auto. congruence.
Qed.

Lemma NewComposite_settings be cfg m :
  slow_limit (effective (NewComposite be cfg m)) =
    (if decide (0 < cb_SlowThreshold cfg) then Some (cb_SlowThreshold cfg) else None) ∧
  slot_cap (NewComposite be cfg m) =
    (if decide (0 < cb_MaxConcurrent cfg) then Some (cb_MaxConcurrent cfg) else None) ∧
  ((λ a, (alpha a, baseThreshold a, minThreshold a, latencyCeiling a)) <$>
     adaptive_layer (effective (NewComposite be cfg m))) =
    (if cb_Adaptive cfg then
       Some (f64_lit 3 10, cb_FailureThreshold cfg, cb_MinThreshold cfg, cb_LatencyCeiling cfg)
     else None).
Proof.
  unfold NewComposite. by repeat case_decide; destruct (cb_Adaptive cfg).
Qed.

Lemma single_timeout_settings (b b' : Breaker) :
  layer_settings b = layer_settings b' → single_timeout b → single_timeout b'.
Proof.
  revert b'. induction b as [| |i IH s|i IH h]; intros [| |i' s'|i' h']; simpl; intros; simplify_eq;
    auto. destruct_and?. erewrite <-(settings_slow_limit i i') by done. auto.
Qed.

Lemma NewComposite_single_timeout be cfg m :
  single_timeout (effective (NewComposite be cfg m)).
Proof. unfold NewComposite. by repeat case_decide; destruct (cb_Adaptive cfg). Qed.

(** ** Properties *)

(** C7. However many requests use a composite and however its configuration is
    reloaded, its bulkhead holds exactly one slot per admitted, unreleased
    request and never more than its capacity; no recording call panics, and a
    [Release] that is owed never blocks. *)
Theorem bulkhead_accounts_for_requests (c : CompositeBreaker) (n : Z) :
  used c n →
  (∀ h, bulkhead c = Some h → sem_len h = n ∧ 0 ≤ n ≤ sem_cap h) ∧
  (∀ l now, composite_RecordSuccess c l now ≠ None ∧ composite_RecordFailure c l now ≠ None) ∧
  (0 < n → Release c ≠ None).
Proof.
  intros Hu. destruct (used_accounts c n Hu) as (Hok & Hs & Hn). split; [|split].
  - intros h Hh. unfold slots, slot_unit in Hs. rewrite Hh in Hs.
    destruct Hok as [Hst _]. unfold bulkhead in Hh.
    destruct (effective c); simplify_eq/=. destruct Hst as [_ Hb].
    unfold bulkhead_ok in Hb. lia.
  - intros l now. destruct (composite_RecordSuccess_keeps c l now Hok) as (? & ? & -> & _).
    by destruct (composite_RecordFailure_keeps c l now Hok) as (? & ? & -> & _).
  - intros Hpos. destruct (Release_keeps c Hok) as (? & ? & -> & _); [|done].
    assert (0 ≤ slot_unit c) by (unfold slot_unit; case_match; lia). nia.
Qed.

(** [EffectiveState] tells what [Allow] will do: a composite that shows closed
    or half-open admits the next request, one whose bulkhead is full shows open
    and rejects it without changing state. *)
Theorem effective_state_predicts_allow (c : CompositeBreaker) (now : Time) :
  composite_ok c →
  (EffectiveState c ≠ StateOpen → (composite_Allow c now).1.1 = true) ∧
  (∀ h, bulkhead c = Some h → AtCapacity h = true →
     EffectiveState c = StateOpen ∧ (composite_Allow c now).1 = (false, c)).
Proof.
  intros [Hst _]. destruct c as [b]. unfold EffectiveState, InnerState, composite_Allow, bulkhead.
  destruct b as [| | |i h]; simpl in Hst; (split; [intros Hne |]); try done;
    try (match goal with |- context [breaker_Allow ?b now] =>
           pose proof (layer_Allow_admits b now Hst Hne) end;
         simpl in *; by destruct (breaker_Allow _ _) as [[??]?]
         || by destruct (FailureRate.Allow _ _) as [[??]?]).
  - simpl in *. unfold AtCapacity in Hne. case_bool_decide; [done |].
    destruct Hst as [Hi _]. pose proof (layer_Allow_admits i now Hi Hne) as Ha.
    unfold try_acquire. rewrite decide_True by lia.
    destruct (breaker_Allow i now) as [[r i'] e]; simpl in *. by subst.
  - intros h' ? Hcap; simplify_eq/=. rewrite Hcap. split; [done |].
    unfold AtCapacity in Hcap. apply bool_decide_eq_true in Hcap.
    unfold try_acquire. by rewrite decide_False by lia.
Qed.

(** Whatever calls and reloads a composite has gone through, a success slower
    than the slow threshold it was built with is recorded exactly as a failure;
    one at most that slow reaches the core as a success; and its bulkhead still
    has the capacity it was built with: a reload replaces neither. *)
Theorem slow_successes_are_failures (be : string) (cfg : CBConfig) (m : bool)
    (ops : list (composite_op * Time)) (c : CompositeBreaker) :
  composite_run ops (NewComposite be cfg m) = Some c →
  (∀ l now, 0 < cb_SlowThreshold cfg < l →
     composite_RecordSuccess c l now = composite_RecordFailure c l now) ∧
  (∀ l now c' e, l ≤ cb_SlowThreshold cfg ∨ cb_SlowThreshold cfg ≤ 0 →
     composite_RecordSuccess c l now = Some (c', e) →
     ∃ fr, FailureRate.RecordSuccess (core (effective c)) now = Some (fr, e) ∧
       up_to_threshold fr (core (effective c'))) ∧
  slot_cap c =
    (if decide (0 < cb_MaxConcurrent cfg) then Some (cb_MaxConcurrent cfg) else None).
Proof.
  intros Hrun%composite_run_settings.
  destruct (NewComposite_settings be cfg m) as (Hslow & Hcap & _).
  pose proof (settings_slow_limit _ _ Hrun) as Hl. rewrite Hslow in Hl.
  pose proof (settings_slot_cap _ _ Hrun) as Hk. split; [|split; [|congruence]].
  - intros l now Hlt. rewrite decide_True in Hl by lia. unfold composite_RecordSuccess,
      composite_RecordFailure. by rewrite (slow_success_is_failure _ _ _ _ Hl) by lia.
  - intros l now c' e Hle H. apply bind_Some in H as ([b ev] & H & ?); simplify_eq/=.
    eapply fast_success_reaches_core; [| |done].
    + intros s Hs. rewrite Hl in Hs. case_decide; simplify_eq; lia.
    + eapply single_timeout_settings; [done | apply NewComposite_single_timeout].
Qed.

(** A reload cannot change the threshold of an adaptive breaker for longer
    than until its next recorded result: the threshold is then again the one
    computed from the base threshold the composite was built with, and as long
    as the average latency is at most the ceiling it is that base threshold. *)
Theorem adaptive_reload_is_undone (be : string) (cfg : CBConfig) (m : bool)
    (ops : list (composite_op * Time)) (c c' : CompositeBreaker) (cfg' : CBConfig)
    (l : Duration) (now : Time) (e : list MetricEvent) :
  cb_Adaptive cfg = true →
  composite_run ops (NewComposite be cfg m) = Some c →
  FailureRate.failureThreshold (core (effective (composite_UpdateConfig c cfg'))) =
    cb_FailureThreshold cfg' ∧
  (composite_RecordSuccess (composite_UpdateConfig c cfg') l now = Some (c', e) →
   ∃ a', adaptive_layer (effective c') = Some a' ∧
     baseThreshold a' = cb_FailureThreshold cfg ∧
     FailureRate.failureThreshold (core (effective c')) =
       adaptive_threshold a' (ewmaLatency a') ∧
     (fleb (ewmaLatency a') (f64 (cb_LatencyCeiling cfg)) = true →
      FailureRate.failureThreshold (core (effective c')) = cb_FailureThreshold cfg)).
Proof.
  intros Had Hrun%composite_run_settings. split.
  { unfold composite_UpdateConfig; simpl. rewrite core_map_core. unfold update_core.
    by case_decide. }
  destruct (NewComposite_settings be cfg m) as (_ & _ & Ha). rewrite Had in Ha.
  pose proof (settings_adaptive_layer _ _ Hrun) as Hl. rewrite Ha in Hl.
  apply fmap_Some in Hl as (a & Hla & [= _ Hb Hm Hc]).
  intros H. apply bind_Some in H as ([b ev] & H & ?); simplify_eq/=.
  pose proof (adaptive_layer_map_core (update_core cfg') (effective c)) as Hu.
  rewrite Hla in Hu; simpl in Hu.
  destruct (record_adapts _ _ _ _ _ _ Hu (or_introl H)) as (Ht & a' & Ha' & He & Hb').
  assert (latencyCeiling a' = latencyCeiling a ∧ minThreshold a' = minThreshold a) as [Hc' Hm'].
  { pose proof (layer_settings_record _ _ _ _ _ (or_introl H)) as Hs.
    apply settings_adaptive_layer in Hs. rewrite Ha', Hu in Hs. by simplify_eq/=. }
  exists a'. rewrite <-He in Ht. simpl in Hb'. split; [done |]. split; [congruence |]. split.
  - rewrite Ht. unfold adaptive_threshold; simpl. by rewrite Hc', Hm', Hb'.
  - intros Hfl. rewrite Ht. unfold adaptive_threshold; simpl.
    replace (latencyCeiling a) with (cb_LatencyCeiling cfg) by congruence.
    rewrite Hfl. congruence.
Qed.

(** ** Witnesses *)

Definition demo_cfg : CBConfig :=
  mkCBConfig 2 (f64_lit 1 2) Second 1 (100 * Millisecond) 1 true (50 * Millisecond)
    (f64_lit 1 10).

Lemma demo_cfg_ok : cb_config_ok demo_cfg.
Proof. by vm_compute. Qed.

Lemma bulkhead_accounts_for_requests_witness :
  let c := (composite_Allow (NewComposite "b" demo_cfg true) 0).1.2 in
  (∀ h, bulkhead c = Some h → sem_len h = 1 ∧ 0 ≤ 1 ≤ sem_cap h) ∧
  (∀ l now, composite_RecordSuccess c l now ≠ None ∧ composite_RecordFailure c l now ≠ None) ∧
  (0 < 1 → Release c ≠ None).
Proof.
  intros c. apply (bulkhead_accounts_for_requests c 1).
  apply (used_allow (NewComposite "b" demo_cfg true) 0 0 true c
           (composite_Allow (NewComposite "b" demo_cfg true) 0).2); [|by vm_compute].
  apply used_new, demo_cfg_ok.
Defined.

Lemma effective_state_predicts_allow_witness :
  let c := (composite_Allow (NewComposite "b" demo_cfg true) 0).1.2 in
  (EffectiveState c ≠ StateOpen → (composite_Allow c 7).1.1 = true) ∧
  (∀ h, bulkhead c = Some h → AtCapacity h = true →
     EffectiveState c = StateOpen ∧ (composite_Allow c 7).1 = (false, c)).
Proof.
  intros c. apply (effective_state_predicts_allow c 7).
  apply (used_accounts c 1).
  apply (used_allow (NewComposite "b" demo_cfg true) 0 0 true c
           (composite_Allow (NewComposite "b" demo_cfg true) 0).2); [|by vm_compute].
  apply used_new, demo_cfg_ok.
Defined.

Definition demo_reload : CBConfig := demo_cfg <| cb_SlowThreshold := 10 * Second |>
  <| cb_MaxConcurrent := 50 |> <| cb_FailureThreshold := f64_lit 9 10 |>.

Definition demo_composite : CompositeBreaker := NewComposite "b" demo_cfg true.

Lemma slow_successes_are_failures_witness :
  let c := composite_UpdateConfig demo_composite demo_reload in
  composite_RecordSuccess c Second 5 = composite_RecordFailure c Second 5 ∧
  slot_cap c = Some 1.
Proof.
  intros c.
  destruct (slow_successes_are_failures "b" demo_cfg true [(CUpdate demo_reload, 0)] c)
    as (Hs & _ & Hc); [by vm_compute |].
  split; [apply Hs; by vm_compute | by rewrite Hc].
Defined.

Lemma adaptive_reload_is_undone_witness :
  ∃ c' e, composite_RecordSuccess (composite_UpdateConfig demo_composite demo_reload)
            Millisecond 5 = Some (c', e) ∧
    FailureRate.failureThreshold (core (effective c')) = f64_lit 1 2 ∧
    cb_FailureThreshold demo_reload ≠ f64_lit 1 2.
Proof.
  destruct (composite_RecordSuccess (composite_UpdateConfig demo_composite demo_reload)
              Millisecond 5) as [[c' e]|] eqn:E; [|by vm_compute in E].
  exists c', e. split; [done |]. split; [|by vm_compute].
  destruct (adaptive_reload_is_undone "b" demo_cfg true [] demo_composite c' demo_reload
              Millisecond 5 e eq_refl eq_refl) as [_ H].
  destruct (H E) as (a' & Ha & _ & _ & Hf). apply Hf.
  vm_compute in E. injection E as <- _. vm_compute in Ha. injection Ha as <-. by vm_compute.
Defined.
