(* ===== verification/BulkheadConc.v ===== *)
(** * The bulkhead under concurrent requests
    (internal/circuitbreaker/bulkhead.go)

    [BulkheadBreaker.Allow] is not atomic: the slot is taken by a channel send,
    the inner breaker is asked under its own mutex, and a rejected request gives
    its slot back by a receive.  Here the requests are threads, each at one of
    these points, and the steps of different requests interleave freely.
    [CircuitBreaker.breaker_Allow] is the run of one request's steps without
    interruption. *)

From stdpp Require Import relations.
From S2P Require Import Prelude GoFloat Metrics FailureRateBreaker CircuitBreaker.

(** Where a request that owns a slot is: between the send and the inner
    breaker's answer, about to give the slot back, or admitted. *)
Inductive request_point := Acquired | Rejecting | InFlight.

#[export] Instance request_point_eq_dec : EqDecision request_point.
Proof. solve_decision. Defined.

(** The bulkhead with its inner breaker, and the requests that own a slot. *)
Record BulkheadState := mkBS {
  bs_inner : Breaker;
  bs_sem : Bulkhead;
  bs_requests : gmap nat request_point
}.

Inductive bulkhead_step : BulkheadState → BulkheadState → Prop :=
| bstep_acquire i h h' ts t :
    ts !! t = None → try_acquire h = Some h' →
    bulkhead_step (mkBS i h ts) (mkBS i h' (<[t := Acquired]> ts))
| bstep_full i h ts t :
    ts !! t = None → try_acquire h = None →
    bulkhead_step (mkBS i h ts) (mkBS i h ts)
| bstep_inner i i' h ts t now r e :
    ts !! t = Some Acquired → breaker_Allow i now = (r, i', e) →
    bulkhead_step (mkBS i h ts) (mkBS i' h (<[t := if r then InFlight else Rejecting]> ts))
| bstep_give_back i h h' ts t :
    ts !! t = Some Rejecting → sem_receive h = Some h' →
    bulkhead_step (mkBS i h ts) (mkBS i h' (delete t ts))
| bstep_success i i' h ts t l now e :
    ts !! t = Some InFlight → breaker_RecordSuccess i l now = Some (i', e) →
    bulkhead_step (mkBS i h ts) (mkBS i' h ts)
| bstep_failure i i' h ts t l now e :
    ts !! t = Some InFlight → breaker_RecordFailure i l now = Some (i', e) →
    bulkhead_step (mkBS i h ts) (mkBS i' h ts)
| bstep_release i h h' ts t :
    ts !! t = Some InFlight → sem_receive h = Some h' →
    bulkhead_step (mkBS i h ts) (mkBS i h' (delete t ts)).

Definition bulkhead_init (i : Breaker) (maxConcurrent : Z) (be : string) (m : bool)
    : BulkheadState := mkBS i (NewBulkhead maxConcurrent be m) ∅.

(** Every token in the channel belongs to exactly one request. *)
Definition bulkhead_inv (cap : Z) (s : BulkheadState) : Prop :=
  sem_cap (bs_sem s) = cap ∧ sem_len (bs_sem s) = Z.of_nat (size (bs_requests s)) ∧
  sem_len (bs_sem s) ≤ cap.

Lemma size_owner {A} (m : gmap nat A) t x : m !! t = Some x → size m ≠ 0%nat.
Proof. intros Ht Hz%map_size_empty_inv. subst. by rewrite lookup_empty in Ht. Qed.

Lemma size_delete_Z {A} (m : gmap nat A) t x :
  m !! t = Some x → Z.of_nat (size (delete t m)) = Z.of_nat (size m) - 1.
Proof.
  intros Ht. rewrite map_size_delete_Some by done. pose proof (size_owner m t x Ht). lia.
Qed.

Lemma size_insert_Z {A} (m : gmap nat A) t x :
  m !! t = None → Z.of_nat (size (<[t := x]> m)) = Z.of_nat (size m) + 1.
Proof. intros Ht. rewrite map_size_insert_None by done. lia. Qed.

Lemma size_update_Z {A} (m : gmap nat A) t x y :
  m !! t = Some y → size (<[t := x]> m) = size m.
Proof. intros. by rewrite map_size_insert_Some. Qed.

Lemma bulkhead_step_inv cap s s' :
  bulkhead_step s s' → bulkhead_inv cap s → bulkhead_inv cap s'.
Proof.
  unfold bulkhead_inv. destruct 1; simpl in *; intros (Hcap & Hlen & Hle); auto.
  - unfold try_acquire in *. case_decide; simplify_eq/=. rewrite size_insert_Z by done. lia.
  - erewrite size_update_Z by done. auto.
  - unfold sem_receive in *. case_decide; simplify_eq/=. erewrite size_delete_Z by done. lia.
  - unfold sem_receive in *. case_decide; simplify_eq/=. erewrite size_delete_Z by done. lia.
Qed.

Lemma bulkhead_inv_reachable i cap be m s :
  0 ≤ cap → rtc bulkhead_step (bulkhead_init i cap be m) s → bulkhead_inv cap s.
Proof.
  intros Hcap. apply (rtc_ind_r (λ s, bulkhead_inv cap s)).
  - unfold bulkhead_inv, bulkhead_init; simpl. by rewrite map_size_empty.
  - intros; by eapply bulkhead_step_inv.
Qed.

(** The requests that have been admitted and not released. *)
Definition in_flight (s : BulkheadState) : gmap nat request_point :=
  filter (λ p, p.2 = InFlight) (bs_requests s).

Lemma in_flight_size s : (size (in_flight s) ≤ size (bs_requests s))%nat.
Proof. apply map_size_filter. Qed.

(** A request inside the bulkhead can always take its next step. *)
Lemma owner_progress cap s t p :
  bulkhead_inv cap s → bs_requests s !! t = Some p →
  sem_receive (bs_sem s) ≠ None.
Proof.
  intros (_ & Hlen & _) Ht. unfold sem_receive. rewrite decide_True; [done |].
  rewrite Hlen. pose proof (size_owner _ _ _ Ht). lia.
Qed.

(** ** Properties *)

(** For every interleaving of requests, no more of them are in flight than
    the bulkhead has slots, no receive that a request performs can block, and a
    request is turned away at the semaphore only while as many requests as there
    are slots are inside. *)
Theorem bulkhead_bounds_concurrency (i : Breaker) (cap : Z) be m (s : BulkheadState) :
  0 ≤ cap → rtc bulkhead_step (bulkhead_init i cap be m) s →
  Z.of_nat (size (in_flight s)) ≤ cap ∧
  (∀ t p, bs_requests s !! t = Some p → sem_receive (bs_sem s) ≠ None) ∧
  (try_acquire (bs_sem s) = None ↔ Z.of_nat (size (bs_requests s)) = cap).
Proof.
  intros Hcap Hr. pose proof (bulkhead_inv_reachable _ _ _ _ _ Hcap Hr) as Hinv.
  split; [|split].
  - pose proof (in_flight_size s). destruct Hinv as (_ & ? & ?). lia.
  - intros t p. by apply (owner_progress cap).
  - destruct Hinv as (Hc & Hl & Hle). unfold try_acquire. rewrite Hc.
    case_decide; split; try done; lia.
Qed.

(** The sequential [Allow] of the bulkhead is what a request's own steps
    compute when no other request is interleaved: admitted, it has taken a slot
    and is in flight; rejected, the slots are as before. *)
Theorem bulkhead_Allow_atomic (i : Breaker) (h : Bulkhead) (ts : gmap nat request_point)
    (t : nat) (now : Time) :
  ts !! t = None → 0 ≤ sem_len h →
  ∃ r i' h', (breaker_Allow (BBulkhead i h) now).1 = (r, BBulkhead i' h') ∧
    rtc bulkhead_step (mkBS i h ts)
      (mkBS i' h' (if r then <[t := InFlight]> ts else ts)) ∧
    sem_len h' = sem_len h + (if r then 1 else 0).
Proof.
  intros Ht Hh. simpl. destruct (try_acquire h) as [h1|] eqn:Hacq.
  2: { exists false, i, h. split; [done |]. split; [apply rtc_refl | lia]. }
  pose proof Hacq as Hlen. unfold try_acquire in Hlen. case_decide; [|done].
  assert (rtc bulkhead_step (mkBS i h ts) (mkBS i h1 (<[t := Acquired]> ts))) as Hstep1.
  { apply rtc_once. by apply bstep_acquire. }
  destruct (breaker_Allow i now) as [[r i'] e] eqn:Ha.
  assert (rtc bulkhead_step (mkBS i h ts)
    (mkBS i' h1 (<[t := if r then InFlight else Rejecting]> ts))) as Hstep2.
  { eapply rtc_r; [exact Hstep1 |].
    rewrite <-(insert_insert_eq ts t (if r then InFlight else Rejecting) Acquired).
    eapply bstep_inner; [apply lookup_insert_eq | done]. }
  destruct r; [exists true, i', h1; simplify_eq/=; by auto |].
  simplify_eq/=. unfold sem_receive; simpl. rewrite decide_True by lia. simpl.
  eexists false, i', _. split; [done |]. split; [|simpl; lia].
  eapply rtc_r; [exact Hstep2 |].
  rewrite <-(delete_insert_id ts t Rejecting) at 2 by done.
  apply bstep_give_back; [apply lookup_insert_eq |].
  unfold sem_receive; simpl. by rewrite decide_True by lia.
Qed.

(** ** Witnesses *)

Definition demo_inner : Breaker :=
  BFailureRate (FailureRate.NewFailureRateBreaker "b" 2 (f64_lit 1 2) Second 1 true).

Lemma bulkhead_bounds_concurrency_witness :
  ∃ s, rtc bulkhead_step (bulkhead_init demo_inner 1 "b" true) s ∧
    size (in_flight s) = 1%nat ∧ Z.of_nat (size (in_flight s)) ≤ 1.
Proof.
  assert (∃ s, rtc bulkhead_step (bulkhead_init demo_inner 1 "b" true) s ∧
    size (in_flight s) = 1%nat) as (s & Hs & Hf).
  { eexists. split.
    - eapply rtc_l; [by apply (bstep_acquire _ _ ((NewBulkhead 1 "b" true) <| sem_len := 1 |>) ∅ 0%nat) |].
      eapply rtc_l; [|apply rtc_refl].
      by eapply (bstep_inner _ demo_inner _ _ 0%nat 0 true).
    - by vm_compute. }
  exists s. split; [done |]. split; [done |].
  apply (bulkhead_bounds_concurrency demo_inner 1 "b" true s); [lia | done].
Defined.

Lemma bulkhead_Allow_atomic_witness :
  ∃ r i' h', (breaker_Allow (BBulkhead demo_inner (NewBulkhead 1 "b" true)) 0).1
      = (r, BBulkhead i' h') ∧
    rtc bulkhead_step (mkBS demo_inner (NewBulkhead 1 "b" true) ∅)
      (mkBS i' h' (if r then <[0%nat := InFlight]> ∅ else ∅)) ∧
    sem_len h' = sem_len (NewBulkhead 1 "b" true) + (if r then 1 else 0).
Proof.
  apply (bulkhead_Allow_atomic demo_inner (NewBulkhead 1 "b" true) ∅ 0%nat 0); [done |].
  by vm_compute.
Defined.
