(* ===== verification/GoErrors.v ===== *)
(** * Go error values

    A non-nil [error]: a leaf made by [errors.New], one of the two sentinel
    errors of package [context], a custom error type of the package under
    study ([V]), or a wrapper as made by [fmt.Errorf] with [%w] or by
    [errors.Join], which shows a message of its own and unwraps to a list.
    A nil error is [None] of [option (goerror V)]. *)

From S2P Require Import Prelude GoStrings.

#[warnings="-register-all"]
Inductive goerror (V : Type) :=
| ErrNew (msg : string)
| ErrCanceled
| ErrDeadlineExceeded
| ErrCustom (v : V)
| ErrWrap (msg : string) (inner : list (goerror V)).
Arguments ErrNew {V} _.
Arguments ErrCanceled {V}.
Arguments ErrDeadlineExceeded {V}.
Arguments ErrCustom {V} _.
Arguments ErrWrap {V} _ _.

(** [err.Error()], given that of the custom type. *)
Definition err_Error {V : Type} (show : V → string) (e : goerror V) : string :=
  match e with
  | ErrNew msg | ErrWrap msg _ => msg
  | ErrCanceled => "context canceled"
  | ErrDeadlineExceeded => "context deadline exceeded"
  | ErrCustom v => show v
  end.

(** [errors.As(err, &v)] for the custom type: the first match in pre-order. *)
Fixpoint errors_As {V : Type} (e : goerror V) : option V :=
  match e with
  | ErrCustom v => Some v
  | ErrWrap _ inner =>
      (fix first (l : list (goerror V)) : option V :=
         match l with
         | [] => None
         | e :: l => match errors_As e with Some v => Some v | None => first l end
         end) inner
  | _ => None
  end.

(** [errors.Is(err, target)] for the sentinels [target] recognises. *)
Fixpoint errors_Is {V : Type} (target : goerror V → bool) (e : goerror V) : bool :=
  target e ||
  match e with
  | ErrWrap _ inner =>
      (fix any (l : list (goerror V)) : bool :=
         match l with [] => false | e :: l => errors_Is target e || any l end) inner
  | _ => false
  end.

Definition is_ctx_error {V : Type} (e : goerror V) : bool :=
  match e with ErrCanceled | ErrDeadlineExceeded => true | _ => false end.

(** ** Contexts

    What the gateway reads of a [context.Context]: the error it is done with,
    if it is. *)
Inductive ctx_err := CtxCanceled | CtxDeadlineExceeded.

#[export] Instance ctx_err_eq_dec : EqDecision ctx_err.
Proof. solve_decision. Defined.

Definition ctx_error {V : Type} (c : ctx_err) : goerror V :=
  match c with CtxCanceled => ErrCanceled | CtxDeadlineExceeded => ErrDeadlineExceeded end.

Definition ctx_err_Error (c : ctx_err) : string :=
  match c with
  | CtxCanceled => "context canceled"
  | CtxDeadlineExceeded => "context deadline exceeded"
  end.

Lemma ctx_error_Error {V} (show : V → string) c :
  err_Error show (ctx_error c) = ctx_err_Error c.
Proof. by destruct c. Qed.

Lemma ctx_error_Is {V} c : errors_Is is_ctx_error (ctx_error (V := V) c) = true.
Proof. by destruct c. Qed.
