(* ===== verification/GoNet.v ===== *)
(** * The parts of Go's [net] and [net/netip] that the gateway parses
    addresses with

    An address is its bytes, as [net.IP]; [netip.ParseAddr] tells an IPv4
    address from an IPv6 one that embeds it, which decides the width of a CIDR
    mask. *)

From S2P Require Import Prelude GoFloat GoStrings.

(** ** Splitting *)

(** [strings.Cut(s, c)] for one byte, [None] when [c] does not occur. *)
Fixpoint cut_at (c : ascii) (s : string) : option (string * string) :=
  match s with
  | EmptyString => None
  | String c' r =>
      if Ascii.eqb c' c then Some (EmptyString, r)
      else '(before, after) ← cut_at c r; Some (String c' before, after)
  end.

(** The same at the last occurrence of [c]. *)
Fixpoint cut_last (c : ascii) (s : string) : option (string * string) :=
  match s with
  | EmptyString => None
  | String c' r =>
      match cut_last c r with
      | Some (before, after) => Some (String c' before, after)
      | None => if Ascii.eqb c' c then Some (EmptyString, r) else None
      end
  end.

Definition has_char (c : ascii) (s : string) : bool :=
  match cut_at c s with Some _ => true | None => false end.

(** [net.SplitHostPort(hostport)]; [None] for each of its errors. *)
Definition SplitHostPort (hostport : string) : option (string * string) :=
  '(host, port) ← cut_last ":" hostport;
  match hostport with
  | String "[" r =>
      (* the first closing bracket is followed by the last colon *)
      '(inside, after) ← cut_at "]" r;
      if bool_decide (host = String "[" inside +:+ "]")
         && negb (has_char "[" r) && negb (has_char "]" after)
      then Some (inside, port) else None
  | _ =>
      if has_char ":" host || has_char "[" hostport || has_char "]" hostport then None
      else Some (host, port)
  end.

Example SplitHostPort_examples :
  SplitHostPort "10.0.0.1:80" = Some ("10.0.0.1", "80") ∧
  SplitHostPort "[::1]:80" = Some ("::1", "80") ∧
  SplitHostPort "10.0.0.1" = None ∧ SplitHostPort "::1:80" = None ∧
  SplitHostPort "[::1]" = None ∧ SplitHostPort "[::1]x:80" = None.
Proof. done. Qed.

(** ** Numbers *)

Definition dec_val (c : ascii) : option Z :=
  let n := Z.of_nat (nat_of_ascii c) in
  if decide (48 ≤ n ≤ 57) then Some (n - 48) else None.

Definition hex_val (c : ascii) : option Z :=
  let n := Z.of_nat (nat_of_ascii c) in
  if decide (48 ≤ n ≤ 57) then Some (n - 48)
  else if decide (97 ≤ n ≤ 102) then Some (n - 87)
  else if decide (65 ≤ n ≤ 70) then Some (n - 55)
  else None.

(** A run of decimal digits below a bound: the value, [None] for another
    character or a value above the bound. *)
Fixpoint dec_run (bound : Z) (s : string) (acc : Z) : option Z :=
  match s with
  | EmptyString => Some acc
  | String c r =>
      d ← dec_val c;
      let acc := acc * 10 + d in
      if decide (bound < acc) then None else dec_run bound r acc
  end.

(** ** Addresses *)

(** An octet of a dotted address: digits, no leading zero, at most 255. *)
Definition parse_octet (s : string) : option Z :=
  match s with
  | EmptyString => None
  | String "0" (String _ _) => None
  | _ => dec_run 255 s 0
  end.

(** [parseIPv4Fields]: four octets between dots. *)
Definition parseIPv4 (s : string) : option (list Z) :=
  match Split s "." with
  | [a; b; c; d] =>
      a ← parse_octet a; b ← parse_octet b; c ← parse_octet c; d ← parse_octet d;
      Some [a; b; c; d]
  | _ => None
  end.

(** One group of hex digits: its value, their number and what follows. *)
Fixpoint hex_run (s : string) (off : nat) (acc : Z) : option (Z * nat * string) :=
  match s with
  | EmptyString => Some (acc, off, s)
  | String c r =>
      match hex_val c with
      | None => Some (acc, off, s)
      | Some d =>
          let acc := acc * 16 + d in
          if decide (3 < off)%nat then None
          else if decide (65535 < acc) then None
          else hex_run r (S off) acc
      end
  end.

(** The loop of [parseIPv6] over groups: [groups] is the number that still fit,
    [ip] the bytes so far; the result is the bytes, the position of the
    ellipsis and the unread rest. *)
Fixpoint ipv6_groups (groups : nat) (ip : list Z) (ellipsis : option nat) (s : string)
    : option (list Z * option nat * string) :=
  match groups with
  | O => Some (ip, ellipsis, s)
  | S groups =>
      '(acc, off, rest) ← hex_run s 0 0;
      if decide (off = 0%nat) then None
      else
        match rest with
        | String "." _ =>
            if bool_decide (ellipsis = None) && negb (bool_decide (length ip = 12%nat)) then None
            else if decide (16 < length ip + 4)%nat then None
            else v4 ← parseIPv4 s; Some (ip ++ v4, ellipsis, "")
        | _ =>
            let ip := ip ++ [acc / 256; acc mod 256] in
            match rest with
            | EmptyString => Some (ip, ellipsis, "")
            | String ":" EmptyString => None
            | String ":" (String ":" r) =>
                match ellipsis with
                | Some _ => None
                | None =>
                    if decide (r = "") then Some (ip, Some (length ip), "")
                    else ipv6_groups groups ip (Some (length ip)) r
                end
            | String ":" r => ipv6_groups groups ip ellipsis r
            | _ => None
            end
        end
  end.

(** [parseIPv6], without its zone. *)
Definition parseIPv6 (s : string) : option (list Z) :=
  let '(ellipsis, s) :=
    match s with String ":" (String ":" r) => (Some 0%nat, r) | _ => (None, s) end in
  if bool_decide (ellipsis = Some 0%nat) && bool_decide (s = "") then Some (replicate 16 0)
  else
    '(ip, ellipsis, rest) ← ipv6_groups 8 [] ellipsis s;
    if decide (rest ≠ "") then None
    else if decide (length ip < 16)%nat then
      e ← ellipsis;
      Some (take e ip ++ replicate (16 - length ip) 0 ++ drop e ip)
    else match ellipsis with Some _ => None | None => Some ip end.

Definition v4InV6Prefix : list Z := replicate 10 0 ++ [255; 255].

(** [netip.ParseAddr(s)] as 16 bytes, with whether it is an IPv4 address and the
    zone. *)
Record Addr := mkAddr { a_is4 : bool; a_16 : list Z; a_zone : string }.

Fixpoint first_of (cs : list ascii) (s : string) : option ascii :=
  match s with
  | EmptyString => None
  | String c r => if bool_decide (c ∈ cs) then Some c else first_of cs r
  end.

Definition ParseAddr (s : string) : option Addr :=
  match first_of ["."; ":"; "%"]%char s with
  | Some "."%char => ip ← parseIPv4 s; Some (mkAddr true (v4InV6Prefix ++ ip) "")
  | Some ":"%char =>
      match cut_at "%" s with
      | None => ip ← parseIPv6 s; Some (mkAddr false ip "")
      | Some (s, zone) =>
          if decide (zone = "") then None
          else ip ← parseIPv6 s; Some (mkAddr false ip zone)
      end
  | _ => None
  end.

(** [net.ParseIP(s)]: 16 bytes, [None] for nil. *)
Definition ParseIP (s : string) : option (list Z) :=
  a ← ParseAddr s; if decide (a_zone a = "") then Some (a_16 a) else None.

(** [ip.To4()] *)
Definition To4 (ip : list Z) : option (list Z) :=
  if decide (length ip = 4%nat) then Some ip
  else if bool_decide (length ip = 16%nat) && bool_decide (take 12 ip = v4InV6Prefix)
  then Some (drop 12 ip) else None.

(** ** Networks *)

Record IPNet := mkIPNet { n_IP : list Z; n_Mask : list Z }.

(** [CIDRMask(ones, 8 * l)] *)
Fixpoint CIDRMask (ones : Z) (l : nat) : list Z :=
  match l with
  | O => []
  | S l =>
      if decide (8 ≤ ones) then 255 :: CIDRMask (ones - 8) l
      else (255 - Z.shiftr 255 ones) :: CIDRMask 0 l
  end.

Definition and_bytes (a b : list Z) : list Z := zip_with Z.land a b.

(** [ip.Mask(mask)] for the 16 bytes of a parsed address. *)
Definition ip_Mask (ip mask : list Z) : list Z :=
  let ip := if bool_decide (length mask = 4%nat) && bool_decide (take 12 ip = v4InV6Prefix)
            then drop 12 ip else ip in
  and_bytes ip mask.

(** [net.ParseCIDR(s)]: the network, [None] for an error. *)
Definition ParseCIDR (s : string) : option IPNet :=
  '(addr, mask) ← cut_at "/" s;
  a ← ParseAddr addr;
  n ← (if decide (mask = "") then None else dec_run 16777214 mask 0);
  let bytes := if a_is4 a then 4%nat else 16%nat in
  if bool_decide (a_zone a ≠ "") || bool_decide (8 * Z.of_nat bytes < n) then None
  else
    let m := CIDRMask n bytes in
    Some (mkIPNet (ip_Mask (a_16 a) m) m).

(** The text of its error. *)
Definition ParseCIDR_error (s : string) : option string :=
  match ParseCIDR s with
  | Some _ => None
  | None => Some ("invalid CIDR address: " +:+ s)
  end.

(** [n.Contains(ip)] for a parsed network: an embedded IPv4 address is compared
    as such. *)
Definition net_Contains (n : IPNet) (ip : list Z) : bool :=
  let '(nn, m) :=
    match To4 (n_IP n) with
    | Some nn => (nn, if decide (length (n_Mask n) = 16%nat) then drop 12 (n_Mask n) else n_Mask n)
    | None => (n_IP n, n_Mask n)
    end in
  let ip := default ip (To4 ip) in
  bool_decide (length ip = length nn) && bool_decide (and_bytes nn m = and_bytes ip m).

Definition in_net (cidr ip : string) : option bool :=
  n ← ParseCIDR cidr; ip ← ParseIP ip; Some (net_Contains n ip).

Example net_examples :
  in_net "10.0.0.0/8" "10.1.2.3" = Some true ∧ in_net "10.0.0.0/8" "11.1.2.3" = Some false ∧
  in_net "10.0.0.0/8" "::ffff:10.1.2.3" = Some true ∧
  in_net "10.1.2.3/20" "10.1.15.255" = Some true ∧ in_net "10.1.2.3/20" "10.1.16.0" = Some false ∧
  in_net "fe80::/10" "febf::1" = Some true ∧ in_net "fe80::/10" "10.0.0.1" = Some false ∧
  ParseIP "1:2:3:4:5:6:7::" = Some [0;1;0;2;0;3;0;4;0;5;0;6;0;7;0;0] ∧
  ParseIP "1:2::ffff:1.2.3.4" = Some [0;1;0;2;0;0;0;0;0;0;255;255;1;2;3;4] ∧
  ParseIP "1::2::3" = None ∧ ParseIP "1:2:3:4:5:6:7:8::" = None ∧ ParseIP "01.2.3.4" = None ∧
  ParseIP "fe80::1%eth0" = None ∧ ParseIP "256.1.1.1" = None ∧ ParseIP "" = None ∧
  ParseIP "::" = Some (replicate 16 0) ∧ ParseIP "12345::" = None ∧
  ParseCIDR_error "10.0.0.0/33" = Some "invalid CIDR address: 10.0.0.0/33".
Proof. by vm_compute. Qed.
