(* ===== verification/Proposal.v ===== *)
(** * Proposals, their values and decisions (internal/envelope/proposal.go)

    A [Proposal] carries its value as an [any]: a value with a dynamic type, or
    nil.  [any] lists the dynamic types that the envelope's type switches name;
    a value of any other type is [AOther], of which the code observes only the
    name of its type. *)

From S2P Require Import Prelude GoFloat GoStrings.

(** [ProposalKind] is a string type with four known values. *)
Abbreviation ProposalKind := string (only parsing).

Definition KindRateLimit : ProposalKind := "rate_limit".
Definition KindCircuitBreaker : ProposalKind := "circuit_breaker".
Definition KindRouteWeight : ProposalKind := "route_weight".
Definition KindCacheTTL : ProposalKind := "cache_ttl".

Inductive any :=
| ANil
| AInt (z : Z)
| AInt32 (z : Z)
| AInt64 (z : Z)
| AUint (z : Z)
| AUint32 (z : Z)
| AUint64 (z : Z)
| AFloat64 (x : float64)
| AFloat32 (x : float64)     (** the value, which every binary64 can hold *)
| ADuration (d : Duration)
| AOther (type_name : string).

(** The values the Go types can hold. *)
Definition any_ok (v : any) : Prop :=
  match v with
  | AInt z | AInt64 z | ADuration z => int64 z
  | AInt32 z => - 2 ^ 31 ≤ z < 2 ^ 31
  | AUint z | AUint64 z => 0 ≤ z < 2 ^ 64
  | AUint32 z => 0 ≤ z < 2 ^ 32
  | _ => True
  end.

(** The [%T] verb. *)
Definition type_name (v : any) : string :=
  match v with
  | ANil => "<nil>"
  | AInt _ => "int" | AInt32 _ => "int32" | AInt64 _ => "int64"
  | AUint _ => "uint" | AUint32 _ => "uint32" | AUint64 _ => "uint64"
  | AFloat64 _ => "float64" | AFloat32 _ => "float32"
  | ADuration _ => "time.Duration"
  | AOther n => n
  end.

Record Proposal := mkProposal {
  p_Kind : ProposalKind;
  p_Target : string;
  p_Value : any;
  p_Agent : string;
  p_Reason : string;
  p_SubmittedAt : Time
}.

#[export] Instance Proposal_eta : Eta Proposal := λ p,
  mkProposal (p_Kind p) (p_Target p) (p_Value p) (p_Agent p) (p_Reason p) (p_SubmittedAt p).

Inductive DecisionKind := DecisionReject | DecisionDefer | DecisionApply.

#[export] Instance DecisionKind_eq_dec : EqDecision DecisionKind.
Proof. solve_decision. Defined.

Definition decision_string (d : DecisionKind) : string :=
  match d with
  | DecisionReject => "reject" | DecisionDefer => "defer" | DecisionApply => "apply"
  end.

Record Decision := mkDecision {
  d_Kind : DecisionKind;
  d_Stage : string;
  d_Reason : string;
  d_RetryAfter : Duration;
  d_DecidedAt : Time
}.

(** ** Numeric readings of a value (internal/envelope/constraints.go) *)

Definition asInt64 `{GoPlatform} (v : any) : option Z :=
  match v with
  | AInt x => Some x
  | AInt32 x => Some x
  | AInt64 x => Some x
  | AUint x => Some (wrap64 x)
  | AUint32 x => Some x
  | AUint64 x => if decide (2 ^ 62 < x) then None else Some x
  | AFloat64 x =>
      if negb (feqb x (f64 (f64_to_int64 x))) then None else Some (f64_to_int64 x)
  | _ => None
  end.

Definition asFloat64 (v : any) : option float64 :=
  match v with
  | AFloat64 x => Some x
  | AFloat32 x => Some x
  | AInt x => Some (f64 x)
  | AInt32 x => Some (f64 x)
  | AInt64 x => Some (f64 x)
  | _ => None
  end.

Definition asDuration (v : any) : option Duration :=
  match v with
  | ADuration x => Some x
  | AInt64 x => Some x
  | AInt x => Some x
  | _ => None
  end.

(** The integer a value denotes, read without the machine's conversions. *)
Definition denotes (v : any) (n : Z) : Prop :=
  match v with
  | AInt x | AInt32 x | AInt64 x | AUint x | AUint32 x | AUint64 x => n = x
  | AFloat64 x => f64_trunc x = Some n ∧ feqb x (f64 n) = true
  | _ => False
  end.

Lemma asInt64_range `{GoPlatform} (v : any) n : any_ok v → asInt64 v = Some n → int64 n.
Proof.
  destruct v; simpl; intros Hok Hn; simplify_eq; try int_solve.
  - apply wrap64_range.
  - case_decide; simplify_eq. int_solve.
  - case_match; simplify_eq. apply f64_to_int64_range.
Qed.

Lemma asDuration_range (v : any) d : any_ok v → asDuration v = Some d → int64 d.
Proof. destruct v; simpl; intros; simplify_eq; done. Qed.
