(* ===== verification/Constraints.v ===== *)
(** * Stage 1 of the envelope: constraints (internal/envelope/constraints.go) *)

From S2P Require Import Prelude GoFloat GoStrings GoErrors Proposal.

Record ConstraintViolation := mkViolation {
  cv_Constraint : string;
  cv_Reason : string;
  cv_Detail : string
}.

#[export] Instance ConstraintViolation_eq_dec : EqDecision ConstraintViolation.
Proof. solve_decision. Defined.

(** The errors of this package: the custom type is a pointer to a violation,
    which may be nil inside a non-nil error. *)
Abbreviation cerror := (goerror (option ConstraintViolation)) (only parsing).

(** [v.Error()] *)
Definition violation_Error (v : option ConstraintViolation) : string :=
  match v with
  | None => "envelope: nil constraint violation"
  | Some v =>
      if bool_decide (cv_Detail v = "") then cv_Constraint v +:+ ": " +:+ cv_Reason v
      else cv_Constraint v +:+ ": " +:+ cv_Reason v +:+ " (" +:+ cv_Detail v +:+ ")"
  end.

Record Constraint := mkConstraint {
  c_Name : string;
  c_Evaluate : Proposal → option cerror
}.

(** [ConstraintRegistry]: the list of its constraints; a nil registry is
    [None]. *)
Record ConstraintRegistry := mkConstraints { constraints : list Constraint }.

Definition NewConstraintRegistry : ConstraintRegistry := mkConstraints [].

(** [r.Register(c)]; a nil constraint is ignored. *)
Definition constraints_Register (r : ConstraintRegistry) (c : option Constraint)
    : ConstraintRegistry :=
  match c with
  | None => r
  | Some c => mkConstraints (constraints r ++ [c])
  end.

Definition constraints_Names (r : option ConstraintRegistry) : list string :=
  match r with None => [] | Some r => c_Name <$> constraints r end.

(** The loop of [ConstraintRegistry.Evaluate]. *)
Fixpoint evaluate_constraints (cs : list Constraint) (p : Proposal) : option cerror :=
  match cs with
  | [] => None
  | c :: cs =>
      match c_Evaluate c p with
      | None => evaluate_constraints cs p
      | Some err =>
          match errors_As err with
          | Some v => Some (ErrCustom v)
          | None =>
              Some (ErrCustom (Some (mkViolation (c_Name c) "constraint_internal_error"
                      (err_Error violation_Error err))))
          end
      end
  end.

Definition constraints_Evaluate (r : option ConstraintRegistry) (p : Proposal)
    : option cerror :=
  match r with None => None | Some r => evaluate_constraints (constraints r) p end.

(** ** The baseline constraints *)

Section baseline.
Context `{GoPlatform, GoFmt}.

Definition violation (c r d : string) : option cerror :=
  Some (ErrCustom (Some (mkViolation c r d))).

Definition requireKnownKind (p : Proposal) : option cerror :=
  if decide (p_Kind p ∈ [KindRateLimit; KindCircuitBreaker; KindRouteWeight; KindCacheTTL])
  then None
  else violation "kind.known" "unknown_kind" ("kind=" +:+ fmt_quote (p_Kind p)).

Definition requireAgent (p : Proposal) : option cerror :=
  if bool_decide (TrimSpace (p_Agent p) = "") then
    violation "agent.required" "missing_agent" ""
  else None.

Definition rateLimitPositive (p : Proposal) : option cerror :=
  if decide (p_Kind p ≠ KindRateLimit) then None
  else
    match asInt64 (p_Value p) with
    | None => violation "rate_limit.positive" "value_type_mismatch"
                ("got " +:+ type_name (p_Value p) +:+ ", want integer")
    | Some n =>
        if decide (n ≤ 0) then
          violation "rate_limit.positive" "non_positive_value"
            ("got " +:+ Itoa n +:+ ", want > 0")
        else None
    end.

Definition routeWeightUnitInterval (p : Proposal) : option cerror :=
  if decide (p_Kind p ≠ KindRouteWeight) then None
  else
    match asFloat64 (p_Value p) with
    | None => violation "route_weight.unit_interval" "value_type_mismatch"
                ("got " +:+ type_name (p_Value p) +:+ ", want float in [0,1]")
    | Some f =>
        if fltb f (f64 0) || fltb (f64 1) f then
          violation "route_weight.unit_interval" "out_of_range"
            ("got " +:+ fmt_float f +:+ ", want value in [0,1]")
        else None
    end.

Definition cacheTTLNonNegative (p : Proposal) : option cerror :=
  if decide (p_Kind p ≠ KindCacheTTL) then None
  else
    match asDuration (p_Value p) with
    | None => violation "cache_ttl.non_negative" "value_type_mismatch"
                ("got " +:+ type_name (p_Value p) +:+ ", want time.Duration")
    | Some d =>
        if decide (d < 0) then
          violation "cache_ttl.non_negative" "negative_duration" ("got " +:+ duration_string d)
        else None
    end.

Definition DefaultConstraints : ConstraintRegistry :=
  foldl (λ r c, constraints_Register r (Some c)) NewConstraintRegistry
    [mkConstraint "kind.known" requireKnownKind;
     mkConstraint "agent.required" requireAgent;
     mkConstraint "rate_limit.positive" rateLimitPositive;
     mkConstraint "route_weight.unit_interval" routeWeightUnitInterval;
     mkConstraint "cache_ttl.non_negative" cacheTTLNonNegative].
End baseline.

(** ** Lemmas *)

(** A registry passes a proposal exactly when each of its constraints does. *)
Lemma evaluate_constraints_None cs p :
  evaluate_constraints cs p = None ↔ Forall (λ c, c_Evaluate c p = None) cs.
Proof.
  induction cs as [|c cs IH]; simpl; [by split |]. rewrite Forall_cons_iff, <-IH.
  destruct (c_Evaluate c p) as [err|]; [|tauto].
  destruct (errors_As err); by split; [|intros []].
Qed.

Lemma evaluate_constraints_app cs cs' p :
  evaluate_constraints (cs ++ cs') p =
    match evaluate_constraints cs p with
    | Some e => Some e
    | None => evaluate_constraints cs' p
    end.
Proof.
  induction cs as [|c cs IH]; simpl; [done |].
  destruct (c_Evaluate c p) as [err|]; [by destruct (errors_As err) | done].
Qed.

Lemma feqb_finite x s m e :
  feqb x (S754_finite s m e) = true → x = S754_finite s m e.
Proof.
  unfold feqb, SFeqb. destruct x as [[]|[]| |[] m' e'], s; simpl; try done;
    destruct (e' ?= e) eqn:He; try done; apply Z.compare_eq in He as ->;
    change (Pos.compare_cont Eq m' m) with (m' ?= m)%positive;
    destruct (m' ?= m)%positive eqn:Hm; try done; by apply Pos.compare_eq in Hm as ->.
Qed.

(** Reading a float as an integer yields the integer it denotes, or nothing. *)
Lemma asInt64_float x n :
  asInt64 (AFloat64 x) = Some n ↔ f64_trunc x = Some n ∧ int64 n ∧ feqb x (f64 n) = true.
Proof.
  unfold asInt64, f64_to_int64; simpl.
  destruct (f64_trunc x) as [z|] eqn:Ht; [case_decide as Hz|].
  - destruct (feqb x (f64 z)) eqn:He; simpl.
    + split; [by intros; simplify_eq | intros (? & ? & ?); by simplify_eq].
    + split; [done | intros (? & ? & ?); congruence].
  - destruct (feqb x (f64 int64_min)) eqn:He; simpl.
    + assert (x = f64 int64_min) as -> by (by apply feqb_finite).
      exfalso. apply Hz. vm_compute in Ht. injection Ht as <-. by vm_compute.
    + split; [done | intros (? & ? & ?); congruence].
  - destruct (feqb x (f64 int64_min)) eqn:He; simpl.
    + assert (x = f64 int64_min) as -> by (by apply feqb_finite). by vm_compute in Ht.
    + split; [done | by intros (? & ?)].
Qed.

(** The agent names that are not blank. *)
Fixpoint has_non_space (s : string) : bool :=
  match s with
  | EmptyString => false
  | String c r => negb (is_space c) || has_non_space r
  end.

Lemma trim_right_empty s : trim_right s = "" ↔ has_non_space s = false.
Proof.
  induction s as [|c s [IH1 IH2]]; simpl; [done |].
  destruct (trim_right s) as [|c' r]; destruct (has_non_space s), (is_space c);
    simpl in *; split; intros; try done;
    try by specialize (IH1 eq_refl). all: by specialize (IH2 eq_refl).
Qed.

Lemma trim_left_non_space s : has_non_space (trim_left s) = has_non_space s.
Proof. induction s as [|c s IH]; simpl; [done |]. by destruct (is_space c) eqn:E; simpl; rewrite ?E. Qed.

Lemma TrimSpace_empty s : TrimSpace s = "" ↔ has_non_space s = false.
Proof. unfold TrimSpace. by rewrite trim_right_empty, trim_left_non_space. Qed.

(** ** The baseline, stated without the code *)

(** What each kind requires of its value. *)
Definition rate_limit_ok (v : any) : Prop :=
  ∃ n, denotes v n ∧ 0 < n ∧
    match v with AUint64 _ => n ≤ 2 ^ 62 | _ => n ≤ int64_max end.

Definition route_weight_ok (v : any) : Prop :=
  ∃ f, asFloat64 v = Some f ∧ (f = f64_nan ∨ fleb (f64 0) f = true ∧ fleb f (f64 1) = true).

Definition cache_ttl_ok (v : any) : Prop := ∃ d, asDuration v = Some d ∧ 0 ≤ d.

Definition admissible (p : Proposal) : Prop :=
  p_Kind p ∈ [KindRateLimit; KindCircuitBreaker; KindRouteWeight; KindCacheTTL] ∧
  has_non_space (p_Agent p) = true ∧
  (p_Kind p = KindRateLimit → rate_limit_ok (p_Value p)) ∧
  (p_Kind p = KindRouteWeight → route_weight_ok (p_Value p)) ∧
  (p_Kind p = KindCacheTTL → cache_ttl_ok (p_Value p)).

Lemma wrap64_uint z : 0 ≤ z < 2 ^ 64 → wrap64 z = if decide (z < 2 ^ 63) then z else z - 2 ^ 64.
Proof.
  intros Hz. unfold wrap64. case_decide.
  - rewrite Z.mod_small; lia.
  - assert ((z + 2 ^ 63) mod 2 ^ 64 = z + 2 ^ 63 - 2 ^ 64) as ->; [|lia].
    symmetry. apply Zmod_unique with 1; lia.
Qed.

Lemma requireKnownKind_None `{GoFmt} p :
  requireKnownKind p = None ↔
    p_Kind p ∈ [KindRateLimit; KindCircuitBreaker; KindRouteWeight; KindCacheTTL].
Proof. unfold requireKnownKind. by case_decide. Qed.

Lemma requireAgent_None p : requireAgent p = None ↔ has_non_space (p_Agent p) = true.
Proof.
  unfold requireAgent. case_bool_decide as Ht; rewrite TrimSpace_empty in Ht;
    by destruct (has_non_space (p_Agent p)).
Qed.

Lemma rateLimitPositive_None `{GoFmt} p :
  any_ok (p_Value p) →
  rateLimitPositive p = None ↔ (p_Kind p = KindRateLimit → rate_limit_ok (p_Value p)).
Proof.
  intros Hv. unfold rateLimitPositive. case_decide as Hk; [tauto |].
  rewrite Hk.
  transitivity (∃ n, asInt64 (p_Value p) = Some n ∧ 0 < n).
  { destruct (asInt64 (p_Value p)) as [n|]; [case_decide|]; split; try done;
      try (intros (? & ? & ?); simplify_eq; lia); eauto with lia. }
  transitivity (rate_limit_ok (p_Value p)); [|tauto]. unfold rate_limit_ok.
  destruct (p_Value p) as [|z|z|z|z|z|z|x|x|d|]; simpl in Hv; unfold denotes;
    try (split; [by intros (? & ? & ?) | by intros (? & ? & ?)]);
    try (simpl; split; [intros (? & [= <-] & ?) | intros (? & -> & ? & ?)];
         exists z; split_and?; (done || int_solve)).
  - simpl. rewrite wrap64_uint by done. split; [intros (n & [= <-] & ?) | intros (? & -> & ? & ?)].
    + revert H1. case_decide; [|lia]. intros. exists z. int_solve.
    + exists z. by rewrite decide_True by int_solve.
  - simpl. split; [intros (n & Hn & ?) | intros (? & -> & ? & ?)];
      [case_decide; [done | injection Hn as <-; exists z; int_solve]|].
    exists z. by rewrite decide_False by lia.
  - split.
    + intros (n & (? & [? ?] & ?)%asInt64_float & ?). by exists n.
    + intros (n & [? ?] & ? & ?). exists n. split; [|done]. apply asInt64_float.
      split; [done |]. split; [int_solve | done].
Qed.

Lemma routeWeight_None `{GoFmt} p :
  routeWeightUnitInterval p = None ↔
    (p_Kind p = KindRouteWeight → route_weight_ok (p_Value p)).
Proof.
  unfold routeWeightUnitInterval. case_decide as Hk; [tauto |].
  rewrite Hk. unfold route_weight_ok.
  destruct (asFloat64 (p_Value p)) as [f|] eqn:Hf.
  2: { split; [done |]. intros Hw. by destruct (Hw eq_refl) as (? & ? & _). }
  destruct (decide (f = f64_nan)) as [->|Hn]; [by split; [intros _ _; exists f64_nan; auto|]|].
  rewrite !fltb_total by done. split.
  - intros Ho _. exists f. split; [done |]. right.
    by destruct (fleb (f64 0) f), (fleb f (f64 1)).
  - intros Hw. destruct (Hw eq_refl) as (f' & ? & [->|[H0 H1]]); simplify_eq.
    by rewrite H0, H1.
Qed.

Lemma cacheTTL_None p :
  cacheTTLNonNegative p = None ↔ (p_Kind p = KindCacheTTL → cache_ttl_ok (p_Value p)).
Proof.
  unfold cacheTTLNonNegative. case_decide as Hk; [tauto |].
  rewrite Hk. unfold cache_ttl_ok.
  destruct (asDuration (p_Value p)) as [d|]; [case_decide|]; split; try done.
  - intros Hw. destruct (Hw eq_refl) as (? & ? & ?). simplify_eq. lia.
  - intros _ _. exists d. split; [done | lia].
  - intros Hw. by destruct (Hw eq_refl) as (? & ? & _).
Qed.

(** ** Properties *)

(** The baseline registry (on amd64) passes exactly the proposals of a known
    kind, from a named agent, whose value suits the kind: a rate limit denotes a
    positive integer that fits, a cache lifetime is a non-negative duration, and
    a route weight lies in the unit interval -- or is a NaN, which no comparison
    of the code excludes. *)
Theorem DefaultConstraints_admissible `{GoFmt} (p : Proposal) :
  any_ok (p_Value p) →
  constraints_Evaluate (Some DefaultConstraints) p = None ↔ admissible p.
Proof.
  intros Hv. unfold constraints_Evaluate. rewrite evaluate_constraints_None. simpl.
  rewrite !Forall_cons_iff, Forall_nil. simpl.
  rewrite requireKnownKind_None, requireAgent_None, rateLimitPositive_None,
    routeWeight_None, cacheTTL_None by done. unfold admissible. tauto.
Qed.

(** The order of a registry matters only for the error: the same proposals
    pass under every order, and the error is that of the first constraint that
    does not pass, a violation of its own or, for an error that carries none,
    one in its name. *)
Theorem constraints_order (cs cs' : list Constraint) (p : Proposal) :
  cs ≡ₚ cs' →
  (evaluate_constraints cs p = None ↔ evaluate_constraints cs' p = None) ∧
  (∀ err, evaluate_constraints cs p = Some err →
     ∃ before c after e v, cs = before ++ c :: after ∧
       Forall (λ c, c_Evaluate c p = None) before ∧ c_Evaluate c p = Some e ∧
       err = ErrCustom v ∧
       (errors_As e = Some v ∨
        errors_As e = None ∧ ∃ d, v = Some (mkViolation (c_Name c) "constraint_internal_error" d))).
Proof.
  intros Hp. split; [by rewrite !evaluate_constraints_None, Hp |].
  clear Hp. induction cs as [|c cs IH]; intros err Herr; simpl in Herr; [done |].
  destruct (c_Evaluate c p) as [e|] eqn:He.
  - exists [], c, cs, e. destruct (errors_As e) as [v|]; simplify_eq;
      eexists; split_and!; eauto.
  - destruct (IH err Herr) as (l & c' & r & e & v & -> & ? & ?).
    exists (c :: l), c', r, e, v. split; [done |]. split; [by constructor | done].
Qed.

(** ** Witnesses *)

Definition plain_fmt : GoFmt := {|
  fmt_float _ := "0.5"; fmt_float4 _ := "0.5000"; fmt_quote s := s
|}.

Definition demo_proposal : Proposal :=
  mkProposal KindRateLimit "/api" (AFloat64 (f64 250)) "planner" "load" 0.

Lemma DefaultConstraints_admissible_witness :
  admissible demo_proposal ∧
  ¬ admissible (demo_proposal <| p_Value := AFloat64 (f64_lit 5 2) |>) ∧
  admissible (demo_proposal <| p_Kind := KindRouteWeight |> <| p_Value := AFloat64 f64_nan |>).
Proof.
  split; [|split].
  - by apply (DefaultConstraints_admissible (H := plain_fmt)); vm_compute.
  - intros Ha. by apply (DefaultConstraints_admissible (H := plain_fmt)) in Ha.
  - by apply (DefaultConstraints_admissible (H := plain_fmt)); vm_compute.
Defined.

Lemma constraints_order_witness :
  let c1 := mkConstraint "a" (λ _, Some (ErrNew "boom")) in
  let c2 := mkConstraint "b" (λ _, None) in
  evaluate_constraints [c2; c1] demo_proposal ≠ None ∧
  (evaluate_constraints [c2; c1] demo_proposal = None ↔
   evaluate_constraints [c1; c2] demo_proposal = None).
Proof.
  intros c1 c2. split; [done |].
  apply (constraints_order [c2; c1] [c1; c2] demo_proposal). apply perm_swap.
Defined.
