(* ===== verification/Bounds.v ===== *)
(** * Stage 2 of the envelope: bounded values (internal/envelope/bounds.go)

    [IntBound], [FloatBound] and [DurationBound] are one shape at three types,
    and so are the three checks: [check_bound] is that code with the conversion
    of the value, the type's [<] and its formatting as arguments. *)

From S2P Require Import Prelude GoFloat GoStrings Proposal.

Record BoundsViolation := mkBoundsViolation {
  bv_Kind : ProposalKind;
  bv_Target : string;
  bv_Reason : string;
  bv_Detail : string
}.

Definition bounds_violation_Error (v : option BoundsViolation) : string :=
  match v with
  | None => "envelope: nil bounds violation"
  | Some v =>
      if bool_decide (bv_Detail v = "") then
        "bounds(" +:+ bv_Kind v +:+ "): " +:+ bv_Reason v
      else
        "bounds(" +:+ bv_Kind v +:+ "): " +:+ bv_Reason v +:+ " (" +:+ bv_Detail v +:+ ")"
  end.

Record RangeBound (T : Type) := mkBound {
  b_min : T; b_max : T; b_hasMin : bool; b_hasMax : bool
}.
Arguments mkBound {T} _ _ _ _.
Arguments b_min {T} _.
Arguments b_max {T} _.
Arguments b_hasMin {T} _.
Arguments b_hasMax {T} _.

Abbreviation IntBound := (RangeBound Z) (only parsing).
Abbreviation FloatBound := (RangeBound float64) (only parsing).
Abbreviation DurationBound := (RangeBound Duration) (only parsing).

Definition IntRange (min max : Z) : IntBound := mkBound min max true true.
Definition IntAtLeast (min : Z) : IntBound := mkBound min 0 true false.
Definition IntAtMost (max : Z) : IntBound := mkBound 0 max false true.

Definition FloatRange (min max : float64) : FloatBound := mkBound min max true true.
Definition FloatAtLeast (min : float64) : FloatBound := mkBound min (f64 0) true false.
Definition FloatAtMost (max : float64) : FloatBound := mkBound (f64 0) max false true.

Definition DurationRange (min max : Duration) : DurationBound := mkBound min max true true.
Definition DurationAtLeast (min : Duration) : DurationBound := mkBound min 0 true false.
Definition DurationAtMost (max : Duration) : DurationBound := mkBound 0 max false true.

Record BoundsRegistry := mkBounds {
  br_rateLimit : option IntBound;
  br_routeWeight : option FloatBound;
  br_cacheTTL : option DurationBound
}.

#[export] Instance BoundsRegistry_eta : Eta BoundsRegistry := λ r,
  mkBounds (br_rateLimit r) (br_routeWeight r) (br_cacheTTL r).

Definition NewBoundsRegistry : BoundsRegistry := mkBounds None None None.

Definition bounds_SetRateLimit (r : BoundsRegistry) (b : IntBound) : BoundsRegistry :=
  r <| br_rateLimit := Some b |>.
Definition bounds_SetRouteWeight (r : BoundsRegistry) (b : FloatBound) : BoundsRegistry :=
  r <| br_routeWeight := Some b |>.
Definition bounds_SetCacheTTL (r : BoundsRegistry) (b : DurationBound) : BoundsRegistry :=
  r <| br_cacheTTL := Some b |>.

Section bounds.
Context `{GoPlatform, GoFmt}.

Definition check_bound {T : Type} (conv : any → option T) (ltb : T → T → bool)
    (show : T → string) (want : string) (p : Proposal) (b : RangeBound T)
    : option BoundsViolation :=
  match conv (p_Value p) with
  | None =>
      Some (mkBoundsViolation (p_Kind p) (p_Target p) "value_type_mismatch"
              ("got " +:+ type_name (p_Value p) +:+ ", want " +:+ want))
  | Some n =>
      if b_hasMin b && ltb n (b_min b) then
        Some (mkBoundsViolation (p_Kind p) (p_Target p) "below_minimum"
                ("got " +:+ show n +:+ ", min " +:+ show (b_min b)))
      else if b_hasMax b && ltb (b_max b) n then
        Some (mkBoundsViolation (p_Kind p) (p_Target p) "above_maximum"
                ("got " +:+ show n +:+ ", max " +:+ show (b_max b)))
      else None
  end.

Definition checkIntBound : Proposal → IntBound → option BoundsViolation :=
  check_bound asInt64 Z.ltb Itoa "integer".

Definition checkFloatBound : Proposal → FloatBound → option BoundsViolation :=
  check_bound asFloat64 fltb fmt_float "float".

Definition checkDurationBound : Proposal → DurationBound → option BoundsViolation :=
  check_bound asDuration Z.ltb duration_string "time.Duration".

Definition bounds_Evaluate (r : option BoundsRegistry) (p : Proposal)
    : option BoundsViolation :=
  match r with
  | None => None
  | Some r =>
      if decide (p_Kind p = KindRateLimit) then br_rateLimit r ≫= checkIntBound p
      else if decide (p_Kind p = KindRouteWeight) then br_routeWeight r ≫= checkFloatBound p
      else if decide (p_Kind p = KindCacheTTL) then br_cacheTTL r ≫= checkDurationBound p
      else None
  end.

(** ** The declarative reading of a bound *)

(** Why a value fails a bound; [None] when it does not. *)
Definition bound_verdict {T} (ltb : T → T → bool) (b : RangeBound T) (v : option T)
    : option string :=
  match v with
  | None => Some "value_type_mismatch"
  | Some n =>
      if b_hasMin b && ltb n (b_min b) then Some "below_minimum"
      else if b_hasMax b && ltb (b_max b) n then Some "above_maximum" else None
  end.

Lemma check_bound_verdict {T} (conv : any → option T) ltb show want p b :
  bv_Reason <$> check_bound conv ltb show want p b =
    bound_verdict ltb b (conv (p_Value p)).
Proof.
  unfold check_bound, bound_verdict. destruct (conv (p_Value p)); [|done].
  by repeat case_match.
Qed.

Lemma bound_verdict_None {T} ltb (b : RangeBound T) v :
  bound_verdict ltb b v = None ↔ ∃ n, v = Some n ∧ bound_verdict ltb b (Some n) = None.
Proof.
  destruct v; [|by split; [|intros (? & ? & _)]].
  split; [eauto | by intros (? & [= <-] & ?)].
Qed.

Lemma bound_verdict_codes {T} ltb (b : RangeBound T) v reason :
  bound_verdict ltb b v = Some reason →
  reason = "value_type_mismatch" ∨ reason = "below_minimum" ∨ reason = "above_maximum".
Proof. unfold bound_verdict. intros. split_cases; auto. Qed.

Lemma check_bound_blames {T} (conv : any → option T) ltb show want p b v :
  check_bound conv ltb show want p b = Some v →
  bv_Kind v = p_Kind p ∧ bv_Target v = p_Target p.
Proof. unfold check_bound. intros. by split_cases. Qed.

(** [within b n]: the inclusive interval, an absent end being unbounded. *)
Definition within (b : RangeBound Z) (n : Z) : Prop :=
  (b_hasMin b = true → b_min b ≤ n) ∧ (b_hasMax b = true → n ≤ b_max b).

Lemma within_verdict b n : bound_verdict Z.ltb b (Some n) = None ↔ within b n.
Proof.
  unfold bound_verdict, within. destruct (b_hasMin b), (b_hasMax b); simpl;
    repeat case_match; split; intros; try done; try lia; naive_solver lia.
Qed.

(** A float is within a bound when it compares neither below nor above it. *)
Definition fwithin (b : RangeBound float64) (f : float64) : Prop :=
  (b_hasMin b = true → fltb f (b_min b) = false) ∧
  (b_hasMax b = true → fltb (b_max b) f = false).

Lemma fwithin_verdict b f : bound_verdict fltb b (Some f) = None ↔ fwithin b f.
Proof.
  unfold bound_verdict, fwithin.
  destruct (b_hasMin b), (b_hasMax b), (fltb f (b_min b)), (fltb (b_max b) f); simpl; intuition done.
Qed.

(** Away from NaN that is the inclusive interval; a NaN is within every bound. *)
Lemma fwithin_interval b f :
  f ≠ f64_nan → b_min b ≠ f64_nan → b_max b ≠ f64_nan →
  fwithin b f ↔
    (b_hasMin b = true → fleb (b_min b) f = true) ∧
    (b_hasMax b = true → fleb f (b_max b) = true).
Proof.
  intros. unfold fwithin. rewrite !fltb_total by done.
  destruct (fleb (b_min b) f), (fleb f (b_max b)); simpl; intuition.
Qed.

Lemma fwithin_nan b : fwithin b f64_nan.
Proof. unfold fwithin. by rewrite fltb_nan_l, fltb_nan_r. Qed.

Lemma bind_None_all {A B} (o : option A) (f : A → option B) :
  o ≫= f = None ↔ ∀ b, o = Some b → f b = None.
Proof. destruct o; simpl; split; [by intros ? ? [= <-] | by auto | done | done]. Qed.

(** The verdict of the bound registered for a proposal's kind. *)
Definition kind_verdict (r : BoundsRegistry) (p : Proposal) : option string :=
  if decide (p_Kind p = KindRateLimit) then
    br_rateLimit r ≫= λ b, bound_verdict Z.ltb b (asInt64 (p_Value p))
  else if decide (p_Kind p = KindRouteWeight) then
    br_routeWeight r ≫= λ b, bound_verdict fltb b (asFloat64 (p_Value p))
  else if decide (p_Kind p = KindCacheTTL) then
    br_cacheTTL r ≫= λ b, bound_verdict Z.ltb b (asDuration (p_Value p))
  else None.

Lemma bounds_Evaluate_verdict r p :
  bv_Reason <$> bounds_Evaluate (Some r) p = kind_verdict r p.
Proof.
  unfold bounds_Evaluate, kind_verdict.
  repeat case_decide; try done;
    [destruct (br_rateLimit r)|destruct (br_routeWeight r)|destruct (br_cacheTTL r)];
    simpl; try done; apply check_bound_verdict.
Qed.

Lemma kind_verdict_None r p :
  kind_verdict r p = None ↔
    (∀ b, p_Kind p = KindRateLimit → br_rateLimit r = Some b →
       bound_verdict Z.ltb b (asInt64 (p_Value p)) = None) ∧
    (∀ b, p_Kind p = KindRouteWeight → br_routeWeight r = Some b →
       bound_verdict fltb b (asFloat64 (p_Value p)) = None) ∧
    (∀ b, p_Kind p = KindCacheTTL → br_cacheTTL r = Some b →
       bound_verdict Z.ltb b (asDuration (p_Value p)) = None).
Proof.
  unfold kind_verdict.
  destruct (decide (p_Kind p = KindRateLimit)) as [->|?];
    [|destruct (decide (p_Kind p = KindRouteWeight)) as [->|?];
      [|destruct (decide (p_Kind p = KindCacheTTL)) as [->|?]]];
    rewrite ?bind_None_all; (split; [intros Hb; split_and!; by auto | by intros (?&?&?); auto]).
Qed.

Lemma bounds_Evaluate_blames r p v :
  bounds_Evaluate (Some r) p = Some v → bv_Kind v = p_Kind p ∧ bv_Target v = p_Target p.
Proof.
  unfold bounds_Evaluate. intros Hv. repeat case_decide; try done;
    apply bind_Some in Hv as (b & _ & Hv); by eapply check_bound_blames in Hv as (? & ?).
Qed.

(** ** Properties *)

(** The bounds stage passes a proposal exactly when its kind has no bound, or
    its value converts to the kind's type and lies in the inclusive interval
    (which every NaN does).  A rejection names the proposal's own kind and
    target, and its reason is one of the three documented codes, a type
    mismatch exactly when the value does not convert. *)
Theorem bounds_Evaluate_spec (r : BoundsRegistry) (p : Proposal) :
  (bounds_Evaluate (Some r) p = None ↔
    (∀ b, p_Kind p = KindRateLimit → br_rateLimit r = Some b →
       ∃ n, asInt64 (p_Value p) = Some n ∧ within b n) ∧
    (∀ b, p_Kind p = KindRouteWeight → br_routeWeight r = Some b →
       ∃ f, asFloat64 (p_Value p) = Some f ∧ fwithin b f) ∧
    (∀ b, p_Kind p = KindCacheTTL → br_cacheTTL r = Some b →
       ∃ d, asDuration (p_Value p) = Some d ∧ within b d)) ∧
  (∀ v, bounds_Evaluate (Some r) p = Some v →
     bv_Kind v = p_Kind p ∧ bv_Target v = p_Target p ∧
     (bv_Reason v = "value_type_mismatch" ∨ bv_Reason v = "below_minimum" ∨
      bv_Reason v = "above_maximum")).
Proof.
  split.
  - rewrite <-(fmap_None bv_Reason), bounds_Evaluate_verdict, kind_verdict_None.
    setoid_rewrite bound_verdict_None.
    setoid_rewrite within_verdict. by setoid_rewrite fwithin_verdict.
  - intros v Hv. destruct (bounds_Evaluate_blames r p v Hv) as [Hk Ht].
    split; [done |]. split; [done |].
    assert (kind_verdict r p = Some (bv_Reason v)) as Hr
      by (by rewrite <-bounds_Evaluate_verdict, Hv).
    unfold kind_verdict in Hr.
    repeat case_decide; try done; apply bind_Some in Hr as (b & _ & Hr);
      by eapply bound_verdict_codes.
Qed.
End bounds.

(** ** Witness of a registry at work *)

Example bounds_example :
  let r := bounds_SetRateLimit NewBoundsRegistry (IntRange 10 100) in
  let p v := mkProposal KindRateLimit "/api" v "planner" "" 0 in
  kind_verdict r (p (AInt 100)) = None ∧
  kind_verdict r (p (AInt 101)) = Some "above_maximum" ∧
  kind_verdict r (p (AFloat64 (f64 9))) = Some "below_minimum" ∧
  kind_verdict r (p (AOther "string")) = Some "value_type_mismatch".
Proof. by vm_compute. Qed.
