(* ===== verification/Dampener.v ===== *)
(** * Stage 3 of the envelope: cooldown and hysteresis
    (internal/envelope/dampener.go)

    [IntDampener], [FloatDampener] and [DurationDampener] are one record at
    three types.  The registry's mutex makes each method one atomic step. *)

From S2P Require Import Prelude GoFloat GoStrings Proposal Constraints.

Record DampenerOutcome := mkDampenerOutcome {
  do_Kind : ProposalKind;
  do_Target : string;
  do_Reason : string;
  do_Detail : string;
  do_RetryAfter : Duration
}.

Definition dampener_outcome_Error (o : option DampenerOutcome) : string :=
  match o with
  | None => "envelope: nil dampener outcome"
  | Some o =>
      if bool_decide (do_Detail o = "") then
        "dampener(" +:+ do_Kind o +:+ "): " +:+ do_Reason o
      else
        "dampener(" +:+ do_Kind o +:+ "): " +:+ do_Reason o +:+ " (" +:+ do_Detail o +:+ ")"
  end.

Record DampenerPolicy (T : Type) := mkPolicy { dp_Cooldown : Duration; dp_Hysteresis : T }.
Arguments mkPolicy {T} _ _.
Arguments dp_Cooldown {T} _.
Arguments dp_Hysteresis {T} _.

Abbreviation IntDampener := (DampenerPolicy Z) (only parsing).
Abbreviation FloatDampener := (DampenerPolicy float64) (only parsing).
Abbreviation DurationDampener := (DampenerPolicy Duration) (only parsing).

(** [dampenerKey]: the kind and the target. *)
Abbreviation dampenerKey := (ProposalKind * string)%type (only parsing).

Record dampenerState := mkDampenerState { ds_Value : any; ds_AppliedAt : Time }.

Record DampenerRegistry := mkDampener {
  dr_rateLimit : option IntDampener;
  dr_routeWeight : option FloatDampener;
  dr_cacheTTL : option DurationDampener;
  dr_state : gmap dampenerKey dampenerState
}.

#[export] Instance DampenerRegistry_eta : Eta DampenerRegistry := λ r,
  mkDampener (dr_rateLimit r) (dr_routeWeight r) (dr_cacheTTL r) (dr_state r).

Definition NewDampenerRegistry : DampenerRegistry := mkDampener None None None ∅.

Definition dampener_SetRateLimit (r : DampenerRegistry) (d : IntDampener) :=
  r <| dr_rateLimit := Some d |>.
Definition dampener_SetRouteWeight (r : DampenerRegistry) (d : FloatDampener) :=
  r <| dr_routeWeight := Some d |>.
Definition dampener_SetCacheTTL (r : DampenerRegistry) (d : DurationDampener) :=
  r <| dr_cacheTTL := Some d |>.

(** [r.cooldownFor(kind)] *)
Definition cooldownFor (r : DampenerRegistry) (kind : ProposalKind) : option Duration :=
  if decide (kind = KindRateLimit) then dp_Cooldown <$> dr_rateLimit r
  else if decide (kind = KindRouteWeight) then dp_Cooldown <$> dr_routeWeight r
  else if decide (kind = KindCacheTTL) then dp_Cooldown <$> dr_cacheTTL r
  else None.

(** The distance the code computes between two integers: a wrapping
    subtraction, negated (again wrapping) when negative. *)
Definition int_diff (a b : Z) : Z :=
  let diff := wrap64 (a - b) in if decide (diff < 0) then wrap64 (- diff) else diff.

Definition float_diff (a b : float64) : float64 :=
  let diff := fsub a b in if fltb diff (f64 0) then SFopp diff else diff.

Section dampener.
Context `{GoPlatform, GoFmt}.

(** One branch of [checkHysteresis]: the same code at each kind's type. *)
Definition hysteresis_branch {T : Type} (d : option (DampenerPolicy T)) (positive : T → bool)
    (conv : any → option T) (dist : T → T → T) (ltb : T → T → bool) (show : T → string)
    (p : Proposal) (prev : dampenerState) : option DampenerOutcome :=
  match d with
  | None => None
  | Some d =>
      if negb (positive (dp_Hysteresis d)) then None
      else
        match conv (ds_Value prev), conv (p_Value p) with
        | Some a, Some b =>
            let diff := dist a b in
            if ltb diff (dp_Hysteresis d) then
              Some (mkDampenerOutcome (p_Kind p) (p_Target p) "below_hysteresis"
                ("|" +:+ show b +:+ " - " +:+ show a +:+ "| = " +:+ show diff +:+ " < "
                 +:+ show (dp_Hysteresis d)) 0)
            else None
        | _, _ => None
        end
  end.

Definition checkHysteresis (r : DampenerRegistry) (p : Proposal) (prev : dampenerState)
    : option DampenerOutcome :=
  if decide (p_Kind p = KindRateLimit) then
    hysteresis_branch (dr_rateLimit r) (Z.ltb 0) asInt64 int_diff Z.ltb Itoa p prev
  else if decide (p_Kind p = KindRouteWeight) then
    hysteresis_branch (dr_routeWeight r) (λ h, negb (fleb h (f64 0))) asFloat64 float_diff
      fltb fmt_float p prev
  else if decide (p_Kind p = KindCacheTTL) then
    hysteresis_branch (dr_cacheTTL r) (Z.ltb 0) asDuration int_diff Z.ltb duration_string p prev
  else None.

Definition dampener_Evaluate (r : option DampenerRegistry) (p : Proposal) (now : Time)
    : option DampenerOutcome :=
  match r with
  | None => None
  | Some r =>
      match cooldownFor r (p_Kind p), dr_state r !! (p_Kind p, p_Target p) with
      | Some cooldown, Some prev =>
          let elapsed := time_sub now (ds_AppliedAt prev) in
          if decide (0 < cooldown ∧ elapsed < cooldown) then
            let remaining := wrap64 (cooldown - elapsed) in
            Some (mkDampenerOutcome (p_Kind p) (p_Target p) "cooldown_active"
                    (duration_string remaining +:+ " remaining") remaining)
          else checkHysteresis r p prev
      | _, _ => None
      end
  end.

(** [r.RecordApplied(p, at)] *)
Definition RecordApplied (r : DampenerRegistry) (p : Proposal) (at_ : Time)
    : DampenerRegistry :=
  r <| dr_state := <[(p_Kind p, p_Target p) := mkDampenerState (p_Value p) at_]> (dr_state r) |>.

(** ** Lemmas *)

(** The machine's distance between two integers, compared with a positive band: a
    true distance of 2^63 becomes negative, a larger one its complement to 2^64. *)
Lemma int_diff_below a b h :
  int64 a → int64 b → 0 < h ≤ int64_max →
  int_diff a b < h ↔ Z.abs (a - b) < h ∨ Z.abs (a - b) = 2 ^ 63 ∨ 2 ^ 64 < Z.abs (a - b) + h.
Proof.
  intros Ha Hb Hh. unfold int_diff.
  assert (wrap64 (a - b) = a - b ∨ wrap64 (a - b) = a - b - 2 ^ 64 ∧ 2 ^ 63 ≤ a - b ∨
    wrap64 (a - b) = a - b + 2 ^ 64 ∧ a - b < - 2 ^ 63) as Hw.
  { unfold wrap64. destruct (decide (2 ^ 63 ≤ a - b)); [right; left | destruct (decide (a - b < - 2 ^ 63));
      [right; right | left; apply wrap64_id; int_solve]]; (split; [|lia]).
    - rewrite <-(Z.mod_unique (a - b + 2 ^ 63) (2 ^ 64) 1 (a - b + 2 ^ 63 - 2 ^ 64)); int_solve.
    - rewrite <-(Z.mod_unique (a - b + 2 ^ 63) (2 ^ 64) (-1) (a - b + 2 ^ 63 + 2 ^ 64)); int_solve. }
  pose proof (wrap64_range (a - b)) as Hr.
  assert (∀ d, int64 d → wrap64 (- d) = if decide (d = int64_min) then int64_min else - d) as Hneg.
  { intros d Hd. case_decide as Hm; [by subst | apply wrap64_id; int_solve]. }
  case_decide; [rewrite Hneg by done; case_decide |]; int_solve.
Qed.

(** The float's distance, compared, is the absolute difference. *)
Lemma float_diff_abs a b h : fltb (float_diff a b) h = fltb (SFabs (fsub a b)) h.
Proof.
  unfold float_diff. destruct (fsub a b) as [[]|[]| |[] m e]; try done; by destruct h as [[]|[]| |[]].
Qed.

Lemma RecordApplied_lookup r p t k :
  dr_state (RecordApplied r p t) !! k =
    if decide (k = (p_Kind p, p_Target p)) then Some (mkDampenerState (p_Value p) t)
    else dr_state r !! k.
Proof.
  simpl. case_decide as Hk; [subst; apply lookup_insert_eq | by apply lookup_insert_ne].
Qed.

Definition below_hysteresis (p : Proposal) (o : DampenerOutcome) : Prop :=
  do_Kind o = p_Kind p ∧ do_Target o = p_Target p ∧ do_Reason o = "below_hysteresis" ∧ do_RetryAfter o = 0.

Lemma hysteresis_branch_stops {T} (d : option (DampenerPolicy T)) positive conv dist ltb show p prev :
  let o := hysteresis_branch d positive conv dist ltb show p prev in
  (∀ x, o = Some x → below_hysteresis p x) ∧
  (is_Some o ↔ ∃ d' a b, d = Some d' ∧ conv (ds_Value prev) = Some a ∧ conv (p_Value p) = Some b ∧
     positive (dp_Hysteresis d') = true ∧ ltb (dist a b) (dp_Hysteresis d') = true).
Proof.
  intros o. unfold o, hysteresis_branch. destruct d as [d|]; [|split; [done |]; split;
    [by intros [] | by intros (? & ? & ? & ? & _)]].
  destruct (positive (dp_Hysteresis d)) eqn:Hp; cbn [negb]; [|split; [done |]; split;
    [by intros [] | intros (? & ? & ? & [= <-] & _ & _ & Hp' & _); congruence]].
  destruct (conv (ds_Value prev)) as [a|], (conv (p_Value p)) as [b|]; [|split; [done |]; split;
    [by intros [] | by intros (? & ? & ? & _ & ? & ? & _)]..].
  destruct (ltb (dist a b) (dp_Hysteresis d)) eqn:Hl; (split; [by intros x [= <-] |]); split;
    [by exists d, a, b | by eexists | by intros [] |].
  intros (? & ? & ? & [= <-] & [= <-] & [= <-] & _ & Hl'). congruence.
Qed.

Lemma checkHysteresis_below r p prev o : checkHysteresis r p prev = Some o → below_hysteresis p o.
Proof.
  unfold checkHysteresis. repeat case_decide; [..| done]; intros Ho;
    by eapply (proj1 (hysteresis_branch_stops _ _ _ _ _ _ p prev)).
Qed.

(** ** Properties *)

(** After a change to a (kind, target) is recorded as applied, every proposal
    for that pair is stopped until the kind's cooldown has elapsed, however
    large the change, with a wait that is exactly what is left of it; from then
    on only [checkHysteresis] can stop one; and proposals for
    other pairs are not affected.  Clocks are within the range of a Duration of
    each other. *)
Theorem cooldown_spec (r : DampenerRegistry) (applied p : Proposal) (t now : Time) (c : Duration) :
  let r' := RecordApplied r applied t in
  cooldownFor r (p_Kind p) = Some c → 0 < c ≤ int64_max → int64 (now - t) →
  int64 (c - (now - t)) →
  ((p_Kind p, p_Target p) = (p_Kind applied, p_Target applied) →
     (now < t + c → ∃ o, dampener_Evaluate (Some r') p now = Some o ∧
        do_Reason o = "cooldown_active" ∧ do_RetryAfter o = t + c - now) ∧
     (t + c ≤ now →
        dampener_Evaluate (Some r') p now =
          checkHysteresis r p (mkDampenerState (p_Value applied) t))) ∧
  ((p_Kind p, p_Target p) ≠ (p_Kind applied, p_Target applied) →
     dampener_Evaluate (Some r') p now = dampener_Evaluate (Some r) p now).
Proof.
  intros r' Hc Hpos Hr1 Hr2.
  assert (cooldownFor r' (p_Kind p) = Some c) as Hc' by done.
  split; intros Hk.
  - assert (dr_state r' !! (p_Kind p, p_Target p) = Some (mkDampenerState (p_Value applied) t))
      as Hl by (unfold r'; by rewrite RecordApplied_lookup, decide_True).
    unfold dampener_Evaluate. rewrite Hc', Hl. simpl. rewrite time_sub_exact by done.
    split; intros Hn.
    + rewrite decide_True by lia. eexists; split; [done |]. split; [done |]. simpl.
      rewrite wrap64_id by done. lia.
    + by rewrite decide_False by lia.
  - unfold dampener_Evaluate. rewrite Hc', Hc. unfold r'.
    by rewrite RecordApplied_lookup, decide_False.
Qed.

(** Whether a change from [old] to [new] is too small for its kind's band [h]: no
    band is 0 or less.  Of floats, the absolute value of the rounded difference is
    compared; of integers, the true distance -- or, as the code subtracts in 64
    bits, a distance of 2^63 or one that is nearer than [h] to 2^64. *)
Definition too_small_int (h a b : Z) : Prop :=
  0 < h ∧ (Z.abs (a - b) < h ∨ Z.abs (a - b) = 2 ^ 63 ∨ 2 ^ 64 < Z.abs (a - b) + h).

Definition too_small_float (h a b : float64) : Prop :=
  fltb (f64 0) h = true ∧ fltb (SFabs (fsub a b)) h = true.

Definition too_small (r : DampenerRegistry) (kind : ProposalKind) (old new : any) : Prop :=
  (kind = KindRateLimit ∧ ∃ d a b, dr_rateLimit r = Some d ∧ asInt64 old = Some a ∧
     asInt64 new = Some b ∧ too_small_int (dp_Hysteresis d) a b) ∨
  (kind = KindRouteWeight ∧ ∃ d a b, dr_routeWeight r = Some d ∧ asFloat64 old = Some a ∧
     asFloat64 new = Some b ∧ too_small_float (dp_Hysteresis d) a b) ∨
  (kind = KindCacheTTL ∧ ∃ d a b, dr_cacheTTL r = Some d ∧ asDuration old = Some a ∧
     asDuration new = Some b ∧ too_small_int (dp_Hysteresis d) a b).

(** The policies' integers are 64 bits wide. *)
Definition policies_ok (r : DampenerRegistry) : Prop :=
  (∀ d, dr_rateLimit r = Some d → int64 (dp_Hysteresis d)) ∧
  (∀ d, dr_cacheTTL r = Some d → int64 (dp_Hysteresis d)).

Lemma int_band_stops (d : option (DampenerPolicy Z)) (conv : any → option Z) show p prev :
  (∀ d', d = Some d' → int64 (dp_Hysteresis d')) →
  (∀ v n, any_ok v → conv v = Some n → int64 n) → any_ok (ds_Value prev) → any_ok (p_Value p) →
  let o := hysteresis_branch d (Z.ltb 0) conv int_diff Z.ltb show p prev in
  (∀ x, o = Some x → below_hysteresis p x) ∧
  (is_Some o ↔ ∃ d' a b, d = Some d' ∧ conv (ds_Value prev) = Some a ∧ conv (p_Value p) = Some b ∧
     too_small_int (dp_Hysteresis d') a b).
Proof.
  intros Hd Hconv Hold Hnew o.
  destruct (hysteresis_branch_stops d (Z.ltb 0) conv int_diff Z.ltb show p prev) as [Hx Hiff].
  split; [exact Hx |]. unfold o. rewrite Hiff. unfold too_small_int.
  split; intros (d' & a & b & -> & Ha & Hb & H1 & H2); exists d', a, b; (do 3 (split; [done |]));
    specialize (Hd d' eq_refl); pose proof (Hconv _ a Hold Ha); pose proof (Hconv _ b Hnew Hb).
  - apply Z.ltb_lt in H1, H2. split; [done |]. apply int_diff_below; [done..| int_solve | done].
  - rewrite !Z.ltb_lt. split; [done |]. apply int_diff_below; [done..| int_solve | done].
Qed.

Lemma float_band_stops h a b :
  negb (fleb h (f64 0)) = true ∧ fltb (float_diff a b) h = true ↔ too_small_float h a b.
Proof.
  unfold too_small_float. rewrite float_diff_abs. destruct (decide (h = f64_nan)) as [->|Hn].
  - rewrite !fltb_nan_r. naive_solver.
  - by rewrite <-fltb_total.
Qed.

(** C40. Past its target's cooldown a proposal is stopped exactly when its change is
    too small, and then with reason [below_hysteresis] and no time to wait: for
    every kind, value and policy.  For rate limits and cache lifetimes too small is
    nearer than the band, or a distance of 2^63 or more within the band of 2^64,
    as the subtraction wraps; no distance under 2^63 is misjudged. *)
Theorem hysteresis_exact (r : DampenerRegistry) (p : Proposal) (prev : dampenerState) (now : Time)
    (c : Duration) :
  policies_ok r → any_ok (ds_Value prev) → any_ok (p_Value p) →
  cooldownFor r (p_Kind p) = Some c → dr_state r !! (p_Kind p, p_Target p) = Some prev →
  c ≤ 0 ∨ c ≤ time_sub now (ds_AppliedAt prev) →
  let o := dampener_Evaluate (Some r) p now in
  (∀ x, o = Some x → below_hysteresis p x) ∧
  (is_Some o ↔ too_small r (p_Kind p) (ds_Value prev) (p_Value p)) ∧
  (∀ h a b, Z.abs (a - b) < 2 ^ 63 → int64 h → too_small_int h a b ↔ 0 < h ∧ Z.abs (a - b) < h).
Proof.
  intros [Hd1 Hd2] Hold Hnew Hc Hprev Hover o.
  assert (o = checkHysteresis r p prev) as -> by (unfold o, dampener_Evaluate; rewrite Hc, Hprev, decide_False; [done | lia]).
  assert (∀ h a b, Z.abs (a - b) < 2 ^ 63 → int64 h → too_small_int h a b ↔ 0 < h ∧ Z.abs (a - b) < h)
    as Hex by (unfold too_small_int; intros; int_solve).
  enough ((∀ x, checkHysteresis r p prev = Some x → below_hysteresis p x) ∧
    (is_Some (checkHysteresis r p prev) ↔ too_small r (p_Kind p) (ds_Value prev) (p_Value p))) as []
    by done.
  clear Hex. unfold checkHysteresis, too_small.
  destruct (decide (p_Kind p = KindRateLimit)) as [Hk|H1].
  { destruct (int_band_stops (dr_rateLimit r) asInt64 Itoa p prev Hd1 asInt64_range Hold Hnew) as [Hx Hi].
    split; [exact Hx |]. rewrite Hi, Hk. split; [by intros ?; left|]. by intros [[_ ?]|[[]|[]]]. }
  destruct (decide (p_Kind p = KindRouteWeight)) as [Hk|H2].
  { destruct (hysteresis_branch_stops (dr_routeWeight r) (λ h, negb (fleb h (f64 0))) asFloat64 float_diff
      fltb fmt_float p prev) as [Hx Hi].
    split; [exact Hx |]. rewrite Hi, Hk. setoid_rewrite float_band_stops.
    split; [by intros ?; right; left|]. by intros [[]|[[_ ?]|[]]]. }
  destruct (decide (p_Kind p = KindCacheTTL)) as [Hk|H3].
  { destruct (int_band_stops (dr_cacheTTL r) asDuration duration_string p prev Hd2 asDuration_range Hold Hnew)
      as [Hx Hi].
    split; [exact Hx |]. rewrite Hi, Hk. split; [by intros ?; right; right|]. by intros [[]|[[]|[_ ?]]]. }
  split; [done |]. split; [by intros [] | by intros [[]|[[]|[]]]].
Qed.
End dampener.

(** ** Witnesses *)

#[local] Existing Instance plain_fmt.

Definition demo_dampener : DampenerRegistry :=
  dampener_SetRateLimit NewDampenerRegistry (mkPolicy (30 * Second) 10).

Lemma cooldown_spec_witness :
  let r' := RecordApplied demo_dampener demo_proposal (100 * Second) in
  let p := demo_proposal <| p_Value := AInt 400 |> in
  ∃ o, dampener_Evaluate (Some r') p (110 * Second) = Some o ∧
    do_Reason o = "cooldown_active" ∧ do_RetryAfter o = 20 * Second.
Proof.
  intros r' p.
  destruct (cooldown_spec demo_dampener demo_proposal p (100 * Second) (110 * Second) (30 * Second))
    as [Hsame _]; [done | by vm_compute..|].
  by apply Hsame.
Defined.

(** The demonstration's policy, with a cache lifetime's. *)
Definition banded : DampenerRegistry :=
  dampener_SetCacheTTL demo_dampener (mkPolicy 0 (5 * Second)).

Definition evaluated (old new : any) (kind : ProposalKind) : option DampenerOutcome :=
  let p := mkProposal kind (p_Target demo_proposal) new "" "" 0 in
  dampener_Evaluate (Some (RecordApplied banded (p <| p_Value := old |>) 0)) p (31 * Second).

(** Ten is not less than the band of ten; nine is; and the largest change is taken
    for one of 1. *)
Lemma hysteresis_exact_witness :
  ¬ is_Some (evaluated (AInt 100) (AInt 110) KindRateLimit) ∧
  is_Some (evaluated (AInt 100) (AInt 109) KindRateLimit) ∧
  is_Some (evaluated (AInt int64_max) (AInt int64_min) KindRateLimit) ∧
  is_Some (evaluated (ADuration (7 * Second)) (ADuration (3 * Second)) KindCacheTTL).
Proof.
  assert (∀ kind old new, any_ok old → any_ok new → is_Some (cooldownFor banded kind) →
    is_Some (evaluated old new kind) ↔ too_small banded kind old new) as H.
  { intros kind old new Hold Hnew [c Hc].
    destruct (hysteresis_exact (RecordApplied banded (mkProposal kind (p_Target demo_proposal) old "" "" 0) 0)
      (mkProposal kind (p_Target demo_proposal) new "" "" 0) (mkDampenerState old 0) (31 * Second) c)
      as (_ & Hi & _); [by split; intros ? [= <-] | done | done | done | by apply lookup_insert_eq | |exact Hi].
    unfold cooldownFor in Hc. repeat case_decide; simplify_eq/=; [by right | by left]. }
  rewrite !H by (done || by eexists). unfold too_small, too_small_int. split_and!.
  - intros [[_ (d & a & b & [= <-] & [= <-] & [= <-] & _ & Hd)]|[[[=] _]|[[=] _]]]. simpl in Hd. lia.
  - left. split; [done |]. eexists _, _, _. by split_and!; [..| left].
  - left. split; [done |]. eexists _, _, _. split_and!; [done.. |]. by right; right.
  - right; right. split; [done |]. eexists _, _, _. by split_and!; [..| left].
Defined.
