(* ===== verification/Shadow.v ===== *)
(** * Stage 4 of the envelope: the shadow simulator (internal/envelope/shadow.go)

    The simulator and the scorer are interfaces the operator supplies.  A
    simulator is a function of the context it is given and of the proposal (one
    [Evaluate] calls it once); a panic inside it is not modelled. *)

From S2P Require Import Prelude GoFloat GoStrings GoErrors Proposal.

Record LatencyStats := mkLatency { P50 : Duration; P95 : Duration; P99 : Duration }.

#[export] Instance LatencyStats_eq_dec : EqDecision LatencyStats.
Proof. solve_decision. Defined.

Record ShadowBaseline := mkBaseline { bl_Latency : LatencyStats; bl_ErrorRate : float64 }.

(** Go's [==] on baselines: field by field, floats by [==]. *)
Definition baseline_eqb (a b : ShadowBaseline) : bool :=
  bool_decide (bl_Latency a = bl_Latency b) && feqb (bl_ErrorRate a) (bl_ErrorRate b).

Definition zero_baseline : ShadowBaseline := mkBaseline (mkLatency 0 0 0) (f64 0).

Record ShadowVerdict := mkVerdict {
  SamplesReplayed : Z;
  v_Score : float64;
  v_Regressions : list string;
  v_Latency : LatencyStats;
  v_ErrorRate : float64;
  v_Baseline : ShadowBaseline;
  EvaluatedAt : Time
}.

Record ShadowOutcome := mkShadowOutcome {
  so_Kind : ProposalKind;
  so_Target : string;
  so_Reason : string;
  so_Detail : string;
  so_Verdict : option ShadowVerdict;
  so_RetryAfter : Duration
}.

Definition shadow_outcome_Error (o : option ShadowOutcome) : string :=
  match o with
  | None => "envelope: nil shadow outcome"
  | Some o =>
      if bool_decide (so_Detail o = "") then
        "shadow(" +:+ so_Kind o +:+ "): " +:+ so_Reason o
      else
        "shadow(" +:+ so_Kind o +:+ "): " +:+ so_Reason o +:+ " (" +:+ so_Detail o +:+ ")"
  end.

(** The context a simulator sees: the caller's error, and the timeout
    [context.WithTimeout] adds to it, if any. *)
Record SimContext := mkSimContext {
  sc_parent : option ctx_err;
  sc_timeout : option Duration
}.

(** The custom error types of a simulator are opaque: only their text matters. *)
Abbreviation serror := (goerror string) (only parsing).

Definition Simulator : Type :=
  SimContext → Proposal → option ShadowVerdict * option serror.

(** [SimulatorFunc(f).Simulate] *)
Definition SimulatorFunc (f : option Simulator) : Simulator := λ ctx p,
  match f with None => (None, None) | Some f => f ctx p end.

Definition zero_verdict : ShadowVerdict :=
  mkVerdict 0 (f64 0) [] (mkLatency 0 0 0) (f64 0) zero_baseline 0.

Definition NoopSimulator : Simulator := λ _ _, (Some zero_verdict, None).

Definition SLOScorer : Type := option ShadowVerdict → list string.

(** [SLOScorerFunc(f).Score] *)
Definition SLOScorerFunc (f : option SLOScorer) : SLOScorer := λ v,
  match f with None => [] | Some f => f v end.

Section scorer.
Context `{GoFmt}.

Definition DefaultSLOScorer (maxLatencyP99Increase : Duration)
    (maxErrorRateIncrease : float64) : SLOScorer :=
  SLOScorerFunc (Some (λ v,
    match v with
    | None => []
    | Some v =>
        let baseline := v_Baseline v in
        let hasBaseline := negb (baseline_eqb baseline zero_baseline) in
        (if hasBaseline && bool_decide (0 < maxLatencyP99Increase) then
           let delta := wrap64 (P99 (v_Latency v) - P99 (bl_Latency baseline)) in
           if decide (maxLatencyP99Increase < delta) then
             ["latency_p99(+" +:+ duration_string delta +:+ ")"]
           else []
         else []) ++
        (if hasBaseline && fltb (f64 0) maxErrorRateIncrease then
           let delta := fsub (v_ErrorRate v) (bl_ErrorRate baseline) in
           if fltb maxErrorRateIncrease delta then
             ["error_rate(+" +:+ fmt_float4 delta +:+ ")"]
           else []
         else [])
    end)).
End scorer.

Record ShadowRegistry := mkShadow {
  sr_sim : option Simulator;
  sr_scorer : option SLOScorer;
  sr_timeout : Duration;
  sr_enabled : gmap ProposalKind bool
}.

#[export] Instance ShadowRegistry_eta : Eta ShadowRegistry := λ r,
  mkShadow (sr_sim r) (sr_scorer r) (sr_timeout r) (sr_enabled r).

Definition NewShadowRegistry (sim : option Simulator) (timeout : Duration) : ShadowRegistry :=
  mkShadow (Some (default NoopSimulator sim)) None timeout ∅.

Definition SetScorer (r : ShadowRegistry) (s : option SLOScorer) : ShadowRegistry :=
  r <| sr_scorer := s |>.

Definition shadow_Enable (r : ShadowRegistry) (kind : ProposalKind) : ShadowRegistry :=
  r <| sr_enabled := <[kind := true]> (sr_enabled r) |>.

Definition shadow_Disable (r : ShadowRegistry) (kind : ProposalKind) : ShadowRegistry :=
  r <| sr_enabled := delete kind (sr_enabled r) |>.

(** [r.Enabled(kind)]: a missing key reads as false. *)
Definition shadow_Enabled (r : option ShadowRegistry) (kind : ProposalKind) : bool :=
  match r with None => false | Some r => default false (sr_enabled r !! kind) end.

Definition shadow_Timeout (r : option ShadowRegistry) : Duration :=
  match r with None => 0 | Some r => sr_timeout r end.

(** [joinRegressions(rs)]: a left fold over the names. *)
Definition joinRegressions (rs : list string) : string :=
  match rs with
  | [] => ""
  | r :: rs => foldl (λ out r, out +:+ ", " +:+ r) r rs
  end.

Definition shadow_Evaluate (r : option ShadowRegistry) (ctx : option ctx_err) (p : Proposal)
    : option ShadowOutcome :=
  match r with
  | None => None
  | Some r =>
      match shadow_Enabled (Some r) (p_Kind p), sr_sim r with
      | true, Some sim =>
          let simCtx := mkSimContext ctx
            (if decide (0 < sr_timeout r) then Some (sr_timeout r) else None) in
          match sim simCtx p with
          | (_, Some err) =>
              if errors_Is is_ctx_error err then
                Some (mkShadowOutcome (p_Kind p) (p_Target p) "timeout"
                        ("simulator did not return within " +:+ duration_string (sr_timeout r))
                        None (sr_timeout r))
              else
                Some (mkShadowOutcome (p_Kind p) (p_Target p) "simulator_internal_error"
                        (err_Error id err) None 0)
          | (None, None) => None
          | (Some verdict, None) =>
              let regressions := v_Regressions verdict ++
                match sr_scorer r with Some s => s (Some verdict) | None => [] end in
              if is_nil_list regressions then None
              else Some (mkShadowOutcome (p_Kind p) (p_Target p) "regression"
                           (joinRegressions regressions) (Some verdict) 0)
          end
      | _, _ => None
      end
  end.

(** ** Lemmas *)

Lemma joinRegressions_Join rs : joinRegressions rs = Join rs ", ".
Proof.
  destruct rs as [|r rs]; [done |]. simpl. revert r.
  induction rs as [|r' rs IH]; intros r; simpl; [done |].
  rewrite IH. destruct rs; [by rewrite <-?string_app_assoc |].
  by rewrite <-!string_app_assoc.
Qed.

(** The regressions the stage sees for a verdict: the simulator's own and the
    scorer's. *)
Definition regressions_of (r : ShadowRegistry) (v : ShadowVerdict) : list string :=
  v_Regressions v ++ match sr_scorer r with Some s => s (Some v) | None => [] end.

(** The simulator run for a proposal: none if the kind is not enabled. *)
Definition simulation (r : ShadowRegistry) (ctx : option ctx_err) (p : Proposal)
    : option (option ShadowVerdict * option serror) :=
  if shadow_Enabled (Some r) (p_Kind p) then
    (λ sim : Simulator, sim (mkSimContext ctx
       (if decide (0 < sr_timeout r) then Some (sr_timeout r) else None)) p) <$> sr_sim r
  else None.

Lemma shadow_Evaluate_simulation r ctx p :
  shadow_Evaluate (Some r) ctx p =
    match simulation r ctx p with
    | None => None
    | Some (v, e) =>
        match e, v with
        | Some err, _ =>
            Some (if errors_Is is_ctx_error err then
                    mkShadowOutcome (p_Kind p) (p_Target p) "timeout"
                      ("simulator did not return within " +:+ duration_string (sr_timeout r))
                      None (sr_timeout r)
                  else mkShadowOutcome (p_Kind p) (p_Target p) "simulator_internal_error"
                         (err_Error id err) None 0)
        | None, None => None
        | None, Some v =>
            if is_nil_list (regressions_of r v) then None
            else Some (mkShadowOutcome (p_Kind p) (p_Target p) "regression"
                         (joinRegressions (regressions_of r v)) (Some v) 0)
        end
    end.
Proof.
  unfold shadow_Evaluate, simulation. destruct (shadow_Enabled (Some r) (p_Kind p)); [|done].
  destruct (sr_sim r) as [sim|]; [|done]. simpl.
  destruct (sim _ p) as [[v|] [err|]]; [by destruct (errors_Is _ _) | done
    | by destruct (errors_Is _ _) | done].
Qed.

Lemma is_nil_list_true {A} (l : list A) : is_nil_list l = true ↔ l = [].
Proof. by destruct l. Qed.

(** The measurements of a verdict that exceed its baseline by more than allowed. *)
Definition latency_regressed (max : Duration) (v : ShadowVerdict) : Prop :=
  0 < max < P99 (v_Latency v) - P99 (bl_Latency (v_Baseline v)).

Definition error_rate_regressed (max : float64) (v : ShadowVerdict) : Prop :=
  fltb (f64 0) max = true ∧ fltb max (fsub (v_ErrorRate v) (bl_ErrorRate (v_Baseline v))) = true.

(** ** Properties *)

(** The shadow stage fails safe: it passes a proposal only when the kind is
    not enabled or the simulator ran without error and neither it nor the
    scorer reports a regression.  A simulator error always stops the proposal,
    as a timeout (to be retried after the configured timeout) exactly when it is
    a context error.  The verdict's score is never read. *)
Theorem shadow_fails_safe (r : ShadowRegistry) (ctx : option ctx_err) (p : Proposal) :
  (shadow_Evaluate (Some r) ctx p = None ↔
     simulation r ctx p = None ∨
     ∃ v, simulation r ctx p = Some (v, None) ∧ ∀ v', v = Some v' → regressions_of r v' = []) ∧
  (∀ o, shadow_Evaluate (Some r) ctx p = Some o →
     (so_Reason o = "timeout" ↔
        ∃ v err, simulation r ctx p = Some (v, Some err) ∧ errors_Is is_ctx_error err = true) ∧
     so_RetryAfter o = (if bool_decide (so_Reason o = "timeout") then sr_timeout r else 0)).
Proof.
  rewrite shadow_Evaluate_simulation.
  destruct (simulation r ctx p) as [[v [err|]]|]; simpl.
  - split; [split; [done | intros [|(? & ? & _)]; done]|]. intros o [= <-].
    destruct (errors_Is is_ctx_error err) eqn:He; simpl; (split; [|done]); split; try done.
    + by exists v, err.
    + intros (? & ? & [= <- <-] & ?). congruence.
  - destruct v as [v|]; simpl.
    + destruct (is_nil_list (regressions_of r v)) eqn:Hn.
      * apply is_nil_list_true in Hn. split; [|done]. split; [|done].
        intros _. right. exists (Some v). split; [done |]. by intros ? [= <-].
      * split; [split; [done |]|].
        -- intros [|(v' & [= <-] & Hv)]; [done |]. by rewrite (Hv v eq_refl) in Hn.
        -- intros o [= <-]; simpl. split; [|done]. split; [done | by intros (? & ? & ? & ?)].
    + split; [|done]. split; [|done]. intros _. right. by exists None.
  - split; [|done]. split; [by left | done].
Qed.

(** The default scorer reports nothing without a baseline; with one, it
    reports the P99 latency or the error rate exactly when it exceeds its
    baseline by more than the enabled threshold, latency first.  Latencies are
    within the range of a Duration of each other. *)
Theorem DefaultSLOScorer_spec `{GoFmt} (max_lat : Duration) (max_err : float64)
    (v : ShadowVerdict) :
  int64 (P99 (v_Latency v) - P99 (bl_Latency (v_Baseline v))) →
  let regressions := DefaultSLOScorer max_lat max_err (Some v) in
  (baseline_eqb (v_Baseline v) zero_baseline = true → regressions = []) ∧
  (baseline_eqb (v_Baseline v) zero_baseline = false →
     ∃ lat err, regressions = lat ++ err ∧
       (lat ≠ [] ↔ latency_regressed max_lat v) ∧ (length lat ≤ 1)%nat ∧
       (err ≠ [] ↔ error_rate_regressed max_err v) ∧ (length err ≤ 1)%nat).
Proof.
  intros Hr. cbn -[wrap64 baseline_eqb fltb fsub f64]. rewrite wrap64_id by done.
  destruct (baseline_eqb _ _); cbn [negb andb app]; (split; [done |]); [done |]. intros _.
  eexists _, _. split; [done |]. split_and!.
  - unfold latency_regressed. case_bool_decide; [case_decide|]; split; (done || lia).
  - case_bool_decide; [case_decide|]; simpl; lia.
  - unfold error_rate_regressed. destruct (fltb (f64 0) max_err), (fltb max_err _);
      simpl; intuition congruence.
  - destruct (fltb (f64 0) max_err); [case_match|]; simpl; lia.
Qed.

(** ** Witnesses *)

Definition demo_verdict : ShadowVerdict :=
  mkVerdict 5 (f64 0) [] (mkLatency 1 2 (30 * Millisecond)) (f64 0)
    (mkBaseline (mkLatency 1 2 (10 * Millisecond)) (f64 0)) 0.

Definition demo_sim : Simulator := λ _ _, (Some demo_verdict, None).

Example shadow_example `{GoFmt} :
  let p := mkProposal KindRateLimit "/api" (AInt 7) "planner" "" 0 in
  let r := shadow_Enable (NewShadowRegistry (Some demo_sim) Second) KindRateLimit in
  shadow_Evaluate (Some r) None p = None ∧
  so_Detail <$> shadow_Evaluate
    (Some (SetScorer r (Some (DefaultSLOScorer (5 * Millisecond) (f64 0))))) None p =
    Some "latency_p99(+20ms)".
Proof. by vm_compute. Qed.

Lemma DefaultSLOScorer_spec_witness :
  let fmt : GoFmt := {| fmt_float _ := "0"; fmt_float4 _ := "0.0000"; fmt_quote s := s |} in
  ∃ lat err, DefaultSLOScorer (5 * Millisecond) (f64 0) (Some demo_verdict) = lat ++ err ∧
       (lat ≠ [] ↔ latency_regressed (5 * Millisecond) demo_verdict) ∧ (length lat ≤ 1)%nat ∧
       (err ≠ [] ↔ error_rate_regressed (f64 0) demo_verdict) ∧ (length err ≤ 1)%nat.
Proof.
  intros fmt. apply (DefaultSLOScorer_spec (5 * Millisecond) (f64 0) demo_verdict); by vm_compute.
Defined.
