(* ===== verification/Envelope.v ===== *)
(** * The envelope (internal/envelope/envelope.go)

    [Submit] runs its stages in a fixed order against one reading [now] of the
    clock.  It reads the registries and changes none of them. *)

From S2P Require Import Prelude GoFloat GoStrings GoErrors Proposal.
From S2P Require Import Constraints Bounds Dampener Shadow.

Definition ErrFallback : string :=
  "envelope: autonomous-safe fallback; no agent pipeline configured".

Record Envelope := mkEnvelope {
  e_constraints : option ConstraintRegistry;
  e_bounds : option BoundsRegistry;
  e_dampener : option DampenerRegistry;
  e_shadow : option ShadowRegistry
}.

#[export] Instance Envelope_eta : Eta Envelope := λ e,
  mkEnvelope (e_constraints e) (e_bounds e) (e_dampener e) (e_shadow e).

Definition EnvelopeOption : Type := Envelope → Envelope.

Definition WithConstraints (r : option ConstraintRegistry) : EnvelopeOption :=
  λ e, e <| e_constraints := r |>.
Definition WithBounds (r : option BoundsRegistry) : EnvelopeOption :=
  λ e, e <| e_bounds := r |>.
Definition WithDampener (r : option DampenerRegistry) : EnvelopeOption :=
  λ e, e <| e_dampener := r |>.
Definition WithShadow (r : option ShadowRegistry) : EnvelopeOption :=
  λ e, e <| e_shadow := r |>.

(** [New(opts...)]: nil options are skipped. *)
Definition New (opts : list (option EnvelopeOption)) : Envelope :=
  foldl (λ e opt, match opt with Some f => f e | None => e end)
    (mkEnvelope None None None None) opts.

Definition NewAutonomousSafe : Envelope := New [].

Section envelope.
Context `{GoPlatform, GoFmt}.

(** [e.Submit(ctx, p)] for a possibly nil envelope; [ctx] is [ctx.Err()]. *)
Definition Submit (e : option Envelope) (ctx : option ctx_err) (p : Proposal) (now : Time)
    : Decision :=
  match ctx with
  | Some err => mkDecision DecisionDefer "intake" (ctx_err_Error err) 0 now
  | None =>
      match constraints_Evaluate (e ≫= e_constraints) p with
      | Some err =>
          mkDecision DecisionReject "constraints" (err_Error violation_Error err) 0 now
      | None =>
          match bounds_Evaluate (e ≫= e_bounds) p with
          | Some v =>
              mkDecision DecisionReject "bounds" (bounds_violation_Error (Some v)) 0 now
          | None =>
              match dampener_Evaluate (e ≫= e_dampener) p now with
              | Some o =>
                  mkDecision
                    (if bool_decide (do_Reason o = "cooldown_active") then DecisionDefer
                     else DecisionReject)
                    "dampener" (dampener_outcome_Error (Some o)) (do_RetryAfter o) now
              | None =>
                  match shadow_Evaluate (e ≫= e_shadow) ctx p with
                  | Some o =>
                      mkDecision
                        (if bool_decide (so_Reason o = "timeout") then DecisionDefer
                         else DecisionReject)
                        "shadow" (shadow_outcome_Error (Some o)) (so_RetryAfter o) now
                  | None => mkDecision DecisionReject "fallback" ErrFallback 0 now
                  end
              end
          end
      end
  end.

(** ** The specification: a list of stages

    Each stage either has no opinion or stops the proposal; the first that stops
    it decides, and the fallback stops what is left. *)

Definition stage : Type := Proposal → option ctx_err → Time → option Decision.

Definition intake_stage : stage := λ p ctx now,
  (λ err, mkDecision DecisionDefer "intake" (ctx_err_Error err) 0 now) <$> ctx.

Definition constraints_stage (e : option Envelope) : stage := λ p ctx now,
  (λ err, mkDecision DecisionReject "constraints" (err_Error violation_Error err) 0 now) <$>
  (constraints_Evaluate (e ≫= e_constraints) p).

Definition bounds_stage (e : option Envelope) : stage := λ p ctx now,
  (λ v, mkDecision DecisionReject "bounds" (bounds_violation_Error (Some v)) 0 now) <$>
  (bounds_Evaluate (e ≫= e_bounds) p).

Definition dampener_stage (e : option Envelope) : stage := λ p ctx now,
  (λ o, mkDecision (if bool_decide (do_Reason o = "cooldown_active") then DecisionDefer
                    else DecisionReject)
          "dampener" (dampener_outcome_Error (Some o)) (do_RetryAfter o) now) <$>
  (dampener_Evaluate (e ≫= e_dampener) p now).

Definition shadow_stage (e : option Envelope) : stage := λ p ctx now,
  (λ o, mkDecision (if bool_decide (so_Reason o = "timeout") then DecisionDefer
                    else DecisionReject)
          "shadow" (shadow_outcome_Error (Some o)) (so_RetryAfter o) now) <$>
  (shadow_Evaluate (e ≫= e_shadow) ctx p).

Definition fallback_stage : stage := λ p ctx now,
  Some (mkDecision DecisionReject "fallback" ErrFallback 0 now).

Definition stages (e : option Envelope) : list stage :=
  [intake_stage; constraints_stage e; bounds_stage e; dampener_stage e; shadow_stage e;
   fallback_stage].

Fixpoint first_stop (ss : list stage) (p : Proposal) (ctx : option ctx_err) (now : Time)
    : option Decision :=
  match ss with
  | [] => None
  | s :: ss =>
      match s p ctx now with Some d => Some d | None => first_stop ss p ctx now end
  end.

Lemma Submit_first_stop e ctx p now :
  first_stop (stages e) p ctx now = Some (Submit e ctx p now).
Proof.
  unfold Submit, stages. destruct ctx as [err|]; [done |]. simpl.
  unfold constraints_stage, bounds_stage, dampener_stage, shadow_stage.
  destruct (constraints_Evaluate _ p); [done |]. simpl.
  destruct (bounds_Evaluate _ p); [done |]. simpl.
  destruct (dampener_Evaluate _ p now); [done |]. simpl.
  by destruct (shadow_Evaluate _ None p).
Qed.

(** The first stop of a list is produced by one of its stages. *)
Lemma first_stop_Some ss p ctx now d :
  first_stop ss p ctx now = Some d ↔
  ∃ before s after, ss = before ++ s :: after ∧
    Forall (λ s : stage, s p ctx now = None) before ∧ s p ctx now = Some d.
Proof.
  induction ss as [|s ss IH]; simpl.
  - split; [done |]. by intros ([] & ? & ? & ? & _).
  - destruct (s p ctx now) as [d'|] eqn:Hs.
    + split; [intros [= <-]; by exists [], s, ss |].
      intros ([|s' l] & s'' & r & ? & Hl & ?); simplify_eq/=; [congruence |].
      by apply Forall_cons_iff in Hl as [? _]; congruence.
    + rewrite IH. split.
      * intros (l & s' & r & -> & ? & ?). exists (s :: l), s', r.
        split; [done |]. split; [by constructor | done].
      * intros ([|s' l] & s'' & r & ? & Hl & ?); simplify_eq/=.
        apply Forall_cons_iff in Hl as [_ ?]. by exists l, s'', r.
Qed.

(** What a stage may answer. *)
Definition decision_ok (d : Decision) (now : Time) : Prop :=
  d_Kind d ≠ DecisionApply ∧ d_DecidedAt d = now ∧
  d_Stage d ∈ ["intake"; "constraints"; "bounds"; "dampener"; "shadow"; "fallback"] ∧
  (d_RetryAfter d ≠ 0 → d_Kind d = DecisionDefer ∧ (d_Stage d = "dampener" ∨ d_Stage d = "shadow")).

Lemma dampener_outcome_codes r p now o :
  dampener_Evaluate r p now = Some o →
  do_Reason o = "cooldown_active" ∨ do_Reason o = "below_hysteresis" ∧ do_RetryAfter o = 0.
Proof.
  destruct r as [r|]; [|done]. unfold dampener_Evaluate. intros Ho.
  repeat case_match; simplify_eq/=; [by left|].
  right. by destruct (checkHysteresis_below _ _ _ _ Ho) as (_ & _ & ? & ?).
Qed.

Lemma shadow_outcome_codes r ctx p o :
  shadow_Evaluate r ctx p = Some o →
  so_Reason o = "timeout" ∨ so_RetryAfter o = 0.
Proof.
  destruct r as [r|]; [|done]. rewrite shadow_Evaluate_simulation. intros Ho.
  destruct (simulation r ctx p) as [[[v|] [err|]]|]; simplify_eq/=;
    repeat case_match; simplify_eq/=; auto.
Qed.

Lemma Submit_ok e ctx p now : decision_ok (Submit e ctx p now) now.
Proof.
  pose proof (Submit_first_stop e ctx p now) as Hf.
  apply first_stop_Some in Hf as (l & s & r & Hss & _ & Hs).
  assert (Hin : s ∈ stages e) by (rewrite Hss; apply elem_of_app; right; left).
  revert Hs. generalize (Submit e ctx p now). intros d Hs. clear Hss.
  unfold decision_ok. unfold stages in Hin. rewrite !elem_of_cons, elem_of_nil in Hin.
  destruct Hin as [->|[->|[->|[->|[->|[->|[]]]]]]];
    [apply fmap_Some in Hs as (o & Ho & ->)..|injection Hs as <-]; simpl;
    try (by split_and!; set_solver).
  - apply dampener_outcome_codes in Ho as [->|[-> ->]]; simpl; split_and!; set_solver.
  - apply shadow_outcome_codes in Ho as [->|Hz];
      [simpl; split_and!; set_solver|].
    rewrite Hz. split_and!; [by case_bool_decide | done | set_solver | done].
Qed.

(** ** Adding stages *)

(** Every registry of [e] is also in [e']. *)
Definition extends (e e' : Envelope) : Prop :=
  (∀ r, e_constraints e = Some r → e_constraints e' = Some r) ∧
  (∀ r, e_bounds e = Some r → e_bounds e' = Some r) ∧
  (∀ r, e_dampener e = Some r → e_dampener e' = Some r) ∧
  (∀ r, e_shadow e = Some r → e_shadow e' = Some r).

(** A stage that stops a proposal in [e] stops it in the same way in [e']. *)
Lemma stage_extends e e' p ctx now :
  extends e e' →
  Forall2 (λ s s' : stage, ∀ d, s p ctx now = Some d → s' p ctx now = Some d)
    (stages (Some e)) (stages (Some e')).
Proof.
  intros (Hc & Hb & Hd & Hs). unfold stages, constraints_stage, bounds_stage,
    dampener_stage, shadow_stage. simpl.
  repeat constructor; intros d; try done.
  - destruct (e_constraints e) as [r|]; [by rewrite (Hc r) | done].
  - destruct (e_bounds e) as [r|]; [by rewrite (Hb r) | done].
  - destruct (e_dampener e) as [r|]; [by rewrite (Hd r) | done].
  - destruct (e_shadow e) as [r|]; [by rewrite (Hs r) | done].
Qed.

(** Where a decision of the richer list comes from. *)
Lemma first_stop_extends (ss ss' : list stage) p ctx now d :
  Forall2 (λ s s' : stage, ∀ d, s p ctx now = Some d → s' p ctx now = Some d) ss ss' →
  first_stop ss p ctx now = Some d →
  first_stop ss' p ctx now = Some d ∨
  ∃ i j s s', (i < j)%nat ∧ ss' !! i = Some s' ∧ ss !! j = Some s ∧
    Forall (λ s : stage, s p ctx now = None) (take j ss) ∧ s p ctx now = Some d ∧
    s' p ctx now = first_stop ss' p ctx now ∧ s' p ctx now ≠ None.
Proof.
  induction 1 as [|s s' ss ss' Hs _ IH]; simpl; [done |]. intros Hd.
  destruct (s p ctx now) as [d0|] eqn:Hsd.
  { left. simplify_eq. by rewrite (Hs d). }
  destruct (s' p ctx now) as [d1|] eqn:Hsd'.
  - right. clear IH. apply first_stop_Some in Hd as (l & s0 & r & -> & Hl & Hs0).
    exists 0%nat, (S (length l)), s0, s'. split; [lia |]. split; [done |].
    split; [simpl; by apply list_lookup_middle |].
    split; [simpl; rewrite take_app_length; by constructor | by rewrite Hsd'].
  - destruct (IH Hd) as [?|(i & j & s0 & s0' & ? & ? & ? & ? & ?)]; [by left | right].
    exists (S i), (S j), s0, s0'. split; [lia |]. split; [done |]. split; [done |].
    split; [by constructor | done].
Qed.

(** ** Properties *)

(** C28. [Submit] never lets a proposal through: whatever the envelope, the
    context, the proposal and the operator's code do, the decision is a
    rejection or a deferral of one of the six stages, taken at the one clock
    reading; a wait is given only with a deferral of the dampener or the
    shadow stage.  It is the decision of the first stage, in the documented
    order, that stops the proposal. *)
Theorem Submit_never_applies (e : option Envelope) (ctx : option ctx_err) (p : Proposal)
    (now : Time) :
  decision_ok (Submit e ctx p now) now ∧
  first_stop (stages e) p ctx now = Some (Submit e ctx p now) ∧
  (e = None ∨ e = Some NewAutonomousSafe → ctx = None →
     Submit e ctx p now = mkDecision DecisionReject "fallback" ErrFallback 0 now).
Proof.
  split; [apply Submit_ok |]. split; [apply Submit_first_stop |]. by intros [->| ->] ->.
Qed.

(** Wiring a stage only narrows: with more registries installed the decision
    is unchanged unless a stage that had no opinion before, and runs earlier
    than the one that decided, now stops the proposal itself. *)
Theorem wiring_a_stage_only_narrows (e e' : Envelope) (ctx : option ctx_err) (p : Proposal)
    (now : Time) :
  extends e e' →
  Submit (Some e') ctx p now = Submit (Some e) ctx p now ∨
  ∃ i j s s', (i < j)%nat ∧ stages (Some e') !! i = Some s' ∧ stages (Some e) !! j = Some s ∧
    s p ctx now = Some (Submit (Some e) ctx p now) ∧
    s' p ctx now = Some (Submit (Some e') ctx p now) ∧
    ∀ s0, stages (Some e) !! i = Some s0 → s0 p ctx now = None.
Proof.
  intros He. pose proof (Submit_first_stop (Some e) ctx p now) as Hd.
  pose proof (Submit_first_stop (Some e') ctx p now) as Hd'.
  destruct (first_stop_extends _ _ p ctx now _ (stage_extends e e' p ctx now He) Hd)
    as [?|(i & j & s & s' & Hij & Hi & Hj & Hl & Hs & Hs' & _)]; [left; congruence | right].
  exists i, j, s, s'. split_and!; try done; [congruence |].
  intros s0 Hs0. rewrite Forall_lookup in Hl. apply (Hl i). by rewrite lookup_take_lt.
Qed.

(** As long as [RecordApplied] is not called -- and [Submit] never calls it,
    since it applies nothing -- the dampener stage stops no proposal. *)
Theorem dampener_is_inert (e : Envelope) (r : DampenerRegistry) (ctx : option ctx_err)
    (p : Proposal) (now : Time) :
  e_dampener e = Some r → dr_state r = ∅ →
  d_Stage (Submit (Some e) ctx p now) ≠ "dampener" ∧
  Submit (Some e) ctx p now = Submit (Some (WithDampener None e)) ctx p now.
Proof.
  intros He Hr.
  assert (dampener_Evaluate (Some r) p now = None) as Hn.
  { unfold dampener_Evaluate. rewrite Hr, lookup_empty. by destruct (cooldownFor r (p_Kind p)). }
  unfold Submit. destruct ctx; [done |]. simpl. rewrite He, Hn.
  by repeat case_match.
Qed.
End envelope.

(** ** Witnesses *)

#[local] Existing Instance plain_fmt.

Definition demo_envelope : Envelope :=
  New [Some (WithConstraints (Some DefaultConstraints));
       None;
       Some (WithDampener (Some demo_dampener))].

Lemma wiring_a_stage_only_narrows_witness :
  let p := demo_proposal <| p_Value := AInt 0 |> in
  extends NewAutonomousSafe demo_envelope ∧
  d_Stage (Submit (Some NewAutonomousSafe) None p 5) = "fallback" ∧
  d_Stage (Submit (Some demo_envelope) None p 5) = "constraints" ∧
  ∃ i j s s', (i < j)%nat ∧ stages (Some demo_envelope) !! i = Some s' ∧
    stages (Some NewAutonomousSafe) !! j = Some s ∧
    s p None 5 = Some (Submit (Some NewAutonomousSafe) None p 5) ∧
    s' p None 5 = Some (Submit (Some demo_envelope) None p 5) ∧
    ∀ s0, stages (Some NewAutonomousSafe) !! i = Some s0 → s0 p None 5 = None.
Proof.
  intros p. assert (extends NewAutonomousSafe demo_envelope) as He by done.
  split; [done |]. split; [by vm_compute |]. split; [by vm_compute |].
  destruct (wiring_a_stage_only_narrows _ _ None p 5 He) as [Heq|H]; [|exact H].
  by vm_compute in Heq.
Defined.

Lemma dampener_is_inert_witness :
  d_Stage (Submit (Some demo_envelope) None demo_proposal 5) ≠ "dampener" ∧
  Submit (Some demo_envelope) None demo_proposal 5 =
    Submit (Some (WithDampener None demo_envelope)) None demo_proposal 5.
Proof. by apply (dampener_is_inert demo_envelope demo_dampener). Defined.
