(* ===== verification/AgentPipeline.v ===== *)
(** * The agent pipeline (internal/envelope/agent.go)

    A planner and reviewers behind interfaces, an error budget, and an operator
    switch.  The agents are supplied from outside: one call of [Plan] or
    [Review] is modelled as its result.  Agents may run for any time and the
    context may be cancelled between them, so a run reads the clock and the
    context several times; [RunEnv] lists these readings in program order. *)

From Stdlib Require Import Sorted.
From S2P Require Import Prelude GoStrings GoErrors Proposal.

Inductive Role := RolePlanner | RoleVerifier | RoleSafety | RoleObserver | RoleOther (n : Z).

#[export] Instance Role_eq_dec : EqDecision Role.
Proof. solve_decision. Defined.

(** The [int] behind a role; [RoleOther] stands for the values without a name. *)
Definition role_int (r : Role) : Z :=
  match r with
  | RolePlanner => 0 | RoleVerifier => 1 | RoleSafety => 2 | RoleObserver => 3
  | RoleOther n => n
  end.

(** A [RoleOther] is none of the named ones. *)
Definition role_ok (r : Role) : Prop :=
  match r with RoleOther n => n < 0 ∨ 3 < n | _ => True end.

Definition role_string (r : Role) : string :=
  match r with
  | RolePlanner => "planner" | RoleVerifier => "verifier"
  | RoleSafety => "safety" | RoleObserver => "observer"
  | RoleOther _ => "unknown"
  end.

Record PlanResult := mkPlan { pl_Emit : bool; pl_Proposal : Proposal; pl_Reason : string }.

Record ReviewResult := mkReview { rv_Veto : bool; rv_Reason : string; rv_Detail : string }.

(** Agent errors are opaque to the pipeline. *)
Abbreviation aerror := (goerror string) (only parsing).

(** An agent's interface: its role, its name and its method, which returns a
    result or an error. *)
Record Planner := mkPlanner {
  planner_Role : Role;
  planner_Name : string;
  planner_Plan : result PlanResult aerror
}.

Record Reviewer := mkReviewer {
  reviewer_Role : Role;
  reviewer_Name : string;
  reviewer_Review : Proposal → result ReviewResult aerror
}.

Definition PlannerFunc (name : string) (fn : option (result PlanResult aerror)) : Planner :=
  mkPlanner RolePlanner
    (if bool_decide (name = "") then "anonymous_planner" else name)
    (default (Ok (mkPlan false (mkProposal "" "" ANil "" "" 0) "no_planner_fn")) fn).

Definition ReviewerFunc (name : string) (role : Role)
    (fn : option (Proposal → result ReviewResult aerror)) : Reviewer :=
  mkReviewer role
    (if bool_decide (name = "") then "anonymous_reviewer" else name)
    (default (λ _, Ok (mkReview false "" "")) fn).

Inductive PipelineOutcomeKind :=
| OutcomeEmit | OutcomeNoProposal | OutcomeVeto | OutcomeError | OutcomeDisabled.

#[export] Instance PipelineOutcomeKind_eq_dec : EqDecision PipelineOutcomeKind.
Proof. solve_decision. Defined.

Definition outcome_string (k : PipelineOutcomeKind) : string :=
  match k with
  | OutcomeEmit => "emit" | OutcomeNoProposal => "no_proposal" | OutcomeVeto => "veto"
  | OutcomeError => "error" | OutcomeDisabled => "disabled"
  end.

Record PipelineOutcome := mkOutcomeP {
  o_Kind : PipelineOutcomeKind;
  o_Proposal : option Proposal;      (** [None]: the zero proposal *)
  o_Role : Role;
  o_AgentName : string;
  o_Reason : string;
  o_Detail : string;
  o_Err : option aerror;
  o_EnabledFrom : Time;
  o_DecidedAt : Time
}.

#[export] Instance PipelineOutcome_eta : Eta PipelineOutcome := λ o,
  mkOutcomeP (o_Kind o) (o_Proposal o) (o_Role o) (o_AgentName o) (o_Reason o) (o_Detail o)
    (o_Err o) (o_EnabledFrom o) (o_DecidedAt o).

Record ErrorBudget := mkBudget { MaxConsecutiveErrors : Z; eb_Cooldown : Duration }.

Definition DefaultErrorBudget : ErrorBudget := mkBudget 3 (60 * Second).

Record Pipeline := mkPipeline {
  pp_planner : Planner;
  pp_reviewers : list Reviewer;
  pp_budget : ErrorBudget;
  consecutiveErrors : Z;
  enabledFrom : Time;
  enabled : bool
}.

#[export] Instance Pipeline_eta : Eta Pipeline := λ p,
  mkPipeline (pp_planner p) (pp_reviewers p) (pp_budget p) (consecutiveErrors p)
    (enabledFrom p) (enabled p).

(** [time.Unix(1<<62, 0)]: seconds since 1970, here nanoseconds since year 1. *)
Definition farFuture : Time := (2 ^ 62 + 62135596800) * Second.

(** The checks of the loop over the reviewers in [NewPipeline]; a nil reviewer
    is [None]. *)
Fixpoint check_reviewers (i : Z) (prev : Role) (rs : list (option Reviewer)) : option string :=
  match rs with
  | [] => None
  | None :: _ => Some ("envelope: reviewer at index " +:+ Itoa i +:+ " is nil")
  | Some r :: rs =>
      if decide (role_int (reviewer_Role r) = role_int RolePlanner) then
        Some ("envelope: reviewer at index " +:+ Itoa i +:+
              " has role planner; only one planner is allowed")
      else if decide (role_int (reviewer_Role r) < role_int prev) then
        Some ("envelope: reviewer at index " +:+ Itoa i +:+ " has role " +:+
              role_string (reviewer_Role r) +:+ " after " +:+ role_string prev +:+
              ": envelope: pipeline reviewers must be in non-decreasing role order")
      else check_reviewers (i + 1) (reviewer_Role r) rs
  end.

(** [NewPipeline(planner, reviewers, opts...)]; the only option is the budget. *)
Definition NewPipeline `{GoFmt} (planner : option Planner) (reviewers : list (option Reviewer))
    (budget : option ErrorBudget) : result Pipeline string :=
  match planner with
  | None => Err "envelope: pipeline requires a non-nil Planner"
  | Some planner =>
      if decide (role_int (planner_Role planner) ≠ role_int RolePlanner) then
        Err ("envelope: planner agent " +:+ fmt_quote (planner_Name planner) +:+ " has role " +:+
             role_string (planner_Role planner) +:+ ", want planner")
      else
        match check_reviewers 0 RolePlanner reviewers with
        | Some err => Err err
        | None =>
            Ok (mkPipeline planner (omap id reviewers) (default (mkBudget 0 0) budget)
                  0 time_zero true)
        end
  end.

Definition pipeline_Disable (p : Pipeline) : Pipeline := p <| enabled := false |>.

Definition pipeline_Enable (p : Pipeline) : Pipeline :=
  p <| enabled := true |> <| consecutiveErrors := 0 |> <| enabledFrom := time_zero |>.

Definition isEnabledLocked (p : Pipeline) (now : Time) : bool :=
  enabled p && (time_is_zero (enabledFrom p) || negb (bool_decide (now < enabledFrom p))).

(** [p.Enabled()] for a possibly nil pipeline. *)
Definition pipeline_Enabled (p : option Pipeline) (now : Time) : bool :=
  match p with None => false | Some p => isEnabledLocked p now end.

(** [p.recordError(out, now)] *)
Definition recordError (p : Pipeline) (out : PipelineOutcome) (now : Time)
    : PipelineOutcome * Pipeline :=
  let p := p <| consecutiveErrors := wrap64 (consecutiveErrors p + 1) |> in
  if decide (0 < MaxConsecutiveErrors (pp_budget p) ∧
             MaxConsecutiveErrors (pp_budget p) ≤ consecutiveErrors p) then
    let from :=
      if decide (0 < eb_Cooldown (pp_budget p)) then time_add now (eb_Cooldown (pp_budget p))
      else farFuture in
    (out <| o_EnabledFrom := from |>, p <| enabledFrom := from |>)
  else (out, p).

(** [p.recordSuccess()] *)
Definition recordSuccess (p : Pipeline) : Pipeline := p <| consecutiveErrors := 0 |>.

(** What a run observes outside the pipeline: the clock and the context at its
    start; for each reviewer in turn, the context before it and the clock
    readings after it; the clock at the end.  [p.timeNow()] is read twice where
    an error is recorded. *)
Record ReviewEnv := mkReviewEnv {
  re_ctx : option ctx_err;
  re_decided : Time;
  re_recorded : Time
}.

Record RunEnv := mkRunEnv {
  run_start : Time;
  run_ctx : option ctx_err;
  run_reviews : list ReviewEnv;
  run_end : Time
}.

Definition error_outcome (role : Role) (name reason : string) (err : aerror) (now : Time)
    : PipelineOutcome :=
  mkOutcomeP OutcomeError None role name reason (err_Error id err) (Some err) time_zero now.

(** The loop over the reviewers, then the emission.  The list of readings must
    have one entry for each reviewer: [None] when it does not. *)
Fixpoint run_reviewers (p : Pipeline) (proposal : Proposal) (rs : list Reviewer)
    (envs : list ReviewEnv) (end_ : Time) : option (PipelineOutcome * Pipeline) :=
  match rs, envs with
  | [], _ =>
      Some (mkOutcomeP OutcomeEmit (Some proposal) RolePlanner (planner_Name (pp_planner p))
              "" "" None time_zero end_, recordSuccess p)
  | r :: rs, env :: envs =>
      match re_ctx env with
      | Some c =>
          Some (recordError p (error_outcome (reviewer_Role r) (reviewer_Name r)
                  "context_cancelled" (ctx_error c) (re_decided env)) (re_recorded env))
      | None =>
          match reviewer_Review r proposal with
          | Err err =>
              Some (recordError p (error_outcome (reviewer_Role r) (reviewer_Name r)
                      "reviewer_error" err (re_decided env)) (re_recorded env))
          | Ok res =>
              if rv_Veto res then
                Some (mkOutcomeP OutcomeVeto None (reviewer_Role r) (reviewer_Name r)
                        (rv_Reason res) (rv_Detail res) None time_zero (re_decided env),
                      recordSuccess p)
              else run_reviewers p proposal rs envs end_
          end
      end
  | _ :: _, [] => None
  end.

(** [p.Run(ctx)], for a non-nil pipeline. *)
Definition Run (p : Pipeline) (env : RunEnv) : option (PipelineOutcome * Pipeline) :=
  let now := run_start env in
  let name := planner_Name (pp_planner p) in
  match run_ctx env with
  | Some c =>
      Some (recordError p (error_outcome RolePlanner name "context_cancelled" (ctx_error c) now) now)
  | None =>
      if negb (isEnabledLocked p now) then
        Some (mkOutcomeP OutcomeDisabled None RolePlanner ""
                (if enabled p then "error_budget_exhausted" else "operator_disabled")
                "" None (enabledFrom p) now, p)
      else
        match planner_Plan (pp_planner p) with
        | Err err => Some (recordError p (error_outcome RolePlanner name "planner_error" err now) now)
        | Ok plan =>
            if pl_Emit plan then
              run_reviewers p (pl_Proposal plan) (pp_reviewers p) (run_reviews env) (run_end env)
            else
              Some (mkOutcomeP OutcomeNoProposal None RolePlanner name (pl_Reason plan)
                      "" None time_zero now, recordSuccess p)
        end
  end.

(** ** The specification of a run

    [passes env r p]: the reviewer is asked and lets the proposal through. *)
Definition passes (env : ReviewEnv) (r : Reviewer) (proposal : Proposal) : Prop :=
  re_ctx env = None ∧
  ∃ res, reviewer_Review r proposal = Ok res ∧ rv_Veto res = false.

Definition stops (env : ReviewEnv) (r : Reviewer) (proposal : Proposal) : Prop :=
  ¬ passes env r proposal.

Lemma run_reviewers_emit p proposal rs envs end_ o p' :
  run_reviewers p proposal rs envs end_ = Some (o, p') →
  (o_Kind o = OutcomeEmit ↔
     ∃ used rest, envs = used ++ rest ∧ Forall2 (λ env r, passes env r proposal) used rs) ∧
  (o_Kind o = OutcomeEmit → o_Proposal o = Some proposal) ∧
  o_Kind o ≠ OutcomeDisabled ∧ o_Kind o ≠ OutcomeNoProposal.
Proof.
  revert envs. induction rs as [|r rs IH]; intros [|env envs] H; simpl in H; simplify_eq/=.
  - split; [|done]. split; [|done]. intros _. exists [], []. by split.
  - split; [|done]. split; [|done]. intros _. exists [], (env :: envs). by split.
  - assert (passes env r proposal →
      (∃ used rest, env :: envs = used ++ rest ∧
         Forall2 (λ env r, passes env r proposal) used (r :: rs)) ↔
      (∃ used rest, envs = used ++ rest ∧
         Forall2 (λ env r, passes env r proposal) used rs)) as Hcons.
    { intros Hp. split.
      - intros (u & rest & He & Hu). inversion Hu; subst. simplify_eq/=. eauto.
      - intros (u & rest & -> & Hu). exists (env :: u), rest. split; [done | by constructor]. }
    assert (stops env r proposal → ¬ ∃ used rest, env :: envs = used ++ rest ∧
         Forall2 (λ env r, passes env r proposal) used (r :: rs)) as Hstop.
    { intros Hs (u & rest & He & Hu). inversion Hu; subst. by simplify_eq/=. }
    destruct (re_ctx env) as [c|] eqn:Hctx.
    { unfold recordError in H. case_decide; simplify_eq/=; (split; [|done]); split; try done;
        intros Hx; by apply Hstop in Hx; [| intros [? _]; congruence]. }
    destruct (reviewer_Review r proposal) as [res|err] eqn:Hr.
    2: { unfold recordError in H. case_decide; simplify_eq/=; (split; [|done]); split; try done;
        intros Hx; by apply Hstop in Hx; [| intros (_ & ? & ? & _); congruence]. }
    destruct (rv_Veto res) eqn:Hv; simplify_eq/=.
    + split; [|done]. split; [done|]. intros Hx; by apply Hstop in Hx;
        [| intros (_ & ? & ? & ?); congruence].
    + rewrite Hcons by (split; [done | by exists res]). by apply IH.
Qed.

(** A run changes the pipeline in one of three ways, told by its outcome. *)
Definition clock_of (env : RunEnv) (t : Time) : Prop :=
  t = run_start env ∨ t ∈ re_recorded <$> run_reviews env.

Definition effect (p : Pipeline) (env : RunEnv) (o : PipelineOutcome) (p' : Pipeline) : Prop :=
  match o_Kind o with
  | OutcomeError =>
      ∃ t, clock_of env t ∧ o_Proposal o = None ∧ is_Some (o_Err o) ∧
        p' = (recordError p o t).2
  | OutcomeDisabled => p' = p ∧ run_ctx env = None ∧ isEnabledLocked p (run_start env) = false
  | _ => p' = recordSuccess p ∧ isEnabledLocked p (run_start env) = true
  end.

(** The state an error leaves does not depend on the outcome recorded, and only
    the recovery time of the outcome is rewritten. *)
Lemma recordError_state p o o' t : (recordError p o t).2 = (recordError p o' t).2.
Proof. unfold recordError; simpl. by destruct (decide (_ ∧ _)). Qed.

Lemma recordError_outcome p o t :
  ∃ from, (recordError p o t).1 = o <| o_EnabledFrom := from |>.
Proof.
  unfold recordError; simpl. destruct (decide (_ ∧ _)); [by eexists |].
  exists (o_EnabledFrom o). by destruct o.
Qed.

Lemma recordError_effect p out env t role name reason err dt :
  clock_of env t →
  recordError p (error_outcome role name reason err dt) t = out →
  effect p env out.1 out.2.
Proof.
  intros Ht <-. unfold effect.
  destruct (recordError_outcome p (error_outcome role name reason err dt) t) as [from Ho].
  rewrite Ho. simpl. exists t. split_and!; [done | done | by eexists |].
  apply recordError_state.
Qed.

Lemma run_reviewers_effect p proposal rs envs end_ env o p' :
  isEnabledLocked p (run_start env) = true →
  (∀ t, t ∈ re_recorded <$> envs → clock_of env t) →
  run_reviewers p proposal rs envs end_ = Some (o, p') → effect p env o p'.
Proof.
  intros Hen. revert envs. induction rs as [|r rs IH]; intros envs Henvs H;
    simpl in H; [by simplify_eq/=; split|].
  destruct envs as [|e envs]; [done |].
  assert (clock_of env (re_recorded e)) as Ht by (apply Henvs; left).
  destruct (re_ctx e) as [c|]; [|destruct (reviewer_Review r proposal) as [res|err]].
  - injection H as H. by apply (recordError_effect _ (o, p') _ _ _ _ _ _ _ Ht H).
  - destruct (rv_Veto res); [by simplify_eq/=; split |].
    apply (IH envs); [intros t Hin; apply Henvs; by right | done].
  - injection H as H. by apply (recordError_effect _ (o, p') _ _ _ _ _ _ _ Ht H).
Qed.

Lemma Run_effect p env o p' : Run p env = Some (o, p') → effect p env o p'.
Proof.
  unfold Run. intros H. assert (clock_of env (run_start env)) as Ht by by left.
  destruct (run_ctx env) as [c|] eqn:Hctx.
  { injection H as H. by apply (recordError_effect _ (o, p') _ _ _ _ _ _ _ Ht H). }
  destruct (isEnabledLocked p (run_start env)) eqn:Hen; simpl in H;
    [|by simplify_eq/=; split_and!].
  destruct (planner_Plan (pp_planner p)) as [plan|err].
  - destruct (pl_Emit plan); [|by simplify_eq/=; split].
    eapply run_reviewers_effect; [done | | exact H]. intros t Hin. by right.
  - injection H as H. by apply (recordError_effect _ (o, p') _ _ _ _ _ _ _ Ht H).
Qed.

Fixpoint run_many (p : Pipeline) (envs : list RunEnv)
    : option (list PipelineOutcome * Pipeline) :=
  match envs with
  | [] => Some ([], p)
  | env :: envs =>
      '(o, p1) ← Run p env;
      '(os, p2) ← run_many p1 envs;
      Some (o :: os, p2)
  end.

(** The budget and the operator switch are never changed by a run. *)
Definition same_setup (p p' : Pipeline) : Prop :=
  pp_budget p' = pp_budget p ∧ enabled p' = enabled p ∧
  pp_planner p' = pp_planner p ∧ pp_reviewers p' = pp_reviewers p.

Lemma recordError_setup p o t : same_setup p (recordError p o t).2.
Proof. unfold recordError. by case_decide. Qed.

(** Where a streak of errors leaves the counter and the cooldown. *)
Definition streak (p : Pipeline) (n : Z) (q : Pipeline) : Prop :=
  same_setup p q ∧ consecutiveErrors q = n ∧
  (n < MaxConsecutiveErrors (pp_budget p) → enabledFrom q = enabledFrom p).

Lemma recordError_streak p q o t n :
  0 < MaxConsecutiveErrors (pp_budget p) → 0 ≤ n → n + 1 ≤ int64_max → streak p n q →
  streak p (n + 1) (recordError q o t).2 ∧
  (MaxConsecutiveErrors (pp_budget p) ≤ n + 1 →
   enabledFrom (recordError q o t).2 =
     if decide (0 < eb_Cooldown (pp_budget p)) then t + eb_Cooldown (pp_budget p)
     else farFuture).
Proof.
  intros Hmax Hn Hr ((Hb & He & Hp & Hv) & Hc & Hf). unfold recordError. simpl.
  rewrite Hc, Hb, wrap64_id by int_solve.
  case_decide as Hd; simpl; (split; [split; [by split_and! | split; [done | intros; simpl]]|]).
  - lia.
  - intros _. done.
  - apply Hf. lia.
  - lia.
Qed.

Lemma error_streak p envs n q0 os q :
  0 < MaxConsecutiveErrors (pp_budget p) → 0 ≤ n →
  n + Z.of_nat (length envs) ≤ int64_max → streak p n q0 →
  run_many q0 envs = Some (os, q) → Forall (λ o, o_Kind o = OutcomeError) os →
  streak p (n + Z.of_nat (length envs)) q ∧
  (∀ env, last envs = Some env →
     MaxConsecutiveErrors (pp_budget p) ≤ n + Z.of_nat (length envs) →
     ∃ t, clock_of env t ∧ enabledFrom q =
       if decide (0 < eb_Cooldown (pp_budget p)) then t + eb_Cooldown (pp_budget p)
       else farFuture).
Proof.
  intros Hmax. revert n q0 os. induction envs as [|env envs IH]; intros n q0 os Hn Hr Hs Hrun Hall.
  { simplify_eq/=. by rewrite Z.add_0_r. }
  cbn [run_many] in Hrun. apply bind_Some in Hrun as ([o q1] & Ho & Hrun).
  apply bind_Some in Hrun as ([os' q2] & Hrun & ?); simplify_eq/=.
  apply Forall_cons_iff in Hall as [Hk Hall].
  apply Run_effect in Ho. unfold effect in Ho. rewrite Hk in Ho.
  destruct Ho as (t & Ht & _ & _ & ->).
  destruct (recordError_streak p q0 o t n) as [Hs1 Hfrom]; [done..| lia | done |].
  destruct (IH (n + 1) (recordError q0 o t).2 os') as [Hs2 Hlast]; [lia..| done | done | done |].
  replace (n + Z.of_nat (S (length envs))) with (n + 1 + Z.of_nat (length envs)) by lia.
  split; [done |]. intros env' Hl Hle. destruct envs as [|env2 envs].
  - simplify_eq/=. exists t. split; [done |]. simplify_eq/=. apply Hfrom. lia.
  - apply Hlast; [done | lia].
Qed.

(** ** Construction *)

(** What [NewPipeline] promises about the reviewers it accepts. *)
Fixpoint roles_ordered (prev : Role) (rs : list (option Reviewer)) : Prop :=
  match rs with
  | [] => True
  | None :: _ => False
  | Some r :: rs =>
      role_int (reviewer_Role r) ≠ 0 ∧ role_int prev ≤ role_int (reviewer_Role r) ∧
      roles_ordered (reviewer_Role r) rs
  end.

Lemma check_reviewers_None i prev rs : check_reviewers i prev rs = None ↔ roles_ordered prev rs.
Proof.
  revert i prev. induction rs as [|[r|] rs IH]; intros i prev; simpl; [done | | done].
  case_decide; [by split; [|intros []]|]. case_decide; [split; [done | lia]|].
  rewrite IH. split; [intros; split_and!; [done | lia | done] | by intros (_ & _ & ?)].
Qed.

Lemma roles_ordered_Sorted prev rs :
  roles_ordered prev rs →
  Sorted Z.le (role_int prev :: (role_int <$> (reviewer_Role <$> omap id rs))) ∧
  length (omap id rs) = length rs.
Proof.
  revert prev. induction rs as [|[r|] rs IH]; intros prev; simpl; [by repeat constructor | | done].
  intros (_ & Hle & [? ?]%IH). split; [constructor; [done | by constructor] | by apply (f_equal S)].
Qed.

(** ** Properties *)

(** [NewPipeline] accepts exactly a planner in the planner's role with
    reviewers that are all present, none of them a planner, in non-decreasing
    role order; the pipeline it builds runs those reviewers in that order, is
    enabled and has no error on its budget. *)
Theorem NewPipeline_spec `{GoFmt} (pl : option Planner) (rs : list (option Reviewer))
    (budget : option ErrorBudget) :
  (∀ p, NewPipeline pl rs budget = Ok p →
     pl = Some (pp_planner p) ∧ role_int (planner_Role (pp_planner p)) = 0 ∧
     rs = Some <$> pp_reviewers p ∧
     Sorted Z.le (role_int <$> (reviewer_Role <$> pp_reviewers p)) ∧
     (∀ now, isEnabledLocked p now = true) ∧ consecutiveErrors p = 0) ∧
  ((∃ p, NewPipeline pl rs budget = Ok p) ↔
     ∃ planner, pl = Some planner ∧ role_int (planner_Role planner) = 0 ∧
       roles_ordered RolePlanner rs).
Proof.
  unfold NewPipeline. destruct pl as [pl|].
  2: { split; [done |]. split; [by intros [] | by intros (? & ? & _)]. }
  destruct (decide (role_int (planner_Role pl) ≠ role_int RolePlanner)) as [Hr|Hr].
  { split; [done |]. split; [by intros [] | intros (? & [= <-] & ? & _); done]. }
  apply dec_stable in Hr. simpl in Hr.
  destruct (check_reviewers 0 RolePlanner rs) as [err|] eqn:Hc.
  { split; [done |]. split; [by intros [] |]. intros (? & _ & _ & Ho).
    apply (check_reviewers_None 0) in Ho. congruence. }
  apply check_reviewers_None in Hc. split.
  - intros p [= <-]. simpl. destruct (roles_ordered_Sorted _ _ Hc) as [Hs Hl].
    split_and!; try done; [|by inversion Hs].
    clear Hs Hl. revert Hc. generalize RolePlanner.
    induction rs as [|[r|] rs IH]; intros prev Hc; simpl in *; [done | | done].
    f_equal. by apply (IH (reviewer_Role r)), Hc.
  - split; [intros _; by exists pl | by eexists].
Qed.

(** C37. A run emits exactly when the context is live at its start, the pipeline
    is enabled, the planner authored a proposal, and every reviewer in turn was
    asked with a live context and let that same proposal through; what it emits
    is the planner's proposal, unchanged. *)
Theorem Run_emits_iff (p : Pipeline) (env : RunEnv) (o : PipelineOutcome) (p' : Pipeline) :
  Run p env = Some (o, p') →
  (o_Kind o = OutcomeEmit ↔
     run_ctx env = None ∧ isEnabledLocked p (run_start env) = true ∧
     ∃ plan used rest, planner_Plan (pp_planner p) = Ok plan ∧ pl_Emit plan = true ∧
       run_reviews env = used ++ rest ∧
       Forall2 (λ e r, passes e r (pl_Proposal plan)) used (pp_reviewers p)) ∧
  (o_Kind o = OutcomeEmit →
     ∃ plan, planner_Plan (pp_planner p) = Ok plan ∧ o_Proposal o = Some (pl_Proposal plan)).
Proof.
  unfold Run. intros H.
  assert (∀ role name reason err now x, (recordError p (error_outcome role name reason err now) x)
    = (o, p') → o_Kind o ≠ OutcomeEmit) as Herr.
  { intros role name reason err now x He.
    destruct (recordError_outcome p (error_outcome role name reason err now) x) as [? Ho].
    rewrite He in Ho. simpl in Ho. by rewrite Ho. }
  destruct (run_ctx env) as [c|].
  { injection H as H%Herr. by split; [split; [|intros [? _]]|]. }
  destruct (isEnabledLocked p (run_start env)); simpl in H.
  2: { injection H as <- <-. by split; [split; [|intros (_ & ? & _)]|]. }
  destruct (planner_Plan (pp_planner p)) as [plan|err].
  2: { injection H as H%Herr. by split; [split; [|intros (_ & _ & ? & ? & ? & ? & _)]|]. }
  destruct (pl_Emit plan) eqn:Hemit.
  - apply run_reviewers_emit in H as (Hiff & Hprop & _). split.
    + rewrite Hiff. split.
      * intros (u & rest & ? & ?). split; [done |]. split; [done |]. by exists plan, u, rest.
      * intros (_ & _ & pl' & u & rest & [= <-] & _ & ? & ?). by exists u, rest.
    + intros Hk. exists plan. by split; [|apply Hprop].
  - injection H as <- <-. split; [|done]. split; [done |].
    intros (_ & _ & pl' & ? & ? & [= <-] & ? & _). congruence.
Qed.

(** The error budget: fewer consecutive failing runs than the budget allows
    leave the pipeline enabled; from the run that reaches it, the pipeline is
    disabled exactly until the cooldown has elapsed since that run recorded its
    error; a later run is then allowed, and if it fails too the pipeline is
    disabled at once again, for a success is what resets the count. *)
Theorem error_budget (p : Pipeline) (envs : list RunEnv) (os : list PipelineOutcome)
    (q : Pipeline) :
  let max := MaxConsecutiveErrors (pp_budget p) in
  let cooldown := eb_Cooldown (pp_budget p) in
  0 < max → 0 < cooldown → enabled p = true → consecutiveErrors p = 0 →
  enabledFrom p = time_zero → Z.of_nat (length envs) ≤ int64_max →
  (∀ env t, env ∈ envs → clock_of env t → 0 < t) →
  run_many p envs = Some (os, q) → Forall (λ o, o_Kind o = OutcomeError) os →
  (Z.of_nat (length envs) < max → ∀ now, isEnabledLocked q now = true) ∧
  (max ≤ Z.of_nat (length envs) → ∃ env t, last envs = Some env ∧ clock_of env t ∧
     (∀ now, isEnabledLocked q now = bool_decide (t + cooldown ≤ now)) ∧
     (∀ env' o q', Run q env' = Some (o, q') →
        (run_ctx env' = None → run_start env' < t + cooldown →
           o_Kind o = OutcomeDisabled ∧ q' = q) ∧
        (o_Kind o ≠ OutcomeError → o_Kind o ≠ OutcomeDisabled → consecutiveErrors q' = 0))).
Proof.
  intros max cooldown Hmax Hcool Hen Hce Hef Hlen Hpos Hrun Hall.
  destruct (error_streak p envs 0 p os q) as [[(Hb & He & Hp & Hv) [Hn Hf]] Hlast];
    [done..|].
  rewrite Z.add_0_l in *. split.
  - intros Hlt now. unfold isEnabledLocked. by rewrite He, Hen, (Hf Hlt), Hef.
  - intros Hle. assert (∃ env, last envs = Some env) as [env Henv].
    { destruct (last envs) eqn:E; [by eexists |]. apply last_None in E as ->. simpl in *. lia. }
    destruct (Hlast env Henv Hle) as (t & Ht & Hfrom). rewrite decide_True in Hfrom by done.
    assert (0 < t) by (eapply Hpos; [by apply last_Some_elem_of | done]).
    assert (∀ now, isEnabledLocked q now = bool_decide (t + cooldown ≤ now)) as Hq.
    { intros now. unfold isEnabledLocked, time_is_zero, time_zero. rewrite He, Hen, Hfrom. simpl.
      rewrite (bool_decide_false (_ = 0)) by lia. simpl.
      by repeat case_bool_decide; lia. }
    exists env, t. split; [done |]. split; [done |]. split; [done |].
    intros env' o q' Hr. pose proof Hr as Heff%Run_effect. unfold effect in Heff. split.
    + intros Hctx Hlt. unfold Run in Hr. rewrite Hctx, Hq, bool_decide_false in Hr by lia.
      simpl in Hr. by injection Hr as <- <-.
    + intros Hne Hnd. by destruct (o_Kind o); [destruct Heff as [-> _]..| |].
Qed.

(** A cancelled context is looked at before the switches: such a run is an
    error of the planner and counts against the budget even while an operator
    has disabled the pipeline or its cooldown lasts. With a live context a
    disabled pipeline stays silent and unchanged; [Enable] re-enables it. *)
Theorem cancelled_run_counts (p : Pipeline) (env : RunEnv) (c : ctx_err) :
  consecutiveErrors p < int64_max → int64 (consecutiveErrors p) →
  run_ctx env = Some c →
  (∃ o, Run (pipeline_Disable p) env = Some (o, (recordError (pipeline_Disable p) o (run_start env)).2) ∧
     o_Kind o = OutcomeError ∧ o_Role o = RolePlanner ∧
     consecutiveErrors (recordError (pipeline_Disable p) o (run_start env)).2 =
       consecutiveErrors p + 1) ∧
  (∀ o p', Run (pipeline_Disable p) (mkRunEnv (run_start env) None (run_reviews env) (run_end env))
     = Some (o, p') →
     o_Kind o = OutcomeDisabled ∧ o_Reason o = "operator_disabled" ∧ p' = pipeline_Disable p) ∧
  (∀ now, isEnabledLocked (pipeline_Enable (pipeline_Disable p)) now = true).
Proof.
  intros Hlt Hr Hctx. split; [|split; [|done]].
  - unfold Run. rewrite Hctx. set (out := error_outcome _ _ _ _ _).
    destruct (recordError (pipeline_Disable p) out (run_start env)) as [o q] eqn:He.
    destruct (recordError_outcome (pipeline_Disable p) out (run_start env)) as [from Ho].
    rewrite He in Ho. simpl in Ho. exists o.
    rewrite (recordError_state _ o out), He. simpl. split; [done |]. rewrite Ho.
    split; [done |]. split; [done |].
    replace q with (recordError (pipeline_Disable p) out (run_start env)).2 by (by rewrite He).
    unfold recordError; simpl. rewrite wrap64_id by int_solve. by case_decide.
  - intros o p' H. by injection H as <- <-.
Qed.

(** ** Witnesses *)

Definition demo_reviewer (role : Role) (veto : bool) : Reviewer :=
  ReviewerFunc "rev" role (Some (λ _, Ok (mkReview veto "why" ""))).

Definition demo_pipeline (fn : result PlanResult aerror) (veto : bool) : Pipeline :=
  mkPipeline (PlannerFunc "plan" (Some fn))
    [demo_reviewer RoleVerifier false; demo_reviewer RoleSafety veto]
    (mkBudget 2 (60 * Second)) 0 time_zero true.

Definition demo_plan : PlanResult :=
  mkPlan true (mkProposal "rate_limit" "/api" (AInt 5) "plan" "" 0) "".

Definition demo_env (t : Time) : RunEnv :=
  mkRunEnv t None [mkReviewEnv None t t; mkReviewEnv None t t] t.

Lemma Run_emits_iff_witness :
  ∃ o p', Run (demo_pipeline (Ok demo_plan) false) (demo_env 7) = Some (o, p') ∧
    o_Kind o = OutcomeEmit ∧
    ∃ plan, planner_Plan (pp_planner (demo_pipeline (Ok demo_plan) false)) = Ok plan ∧
      o_Proposal o = Some (pl_Proposal plan).
Proof.
  eexists _, _. split; [reflexivity |]. split; [done |].
  by eapply (Run_emits_iff (demo_pipeline (Ok demo_plan) false) (demo_env 7)).
Defined.

Lemma error_budget_witness :
  let p := demo_pipeline (Err (ErrNew "down")) false in
  ∃ os q, run_many p [demo_env 10; demo_env 20] = Some (os, q) ∧
    ∃ t, (∀ now, isEnabledLocked q now = bool_decide (t + 60 * Second ≤ now)).
Proof.
  intros p. eexists _, _. split; [reflexivity |].
  edestruct (error_budget p [demo_env 10; demo_env 20]) as [_ H];
    [done | done | done | done | done | done | | reflexivity | by repeat constructor |].
  - intros env t Hin Ht. rewrite !elem_of_cons, elem_of_nil in Hin.
    destruct Hin as [->|[->|[]]]; destruct Ht as [->|Ht]; [done | |done|];
      simpl in Ht; rewrite !elem_of_cons, elem_of_nil in Ht; naive_solver lia.
  - destruct H as (env & t & _ & _ & H & _); [done |]. by exists t.
Defined.

Lemma cancelled_run_counts_witness :
  let p := demo_pipeline (Ok demo_plan) false in
  let env := mkRunEnv 7 (Some CtxCanceled) [] 7 in
  ∃ o, Run (pipeline_Disable p) env =
         Some (o, (recordError (pipeline_Disable p) o 7).2) ∧ o_Kind o = OutcomeError.
Proof.
  intros p env.
  destruct (cancelled_run_counts p env CtxCanceled) as [(o & ? & ? & _) _]; [done..|].
  by exists o.
Defined.
