(* ===== verification/Config.v ===== *)
(** * Configuration: defaults, validation, environment expansion
    (internal/config/config.go)

    This file has the types, the expansion and the defaults; validation and the
    load pipeline are in [ConfigValidate]. *)

From S2P Require Import Prelude GoFloat GoStrings.

(** ** The configuration tree *)

Record TLSConfig := mkTLS {
  tls_Enabled : bool; tls_CertFile : string; tls_KeyFile : string; tls_MinVersion : string
}.

#[export] Instance TLSConfig_eta : Eta TLSConfig := λ c,
  mkTLS (tls_Enabled c) (tls_CertFile c) (tls_KeyFile c) (tls_MinVersion c).

Record ServerConfig := mkServer {
  s_Port : Z;
  s_ReadTimeout : Duration;
  s_WriteTimeout : Duration;
  s_ShutdownTimeout : Duration;
  s_TrustedProxies : list string;
  s_MaxBodyBytes : Z;
  s_GlobalTimeoutMs : Z;
  s_TLS : TLSConfig
}.

#[export] Instance ServerConfig_eta : Eta ServerConfig := λ c,
  mkServer (s_Port c) (s_ReadTimeout c) (s_WriteTimeout c) (s_ShutdownTimeout c)
    (s_TrustedProxies c) (s_MaxBodyBytes c) (s_GlobalTimeoutMs c) (s_TLS c).

(** [Enabled] is a pointer: [None] when the key is absent. *)
Record MetricsConfig := mkMetricsConfig { m_Enabled : option bool; m_Path : string }.

#[export] Instance MetricsConfig_eta : Eta MetricsConfig := λ c,
  mkMetricsConfig (m_Enabled c) (m_Path c).

Record LoggingConfig := mkLogging {
  l_Output : string; l_MaxSizeMB : Z; l_MaxBackups : Z; l_MaxAgeDays : Z;
  l_BodyLogging : bool; l_MaxBodyLogBytes : Z
}.

#[export] Instance LoggingConfig_eta : Eta LoggingConfig := λ c,
  mkLogging (l_Output c) (l_MaxSizeMB c) (l_MaxBackups c) (l_MaxAgeDays c)
    (l_BodyLogging c) (l_MaxBodyLogBytes c).

Record AdminConfig := mkAdmin { adm_Enabled : bool; adm_IPAllowlist : list string }.

Record RateLimitConfig := mkRateLimit {
  rl_RequestsPerSecond : float64;
  rl_BurstSize : Z;
  rl_IdleTTL : Duration;
  rl_CleanupInterval : Duration
}.

#[export] Instance RateLimitConfig_eta : Eta RateLimitConfig := λ c,
  mkRateLimit (rl_RequestsPerSecond c) (rl_BurstSize c) (rl_IdleTTL c) (rl_CleanupInterval c).

#[export] Instance RateLimitConfig_eq_dec : EqDecision RateLimitConfig.
Proof. solve_decision. Defined.

Record AuthConfig := mkAuth {
  au_Enabled : bool; au_JWTSecret : string; au_Issuer : string; au_Audience : string;
  au_Scopes : list string
}.

#[export] Instance AuthConfig_eta : Eta AuthConfig := λ c,
  mkAuth (au_Enabled c) (au_JWTSecret c) (au_Issuer c) (au_Audience c) (au_Scopes c).

Record ConnectionPoolConfig := mkPool {
  cp_MaxIdleConns : Z; cp_MaxIdlePerHost : Z; cp_IdleTimeout : Duration
}.

#[export] Instance ConnectionPoolConfig_eq_dec : EqDecision ConnectionPoolConfig.
Proof. solve_decision. Defined.

Record RouteConfig := mkRoute {
  r_PathPrefix : string;
  r_Backend : string;
  r_StripPrefix : bool;
  r_Methods : list string;
  r_AuthRequired : bool;
  r_TimeoutMs : Z;
  r_RetryAttempts : Z;
  r_Headers : gmap string string;
  r_RateOverride : option RateLimitConfig;
  r_ConnectionPool : option ConnectionPoolConfig;
  r_FallbackStatus : Z;
  r_FallbackBody : string;
  r_LogLevel : string
}.

#[export] Instance RouteConfig_eta : Eta RouteConfig := λ c,
  mkRoute (r_PathPrefix c) (r_Backend c) (r_StripPrefix c) (r_Methods c) (r_AuthRequired c)
    (r_TimeoutMs c) (r_RetryAttempts c) (r_Headers c) (r_RateOverride c) (r_ConnectionPool c)
    (r_FallbackStatus c) (r_FallbackBody c) (r_LogLevel c).

#[export] Instance RouteConfig_eq_dec : EqDecision RouteConfig.
Proof. solve_decision. Defined.

Record CircuitBreakerConfig := mkCircuitBreaker {
  cbc_WindowSize : Z;
  cbc_FailureThreshold : float64;
  cbc_ResetTimeout : Duration;
  cbc_HalfOpenMax : Z;
  cbc_SlowThreshold : Duration;
  cbc_MaxConcurrent : Z;
  cbc_Adaptive : bool;
  cbc_LatencyCeiling : Duration;
  cbc_MinThreshold : float64
}.

#[export] Instance CircuitBreakerConfig_eta : Eta CircuitBreakerConfig := λ c,
  mkCircuitBreaker (cbc_WindowSize c) (cbc_FailureThreshold c) (cbc_ResetTimeout c)
    (cbc_HalfOpenMax c) (cbc_SlowThreshold c) (cbc_MaxConcurrent c) (cbc_Adaptive c)
    (cbc_LatencyCeiling c) (cbc_MinThreshold c).

Record Config := mkConfig {
  cfg_Server : ServerConfig;
  cfg_Metrics : MetricsConfig;
  cfg_Logging : LoggingConfig;
  cfg_RateLimit : RateLimitConfig;
  cfg_Auth : AuthConfig;
  cfg_CircuitBreaker : CircuitBreakerConfig;
  cfg_Admin : AdminConfig;
  cfg_Routes : list RouteConfig;
  cfg_Warnings : list string
}.

#[export] Instance Config_eta : Eta Config := λ c,
  mkConfig (cfg_Server c) (cfg_Metrics c) (cfg_Logging c) (cfg_RateLimit c) (cfg_Auth c)
    (cfg_CircuitBreaker c) (cfg_Admin c) (cfg_Routes c) (cfg_Warnings c).

(** ** Accessors *)

(** [m.IsEnabled()]: on unless switched off. *)
Definition metrics_IsEnabled (m : MetricsConfig) : bool := default true (m_Enabled m).

(** [s.GlobalTimeout()]; the product is a 64-bit one. *)
Definition GlobalTimeout (s : ServerConfig) : Duration :=
  if decide (s_GlobalTimeoutMs s ≤ 0) then 0 else wrap64 (s_GlobalTimeoutMs s * Millisecond).

(** [r.Timeout()] *)
Definition route_Timeout (r : RouteConfig) : Duration :=
  if decide (r_TimeoutMs r ≤ 0) then 30 * Second else wrap64 (r_TimeoutMs r * Millisecond).

Definition ValidLogLevels : gset string := {[""; "debug"; "info"; "warn"; "error"; "none"]}.

(** ** Environment expansion

    [envVarRe] matches a dollar, an opening brace, one or more characters other
    than a closing brace, and a closing brace. *)

(** Splits at the first closing brace: what precedes it and what follows. *)
Fixpoint until_brace (s : string) : option (string * string) :=
  match s with
  | EmptyString => None
  | String c r =>
      if Ascii.eqb c "}" then Some (EmptyString, r)
      else match until_brace r with
           | Some (k, rest) => Some (String c k, rest)
           | None => None
           end
  end.

(** A match at the start of the string: the variable's name and the rest. *)
Definition match_var (s : string) : option (string * string) :=
  match s with
  | String "$" (String "{" r) =>
      match until_brace r with
      | Some (EmptyString, _) | None => None
      | Some m => Some m
      end
  | _ => None
  end.

(** [ReplaceAllStringFunc]: leftmost matches, without overlap.  Each round
    consumes at least a character, so [len s] rounds suffice. *)
Fixpoint expand (fuel : nat) (lookup_env : string → option string) (s : string) : string :=
  match fuel, s with
  | O, _ => s
  | _, EmptyString => EmptyString
  | S fuel, String c r =>
      match match_var s with
      | Some (key, rest) =>
          match lookup_env key with
          | Some val => val +:+ expand fuel lookup_env rest
          | None => ("${" +:+ key +:+ "}") +:+ expand fuel lookup_env rest
          end
      | None => String c (expand fuel lookup_env r)
      end
  end.

Definition expandEnvVars (lookup_env : string → option string) (s : string) : string :=
  expand (len s) lookup_env s.

(** ** Defaults *)

(** [if x == 0 { x = d }] *)
Definition default_Z (x d : Z) : Z := if decide (x = 0) then d else x.
Definition default_s (x d : string) : string := if decide (x = "") then d else x.
Definition default_f (x d : float64) : float64 := if feqb x (f64 0) then d else x.

Section defaults.
Context `{GoPlatform}.

(** The janitor's idle time: ten minutes, or ten times the time a bucket takes to
    refill if that is longer. *)
Definition default_idle_ttl (rl : RateLimitConfig) : Duration :=
  let ttl := 10 * Minute in
  if fltb (f64 0) (rl_RequestsPerSecond rl) then
    let refill :=
      wrap64 (f64_to_int64 (fmul (fdiv (f64 (rl_BurstSize rl)) (rl_RequestsPerSecond rl))
                                 (f64 Second)) * 10) in
    if decide (ttl < refill) then refill else ttl
  else ttl.

Definition default_rate_limit (rl : RateLimitConfig) : RateLimitConfig :=
  let rl := rl <| rl_RequestsPerSecond := default_f (rl_RequestsPerSecond rl) (f64 100) |> in
  let rl := rl <| rl_BurstSize := default_Z (rl_BurstSize rl) 50 |> in
  let rl := if decide (rl_IdleTTL rl ≤ 0) then rl <| rl_IdleTTL := default_idle_ttl rl |> else rl in
  if decide (rl_CleanupInterval rl ≤ 0) then
    let interval := Z.quot (rl_IdleTTL rl) 10 in
    rl <| rl_CleanupInterval := if decide (interval < Minute) then Minute else interval |>
  else rl.

Definition default_circuit_breaker (cb : CircuitBreakerConfig) : CircuitBreakerConfig :=
  let cb := cb <| cbc_WindowSize := default_Z (cbc_WindowSize cb) 10 |> in
  let cb := cb <| cbc_FailureThreshold := default_f (cbc_FailureThreshold cb) (f64_lit 1 2) |> in
  let cb := cb <| cbc_ResetTimeout := default_Z (cbc_ResetTimeout cb) (30 * Second) |> in
  let cb := cb <| cbc_HalfOpenMax := default_Z (cbc_HalfOpenMax cb) 2 |> in
  if cbc_Adaptive cb then
    cb <| cbc_LatencyCeiling := default_Z (cbc_LatencyCeiling cb) (2 * Second) |>
       <| cbc_MinThreshold := default_f (cbc_MinThreshold cb) (f64_lit 2 10) |>
  else cb.

Definition default_server (s : ServerConfig) : ServerConfig :=
  let s := s <| s_Port := default_Z (s_Port s) 8080 |> in
  let s := if tls_Enabled (s_TLS s) then
             s <| s_TLS := (s_TLS s) <| tls_MinVersion := default_s (tls_MinVersion (s_TLS s)) "1.2" |> |>
           else s in
  s <| s_ReadTimeout := default_Z (s_ReadTimeout s) (15 * Second) |>
    <| s_WriteTimeout := default_Z (s_WriteTimeout s) (15 * Second) |>
    <| s_ShutdownTimeout := default_Z (s_ShutdownTimeout s) (10 * Second) |>
    <| s_MaxBodyBytes := default_Z (s_MaxBodyBytes s) 1048576 |>.

Definition default_logging (l : LoggingConfig) : LoggingConfig :=
  l <| l_Output := default_s (l_Output l) "stdout" |>
    <| l_MaxSizeMB := default_Z (l_MaxSizeMB l) 100 |>
    <| l_MaxBackups := default_Z (l_MaxBackups l) 3 |>
    <| l_MaxAgeDays := default_Z (l_MaxAgeDays l) 30 |>
    <| l_MaxBodyLogBytes := default_Z (l_MaxBodyLogBytes l) 4096 |>.

Definition applyDefaults (cfg : Config) : Config :=
  cfg <| cfg_Metrics := (cfg_Metrics cfg) <| m_Path := default_s (m_Path (cfg_Metrics cfg)) "/metrics" |> |>
      <| cfg_Server := default_server (cfg_Server cfg) |>
      <| cfg_Logging := default_logging (cfg_Logging cfg) |>
      <| cfg_RateLimit := default_rate_limit (cfg_RateLimit cfg) |>
      <| cfg_CircuitBreaker := default_circuit_breaker (cfg_CircuitBreaker cfg) |>
      <| cfg_Routes := (λ r, r <| r_TimeoutMs := default_Z (r_TimeoutMs r) 30000 |>) <$> cfg_Routes cfg |>.
End defaults.

(** ** Lemmas on environment expansion *)

Fixpoint no_char (c : ascii) (s : string) : bool :=
  match s with
  | EmptyString => true
  | String c' r => negb (Ascii.eqb c' c) && no_char c r
  end.

Lemma until_brace_app k rest :
  no_char "}" k = true → until_brace (k +:+ "}" +:+ rest) = Some (k, rest).
Proof.
  induction k as [|c k IH]; [done |]. simpl. intros [Hc Hk]%andb_true_iff.
  change (until_brace (String c (k +:+ "}" +:+ rest)) = Some (String c k, rest)).
  simpl. apply negb_true_iff in Hc. by rewrite Hc, (IH Hk).
Qed.

Lemma until_brace_len s k rest :
  until_brace s = Some (k, rest) → (len rest < len s)%nat.
Proof.
  revert k. induction s as [|c s IH]; intros k; simpl; [done |].
  destruct (Ascii.eqb c "}"); [intros [= _ <-]; unfold len; simpl; lia |].
  destruct (until_brace s) as [[k' r']|]; [|done]. intros [= _ <-].
  specialize (IH k' eq_refl). unfold len in *; simpl. lia.
Qed.

Lemma match_var_until s key rest :
  match_var s = Some (key, rest) →
  ∃ r, s = String "$" (String "{" r) ∧ until_brace r = Some (key, rest) ∧ key ≠ "".
Proof.
  destruct s as [|c1 [|c2 r]]; simpl; try done;
    destruct c1 as [[] [] [] [] [] [] [] []]; try done;
    destruct c2 as [[] [] [] [] [] [] [] []]; try done.
  destruct (until_brace r) as [[[|c k] rest']|] eqn:Hu; try done.
  intros [= <- <-]. by exists r.
Qed.

Lemma match_var_len s key rest : match_var s = Some (key, rest) → (len rest < len s)%nat.
Proof.
  intros (r & -> & Hu & _)%match_var_until. apply until_brace_len in Hu. unfold len in *; simpl. lia.
Qed.

Lemma expand_S n env c r :
  expand (S n) env (String c r) =
    match match_var (String c r) with
    | Some (key, rest) => default ("${" +:+ key +:+ "}") (env key) +:+ expand n env rest
    | None => String c (expand n env r)
    end.
Proof.
  cbn [expand]. destruct (match_var (String c r)) as [[key rest]|]; [|done].
  by destruct (env key).
Qed.

(** Fuel beyond the length of the string changes nothing. *)
Lemma expand_fuel env n m s :
  (len s ≤ n)%nat → (len s ≤ m)%nat → expand n env s = expand m env s.
Proof.
  revert m s. induction n as [|n IH]; intros m s Hn Hm.
  - destruct s; [|unfold len in Hn; simpl in Hn; lia]. by destruct m.
  - destruct s as [|c r]; [by destruct m |]. destruct m as [|m]; [unfold len in Hm; simpl in Hm; lia |].
    rewrite !expand_S. destruct (match_var (String c r)) as [[key rest]|] eqn:Hv.
    + apply match_var_len in Hv. rewrite (IH m rest) by lia. done.
    + f_equal. apply IH; unfold len in *; simpl in *; lia.
Qed.

Lemma match_var_no_dollar c r : Ascii.eqb c "$" = false → match_var (String c r) = None.
Proof.
  intros Hc. destruct (match_var (String c r)) as [[key rest]|] eqn:Hm; [|done].
  apply match_var_until in Hm as (? & [= -> _] & _). done.
Qed.

Lemma expand_cons_plain env c r :
  Ascii.eqb c "$" = false →
  expandEnvVars env (String c r) = String c (expandEnvVars env r).
Proof.
  intros Hc. unfold expandEnvVars. cbn [expand len String.length].
  by rewrite match_var_no_dollar.
Qed.

Lemma expand_var_head env key rest :
  key ≠ "" → no_char "}" key = true →
  expandEnvVars env ("${" +:+ key +:+ "}" +:+ rest) =
    default ("${" +:+ key +:+ "}") (env key) +:+ expandEnvVars env rest.
Proof.
  intros Hk Hn. unfold expandEnvVars.
  change (expand (S (S (len (key +:+ "}" +:+ rest)))) env
            (String "$" (String "{" (key +:+ "}" +:+ rest))) =
          default ("${" +:+ key +:+ "}") (env key) +:+ expand (len rest) env rest).
  rewrite expand_S. unfold match_var at 1. rewrite until_brace_app by done.
  destruct key as [|c k]; [done |].
  rewrite (expand_fuel env _ (len rest) rest); [|rewrite !len_app; unfold len; simpl; lia | lia].
  done.
Qed.

(** ** Lemmas on defaults *)

Lemma default_Z_idem x d : default_Z (default_Z x d) d = default_Z x d.
Proof. unfold default_Z. by repeat case_decide. Qed.

Lemma default_s_idem x d : default_s (default_s x d) d = default_s x d.
Proof. unfold default_s. by repeat case_decide. Qed.

Lemma default_f_idem x d : default_f (default_f x d) d = default_f x d.
Proof. unfold default_f. destruct (feqb x (f64 0)) eqn:E; [by destruct (feqb d (f64 0)) | by rewrite E]. Qed.

Create Rewrite HintDb config_defaults.
#[export] Hint Rewrite default_Z_idem default_s_idem default_f_idem : config_defaults.

Lemma default_idle_ttl_bound `{GoPlatform} rl : 10 * Minute ≤ default_idle_ttl rl.
Proof. unfold default_idle_ttl. case_match; [case_decide|]; lia. Qed.

(** After the defaults the janitor's durations are positive, whatever was set. *)
Lemma default_rate_limit_janitor `{GoPlatform} rl :
  0 < rl_IdleTTL (default_rate_limit rl) ∧ 0 < rl_CleanupInterval (default_rate_limit rl).
Proof.
  unfold default_rate_limit; simpl.
  repeat case_decide; simpl in *; split; try lia; try (unfold Minute, Second in *; lia);
    match goal with |- context [default_idle_ttl ?r] => pose proof (default_idle_ttl_bound r) end;
    unfold Minute, Second in *; lia.
Qed.

Lemma default_rate_limit_idem `{GoPlatform} rl :
  default_rate_limit (default_rate_limit rl) = default_rate_limit rl.
Proof.
  destruct (default_rate_limit_janitor rl) as [Ht Hc].
  assert (rl_RequestsPerSecond (default_rate_limit rl) =
    default_f (rl_RequestsPerSecond rl) (f64 100)) as Hr
    by (unfold default_rate_limit; simpl; by repeat case_decide).
  assert (rl_BurstSize (default_rate_limit rl) = default_Z (rl_BurstSize rl) 50) as Hb
    by (unfold default_rate_limit; simpl; by repeat case_decide).
  revert Ht Hc Hr Hb. generalize (default_rate_limit rl). intros [r b t c]; simpl.
  intros ?? -> ->. unfold default_rate_limit; simpl. autorewrite with config_defaults.
  destruct (decide (t ≤ 0)); [lia |]. simpl. by destruct (decide (c ≤ 0)); [lia |].
Qed.

Lemma default_circuit_breaker_idem cb :
  default_circuit_breaker (default_circuit_breaker cb) = default_circuit_breaker cb.
Proof.
  unfold default_circuit_breaker; simpl. destruct (cbc_Adaptive cb) eqn:Ha; simpl;
    rewrite ?Ha; by autorewrite with config_defaults.
Qed.

Lemma default_server_idem s : default_server (default_server s) = default_server s.
Proof.
  unfold default_server; simpl. destruct (tls_Enabled (s_TLS s)) eqn:Ht; simpl; rewrite ?Ht;
    simpl; by autorewrite with config_defaults.
Qed.

(** ** Properties *)

(** Applying the defaults twice changes nothing more; after them the idle
    time and the scan interval of the rate limiter are positive even where a
    negative one was configured, so the checks of [validate] on their sign
    never fire. *)
Theorem applyDefaults_idempotent `{GoPlatform} (cfg : Config) :
  applyDefaults (applyDefaults cfg) = applyDefaults cfg ∧
  0 < rl_IdleTTL (cfg_RateLimit (applyDefaults cfg)) ∧
  0 < rl_CleanupInterval (cfg_RateLimit (applyDefaults cfg)).
Proof.
  split; [|apply default_rate_limit_janitor].
  unfold applyDefaults; simpl.
  rewrite default_server_idem, default_rate_limit_idem, default_circuit_breaker_idem.
  unfold default_logging; simpl. autorewrite with config_defaults. f_equal.
  rewrite <-list_fmap_compose. apply list_fmap_ext. intros i r _. simpl.
  by autorewrite with config_defaults.
Qed.

(** Expansion replaces the first variable reference of a text by the value of
    the variable -- or leaves it as written when the variable is not set -- and
    goes on after it: a value is not expanded again.  A text without a dollar
    is unchanged. *)
Theorem expandEnvVars_spec (env : string → option string) (plain key rest : string) :
  no_char "$" plain = true →
  expandEnvVars env plain = plain ∧
  (key ≠ "" → no_char "}" key = true →
   expandEnvVars env (plain +:+ "${" +:+ key +:+ "}" +:+ rest) =
     plain +:+ default ("${" +:+ key +:+ "}") (env key) +:+ expandEnvVars env rest).
Proof.
  induction plain as [|c s IH]; intros Hp.
  - split; [done |]. intros. by apply expand_var_head.
  - simpl in Hp. apply andb_true_iff in Hp as [Hc%negb_true_iff Hp].
    destruct (IH Hp) as [IH1 IH2]. split.
    + by rewrite expand_cons_plain, IH1.
    + intros. rewrite !(string_cons_app c s), expand_cons_plain, IH2 by done. done.
Qed.

(** A millisecond setting up to 9223372036854 gives exactly that timeout, and
    a positive one; beyond that the 64-bit product wraps, and validation does
    not bound the setting: the very next value gives a negative timeout. *)
Theorem timeouts_in_range (r : RouteConfig) (s : ServerConfig) :
  (0 < r_TimeoutMs r ≤ 9223372036854 → route_Timeout r = r_TimeoutMs r * Millisecond) ∧
  (r_TimeoutMs r ≤ 0 → route_Timeout r = 30 * Second) ∧
  (r_TimeoutMs r = 9223372036855 → route_Timeout r < 0) ∧
  (0 < s_GlobalTimeoutMs s ≤ 9223372036854 → GlobalTimeout s = s_GlobalTimeoutMs s * Millisecond) ∧
  (s_GlobalTimeoutMs s = 9223372036855 → GlobalTimeout s < 0).
Proof.
  unfold route_Timeout, GlobalTimeout, Millisecond. split_and!; intros H.
  - rewrite decide_False, wrap64_id by int_solve. done.
  - by rewrite decide_True by lia.
  - rewrite H. by vm_compute.
  - rewrite decide_False, wrap64_id by int_solve. done.
  - rewrite H. by vm_compute.
Qed.

Lemma expandEnvVars_spec_witness :
  let env k := if bool_decide (k = "SECRET") then Some "a${B}" else None in
  expandEnvVars env ("s: " +:+ "${" +:+ "SECRET" +:+ "}" +:+ " ${NONE}") = "s: a${B} ${NONE}".
Proof.
  intros env. destruct (expandEnvVars_spec env "s: " "SECRET" " ${NONE}") as [_ H]; [done |].
  rewrite H by done. by vm_compute.
Defined.
