(* ===== verification/ConfigValidate.v ===== *)
(** * Validation and loading of a configuration (internal/config/config.go)

    [validate] is a sequence of checks, each returning its error; here a list of
    tests with their errors, of which the first that holds is the result. *)

From S2P Require Import Prelude GoFloat GoStrings GoNet Config.

(** What the gateway reads of a parsed URL. *)
Record URL := mkURL { u_Scheme : string; u_Host : string; u_Path : string }.

(** What the loader calls: YAML decoding into a zero [Config], a third-party
    package, and [url.Parse], whose treatment of unusual hosts differs between
    releases of Go. *)
Class ConfigLib := {
  yaml_Unmarshal : string → result Config string;
  url_Parse : string → result URL string
}.

Section validate.
Context `{GoPlatform, GoFmt, ConfigLib}.

Definition check : Type := bool * string.

Definition server_checks (cfg : Config) : list check :=
  [(bool_decide (s_Port (cfg_Server cfg) < 1 ∨ 65535 < s_Port (cfg_Server cfg)),
    "server.port must be between 1 and 65535, got " +:+ Itoa (s_Port (cfg_Server cfg)));
   (bool_decide (s_MaxBodyBytes (cfg_Server cfg) < 0), "server.max_body_bytes must be positive")].

Definition rate_limit_checks (cfg : Config) : list check :=
  [(fleb (rl_RequestsPerSecond (cfg_RateLimit cfg)) (f64 0),
    "rate_limit.requests_per_second must be positive");
   (bool_decide (rl_BurstSize (cfg_RateLimit cfg) ≤ 0), "rate_limit.burst_size must be positive");
   (bool_decide (rl_IdleTTL (cfg_RateLimit cfg) < 0), "rate_limit.idle_ttl must be non-negative");
   (bool_decide (rl_CleanupInterval (cfg_RateLimit cfg) < 0),
    "rate_limit.cleanup_interval must be non-negative")].

Definition auth_checks (cfg : Config) : list check :=
  let au := cfg_Auth cfg in
  [(au_Enabled au && bool_decide (au_JWTSecret au = ""),
    "auth.jwt_secret is required when auth is enabled");
   (au_Enabled au && bool_decide (au_Issuer au = ""),
    "auth.issuer is required when auth is enabled");
   (au_Enabled au && bool_decide (au_Audience au = ""),
    "auth.audience is required when auth is enabled")].

Definition circuit_breaker_checks (cfg : Config) : list check :=
  let cb := cfg_CircuitBreaker cfg in
  [(bool_decide (cbc_WindowSize cb < 1), "circuit_breaker.window_size must be positive");
   (fleb (cbc_FailureThreshold cb) (f64 0) || fltb (f64 1) (cbc_FailureThreshold cb),
    "circuit_breaker.failure_threshold must be between 0 (exclusive) and 1 (inclusive)");
   (bool_decide (cbc_ResetTimeout cb ≤ 0), "circuit_breaker.reset_timeout must be positive");
   (bool_decide (cbc_HalfOpenMax cb < 1), "circuit_breaker.half_open_max must be positive");
   (bool_decide (cbc_SlowThreshold cb < 0), "circuit_breaker.slow_threshold must be non-negative");
   (bool_decide (cbc_MaxConcurrent cb < 0), "circuit_breaker.max_concurrent must be non-negative");
   (cbc_Adaptive cb && (fleb (cbc_MinThreshold cb) (f64 0) ||
                        fleb (cbc_FailureThreshold cb) (cbc_MinThreshold cb)),
    "circuit_breaker.min_threshold must be between 0 and failure_threshold");
   (cbc_Adaptive cb && bool_decide (cbc_LatencyCeiling cb ≤ 0),
    "circuit_breaker.latency_ceiling must be positive when adaptive is enabled")].

Definition tls_checks (cfg : Config) : list check :=
  let tls := s_TLS (cfg_Server cfg) in
  [(bool_decide (s_GlobalTimeoutMs (cfg_Server cfg) < 0),
    "server.global_timeout_ms must be non-negative");
   (tls_Enabled tls && bool_decide (tls_CertFile tls = ""),
    "server.tls.cert_file is required when TLS is enabled");
   (tls_Enabled tls && bool_decide (tls_KeyFile tls = ""),
    "server.tls.key_file is required when TLS is enabled");
   (tls_Enabled tls && bool_decide (tls_MinVersion tls ≠ "1.2" ∧ tls_MinVersion tls ≠ "1.3"),
    "server.tls.min_version must be " +:+ dquoted "1.2" +:+ " or " +:+ dquoted "1.3" +:+
    ", got " +:+ fmt_quote (tls_MinVersion tls))].

Definition logging_checks (cfg : Config) : list check :=
  let l := cfg_Logging cfg in
  [(bool_decide (l_Output l ≠ "stdout" ∧ l_Output l ≠ "stderr" ∧ l_MaxSizeMB l < 1),
    "logging.max_size_mb must be positive when output is a file path");
   (l_BodyLogging l && bool_decide (l_MaxBodyLogBytes l < 1),
    "logging.max_body_log_bytes must be positive when body_logging is enabled")].

(** The loop over the allowlist. *)
Definition cidr_checks (cidrs : list string) : list check :=
  imap (λ i cidr,
    (negb (is_nil (ParseCIDR_error cidr)),
     "admin.ip_allowlist[" +:+ Itoa (Z.of_nat i) +:+ "]: invalid CIDR " +:+ fmt_quote cidr +:+
     ": " +:+ default "" (ParseCIDR_error cidr))) cidrs.

Definition admin_checks (cfg : Config) : list check :=
  if adm_Enabled (cfg_Admin cfg) then
    (is_nil_list (adm_IPAllowlist (cfg_Admin cfg)),
     "admin.ip_allowlist is required when admin is enabled") ::
    cidr_checks (adm_IPAllowlist (cfg_Admin cfg))
  else [].

Definition url_error (p : result URL string) : option string :=
  match p with Ok _ => None | Err e => Some e end.

Definition url_of (p : result URL string) : URL :=
  match p with Ok u => u | Err _ => mkURL "" "" "" end.

(** The checks of one route, given the prefixes [seen] before it. *)
Definition route_checks (i : nat) (seen : gset string) (r : RouteConfig) : list check :=
  let at_ s := "routes[" +:+ Itoa (Z.of_nat i) +:+ "]" +:+ s in
  let parsed := url_Parse (r_Backend r) in
  [(bool_decide (r_PathPrefix r = ""), at_ ".path_prefix is required");
   (negb (HasPrefix (r_PathPrefix r) "/"), at_ ".path_prefix must start with /");
   (bool_decide (r_Backend r = ""), at_ ".backend is required");
   (negb (is_nil (url_error parsed)),
    at_ ".backend: invalid URL: " +:+ default "" (url_error parsed));
   (bool_decide (u_Scheme (url_of parsed) ≠ "http" ∧ u_Scheme (url_of parsed) ≠ "https"),
    at_ ".backend: scheme must be http or https, got " +:+ fmt_quote (u_Scheme (url_of parsed)));
   (bool_decide (u_Host (url_of parsed) = ""), at_ ".backend: host is required");
   (bool_decide (r_PathPrefix r ∈ seen), "duplicate route path_prefix: " +:+ r_PathPrefix r);
   (bool_decide (r_LogLevel r ∉ ValidLogLevels),
    at_ ".log_level must be one of debug, info, warn, error, none; got " +:+
    fmt_quote (r_LogLevel r));
   (bool_decide (r_FallbackStatus r ≠ 0 ∧ (r_FallbackStatus r < 200 ∨ 599 < r_FallbackStatus r)),
    at_ ".fallback_status must be between 200 and 599")] ++
  match r_ConnectionPool r with
  | None => []
  | Some cp =>
      [(bool_decide (cp_MaxIdleConns cp < 0),
        at_ ".connection_pool.max_idle_conns must be non-negative");
       (bool_decide (cp_MaxIdlePerHost cp < 0),
        at_ ".connection_pool.max_idle_per_host must be non-negative");
       (bool_decide (cp_IdleTimeout cp < 0),
        at_ ".connection_pool.idle_timeout must be non-negative")]
  end.

Fixpoint routes_checks (i : nat) (seen : gset string) (rs : list RouteConfig) : list check :=
  match rs with
  | [] => []
  | r :: rs => route_checks i seen r ++ routes_checks (S i) ({[r_PathPrefix r]} ∪ seen) rs
  end.

(** [validate(cfg)]: the error, if any. *)
Definition validate (cfg : Config) : option string :=
  first_err
    (server_checks cfg ++ rate_limit_checks cfg ++ auth_checks cfg ++
     circuit_breaker_checks cfg ++ tls_checks cfg ++ logging_checks cfg ++ admin_checks cfg ++
     [(is_nil_list (cfg_Routes cfg), "at least one route must be configured")] ++
     routes_checks 0 ∅ (cfg_Routes cfg)).

Definition collectWarnings (cfg : Config) : list string :=
  if au_Enabled (cfg_Auth cfg) && Contains (au_JWTSecret (cfg_Auth cfg)) "${" then
    ["auth.jwt_secret contains unresolved environment variable"]
  else [].

(** [load(data)]; [lookup_env] is the process environment. *)
Definition load (lookup_env : string → option string) (data : string) : result Config string :=
  match yaml_Unmarshal (expandEnvVars lookup_env data) with
  | Err e => Err ("parsing config: " +:+ e)
  | Ok cfg =>
      let cfg := applyDefaults cfg in
      match validate cfg with
      | Some e => Err ("validating config: " +:+ e)
      | None => Ok (cfg <| cfg_Warnings := collectWarnings cfg |>)
      end
  end.

(** [Load(path)]; [ReadFile] is [os.ReadFile]. *)
Definition Load (lookup_env : string → option string) (ReadFile : string → result string string)
    (path : string) : result Config string :=
  match ReadFile path with
  | Err e => Err ("reading config file: " +:+ e)
  | Ok data => load lookup_env data
  end.

(** [LoadFromBytes(data)] *)
Definition LoadFromBytes (lookup_env : string → option string) (data : string) : result Config string :=
  load lookup_env data.

(** ** What a valid configuration is *)

Definition valid_server (s : ServerConfig) : Prop :=
  1 ≤ s_Port s ≤ 65535 ∧ 0 ≤ s_MaxBodyBytes s ∧ 0 ≤ s_GlobalTimeoutMs s ∧
  (tls_Enabled (s_TLS s) = true →
     tls_CertFile (s_TLS s) ≠ "" ∧ tls_KeyFile (s_TLS s) ≠ "" ∧
     (tls_MinVersion (s_TLS s) = "1.2" ∨ tls_MinVersion (s_TLS s) = "1.3")).

(** A number or NaN: the comparisons of the code do not exclude the latter. *)
Definition above_zero (x : float64) : Prop := x = f64_nan ∨ fltb (f64 0) x = true.

Definition valid_rate_limit (rl : RateLimitConfig) : Prop :=
  above_zero (rl_RequestsPerSecond rl) ∧ 0 < rl_BurstSize rl ∧ 0 ≤ rl_IdleTTL rl ∧
  0 ≤ rl_CleanupInterval rl.

Definition valid_auth (au : AuthConfig) : Prop :=
  au_Enabled au = true → au_JWTSecret au ≠ "" ∧ au_Issuer au ≠ "" ∧ au_Audience au ≠ "".

Definition valid_circuit_breaker (cb : CircuitBreakerConfig) : Prop :=
  1 ≤ cbc_WindowSize cb ∧
  (cbc_FailureThreshold cb = f64_nan ∨
   fltb (f64 0) (cbc_FailureThreshold cb) = true ∧ fleb (cbc_FailureThreshold cb) (f64 1) = true) ∧
  0 < cbc_ResetTimeout cb ∧ 1 ≤ cbc_HalfOpenMax cb ∧ 0 ≤ cbc_SlowThreshold cb ∧
  0 ≤ cbc_MaxConcurrent cb ∧
  (cbc_Adaptive cb = true →
     above_zero (cbc_MinThreshold cb) ∧
     (cbc_MinThreshold cb = f64_nan ∨ cbc_FailureThreshold cb = f64_nan ∨
      fltb (cbc_MinThreshold cb) (cbc_FailureThreshold cb) = true) ∧
     0 < cbc_LatencyCeiling cb).

Definition valid_logging (l : LoggingConfig) : Prop :=
  (l_Output l = "stdout" ∨ l_Output l = "stderr" ∨ 1 ≤ l_MaxSizeMB l) ∧
  (l_BodyLogging l = true → 1 ≤ l_MaxBodyLogBytes l).

Definition valid_admin (a : AdminConfig) : Prop :=
  adm_Enabled a = true →
  adm_IPAllowlist a ≠ [] ∧ Forall (λ c, ParseCIDR_error c = None) (adm_IPAllowlist a).

Definition valid_pool (cp : ConnectionPoolConfig) : Prop :=
  0 ≤ cp_MaxIdleConns cp ∧ 0 ≤ cp_MaxIdlePerHost cp ∧ 0 ≤ cp_IdleTimeout cp.

Definition valid_route (r : RouteConfig) : Prop :=
  r_PathPrefix r ≠ "" ∧ HasPrefix (r_PathPrefix r) "/" = true ∧ r_Backend r ≠ "" ∧
  (∃ u, url_Parse (r_Backend r) = Ok u ∧ (u_Scheme u = "http" ∨ u_Scheme u = "https") ∧
     u_Host u ≠ "") ∧
  r_LogLevel r ∈ ValidLogLevels ∧
  (r_FallbackStatus r = 0 ∨ 200 ≤ r_FallbackStatus r ≤ 599) ∧
  (∀ cp, r_ConnectionPool r = Some cp → valid_pool cp).

Definition valid_config (cfg : Config) : Prop :=
  valid_server (cfg_Server cfg) ∧ valid_rate_limit (cfg_RateLimit cfg) ∧
  valid_auth (cfg_Auth cfg) ∧ valid_circuit_breaker (cfg_CircuitBreaker cfg) ∧
  valid_logging (cfg_Logging cfg) ∧ valid_admin (cfg_Admin cfg) ∧
  cfg_Routes cfg ≠ [] ∧ Forall valid_route (cfg_Routes cfg) ∧
  NoDup (r_PathPrefix <$> cfg_Routes cfg).

(** ** Lemmas *)

(** A group of checks passes. *)
Definition passed (cs : list check) : Prop := Forall (λ c : check, c.1 = false) cs.

Lemma passed_cons b e cs : passed ((b, e) :: cs) ↔ b = false ∧ passed cs.
Proof. apply Forall_cons_iff. Qed.

Lemma passed_nil : passed [] ↔ True.
Proof. by split; [|constructor]. Qed.

Lemma passed_app cs cs' : passed (cs ++ cs') ↔ passed cs ∧ passed cs'.
Proof. apply Forall_app. Qed.

Lemma guarded (b : bool) (P : Prop) `{Decision P} :
  b && bool_decide P = false ↔ (b = true → ¬ P).
Proof. destruct b; simpl; rewrite ?bool_decide_eq_false; [tauto | by split]. Qed.

Lemma not_le_zero x : fleb x (f64 0) = false ↔ above_zero x.
Proof.
  unfold above_zero. destruct (decide (x = f64_nan)) as [->|Hn]; [by split; [left |]|].
  rewrite (fltb_total (f64 0) x) by done. destruct (fleb x (f64 0)); simpl; intuition done.
Qed.

Lemma neither (a b c : string) : ¬ (a ≠ b ∧ a ≠ c) ↔ a = b ∨ a = c.
Proof. destruct (decide (a = b)), (decide (a = c)); tauto. Qed.

Ltac open_checks :=
  rewrite ?passed_cons, ?passed_nil, ?guarded, ?bool_decide_eq_false.

Lemma server_checks_valid cfg :
  passed (server_checks cfg) ∧ passed (tls_checks cfg) ↔ valid_server (cfg_Server cfg).
Proof.
  unfold server_checks, tls_checks, valid_server. open_checks.
  rewrite neither. destruct (tls_Enabled _); intuition lia.
Qed.

Lemma rate_limit_checks_valid cfg :
  passed (rate_limit_checks cfg) ↔ valid_rate_limit (cfg_RateLimit cfg).
Proof.
  unfold rate_limit_checks, valid_rate_limit. open_checks. rewrite not_le_zero. intuition lia.
Qed.

Lemma auth_checks_valid cfg : passed (auth_checks cfg) ↔ valid_auth (cfg_Auth cfg).
Proof. unfold auth_checks, valid_auth. open_checks. intuition. Qed.

Lemma circuit_breaker_checks_valid cfg :
  passed (circuit_breaker_checks cfg) ↔ valid_circuit_breaker (cfg_CircuitBreaker cfg).
Proof.
  unfold circuit_breaker_checks, valid_circuit_breaker. generalize (cfg_CircuitBreaker cfg).
  intros cb. open_checks.
  assert (fleb (cbc_FailureThreshold cb) (f64 0) || fltb (f64 1) (cbc_FailureThreshold cb) = false
    ↔ (cbc_FailureThreshold cb = f64_nan ∨ fltb (f64 0) (cbc_FailureThreshold cb) = true ∧
       fleb (cbc_FailureThreshold cb) (f64 1) = true)) as ->.
  { rewrite orb_false_iff, not_le_zero. unfold above_zero.
    destruct (decide (cbc_FailureThreshold cb = f64_nan)) as [->|Hn]; [intuition done|].
    rewrite (fltb_total (f64 1)) by done.
    destruct (fleb (cbc_FailureThreshold cb) (f64 1)); simpl; intuition done. }
  assert (cbc_Adaptive cb && (fleb (cbc_MinThreshold cb) (f64 0) ||
      fleb (cbc_FailureThreshold cb) (cbc_MinThreshold cb)) = false ↔
    (cbc_Adaptive cb = true → above_zero (cbc_MinThreshold cb) ∧
     (cbc_MinThreshold cb = f64_nan ∨ cbc_FailureThreshold cb = f64_nan ∨
      fltb (cbc_MinThreshold cb) (cbc_FailureThreshold cb) = true))) as ->; [|intuition lia].
  destruct (cbc_Adaptive cb); simpl; [|intuition done].
  rewrite orb_false_iff, not_le_zero.
  destruct (decide (cbc_MinThreshold cb = f64_nan)) as [->|Hm];
    [rewrite fleb_nan_r; intuition|].
  destruct (decide (cbc_FailureThreshold cb = f64_nan)) as [->|Hf]; [intuition|].
  rewrite (fltb_total (cbc_MinThreshold cb)) by done.
  destruct (fleb (cbc_FailureThreshold cb) (cbc_MinThreshold cb)); simpl; intuition done.
Qed.

Lemma logging_checks_valid cfg : passed (logging_checks cfg) ↔ valid_logging (cfg_Logging cfg).
Proof.
  unfold logging_checks, valid_logging. open_checks.
  destruct (decide (l_Output (cfg_Logging cfg) = "stdout"));
    destruct (decide (l_Output (cfg_Logging cfg) = "stderr")); intuition lia.
Qed.

Lemma cidr_checks_valid cs :
  passed (cidr_checks cs) ↔ Forall (λ c, ParseCIDR_error c = None) cs.
Proof.
  unfold passed, cidr_checks. rewrite !Forall_lookup. split.
  - intros Hp i c Hi. specialize (Hp i). rewrite list_lookup_imap, Hi in Hp.
    specialize (Hp _ eq_refl). simpl in Hp. by destruct (ParseCIDR_error c).
  - intros Hf i [b e] Hi. rewrite list_lookup_imap in Hi.
    apply fmap_Some in Hi as (c & Hc & [= -> ->]). by rewrite (Hf i c Hc).
Qed.

Lemma admin_checks_valid cfg : passed (admin_checks cfg) ↔ valid_admin (cfg_Admin cfg).
Proof.
  unfold admin_checks, valid_admin. destruct (adm_Enabled _); [|by rewrite passed_nil].
  rewrite passed_cons, cidr_checks_valid.
  destruct (adm_IPAllowlist (cfg_Admin cfg)); simpl; intuition done.
Qed.

Lemma route_checks_valid i seen r :
  passed (route_checks i seen r) ↔ valid_route r ∧ r_PathPrefix r ∉ seen.
Proof.
  unfold route_checks, valid_route. rewrite passed_app. open_checks.
  rewrite !negb_false_iff.
  assert (passed match r_ConnectionPool r with None => [] | Some cp => _ end ↔
    ∀ cp, r_ConnectionPool r = Some cp → valid_pool cp) as ->.
  { destruct (r_ConnectionPool r) as [cp|]; [|by rewrite passed_nil].
    open_checks. unfold valid_pool. split; [intros ? ? [= <-]; intuition lia |].
    intros Hv. destruct (Hv cp eq_refl) as (? & ? & ?). intuition lia. }
  rewrite neither.
  assert (¬ (r_LogLevel r ∉ ValidLogLevels) ↔ r_LogLevel r ∈ ValidLogLevels) as ->
    by (destruct (decide (r_LogLevel r ∈ ValidLogLevels)); tauto).
  assert (¬ (r_FallbackStatus r ≠ 0 ∧ (r_FallbackStatus r < 200 ∨ 599 < r_FallbackStatus r)) ↔
    r_FallbackStatus r = 0 ∨ 200 ≤ r_FallbackStatus r ≤ 599) as -> by lia.
  destruct (url_Parse (r_Backend r)) as [u|e]; simpl.
  - assert ((∃ u', Ok (E := string) u = Ok u' ∧ (u_Scheme u' = "http" ∨ u_Scheme u' = "https") ∧
      u_Host u' ≠ "") ↔ (u_Scheme u = "http" ∨ u_Scheme u = "https") ∧ u_Host u ≠ "") as ->
      by (split; [by intros (? & [= <-] & ?) | by intros; exists u]).
    assert (true = true ↔ True) as -> by done. tauto.
  - split; [by intros ((_ & _ & _ & ? & _) & _) | by intros ((_ & _ & _ & (? & ? & _) & _) & _)].
Qed.

Lemma routes_checks_valid i seen rs :
  passed (routes_checks i seen rs) ↔
    Forall valid_route rs ∧ NoDup (r_PathPrefix <$> rs) ∧
    Forall (λ p, p ∉ seen) (r_PathPrefix <$> rs).
Proof.
  revert i seen. induction rs as [|r rs IH]; intros i seen; cbn [routes_checks fmap list_fmap].
  { rewrite passed_nil. split; [by repeat constructor | done]. }
  rewrite passed_app, route_checks_valid, IH, !Forall_cons_iff, NoDup_cons.
  assert (Forall (λ p, p ∉ ({[r_PathPrefix r]} ∪ seen)) (r_PathPrefix <$> rs) ↔
    (r_PathPrefix r ∉ (r_PathPrefix <$> rs)) ∧ Forall (λ p, p ∉ seen) (r_PathPrefix <$> rs)) as ->;
    [|tauto].
  rewrite !Forall_forall. set_solver.
Qed.

(** ** Properties *)

(** C26. [validate] accepts a configuration exactly when it is valid in the
    declarative sense: every setting within its documented range, every route
    well formed, and no path prefix used twice. NaN settings pass. *)
Theorem validate_spec (cfg : Config) : validate cfg = None ↔ valid_config cfg.
Proof.
  unfold validate. rewrite first_err_None.
  change (passed (server_checks cfg ++ rate_limit_checks cfg ++ auth_checks cfg ++
     circuit_breaker_checks cfg ++ tls_checks cfg ++ logging_checks cfg ++ admin_checks cfg ++
     [(is_nil_list (cfg_Routes cfg), "at least one route must be configured")] ++
     routes_checks 0 ∅ (cfg_Routes cfg)) ↔ valid_config cfg).
  rewrite !passed_app, passed_cons, passed_nil, rate_limit_checks_valid, auth_checks_valid,
    circuit_breaker_checks_valid, logging_checks_valid, admin_checks_valid, routes_checks_valid.
  unfold valid_config. rewrite <-server_checks_valid.
  assert (is_nil_list (cfg_Routes cfg) = false ↔ cfg_Routes cfg ≠ []) as ->
    by (by destruct (cfg_Routes cfg)).
  assert (Forall (λ p, p ∉ (∅ : gset string)) (r_PathPrefix <$> cfg_Routes cfg) ↔ True) as ->
    by (rewrite Forall_forall; set_solver).
  tauto.
Qed.

(** [load] succeeds exactly when the expanded text decodes and the result,
    with the defaults applied, is valid; it then returns that configuration with
    its warnings. *)
Theorem load_spec (env : string → option string) (data : string) (cfg : Config) :
  load env data = Ok cfg ↔
    ∃ raw, yaml_Unmarshal (expandEnvVars env data) = Ok raw ∧
      valid_config (applyDefaults raw) ∧
      cfg = (applyDefaults raw) <| cfg_Warnings := collectWarnings (applyDefaults raw) |>.
Proof.
  unfold load. destruct (yaml_Unmarshal (expandEnvVars env data)) as [raw|e].
  - destruct (validate (applyDefaults raw)) as [e|] eqn:Hv.
    + split; [done |]. intros (raw' & [= <-] & Hok%validate_spec & _). congruence.
    + apply validate_spec in Hv. split.
      * intros [= <-]. by exists raw.
      * intros (raw' & [= <-] & _ & ->). done.
  - split; [done |]. by intros (? & ? & _).
Qed.
End validate.

(** ** Examples *)

Definition demo_route : RouteConfig :=
  mkRoute "/api" "http://users:3000" false [] false 0 0 ∅ None None 0 "" "".

Definition empty_config (rs : list RouteConfig) : Config :=
  mkConfig (mkServer 0 0 0 0 [] 0 0 (mkTLS false "" "" "")) (mkMetricsConfig None "")
    (mkLogging "" 0 0 0 false 0) (mkRateLimit (f64 0) 0 0 0) (mkAuth false "" "" "" [])
    (mkCircuitBreaker 0 (f64 0) 0 0 0 0 false 0 (f64 0)) (mkAdmin false []) rs [].

(** A library that decodes to a given configuration and parses every backend. *)
Definition demo_lib (cfg : Config) : ConfigLib := {|
  yaml_Unmarshal _ := Ok cfg;
  url_Parse _ := Ok (mkURL "http" "users:3000" "")
|}.

Definition demo_fmt : GoFmt := {|
  fmt_float _ := "0.5"; fmt_float4 _ := "0.5000"; fmt_quote s := dquoted s
|}.

(** The defaults make a configuration of one route valid; without a route, or
    with the same prefix twice, it is not; a NaN threshold is accepted. *)
Example validate_examples :
  let check cfg := let fmt := demo_fmt in let lib := demo_lib cfg in
    validate (H0 := fmt) (H1 := lib) (applyDefaults cfg) in
  check (empty_config [demo_route]) = None ∧
  check (empty_config []) = Some "at least one route must be configured" ∧
  check (empty_config [demo_route; demo_route]) = Some "duplicate route path_prefix: /api" ∧
  check ((empty_config [demo_route]) <| cfg_CircuitBreaker :=
    mkCircuitBreaker 10 f64_nan Second 1 0 0 false 0 (f64 0) |>) = None.
Proof. by vm_compute. Qed.
