(* ===== verification/Reload.v ===== *)
(** * Hot reload of the configuration (internal/config/reload.go)

    A reload loads the file ([ConfigValidate.load] is what [Load] does with its
    text), swaps the new configuration in, and offers it to the observers in
    order; the first that refuses or panics makes it restore the old one.  The
    observers act on the rest of the gateway, here a state [S]; each call is one
    step.  Reloads may be triggered concurrently by the file watcher and by a
    signal: [reload_step] interleaves their critical sections. *)

From stdpp Require Import relations sorting.
From S2P Require Import Prelude GoFloat GoStrings Metrics Config ConfigValidate.

(** How a call of [OnReload] ends. *)
Inductive ObserverResult := Accepted | Refused (err : string) | ObserverPanic (detail : string).

#[export] Instance ObserverResult_eq_dec : EqDecision ObserverResult.
Proof. solve_decision. Defined.

Section reload.
Context {S : Type}.

Definition Observer : Type := Config → Config → S → ObserverResult * S.

Record Reloader := mkReloader {
  r_current : Config;
  r_path : string;
  r_legacyCallbacks : list (Config → S → S);
  r_observers : list Observer;
  r_rollbacks : bool                     (** a recorder is set *)
}.

#[export] Instance Reloader_eta : Eta Reloader := λ r,
  mkReloader (r_current r) (r_path r) (r_legacyCallbacks r) (r_observers r) (r_rollbacks r).

Definition NewReloader (path : string) (initial : Config) : Reloader :=
  mkReloader initial path [] [] false.

Definition SetRollbackRecorder (r : Reloader) : Reloader := r <| r_rollbacks := true |>.

Definition SetPath (path : string) (r : Reloader) : Reloader := r <| r_path := path |>.

Definition OnReload (fn : Config → S → S) (r : Reloader) : Reloader :=
  r <| r_legacyCallbacks := r_legacyCallbacks r ++ [fn] |>.

Definition RegisterObserver (obs : Observer) (r : Reloader) : Reloader :=
  r <| r_observers := r_observers r ++ [obs] |>.

(** [r.Current()] *)
Definition Current (r : Reloader) : Config := r_current r.

(** [invokeObserver]: the reason and detail of a refusal. *)
Definition invokeObserver (obs : Observer) (old new : Config) (s : S)
    : option (string * string) * S :=
  match obs old new s with
  | (Accepted, s) => (None, s)
  | (Refused err, s) => (Some ("observer_error", err), s)
  | (ObserverPanic detail, s) => (Some ("observer_panic", detail), s)
  end.

(** The loop over the observers: the reason of the first refusal, if any. *)
Fixpoint run_observers (obs : list Observer) (old new : Config) (s : S) : option string * S :=
  match obs with
  | [] => (None, s)
  | o :: obs =>
      let '(refusal, s) := invokeObserver o old new s in
      match refusal with
      | Some (reason, _) => (Some reason, s)
      | None => run_observers obs old new s
      end
  end.

(** What a reload logs of the changes, before it asks the observers. *)
Inductive ConfigChange :=
| RateLimitChanged (old_rps new_rps : float64) (old_burst new_burst : Z)
| RouteCountChanged (old new : nat)
| AuthEnabledChanged (old new : bool).

(** [r.logChanges(old, new)]; the comparison of floats is Go's, NaN differs from
    itself. *)
Definition logChanges (old new : Config) : list ConfigChange :=
  let rl := cfg_RateLimit old in
  let rl' := cfg_RateLimit new in
  (if negb (feqb (rl_RequestsPerSecond rl) (rl_RequestsPerSecond rl')) ||
      negb (bool_decide (rl_BurstSize rl = rl_BurstSize rl'))
   then [RateLimitChanged (rl_RequestsPerSecond rl) (rl_RequestsPerSecond rl')
           (rl_BurstSize rl) (rl_BurstSize rl')] else []) ++
  (if decide (length (cfg_Routes old) ≠ length (cfg_Routes new))
   then [RouteCountChanged (length (cfg_Routes old)) (length (cfg_Routes new))] else []) ++
  (if decide (au_Enabled (cfg_Auth old) ≠ au_Enabled (cfg_Auth new))
   then [AuthEnabledChanged (au_Enabled (cfg_Auth old)) (au_Enabled (cfg_Auth new))] else []).

(** [r.Reload()], given what [Load(r.path)] returns. *)
Definition Reload (loaded : result Config string) (r : Reloader) (s : S)
    : bool * Reloader * S * list MetricEvent :=
  match loaded with
  | Err _ => (false, r, s, [])
  | Ok newCfg =>
      let old := r_current r in
      let r := r <| r_current := newCfg |> in
      let '(refused, s) := run_observers (r_observers r) old newCfg s in
      match refused with
      | Some reason =>
          (false, r <| r_current := old |>, s,
           if r_rollbacks r then IncRollback reason else [])
      | None => (true, r, foldl (λ s cb, cb newCfg s) s (r_legacyCallbacks r), [])
      end
  end.

(** ** The file watcher *)

Definition debounce_delay : Duration := 300 * Millisecond.

(** [watchLoop]: the pending timer and the reloads started so far; an event that
    wants a reload stops the pending timer unless it has fired. *)
Definition watch_event (st : option Time * list Time) (t : Time) : option Time * list Time :=
  let '(pending, fired) := st in
  (Some (t + debounce_delay),
   match pending with
   | Some due => if decide (due ≤ t) then fired ++ [due] else fired
   | None => fired
   end).

(** The reloads started by events at the given times, and by the time [stop] at
    which the watcher is stopped. *)
Definition watch_loop (events : list Time) (stop : Time) : list Time :=
  let '(pending, fired) := foldl watch_event (None, []) events in
  match pending with
  | Some due => if decide (due ≤ stop) then fired ++ [due] else fired
  | None => fired
  end.

(** ** Concurrent reloads

    A reload under way: still to swap, with the old configuration it saw and the
    observers still to ask, or finished with its result. *)
Inductive ReloadPc :=
| RSwap (newCfg : Config)
| RObserve (old newCfg : Config) (rest : list Observer)
| RDone (ok : bool).

Record ReloadWorld := mkReloadWorld {
  rw_reloader : Reloader; rw_state : S; rw_reloads : gmap nat ReloadPc
}.

Definition reload_move (r : Reloader) (s : S) (pc : ReloadPc) : Reloader * S * ReloadPc :=
  match pc with
  | RSwap newCfg =>
      (r <| r_current := newCfg |>, s, RObserve (r_current r) newCfg (r_observers r))
  | RObserve old newCfg (o :: rest) =>
      let '(refusal, s) := invokeObserver o old newCfg s in
      match refusal with
      | Some _ => (r <| r_current := old |>, s, RDone false)
      | None => (r, s, RObserve old newCfg rest)
      end
  | RObserve old newCfg [] =>
      (r, foldl (λ s cb, cb newCfg s) s (r_legacyCallbacks r), RDone true)
  | RDone ok => (r, s, RDone ok)
  end.

(** A reload starts with a configuration that loaded ([valid]); any reload moves. *)
Inductive reload_step (valid : Config → Prop) : ReloadWorld → ReloadWorld → Prop :=
| ReloadStart w i cfg :
    rw_reloads w !! i = None → valid cfg →
    reload_step valid w
      (mkReloadWorld (rw_reloader w) (rw_state w) (<[i := RSwap cfg]> (rw_reloads w)))
| ReloadMove w i pc r s pc' :
    rw_reloads w !! i = Some pc → reload_move (rw_reloader w) (rw_state w) pc = (r, s, pc') →
    reload_step valid w (mkReloadWorld r s (<[i := pc']> (rw_reloads w))).
End reload.
Arguments Reloader _ : clear implicits.
Arguments Observer _ : clear implicits.
Arguments ReloadWorld _ : clear implicits.

(** ** Sequential reloads *)

Section laws.
Context {S : Type}.

(** The observers accept in turn, taking [s] to [s']. *)
Fixpoint accept_all (obs : list (Observer S)) (old new : Config) (s s' : S) : Prop :=
  match obs with
  | [] => s' = s
  | o :: obs => ∃ s1, o old new s = (Accepted, s1) ∧ accept_all obs old new s1 s'
  end.

Definition refusal_reason (res : ObserverResult) : string :=
  match res with
  | Accepted => "" | Refused _ => "observer_error" | ObserverPanic _ => "observer_panic"
  end.

Lemma run_observers_accept (obs : list (Observer S)) old new s s' :
  run_observers obs old new s = (None, s') ↔ accept_all obs old new s s'.
Proof.
  revert s. induction obs as [|o obs IH]; intros s; simpl; [split; congruence |].
  unfold invokeObserver. destruct (o old new s) as [[|e|d] s1]; [|split; [done | by intros (? & ? & _)]..].
  rewrite IH. split; [intros Ha; by exists s1 | by intros (s2 & [= <-] & Ha)].
Qed.

Lemma run_observers_refuse (obs : list (Observer S)) old new s reason s' :
  run_observers obs old new s = (Some reason, s') →
  ∃ before o after s1, obs = before ++ o :: after ∧ accept_all before old new s s1 ∧
    (o old new s1).1 ≠ Accepted ∧ refusal_reason (o old new s1).1 = reason ∧
    s' = (o old new s1).2.
Proof.
  revert s. induction obs as [|o obs IH]; intros s; simpl; [done |].
  unfold invokeObserver. destruct (o old new s) as [res s1] eqn:Ho. destruct res as [|e|d].
  - intros Hr. destruct (IH s1 Hr) as (before & o' & after & s2 & -> & Ha & H1 & H2 & ->).
    exists (o :: before), o', after, s2. split_and!; try done. by exists s1.
  - intros [= <- <-]. exists [], o, obs, s. by rewrite Ho.
  - intros [= <- <-]. exists [], o, obs, s. by rewrite Ho.
Qed.

(** C20. A reload that no other overlaps is all or nothing for the configuration: it
    succeeds exactly when the file loads and every observer accepts, and then the new
    configuration is current and the legacy callbacks have run; when the file does not
    load nothing changes and nothing is counted; when an observer refuses or panics the
    old configuration is current again, no later observer and no callback has been
    called, and a rollback is counted with its reason, if a recorder is set. What
    earlier observers did is not undone. *)
Theorem Reload_transactional (loaded : result Config string) (r : Reloader S) (s : S)
    (ok : bool) (r' : Reloader S) (s' : S) (evs : list MetricEvent) :
  Reload loaded r s = (ok, r', s', evs) →
  (ok = true ↔ ∃ new s1, loaded = Ok new ∧ accept_all (r_observers r) (r_current r) new s s1) ∧
  match loaded with
  | Err _ => ok = false ∧ r' = r ∧ s' = s ∧ evs = []
  | Ok new =>
      (ok = true ∧ r' = r <| r_current := new |> ∧ evs = [] ∧
       ∃ s1, accept_all (r_observers r) (r_current r) new s s1 ∧
         s' = foldl (λ s cb, cb new s) s1 (r_legacyCallbacks r)) ∨
      (ok = false ∧ r' = r ∧
       ∃ before o after s1, r_observers r = before ++ o :: after ∧
         accept_all before (r_current r) new s s1 ∧
         let '(res, s2) := o (r_current r) new s1 in
         res ≠ Accepted ∧ s' = s2 ∧
         evs = if r_rollbacks r then IncRollback (refusal_reason res) else [])
  end.
Proof.
  unfold Reload. destruct loaded as [new|e];
    [|intros [= <- <- <- <-]; by split; [split; [|naive_solver] |]].
  simpl. destruct (run_observers (r_observers r) (r_current r) new s) as [[reason|] s1] eqn:Hr;
    intros [= <- <- <- <-].
  - split.
    { split; [done |]. intros (new' & s2 & [= <-] & Ha%run_observers_accept). congruence. }
    right. split; [done |]. split; [by destruct r |].
    destruct (run_observers_refuse _ _ _ _ _ _ Hr) as (before & o & after & s2 & Ho & Ha & Hn & Hre & Hs).
    exists before, o, after, s2. split; [done |]. split; [done |].
    destruct (o (r_current r) new s2) as [res s3]. simpl in *. by subst.
  - apply run_observers_accept in Hr. split; [by split; [exists new, s1 |] |].
    left. split_and!; try done. by exists s1.
Qed.

(** ** Concurrent reloads *)

Definition pc_valid (valid : Config → Prop) (pc : ReloadPc (S := S)) : Prop :=
  match pc with
  | RSwap cfg => valid cfg
  | RObserve old cfg _ => valid old ∧ valid cfg
  | RDone _ => True
  end.

Lemma reload_move_valid valid (r : Reloader S) s pc r' s' pc' :
  valid (r_current r) → pc_valid valid pc → reload_move r s pc = (r', s', pc') →
  valid (r_current r') ∧ pc_valid valid pc'.
Proof.
  intros Hr Hpc. destruct pc as [cfg|old cfg [|o rest]|ok]; simpl in *.
  - by intros [= <- <- <-].
  - by intros [= <- <- <-].
  - destruct (invokeObserver o old cfg s) as [[refusal|] s1]; intros [= <- <- <-]; simpl; tauto.
  - by intros [= <- <- <-].
Qed.

(** However reloads triggered by the watcher and by signals interleave, the
    current configuration is always one that passed loading: readers never see
    an invalid one. *)
Theorem concurrent_reloads_stay_valid (valid : Config → Prop) (r : Reloader S) (s : S)
    (w : ReloadWorld S) :
  valid (r_current r) → rtc (reload_step valid) (mkReloadWorld r s ∅) w →
  valid (r_current (rw_reloader w)).
Proof.
  intros Hv Hsteps.
  assert (valid (r_current r) ∧ map_Forall (λ _, pc_valid valid) (∅ : gmap nat (ReloadPc (S := S))))
    as Hinit by (split; [done | apply map_Forall_empty]).
  enough (valid (r_current (rw_reloader w)) ∧ map_Forall (λ _, pc_valid valid) (rw_reloads w)) by tauto.
  change (valid (r_current (rw_reloader (mkReloadWorld r s ∅))) ∧
    map_Forall (λ _, pc_valid valid) (rw_reloads (mkReloadWorld r s ∅))) in Hinit.
  revert Hinit. induction Hsteps as [|x y z Hxy _ IH]; [done |]. intros [Hc Hp]. apply IH.
  destruct Hxy as [w i cfg Hi Hcfg | w i pc r1 s1 pc1 Hi Hm]; simpl.
  - split; [done |]. by apply map_Forall_insert_2.
  - destruct (reload_move_valid valid _ _ _ _ _ _ Hc (Hp _ _ Hi) Hm). split; [done |].
    by apply map_Forall_insert_2.
Qed.
End laws.

(** ** The debouncing of file events *)

Lemma debounce_delay_pos : 0 < debounce_delay.
Proof. done. Qed.

(** Nothing happens between the event behind [f] and [f]. *)
Definition quiet_until (events : list Time) (f : Time) : Prop :=
  f - debounce_delay ∈ events ∧ ∀ e, e ∈ events → ¬ (f - debounce_delay < e ∧ e < f).

Lemma sorted_last (events : list Time) t e :
  StronglySorted Z.le (events ++ [t]) → e ∈ events ++ [t] → e ≤ t.
Proof.
  intros Hs [He| ->%list_elem_of_singleton]%elem_of_app; [|lia].
  eapply StronglySorted_app_1_elem_of; [exact Hs | exact He | by apply list_elem_of_singleton].
Qed.

Lemma watch_event_spec events t :
  StronglySorted Z.le (events ++ [t]) →
  ∃ fired, foldl watch_event (None, []) (events ++ [t]) = (Some (t + debounce_delay), fired) ∧
    ∀ f, f ∈ fired ↔ f ≤ t ∧ quiet_until (events ++ [t]) f.
Proof.
  pose proof debounce_delay_pos as Hpos. revert t.
  induction events as [|t0 events IH] using rev_ind; intros t Hs.
  - exists []. split; [done |]. intros f. split; [by intros ?%elem_of_nil |].
    intros [Hf [Hin _]]. apply list_elem_of_singleton in Hin. lia.
  - rewrite foldl_app. destruct (IH t0) as (fired & -> & Hfired).
    { by apply StronglySorted_app_1_l in Hs. }
    simpl. assert (∀ e, e ∈ events ++ [t0] → e ≤ t0 ∧ e ≤ t) as Hle.
    { intros e He. split; [|apply (sorted_last _ _ _ Hs); apply elem_of_app; by left].
      apply StronglySorted_app_1_l in Hs. by apply (sorted_last _ _ _ Hs). }
    assert (t0 ∈ events ++ [t0]) as H0 by (apply elem_of_app; right; by apply list_elem_of_singleton).
    pose proof (Hle t0 H0) as [_ Ht0].
    eexists. split; [done |]. intros f.
    assert (f ∈ (if decide (t0 + debounce_delay ≤ t) then fired ++ [t0 + debounce_delay] else fired) ↔
      f ∈ fired ∨ (f = t0 + debounce_delay ∧ t0 + debounce_delay ≤ t)) as ->.
    { case_decide; rewrite ?elem_of_app, ?list_elem_of_singleton; tauto. }
    rewrite Hfired. unfold quiet_until. setoid_rewrite (elem_of_app (events ++ [t0])).
    setoid_rewrite list_elem_of_singleton. split.
    + intros [(Hf & Hin & Hq)|[-> Hf]].
      * split; [lia |]. split; [by left |]. intros e [He| ->]; [by apply Hq | lia].
      * split; [lia |]. split; [left; by replace (t0 + _ - _) with t0 by lia |].
        intros e [He| ->]; [apply Hle in He; lia | lia].
    + intros (Hf & [Hin|Hin] & Hq); [|lia].
      destruct (decide (f ≤ t0)) as [Hf0|Hf0].
      * left. split; [done |]. split; [done |]. intros e He. apply Hq. by left.
      * right. pose proof (Hq t0 (or_introl H0)). apply Hle in Hin. lia.
Qed.

(** A burst of file events causes one reload: reloads happen exactly 300ms
    after those events that no other event follows within that time, unless the
    watcher is stopped first. *)
Theorem watch_loop_spec (events : list Time) (stop : Time) :
  StronglySorted Z.le events → Forall (λ e, e ≤ stop) events →
  ∀ f, f ∈ watch_loop events stop ↔ f ≤ stop ∧ quiet_until events f.
Proof.
  pose proof debounce_delay_pos as Hpos.
  intros Hs Hstop f. destruct events as [|t events _] using rev_ind.
  { split; [by intros ?%elem_of_nil | by intros [_ [?%elem_of_nil _]]]. }
  unfold watch_loop. destruct (watch_event_spec events t Hs) as (fired & -> & Hfired).
  assert (f ∈ (if decide (t + debounce_delay ≤ stop) then fired ++ [t + debounce_delay] else fired) ↔
    f ∈ fired ∨ (f = t + debounce_delay ∧ t + debounce_delay ≤ stop)) as ->.
  { case_decide; rewrite ?elem_of_app, ?list_elem_of_singleton; tauto. }
  rewrite Hfired. rewrite Forall_forall in Hstop.
  assert (t ∈ events ++ [t]) as Hin by (apply elem_of_app; right; by apply list_elem_of_singleton).
  pose proof (Hstop t Hin). pose proof (λ e, sorted_last events t e Hs) as Hle.
  split.
  - intros [[Hf Hq]|[-> Hf]]; [split; [lia | done] |]. split; [done |]. split.
    + by replace (t + _ - _) with t by lia.
    + intros e He. apply Hle in He. lia.
  - intros [Hf Hq]. destruct (decide (f ≤ t)) as [Hft|Hft]; [by left |]. right.
    destruct Hq as [Hf' Hq]. pose proof (Hq t Hin). apply Hle in Hf'. lia.
Qed.

(** ** Schedules and witnesses *)

Definition reload_exec {S} (w : ReloadWorld S) (cmd : nat * option Config) : ReloadWorld S :=
  match cmd.2, rw_reloads w !! cmd.1 with
  | Some cfg, None =>
      mkReloadWorld (rw_reloader w) (rw_state w) (<[cmd.1 := RSwap cfg]> (rw_reloads w))
  | None, Some pc =>
      let '(r, s, pc') := reload_move (rw_reloader w) (rw_state w) pc in
      mkReloadWorld r s (<[cmd.1 := pc']> (rw_reloads w))
  | _, _ => w
  end.

Lemma reload_exec_steps {S} (valid : Config → Prop) (cmds : list (nat * option Config))
    (w : ReloadWorld S) :
  Forall (λ c, match c.2 with Some cfg => valid cfg | None => True end) cmds →
  rtc (reload_step valid) w (foldl reload_exec w cmds).
Proof.
  revert w. induction cmds as [|[i c] cmds IH]; intros w Hv; [done |].
  apply Forall_cons_iff in Hv as [Hc Hv]. simpl. etrans; [|by apply IH]. unfold reload_exec. simpl.
  destruct c as [cfg|], (rw_reloads w !! i) as [pc|] eqn:Hi; try done.
  - apply rtc_once. by apply ReloadStart.
  - destruct (reload_move (rw_reloader w) (rw_state w) pc) as [[r s] pc'] eqn:Hm.
    apply rtc_once. by eapply ReloadMove.
Qed.

Definition config_named (name : string) : Config :=
  (empty_config []) <| cfg_Warnings := [name] |>.

(** An observer that counts its calls and refuses everything but one config. *)
Definition picky : Observer Z := λ _ new s,
  if decide (cfg_Warnings new = ["good"]) then (Accepted, s + 1) else (Refused "not good", s + 1).

Definition demo_reloader : Reloader Z :=
  RegisterObserver picky (SetRollbackRecorder (NewReloader "gateway.yaml" (config_named "good"))).

Lemma Reload_transactional_witness :
  let '(ok, r, s, evs) := Reload (Ok (config_named "bad")) demo_reloader 0 in
  ok = false ∧ s = 1 ∧ evs = IncRollback "observer_error" ∧ r = demo_reloader.
Proof.
  destruct (Reload (Ok (config_named "bad")) demo_reloader 0) as [[[ok r] s] evs] eqn:Hr.
  pose proof Hr as Hv. vm_compute in Hv. injection Hv as Hok _ Hs Hevs. subst ok s evs.
  destruct (Reload_transactional _ _ _ _ _ _ _ Hr) as [_ [(H & _)|(_ & Hr' & _)]]; [done |].
  split_and!; [done.. | exact Hr'].
Defined.

(** Two reloads at once, both refused: the second had read the first one's
    configuration as the old one and puts it back. *)
Lemma refused_configuration_stays :
  ∃ w, rtc (reload_step (λ _, True)) (mkReloadWorld demo_reloader 0 ∅) w ∧
    rw_reloads w = {[ 1%nat := RDone false; 2%nat := RDone false ]} ∧
    r_current (rw_reloader w) = config_named "first".
Proof.
  exists (foldl reload_exec (mkReloadWorld demo_reloader 0 ∅)
    [(1%nat, Some (config_named "first")); (2%nat, Some (config_named "second"));
     (1%nat, None); (2%nat, None); (1%nat, None); (2%nat, None)]).
  split; [by apply reload_exec_steps; repeat constructor |]. split; [|by vm_compute].
  apply map_eq. intros i. vm_compute. by destruct i as [|[|[|]]].
Qed.

Lemma concurrent_reloads_stay_valid_witness :
  let w := foldl reload_exec (mkReloadWorld demo_reloader 0 ∅)
    [(1%nat, Some (config_named "first")); (1%nat, None)] in
  r_current (rw_reloader w) = config_named "first" ∧ length (cfg_Warnings (r_current (rw_reloader w))) = 1%nat.
Proof.
  intros w. split; [by vm_compute |].
  apply (concurrent_reloads_stay_valid (λ c, length (cfg_Warnings c) = 1%nat) demo_reloader 0 w);
    [done |].
  apply reload_exec_steps. by repeat constructor.
Defined.

Lemma watch_loop_spec_witness :
  let ms := Millisecond in
  watch_loop [0; 100 * ms; 500 * ms] (2 * Second) = [400 * ms; 800 * ms] ∧
  400 * ms ≤ 2 * Second ∧ quiet_until [0; 100 * ms; 500 * ms] (400 * ms).
Proof.
  intros ms. split; [by vm_compute |].
  apply (watch_loop_spec [0; 100 * ms; 500 * ms] (2 * Second)).
  - by repeat constructor; vm_compute.
  - by repeat constructor; vm_compute.
  - apply elem_of_cons. left. by vm_compute.
Defined.
