(* ===== verification/Http.v ===== *)
(** * Response writers

    An [http.ResponseWriter] behind the interface: a class with the three
    methods of the interface, implemented by the client connection and by the
    gateway's wrappers.  The header map can be mutated in any way by the code
    that holds it, so [Header()] is modelled by what is done to the map.  The
    moment of a call matters to the wrappers that read the clock, so every call
    carries its time.  The errors [Write] returns are only logged by the
    gateway and are left out. *)

From S2P Require Import Prelude GoStrings.

(** [http.Header], by canonical key. *)
Abbreviation Header := (gmap string (list string)) (only parsing).

(** [textproto.CanonicalMIMEHeaderKey]: letters after the start and after hyphens in
    upper case, the others in lower case; a key that is no token is unchanged. *)
Definition is_token_char (c : ascii) : bool :=
  let n := nat_of_ascii c in
  bool_decide ((48 ≤ n ∧ n ≤ 57) ∨ (65 ≤ n ∧ n ≤ 90) ∨ (94 ≤ n ∧ n ≤ 122) ∨ n = 33 ∨
    (35 ≤ n ∧ n ≤ 39) ∨ n = 42 ∨ n = 43 ∨ n = 45 ∨ n = 46 ∨ n = 124 ∨ n = 126)%nat.

Definition lower_ascii (c : ascii) : ascii :=
  let n := nat_of_ascii c in
  if bool_decide (65 ≤ n ∧ n ≤ 90)%nat then ascii_of_nat (n + 32) else c.

Fixpoint canonical_from (upper : bool) (s : string) : string :=
  match s with
  | EmptyString => EmptyString
  | String c r =>
      String (if upper then upper_ascii c else lower_ascii c)
        (canonical_from (Ascii.eqb c "-") r)
  end.

Definition CanonicalHeaderKey (s : string) : string :=
  if all_chars is_token_char s then canonical_from true s else s.

Example CanonicalHeaderKey_example :
  CanonicalHeaderKey "x-request-ID" = "X-Request-Id" ∧ CanonicalHeaderKey "a b" = "a b".
Proof. done. Qed.

Definition header_Set (k v : string) (h : Header) : Header := <[k := [v]]> h.

Definition header_Add (k v : string) (h : Header) : Header :=
  <[k := default [] (h !! k) ++ [v]]> h.

Definition header_Get (k : string) (h : Header) : string :=
  match h !! k with Some (v :: _) => v | _ => "" end.

Lemma header_Get_Set k v h : header_Get k (header_Set k v h) = v.
Proof. unfold header_Get, header_Set. by rewrite lookup_insert_eq. Qed.

(** Adding every value of [h'] to [h]; the order of the keys is immaterial. *)
Definition header_add_all (h' h : Header) : Header :=
  union_with (λ old new, Some (old ++ new)) h (filter (λ kv, kv.2 ≠ []) h').

Class ResponseWriter (W : Type) := {
  rw_header_of : W → Header;             (** reading [Header()] *)
  rw_Header : (Header → Header) → W → W;
  rw_WriteHeader : Z → Time → W → W;
  rw_Write : string → Time → W → W
}.

(** A call on a response writer. *)
Inductive WriterOp :=
| OpHeader (upd : Header → Header)
| OpWriteHeader (code : Z)
| OpWrite (body : string).

Definition writer_op {W} `{ResponseWriter W} (op : WriterOp) (t : Time) (w : W) : W :=
  match op with
  | OpHeader upd => rw_Header upd w
  | OpWriteHeader code => rw_WriteHeader code t w
  | OpWrite body => rw_Write body t w
  end.

(** What a handler does to its writer: calls with their times. *)
Definition run_ops {W} `{ResponseWriter W} (ops : list (WriterOp * Time)) (w : W) : W :=
  foldl (λ w op, writer_op op.1 op.2 w) w ops.

Lemma run_ops_app {W} `{ResponseWriter W} ops ops' (w : W) :
  run_ops (ops ++ ops') w = run_ops ops' (run_ops ops w).
Proof. apply foldl_app. Qed.

(** ** The client connection

    The server's own writer: its header map and the calls that reach it, each
    with the headers as they are then. *)
Inductive ClientCall :=
| CallWriteHeader (code : Z) (h : Header)
| CallWrite (body : string) (h : Header).

Record Client := mkClient { cl_header : Header; cl_calls : list ClientCall }.

#[export] Instance Client_eta : Eta Client := λ c, mkClient (cl_header c) (cl_calls c).

#[export] Instance client_writer : ResponseWriter Client := {
  rw_header_of := cl_header;
  rw_Header upd c := c <| cl_header := upd (cl_header c) |>;
  rw_WriteHeader code _ c := c <| cl_calls := cl_calls c ++ [CallWriteHeader code (cl_header c)] |>;
  rw_Write body _ c := c <| cl_calls := cl_calls c ++ [CallWrite body (cl_header c)] |>
}.

Definition new_client : Client := mkClient ∅ [].

(** The bytes of the body a client received. *)
Fixpoint calls_body (cs : list ClientCall) : string :=
  match cs with
  | [] => ""
  | CallWriteHeader _ _ :: cs => calls_body cs
  | CallWrite b _ :: cs => b +:+ calls_body cs
  end.

(** The status line and the headers a server sends for a sequence of calls: those
    of the first final (not 1xx) [WriteHeader], or 200 at the first [Write]. *)
Fixpoint sent_status (cs : list ClientCall) : option (Z * Header) :=
  match cs with
  | [] => None
  | CallWriteHeader code h :: cs =>
      if decide (100 ≤ code ≤ 199 ∧ code ≠ 101) then sent_status cs else Some (code, h)
  | CallWrite _ h :: _ => Some (200, h)
  end.

Lemma calls_body_app cs cs' : calls_body (cs ++ cs') = calls_body cs +:+ calls_body cs'.
Proof.
  induction cs as [|[|b h] cs IH]; [done | done |]. cbn [calls_body app].
  by rewrite IH, string_app_assoc.
Qed.

(** ** Requests *)

Record Request := mkRequest {
  rq_Method : string;
  rq_Path : string;
  rq_Header : Header;
  rq_RemoteAddr : string;
  rq_TLS : bool;                         (** [r.TLS != nil] *)
  rq_ContentLength : Z;                  (** [-1]: unknown *)
  rq_Body : option string;               (** what reading the body gives; [None]: nil *)
  rq_BodyLimit : option Z;               (** the [MaxBytesReader] around it *)
  rq_RequestID : option string           (** the context's value for [RequestIDKey] *)
}.

#[export] Instance Request_eta : Eta Request := λ r,
  mkRequest (rq_Method r) (rq_Path r) (rq_Header r) (rq_RemoteAddr r) (rq_TLS r)
    (rq_ContentLength r) (rq_Body r) (rq_BodyLimit r) (rq_RequestID r).

(** A request without a body, as the server hands it to the first handler. *)
Definition new_request (method path : string) (h : Header) (addr : string) : Request :=
  mkRequest method path h addr false 0 (Some "") None None.

(** How a handler leaves. *)
Inductive Exit := Returned | Panicked.

#[export] Instance Exit_eq_dec : EqDecision Exit.
Proof. solve_decision. Defined.

(** ** Status codes *)

Definition StatusOK : Z := 200.
Definition StatusNoContent : Z := 204.
Definition StatusUnauthorized : Z := 401.
Definition StatusForbidden : Z := 403.
Definition StatusNotFound : Z := 404.
Definition StatusMethodNotAllowed : Z := 405.
Definition StatusRequestEntityTooLarge : Z := 413.
Definition StatusTooManyRequests : Z := 429.
Definition StatusInternalServerError : Z := 500.
Definition StatusBadGateway : Z := 502.
Definition StatusServiceUnavailable : Z := 503.
Definition StatusGatewayTimeout : Z := 504.

(** [http.StatusText]; an unknown code has no text. *)
Definition status_texts : list (Z * string) :=
  [(100, "Continue"); (101, "Switching Protocols"); (102, "Processing");
   (103, "Early Hints"); (200, "OK"); (201, "Created"); (202, "Accepted");
   (203, "Non-Authoritative Information"); (204, "No Content"); (205, "Reset Content");
   (206, "Partial Content"); (207, "Multi-Status"); (208, "Already Reported");
   (226, "IM Used"); (300, "Multiple Choices"); (301, "Moved Permanently"); (302, "Found");
   (303, "See Other"); (304, "Not Modified"); (305, "Use Proxy");
   (307, "Temporary Redirect"); (308, "Permanent Redirect"); (400, "Bad Request");
   (401, "Unauthorized"); (402, "Payment Required"); (403, "Forbidden");
   (404, "Not Found"); (405, "Method Not Allowed"); (406, "Not Acceptable");
   (407, "Proxy Authentication Required"); (408, "Request Timeout"); (409, "Conflict");
   (410, "Gone"); (411, "Length Required"); (412, "Precondition Failed");
   (413, "Request Entity Too Large"); (414, "Request URI Too Long");
   (415, "Unsupported Media Type"); (416, "Requested Range Not Satisfiable");
   (417, "Expectation Failed"); (418, "I'm a teapot"); (421, "Misdirected Request");
   (422, "Unprocessable Entity"); (423, "Locked"); (424, "Failed Dependency");
   (425, "Too Early"); (426, "Upgrade Required"); (428, "Precondition Required");
   (429, "Too Many Requests"); (431, "Request Header Fields Too Large");
   (451, "Unavailable For Legal Reasons"); (500, "Internal Server Error");
   (501, "Not Implemented"); (502, "Bad Gateway"); (503, "Service Unavailable");
   (504, "Gateway Timeout"); (505, "HTTP Version Not Supported");
   (506, "Variant Also Negotiates"); (507, "Insufficient Storage"); (508, "Loop Detected");
   (510, "Not Extended"); (511, "Network Authentication Required")].

Definition StatusText (code : Z) : string :=
  default "" (snd <$> find (λ e, bool_decide (e.1 = code)) status_texts).
