(* ===== verification/Json.v ===== *)
(** * Go's encoding/json, as far as the gateway writes it

    Values, [Marshal] of them, and the parser of a client, which reads back what
    [Marshal] wrote ([parse_encode]), with bytes that are no UTF-8 replaced
    ([parse_read]).  The members of an object come in the order
    of the struct's fields or, for a map, of its sorted keys. *)

From stdpp Require Import sorting.
From S2P Require Import Prelude GoStrings GoNet.

Open Scope Z_scope.

Definition backslash : ascii := ascii_of_nat 92.
Definition newline : string := String (ascii_of_nat 10) "".

(** ** Strings *)

Definition hex_digit (n : nat) : ascii :=
  if decide (n < 10)%nat then ascii_of_nat (48 + n) else ascii_of_nat (87 + n).

(** An ASCII character: quotes, backslashes, control characters and the HTML
    characters are escaped. *)
Definition json_escape (c : ascii) : string :=
  let n := nat_of_ascii c in
  let u := "u00" +:+ String (hex_digit (n / 16)) (String (hex_digit (n mod 16)) "") in
  if decide (n = 34 ∨ n = 92)%nat then String backslash (String c "")
  else if decide (n = 8)%nat then String backslash "b"
  else if decide (n = 9)%nat then String backslash "t"
  else if decide (n = 10)%nat then String backslash "n"
  else if decide (n = 12)%nat then String backslash "f"
  else if decide (n = 13)%nat then String backslash "r"
  else if decide (n < 32 ∨ n = 38 ∨ n = 60 ∨ n = 62)%nat then String backslash u
  else String c "".

Definition byte_in (lo hi : nat) (s : string) : bool :=
  match s with String c _ => bool_decide (lo ≤ nat_of_ascii c ≤ hi)%nat | "" => false end.

(** The width of the UTF-8 encoded rune at the start of [s], [None] if there is no
    valid one ([utf8.DecodeRune]). *)
Definition utf8_width (s : string) : option nat :=
  match s with
  | "" => None
  | String c r =>
      let n := nat_of_ascii c in
      let conts k := forallb (λ i, byte_in 128 191 (sdrop i r)) (seq 1 k) in
      if decide (n < 128)%nat then Some 1%nat
      else if decide (194 ≤ n ≤ 223)%nat then if byte_in 128 191 r then Some 2%nat else None
      else if decide (224 ≤ n ≤ 239)%nat then
        if byte_in (if decide (n = 224)%nat then 160 else 128) (if decide (n = 237)%nat then 159 else 191) r
           && conts 1%nat then Some 3%nat else None
      else if decide (240 ≤ n ≤ 244)%nat then
        if byte_in (if decide (n = 240)%nat then 144 else 128) (if decide (n = 244)%nat then 143 else 191) r
           && conts 2%nat then Some 4%nat else None
      else None
  end.

(** U+2028 and U+2029, which JavaScript takes for line ends. *)
Definition line_separator (s : string) : option string :=
  let b n := ascii_of_nat n in
  if HasPrefix s (String (b 226%nat) (String (b 128%nat) (String (b 168%nat) ""))) then Some "u2028"
  else if HasPrefix s (String (b 226%nat) (String (b 128%nat) (String (b 169%nat) ""))) then Some "u2029"
  else None.

(** Inside a rune, [copy] or [skip] bytes are left to copy or to drop. *)
Fixpoint json_from (copy skip : nat) (s : string) : string :=
  match s with
  | "" => ""
  | String c r =>
      match copy, skip with
      | S k, _ => String c (json_from k skip r)
      | O, S k => json_from 0 k r
      | O, O =>
          if decide (nat_of_ascii c < 128)%nat then json_escape c +:+ json_from 0 0 r
          else
            match utf8_width s with
            | None => String backslash "ufffd" +:+ json_from 0 0 r
            | Some w =>
                match line_separator s with
                | Some u => String backslash u +:+ json_from 0 (w - 1) r
                | None => String c (json_from (w - 1) 0 r)
                end
            end
      end
  end.

Definition json_chars (s : string) : string := json_from 0 0 s.

Definition json_string (s : string) : string := dquoted (json_chars s).

(** ** Values

    A number is its text: what [strconv] makes of an integer or of a float. *)

Inductive Json : Type :=
| JString (s : string)
| JNumber (text : string)
| JBool (b : bool)
| JNull
| JArray (l : list Json)
| JObject (l : list (string * Json)).

(** [json.Marshal(v)] *)
Fixpoint encode (v : Json) : string :=
  match v with
  | JString s => json_string s
  | JNumber text => text
  | JBool b => if b then "true" else "false"
  | JNull => "null"
  | JArray l => "[" +:+ Join (encode <$> l) "," +:+ "]"
  | JObject l =>
      "{" +:+ Join ((λ kv : string * Json, json_string kv.1 +:+ ":" +:+ encode kv.2) <$> l) "," +:+ "}"
  end.

Definition JInt (z : Z) : Json := JNumber (Itoa z).

(** [json.Marshal] of a map: its keys in order. *)
Definition json_map (m : gmap string string) : Json :=
  JObject ((λ k, (k, JString (default "" (m !! k)))) <$> merge_sort String.le (elements (dom m))).

Example encode_example :
  encode (JObject [("a", JArray [JInt (-5); JBool true]); ("b<", JString ("x" +:+ newline))]) =
  "{" +:+ dquoted "a" +:+ ":[-5,true]," +:+ dquoted ("b" +:+ String backslash "u003c") +:+ ":" +:+
  dquoted ("x" +:+ String backslash "n") +:+ "}".
Proof. by vm_compute. Qed.

(** ** A client's parser

    Of JSON without white space, as [Marshal] writes it. *)

Definition hex_value (c : ascii) : option Z :=
  let n := Z.of_nat (nat_of_ascii c) in
  if decide (48 ≤ n ≤ 57) then Some (n - 48)
  else if decide (97 ≤ n ≤ 102) then Some (n - 87)
  else if decide (65 ≤ n ≤ 70) then Some (n - 55)
  else None.

Definition unescape (e : ascii) : option ascii :=
  if decide (e ∈ [quote; backslash; "/"%char]) then Some e
  else if Ascii.eqb e "b" then Some (ascii_of_nat 8)
  else if Ascii.eqb e "t" then Some (ascii_of_nat 9)
  else if Ascii.eqb e "n" then Some (ascii_of_nat 10)
  else if Ascii.eqb e "f" then Some (ascii_of_nat 12)
  else if Ascii.eqb e "r" then Some (ascii_of_nat 13)
  else None.

(** The UTF-8 encoding of a code unit that is no surrogate. *)
Definition utf8_encode (n : Z) : option string :=
  let b n := ascii_of_nat (Z.to_nat n) in
  if decide (n < 128) then Some (String (b n) "")
  else if decide (n < 2048) then
    Some (String (b (192 + n / 64)) (String (b (128 + n mod 64)) ""))
  else if decide (55296 ≤ n < 57344) then None
  else
    Some (String (b (224 + n / 4096))
      (String (b (128 + n / 64 mod 64)) (String (b (128 + n mod 64)) ""))).

Definition decode_unit (h1 h2 h3 h4 : ascii) : option string :=
  h1 ← hex_value h1; h2 ← hex_value h2; h3 ← hex_value h3; h4 ← hex_value h4;
  utf8_encode (h4 + 16 * (h3 + 16 * (h2 + 16 * h1))).

(** The rest of a string, after its opening quote. *)
Fixpoint parse_chars (s : string) : option (string * string) :=
  match s with
  | "" => None
  | String c r =>
      if Ascii.eqb c quote then Some ("", r)
      else if Ascii.eqb c backslash then
        match r with
        | "" => None
        | String e r =>
            if Ascii.eqb e "u" then
              match r with
              | String h1 (String h2 (String h3 (String h4 r))) =>
                  u ← decode_unit h1 h2 h3 h4;
                  '(t, rest) ← parse_chars r; Some (u +:+ t, rest)
              | _ => None
              end
            else d ← unescape e; '(t, rest) ← parse_chars r; Some (String d t, rest)
        end
      else if decide (nat_of_ascii c < 32)%nat then None
      else '(t, rest) ← parse_chars r; Some (String c t, rest)
  end.

(** The first [copy] bytes are the rest of a rune, and what follows is valid. *)
Fixpoint valid_from (copy : nat) (s : string) : bool :=
  match s with
  | "" => bool_decide (copy = 0%nat)
  | String c r =>
      match copy with
      | S k => byte_in 128 191 s && valid_from k r
      | O => match utf8_width s with Some w => valid_from (w - 1) r | None => false end
      end
  end.

Definition valid_utf8 (s : string) : bool := valid_from 0 s.

(** U+FFFD, the replacement character. *)
Definition replacement : string :=
  String (ascii_of_nat 239) (String (ascii_of_nat 191) (String (ascii_of_nat 189) "")).

(** The string with every byte that is in no valid rune replaced. *)
Fixpoint valid_text (copy : nat) (s : string) : string :=
  match s with
  | "" => ""
  | String c r =>
      match copy with
      | S k => String c (valid_text k r)
      | O =>
          match utf8_width s with
          | Some w => String c (valid_text (w - 1) r)
          | None => replacement +:+ valid_text 0 r
          end
      end
  end.

Definition ToValidUTF8 (s : string) : string := valid_text 0 s.

(** [k] bytes within a rune come next. *)
Fixpoint continued (k : nat) (s : string) : bool :=
  match k, s with
  | O, _ => true
  | S k, String _ r => byte_in 128 191 s && continued k r
  | S _, "" => false
  end.

(** One step of [parse_chars] on what an escape can be. *)
Definition escapes (esc : string) (c : ascii) : bool :=
  match esc with
  | String a "" => bool_decide (a = c ∧ a ≠ quote ∧ a ≠ backslash ∧ 32 ≤ nat_of_ascii a)%nat
  | String b (String e "") => bool_decide (b = backslash ∧ e ≠ "u"%char ∧ unescape e = Some c)
  | String b (String u (String h1 (String h2 (String h3 (String h4 ""))))) =>
      bool_decide (b = backslash ∧ u = "u"%char ∧ decode_unit h1 h2 h3 h4 = Some (String c ""))
  | _ => false
  end.

Lemma json_escape_escapes c : (nat_of_ascii c < 128)%nat → escapes (json_escape c) c = true.
Proof.
  intros Hc. destruct c as [[] [] [] [] [] [] [] b]; (destruct b; [vm_compute in Hc; lia |]);
    by vm_compute.
Qed.

Lemma parse_unit h1 h2 h3 h4 u rest :
  decode_unit h1 h2 h3 h4 = Some u →
  parse_chars (String backslash (String "u" (String h1 (String h2 (String h3 (String h4 rest)))))) =
  '(t, r) ← parse_chars rest; Some (u +:+ t, r).
Proof. intros Hu. cbn [parse_chars]. change (Ascii.eqb backslash quote) with false. simpl. by rewrite Hu. Qed.

Lemma parse_plain c rest :
  c ≠ quote → c ≠ backslash → (32 ≤ nat_of_ascii c)%nat →
  parse_chars (String c rest) = '(t, r) ← parse_chars rest; Some (String c t, r).
Proof.
  intros Hq Hb Hn. cbn [parse_chars]. rewrite (proj2 (Ascii.eqb_neq c quote)) by done.
  rewrite (proj2 (Ascii.eqb_neq c backslash)) by done. by rewrite decide_False by lia.
Qed.

(** An escaped ASCII character is read back. *)
Lemma parse_escape c rest :
  (nat_of_ascii c < 128)%nat →
  parse_chars (json_escape c +:+ rest) = '(t, r) ← parse_chars rest; Some (String c t, r).
Proof.
  intros Hc. pose proof (json_escape_escapes c Hc) as He. unfold escapes in He.
  destruct (json_escape c) as [|a esc]; [done |]. rewrite string_cons_app.
  destruct esc as [|e esc].
  - apply bool_decide_eq_true in He as (-> & ? & ? & ?). by apply parse_plain.
  - rewrite string_cons_app. destruct esc as [|h1 esc].
    + apply bool_decide_eq_true in He as (-> & Hu & He). cbn [parse_chars].
      change (Ascii.eqb backslash quote) with false. cbn [Ascii.eqb].
      rewrite (proj2 (Ascii.eqb_neq e "u")) by done. by rewrite He.
    + destruct esc as [|h2 [|h3 [|h4 [|]]]]; try done.
      apply bool_decide_eq_true in He as (-> & -> & He). rewrite !string_cons_app.
      by rewrite (parse_unit _ _ _ _ _ _ He).
Qed.

Lemma utf8_width_ascii c r : (nat_of_ascii c < 128)%nat → utf8_width (String c r) = Some 1%nat.
Proof. intros Hc. cbn [utf8_width]. by rewrite decide_True. Qed.

Lemma byte_in_cons lo hi c r : byte_in lo hi (String c r) = true ↔ (lo ≤ nat_of_ascii c ≤ hi)%nat.
Proof. apply bool_decide_eq_true. Qed.

Lemma line_separator_spec s u :
  line_separator s = Some u →
  ∃ x r, s = x +:+ r ∧ len x = 3%nat ∧ ToValidUTF8 s = x +:+ ToValidUTF8 r ∧ utf8_width s = Some 3%nat ∧
    json_from 0 2 (sdrop 1 s) = json_from 0 0 r ∧
    ∀ rest, parse_chars (String backslash u +:+ rest) = '(t, r) ← parse_chars rest; Some (x +:+ t, r).
Proof.
  unfold line_separator. intros Hu.
  destruct (HasPrefix s (String (ascii_of_nat 226) (String (ascii_of_nat 128)
    (String (ascii_of_nat 168) "")))) eqn:H1;
    [|destruct (HasPrefix s (String (ascii_of_nat 226) (String (ascii_of_nat 128)
      (String (ascii_of_nat 169) "")))) eqn:H2; [|done]]; injection Hu as <-.
  - apply HasPrefix_spec in H1 as [r ->]. eexists _, r. split_and!; [done.. |].
    intros rest. by apply parse_unit.
  - apply HasPrefix_spec in H2 as [r ->]. eexists _, r. split_and!; [done.. |].
    intros rest. by apply parse_unit.
Qed.

Lemma byte_in_weaken lo hi s : (128 ≤ lo → hi ≤ 191 → byte_in lo hi s = true → byte_in 128 191 s = true)%nat.
Proof. destruct s as [|c s]; [done |]. intros ? ? H%byte_in_cons. apply byte_in_cons. lia. Qed.

Lemma continued_conts k s :
  continued (S k) s = byte_in 128 191 s && forallb (λ i, byte_in 128 191 (sdrop i s)) (seq 1 k).
Proof.
  revert s. induction k as [|k IH]; intros [|c s]; [done.. |].
  change (continued (S (S k)) (String c s)) with (byte_in 128 191 (String c s) && continued (S k) s).
  rewrite IH. cbn [seq forallb]. change (sdrop 1 (String c s)) with (sdrop 0 s).
  assert (sdrop 0 s = s) as -> by by destruct s. do 2 f_equal.
  rewrite <-(seq_shift k 1). clear IH. induction (seq 1 k) as [|i l IH]; [done |].
  cbn [map forallb]. by rewrite IH.
Qed.

(** What follows the first byte of a rune. *)
Lemma utf8_width_continued c r w :
  utf8_width (String c r) = Some w → continued (w - 1) r = true.
Proof.
  unfold utf8_width. repeat case_decide; try done; try by intros [= <-].
  all: match goal with |- (if ?b then _ else _) = _ → _ => destruct b eqn:Hb; [|done] end;
    intros [= <-]; cbn [Nat.sub]; rewrite continued_conts.
  all: first [by rewrite Hb | apply andb_true_iff in Hb as [H1' H2'];
    apply andb_true_iff; split; [by eapply byte_in_weaken; [..|exact H1']; lia | exact H2']].
Qed.

(** What a client reads of any string: its text, the bytes that are in no rune
    replaced. *)
Lemma parse_json_from k s rest :
  continued k s = true →
  parse_chars (json_from k 0 s +:+ String quote rest) = Some (valid_text k s, rest).
Proof.
  remember (len s) as n eqn:Hn. revert k s Hn. induction n as [n IH] using lt_wf_ind.
  intros k s -> Hv. destruct s as [|c s]; [by destruct k |].
  assert (∀ k s', (len s' < len (String c s))%nat → continued k s' = true →
    parse_chars (json_from k 0 s' +:+ String quote rest) = Some (valid_text k s', rest)) as IH'
    by (intros; by eapply IH).
  assert (len s < len (String c s))%nat as Hlt by (unfold len; simpl; lia).
  assert (∀ k, (128 ≤ nat_of_ascii c)%nat → continued k s = true →
    parse_chars (String c (json_from k 0 s) +:+ String quote rest) =
      Some (String c (valid_text k s), rest)) as Hcopy.
  { intros k' Hc Hv'. rewrite string_cons_app, parse_plain; [by rewrite IH' | ..|lia];
      intros ->; vm_compute in Hc; lia. }
  destruct k as [|k]; cbn [json_from].
  - destruct (decide (nat_of_ascii c < 128)%nat) as [Hc|Hc].
    + rewrite <-string_app_assoc, parse_escape by done. cbn [valid_text].
      rewrite utf8_width_ascii by done. by rewrite IH'.
    + destruct (line_separator (String c s)) as [u|] eqn:Hl.
      * destruct (line_separator_spec _ _ Hl) as (x & r & Es & Hx & Hval & Hw & Hj & Hp).
        rewrite Hw. change (sdrop 1 (String c s)) with s in Hj. change (3 - 1)%nat with 2%nat.
        unfold ToValidUTF8 in Hval. rewrite Hj, <-string_app_assoc, Hp, IH', Hval; [done | | done].
        rewrite Es, len_app. lia.
      * cbn [valid_text]. destruct (utf8_width (String c s)) as [w|] eqn:Hw.
        -- apply Hcopy; [lia | by eapply utf8_width_continued].
        -- rewrite <-string_app_assoc. change (String backslash "ufffd" +:+ ?x)
             with (String backslash (String "u" (String "f" (String "f" (String "f" (String "d" x)))))).
           rewrite (parse_unit "f" "f" "f" "d" replacement) by done. by rewrite IH'.
  - cbn [continued] in Hv. apply andb_true_iff in Hv as [Hb Hv]. apply byte_in_cons in Hb.
    apply Hcopy; [lia | done].
Qed.

Lemma parse_json_chars s rest :
  parse_chars (json_chars s +:+ String quote rest) = Some (ToValidUTF8 s, rest).
Proof. by apply parse_json_from. Qed.

(** Valid strings are left as they are. *)
Lemma valid_text_valid k s : valid_from k s = true → valid_text k s = s.
Proof.
  revert k. induction s as [|c s IH]; intros k Hv; [done |]. cbn [valid_text valid_from] in *.
  destruct k as [|k].
  - destruct (utf8_width _); [by rewrite IH | done].
  - apply andb_true_iff in Hv as [_ Hv]. by rewrite IH.
Qed.

Lemma ToValidUTF8_valid s : valid_utf8 s = true → ToValidUTF8 s = s.
Proof. apply valid_text_valid. Qed.

(** *** Values *)

(** The bytes of the text of a number. *)
Definition number_char (c : ascii) : bool :=
  negb (is_nil (dec_val c)) || bool_decide (c ∈ ["-"; "+"; "."; "e"; "E"]%char).

(** A number begins with a digit or a minus sign. *)
Definition number_text (s : string) : bool :=
  match s with
  | "" => false
  | String c r => (negb (is_nil (dec_val c)) || Ascii.eqb c "-") && all_chars number_char r
  end.

(** The longest run of such bytes, and what follows it. *)
Fixpoint span_number (s : string) : string * string :=
  match s with
  | "" => ("", "")
  | String c r => if number_char c then let '(t, rest) := span_number r in (String c t, rest) else ("", s)
  end.

Definition parse_number (s : string) : option (Json * string) :=
  let '(t, rest) := span_number s in if number_text t then Some (JNumber t, rest) else None.

(** One or more items with commas between them, up to [close]. *)
Fixpoint parse_sep {A} (p : string → option (A * string)) (close : ascii) (n : nat) (s : string)
    : option (list A * string) :=
  match n with
  | O => None
  | S n =>
      '(x, r) ← p s;
      match r with
      | "" => None
      | String c r =>
          if Ascii.eqb c close then Some ([x], r)
          else if Ascii.eqb c "," then '(l, r) ← parse_sep p close n r; Some (x :: l, r)
          else None
      end
  end.

Definition parse_seq {A} (p : string → option (A * string)) (close : ascii) (n : nat) (s : string)
    : option (list A * string) :=
  match s with
  | String c r => if Ascii.eqb c close then Some ([], r) else parse_sep p close n s
  | "" => None
  end.

Definition parse_member (p : string → option (Json * string)) (s : string)
    : option (string * Json * string) :=
  match s with
  | "" => None
  | String c r =>
      if Ascii.eqb c quote then
        '(k, r) ← parse_chars r;
        match r with
        | "" => None
        | String c r => if Ascii.eqb c ":" then '(v, r) ← p r; Some (k, v, r) else None
        end
      else None
  end.

Fixpoint parse_value (fuel : nat) (s : string) : option (Json * string) :=
  match fuel with
  | O => None
  | S fuel =>
      match s with
      | "" => None
      | String c r =>
          if Ascii.eqb c quote then '(t, rest) ← parse_chars r; Some (JString t, rest)
          else if Ascii.eqb c "[" then
            '(l, rest) ← parse_seq (parse_value fuel) "]" fuel r; Some (JArray l, rest)
          else if Ascii.eqb c "{" then
            '(l, rest) ← parse_seq (parse_member (parse_value fuel)) "}" fuel r; Some (JObject l, rest)
          else if HasPrefix s "true" then Some (JBool true, sdrop 4 s)
          else if HasPrefix s "false" then Some (JBool false, sdrop 5 s)
          else if HasPrefix s "null" then Some (JNull, sdrop 4 s)
          else parse_number s
      end
  end.

(** Every value within is shorter than its text, so the length is fuel enough
    ([parse_encode]). *)
Definition parse_json (s : string) : option Json :=
  '(v, rest) ← parse_value (len s) s; if decide (rest = "") then Some v else None.

Fixpoint valid_json (v : Json) : bool :=
  match v with
  | JString s => valid_utf8 s
  | JNumber text => number_text text
  | JBool _ | JNull => true
  | JArray l => forallb valid_json l
  | JObject l => forallb (λ kv : string * Json, valid_utf8 kv.1 && valid_json kv.2) l
  end.

(** Numbers are numbers. *)
Fixpoint well_formed (v : Json) : bool :=
  match v with
  | JNumber text => number_text text
  | JString _ | JBool _ | JNull => true
  | JArray l => forallb well_formed l
  | JObject l => forallb (λ kv : string * Json, well_formed kv.2) l
  end.

(** The value a client reads of what is written for [v]. *)
Fixpoint read_json (v : Json) : Json :=
  match v with
  | JString s => JString (ToValidUTF8 s)
  | JNumber _ | JBool _ | JNull => v
  | JArray l => JArray (map read_json l)
  | JObject l => JObject (map (λ kv : string * Json, (ToValidUTF8 kv.1, read_json kv.2)) l)
  end.

Fixpoint json_size (v : Json) : nat :=
  match v with
  | JString _ | JNumber _ | JBool _ | JNull => 1
  | JArray l => S (sum_list_with (λ x, S (json_size x)) l)
  | JObject l => S (sum_list_with (λ kv : string * Json, S (json_size kv.2)) l)
  end.

(** What follows a value does not go on with a number. *)
Definition delimited (rest : string) : Prop :=
  match rest with "" => True | String c _ => number_char c = false end.

Lemma span_number_app t rest :
  all_chars number_char t = true → delimited rest → span_number (t +:+ rest) = (t, rest).
Proof.
  intros Ht Hd. induction t as [|c t IH].
  - destruct rest as [|c r]; [done |]. change ("" +:+ ?x) with x. cbn [span_number]. by rewrite Hd.
  - cbn [all_chars] in Ht. apply andb_true_iff in Ht as [Hc Ht]. rewrite string_cons_app.
    cbn [span_number]. by rewrite Hc, IH.
Qed.

(** The first byte of a number is that of no other value. *)
Lemma number_text_head s :
  number_text s = true →
  all_chars number_char s = true ∧
  ∃ c r, s = String c r ∧ number_char c = true ∧ c ∉ ["+"; "."; "e"; "E"]%char.
Proof.
  destruct s as [|c s]; [done |]. cbn [number_text all_chars]. intros [Hc Hs]%andb_true_iff.
  assert (number_char c = true ∧ c ∉ ["+"; "."; "e"; "E"]%char) as [Hn Hh].
  { apply orb_true_iff in Hc as [Hc|Hc%Ascii.eqb_eq]; [|subst; by apply (bool_decide_unpack _)].
    split; [unfold number_char; by rewrite Hc |].
    intros Hin. repeat (apply elem_of_cons in Hin as [->|Hin]; [done |]). by apply elem_of_nil in Hin. }
  split; [by rewrite Hn | by eexists _, _].
Qed.

Lemma parse_number_app t rest :
  number_text t = true → delimited rest → parse_number (t +:+ rest) = Some (JNumber t, rest).
Proof.
  intros Ht Hd. destruct (number_text_head t Ht) as [Hall _]. unfold parse_number.
  by rewrite span_number_app, Ht.
Qed.

(** *** The texts of integers are numbers *)

Definition digit_char (c : ascii) : bool := negb (is_nil (dec_val c)).

Lemma digit_pretty x : (x < 10)%N → digit_char (pretty_N_char x) = true.
Proof.
  intros Hx. assert (x ∈ N.of_nat <$> seq 0 10) as Hin.
  { apply list_elem_of_fmap. exists (N.to_nat x). rewrite elem_of_seq. split; lia. }
  revert Hin. clear Hx. revert x. apply Forall_forall. by repeat constructor.
Qed.

Lemma digits_pretty_go x s :
  all_chars digit_char s = true → all_chars digit_char (pretty_N_go x s) = true.
Proof.
  revert s. induction (N.lt_wf_0 x) as [x _ IH]. intros s Hs.
  destruct (decide (x = 0)%N) as [->|Hx]; [by rewrite pretty_N_go_0 |].
  rewrite pretty_N_go_step by lia. apply IH; [apply N.div_lt; lia |]. cbn [all_chars].
  by rewrite digit_pretty by (apply N.mod_lt; lia).
Qed.

Lemma pretty_go_nonempty x s : (0 < x)%N → pretty_N_go x s ≠ "".
Proof.
  revert s. induction (N.lt_wf_0 x) as [x _ IH]. intros s Hx. rewrite pretty_N_go_step by done.
  destruct (decide (x / 10 = 0)%N) as [H0|H0]; [by rewrite H0, pretty_N_go_0 |].
  apply IH; [by apply N.div_lt | by apply N.neq_0_lt_0].
Qed.

Lemma all_chars_impl (p q : ascii → bool) s :
  (∀ c, p c = true → q c = true) → all_chars p s = true → all_chars q s = true.
Proof.
  intros Hpq. induction s as [|c s IH]; [done |]. cbn [all_chars].
  intros [Hc Hs]%andb_true_iff. by rewrite (Hpq c Hc), IH.
Qed.

Lemma digits_number s : all_chars digit_char s = true → all_chars number_char s = true.
Proof. apply all_chars_impl. intros c Hc. unfold number_char. unfold digit_char in Hc. by rewrite Hc. Qed.

Lemma number_text_Itoa z : number_text (Itoa z) = true.
Proof.
  destruct z as [|p|p]; [done | |].
  - change (Itoa (Z.pos p)) with (pretty_N_go (N.pos p) "").
    pose proof (digits_pretty_go (N.pos p) "" eq_refl) as Hd.
    destruct (pretty_N_go (N.pos p) "") as [|c s] eqn:He; [by destruct (pretty_go_nonempty (N.pos p) "") |].
    cbn [all_chars] in Hd. apply andb_true_iff in Hd as [Hc Hs]. cbn [number_text].
    unfold digit_char in Hc. by rewrite Hc, (digits_number _ Hs).
  - change (Itoa (Z.neg p)) with (String "-" (pretty_N_go (N.pos p) "")). cbn [number_text].
    rewrite (digits_number _ (digits_pretty_go (N.pos p) "" eq_refl)). by vm_compute.
Qed.

Lemma valid_JInt z : valid_json (JInt z) = true.
Proof. apply number_text_Itoa. Qed.

Section Sequences.
  Context {A B : Type} (e : A → string) (f : A → B) (p : string → option (B * string)) (close : ascii).

Lemma parse_sep_join l n rest :
  close ≠ ","%char → number_char close = false → l ≠ [] → (length l ≤ n)%nat →
  (∀ x rest, x ∈ l → delimited rest → p (e x +:+ rest) = Some (f x, rest)) →
  parse_sep p close n (Join (e <$> l) "," +:+ String close rest) = Some (map f l, rest).
Proof.
  intros Hc Hd. revert n. induction l as [|x l IH]; intros n Hl Hn Hp; [done |].
  destruct n as [|n]; simpl in Hn; [lia |]. cbn [parse_sep].
  destruct l as [|y l].
  - cbn [fmap list_fmap Join]. rewrite Hp by (by left || done). simpl. by rewrite Ascii.eqb_refl.
  - change (Join (e <$> x :: y :: l) ",") with (e x +:+ "," +:+ Join (e <$> y :: l) ",").
    rewrite <-!string_app_assoc, Hp by (by left || done).
    change ("," +:+ ?x) with (String "," x). cbn [mbind option_bind]. cbn beta iota.
    rewrite (proj2 (Ascii.eqb_neq "," close)) by done. cbn [Ascii.eqb Bool.eqb].
    rewrite IH; [done | done | lia |]. intros z r Hz. apply Hp. by right.
Qed.
End Sequences.

Lemma sum_list_elem {A} (f : A → nat) l x : x ∈ l → (f x ≤ sum_list_with f l)%nat.
Proof. induction 1; simpl; lia. Qed.

Lemma sum_list_length {A} (f : A → nat) l : (length l ≤ sum_list_with (λ x, S (f x)) l)%nat.
Proof. induction l as [|x l IH]; simpl; [done | lia]. Qed.

(** A list of items between brackets, when each item is read back and none is
    empty or begins with the closing bracket. *)
Lemma parse_seq_join {A B} (e : A → string) (f : A → B) p close l n rest :
  close ≠ ","%char → number_char close = false → (length l ≤ n)%nat →
  (∀ x rest, x ∈ l → delimited rest → p (e x +:+ rest) = Some (f x, rest)) →
  (∀ x, x ∈ l → ∃ c r, e x = String c r ∧ c ≠ close) →
  parse_seq p close n (Join (e <$> l) "," +:+ String close rest) = Some (map f l, rest).
Proof.
  intros Hc Hd Hn Hp Hne. destruct l as [|x l].
  { change (parse_seq p close n (String close rest) = Some ([], rest)). cbn [parse_seq].
    by rewrite Ascii.eqb_refl. }
  pose proof (parse_sep_join e f p close (x :: l) n rest Hc Hd) as Hs.
  destruct (Hne x) as (c & r & Hx & Hcl); [by left |].
  assert (∃ r', Join (e <$> x :: l) "," +:+ String close rest = String c r') as [r' Hr'].
  { destruct l; cbn [fmap list_fmap Join]; rewrite Hx; rewrite ?string_cons_app; by eexists. }
  rewrite Hr' in Hs |- *. cbn [parse_seq]. rewrite (proj2 (Ascii.eqb_neq c close)) by done.
  by apply Hs.
Qed.

(** The first byte of a value. *)
Lemma encode_head v :
  well_formed v = true → ∃ c r, encode v = String c r ∧ c ∉ ["]"; "}"; ","]%char.
Proof.
  destruct v as [s|t|[]| |l|l]; cbn [encode]; intros Hv;
    try (eexists _, _; split; [done | by apply (bool_decide_unpack _)]).
  destruct (number_text_head t Hv) as (_ & c & r & -> & Hc & _). exists c, r. split; [done |].
  intros Hin. repeat (apply elem_of_cons in Hin as [->|Hin]; [done |]). by apply elem_of_nil in Hin.
Qed.

Lemma parse_value_read fuel v rest :
  (json_size v ≤ fuel)%nat → well_formed v = true → delimited rest →
  parse_value fuel (encode v +:+ rest) = Some (read_json v, rest).
Proof.
  revert v rest. induction fuel as [|fuel IH]; intros v rest Hf Hv Hd; [by destruct v; cbn in Hf; lia |].
  destruct v as [s|t|b| |l|l]; cbn [encode json_size well_formed read_json] in *.
  - unfold json_string, dquoted. rewrite string_cons_app, <-string_app_assoc.
    change (String quote "" +:+ rest) with (String quote rest). cbn [parse_value].
    rewrite Ascii.eqb_refl. by rewrite parse_json_chars.
  - pose proof (parse_number_app t rest Hv Hd) as Hp.
    destruct (number_text_head t Hv) as (_ & c & r & -> & Hc & _).
    rewrite string_cons_app in Hp |- *. cbn [parse_value].
    assert (c ∉ [quote; "["; "{"; "t"; "f"; "n"]%char) as Hn.
    { intros Hin. repeat (apply elem_of_cons in Hin as [->|Hin]; [done |]). by apply elem_of_nil in Hin. }
    rewrite !not_elem_of_cons in Hn. destruct Hn as (H1 & H2 & H3 & H4 & H5 & H6 & _).
    rewrite !(proj2 (Ascii.eqb_neq c _)) by done.
    assert (∀ d w, c ≠ d → HasPrefix (String c (r +:+ rest)) (String d w) = false) as Hpre.
    { intros d w Hcd. unfold HasPrefix. cbn [String.prefix]. by destruct (ascii_dec d c). }
    by rewrite !Hpre by done.
  - destruct b; cbn; by destruct rest.
  - cbn. by destruct rest.
  - rewrite <-string_app_assoc. change ("[" +:+ ?x) with (String "[" x).
    rewrite <-string_app_assoc. change ("]" +:+ rest) with (String "]" rest). cbn [parse_value].
    change (Ascii.eqb "[" quote) with false. cbn [Ascii.eqb Bool.eqb].
    rewrite (parse_seq_join _ read_json); [done | done | done | | |].
    + pose proof (sum_list_length json_size l). lia.
    + intros x r Hx Hr. pose proof (sum_list_elem (λ x, S (json_size x)) l x Hx) as Hsz. cbn beta in Hsz.
      apply IH; [lia | | done]. rewrite forallb_forall in Hv. apply Hv. by apply list_elem_of_In.
    + intros x Hx. destruct (encode_head x) as (c & r & -> & Hc).
      { rewrite forallb_forall in Hv. apply Hv. by apply list_elem_of_In. }
      exists c, r. split; [done |]. intros ->. apply Hc. by left.
  - rewrite <-string_app_assoc. change ("{" +:+ ?x) with (String "{" x).
    rewrite <-string_app_assoc. change ("}" +:+ rest) with (String "}" rest). cbn [parse_value].
    change (Ascii.eqb "{" quote) with false. cbn [Ascii.eqb Bool.eqb].
    rewrite (parse_seq_join _ (λ kv : string * Json, (ToValidUTF8 kv.1, read_json kv.2)));
      [done | done | done | | |].
    + pose proof (sum_list_length (λ kv : string * Json, json_size kv.2) l). lia.
    + intros [k x] r Hx Hr.
      pose proof (sum_list_elem (λ kv, S (json_size kv.2)) l (k, x) Hx) as Hsz. cbn in Hsz.
      rewrite forallb_forall in Hv. apply list_elem_of_In, Hv in Hx.
      simpl in *. unfold json_string, dquoted.
      rewrite <-string_app_assoc, string_cons_app, <-string_app_assoc. unfold parse_member.
      change (String quote "" +:+ ?y) with (String quote y). change ("" +:+ encode x) with (encode x).
      rewrite parse_json_chars. cbn [mbind option_bind]. rewrite string_cons_app.
      cbn [Ascii.eqb Bool.eqb]. rewrite IH; [done | lia | done | done].
    + intros [k x] Hx. by eexists quote, _.
Qed.

Lemma len_Join {A} (e : A → string) l :
  (sum_list_with (λ x, S (len (e x))) l ≤ S (len (Join (e <$> l) ",")))%nat.
Proof.
  induction l as [|x [|y l] IH]; [simpl; lia | cbn [fmap list_fmap Join sum_list_with]; lia |].
  change (Join (e <$> x :: y :: l) ",") with (e x +:+ "," +:+ Join (e <$> y :: l) ",").
  rewrite !len_app. change (len ",") with 1%nat.
  change (sum_list_with ?f (x :: y :: l)) with (f x + sum_list_with f (y :: l))%nat. cbn beta. lia.
Qed.

Lemma sum_list_le {A} (f g : A → nat) l :
  (∀ x, x ∈ l → (f x ≤ g x)%nat) → (sum_list_with f l ≤ sum_list_with g l)%nat.
Proof.
  induction l as [|x l IH]; intros Hfg; simpl; [done |].
  assert (f x ≤ g x)%nat by (apply Hfg; by left).
  assert (sum_list_with f l ≤ sum_list_with g l)%nat by (apply IH; intros y Hy; apply Hfg; by right).
  lia.
Qed.

Lemma json_size_encode v : well_formed v = true → (json_size v ≤ len (encode v))%nat.
Proof.
  remember (json_size v) as n eqn:Hn. revert v Hn. induction n as [n IH] using lt_wf_ind. intros v -> Hv.
  destruct v as [s|t|b| |l|l]; cbn [json_size encode well_formed] in *.
  - unfold json_string, dquoted, len. simpl. lia.
  - destruct (number_text_head t Hv) as (_ & c & r & -> & _). unfold len. simpl. lia.
  - destruct b; unfold len; simpl; lia.
  - unfold len. simpl. lia.
  - rewrite !len_app. change (len "[") with 1%nat. change (len "]") with 1%nat.
    pose proof (len_Join encode l).
    pose proof (sum_list_le (λ x, S (json_size x)) (λ x, S (len (encode x))) l) as Hle.
    cut (sum_list_with (λ x, S (json_size x)) l ≤ sum_list_with (λ x, S (len (encode x))) l)%nat; [lia |].
    apply Hle. intros x Hx. apply le_n_S. eapply IH; [|done |].
    2: { rewrite forallb_forall in Hv. apply Hv. by apply list_elem_of_In. }
    pose proof (sum_list_elem (λ x, S (json_size x)) l x Hx) as He. cbn in He |- *. lia.
  - rewrite !len_app. change (len "{") with 1%nat. change (len "}") with 1%nat.
    set (e := λ kv : string * Json, json_string kv.1 +:+ ":" +:+ encode kv.2).
    pose proof (len_Join e l).
    cut (sum_list_with (λ kv, S (json_size kv.2)) l ≤ sum_list_with (λ x, S (len (e x))) l)%nat; [lia |].
    apply sum_list_le. intros [k x] Hx. apply le_n_S. unfold e. rewrite !len_app. simpl.
    assert (json_size x ≤ len (encode x))%nat; [|lia]. eapply IH; [|done |].
    2: { rewrite forallb_forall in Hv. by apply list_elem_of_In, Hv in Hx. }
    pose proof (sum_list_elem (λ kv : string * Json, S (json_size kv.2)) l (k, x) Hx) as He.
    cbn in He |- *. lia.
Qed.

(** What [Marshal] writes is read back, but for bytes that are no UTF-8. *)
Lemma parse_read v : well_formed v = true → parse_json (encode v) = Some (read_json v).
Proof.
  intros Hv. unfold parse_json. rewrite <-(string_app_nil_r (encode v)) at 2.
  rewrite parse_value_read; [done | by apply json_size_encode | done | done].
Qed.

Lemma map_same {A} (f : A → A) l : (∀ x, x ∈ l → f x = x) → map f l = l.
Proof.
  induction l as [|x l IH]; intros Hf; [done |]. simpl. rewrite Hf by by left.
  by rewrite IH by (intros y Hy; apply Hf; by right).
Qed.

Lemma valid_json_read v : valid_json v = true → well_formed v = true ∧ read_json v = v.
Proof.
  remember (json_size v) as n eqn:Hn. revert v Hn. induction n as [n IH] using lt_wf_ind. intros v -> Hv.
  destruct v as [s|t|b| |l|l]; cbn [valid_json well_formed read_json] in *;
    [by rewrite ToValidUTF8_valid | done.. | |].
  - assert (∀ x, x ∈ l → well_formed x = true ∧ read_json x = x) as Hl.
    { intros x Hx. eapply IH; [|done |].
      - pose proof (sum_list_elem (λ x, S (json_size x)) l x Hx). cbn in *. lia.
      - rewrite forallb_forall in Hv. apply Hv. by apply list_elem_of_In. }
    split; [apply forallb_forall; intros x Hx%list_elem_of_In; by apply Hl |].
    by rewrite map_same by apply Hl.
  - assert (∀ kv, kv ∈ l → well_formed kv.2 = true ∧ (ToValidUTF8 kv.1, read_json kv.2) = kv) as Hl.
    { intros [k x] Hx. pose proof (sum_list_elem (λ kv, S (json_size kv.2)) l (k, x) Hx).
      rewrite forallb_forall in Hv. apply list_elem_of_In, Hv, andb_true_iff in Hx as [Hk Hx].
      simpl in *. destruct (IH (json_size x)) with x as [Hw ->]; [lia | done.. |].
      by rewrite ToValidUTF8_valid. }
    split; [apply forallb_forall; intros x Hx%list_elem_of_In; by apply Hl |].
    by rewrite map_same by apply Hl.
Qed.

Lemma parse_value_encode fuel v rest :
  (json_size v ≤ fuel)%nat → valid_json v = true → delimited rest →
  parse_value fuel (encode v +:+ rest) = Some (v, rest).
Proof.
  intros Hf Hv Hd. destruct (valid_json_read v Hv) as [Hw He].
  rewrite parse_value_read by done. by rewrite He.
Qed.

(** What [Marshal] writes of valid strings is read back. *)
Lemma parse_encode v : valid_json v = true → parse_json (encode v) = Some v.
Proof. intros [Hw He]%valid_json_read. rewrite parse_read by done. by rewrite He. Qed.

(** *** Maps *)

Lemma json_map_spec (m : gmap string string) :
  ∃ l, json_map m = JObject l ∧ ∀ p s, (p, JString s) ∈ l ↔ m !! p = Some s.
Proof.
  eexists. split; [done |]. intros p s. rewrite list_elem_of_fmap. split.
  - intros (k & [= -> ->] & Hk). rewrite merge_sort_Permutation, elem_of_elements in Hk.
    apply elem_of_dom in Hk as [s' ->]. done.
  - intros Hp. exists p. rewrite Hp. split; [done |].
    rewrite merge_sort_Permutation, elem_of_elements. by apply elem_of_dom.
Qed.

Lemma json_map_valid (m : gmap string string) :
  map_Forall (λ p s, valid_utf8 p = true ∧ valid_utf8 s = true) m → valid_json (json_map m) = true.
Proof.
  intros Hm. cbn. apply forallb_forall. intros [p v] Hin. apply list_elem_of_In in Hin.
  apply list_elem_of_fmap in Hin as (k & [= -> ->] & Hk).
  rewrite merge_sort_Permutation, elem_of_elements in Hk. apply elem_of_dom in Hk as [s Hk].
  destruct (Hm k s Hk). rewrite Hk. by apply andb_true_iff.
Qed.
