(* ===== verification/Redact.v ===== *)
(** * Redaction of logged bodies (internal/middleware/logging.go)

    The pattern [sensitiveFieldRe] is given as a regular expression with its
    language; at any position at most one string of that language can start, so
    Go's leftmost-first choice is no choice, and a deterministic matcher finds
    exactly it ([sensitive_match_exact]).  [ReplaceAllStringFunc] scans a body
    with the matcher; [Parse] is its result as a list.  [hide] says what is to be
    hidden in a body of JSON, without the pattern.  Strings are bytes: the pattern's
    repeated class of everything but a quote is the same language over runes and
    over bytes. *)

From S2P Require Import Prelude GoStrings Http.

Open Scope Z_scope.

(** ** Regular expressions *)

Inductive Regex :=
| RClass (p : ascii → bool)
| RLit (s : string)
| RCat (a b : Regex)
| RAlt (a b : Regex)
| RStar (a : Regex).

Inductive re_match : Regex → string → Prop :=
| rm_class p c : p c = true → re_match (RClass p) (String c "")
| rm_lit s : re_match (RLit s) s
| rm_cat a b s t : re_match a s → re_match b t → re_match (RCat a b) (s +:+ t)
| rm_left a b s : re_match a s → re_match (RAlt a b) s
| rm_right a b s : re_match b s → re_match (RAlt a b) s
| rm_nil a : re_match (RStar a) ""
| rm_cons a s t : re_match a s → re_match (RStar a) t → re_match (RStar a) (s +:+ t).

(** [\s]: tab, newline, form feed, carriage return and space. *)
Definition re_space (c : ascii) : bool :=
  let n := nat_of_ascii c in bool_decide (n = 9 ∨ n = 10 ∨ n = 12 ∨ n = 13 ∨ n = 32)%nat.

Definition not_quote (c : ascii) : bool := negb (Ascii.eqb c quote).

(** The letters outside ASCII that [(?i)] adds: U+212A (Kelvin) to k, U+017F (long
    s) to s. *)
Definition fold_extra (c : ascii) : option string :=
  if Ascii.eqb c "k" then Some (String (ascii_of_nat 226) (String (ascii_of_nat 132)
                                  (String (ascii_of_nat 170) "")))
  else if Ascii.eqb c "s" then Some (String (ascii_of_nat 197) (String (ascii_of_nat 191) ""))
  else None.

(** A letter under [(?i)], given in lower case. *)
Definition re_fold (c : ascii) : Regex :=
  let ascii_case := RClass (λ d, Ascii.eqb (lower_ascii d) c) in
  match fold_extra c with Some x => RAlt ascii_case (RLit x) | None => ascii_case end.

Fixpoint re_word (w : string) : Regex :=
  match w with "" => RLit "" | String c w => RCat (re_fold c) (re_word w) end.

Definition re_quote : Regex := RLit (String quote "").

Definition re_any : list Regex → Regex := foldr RAlt (RClass (λ _, false)).

Definition sensitive_words : list string := ["password"; "secret"; "token"; "key"; "authorization"].

(** The pattern up to and including the quote that opens the value: a key, a colon,
    white space around it. *)
Definition field_open : Regex :=
  RCat re_quote (RCat (RCat (re_any (re_word <$> sensitive_words)) re_quote)
    (RCat (RCat (RStar (RClass re_space)) (RLit ":"))
       (RCat (RStar (RClass re_space)) re_quote))).

Definition sensitiveFieldRe : Regex :=
  RCat field_open (RCat (RStar (RClass not_quote)) re_quote).

(** ** The matcher

    A consumer splits a string into what it matches and the rest. *)
Definition Consumer : Type := string → option (string * string).

Definition then_ (p q : Consumer) : Consumer := λ s,
  '(m, r) ← p s; '(m', r') ← q r; Some (m +:+ m', r').

Definition or_else (p q : Consumer) : Consumer := λ s,
  match p s with Some x => Some x | None => q s end.

Definition fails : Consumer := λ _, None.

Definition literal (w : string) : Consumer := λ s,
  if HasPrefix s w then Some (w, sdrop (len w) s) else None.

Definition one (p : ascii → bool) : Consumer := λ s,
  match s with
  | String c r => if p c then Some (String c "", r) else None
  | "" => None
  end.

(** [p*] and then the character [stop], which is not in [p]. *)
Fixpoint many_then (p : ascii → bool) (stop : ascii) (s : string) : option (string * string) :=
  match s with
  | "" => None
  | String c r =>
      if Ascii.eqb c stop then Some (String c "", r)
      else if p c then '(m, r') ← many_then p stop r; Some (String c m, r')
      else None
  end.

Definition fold_char (c : ascii) : Consumer :=
  let ascii_case := one (λ d, Ascii.eqb (lower_ascii d) c) in
  match fold_extra c with Some x => or_else ascii_case (literal x) | None => ascii_case end.

Fixpoint match_word (w : string) : Consumer :=
  match w with "" => literal "" | String c w => then_ (fold_char c) (match_word w) end.

Definition match_quote : Consumer := literal (String quote "").

Definition match_key : Consumer :=
  foldr (λ w, or_else (then_ (match_word w) match_quote)) fails sensitive_words.

Definition match_open : Consumer :=
  then_ match_quote (then_ match_key
    (then_ (many_then re_space ":") (many_then re_space quote))).

(** A match of [sensitiveFieldRe] at the start of a string. *)
Definition sensitive_match : Consumer := then_ match_open (many_then not_quote quote).

(** ** Replacement *)

(** [strings.LastIndex(s, c)] for a one-byte [c]; [None] is -1. *)
Fixpoint LastIndex (s : string) (c : ascii) : option nat :=
  match s with
  | "" => None
  | String d r =>
      match LastIndex r c with
      | Some n => Some (S n)
      | None => if Ascii.eqb d c then Some 0%nat else None
      end
  end.

(** [re.ReplaceAllStringFunc(s, f)] for a pattern without empty matches: the text
    of a match is skipped after its replacement. *)
Fixpoint replace_from (re : Consumer) (f : string → string) (skip : nat) (s : string) : string :=
  match s, skip with
  | "", _ => ""
  | String _ r, S skip => replace_from re f skip r
  | String c r, O =>
      match re s with
      | Some (m, _) => f m +:+ replace_from re f (len m - 1) r
      | None => String c (replace_from re f 0 r)
      end
  end.

Definition ReplaceAllStringFunc (re : Consumer) (f : string → string) (s : string) : string :=
  replace_from re f 0 s.

(** The function literal of [redactSensitive]; [match[:-1]] cannot happen: a match
    ends with a quote. *)
Definition redact_match (m : string) : string :=
  let inner := stake (default 0%nat (LastIndex m quote)) m in
  match LastIndex inner quote with
  | None => m
  | Some valueOpen => stake (valueOpen + 1) m +:+ "***" +:+ String quote ""
  end.

Definition redactSensitive (s : string) : string :=
  ReplaceAllStringFunc sensitive_match redact_match s.

Example redact_example :
  redactSensitive ("{" +:+ dquoted "ToKen" +:+ " : " +:+ dquoted "abc" +:+ "," +:+
    dquoted "user" +:+ ":" +:+ dquoted "bob" +:+ "}") =
  "{" +:+ dquoted "ToKen" +:+ " : " +:+ dquoted "***" +:+ "," +:+
    dquoted "user" +:+ ":" +:+ dquoted "bob" +:+ "}".
Proof. by vm_compute. Qed.

(** ** The matcher finds the pattern's language *)

Definition quote_free (s : string) : bool := all_chars not_quote s.

(** The shortest prefix with [n] quotes. *)
Fixpoint upto (n : nat) (s : string) {struct s} : option (string * string) :=
  match n with
  | O => Some ("", s)
  | S n' =>
      match s with
      | "" => None
      | String c r => '(m, r') ← upto (if Ascii.eqb c quote then n' else n) r; Some (String c m, r')
      end
  end.

(** The consumer [p] finds the strings of [e], and at most one at any position. *)
Class Exact (p : Consumer) (e : Regex) : Prop :=
  exact_iff : ∀ s m r, p s = Some (m, r) ↔ s = m +:+ r ∧ re_match e m.

(** Every string of [e] ends with its [n]-th quote. *)
Class Stops (n : nat) (e : Regex) : Prop :=
  stops_upto : ∀ m, re_match e m → ∀ r, upto n (m +:+ r) = Some (m, r).

Class NoQuote (e : Regex) : Prop :=
  no_quote_free : ∀ m, re_match e m → quote_free m = true.

Lemma upto_quote_free m n r :
  quote_free m = true → upto (S n) (m +:+ r) = '(m', r') ← upto (S n) r; Some (m +:+ m', r').
Proof.
  induction m as [|c m IH]; intros Hm.
  - change ("" +:+ r) with r. by destruct (upto (S n) r) as [[]|].
  - apply andb_true_iff in Hm as [Hc Hm]. apply negb_true_iff in Hc.
    change (String c m +:+ r) with (String c (m +:+ r)). cbn [upto]. rewrite Hc, IH by done.
    by destruct (upto (S n) r) as [[]|].
Qed.

Lemma upto_add n k s m r :
  upto n s = Some (m, r) → upto (n + k) s = '(m', r') ← upto k r; Some (m +:+ m', r').
Proof.
  revert n m. induction s as [|c s IH]; intros [|n] m.
  - intros [= <- <-]. change (0 + k)%nat with k. by destruct (upto k "") as [[]|].
  - done.
  - intros [= <- <-]. change (0 + k)%nat with k. by destruct (upto k (String c s)) as [[]|].
  - simpl. destruct (upto _ s) as [[m1 r1]|] eqn:Hu; [|done]. simpl. intros [= <- <-].
    replace (if Ascii.eqb c quote then (n + k)%nat else S (n + k))
      with ((if Ascii.eqb c quote then n else S n) + k)%nat by (by destruct (Ascii.eqb c quote)).
    rewrite (IH _ _ Hu). by destruct (upto k r1) as [[]|].
Qed.

#[export] Instance stops_quote : Stops 1 re_quote.
Proof. intros m Hm r. inversion Hm; subst. by destruct r. Qed.

#[export] Instance stops_cat n k a b : Stops n a → Stops k b → Stops (n + k) (RCat a b).
Proof.
  intros Ha Hb m Hm r. inversion Hm as [| |? ? s t Hs Ht| | | |]; subst.
  rewrite <-string_app_assoc, (upto_add n k _ s (t +:+ r)) by by apply Ha.
  by rewrite (Hb t Ht).
Qed.

#[export] Instance stops_after a b : NoQuote a → Stops 1 b → Stops 1 (RCat a b).
Proof.
  intros Ha Hb m Hm r. inversion Hm as [| |? ? s t Hs Ht| | | |]; subst.
  rewrite <-string_app_assoc, (upto_quote_free s 0) by by apply Ha. by rewrite (Hb t Ht).
Qed.

Lemma no_quote_class p : (∀ c, p c = true → not_quote c = true) → NoQuote (RClass p).
Proof. intros Hp m Hm. inversion Hm; subst. unfold quote_free. simpl. by rewrite Hp. Qed.

Lemma no_quote_lit w : quote_free w = true → NoQuote (RLit w).
Proof. intros Hw m Hm. by inversion Hm; subst. Qed.

#[export] Instance no_quote_cat a b : NoQuote a → NoQuote b → NoQuote (RCat a b).
Proof.
  intros Ha Hb m Hm. inversion Hm; subst. unfold quote_free. rewrite all_chars_app.
  apply andb_true_iff. split; [by apply Ha | by apply Hb].
Qed.

#[export] Instance no_quote_alt a b : NoQuote a → NoQuote b → NoQuote (RAlt a b).
Proof. intros Ha Hb m Hm. inversion Hm; subst; [by apply Ha | by apply Hb]. Qed.

#[export] Instance no_quote_star a : NoQuote a → NoQuote (RStar a).
Proof.
  intros Ha m Hm. remember (RStar a) as e eqn:He. induction Hm; simplify_eq; [done |].
  unfold quote_free. rewrite all_chars_app. apply andb_true_iff. split; [by apply Ha | by apply IHHm2].
Qed.

Lemma stops_unique n a b m m' r r' :
  Stops n a → Stops n b → re_match a m → re_match b m' → m +:+ r = m' +:+ r' → m = m' ∧ r = r'.
Proof.
  intros Ha Hb Hm Hm' Heq. pose proof (Ha m Hm r) as H1. rewrite Heq, (Hb m' Hm' r') in H1.
  by simplify_eq.
Qed.

#[export] Instance exact_literal w : Exact (literal w) (RLit w).
Proof.
  intros s m r. unfold literal. split.
  - destruct (HasPrefix s w) eqn:Hp; [|done]. apply HasPrefix_spec in Hp as [t ->].
    rewrite sdrop_app. intros [= <- <-]. split; [done | constructor].
  - intros [-> Hm]. inversion Hm; subst. by rewrite HasPrefix_app, sdrop_app.
Qed.

#[export] Instance exact_one p : Exact (one p) (RClass p).
Proof.
  intros s m r. split.
  - destruct s as [|c s]; simpl; [done |]. destruct (p c) eqn:Hc; [|done].
    intros [= <- <-]. split; [done | by constructor].
  - intros [-> Hm]. inversion Hm as [? c Hc| | | | | |]; subst. simpl. by rewrite Hc.
Qed.

#[export] Instance exact_then p q a b : Exact p a → Exact q b → Exact (then_ p q) (RCat a b).
Proof.
  intros Hp Hq s m r. unfold then_. split.
  - destruct (p s) as [[m1 r1]|] eqn:H1; [|done]. simpl.
    destruct (q r1) as [[m2 r2]|] eqn:H2; [|done]. intros [= <- <-].
    apply Hp in H1 as [-> H1]. apply Hq in H2 as [-> H2].
    split; [by rewrite string_app_assoc | by constructor].
  - intros [-> Hm]. inversion Hm as [| |? ? m1 m2 H1 H2| | | |]; subst.
    rewrite <-string_app_assoc. rewrite (proj2 (Hp _ m1 (m2 +:+ r))) by done. simpl.
    by rewrite (proj2 (Hq _ m2 r)).
Qed.

(** An alternative is exact when the two sides never start strings of different
    extent at one position. *)
Lemma exact_or p q a b :
  Exact p a → Exact q b →
  (∀ m m' r r', re_match a m → re_match b m' → m +:+ r = m' +:+ r' → m = m') →
  Exact (or_else p q) (RAlt a b).
Proof.
  intros Hp Hq Hpf s m r. unfold or_else. split.
  - destruct (p s) as [[m1 r1]|] eqn:H1.
    + intros [= <- <-]. apply Hp in H1 as [-> H1]. split; [done | by apply rm_left].
    + intros H2. apply Hq in H2 as [-> H2]. split; [done | by apply rm_right].
  - intros [-> Hm]. inversion Hm as [| | |? ? ? H1|? ? ? H2| |]; subst.
    + by rewrite (proj2 (Hp _ m r)).
    + destruct (p (m +:+ r)) as [[m1 r1]|] eqn:H1; [|by apply Hq].
      apply Hp in H1 as [Heq H1]. assert (m1 = m) as -> by (by eapply Hpf).
      apply string_app_inj in Heq as [_ Heq]; [by subst | done].
Qed.

#[export] Instance exact_many p stop :
  p stop = false → Exact (many_then p stop) (RCat (RStar (RClass p)) (RLit (String stop ""))).
Proof.
  intros Hstop s. induction s as [|c s IH]; intros m r; simpl.
  - split; [done |]. intros [Heq Hm]. inversion Hm as [| |? ? m1 m2 _ H2| | | |]; subst.
    inversion H2; subst. by destruct m1.
  - destruct (Ascii.eqb_spec c stop) as [->|Hc]; split.
    + intros [= <- <-]. split; [done |]. apply (rm_cat _ _ ""); [constructor | constructor].
    + intros [Heq Hm]. inversion Hm as [| |? ? m1 m2 H1 H2| | | |]; subst. inversion H2; subst.
      inversion H1 as [| | | | | |? t u Ht Hu]; subst; [by injection Heq as -> |].
      inversion Ht as [? d Hd| | | | | |]; subst. injection Heq as -> _. congruence.
    + destruct (p c) eqn:Hp; [|done]. destruct (many_then p stop s) as [[m1 r1]|]; [|done].
      intros [= <- <-]. destruct (proj1 (IH m1 r1) eq_refl) as [-> H1]. split; [done |].
      inversion H1 as [| |? ? m2 m3 H2 H3| | | |]; subst.
      apply (rm_cat _ _ (String c m2)); [|done].
      apply (rm_cons _ (String c "")); [by constructor | done].
    + intros [Heq Hm]. inversion Hm as [| |? ? m1 m2 H1 H2| | | |]; subst. inversion H2; subst.
      inversion H1 as [| | | | | |? t u Ht Hu]; subst; [by injection Heq as -> |].
      inversion Ht as [? d Hd| | | | | |]; subst. injection Heq as -> Heq. rewrite Hd.
      rewrite (proj2 (IH (u +:+ String stop "") r)); [done |].
      split; [done | by constructor].
Qed.

#[export] Instance exact_fold c : Exact (fold_char c) (re_fold c).
Proof.
  unfold fold_char, re_fold, fold_extra.
  destruct (Ascii.eqb_spec c "k") as [->|_]; [|destruct (Ascii.eqb_spec c "s") as [->|_]; [|apply _]];
    (apply exact_or; [apply _ | apply _ |]);
    intros m m' r r' Hm Hm'; inversion Hm as [? d Hd| | | | | |]; inversion Hm'; subst;
    intros [= -> _]; by vm_compute in Hd.
Qed.

#[export] Instance exact_word w : Exact (match_word w) (re_word w).
Proof. induction w; apply _. Qed.

Lemma re_cat_alt a b q m :
  re_match (RCat (RAlt a b) q) m ↔ re_match (RAlt (RCat a q) (RCat b q)) m.
Proof.
  split; intros Hm.
  - inversion Hm as [| |? ? s t Hs Ht| | | |]; subst. inversion Hs; subst;
      [apply rm_left | apply rm_right]; by constructor.
  - inversion Hm as [| | |? ? ? H|? ? ? H| |]; subst; inversion H; subst; constructor; try done;
      [by apply rm_left | by apply rm_right].
Qed.

(** No letter of a word of lower-case letters folds to a quote. *)
Definition lower_word (w : string) : bool :=
  all_chars (λ c, bool_decide (97 ≤ nat_of_ascii c ≤ 122)%nat) w.

Lemma no_quote_word w : lower_word w = true → NoQuote (re_word w).
Proof.
  induction w as [|c w IH]; intros Hw; [by apply no_quote_lit |].
  apply andb_true_iff in Hw as [Hc Hw].
  apply no_quote_cat; [|by apply IH].
  assert (NoQuote (RClass (λ d, Ascii.eqb (lower_ascii d) c))).
  { apply no_quote_class. intros d Hd. apply negb_true_iff, Ascii.eqb_neq. intros ->.
    apply Ascii.eqb_eq in Hd. subst c. by vm_compute in Hc. }
  unfold re_fold. destruct (fold_extra c) as [x|] eqn:Hx; [|done].
  apply no_quote_alt; [done |]. apply no_quote_lit. unfold fold_extra in Hx.
  repeat case_match; by simplify_eq.
Qed.

Lemma exact_key ws :
  Forall (λ w, lower_word w = true) ws →
  Exact (foldr (λ w, or_else (then_ (match_word w) match_quote)) fails ws)
    (RCat (re_any (re_word <$> ws)) re_quote) ∧
  NoQuote (re_any (re_word <$> ws)).
Proof.
  induction 1 as [|w ws Hw _ [IH IHn]]; simpl.
  - split; [|intros m Hm; by inversion Hm]. intros s m r. split; [done |].
    intros [_ Hm]. inversion Hm as [| |? ? m1 m2 H1 H2| | | |]; subst. by inversion H1.
  - pose proof (no_quote_word w Hw) as Hn. split; [|by apply no_quote_alt].
    intros s m r. rewrite re_cat_alt. revert s m r.
    refine (exact_or _ _ _ _ _ IH _).
    intros m m' r r' Hm Hm' Heq. by destruct (stops_unique 1 _ _ m m' r r' _ _ Hm Hm' Heq) as [-> _].
Qed.

(** ** A position has at most one match *)

Lemma space_not_quote c : re_space c = true → not_quote c = true.
Proof.
  intros Hc. apply negb_true_iff, Ascii.eqb_neq. intros ->. by vm_compute in Hc.
Qed.

#[export] Instance no_quote_spaces : NoQuote (RStar (RClass re_space)).
Proof. apply no_quote_star, no_quote_class, space_not_quote. Qed.

#[export] Instance no_quote_value : NoQuote (RStar (RClass not_quote)).
Proof. by apply no_quote_star, no_quote_class. Qed.

#[export] Instance stops_open : Stops 3 field_open.
Proof.
  apply (stops_cat 1 2); [apply _ |]. apply (stops_cat 1 1).
  - apply stops_after; [|apply _]. apply exact_key. by repeat constructor.
  - apply stops_after; [|apply stops_after; apply _].
    apply no_quote_cat; [apply _ | by apply no_quote_lit].
Qed.

#[export] Instance exact_open : Exact match_open field_open.
Proof.
  apply exact_then; [apply _ |]. apply exact_then; [apply exact_key; by repeat constructor |].
  apply exact_then; by apply exact_many.
Qed.

#[export] Instance stops_sensitive : Stops 4 sensitiveFieldRe.
Proof. apply (stops_cat 3 1); [apply _ |]. apply stops_after; apply _. Qed.

(** The matcher finds a prefix exactly when it is in the language of the pattern. *)
#[export] Instance sensitive_match_exact : Exact sensitive_match sensitiveFieldRe.
Proof. apply exact_then; [apply _ |]. by apply exact_many. Qed.

(** ** The fields of a body

    A body, read from the left, is a sequence of single bytes and of fields: an
    opening (key, colon, opening quote) and a value with its closing quote. *)

Definition value_re : Regex := RCat (RStar (RClass not_quote)) re_quote.

Inductive Piece := Plain (c : ascii) | Field (opening value : string).

Inductive Parse : string → list Piece → Prop :=
| parse_nil : Parse "" []
| parse_plain c s l :
    sensitive_match (String c s) = None → Parse s l → Parse (String c s) (Plain c :: l)
| parse_field o v s l :
    re_match field_open o → re_match value_re v → Parse s l →
    Parse (o +:+ (v +:+ s)) (Field o v :: l).

Definition masked_value : string := "***" +:+ String quote "".

Definition piece_text (p : Piece) : string :=
  match p with Plain c => String c "" | Field o v => o +:+ v end.

Definition mask (p : Piece) : Piece :=
  match p with Plain c => Plain c | Field o _ => Field o masked_value end.

Fixpoint text (l : list Piece) : string :=
  match l with [] => "" | p :: l => piece_text p +:+ text l end.

(** The same pieces but for the values. *)
Inductive same_but_value : Piece → Piece → Prop :=
| sbv_plain c : same_but_value (Plain c) (Plain c)
| sbv_field o v v' : re_match value_re v' → same_but_value (Field o v) (Field o v').

Lemma upto_text n s m r : upto n s = Some (m, r) → s = m +:+ r.
Proof.
  revert n m. induction s as [|c s IH]; intros [|n] m; simpl; try done.
  - by intros [= <- <-].
  - by intros [= <- <-].
  - destruct (upto _ s) as [[m1 r1]|] eqn:Hu; [|done]. intros [= <- <-].
    by rewrite (IH _ _ Hu).
Qed.

(** A string with [n] quotes decides where the first [k] of them are. *)
Lemma upto_prefix k n u x :
  (k ≤ n)%nat → upto n (u +:+ x) = Some (u, x) →
  ∃ m w, u = m +:+ w ∧ ∀ y, upto k (u +:+ y) = Some (m, w +:+ y).
Proof.
  revert k n. induction u as [|c u IH]; intros [|k] n Hk Hu;
    [exists "", ""; split; [done |]; by intros [] | | by exists "", (String c u) |].
  - destruct n as [|n]; [lia |]. apply upto_text in Hu as Hx. change ("" +:+ x) with x in Hu.
    exfalso. destruct x as [|d x]; simpl in Hu; [done |]. by destruct (upto _ x) as [[]|].
  - destruct n as [|n]; [lia |]. change (String c u +:+ x) with (String c (u +:+ x)) in Hu.
    simpl in Hu. destruct (upto _ (u +:+ x)) as [[m1 r1]|] eqn:H1; [|done]. simplify_eq/=.
    destruct (IH (if Ascii.eqb c quote then k else S k) (if Ascii.eqb c quote then n else S n))
      as (m & w & -> & Hm); [destruct (Ascii.eqb c quote); lia | done |].
    exists (String c m), w. split; [done |]. intros y.
    change (String c (m +:+ w) +:+ y) with (String c ((m +:+ w) +:+ y)). cbn [upto]. by rewrite Hm.
Qed.

Lemma value_shape v : re_match value_re v → ∃ t, v = t +:+ String quote "" ∧ quote_free t = true.
Proof.
  intros Hv. inversion Hv as [| |? ? t q Ht Hq| | | |]; subst. inversion Hq; subst.
  exists t. split; [done | by apply no_quote_value].
Qed.

Lemma open_shape o :
  re_match field_open o → ∃ t, o = String quote (t +:+ String quote "").
Proof.
  intros Ho. inversion Ho as [| |? ? q1 t1 Hq H1| | | |]; subst. inversion Hq; subst.
  inversion H1 as [| |? ? t2 t3 _ H3| | | |]; subst.
  inversion H3 as [| |? ? t4 t5 _ H5| | | |]; subst.
  inversion H5 as [| |? ? t6 t7 _ H7| | | |]; subst. inversion H7; subst.
  exists (t2 +:+ t4 +:+ t6). by rewrite <-!string_app_assoc.
Qed.

Lemma sensitive_cat o v :
  re_match field_open o → re_match value_re v → re_match sensitiveFieldRe (o +:+ v).
Proof. by constructor. Qed.

Lemma LastIndex_app_quote s t :
  quote_free t = true → LastIndex (s +:+ String quote t) quote = Some (len s).
Proof.
  intros Ht. induction s as [|c s IH].
  - change ("" +:+ String quote t) with (String quote t). cbn [LastIndex]. assert (LastIndex t quote = None) as ->; [|done].
    induction t as [|d t IHt]; [done |]. apply andb_true_iff in Ht as [Hd Ht].
    apply negb_true_iff in Hd. simpl. by rewrite (IHt Ht), Hd.
  - change (String c s +:+ String quote t) with (String c (s +:+ String quote t)).
    cbn [LastIndex]. by rewrite IH.
Qed.

(** The replacement keeps what opens a field and masks its value. *)
Lemma redact_match_field o v :
  re_match field_open o → re_match value_re v → redact_match (o +:+ v) = o +:+ masked_value.
Proof.
  intros Ho Hv. destruct (value_shape v Hv) as (t & -> & Ht).
  assert (∃ p, o = p +:+ String quote "") as [p Eo].
  { destruct (open_shape o Ho) as [o' ->]. by exists (String quote o'). }
  unfold redact_match. rewrite string_app_assoc, (LastIndex_app_quote (o +:+ t) "") by done.
  simpl. rewrite stake_app, Eo.
  assert ((p +:+ String quote "") +:+ t = p +:+ String quote t) as ->
    by by rewrite <-string_app_assoc.
  rewrite LastIndex_app_quote by done.
  replace (len p + 1)%nat with (len (p +:+ String quote "")) by (rewrite len_app; done).
  assert ((p +:+ String quote t) +:+ String quote "" =
    (p +:+ String quote "") +:+ t +:+ String quote "") as -> by by rewrite <-!string_app_assoc.
  by rewrite stake_app.
Qed.

Lemma replace_skip re f m r : replace_from re f (len m) (m +:+ r) = replace_from re f 0 r.
Proof. by induction m as [|c m IH]. Qed.

Lemma sensitive_some m r : re_match sensitiveFieldRe m → sensitive_match (m +:+ r) = Some (m, r).
Proof. intros Hm. by apply sensitive_match_exact. Qed.

Lemma Parse_text s l : Parse s l → text l = s.
Proof.
  induction 1 as [|c s l _ _ IH|o v s l _ _ _ IH]; [done | by simpl; rewrite IH |].
  simpl. by rewrite <-string_app_assoc, IH.
Qed.

Lemma redact_Parse s l : Parse s l → redactSensitive s = text (mask <$> l).
Proof.
  unfold redactSensitive, ReplaceAllStringFunc.
  induction 1 as [|c s l Hno _ IH|o v s l Ho Hv _ IH]; [done | |].
  - cbn [replace_from]. rewrite Hno, IH. done.
  - rewrite string_app_assoc. pose proof (sensitive_some (o +:+ v) s (sensitive_cat o v Ho Hv)) as Hm.
    cbn [fmap list_fmap mask text piece_text].
    rewrite <-IH, <-(redact_match_field o v) by done.
    destruct (open_shape o Ho) as [o' ->].
    remember (String quote (o' +:+ String quote "") +:+ v) as m eqn:Em.
    assert (m = String quote ((o' +:+ String quote "") +:+ v)) as Em' by by rewrite Em.
    rewrite Em' at 1. change (String quote ?x +:+ s) with (String quote (x +:+ s)).
    cbn [replace_from].
    change (String quote (((o' +:+ String quote "") +:+ v) +:+ s))
      with (String quote ((o' +:+ String quote "") +:+ v) +:+ s).
    rewrite <-Em', Hm. f_equal. rewrite Em'. simpl. rewrite Nat.sub_0_r. apply replace_skip.
Qed.

Lemma Parse_total s : ∃ l, Parse s l.
Proof.
  remember (len s) as n eqn:Hn. revert s Hn.
  induction n as [n IH] using lt_wf_ind. intros s ->.
  destruct s as [|c s]; [exists []; constructor |].
  destruct (sensitive_match (String c s)) as [[m r]|] eqn:Hm.
  - apply sensitive_match_exact in Hm as [Heq Hm]. rewrite Heq in *.
    inversion Hm as [| |? ? o v Ho Hv| | | |]; subst.
    destruct (IH (len r)) with r as [l Hl]; [|done |].
    { destruct (open_shape o Ho) as [o' ->]. rewrite !len_app. unfold len. simpl. lia. }
    exists (Field o v :: l). rewrite <-string_app_assoc. by constructor.
  - destruct (IH (len s)) with s as [l Hl]; [simpl; lia | done |].
    exists (Plain c :: l). by constructor.
Qed.

(** Two bodies that differ only in values agree up to their third quote. *)
Lemma upto_same_but_value l l' k m r :
  Forall2 same_but_value l l' → Forall (λ p, match p with Field o _ => re_match field_open o | _ => True end) l →
  (k ≤ 3)%nat → upto k (text l') = Some (m, r) → ∃ r', upto k (text l) = Some (m, r').
Proof.
  intros Hl. revert k m r. induction Hl as [|p p' l l' [c|o v v' Hv] _ IH]; intros k m r Hok Hk Hu.
  - by exists r.
  - apply Forall_cons_iff in Hok as [_ Hok].
    change (text (Plain c :: l')) with (String c (text l')) in Hu.
    change (text (Plain c :: l)) with (String c (text l)).
    destruct k as [|k]; simpl in Hu; [injection Hu as <- <-; by eexists |].
    destruct (upto _ (text l')) as [[m1 r1]|] eqn:H1; [|done]. simplify_eq/=.
    edestruct IH as [r' ->]; [exact Hok | | exact H1 |]; [case_match; lia | by eexists].
  - apply Forall_cons_iff in Hok as [Ho _]. cbn [text piece_text] in *.
    rewrite <-string_app_assoc in Hu. rewrite <-string_app_assoc.
    pose proof (stops_open o Ho "") as H3.
    destruct (upto_prefix k 3 o "" Hk H3) as (m' & w & _ & Hw).
    rewrite Hw in Hu. injection Hu as <- <-. eexists. apply Hw.
Qed.

Lemma Parse_fields s l :
  Parse s l → Forall (λ p, match p with Field o _ => re_match field_open o | _ => True end) l.
Proof. by induction 1; constructor. Qed.

(** Changing values leaves the fields where they are. *)
Lemma Parse_same_but_value s l l' :
  Parse s l → Forall2 same_but_value l l' → Parse (text l') l'.
Proof.
  intros Hp. revert l'. induction Hp as [|c s l Hno Hp IH|o v s l Ho Hv Hp IH]; intros l' Hl.
  - inversion Hl; subst. constructor.
  - inversion Hl as [|? ? ? l1 Hc Hl1]; subst. inversion Hc; subst. constructor; [|by apply IH].
    change (String c "" +:+ text l1) with (String c (text l1)).
    destruct (sensitive_match (String c (text l1))) as [[m r]|] eqn:Hm; [|done]. exfalso.
    apply sensitive_match_exact in Hm as [Heq Hm].
    inversion Hm as [| |? ? o v Ho Hv| | | |]; subst.
    destruct (open_shape o Ho) as [o' ->].
    pose proof (stops_sensitive _ Hm r) as Hu. rewrite <-Heq in Hu. injection Heq as -> Heq.
    change (4%nat) with (S 3) in Hu. cbn [upto] in Hu. rewrite Ascii.eqb_refl in Hu.
    destruct (upto 3 (text l1)) as [[m1 r1]|] eqn:H1; [|done]. injection Hu as Hm1 ->.
    destruct (upto_same_but_value l l1 3 m1 r) as [r' Hr'];
      [done | by eapply Parse_fields | lia | done |].
    apply upto_text in Hr'. rewrite (Parse_text s l Hp) in Hr'.
    assert (sensitive_match (String quote s) = Some (String quote m1, r')) as Hs; [|congruence].
    rewrite Hr'. apply (sensitive_some (String quote m1) r'). by rewrite Hm1.
  - inversion Hl as [|? ? ? l1 Hc Hl1]; subst. inversion Hc; subst.
    cbn [text piece_text]. rewrite <-string_app_assoc. constructor; [done | done | by apply IH].
Qed.

Lemma masked_value_ok : re_match value_re masked_value.
Proof.
  by apply (exact_many not_quote quote eq_refl masked_value masked_value "").
Qed.

Lemma same_mask l l' : Forall2 same_but_value l l' → mask <$> l = mask <$> l'.
Proof. induction 1 as [|p p' l l' [] _ IH]; [done | by rewrite !fmap_cons, IH..]. Qed.

Lemma mask_same l : Forall2 same_but_value l (mask <$> l).
Proof.
  induction l as [|[c|o v] l IH]; constructor; try done; constructor. apply masked_value_ok.
Qed.

(** ** Properties *)

(** Redaction replaces values and nothing else: a body splits from the left
    into bytes and the fields the pattern describes, the log gets the same
    pieces with every value of a field replaced by three stars, these are then
    the only fields the pattern finds in it, and redacting again changes
    nothing. *)
Theorem redactSensitive_spec (s : string) :
  ∃ l, Parse s l ∧ text l = s ∧ redactSensitive s = text (mask <$> l) ∧
    Parse (redactSensitive s) (mask <$> l) ∧
    redactSensitive (redactSensitive s) = redactSensitive s.
Proof.
  destruct (Parse_total s) as [l Hl]. exists l. pose proof (redact_Parse s l Hl) as Hr.
  pose proof (Parse_same_but_value s l _ Hl (mask_same l)) as Hm. rewrite <-Hr in Hm.
  split_and!; [done | by apply Parse_text | done | done |].
  rewrite (redact_Parse _ _ Hm), Hr. f_equal. symmetry. by apply same_mask, mask_same.
Qed.

(** What is logged does not depend on the values: two bodies that differ only
    in the values of sensitive fields, whatever quote-free values these are,
    are logged as the same text. *)
Theorem values_do_not_matter (s : string) (l l' : list Piece) :
  Parse s l → Forall2 same_but_value l l' → redactSensitive (text l') = redactSensitive s.
Proof.
  intros Hl Hs. rewrite (redact_Parse s l Hl).
  rewrite (redact_Parse _ _ (Parse_same_but_value s l l' Hl Hs)). by rewrite (same_mask l l').
Qed.

(** ** Bodies in JSON

    A specification without the pattern: a body is a sequence of strings and of other
    characters, and the value of a field is the string after a colon after its name. *)

Inductive Token := TStr (s : string) | TChar (c : ascii).

Definition token_text (t : Token) : string :=
  match t with TStr s => String quote (s +:+ String quote "") | TChar c => String c "" end.

Fixpoint render (l : list Token) : string :=
  match l with [] => "" | t :: l => token_text t +:+ render l end.

(** What may stand after a string in JSON. *)
Definition delimiters : list ascii :=
  [":"%char; ","%char; "}"%char; "]"%char; " "%char; "009"%char; "010"%char; "013"%char].

(** Strings without quotes in them -- no escaped ones, that is -- and delimiters, or the
    end, after each. *)
Fixpoint plain_body (l : list Token) : bool :=
  match l with
  | [] => true
  | TChar c :: l => not_quote c && plain_body l
  | TStr s :: l =>
      quote_free s && plain_body l &&
      match l with [] => true | TChar c :: _ => bool_decide (c ∈ delimiters) | TStr _ :: _ => false end
  end.

(** The fields whose values are to be hidden (docs/MISSION_CRITICAL_ROADMAP.md). *)
Definition documented_fields : list string := ["password"; "secret"; "token"; "key"; "authorization"].

(** [s] is the lower-case [w] in upper or lower case, as Unicode folds it: the Kelvin
    sign is a k, the long s an s. *)
Fixpoint same_name (w s : string) : bool :=
  match w with
  | "" => bool_decide (s = "")
  | String c w =>
      match s with String d s' => Ascii.eqb (lower_ascii d) c && same_name w s' | "" => false end ||
      match fold_extra c with Some x => HasPrefix s x && same_name w (sdrop (len x) s) | None => false end
  end.

Definition sensitive_name (s : string) : bool := existsb (λ w, same_name w s) documented_fields.

(** Where a reader is: nowhere, or after a sensitive name, or after its colon. *)
Inductive FieldState := NoField | SawName | SawColon.

Fixpoint hide (st : FieldState) (l : list Token) : list Token :=
  match l with
  | [] => []
  | TStr s :: l =>
      match st with
      | SawColon => TStr "***" :: hide NoField l
      | _ => TStr s :: hide (if sensitive_name s then SawName else NoField) l
      end
  | TChar c :: l =>
      TChar c :: hide (if re_space c then st
                       else if Ascii.eqb c ":" then
                         match st with SawName => SawColon | _ => NoField end
                       else NoField) l
  end.

Lemma same_name_match w s : same_name w s = true ↔ re_match (re_word w) s.
Proof.
  revert s. induction w as [|c w IH]; intros s; cbn [same_name re_word].
  - rewrite bool_decide_eq_true. split; [intros ->; constructor | by inversion 1].
  - rewrite orb_true_iff. unfold re_fold. split.
    + intros [Ha|Hx].
      * destruct s as [|d s]; [done |]. apply andb_true_iff in Ha as [Hd Hs%IH].
        apply (rm_cat _ _ (String d "") s); [|done].
        destruct (fold_extra c); [apply rm_left|]; by constructor.
      * destruct (fold_extra c) as [x|]; [|done]. apply andb_true_iff in Hx as [Hp Hs%IH].
        apply HasPrefix_spec in Hp as [t ->]. rewrite sdrop_app in Hs.
        apply rm_cat; [apply rm_right; constructor | done].
    + intros Hm. inversion Hm as [| |e1 e2 a b Ha Hb E1 E2| | | |]; subst. apply IH in Hb.
      assert ((∃ d, a = String d "" ∧ Ascii.eqb (lower_ascii d) c = true) ∨ fold_extra c = Some a)
        as [(d & -> & Hd)|Hx].
      { destruct (fold_extra c) as [x|]; [inversion Ha as [| | |? ? ? H|? ? ? H| |]; subst|];
          [inversion H; subst; left; by eexists | inversion H; subst; by right |
           inversion Ha; subst; left; by eexists]. }
      * left. change (Ascii.eqb (lower_ascii d) c && same_name w b = true). by rewrite Hd, Hb.
      * right. by rewrite Hx, HasPrefix_app, sdrop_app, Hb.
Qed.

Lemma sensitive_name_match s :
  sensitive_name s = true ↔ re_match (re_any (re_word <$> sensitive_words)) s.
Proof.
  unfold sensitive_name. change documented_fields with sensitive_words.
  induction sensitive_words as [|w ws IH]; cbn [existsb fmap list_fmap re_any foldr].
  - split; [done |]. by inversion 1.
  - rewrite orb_true_iff, same_name_match, IH. split.
    + intros [H|H]; [by apply rm_left | by apply rm_right].
    + inversion 1; subst; [by left | by right].
Qed.

Lemma quote_split s s' r r' :
  quote_free s = true → quote_free s' = true →
  s +:+ String quote r = s' +:+ String quote r' → s = s' ∧ r = r'.
Proof.
  intros Hs Hs' Heq.
  assert (∀ t u, quote_free t = true → upto 1 (t +:+ String quote u) = Some (t +:+ String quote "", u))
    as Hup.
  { intros t u Ht. rewrite (upto_quote_free t 0) by done. by destruct u. }
  pose proof (Hup s r Hs) as H1. rewrite Heq, (Hup s' r' Hs') in H1. injection H1 as H1 ->.
  split; [|done]. pose proof (f_equal len H1) as Hl. rewrite !len_app in Hl. symmetry.
  by apply string_app_inj in H1 as [-> _]; [|lia].
Qed.

(** The name of a field is found exactly when it is one of the documented ones. *)
Lemma match_key_name s r :
  quote_free s = true →
  match_key (s +:+ String quote r) =
    if sensitive_name s then Some (s +:+ String quote "", r) else None.
Proof.
  intros Hs. destruct (exact_key sensitive_words) as [Hk Hn]; [by repeat constructor |].
  assert (sensitive_name s = true ↔ match_key (s +:+ String quote r) = Some (s +:+ String quote "", r))
    as Hiff.
  { rewrite sensitive_name_match. rewrite (Hk _ (s +:+ String quote "") r : _ ↔ _).
    rewrite <-string_app_assoc. split.
    - intros Hm. split; [done |]. by constructor; [|constructor].
    - intros [_ Hm]. inversion Hm as [| |? ? a b Ha Hb E1 E2| | | |]; subst. inversion Hb; subst.
      by apply (quote_split a s "" "") in E2 as [-> _]; [|by apply Hn |]. }
  destruct (sensitive_name s); [by apply Hiff |].
  destruct (match_key _) as [[m r']|] eqn:Hm; [|done]. exfalso.
  apply Hk in Hm as [Heq Hm].
  inversion Hm as [| |? ? a b Ha Hb E1 E2| | | |]; subst. inversion Hb; subst.
  rewrite <-string_app_assoc in Heq.
  apply quote_split in Heq as [-> ->]; [|done | by apply Hn].
  by pose proof (proj2 Hiff eq_refl).
Qed.

Lemma render_app l l' : render (l ++ l') = render l +:+ render l'.
Proof. induction l as [|t l IH]; [done |]. cbn [app render]. by rewrite IH, string_app_assoc. Qed.

Lemma hide_spaces st w l :
  Forall (λ c, re_space c = true) w → hide st ((TChar <$> w) ++ l) = (TChar <$> w) ++ hide st l.
Proof.
  induction 1 as [|c w Hc _ IH]; [done |]. cbn [fmap list_fmap app hide]. by rewrite Hc, IH.
Qed.

Lemma space_star w : Forall (λ c, re_space c = true) w → re_match (RStar (RClass re_space)) (render (TChar <$> w)).
Proof.
  induction 1 as [|c w Hc _ IH]; [constructor |]. cbn [fmap list_fmap render token_text].
  by apply rm_cons; [constructor |].
Qed.

(** A colon comes next, or none is found there and hiding makes no difference. *)
Lemma colon_next l :
  (∃ w l1, Forall (λ c, re_space c = true) w ∧ l = (TChar <$> w) ++ TChar ":" :: l1) ∨
  many_then re_space ":" (render l) = None ∧ hide SawName l = hide NoField l.
Proof.
  induction l as [|[s|c] l IH]; [by right | by right |]. cbn [render token_text].
  change (String c "" +:+ render l) with (String c (render l)). cbn [many_then hide].
  destruct (Ascii.eqb_spec c ":") as [->|Hc]; [left; by exists [], l |].
  destruct (re_space c) eqn:Hs; [|by right].
  destruct IH as [(w & l1 & Hw & ->)|[-> ->]]; [left | by right].
  exists (c :: w), l1. split; [by constructor | done].
Qed.

(** A string comes next, likewise. *)
Lemma string_next l :
  plain_body l = true →
  (∃ w v l1, Forall (λ c, re_space c = true) w ∧ l = (TChar <$> w) ++ TStr v :: l1) ∨
  many_then re_space quote (render l) = None ∧ hide SawColon l = hide NoField l.
Proof.
  induction l as [|[s|c] l IH]; [by right | left; by exists [], s, l |]. cbn [plain_body].
  intros [Hq Hl]%andb_true_iff. cbn [render token_text].
  change (String c "" +:+ render l) with (String c (render l)). cbn [many_then hide].
  apply negb_true_iff in Hq. rewrite Hq. destruct (re_space c) eqn:Hs; [|by case_match; right].
  destruct (IH Hl) as [(w & v & l1 & Hw & ->)|[-> ->]]; [left | by right].
  exists (c :: w), v, l1. split; [by constructor | done].
Qed.

Lemma plain_json_tail l l' : plain_body (l ++ l') = true → plain_body l' = true.
Proof.
  induction l as [|[s|c] l IH]; [done | |]; cbn [app plain_body].
  - by intros [[_ H]%andb_true_iff _]%andb_true_iff; apply IH.
  - by intros [_ H]%andb_true_iff; apply IH.
Qed.

Lemma many_spaces stop w r :
  re_space stop = false → Forall (λ c, re_space c = true) w →
  many_then re_space stop (render (TChar <$> w) +:+ String stop r) =
    Some (render (TChar <$> w) +:+ String stop "", r).
Proof.
  intros Hs Hw. apply (exact_many re_space stop Hs). split; [by rewrite <-string_app_assoc |].
  by constructor; [apply space_star | constructor].
Qed.

Lemma match_quote_here r : match_quote (String quote r) = Some (String quote "", r).
Proof. apply exact_literal. split; [done | constructor]. Qed.

(** At a string a sensitive name with its value starts, or there is no match and
    hiding leaves the string. *)
Lemma field_at s l :
  plain_body (TStr s :: l) = true →
  (∃ w w' v l2, sensitive_name s = true ∧
     Forall (λ c, re_space c = true) w ∧ Forall (λ c, re_space c = true) w' ∧
     l = (TChar <$> w) ++ TChar ":" :: (TChar <$> w') ++ TStr v :: l2) ∨
  sensitive_match (render (TStr s :: l)) = None ∧
  hide NoField (TStr s :: l) = TStr s :: hide NoField l.
Proof.
  cbn [plain_body]. intros [[Hs Hl]%andb_true_iff _]%andb_true_iff.
  unfold sensitive_match, match_open, then_. cbn [render token_text hide].
  change (String quote (s +:+ String quote "") +:+ render l)
    with (String quote ((s +:+ String quote "") +:+ render l)).
  rewrite <-string_app_assoc. change (String quote "" +:+ render l) with (String quote (render l)).
  rewrite match_quote_here. cbn [mbind option_bind]. rewrite match_key_name by done. destruct (sensitive_name s) eqn:Hn; [|by right]. cbn [mbind option_bind].
  destruct (colon_next l) as [(w & l1 & Hw & ->)|[-> ->]]; [|by right].
  destruct (string_next l1) as [(w' & v & l2 & Hw' & ->)|[H1 H2]].
  { by eapply (plain_json_tail ((TChar <$> w) ++ [TChar ":"])); rewrite <-app_assoc. }
  { left. by exists w, w', v, l2. }
  right. rewrite render_app. cbn [render token_text]. change (":" +:+ render l1) with (String ":" (render l1)).
  rewrite many_spaces by done. cbn [mbind option_bind]. rewrite H1. split; [done |].
  rewrite !hide_spaces by done.
  change (hide SawName (TChar ":" :: l1)) with (TChar ":" :: hide SawColon l1).
  change (hide NoField (TChar ":" :: l1)) with (TChar ":" :: hide NoField l1). by rewrite H2.
Qed.

(** No match starts at the end of a string. *)
Lemma no_match_at_end (l : list Token) :
  match l with [] => true | TChar c :: _ => bool_decide (c ∈ delimiters) | TStr _ :: _ => false end = true →
  sensitive_match (String quote (render l)) = None.
Proof.
  destruct l as [|[s|c] l]; [done | done |]. rewrite bool_decide_eq_true. cbn [render token_text].
  unfold delimiters. rewrite !elem_of_cons, elem_of_nil. by intros [->|[->|[->|[->|[->|[->|[->|[->|[]]]]]]]]].
Qed.

Lemma no_match_elsewhere c r : not_quote c = true → sensitive_match (String c r) = None.
Proof.
  intros Hc. apply negb_true_iff, Ascii.eqb_neq in Hc.
  destruct (sensitive_match (String c r)) as [[m r']|] eqn:Hm; [|done].
  apply sensitive_match_exact in Hm as [Heq Hm]. inversion Hm as [| |? ? o v Ho Hv| | | |]; subst.
  destruct (open_shape o Ho) as [o' ->]. by injection Heq as -> _.
Qed.

(** [t] is what masking leaves of [s]. *)
Definition shown (s t : string) : Prop := ∃ l, Parse s l ∧ text (mask <$> l) = t.

Lemma shown_plain c s t :
  sensitive_match (String c s) = None → shown s t → shown (String c s) (String c t).
Proof. intros Hm (l & Hl & <-). exists (Plain c :: l). by split; [constructor |]. Qed.

Lemma shown_string u s t : quote_free u = true → shown s t → shown (u +:+ s) (u +:+ t).
Proof.
  intros Hu Hs. induction u as [|c u IH]; [done |].
  apply andb_true_iff in Hu as [Hc Hu]. apply (shown_plain c (u +:+ s)); [|by apply IH].
  by apply no_match_elsewhere.
Qed.

(** A name, a colon, an opening quote. *)
Definition opening (s : string) (w w' : list ascii) : string :=
  String quote (s +:+ String quote (render (TChar <$> w) +:+
    String ":" (render (TChar <$> w') +:+ String quote ""))).

Definition field_tokens (s : string) (w w' : list ascii) (v : string) (l : list Token) : list Token :=
  TStr s :: (TChar <$> w) ++ TChar ":" :: (TChar <$> w') ++ TStr v :: l.

Lemma string_nil_app s : "" +:+ s = s.
Proof. done. Qed.

Lemma render_field s w w' v l :
  render (field_tokens s w w' v l) = opening s w w' +:+ ((v +:+ String quote "") +:+ render l).
Proof.
  unfold field_tokens, opening. cbn [render token_text]. rewrite render_app. cbn [render token_text].
  rewrite render_app. cbn [render token_text].
  by repeat (rewrite <-string_app_assoc || rewrite string_cons_app || rewrite string_nil_app).
Qed.

Lemma hide_field s w w' v l :
  sensitive_name s = true →
  Forall (λ c, re_space c = true) w → Forall (λ c, re_space c = true) w' →
  hide NoField (field_tokens s w w' v l) = field_tokens s w w' "***" (hide NoField l).
Proof.
  intros Hs Hw Hw'. unfold field_tokens. cbn [hide]. rewrite Hs, hide_spaces by done.
  change (hide SawName (TChar ":" :: ?x)) with (TChar ":" :: hide SawColon x).
  by rewrite hide_spaces.
Qed.

Lemma value_of v : quote_free v = true → re_match value_re (v +:+ String quote "").
Proof.
  intros Hv. apply (exact_many not_quote quote eq_refl (v +:+ String quote "") _ "").
  induction v as [|c v IH]; [done |]. apply andb_true_iff in Hv as [Hc Hv].
  apply negb_true_iff in Hc as Hq.
  change (String c v +:+ String quote "") with (String c (v +:+ String quote "")).
  cbn [many_then]. by rewrite Hq, Hc, IH.
Qed.

Lemma opening_matches s w w' :
  sensitive_name s = true →
  Forall (λ c, re_space c = true) w → Forall (λ c, re_space c = true) w' →
  re_match field_open (opening s w w').
Proof.
  intros Hs Hw Hw'. apply (rm_cat re_quote _ (String quote "")); [constructor |].
  assert (∀ t, s +:+ String quote (render (TChar <$> w) +:+ String ":" t) =
    (s +:+ String quote "") +:+ ((render (TChar <$> w) +:+ ":") +:+ t)) as ->
    by (intros t; by rewrite <-!string_app_assoc).
  apply rm_cat; [by constructor; [apply sensitive_name_match | constructor] |].
  by apply rm_cat; (apply rm_cat; [by apply space_star | constructor]).
Qed.

Lemma shown_field s w w' v l t :
  sensitive_name s = true →
  Forall (λ c, re_space c = true) w → Forall (λ c, re_space c = true) w' → quote_free v = true →
  shown (render l) (render t) →
  shown (render (field_tokens s w w' v l)) (render (field_tokens s w w' "***" t)).
Proof.
  intros Hs Hw Hw' Hv (p & Hp & Ht). rewrite !render_field, <-Ht.
  exists (Field (opening s w w') (v +:+ String quote "") :: p). split.
  - constructor; [by apply opening_matches | by apply value_of | done].
  - cbn [fmap list_fmap mask text piece_text]. by rewrite <-string_app_assoc.
Qed.

(** Masking the fields the pattern finds is hiding the documented ones. *)
Lemma shown_hidden l : plain_body l = true → shown (render l) (render (hide NoField l)).
Proof.
  remember (length l) as n eqn:Hn. revert l Hn.
  induction n as [n IH] using lt_wf_ind. intros [|[s|c] l] ->; intros Hp.
  - exists []. by split; [constructor |].
  - pose proof Hp as Hq. cbn [plain_body] in Hq.
    apply andb_true_iff in Hq as [[Hs Hl]%andb_true_iff Hend].
    destruct (field_at s l Hp) as [(w & w' & v & l2 & Hname & Hw & Hw' & ->)|[Hm ->]].
    + assert (plain_body (TStr v :: l2) = true) as [[Hv Hl2]%andb_true_iff _]%andb_true_iff.
      { apply (plain_json_tail ((TStr s :: (TChar <$> w)) ++ TChar ":" :: (TChar <$> w'))).
        by rewrite <-app_assoc. }
      fold (field_tokens s w w' v l2). rewrite (hide_field s w w' v l2) by done. apply shown_field; [done..|].
      apply (IH (length l2)); [|done | done]. cbn [length]. rewrite length_app. cbn [length].
      rewrite length_app. cbn [length]. lia.
    + apply (shown_plain quote ((s +:+ String quote "") +:+ render l)
        ((s +:+ String quote "") +:+ render (hide NoField l))); [done |].
      rewrite <-!string_app_assoc. apply shown_string; [done |].
      apply (shown_plain quote (render l)); [by apply no_match_at_end |].
      apply (IH (length l)); [cbn; lia | done | done].
  - cbn [plain_body] in Hp. apply andb_true_iff in Hp as [Hc Hl].
    replace (hide NoField (TChar c :: l)) with (TChar c :: hide NoField l)
      by by cbn [hide]; repeat case_match.
    apply (shown_plain c (render l)); [by apply no_match_elsewhere |].
    apply (IH (length l)); [cbn; lia | done | done].
Qed.

(** C24. Hiding by a specification that does not mention the pattern. For every
    body of strings and other characters in which no string has a quote in it and each
    is followed by what JSON allows after one, what is logged is the body with every
    string after the name of a documented field and a colon, in upper or lower case
    and with any white space between, replaced by three stars, and with nothing else
    changed. A string with an escaped quote and a body cut off within a value are
    outside it, as the two examples below show. *)
Theorem redaction_hides_values (body : list Token) :
  plain_body body = true → redactSensitive (render body) = render (hide NoField body).
Proof. intros Hb. destruct (shown_hidden body Hb) as (l & Hl & <-). by apply redact_Parse. Qed.

(** A value ends at its first quote even if that is escaped: the rest of such a
    secret is logged. *)
Example escaped_quote_leaks :
  let backslash := String (ascii_of_nat 92) "" in
  redactSensitive (dquoted "password" +:+ ":" +:+ dquoted ("ab" +:+ backslash +:+ dquoted "cd")) =
  dquoted "password" +:+ ":" +:+ dquoted "***" +:+ "cd" +:+ dquoted "" .
Proof. by vm_compute. Qed.

(** A value without its closing quote is no match: it is logged as it is. *)
Example open_value_leaks :
  let s := dquoted "token" +:+ ":" +:+ String quote "eyJhbGciOi" in redactSensitive s = s.
Proof. by vm_compute. Qed.

Lemma redaction_hides_values_witness :
  let body v := [TChar "{"; TStr "user"; TChar ":"; TStr "token"; TChar ","; TStr "Key"; TChar " ";
                 TChar ":"; TChar " "; TStr v; TChar "}"] in
  render (body "s3cret") = "{" +:+ dquoted "user" +:+ ":" +:+ dquoted "token" +:+ "," +:+
    dquoted "Key" +:+ " : " +:+ dquoted "s3cret" +:+ "}" ∧
  redactSensitive (render (body "s3cret")) = render (body "***").
Proof. intros body. split; [done | by apply (redaction_hides_values (body "s3cret"))]. Defined.
