(* ===== verification/ApiError.v ===== *)
(** * Error responses (internal/apierror/apierror.go) *)

From S2P Require Import Prelude GoStrings Json Http.

(** The codes are a public contract: the strings clients see. *)
Inductive ErrorCode :=
| RouteNotFound | MethodNotAllowed | UpstreamUnavailable | CircuitOpen | RequestCancelled
| AuthMissingToken | AuthInvalidToken | AuthInsufficientScope | RateLimitExceeded
| InternalError | BodyTooLarge | DeadlineExceeded.

#[export] Instance ErrorCode_eq_dec : EqDecision ErrorCode.
Proof. solve_decision. Defined.

Definition error_code_string (c : ErrorCode) : string :=
  match c with
  | RouteNotFound => "GATEWAY_ROUTE_NOT_FOUND"
  | MethodNotAllowed => "GATEWAY_METHOD_NOT_ALLOWED"
  | UpstreamUnavailable => "GATEWAY_UPSTREAM_UNAVAILABLE"
  | CircuitOpen => "GATEWAY_CIRCUIT_OPEN"
  | RequestCancelled => "GATEWAY_REQUEST_CANCELLED"
  | AuthMissingToken => "GATEWAY_AUTH_MISSING_TOKEN"
  | AuthInvalidToken => "GATEWAY_AUTH_INVALID_TOKEN"
  | AuthInsufficientScope => "GATEWAY_AUTH_INSUFFICIENT_SCOPE"
  | RateLimitExceeded => "GATEWAY_RATE_LIMIT_EXCEEDED"
  | InternalError => "GATEWAY_INTERNAL_ERROR"
  | BodyTooLarge => "GATEWAY_BODY_TOO_LARGE"
  | DeadlineExceeded => "GATEWAY_DEADLINE_EXCEEDED"
  end.

Record ErrorResponse := mkErrorResponse {
  er_Error : string; er_ErrorCode : string; er_Message : string; er_RequestID : string
}.

(** [json.Marshal] of an [ErrorResponse]; [request_id] is omitted when empty. *)
Definition error_json (e : ErrorResponse) : Json :=
  JObject ([("error", JString (er_Error e)); ("error_code", JString (er_ErrorCode e));
            ("message", JString (er_Message e))] ++
           if decide (er_RequestID e = "") then [] else [("request_id", JString (er_RequestID e))]).

Definition marshal (e : ErrorResponse) : string := encode (error_json e).

Definition mustMarshal (status : Z) (code : ErrorCode) (message : string) : string :=
  marshal (mkErrorResponse (StatusText status) (error_code_string code) message "") +:+ newline.

Definition preRouteNotFound := mustMarshal StatusNotFound RouteNotFound "no matching route".
Definition preUpstreamUnavailable :=
  mustMarshal StatusBadGateway UpstreamUnavailable "upstream service unavailable".
Definition preCircuitOpen := mustMarshal StatusServiceUnavailable CircuitOpen "circuit breaker open".
Definition preRequestCancelled :=
  mustMarshal StatusGatewayTimeout RequestCancelled "request cancelled".
Definition preAuthMissingToken :=
  mustMarshal StatusUnauthorized AuthMissingToken "missing or malformed Authorization header".
Definition preRateLimitExceeded :=
  mustMarshal StatusTooManyRequests RateLimitExceeded "rate limit exceeded, retry later".

(** The arms of [preSerialized], in order. *)
Definition pre_serialized_table : list (ErrorCode * Z * string * string) :=
  [(RouteNotFound, StatusNotFound, "no matching route", preRouteNotFound);
   (UpstreamUnavailable, StatusBadGateway, "upstream service unavailable", preUpstreamUnavailable);
   (CircuitOpen, StatusServiceUnavailable, "circuit breaker open", preCircuitOpen);
   (RequestCancelled, StatusGatewayTimeout, "request cancelled", preRequestCancelled);
   (AuthMissingToken, StatusUnauthorized, "missing or malformed Authorization header",
      preAuthMissingToken);
   (RateLimitExceeded, StatusTooManyRequests, "rate limit exceeded, retry later",
      preRateLimitExceeded)].

Definition preSerialized (status : Z) (code : ErrorCode) (message : string) : option string :=
  snd <$> find (λ e, bool_decide (code = e.1.1.1) && bool_decide (status = e.1.1.2) &&
                     bool_decide (message = e.1.2)) pre_serialized_table.

(** The body [WriteJSON] writes for a request with the given [X-Request-ID]. *)
Definition error_body (requestID : string) (status : Z) (code : ErrorCode) (message : string)
    : string :=
  let encode :=
    marshal (mkErrorResponse (StatusText status) (error_code_string code) message requestID)
    +:+ newline in
  if decide (requestID = "") then default encode (preSerialized status code message) else encode.

(** [WriteJSON(w, r, status, code, message)]: the calls it makes on [w]; a nil
    request has no request ID. *)
Definition json_ops (r : option Request) (status : Z) (code : ErrorCode) (message : string)
    : list WriterOp :=
  let requestID := match r with Some r => header_Get "X-Request-Id" (rq_Header r) | None => "" end in
  [OpHeader (header_Set "Content-Type" "application/json");
   OpWriteHeader status;
   OpWrite (error_body requestID status code message)].

Definition WriteJSON {W} `{ResponseWriter W} (r : option Request) (status : Z) (code : ErrorCode)
    (message : string) (now : Time) (w : W) : W :=
  run_ops ((λ op, (op, now)) <$> json_ops r status code message) w.

(** ** Properties *)

Lemma find_first {A} (p : A → bool) (l : list A) x : find p l = Some x → x ∈ l ∧ p x = true.
Proof.
  induction l as [|y l IH]; simpl; [done |]. destruct (p y) eqn:Hp.
  - intros [= ->]. split; [by left | done].
  - intros Hf. destruct (IH Hf). split; [by right | done].
Qed.

(** The pre-serialized bodies are the encodings they stand for. *)
Lemma preSerialized_sound status code message body :
  preSerialized status code message = Some body →
  body = marshal (mkErrorResponse (StatusText status) (error_code_string code) message "")
         +:+ newline.
Proof.
  unfold preSerialized. intros (e & He & ->)%fmap_Some. apply find_first in He as [Hin Hp].
  rewrite !andb_true_iff, !bool_decide_eq_true in Hp. destruct Hp as [[-> ->] ->].
  unfold pre_serialized_table in Hin. rewrite !elem_of_cons, elem_of_nil in Hin.
  by destruct Hin as [->|[->|[->|[->|[->|[->|[]]]]]]].
Qed.

Lemma error_body_marshal requestID status code message :
  error_body requestID status code message =
  marshal (mkErrorResponse (StatusText status) (error_code_string code) message requestID)
  +:+ newline.
Proof.
  unfold error_body. case_decide as Hr; [|done]. subst.
  destruct (preSerialized status code message) as [body|] eqn:Hp; [|done].
  by apply preSerialized_sound.
Qed.

(** [WriteJSON] on any writer sends one content type, one status and one body,
    and the fast path is invisible: with or without a pre-serialized body, what
    the client receives is the JSON encoding of the error. *)
Theorem WriteJSON_response (r : option Request) (status : Z) (code : ErrorCode)
    (message : string) (now : Time) (c : Client) :
  let id := match r with Some r => header_Get "X-Request-Id" (rq_Header r) | None => "" end in
  let h := header_Set "Content-Type" "application/json" (cl_header c) in
  WriteJSON r status code message now c =
    mkClient h (cl_calls c ++
      [CallWriteHeader status h;
       CallWrite (marshal (mkErrorResponse (StatusText status) (error_code_string code) message id)
                  +:+ newline) h]) ∧
  (∀ code', error_code_string code' = error_code_string code → code' = code).
Proof.
  split.
  - unfold WriteJSON, json_ops, run_ops; simpl. rewrite error_body_marshal.
    by rewrite <-app_assoc.
  - by destruct code, code'.
Qed.

Lemma valid_status_text status : ToValidUTF8 (StatusText status) = StatusText status.
Proof.
  apply ToValidUTF8_valid.
  unfold StatusText. destruct (find _ status_texts) as [e|] eqn:Hf; [|done].
  apply find_first in Hf as [Hin _].
  assert (Forall (λ e : Z * string, valid_utf8 e.2 = true) status_texts) as Hall
    by (by apply (bool_decide_unpack _); vm_compute).
  rewrite Forall_forall in Hall. by apply Hall.
Qed.

Lemma ToValidUTF8_nonempty s : ToValidUTF8 s = "" ↔ s = "".
Proof.
  destruct s as [|c s]; [done |]. split; [|done]. unfold ToValidUTF8. cbn [valid_text].
  by destruct (utf8_width _).
Qed.

(** C39. Error bodies round-trip: for every status, code, message and request ID,
    the ID being the client's own header, a client that parses the body as JSON
    reads the status text, the code, the message and the ID that were written,
    whichever path produced the bytes, with every byte that is in no valid UTF-8
    replaced by U+FFFD; of valid UTF-8 it reads exactly what was written. *)
Theorem error_body_roundtrip (requestID : string) (status : Z) (code : ErrorCode) (message : string) :
  ∃ text, error_body requestID status code message = text +:+ newline ∧
    parse_json text = Some (error_json (mkErrorResponse (StatusText status) (error_code_string code)
                                          (ToValidUTF8 message) (ToValidUTF8 requestID))) ∧
    (∀ s, valid_utf8 s = true → ToValidUTF8 s = s).
Proof.
  eexists. split; [apply error_body_marshal |]. split; [|apply ToValidUTF8_valid].
  unfold marshal. rewrite parse_read.
  - unfold error_json. cbn -[ToValidUTF8 StatusText]. rewrite valid_status_text.
    pose proof (ToValidUTF8_nonempty requestID) as Hid.
    destruct (decide (requestID = "")) as [Hr|Hr], (decide (ToValidUTF8 requestID = "")) as [Hr'|Hr'];
      [| by apply Hid in Hr | by apply Hid in Hr' |]; by destruct code.
  - unfold error_json. by case_decide.
Qed.

(** A quote in the ID is escaped; a byte that is no UTF-8 is read as U+FFFD. *)
Lemma error_body_roundtrip_witness :
  let id := "r" +:+ String quote "1" +:+ String (ascii_of_nat 255) "" in
  ToValidUTF8 id = "r" +:+ String quote "1" +:+ replacement ∧
  ∃ text, error_body id StatusNotFound RouteNotFound "no matching route" = text +:+ newline ∧
    parse_json text = Some (JObject [("error", JString "Not Found");
      ("error_code", JString "GATEWAY_ROUTE_NOT_FOUND"); ("message", JString "no matching route");
      ("request_id", JString (ToValidUTF8 id))]).
Proof.
  intros id. split; [by vm_compute |].
  destruct (error_body_roundtrip id StatusNotFound RouteNotFound "no matching route") as (t & Ht & Hp & _).
  by exists t.
Defined.

Example error_body_example :
  error_body "" StatusMethodNotAllowed MethodNotAllowed "method PUT not allowed for /a<b" =
  "{" +:+ dquoted "error" +:+ ":" +:+ dquoted "Method Not Allowed" +:+ "," +:+
  dquoted "error_code" +:+ ":" +:+ dquoted "GATEWAY_METHOD_NOT_ALLOWED" +:+ "," +:+
  dquoted "message" +:+ ":" +:+
  dquoted ("method PUT not allowed for /a" +:+ String backslash "u003cb") +:+ "}" +:+ newline.
Proof. by vm_compute. Qed.
