(* ===== verification/Middleware.v ===== *)
(** * Middleware that transforms handlers
    (internal/middleware/requestid.go, recovery.go, cors.go, security.go,
    bodylimit.go)

    A handler, given the state of the gateway, a request, and the header its
    response has so far, is what it does: the calls on its writer, how it leaves,
    the request's path and header afterwards -- the URL and the header map are
    shared with its callers, also through [r.WithContext], which copies neither
    -- and the new state.  The middleware here are functions from handlers to
    handlers that leave the state alone; [now] is the time of their own calls. *)

From S2P Require Import Prelude GoStrings Http ApiError.

Record HandlerRun (S : Type) := mkRun {
  h_ops : list (WriterOp * Time); h_exit : Exit; h_path : string; h_header : Header; h_state : S
}.
Arguments mkRun {S}.
Arguments h_ops {S}.
Arguments h_exit {S}.
Arguments h_path {S}.
Arguments h_header {S}.
Arguments h_state {S}.

#[export] Instance HandlerRun_eta S : Eta (HandlerRun S) := λ h,
  mkRun (h_ops h) (h_exit h) (h_path h) (h_header h) (h_state h).

Definition Handler (S : Type) : Type := S → Request → Header → HandlerRun S.

(** The response header after some calls. *)
Definition header_after (ops : list WriterOp) (h : Header) : Header :=
  foldl (λ h op, match op with OpHeader upd => upd h | _ => h end) h ops.

Section middleware.
  Context {S : Type}.

(** Calls a middleware makes itself before its handler's, or instead of them. *)
Definition before (ops : list WriterOp) (now : Time) (next : Header → HandlerRun S) (h : Header)
    : HandlerRun S :=
  let run := next (header_after ops h) in
  run <| h_ops := ((λ op, (op, now)) <$> ops) ++ h_ops run |>.

Definition answer (ops : list WriterOp) (now : Time) (s : S) (r : Request) : HandlerRun S :=
  mkRun ((λ op, (op, now)) <$> ops) Returned (rq_Path r) (rq_Header r) s.

(** ** Request IDs *)

Definition hex_lower (n : Z) : ascii := ascii_of_nat (Z.to_nat (if decide (n < 10) then 48 + n else 87 + n)).

(** [hex.Encode] *)
Fixpoint hex_encode (bytes : list Z) : string :=
  match bytes with
  | [] => ""
  | b :: bytes => String (hex_lower (b / 16)) (String (hex_lower (b mod 16)) (hex_encode bytes))
  end.

(** The version and variant bits put over 16 random bytes. *)
Definition uuid_bits (rnd : list Z) : list Z :=
  alter (λ b, Z.lor (Z.land b 63) 128) 8%nat (alter (λ b, Z.lor (Z.land b 15) 64) 6%nat rnd).

(** [newUUID()], given the 16 bytes [rand.Read] fills. *)
Definition newUUID (rnd : list Z) : string :=
  let uuid := uuid_bits rnd in
  hex_encode (take 4 uuid) +:+ "-" +:+ hex_encode (take 2 (drop 4 uuid)) +:+ "-" +:+
  hex_encode (take 2 (drop 6 uuid)) +:+ "-" +:+ hex_encode (take 2 (drop 8 uuid)) +:+ "-" +:+
  hex_encode (take 6 (drop 10 uuid)).

(** [RequestID(next)]; [rnd] is read only for a request without an ID. *)
Definition RequestID (rnd : list Z) (now : Time) (next : Handler S) : Handler S := λ s r,
  let given := header_Get "X-Request-Id" (rq_Header r) in
  let id := if decide (given = "") then newUUID rnd else given in
  before [OpHeader (header_Set "X-Request-Id" id)] now
    (next s (r <| rq_Header := header_Set "X-Request-Id" id (rq_Header r) |>
               <| rq_RequestID := Some id |>)).

Definition GetRequestID (r : Request) : string := default "" (rq_RequestID r).

(** ** Recovery *)

(** [Recovery(logger)]; the deferred call sees the request's header as the handler
    left it. *)
Definition Recovery (now : Time) (next : Handler S) : Handler S := λ s r w,
  let h := next s r w in
  match h_exit h with
  | Returned => h
  | Panicked =>
      h <| h_ops := h_ops h ++ ((λ op, (op, now)) <$>
             json_ops (Some (r <| rq_Header := h_header h |>)) StatusInternalServerError
               InternalError "an unexpected error occurred") |>
        <| h_exit := Returned |>
  end.

(** ** CORS *)

Record CORSConfig := mkCORS {
  co_AllowedOrigins : list string; co_AllowedMethods : list string;
  co_AllowedHeaders : list string; co_MaxAge : string
}.

Definition DefaultCORSConfig : CORSConfig :=
  mkCORS ["*"] ["GET"; "POST"; "PUT"; "DELETE"; "OPTIONS"; "PATCH"]
    ["Authorization"; "Content-Type"; "X-Request-ID"] "86400".

Definition CORS (cfg : CORSConfig) (now : Time) (next : Handler S) : Handler S := λ s r,
  let headers :=
    if decide (header_Get "Origin" (rq_Header r) ≠ "") then
      [OpHeader (header_Set "Access-Control-Allow-Origin" (Join (co_AllowedOrigins cfg) ", "));
       OpHeader (header_Set "Access-Control-Allow-Methods" (Join (co_AllowedMethods cfg) ", "));
       OpHeader (header_Set "Access-Control-Allow-Headers" (Join (co_AllowedHeaders cfg) ", "));
       OpHeader (header_Set "Access-Control-Max-Age" (co_MaxAge cfg))]
    else [] in
  before headers now
    (if decide (rq_Method r = "OPTIONS") then λ _, answer [OpWriteHeader StatusNoContent] now s r
     else next s r).

(** ** Security headers *)

Definition SecurityHeaders (now : Time) (next : Handler S) : Handler S := λ s r,
  before
    ([OpHeader (header_Set "X-Content-Type-Options" "nosniff");
      OpHeader (header_Set "X-Frame-Options" "DENY");
      OpHeader (header_Set "X-Xss-Protection" "0")] ++
     if rq_TLS r || bool_decide (header_Get "X-Forwarded-Proto" (rq_Header r) = "https") then
       [OpHeader (header_Set "Strict-Transport-Security" "max-age=31536000; includeSubDomains")]
     else []) now (next s r).

(** ** Body limit *)

Definition WriteBodyLimitError (r : Request) : list WriterOp :=
  json_ops (Some r) StatusRequestEntityTooLarge BodyTooLarge
    "request body exceeds maximum allowed size".

Definition BodyLimit (maxBytes : Z) (now : Time) (next : Handler S) : Handler S := λ s r,
  if decide (maxBytes < rq_ContentLength r) then λ _, answer (WriteBodyLimitError r) now s r
  else
    next s (if negb (is_nil (rq_Body r)) && negb (bool_decide (rq_ContentLength r = 0))
            then r <| rq_BodyLimit := Some maxBytes |> else r).

End middleware.

(** What a handler can read of the body: all of it, or an error after the limit. *)
Definition read_body (r : Request) : string * bool :=
  let body := default "" (rq_Body r) in
  match rq_BodyLimit r with
  | None => (body, true)
  | Some n => if decide (Z.of_nat (len body) ≤ n) then (body, true) else (stake (Z.to_nat n) body, false)
  end.

(** ** Lemmas on headers *)

(** Calls that leave the header [k] alone. *)
Definition keeps_header (k : string) (ops : list (WriterOp * Time)) : Prop :=
  Forall (λ o, match o.1 with OpHeader u => ∀ h, u h !! k = h !! k | _ => True end) ops.

Definition call_header (c : ClientCall) : Header :=
  match c with CallWriteHeader _ h | CallWrite _ h => h end.

Lemma keeps_header_run k v ops c :
  keeps_header k ops → cl_header c !! k = v →
  Forall (λ call, call_header call !! k = v) (cl_calls c) →
  cl_header (run_ops ops c) !! k = v ∧
  Forall (λ call, call_header call !! k = v) (cl_calls (run_ops ops c)).
Proof.
  revert c. induction ops as [|[[u|code|b] t] ops IH]; intros c Hk Hh Hc; [done | ..];
    apply Forall_cons_iff in Hk as [Hu Hk]; simpl; apply IH; try done; simpl.
  - by rewrite Hu.
  - apply Forall_app. split; [done | by constructor].
  - apply Forall_app. split; [done | by constructor].
Qed.

Lemma sent_status_header k v cs st h :
  Forall (λ call, call_header call !! k = v) cs → sent_status cs = Some (st, h) → h !! k = v.
Proof.
  induction 1 as [|[code h'|b h'] cs Hc _ IH]; simpl; [done | |].
  - case_decide; [done |]. by intros [= <- <-].
  - by intros [= <- <-].
Qed.

Lemma keeps_header_json k now r st code msg :
  k ≠ "Content-Type" →
  keeps_header k ((λ op, (op, now)) <$> json_ops r st code msg).
Proof.
  intros Hk. repeat constructor. intros h. simpl. unfold header_Set. by apply lookup_insert_ne.
Qed.

(** ** Properties *)

Lemma hex_lower_inj a b : 0 ≤ a < 16 → 0 ≤ b < 16 → hex_lower a = hex_lower b → a = b.
Proof.
  assert (Forall (λ a, Forall (λ b, hex_lower a = hex_lower b → a = b) (seqZ 0 16)) (seqZ 0 16)) as Hall
    by (by apply (bool_decide_unpack _); vm_compute).
  intros Ha Hb. rewrite Forall_forall in Hall. specialize (Hall a).
  rewrite Forall_forall in Hall. apply Hall; apply elem_of_seqZ; lia.
Qed.

Lemma hex_encode_inj l k s s' :
  Forall (λ b, 0 ≤ b < 256) l → Forall (λ b, 0 ≤ b < 256) k → length l = length k →
  hex_encode l +:+ s = hex_encode k +:+ s' → l = k ∧ s = s'.
Proof.
  intros Hl. revert k. induction Hl as [|a l Ha Hl IH]; intros k Hk Hlen Heq.
  - by destruct k.
  - destruct k as [|b k]; [done |]. apply Forall_cons_iff in Hk as [Hb Hk].
    injection Heq as H1 H2 H3. simpl in Hlen. injection Hlen as Hlen.
    destruct (IH k Hk Hlen H3) as [-> ->]. split; [|done]. f_equal.
    apply hex_lower_inj in H1; [|split; [apply Z.div_pos | apply Z.div_lt_upper_bound]; lia..].
    apply hex_lower_inj in H2; [|apply Z.mod_pos_bound; lia..].
    rewrite (Z.div_mod a 16), (Z.div_mod b 16) by lia. lia.
Qed.

Lemma len_hex_encode l : len (hex_encode l) = (2 * length l)%nat.
Proof. induction l as [|b l IH]; [done |]. simpl in *. rewrite IH. lia. Qed.

(** Every byte, with the version and variant bits put over it. *)
Lemma uuid_nibbles b :
  0 ≤ b < 256 →
  0 ≤ Z.lor (Z.land b 15) 64 < 256 ∧ Z.lor (Z.land b 15) 64 / 16 = 4 ∧
  0 ≤ Z.lor (Z.land b 63) 128 < 256 ∧ 8 ≤ Z.lor (Z.land b 63) 128 / 16 < 12.
Proof.
  assert (Forall (λ b, 0 ≤ Z.lor (Z.land b 15) 64 < 256 ∧ Z.lor (Z.land b 15) 64 / 16 = 4 ∧
    0 ≤ Z.lor (Z.land b 63) 128 < 256 ∧ 8 ≤ Z.lor (Z.land b 63) 128 / 16 < 12) (seqZ 0 256)) as Hall
    by (by apply (bool_decide_unpack _); vm_compute).
  intros Hb. rewrite Forall_forall in Hall. apply Hall, elem_of_seqZ. lia.
Qed.

Lemma uuid_bits_bytes rnd :
  Forall (λ b, 0 ≤ b < 256) rnd →
  Forall (λ b, 0 ≤ b < 256) (uuid_bits rnd) ∧ length (uuid_bits rnd) = length rnd.
Proof.
  intros Hr. unfold uuid_bits. rewrite !length_alter. split; [|done].
  apply Forall_alter; [apply Forall_alter; [done |] |]; intros b Hb Hr'; by apply uuid_nibbles.
Qed.

Lemma take_drop_eq {A} n (l k : list A) : take n l = take n k → drop n l = drop n k → l = k.
Proof. intros Ht Hd. by rewrite <-(take_drop n l), <-(take_drop n k), Ht, Hd. Qed.

Lemma dash_inj s s' : "-" +:+ s = "-" +:+ s' → s = s'.
Proof. apply string_app_inj. done. Qed.

(** The text of an ID determines its bytes. *)
Lemma uuid_text_inj (u u' : list Z) :
  Forall (λ b, 0 ≤ b < 256) u → Forall (λ b, 0 ≤ b < 256) u' →
  length u = 16%nat → length u' = 16%nat →
  hex_encode (take 4 u) +:+ "-" +:+ hex_encode (take 2 (drop 4 u)) +:+ "-" +:+
    hex_encode (take 2 (drop 6 u)) +:+ "-" +:+ hex_encode (take 2 (drop 8 u)) +:+ "-" +:+
    hex_encode (take 6 (drop 10 u)) =
  hex_encode (take 4 u') +:+ "-" +:+ hex_encode (take 2 (drop 4 u')) +:+ "-" +:+
    hex_encode (take 2 (drop 6 u')) +:+ "-" +:+ hex_encode (take 2 (drop 8 u')) +:+ "-" +:+
    hex_encode (take 6 (drop 10 u')) →
  u = u'.
Proof.
  intros Hb Hb' Hl Hl' Heq.
  assert (∀ n m s s', hex_encode (take n (drop m u)) +:+ s = hex_encode (take n (drop m u')) +:+ s' →
    take n (drop m u) = take n (drop m u') ∧ s = s') as Hsplit.
  { intros n m s s'. apply hex_encode_inj; [by apply Forall_take, Forall_drop.. |].
    rewrite !length_take, !length_drop. lia. }
  apply (Hsplit 4%nat 0%nat) in Heq as [H1 Heq%dash_inj].
  apply Hsplit in Heq as [H2 Heq%dash_inj]. apply Hsplit in Heq as [H3 Heq%dash_inj].
  apply Hsplit in Heq as [H4 Heq%dash_inj].
  destruct (Hsplit 6%nat 10%nat "" "") as [H5 _]; [by rewrite !string_app_nil_r |].
  apply (take_drop_eq 4); [done |]. apply (take_drop_eq 2); [done |].
  apply (take_drop_eq 2); [by rewrite !drop_drop |].
  apply (take_drop_eq 2); [by rewrite !drop_drop |].
  rewrite !drop_drop. apply (take_drop_eq 6); [done |]. rewrite !drop_drop, !drop_ge by lia. done.
Qed.

(** Generated request IDs are version 4 UUIDs -- 36 characters, dashes at the
    places of the format, the version digit 4 and a variant digit from 8 to b --
    and two of them are equal only if their random bytes agree on the 122 bits
    that are kept. *)
Theorem newUUID_v4 (rnd rnd' : list Z) :
  length rnd = 16%nat → Forall (λ b, 0 ≤ b < 256) rnd →
  let id := newUUID rnd in
  len id = 36%nat ∧
  Forall (λ i, String.get i id = Some "-"%char) [8; 13; 18; 23]%nat ∧
  String.get 14 id = Some "4"%char ∧
  (∃ c, String.get 19 id = Some c ∧ c ∈ ["8"; "9"; "a"; "b"]%char) ∧
  (length rnd' = 16%nat → Forall (λ b, 0 ≤ b < 256) rnd' →
     newUUID rnd = newUUID rnd' → uuid_bits rnd = uuid_bits rnd').
Proof.
  intros Hlen Hr id.
  assert (length rnd' = 16%nat → Forall (λ b, 0 ≤ b < 256) rnd' →
    newUUID rnd = newUUID rnd' → uuid_bits rnd = uuid_bits rnd') as Hinj.
  { intros Hlen' Hr'. destruct (uuid_bits_bytes rnd Hr) as [Hb Hl].
    destruct (uuid_bits_bytes rnd' Hr') as [Hb' Hl']. apply uuid_text_inj; congruence. }
  split_and!; [| | | | exact Hinj]; clear Hinj; unfold id; clear id rnd';
    destruct rnd as [|a0 [|a1 [|a2 [|a3 [|a4 [|a5 [|a6 [|a7 [|a8 [|a9 [|a10 [|a11 [|a12
      [|a13 [|a14 [|a15 [|]]]]]]]]]]]]]]]]]; try done; rewrite !Forall_cons in Hr.
  - by repeat constructor.
  - change (Some (hex_lower (Z.lor (Z.land a6 15) 64 / 16)) = Some "4"%char).
    destruct (uuid_nibbles a6) as (_ & -> & _); [tauto | done].
  - exists (hex_lower (Z.lor (Z.land a8 63) 128 / 16)). split; [done |].
    destruct (uuid_nibbles a8) as (_ & _ & _ & Hn); [tauto |].
    assert (∀ n, 8 ≤ n < 12 → hex_lower n ∈ ["8"; "9"; "a"; "b"]%char) as Hd; [|by apply Hd].
    intros n Hn'. assert (n = 8 ∨ n = 9 ∨ n = 10 ∨ n = 11) as [-> | [-> | [-> | ->]]] by lia;
      by apply (bool_decide_unpack _).
Qed.

(** The body a handler can read is bounded: with a limit of [max] bytes, a
    request that declares more is answered 413 and goes no further; any other
    reaches the handler unchanged but for its body, of which at most [max] bytes
    can be read, and all of it exactly when it fits. *)
Theorem BodyLimit_bounds {S} (max : Z) (now : Time) (st : S) (r : Request) (h : Header) :
  0 ≤ max → rq_BodyLimit r = None →
  (0 ≤ rq_ContentLength r → Z.of_nat (len (default "" (rq_Body r))) = rq_ContentLength r) →
  (max < rq_ContentLength r ∧
     ∀ next, BodyLimit max now next st r h = answer (WriteBodyLimitError r) now st r) ∨
  (rq_ContentLength r ≤ max ∧
     ∃ r', (∀ next : Handler S, BodyLimit max now next st r h = next st r' h) ∧
       r' <| rq_BodyLimit := None |> = r ∧
       Z.of_nat (len (read_body r').1) ≤ max ∧
       ((read_body r').2 = true ↔ Z.of_nat (len (default "" (rq_Body r))) ≤ max) ∧
       ((read_body r').2 = true → (read_body r').1 = default "" (rq_Body r))).
Proof.
  intros Hmax Hnone Hlen. destruct (decide (max < rq_ContentLength r)) as [Hc|Hc].
  { left. split; [done |]. intros next. unfold BodyLimit. by rewrite decide_True. }
  right. split; [lia |]. eexists. split.
  { intros next. unfold BodyLimit. rewrite (decide_False _ _ Hc). done. }
  destruct (negb (is_nil (rq_Body r)) && negb (bool_decide (rq_ContentLength r = 0))) eqn:Hw.
  - split; [by destruct r; simpl in *; subst |]. unfold read_body. simpl.
    destruct (decide (Z.of_nat (len (default "" (rq_Body r))) ≤ max)) as [Hd|Hd]; simpl.
    + split_and!; [exact Hd | by split | done].
    + split_and!; [rewrite len_stake; lia | by split | done].
  - split; [by destruct r; simpl in *; subst |]. unfold read_body. rewrite Hnone. simpl.
    assert (Z.of_nat (len (default "" (rq_Body r))) ≤ max); [|done].
    apply andb_false_iff in Hw as [Hb|Hb].
    + destruct (rq_Body r); [done |]. simpl. lia.
    + apply negb_false_iff, bool_decide_eq_true in Hb. rewrite Hlen; lia.
Qed.

(** Every response carries the request's ID: through [Recovery] and [RequestID],
    whatever the handler does -- even a panic -- the middleware returns, and the
    response the client is sent has the X-Request-Id the handler saw, as long as
    the handler leaves that header alone. The ID is the one the request came
    with, if any; and the error written for a panic carries it too. *)
Theorem request_id_on_every_response {S} (rnd : list Z) (now now' : Time) (next : Handler S)
    (s : S) (r : Request) (st : Z) (h : Header) :
  (∀ r' h', keeps_header "X-Request-Id" (h_ops (next s r' h'))) →
  let run := Recovery now (RequestID rnd now' next) s r ∅ in
  sent_status (cl_calls (run_ops (h_ops run) new_client)) = Some (st, h) →
  h_exit run = Returned ∧
  ∃ r', header_Get "X-Request-Id" (rq_Header r') = header_Get "X-Request-Id" h ∧
    GetRequestID r' = header_Get "X-Request-Id" h ∧
    rq_Method r' = rq_Method r ∧ rq_Path r' = rq_Path r ∧
    (let inner := next s r' {["X-Request-Id" := [GetRequestID r']]} in
     h_ops run = (OpHeader (header_Set "X-Request-Id" (GetRequestID r')), now') ::
       h_ops inner ++
       (if decide (h_exit inner = Returned) then []
        else (λ op, (op, now)) <$>
          [OpHeader (header_Set "Content-Type" "application/json");
           OpWriteHeader StatusInternalServerError;
           OpWrite (error_body (header_Get "X-Request-Id" (h_header inner))
             StatusInternalServerError InternalError "an unexpected error occurred")])) ∧
    (header_Get "X-Request-Id" (rq_Header r) ≠ "" →
       GetRequestID r' = header_Get "X-Request-Id" (rq_Header r)).
Proof.
  intros Hnext run Hst.
  set (id := if decide (header_Get "X-Request-Id" (rq_Header r) = "") then newUUID rnd
             else header_Get "X-Request-Id" (rq_Header r)).
  set (r' := r <| rq_Header := header_Set "X-Request-Id" id (rq_Header r) |>
               <| rq_RequestID := Some id |>).
  set (inner := next s r' {["X-Request-Id" := [id]]}).
  set (rest := if decide (h_exit inner = Returned) then [] else (λ op, (op, now)) <$>
    json_ops (Some (r' <| rq_Header := h_header inner |>)) StatusInternalServerError
      InternalError "an unexpected error occurred").
  assert (keeps_header "X-Request-Id" rest) as Hrest.
  { unfold rest. case_decide; [constructor | by apply keeps_header_json]. }
  assert (h_exit run = Returned ∧
    h_ops run = (OpHeader (header_Set "X-Request-Id" id), now') :: h_ops inner ++ rest)
    as [Hexit Hops].
  { unfold run, rest, Recovery, RequestID. fold id. fold r'. unfold before. simpl.
    change (header_Set "X-Request-Id" id ∅) with ({["X-Request-Id" := [id]]} : Header). fold inner.
    destruct (h_exit inner) eqn:He; simpl; [by rewrite app_nil_r | done]. }
  split; [done |]. exists r'.
  assert (h !! "X-Request-Id" = Some [id]) as Hh.
  { rewrite Hops in Hst. simpl in Hst. eapply sent_status_header; [|exact Hst].
    apply keeps_header_run; [apply Forall_app; split; [apply Hnext | done] | | constructor].
    simpl. unfold header_Set. apply lookup_insert_eq. }
  assert (header_Get "X-Request-Id" h = id) as Hget by (unfold header_Get; by rewrite Hh).
  rewrite Hget. split_and!; try done.
  - simpl. apply header_Get_Set.
  - intros Hg. unfold GetRequestID. simpl. unfold id. by rewrite decide_False.
Qed.

(** No handler sees an OPTIONS request; any other reaches it unchanged. *)
Theorem CORS_answers_preflight {S} (cfg : CORSConfig) (now : Time) (st : S) (r : Request) (h : Header) :
  (rq_Method r = "OPTIONS" ∧
     ∀ next, ∃ us, h_ops (CORS cfg now next st r h) =
       ((λ u, (OpHeader u, now)) <$> us) ++ [(OpWriteHeader StatusNoContent, now)] ∧
       h_exit (CORS cfg now next st r h) = Returned ∧ h_state (CORS cfg now next st r h) = st) ∨
  (rq_Method r ≠ "OPTIONS" ∧
     ∃ us, (header_Get "Origin" (rq_Header r) = "" ↔ us = []) ∧
       ∀ next : Handler S, CORS cfg now next st r h = before (OpHeader <$> us) now (next st r) h).
Proof.
  destruct (decide (rq_Method r = "OPTIONS")) as [Hm|Hm]; [left | right]; (split; [done |]).
  - intros next. unfold CORS. rewrite (decide_True _ _ Hm). case_decide.
    + by eexists [_; _; _; _].
    + by exists [].
  - unfold CORS. case_decide as Ho.
    + eexists [_; _; _; _]. split; [done |]. intros next. by rewrite (decide_False _ _ Hm).
    + exists []. split; [done |]. intros next. by rewrite (decide_False _ _ Hm).
Qed.

(** ** The hypotheses hold *)

Lemma newUUID_v4_witness :
  let rnd := seqZ 100 16 in
  newUUID rnd = "64656667-6869-4a6b-ac6d-6e6f70717273" ∧
  String.get 14 (newUUID rnd) = Some "4"%char.
Proof.
  intros rnd. split; [by vm_compute |].
  destruct (newUUID_v4 rnd rnd) as (_ & _ & Hv & _);
    [done | by apply (bool_decide_unpack _); vm_compute | exact Hv].
Defined.

(** A chunked upload (no declared length) over the limit is cut. *)
Lemma BodyLimit_bounds_witness :
  let r := (new_request "POST" "/upload" ∅ "10.0.0.1:5000")
             <| rq_ContentLength := -1 |> <| rq_Body := Some "hello world" |> in
  ∃ r', read_body r' = ("hello", false) ∧ Z.of_nat (len (read_body r').1) ≤ 5 ∧
    ∀ next, BodyLimit 5 0 next tt r ∅ = next tt r' ∅.
Proof.
  intros r. exists (r <| rq_BodyLimit := Some 5 |>). split; [done |].
  destruct (BodyLimit_bounds 5 0 tt r ∅) as [(Hc & _) | (_ & r' & Hn & Hr & Hlen & _)]; [lia | done | | |].
  - simpl. lia.
  - simpl in Hc. lia.
  - split; [by vm_compute | done].
Defined.

(** A handler that panics after it wrote its status. *)
Lemma request_id_on_every_response_witness :
  let next : Handler unit := λ s r _,
    mkRun [(OpWriteHeader StatusOK, 1)] Panicked (rq_Path r) (rq_Header r) s in
  let r := new_request "GET" "/a" {["X-Request-Id" := ["abc"]]} "10.0.0.1:5000" in
  h_exit (Recovery 2 (RequestID [] 0 next) tt r ∅) = Returned ∧
  ∃ r', GetRequestID r' = "abc" ∧ rq_Path r' = "/a".
Proof.
  intros next r.
  destruct (request_id_on_every_response [] 2 0 next tt r StatusOK {["X-Request-Id" := ["abc"]]})
    as (Hexit & r' & _ & Hid & _ & Hp & _).
  - intros r' h'. by repeat constructor.
  - reflexivity.
  - split; [exact Hexit |]. exists r'. rewrite Hid. done.
Defined.
