(* ===== verification/Auth.v ===== *)
(** * Bearer-token authentication (internal/auth/auth.go)

    Parsing and verifying a JWT is github.com/golang-jwt/jwt/v5's and a parameter
    ([JwtLib]): [jwt_Parse] is the call with its key function and options.
    [JwtSound] states what its documentation promises of a token it returns. *)

From S2P Require Import Prelude GoFloat GoStrings GoNet Metrics Config Http ApiError.

(** ** Go strings *)

(** [strings.EqualFold] on ASCII strings. *)
Definition EqualFold (s t : string) : bool := bool_decide (ToUpper s = ToUpper t).

(** [strings.Fields]: the maximal runs of non-space characters; [word] is the run
    being read. *)
Fixpoint fields_from (word s : string) : list string :=
  match s with
  | EmptyString => if decide (word = "") then [] else [word]
  | String c r =>
      if is_space c then
        (if decide (word = "") then [] else [word]) ++ fields_from "" r
      else fields_from (word +:+ String c "") r
  end.

Definition Fields (s : string) : list string := fields_from "" s.

Example Fields_example : Fields "  read:users   write " = ["read:users"; "write"].
Proof. done. Qed.

(** ** The library *)

(** A JSON value of a claim, as far as the code distinguishes them. *)
Inductive ClaimValue : Type :=
| CString (s : string)
| CList (l : list ClaimValue)
| COther.

Abbreviation MapClaims := (gmap string ClaimValue) (only parsing).

(** A token whose signature is not verified yet, as the key function sees it. *)
Record UnverifiedToken := mkUnverified { ut_alg : string; ut_hmac : bool }.

Record ParserOptions := mkOptions {
  po_ValidMethods : list string; po_Issuer : string; po_Audience : string;
  po_ExpirationRequired : bool
}.

(** A parsed token: its claims if they are [MapClaims], and [Valid]. *)
Record ParsedToken := mkParsed { pt_Claims : option MapClaims; pt_Valid : bool }.

Class JwtLib := {
  jwt_Parse : string → (UnverifiedToken → result string string) → ParserOptions → Time →
    result ParsedToken string
}.

(** ** The middleware *)

Record Claims := mkClaims {
  c_Subject : string; c_Issuer : string; c_Audience : string; c_Scopes : list string
}.

(** The two kinds of error [validateToken] returns. *)
Inductive AuthError := InvalidToken (msg : string) | ScopeError (missing : string).

Definition auth_error_string (e : AuthError) : string :=
  match e with
  | InvalidToken msg => msg
  | ScopeError missing => "missing required scope: " +:+ missing
  end.

Definition isScopeError (e : AuthError) : bool :=
  match e with ScopeError _ => true | InvalidToken _ => false end.

Definition extractBearerToken (r : Request) : option string :=
  let auth := header_Get "Authorization" (rq_Header r) in
  if decide (auth = "") then None
  else
    '(scheme, rest) ← cut_at " " auth;
    if negb (EqualFold scheme "Bearer") then None
    else
      let token := TrimSpace rest in
      if decide (token = "") then None else Some token.

(** [mapClaims[key].(string)] *)
Definition claim_string (key : string) (m : MapClaims) : option string :=
  match m !! key with Some (CString s) => Some s | _ => None end.

Definition claim_audience (m : MapClaims) : string :=
  match m !! "aud" with
  | Some (CString aud) => aud
  | Some (CList (CString s :: _)) => s
  | _ => ""
  end.

(** The first required scope that is missing. *)
Definition missing_scope (required have : list string) : option string :=
  find (λ s, negb (bool_decide (s ∈ have))) required.

Section auth.
Context `{JwtLib}.

(** The key function: the secret, for HMAC methods only. *)
Definition keyfunc (cfg : AuthConfig) (t : UnverifiedToken) : result string string :=
  if ut_hmac t then Ok (au_JWTSecret cfg) else Err ("unexpected signing method: " +:+ ut_alg t).

Definition parser_options (cfg : AuthConfig) : ParserOptions :=
  mkOptions ["HS256"] (au_Issuer cfg) (au_Audience cfg) true.

Definition validateToken (tokenStr : string) (cfg : AuthConfig) (now : Time)
    : result Claims AuthError :=
  match jwt_Parse tokenStr (keyfunc cfg) (parser_options cfg) now with
  | Err e => Err (InvalidToken ("invalid token: " +:+ e))
  | Ok token =>
      match pt_Claims token, pt_Valid token with
      | Some m, true =>
          let scopes := match claim_string "scope" m with Some s => Fields s | None => [] end in
          let claims := mkClaims (default "" (claim_string "sub" m))
                          (default "" (claim_string "iss" m)) (claim_audience m) scopes in
          match missing_scope (au_Scopes cfg) scopes with
          | Some s => Err (ScopeError s)
          | None => Ok claims
          end
      | _, _ => Err (InvalidToken "invalid token claims")
      end
  end.

(** [auth.Middleware(cfg, routeRequiresAuth, logger, m)(next)] on one request; the
    handler gets the claims put into the request's context, if any. *)
Definition AuthMiddleware {W} `{ResponseWriter W} (cfg : AuthConfig)
    (routeRequiresAuth : string → bool) (m : bool) (next : option Claims → W → W) (now : Time)
    (r : Request) (w : W) : W * list MetricEvent :=
  let recordFailure reason := emit m [mkEvent AuthFailures [reason] Inc] in
  if negb (au_Enabled cfg) || negb (routeRequiresAuth (rq_Path r)) then (next None w, [])
  else
    match extractBearerToken r with
    | None =>
        (WriteJSON (Some r) StatusUnauthorized AuthMissingToken
           "missing or malformed Authorization header" now w, recordFailure "missing_token")
    | Some tokenStr =>
        match validateToken tokenStr cfg now with
        | Err err =>
            if isScopeError err then
              (WriteJSON (Some r) StatusForbidden AuthInsufficientScope (auth_error_string err) now w,
               recordFailure "insufficient_scope")
            else
              (WriteJSON (Some r) StatusUnauthorized AuthInvalidToken (auth_error_string err) now w,
               recordFailure "invalid_token")
        | Ok claims => (next (Some claims) w, [])
        end
    end.
End auth.

(** What the library documents of a token that [Parse] returns: it is signed, with
    the key the key function gave for its method, which is among the valid
    methods; its issuer and audience are those required; it has an expiry, which
    is not past. *)
Class JwtSound `{JwtLib} := {
  signed_with : string → string → string → Prop;  (** token, method, key *)
  unexpired : string → Time → Prop;
  jwt_Parse_sound tok kf opts now t : jwt_Parse tok kf opts now = Ok t →
    pt_Valid t = true ∧
    (∃ u key, kf u = Ok key ∧ ut_alg u ∈ po_ValidMethods opts ∧ signed_with tok (ut_alg u) key) ∧
    (po_ExpirationRequired opts = true → unexpired tok now) ∧
    ∀ m, pt_Claims t = Some m →
      (po_Issuer opts ≠ "" → m !! "iss" = Some (CString (po_Issuer opts))) ∧
      (po_Audience opts ≠ "" → m !! "aud" = Some (CString (po_Audience opts)) ∨
         ∃ l, m !! "aud" = Some (CList l) ∧ CString (po_Audience opts) ∈ l)
}.

(** ** Lemmas *)

Lemma missing_scope_None required have :
  missing_scope required have = None ↔ ∀ s, s ∈ required → s ∈ have.
Proof.
  unfold missing_scope. induction required as [|s required IH]; simpl.
  - split; [intros _ s Hs; by apply elem_of_nil in Hs | done].
  - case_bool_decide as Hs; simpl.
    + rewrite IH. split.
      * intros Hall s' [->|Hin]%elem_of_cons; [done | by apply Hall].
      * intros Hall s' Hin. apply Hall. by right.
    + split; [done |]. intros Hall. destruct Hs. apply Hall. by left.
Qed.

Lemma missing_scope_Some required have s :
  missing_scope required have = Some s →
  ∃ before after, required = before ++ s :: after ∧ (∀ s', s' ∈ before → s' ∈ have) ∧ s ∉ have.
Proof.
  unfold missing_scope. induction required as [|s0 required IH]; simpl; [done |].
  case_bool_decide as Hs; simpl.
  - intros (before & after & -> & Hb & Hn)%IH. exists (s0 :: before), after.
    split_and!; [done | by intros s' [->|Hin]%elem_of_cons; [|apply Hb] | done].
  - intros [= ->]. exists [], required. split_and!; [done | by intros ? ?%elem_of_nil | done].
Qed.

(** ** Properties *)

Section properties.
Context `{JwtSound}.

(** The scopes a token carries: the words of its "scope" claim. *)
Definition token_scopes (m : MapClaims) : list string :=
  match m !! "scope" with Some (CString s) => Fields s | _ => [] end.

(** What is known of a token that the library accepted. *)
Lemma parsed_token (cfg : AuthConfig) (tok : string) (now : Time) (t : ParsedToken) :
  jwt_Parse tok (keyfunc cfg) (parser_options cfg) now = Ok t →
  pt_Valid t = true ∧ signed_with tok "HS256" (au_JWTSecret cfg) ∧ unexpired tok now.
Proof.
  intros Hp. destruct (jwt_Parse_sound _ _ _ _ _ Hp) as (Hv & (u & key & Hk & Ha & Hs) & He & _).
  simpl in Ha, He. apply list_elem_of_singleton in Ha. unfold keyfunc in Hk.
  destruct (ut_hmac u); [|done]. injection Hk as <-. rewrite Ha in Hs. split_and!; [done..|by apply He].
Qed.

(** C18. With authentication enabled, a request to a route that requires it is answered
    401 without a bearer token, or with one the library does not accept; an accepted one
    is signed with HS256 under the configured secret, is not expired, and is for the
    configured issuer and audience. If it carries every configured scope the next handler
    runs, with its claims, and nothing is counted; if not, the answer is 403 and names
    the first scope that is missing. Every refusal answers without calling the handler
    and counts one failure with its reason. *)
Theorem auth_gate (cfg : AuthConfig) (requires : string → bool) (m : bool) (now : Time)
    (r : Request) :
  au_Enabled cfg = true → requires (rq_Path r) = true → au_Issuer cfg ≠ "" →
  let answered W (rw : ResponseWriter W) next w := AuthMiddleware cfg requires m next now r w in
  let refused status code msg reason := ∀ W (rw : ResponseWriter W) next w,
    answered W rw next w =
      (WriteJSON (Some r) status code msg now w, emit m [mkEvent AuthFailures [reason] Inc]) in
  match extractBearerToken r with
  | None => refused 401 AuthMissingToken "missing or malformed Authorization header" "missing_token"
  | Some tok =>
      match jwt_Parse tok (keyfunc cfg) (parser_options cfg) now with
      | Err e => refused 401 AuthInvalidToken ("invalid token: " +:+ e) "invalid_token"
      | Ok t =>
          signed_with tok "HS256" (au_JWTSecret cfg) ∧ unexpired tok now ∧
          match pt_Claims t with
          | None => refused 401 AuthInvalidToken "invalid token claims" "invalid_token"
          | Some c =>
              c !! "iss" = Some (CString (au_Issuer cfg)) ∧
              (au_Audience cfg ≠ "" → c !! "aud" = Some (CString (au_Audience cfg)) ∨
                 ∃ l, c !! "aud" = Some (CList l) ∧ CString (au_Audience cfg) ∈ l) ∧
              ((∀ s, s ∈ au_Scopes cfg → s ∈ token_scopes c) →
                 ∃ claims, c_Issuer claims = au_Issuer cfg ∧ c_Scopes claims = token_scopes c ∧
                   c_Subject claims = (match c !! "sub" with Some (CString s) => s | _ => "" end) ∧
                   ∀ W (rw : ResponseWriter W) next w,
                     answered W rw next w = (next (Some claims) w, [])) ∧
              (¬ (∀ s, s ∈ au_Scopes cfg → s ∈ token_scopes c) →
                 ∃ before s after, au_Scopes cfg = before ++ s :: after ∧
                   (∀ s', s' ∈ before → s' ∈ token_scopes c) ∧ (s ∉ token_scopes c) ∧
                   refused 403 AuthInsufficientScope ("missing required scope: " +:+ s)
                     "insufficient_scope")
          end
      end
  end.
Proof.
  intros Hen Hreq Hiss answered refused.
  unfold refused, answered, AuthMiddleware. rewrite Hen, Hreq. simpl.
  destruct (extractBearerToken r) as [tok|]; [|done]. unfold validateToken.
  destruct (jwt_Parse tok (keyfunc cfg) (parser_options cfg) now) as [t|e] eqn:Hp; [|done].
  destruct (parsed_token cfg tok now t Hp) as (Hv & Hs & He). split_and!; [done..|].
  destruct (jwt_Parse_sound _ _ _ _ _ Hp) as (_ & _ & _ & Hc).
  destruct (pt_Claims t) as [c|]; [|done]. rewrite Hv. destruct (Hc c eq_refl) as [Hi Ha].
  specialize (Hi Hiss). simpl in Hi. split_and!; [done | done | ..].
  all: assert (match claim_string "scope" c with Some s => Fields s | None => [] end = token_scopes c)
      as -> by (unfold claim_string, token_scopes; by destruct (c !! "scope") as [[]|]).
  - intros Hall%missing_scope_None. rewrite Hall. eexists. split_and!; [..|done]; simpl; [|done|].
    + unfold claim_string. by rewrite Hi.
    + unfold claim_string. by destruct (c !! "sub") as [[]|].
  - intros Hnot. destruct (missing_scope (au_Scopes cfg) (token_scopes c)) as [s|] eqn:Hm.
    + apply missing_scope_Some in Hm as (before & after & Hb & Hall & Hn). by exists before, s, after.
    + destruct Hnot. by apply missing_scope_None.
Qed.
End properties.

(** ** Witness *)

(** A toy library: a token is a key with a suffix, good until time 100. *)
#[local] Instance toy_jwt : JwtLib := {|
  jwt_Parse tok kf opts now :=
    match kf (mkUnverified "HS256" true) with
    | Err e => Err e
    | Ok key =>
        if decide (tok = key +:+ ".signed" ∧ now ≤ 100 ∧ "HS256" ∈ po_ValidMethods opts) then
          Ok (mkParsed (Some {[ "iss" := CString (po_Issuer opts);
                                "aud" := CString (po_Audience opts);
                                "scope" := CString "read write" ]}) true)
        else Err "token is malformed"
    end
|}.

#[local, refine] Instance toy_sound : JwtSound := {|
  signed_with tok alg key := tok = key +:+ ".signed" ∧ alg = "HS256";
  unexpired _ now := now ≤ 100
|}.
Proof.
  intros tok kf opts now t. simpl.
  destruct (kf (mkUnverified "HS256" true)) as [key|] eqn:Hk; [|done].
  case_decide as Hd; [|done]. destruct Hd as (-> & Hn & Hm). intros [= <-]. simpl.
  split; [done |]. split; [by exists (mkUnverified "HS256" true), key |]. split; [done |].
  intros m [= <-]. split; [done |]. by left.
Defined.

Definition demo_auth : AuthConfig := mkAuth true "secret" "issuer" "gateway" ["read"].

Definition bearer_request (tok : string) : Request :=
  new_request "GET" "/api" (header_Set "Authorization" ("bearer  " +:+ tok) ∅) "10.0.0.1:1".

(** The scope is there, and it is not. *)
Lemma auth_gate_witness :
  (∃ claims, c_Issuer claims = "issuer" ∧ c_Scopes claims = ["read"; "write"] ∧
     ∀ W (rw : ResponseWriter W) (next : option Claims → W → W) w,
       AuthMiddleware demo_auth (λ _, true) true next 5 (bearer_request "secret.signed") w =
         (next (Some claims) w, [])) ∧
  ∃ s, (s ∉ ["read"; "write"]) ∧ ∀ W (rw : ResponseWriter W) (next : option Claims → W → W) w,
    AuthMiddleware (mkAuth true "secret" "issuer" "gateway" ["read"; "admin"]) (λ _, true) true next 5
      (bearer_request "secret.signed") w =
    (WriteJSON (Some (bearer_request "secret.signed")) 403 AuthInsufficientScope
       ("missing required scope: " +:+ s) 5 w, [mkEvent AuthFailures ["insufficient_scope"] Inc]).
Proof.
  split.
  - destruct (auth_gate demo_auth (λ _, true) true 5 (bearer_request "secret.signed")
      eq_refl eq_refl ltac:(done)) as (_ & _ & _ & _ & Hok & _).
    destruct Hok as (claims & Hi & Hs & _ & Hn).
    { intros s ->%list_elem_of_singleton. by left. }
    by exists claims.
  - destruct (auth_gate (mkAuth true "secret" "issuer" "gateway" ["read"; "admin"]) (λ _, true) true 5
      (bearer_request "secret.signed") eq_refl eq_refl ltac:(done)) as (_ & _ & _ & _ & _ & Hno).
    destruct Hno as (before & s & after & _ & _ & Hs & Hr); [|by exists s].
    intros Hall. specialize (Hall "admin" ltac:(right; by left)).
    by apply (bool_decide_pack _) in Hall.
Defined.
