(* ===== verification/RateLimit.v ===== *)
(** * The rate limiter (internal/ratelimit/ratelimit.go)

    The token bucket is golang.org/x/time/rate's and a parameter
    ([TokenBucket]).  The limiter's map holds pointers to clients, and a request
    goes on using the bucket it found after releasing the lock, so clients live
    in a heap and the map holds their addresses.  The map's keys contain a
    float64: Go compares them with [==], under which a NaN key is never found
    again, so the map is an association list searched with that equality.

    [getLimiter] is divided at its critical sections; the sequential [getLimiter]
    runs them in one go, and [request_step] interleaves them. *)

From S2P Require Import Prelude GoFloat GoStrings GoNet Metrics Config Routing Http ApiError.

(** [rate.Limiter]: a bucket of a rate and a burst, and [Allow] at a time. *)
Class TokenBucket := {
  Bucket : Type;
  NewLimiter : float64 → Z → Bucket;
  bucket_Allow : Bucket → Time → bool * Bucket
}.

Section data.
Context `{TokenBucket}.

Record ClientKey := mkKey { k_ip : string; k_rate : float64; k_burst : Z }.

(** Go's [==] on keys. *)
Definition key_eqb (k k' : ClientKey) : bool :=
  bool_decide (k_ip k = k_ip k') && feqb (k_rate k) (k_rate k') &&
  bool_decide (k_burst k = k_burst k').

Record ClientEntry := mkEntry { c_limiter : Bucket; c_lastSeen : Time }.

#[export] Instance ClientEntry_eta : Eta ClientEntry := λ c,
  mkEntry (c_limiter c) (c_lastSeen c).

Record Limiter := mkLimiter {
  l_clients : list (ClientKey * nat);
  l_heap : list ClientEntry;
  l_rate : float64;
  l_burst : Z;
  l_routes : list RouteConfig;
  l_trustedCIDRs : list IPNet;
  l_idleTTL : Duration;
  l_cleanupInterval : Duration;
  l_metrics : bool;
  l_stopped : bool                      (** [stopCh] is closed *)
}.

#[export] Instance Limiter_eta : Eta Limiter := λ l,
  mkLimiter (l_clients l) (l_heap l) (l_rate l) (l_burst l) (l_routes l) (l_trustedCIDRs l)
    (l_idleTTL l) (l_cleanupInterval l) (l_metrics l) (l_stopped l).

(** [ratelimit.New(cfg, routes, trustedProxies, logger, m)] *)
Definition parseCIDRs (cidrs : list string) : list IPNet := omap ParseCIDR cidrs.

Definition NewRateLimiter (cfg : RateLimitConfig) (routes : list RouteConfig)
    (trustedProxies : list string) (m : bool) : Limiter :=
  let idleTTL := if decide (rl_IdleTTL cfg ≤ 0) then 10 * Minute else rl_IdleTTL cfg in
  let interval := if decide (rl_CleanupInterval cfg ≤ 0) then Minute else rl_CleanupInterval cfg in
  mkLimiter [] [] (rl_RequestsPerSecond cfg) (rl_BurstSize cfg) routes (parseCIDRs trustedProxies)
    idleTTL interval m false.

(** [l.Close()], apart from waiting for the janitor *)
Definition limiter_Close (l : Limiter) : Limiter := l <| l_stopped := true |>.

(** [l.UpdateConfig(cfg, routes)] *)
Definition limiter_UpdateConfig (cfg : RateLimitConfig) (routes : list RouteConfig) (l : Limiter)
    : Limiter :=
  l <| l_rate := rl_RequestsPerSecond cfg |> <| l_burst := rl_BurstSize cfg |>
    <| l_routes := routes |> <| l_clients := [] |>.

(** ** Who is asking *)

Definition isTrusted (l : Limiter) (ipStr : string) : bool :=
  match ParseIP ipStr with
  | None => false
  | Some ip => existsb (λ cidr, net_Contains cidr ip) (l_trustedCIDRs l)
  end.

Definition extractIP (remoteAddr : string) : string :=
  match SplitHostPort remoteAddr with Some (host, _) => host | None => remoteAddr end.

(** The walk over the parts of the header, last one first. *)
Fixpoint first_untrusted (l : Limiter) (parts : list string) : option string :=
  match parts with
  | [] => None
  | part :: parts =>
      let ip := TrimSpace part in
      if bool_decide (ip ≠ "") && negb (isTrusted l ip) then Some ip else first_untrusted l parts
  end.

Definition clientIP (l : Limiter) (r : Request) : string :=
  let peerIP := extractIP (rq_RemoteAddr r) in
  if negb (is_nil_list (l_trustedCIDRs l)) && isTrusted l peerIP then
    let xff := header_Get "X-Forwarded-For" (rq_Header r) in
    if decide (xff ≠ "") then default peerIP (first_untrusted l (reverse (Split xff ",")))
    else peerIP
  else peerIP.

(** ** Which limit applies *)

(** One step of the scan: the best override, length and prefix so far. *)
Definition scan_route (path : string) (best : option RateLimitConfig * nat * string)
    (route : RouteConfig) : option RateLimitConfig * nat * string :=
  let '(bestOverride, bestLen, bestPrefix) := best in
  if MatchesPrefix path (r_PathPrefix route)
     && bool_decide (bestLen < len (r_PathPrefix route))%nat
  then (match r_RateOverride route with Some o => Some o | None => bestOverride end,
        len (r_PathPrefix route), r_PathPrefix route)
  else best.

Definition limitsForPath (l : Limiter) (path : string) : float64 * Z * string :=
  let '(bestOverride, _, bestPrefix) :=
    foldl (scan_route path) (None, 0%nat, "unknown") (l_routes l) in
  match bestOverride with
  | Some o => (rl_RequestsPerSecond o, rl_BurstSize o, bestPrefix)
  | None => (l_rate l, l_burst l, bestPrefix)
  end.

(** ** The map of clients *)

(** [l.clients[key]] *)
Fixpoint find_client (key : ClientKey) (cs : list (ClientKey * nat)) : option nat :=
  match cs with
  | [] => None
  | (k, p) :: cs => if key_eqb k key then Some p else find_client key cs
  end.

(** [delete(l.clients, key)] *)
Definition delete_client (key : ClientKey) (cs : list (ClientKey * nat)) : list (ClientKey * nat) :=
  filter (λ c, key_eqb c.1 key = false) cs.

(** [c.lastSeen = now] through the pointer [p] *)
Definition touch (p : nat) (now : Time) (l : Limiter) : Limiter :=
  l <| l_heap := alter (λ c, c <| c_lastSeen := now |>) p (l_heap l) |>.

(** What the section under the read lock finds: the client, and whether it is
    to be refreshed. *)
Definition lookup_fast (key : ClientKey) (now : Time) (l : Limiter) : option (nat * bool) :=
  p ← find_client key (l_clients l);
  c ← l_heap l !! p;
  Some (p, bool_decide (Z.quot (l_idleTTL l) 2 < time_sub now (c_lastSeen c))).

(** The section under the write lock: look again, insert if still missing. *)
Definition lookup_slow (key : ClientKey) (now : Time) (l : Limiter) : nat * Limiter :=
  match find_client key (l_clients l) with
  | Some p => (p, touch p now l)
  | None =>
      let p := length (l_heap l) in
      (p, l <| l_heap := l_heap l ++ [mkEntry (NewLimiter (k_rate key) (k_burst key)) now] |>
            <| l_clients := l_clients l ++ [(key, p)] |>)
  end.

(** The clock readings of one request: age check, refresh or insertion, [Allow]. *)
Record Readings := mkReadings { rd_since : Time; rd_seen : Time; rd_allow : Time }.

Definition getLimiter (ip : string) (r : float64) (burst : Z) (rd : Readings) (l : Limiter)
    : nat * Limiter :=
  let key := mkKey ip r burst in
  match lookup_fast key (rd_since rd) l with
  | Some (p, true) => (p, touch p (rd_seen rd) l)
  | Some (p, false) => (p, l)
  | None => lookup_slow key (rd_seen rd) l
  end.

(** [limiter.Allow()] through the pointer [p]; an address outside the heap does
    not occur ([heap_ok]). *)
Definition allow_at (p : nat) (now : Time) (l : Limiter) : bool * Limiter :=
  match l_heap l !! p with
  | None => (false, l)
  | Some c =>
      let '(ok, b) := bucket_Allow (c_limiter c) now in
      (ok, l <| l_heap := <[p := c <| c_limiter := b |>]> (l_heap l) |>)
  end.

(** The answer to a request over its limit. *)
Definition reject {W} `{ResponseWriter W} (r : Request) (rate : float64) (now : Time) (w : W) : W :=
  let w := rw_Header (header_Set "Retry-After" (FormatFloat_f0 (fdiv (f64 1) rate))) w in
  WriteJSON (Some r) StatusTooManyRequests RateLimitExceeded "rate limit exceeded, retry later"
    now w.

(** [l.Middleware()(next)], on one request. *)
Definition RateLimitMiddleware {W} `{ResponseWriter W} (next : W → W) (rd : Readings)
    (r : Request) (l : Limiter) (w : W) : Limiter * W * list MetricEvent :=
  let ip := clientIP l r in
  let '(rate, burst, prefix) := limitsForPath l (rq_Path r) in
  let '(p, l) := getLimiter ip rate burst rd l in
  let '(ok, l) := allow_at p (rd_allow rd) l in
  if ok then (l, next w, [])
  else (l, reject r rate (rd_allow rd) w, emit (l_metrics l) [mkEvent RateLimitHits [prefix] Inc]).

(** ** The janitor *)

Definition evictBatchSize : nat := 256.

(** [now.Sub(c.lastSeen) > l.idleTTL] for the client at [p] *)
Definition idle (l : Limiter) (now : Time) (p : nat) : bool :=
  match l_heap l !! p with
  | Some c => bool_decide (l_idleTTL l < time_sub now (c_lastSeen c))
  | None => false
  end.

(** The scan under the read lock. *)
Definition expired_keys (now : Time) (l : Limiter) : list ClientKey :=
  (filter (λ c, idle l now c.2 = true) (l_clients l)).*1.

(** One key of a batch, re-checked under the write lock. *)
Definition evict_key (now : Time) (st : Limiter * nat) (key : ClientKey) : Limiter * nat :=
  match find_client key (l_clients st.1) with
  | Some p =>
      if idle st.1 now p
      then (st.1 <| l_clients := delete_client key (l_clients st.1) |>, S st.2)
      else st
  | None => st
  end.

Definition evict_batch (now : Time) (keys : list ClientKey) (st : Limiter * nat) : Limiter * nat :=
  foldl (evict_key now) st keys.

(** The loop over the batches, from index [start]. *)
Fixpoint evict_loop (fuel : nat) (now : Time) (expired : list ClientKey) (start : nat)
    (st : Limiter * nat) : Limiter * nat :=
  match fuel with
  | O => st
  | S fuel =>
      if decide (start < length expired)%nat then
        let stop := Nat.min (start + evictBatchSize) (length expired) in
        evict_loop fuel now expired (start + evictBatchSize)
          (evict_batch now (take (stop - start) (drop start expired)) st)
      else st
  end.

Definition updateTrackedGauge (l : Limiter) : list MetricEvent :=
  emit (l_metrics l)
    [mkEvent RateLimitClientsTracked [] (SetTo (f64 (Z.of_nat (length (l_clients l)))))].

(** [l.evictOnce(now)] *)
Definition evictOnce (now : Time) (l : Limiter) : Limiter * list MetricEvent :=
  let expired := expired_keys now l in
  if decide (length expired = 0%nat) then (l, updateTrackedGauge l)
  else
    let '(l, evicted) := evict_loop (length expired) now expired 0 (l, 0%nat) in
    (l, (if decide (0 < evicted)%nat
         then emit (l_metrics l)
                [mkEvent RateLimitClientsEvicted [] (Add (f64 (Z.of_nat evicted)))]
         else []) ++ updateTrackedGauge l).

(** [l.cleanup()]: what its select chooses, a tick ([Some now]) or the stop. *)
Fixpoint cleanup (selects : list (option Time)) (l : Limiter) : Limiter * list MetricEvent :=
  match selects with
  | Some now :: selects =>
      let '(l, e) := evictOnce now l in
      let '(l, e') := cleanup selects l in (l, e ++ e')
  | _ => (l, [])
  end.

(** ** Inspection *)

Record LimiterEntry := mkLimiterEntry {
  le_IP : string; le_Rate : float64; le_Burst : Z; le_LastSeen : Time
}.

Definition maxSnapshotEntries : nat := Z.to_nat 10000.

(** [l.Snapshot()]: the order of the map is Go's choice. *)
Definition limiter_Snapshot (l : Limiter) : list LimiterEntry :=
  take maxSnapshotEntries (omap (λ '(k, p),
    c ← l_heap l !! p; Some (mkLimiterEntry (k_ip k) (k_rate k) (k_burst k) (c_lastSeen c)))
    (l_clients l)).
(** ** Requests interleaved

    A request between its critical sections: about to look its key up, to
    refresh the client it found, to insert one, to ask the bucket, done. *)
Inductive Pc := PLookup | PTouch (p : nat) | PInsert | PAllow (p : nat) | PDone (ok : bool).

Definition thread_step (now : Time) (key : ClientKey) (pc : Pc) (l : Limiter) : Pc * Limiter :=
  match pc with
  | PLookup =>
      match lookup_fast key now l with
      | Some (p, true) => (PTouch p, l)
      | Some (p, false) => (PAllow p, l)
      | None => (PInsert, l)
      end
  | PTouch p => (PAllow p, touch p now l)
  | PInsert => let '(p, l) := lookup_slow key now l in (PAllow p, l)
  | PAllow p => let '(ok, l) := allow_at p now l in (PDone ok, l)
  | PDone _ => (pc, l)
  end.

(** One answered question to a bucket. *)
Record Answer := mkAnswer { an_key : ClientKey; an_bucket : nat; an_time : Time; an_ok : bool }.

Definition answer_of (now : Time) (key : ClientKey) (pc pc' : Pc) : list Answer :=
  match pc, pc' with PAllow p, PDone ok => [mkAnswer key p now ok] | _, _ => [] end.

(** The limiter, the requests under way, and the answers given so far. *)
Record World := mkWorld {
  w_limiter : Limiter; w_threads : gmap nat (ClientKey * Pc); w_log : list Answer
}.

(** Between two reloads and evictions: requests arrive and run in any order, at
    any time readings. *)
Inductive request_step : World → World → Prop :=
| RequestStart w i key :
    w_threads w !! i = None →
    request_step w (mkWorld (w_limiter w) (<[i := (key, PLookup)]> (w_threads w)) (w_log w))
| RequestRun w i key pc now pc' l' :
    w_threads w !! i = Some (key, pc) →
    thread_step now key pc (w_limiter w) = (pc', l') →
    request_step w (mkWorld l' (<[i := (key, pc')]> (w_threads w))
                      (w_log w ++ answer_of now key pc pc')).
End data.

(** ** Keys *)

Lemma key_eqb_iff k k' :
  key_eqb k k' = true ↔
    k_ip k = k_ip k' ∧ feqb (k_rate k) (k_rate k') = true ∧ k_burst k = k_burst k'.
Proof. unfold key_eqb. rewrite !andb_true_iff, !bool_decide_eq_true. tauto. Qed.

Lemma key_eqb_sym k k' : key_eqb k k' = key_eqb k' k.
Proof. apply eq_true_iff_eq. rewrite !key_eqb_iff, feqb_sym. split; intros (-> & ? & ->); done. Qed.

Lemma key_eqb_trans a b c : key_eqb a b = true → key_eqb b c = true → key_eqb a c = true.
Proof.
  rewrite !key_eqb_iff. intros (-> & H1 & ->) (-> & H2 & ->).
  split_and!; [done | by eapply feqb_trans | done].
Qed.

(** Equal keys answer every comparison alike. *)
Lemma key_eqb_l a b c : key_eqb a b = true → key_eqb a c = key_eqb b c.
Proof.
  intros Hab. apply eq_true_iff_eq. split; intros H; [|by eapply key_eqb_trans].
  eapply key_eqb_trans; [|exact H]. by rewrite key_eqb_sym.
Qed.

Lemma find_client_Some key cs p :
  find_client key cs = Some p → ∃ k, (k, p) ∈ cs ∧ key_eqb k key = true.
Proof.
  induction cs as [|[k q] cs IH]; simpl; [done |]. destruct (key_eqb k key) eqn:He.
  - intros [= ->]. exists k. split; [by left | done].
  - intros Hf. destruct (IH Hf) as (k' & Hin & ?). exists k'. split; [by right | done].
Qed.

Lemma find_client_None key cs :
  find_client key cs = None ↔ Forall (λ c, key_eqb c.1 key = false) cs.
Proof.
  induction cs as [|[k q] cs IH]; simpl; [by split |]. rewrite Forall_cons_iff, <-IH. simpl.
  destruct (key_eqb k key); split; try done; try tauto; by intros [].
Qed.

(** No two entries of a map have equal keys, or the same client. *)
Definition distinct (cs : list (ClientKey * nat)) : Prop :=
  (∀ k p k' p', (k, p) ∈ cs → (k', p') ∈ cs → key_eqb k k' = true → p = p') ∧
  NoDup cs.*2.

Lemma distinct_inj cs k k' p : distinct cs → (k, p) ∈ cs → (k', p) ∈ cs → k = k'.
Proof.
  intros [_ Hnd] (i & Hi)%list_elem_of_lookup (j & Hj)%list_elem_of_lookup.
  assert (i = j) as ->; [|congruence].
  eapply NoDup_lookup; [exact Hnd | |]; rewrite list_lookup_fmap; [by rewrite Hi | by rewrite Hj].
Qed.

Lemma find_client_In key cs k p :
  distinct cs → (k, p) ∈ cs → key_eqb k key = true → find_client key cs = Some p.
Proof.
  intros [Hd _] Hin He. destruct (find_client key cs) as [q|] eqn:Hf.
  - apply find_client_Some in Hf as (k' & Hin' & He'). f_equal.
    apply (Hd k' q k p); [done | done |]. rewrite key_eqb_sym in He. by eapply key_eqb_trans.
  - apply find_client_None in Hf. rewrite Forall_forall in Hf. specialize (Hf _ Hin). simpl in Hf.
    congruence.
Qed.

(** ** Buckets under interleaved requests *)

Section buckets.
Context `{TokenBucket}.

(** What a bucket answers to questions at the given times. *)
Fixpoint bucket_run (b : Bucket) (ts : list Time) : list bool * Bucket :=
  match ts with
  | [] => ([], b)
  | t :: ts =>
      let '(ok, b) := bucket_Allow b t in
      let '(oks, b) := bucket_run b ts in (ok :: oks, b)
  end.

Lemma bucket_run_snoc b ts oks b' t :
  bucket_run b ts = (oks, b') →
  bucket_run b (ts ++ [t]) = (oks ++ [(bucket_Allow b' t).1], (bucket_Allow b' t).2).
Proof.
  revert b oks. induction ts as [|t0 ts IH]; intros b oks; simpl.
  - intros [= <- <-]. by destruct (bucket_Allow b t).
  - destruct (bucket_Allow b t0) as [ok b1]. destruct (bucket_run b1 ts) as [oks1 b2] eqn:Hr.
    intros [= <- <-]. by rewrite (IH b1 oks1 Hr).
Qed.

(** The request of [key] uses the client at [p]. *)
Definition owns (l : Limiter) (key : ClientKey) (p : nat) : Prop :=
  ∃ k, (k, p) ∈ l_clients l ∧ (k = key ∨ key_eqb k key = true).

Definition answers_at (p : nat) (log : list Answer) : list Answer :=
  filter (λ a, an_bucket a = p) log.

(** Every client in the map has the state its answers lead to. *)
Record store_ok (l : Limiter) (log : list Answer) : Prop := {
  so_distinct : distinct (l_clients l);
  so_bucket k p : (k, p) ∈ l_clients l → ∃ c, l_heap l !! p = Some c ∧
    bucket_run (NewLimiter (k_rate k) (k_burst k)) (an_time <$> answers_at p log) =
      (an_ok <$> answers_at p log, c_limiter c);
  so_log a : a ∈ log → owns l (an_key a) (an_bucket a)
}.

Lemma owns_mono l l' key p :
  (∀ c, c ∈ l_clients l → c ∈ l_clients l') → owns l key p → owns l' key p.
Proof. intros Hsub (k & Hin & ?). exists k. auto. Qed.

Lemma store_ok_touch p now l log : store_ok l log → store_ok (touch p now l) log.
Proof.
  intros [Hd Hb Hl]. split; [exact Hd | | exact Hl].
  intros k q Hin. destruct (Hb k q Hin) as (c & Hc & Hr). simpl.
  destruct (decide (p = q)) as [->|Hne].
  - exists (c <| c_lastSeen := now |>). rewrite list_lookup_alter_eq, Hc. split; [done | exact Hr].
  - exists c. rewrite list_lookup_alter_ne by done. by split.
Qed.

Lemma answers_at_nil l log p : store_ok l log → (length (l_heap l) ≤ p)%nat → answers_at p log = [].
Proof.
  intros Hs Hp. destruct (answers_at p log) as [|a ans] eqn:Ha; [done | exfalso].
  assert (a ∈ answers_at p log) as Hin by (rewrite Ha; by left).
  apply list_elem_of_filter in Hin as [Heq Hin]. clear Ha.
  destruct (so_log _ _ Hs a Hin) as (k & Hk & _).
  destruct (so_bucket _ _ Hs _ _ Hk) as (c & Hc & _).
  apply lookup_lt_Some in Hc. lia.
Qed.

Lemma store_ok_insert key now l log p l' :
  store_ok l log → lookup_slow key now l = (p, l') →
  store_ok l' log ∧ owns l' key p ∧ (∀ c, c ∈ l_clients l → c ∈ l_clients l').
Proof.
  intros Hs. unfold lookup_slow. destruct (find_client key (l_clients l)) as [q|] eqn:Hf.
  - intros [= <- <-]. split; [by apply store_ok_touch |]. split; [|done].
    apply find_client_Some in Hf as (k & ? & ?). exists k. auto.
  - intros [= <- <-]. apply find_client_None in Hf. rewrite Forall_forall in Hf.
    pose proof (so_distinct _ _ Hs) as [Hd1 Hd2].
    assert (∀ k q, (k, q) ∈ l_clients l → q < length (l_heap l))%nat as Hlt.
    { intros k q Hin. destruct (so_bucket _ _ Hs _ _ Hin) as (c & Hc & _).
      by apply lookup_lt_Some in Hc. }
    split; [|split; [exists key; split; [simpl; set_solver | by left] | simpl; set_solver]].
    split; simpl.
    + split.
      * intros *; rewrite !elem_of_app, !list_elem_of_singleton. intros [Hi|Hi] [Hj|Hj] He; simplify_eq/=; [by eapply Hd1 | | | done].
        -- specialize (Hf _ Hi). simpl in Hf. congruence.
        -- specialize (Hf _ Hj). simpl in Hf. rewrite key_eqb_sym in Hf. congruence.
      * rewrite fmap_app. apply NoDup_app. split; [done |]. split; [|apply NoDup_singleton].
        intros q ([k q'] & -> & Hin)%list_elem_of_fmap Hq%list_elem_of_singleton.
        specialize (Hlt _ _ Hin). simpl in Hq. lia.
    + intros k q [Hin|Hin]%elem_of_app.
      * destruct (so_bucket _ _ Hs _ _ Hin) as (c & Hc & Hr). exists c.
        by rewrite (lookup_app_l_Some _ _ _ _ Hc).
      * apply list_elem_of_singleton in Hin as [= -> ->].
        eexists. rewrite lookup_app_r, Nat.sub_diag by done. split; [done |].
        by rewrite (answers_at_nil l log).
    + intros a Ha. apply (owns_mono l); [simpl; set_solver |]. by apply Hs.
Qed.

Lemma store_ok_allow key p now l log ok l' :
  store_ok l log → owns l key p → allow_at p now l = (ok, l') →
  store_ok l' (log ++ [mkAnswer key p now ok]).
Proof.
  intros Hs (k & Hin & Hk) Ha. destruct (so_bucket _ _ Hs _ _ Hin) as (c & Hc & Hr).
  unfold allow_at in Ha. rewrite Hc in Ha.
  destruct (bucket_Allow (c_limiter c) now) as [ok' b] eqn:Hb. injection Ha as -> <-.
  split; simpl; [apply Hs | |].
  - intros k' q Hin'. unfold answers_at. rewrite filter_app.
    destruct (decide (p = q)) as [<-|Hne].
    + rewrite (distinct_inj _ _ _ _ (so_distinct _ _ Hs) Hin' Hin).
      exists (c <| c_limiter := b |>).
      rewrite list_lookup_insert_eq by (by eapply lookup_lt_Some). split; [done |].
      rewrite filter_cons_True, filter_nil, !fmap_app by done. simpl.
      rewrite (bucket_run_snoc _ _ _ _ _ Hr), Hb. done.
    + destruct (so_bucket _ _ Hs _ _ Hin') as (c' & Hc' & Hr'). exists c'.
      rewrite list_lookup_insert_ne by done. split; [done |].
      rewrite filter_cons_False, filter_nil, app_nil_r; [done | simpl; congruence].
  - intros a [Ha| ->%list_elem_of_singleton]%elem_of_app; [by apply (so_log _ _ Hs) |].
    by exists k.
Qed.

(** What the threads know. *)
Definition thread_ok (l : Limiter) (key : ClientKey) (pc : Pc) : Prop :=
  match pc with PTouch p | PAllow p => owns l key p | _ => True end.

Definition world_ok (w : World) : Prop :=
  store_ok (w_limiter w) (w_log w) ∧
  map_Forall (λ _ t, thread_ok (w_limiter w) t.1 t.2) (w_threads w).

Lemma thread_step_ok now key pc l pc' l' log :
  store_ok l log → thread_ok l key pc → thread_step now key pc l = (pc', l') →
  store_ok l' (log ++ answer_of now key pc pc') ∧ thread_ok l' key pc' ∧
  (∀ c, c ∈ l_clients l → c ∈ l_clients l').
Proof.
  intros Hs Ht. destruct pc; simpl.
  - unfold lookup_fast. destruct (find_client key (l_clients l)) as [p|] eqn:Hf; simpl.
    + apply find_client_Some in Hf as (k & Hin & He).
      destruct (so_bucket _ _ Hs _ _ Hin) as (c & -> & _). simpl.
      case_bool_decide; intros [= <- <-]; rewrite app_nil_r; (split; [done |]); (split; [|done]);
        exists k; auto.
    + intros [= <- <-]. by rewrite app_nil_r.
  - intros [= <- <-]. rewrite app_nil_r. split; [by apply store_ok_touch | done].
  - destruct (lookup_slow key now l) as [p l1] eqn:Hl. intros [= <- <-]. rewrite app_nil_r.
    destruct (store_ok_insert _ _ _ _ _ _ Hs Hl) as (? & ? & ?). done.
  - destruct (allow_at p now l) as [ok l1] eqn:Ha. intros [= <- <-].
    split; [by eapply store_ok_allow |]. split; [done |].
    unfold allow_at in Ha. destruct (l_heap l !! p) as [c|]; [|by simplify_eq].
    destruct (bucket_Allow (c_limiter c) now). injection Ha as _ <-. done.
  - intros [= <- <-]. by rewrite app_nil_r.
Qed.

Lemma request_step_ok w w' : world_ok w → request_step w w' → world_ok w'.
Proof.
  intros [Hs Ht] Hstep. destruct Hstep as [w i key Hi | w i key pc now pc' l' Hi Hr].
  - split; [done |]. simpl. by apply map_Forall_insert_2.
  - destruct (thread_step_ok _ _ _ _ _ _ (w_log w) Hs (Ht _ _ Hi) Hr) as (? & ? & Hsub).
    split; [done |]. simpl. apply map_Forall_insert_2; [done |].
    intros j [key' pc2] Hj. specialize (Ht _ _ Hj). simpl in *.
    destruct pc2; simpl in *; try done; by eapply owns_mono.
Qed.
End buckets.

(** ** The janitor *)

Lemma filter_all {A} (P : A → Prop) `{∀ x, Decision (P x)} (l : list A) :
  Forall P l → filter P l = l.
Proof. induction 1 as [|x l Hx _ IH]; [done |]. by rewrite filter_cons_True, IH. Qed.

Lemma filter_ext_in {A} (P Q : A → Prop) `{∀ x, Decision (P x), ∀ x, Decision (Q x)} (l : list A) :
  (∀ x, x ∈ l → (P x ↔ Q x)) → filter P l = filter Q l.
Proof.
  induction l as [|x l IH]; intros Hl; [done |].
  assert (filter P l = filter Q l) as IH' by (apply IH; intros y Hy; apply Hl; by right).
  specialize (Hl x (list_elem_of_here _ _)). rewrite !filter_cons, IH'.
  destruct (decide (P x)), (decide (Q x)); tauto.
Qed.

Section janitor.
Context `{TokenBucket}.

(** Deleting a key that is present removes one entry. *)
Lemma delete_length key cs p :
  distinct cs → find_client key cs = Some p → S (length (delete_client key cs)) = length cs.
Proof.
  unfold delete_client. induction cs as [|[k q] cs IH]; intros [Hd Hnd] Hf; simpl in *; [done |].
  apply NoDup_cons in Hnd as [Hq Hnd]. destruct (key_eqb k key) eqn:He.
  - rewrite filter_cons_False by (simpl; congruence). rewrite filter_all; [done |].
    apply Forall_forall. intros [k' q'] Hin. destruct (key_eqb k' key) eqn:He'; [|done].
    exfalso. apply Hq. rewrite key_eqb_sym in He'.
    rewrite (Hd k q k' q'); [|by left|by right|by eapply key_eqb_trans].
    apply list_elem_of_fmap. by exists (k', q').
  - rewrite filter_cons_True by done. simpl. f_equal. apply IH; [|done].
    split; [|done]. intros k1 p1 k2 p2 H1 H2. apply Hd; by right.
Qed.

Lemma distinct_filter (P : ClientKey * nat → Prop) `{∀ x, Decision (P x)} cs :
  distinct cs → distinct (filter P cs).
Proof.
  intros [Hd Hnd]. split.
  - intros k p k' p' [_ ?]%list_elem_of_filter [_ ?]%list_elem_of_filter. by apply Hd.
  - eapply sublist_NoDup; [exact Hnd |]. apply fmap_sublist, sublist_filter.
Qed.

(** [c] outlives a pass over [keys]. *)
Definition survives (keys : list ClientKey) (l : Limiter) (now : Time) (c : ClientKey * nat) : bool :=
  negb (existsb (key_eqb c.1) keys && idle l now c.2).

Lemma evict_key_spec now l n key :
  distinct (l_clients l) →
  ∃ n', evict_key now (l, n) key =
    (l <| l_clients := filter (λ c, survives [key] l now c = true) (l_clients l) |>, n') ∧
    (n' + length (filter (λ c, survives [key] l now c = true) (l_clients l)) =
     n + length (l_clients l))%nat.
Proof.
  intros Hd. unfold evict_key. simpl.
  assert (∀ c, c ∈ l_clients l → key_eqb c.1 key = true →
    find_client key (l_clients l) = Some c.2) as Hp.
  { intros [k q] Hin He. by apply (find_client_In key _ k). }
  assert ((∀ p, find_client key (l_clients l) = Some p → idle l now p = false) →
    filter (λ c, survives [key] l now c = true) (l_clients l) = l_clients l) as Hnone.
  { intros Hi. apply filter_all, Forall_forall. intros c Hc. unfold survives. simpl.
    rewrite orb_false_r. destruct (key_eqb c.1 key) eqn:He; [|done]. by rewrite (Hi _ (Hp c Hc He)). }
  destruct (find_client key (l_clients l)) as [p|] eqn:Hf.
  - destruct (idle l now p) eqn:Hi.
    + exists (S n). assert (filter (λ c, survives [key] l now c = true) (l_clients l) =
        delete_client key (l_clients l)) as ->.
      { unfold delete_client. apply filter_ext_in. intros c Hc.
        unfold survives. simpl. rewrite orb_false_r.
        destruct (key_eqb c.1 key) eqn:He; [|by split]. specialize (Hp c Hc He). simplify_eq.
        rewrite Hi. by split. }
      split; [done |]. pose proof (delete_length key _ p Hd Hf). lia.
    + exists n. rewrite Hnone by (by intros ? [= <-]). split; [by destruct l | lia].
  - exists n. rewrite Hnone by done. split; [by destruct l | lia].
Qed.
Lemma evict_batch_spec now keys l n :
  distinct (l_clients l) →
  ∃ n', evict_batch now keys (l, n) =
    (l <| l_clients := filter (λ c, survives keys l now c = true) (l_clients l) |>, n') ∧
    (n' + length (filter (λ c, survives keys l now c = true) (l_clients l)) =
     n + length (l_clients l))%nat.
Proof.
  revert l n. induction keys as [|key keys IH]; intros l n Hd.
  - exists n. rewrite filter_all by (by apply Forall_forall). split; [by destruct l | lia].
  - destruct (evict_key_spec now l n key Hd) as (n1 & He & Hn1).
    change (evict_batch now (key :: keys) (l, n)) with (evict_batch now keys (evict_key now (l, n) key)).
    rewrite He.
    match goal with |- context [evict_batch now keys (?l1, n1)] =>
      destruct (IH l1 n1) as (n2 & -> & Hn2); [by apply distinct_filter |] end.
    assert (filter (λ c, survives (key :: keys) l now c = true) (l_clients l) =
      filter (λ c, survives keys l now c = true)
        (filter (λ c, survives [key] l now c = true) (l_clients l))) as ->.
    { rewrite list_filter_filter. apply filter_ext_in. intros c _. unfold survives. simpl.
      rewrite orb_false_r. destruct (key_eqb c.1 key), (existsb _ keys), (idle l now c.2); simpl;
        tauto. }
    exists n2. split; [done |]. by etransitivity; [exact Hn2 | exact Hn1].
Qed.

(** The batches together are one pass over the keys. *)
Lemma evict_loop_batches fuel now expired start st :
  (length expired ≤ fuel + start)%nat →
  evict_loop fuel now expired start st = evict_batch now (drop start expired) st.
Proof.
  revert start st. induction fuel as [|fuel IH]; intros start st Hf; simpl.
  - by rewrite drop_ge by lia.
  - case_decide as Hs; [|by rewrite drop_ge by lia].
    rewrite IH by (unfold evictBatchSize; lia). unfold evict_batch.
    rewrite <-foldl_app. f_equal.
    rewrite <-(take_drop (Nat.min (start + evictBatchSize) (length expired) - start)
      (drop start expired)) at 2. f_equal. rewrite drop_drop.
    destruct (decide (start + evictBatchSize ≤ length expired))%nat.
    + f_equal. lia.
    + by rewrite !drop_ge by lia.
Qed.

(** All that the janitor changes is the map. *)
Lemma evict_batch_clients now keys st :
  ∃ cs n, evict_batch now keys st = (st.1 <| l_clients := cs |>, n).
Proof.
  revert st. induction keys as [|key keys IH]; intros [l n].
  - exists (l_clients l), n. by destruct l.
  - change (evict_batch now (key :: keys) (l, n)) with (evict_batch now keys (evict_key now (l, n) key)).
    destruct (IH (evict_key now (l, n) key)) as (cs & n' & ->). exists cs, n'.
    unfold evict_key. destruct (find_client _ _); [|done]. by destruct (idle _ _ _).
Qed.

Lemma evict_loop_clients fuel now expired start st :
  ∃ cs n, evict_loop fuel now expired start st = (st.1 <| l_clients := cs |>, n).
Proof.
  revert start st. induction fuel as [|fuel IH]; intros start [l n]; cbn [evict_loop];
    [by exists (l_clients l), n; destruct l |].
  case_decide; [|by exists (l_clients l), n; destruct l].
  destruct (evict_batch_clients now (take (Nat.min (start + evictBatchSize) (length expired) - start)
    (drop start expired)) (l, n)) as (cs & n1 & ->).
  cbn [fst]. destruct (IH (start + evictBatchSize)%nat (l <| l_clients := cs |>, n1)) as (cs' & n2 & ->). by exists cs', n2.
Qed.

Lemma key_eqb_refl k : key_eqb k k = true ↔ k_rate k ≠ f64_nan.
Proof. rewrite key_eqb_iff, feqb_iff. tauto. Qed.

Lemma key_eqb_nan k k' : key_eqb k k' = true → k_rate k ≠ f64_nan.
Proof. rewrite key_eqb_iff, feqb_iff. tauto. Qed.

(** What a pass removes: idle clients whose key is not a NaN. *)
Definition evictable (l : Limiter) (now : Time) (c : ClientKey * nat) : bool :=
  bool_decide (k_rate c.1 ≠ f64_nan) && idle l now c.2.

Lemma survives_expired l now c :
  c ∈ l_clients l → survives (expired_keys now l) l now c = negb (evictable l now c).
Proof.
  intros Hc. unfold survives, evictable. f_equal. destruct (idle l now c.2) eqn:Hi;
    rewrite ?andb_false_r, ?andb_true_r; [|done].
  apply eq_true_iff_eq. rewrite bool_decide_eq_true, existsb_exists. split.
  - intros (k & _ & He). by apply key_eqb_nan in He.
  - intros Hn. exists c.1. split; [|by apply key_eqb_refl].
    apply list_elem_of_In. unfold expired_keys. apply list_elem_of_fmap. exists c.
    split; [done |]. by apply list_elem_of_filter.
Qed.

(** A pass of the janitor removes exactly the clients idle for longer than the
    TTL, however they fall into batches, keeps everyone else with their bucket
    and last-seen time, counts what it removed and reports how many remain. A
    client whose rate is a NaN is never removed. *)
Theorem evictOnce_spec (l : Limiter) (now : Time) :
  distinct (l_clients l) →
  let l' := l <| l_clients := filter (λ c, evictable l now c = false) (l_clients l) |> in
  let evicted := (length (l_clients l) - length (l_clients l'))%nat in
  evictOnce now l =
    (l', emit (l_metrics l)
           (if decide (evicted = 0%nat) then []
            else [mkEvent RateLimitClientsEvicted [] (Add (f64 (Z.of_nat evicted)))]) ++
         updateTrackedGauge l').
Proof.
  intros Hd l' evicted. unfold evictOnce.
  assert (filter (λ c, survives (expired_keys now l) l now c = true) (l_clients l) =
    l_clients l') as Heq.
  { apply filter_ext_in. intros c Hc. rewrite (survives_expired l now c Hc).
    by destruct (evictable l now c). }
  case_decide as H0.
  - apply nil_length_inv in H0. rewrite H0 in Heq. rewrite filter_all in Heq
      by (by apply Forall_forall).
    assert (l' = l) as -> by (destruct l; unfold l' in *; simpl in *; by rewrite <-Heq).
    unfold evicted. rewrite decide_True by lia. by destruct (l_metrics l).
  - rewrite evict_loop_batches by lia. rewrite drop_0.
    destruct (evict_batch_spec now (expired_keys now l) l 0 Hd) as (n & -> & Hn).
    rewrite Heq in Hn |- *. change (l <| l_clients := l_clients l' |>) with l'.
    assert (n = evicted) as -> by (unfold evicted; lia).
    destruct (decide (evicted = 0%nat)) as [->|]; [by destruct (l_metrics l) |].
    by rewrite decide_True by lia.
Qed.
End janitor.

(** ** One bucket per client *)

Section requests.
Context `{TokenBucket}.

(** However requests interleave between reloads and evictions, and although a
    request looks its client up, inserts it and asks the bucket in separate
    critical sections, each client and limit is served by a single bucket: the
    answers given for a key are those of one bucket of its rate and burst, new
    when the map was empty, asked at those times in that order. *)
Theorem one_bucket_per_key (l0 : Limiter) (w : World) (k : ClientKey) :
  l_clients l0 = [] → rtc request_step (mkWorld l0 ∅ []) w → k_rate k ≠ f64_nan →
  let answers := filter (λ a, key_eqb (an_key a) k = true) (w_log w) in
  ∃ k0, key_eqb k0 k = true ∧
    an_ok <$> answers = (bucket_run (NewLimiter (k_rate k0) (k_burst k0)) (an_time <$> answers)).1.
Proof.
  intros Hl0 Hsteps Hk answers. apply key_eqb_refl in Hk.
  assert (world_ok w) as [Hs _].
  { assert (world_ok (mkWorld l0 ∅ [])) as Hinit.
    { split; [|apply map_Forall_empty]. split; simpl; rewrite ?Hl0; [|set_solver..].
      split; [set_solver | constructor]. }
    revert Hinit. induction Hsteps; eauto using request_step_ok. }
  destruct (find_client k (l_clients (w_limiter w))) as [p|] eqn:Hf.
  - apply find_client_Some in Hf as (k0 & Hin & He).
    destruct (so_bucket _ _ Hs _ _ Hin) as (c & _ & Hr).
    assert (answers = answers_at p (w_log w)) as ->; [|exists k0; by rewrite Hr].
    apply filter_ext_in. intros a Ha. destruct (so_log _ _ Hs a Ha) as (k1 & Hin1 & Hk1).
    pose proof (so_distinct _ _ Hs) as Hd. split.
    + intros Hak. destruct Hd as [Hd _]. apply (Hd k1 _ k0 _ Hin1 Hin).
      rewrite key_eqb_sym in He. destruct Hk1 as [->|Hk1]; [by eapply key_eqb_trans |].
      eapply key_eqb_trans; [exact Hk1 |]. by eapply key_eqb_trans.
    + intros <-. rewrite (distinct_inj _ _ _ _ Hd Hin1 Hin) in Hk1.
      destruct Hk1 as [<-|Hk1]; [done |]. rewrite key_eqb_sym in Hk1. by eapply key_eqb_trans.
  - exists k. split; [done |].
    assert (answers = []) as ->; [|done].
    destruct answers as [|a ans] eqn:Ha; [done | exfalso].
    assert (a ∈ answers) as [Hak Hin]%list_elem_of_filter by (rewrite Ha; by left).
    destruct (so_log _ _ Hs a Hin) as (k1 & Hin1 & Hk1).
    apply find_client_None in Hf. rewrite Forall_forall in Hf. specialize (Hf _ Hin1). simpl in Hf.
    destruct Hk1 as [->|Hk1]; [congruence |].
    by rewrite (key_eqb_trans _ _ _ Hk1 Hak) in Hf.
Qed.

(** The sequential request is a thread run without interruption. *)
Definition run_thread (ts : list Time) (key : ClientKey) (l : Limiter) : Pc * Limiter :=
  foldl (λ st t, thread_step t key st.1 st.2) (PLookup, l) ts.

Lemma sequential_request l ip r burst rd :
  let '(p, l1) := getLimiter ip r burst rd l in
  let '(ok, l2) := allow_at p (rd_allow rd) l1 in
  ∃ ts, run_thread ts (mkKey ip r burst) l = (PDone ok, l2).
Proof.
  unfold getLimiter. destruct (lookup_fast _ (rd_since rd) l) as [[p []]|] eqn:Hf.
  - destruct (allow_at p (rd_allow rd) (touch p (rd_seen rd) l)) as [ok l2] eqn:Ha.
    exists [rd_since rd; rd_seen rd; rd_allow rd]. unfold run_thread. simpl. rewrite Hf. simpl.
    by rewrite Ha.
  - destruct (allow_at p (rd_allow rd) l) as [ok l2] eqn:Ha.
    exists [rd_since rd; rd_allow rd]. unfold run_thread. simpl. rewrite Hf. simpl. by rewrite Ha.
  - destruct (lookup_slow _ (rd_seen rd) l) as [p l1] eqn:Hs.
    destruct (allow_at p (rd_allow rd) l1) as [ok l2] eqn:Ha.
    exists [rd_since rd; rd_seen rd; rd_allow rd]. unfold run_thread. simpl. rewrite Hf. simpl.
    rewrite Hs. simpl. by rewrite Ha.
Qed.

(** A limit whose rate is a NaN (a [.nan] override passes validation) is no
    limit: every request of such a key gets a new bucket, and the map grows by
    one client each time, which the janitor never removes. *)
Theorem nan_rate_is_no_limit (l : Limiter) (ip : string) (burst : Z) (rd : Readings) (now : Time) :
  let '(p, l') := getLimiter ip f64_nan burst rd l in
  l_heap l' !! p = Some (mkEntry (NewLimiter f64_nan burst) (rd_seen rd)) ∧
  l_clients l' = l_clients l ++ [(mkKey ip f64_nan burst, p)] ∧
  evictable l' now (mkKey ip f64_nan burst, p) = false.
Proof.
  assert (find_client (mkKey ip f64_nan burst) (l_clients l) = None) as Hf.
  { apply find_client_None, Forall_forall. intros c _. rewrite key_eqb_sym.
    destruct (key_eqb _ c.1) eqn:He; [|done]. by apply key_eqb_nan in He. }
  unfold getLimiter, lookup_fast, lookup_slow. rewrite Hf. simpl. split_and!; [|done..].
  by rewrite lookup_app_r, Nat.sub_diag by done.
Qed.

(** ** The limit of a path *)

Lemma scan_prefix path rs o n p :
  let '(o', n', p') := foldl (scan_route path) (o, n, p) rs in
  (n ≤ n')%nat ∧
  (∀ r, r ∈ rs → MatchesPrefix path (r_PathPrefix r) = true → len (r_PathPrefix r) ≤ n')%nat ∧
  ((o', n', p') = (o, n, p) ∨
   ∃ r, r ∈ rs ∧ MatchesPrefix path (r_PathPrefix r) = true ∧ n' = len (r_PathPrefix r) ∧
     p' = r_PathPrefix r ∧ (n < n')%nat ∧ (r_RateOverride r ≠ None → o' = r_RateOverride r)).
Proof.
  revert o n p. induction rs as [|r rs IH]; intros o n p; simpl.
  { split; [done |]. split; [set_solver | by left]. }
  destruct (MatchesPrefix path (r_PathPrefix r)) eqn:Hm; cbn [andb]; [case_bool_decide as Hlt |].
  - specialize (IH (match r_RateOverride r with Some o => Some o | None => o end)
      (len (r_PathPrefix r)) (r_PathPrefix r)).
    destruct (foldl _ _ rs) as [[o' n'] p']. destruct IH as (Hn & Hmax & Hres).
    split; [lia |]. split.
    { intros r' [->|Hin]%elem_of_cons Hm'; [done | by apply Hmax]. }
    right. destruct Hres as [[= -> -> ->]|(r' & ? & ? & ? & ? & ? & ?)].
    + exists r. split_and!; [by left | done..|]. by destruct (r_RateOverride r).
    + exists r'. split_and!; [by right | done.. | lia | done].
  - specialize (IH o n p). destruct (foldl _ _ rs) as [[o' n'] p']. destruct IH as (Hn & Hmax & Hres).
    split; [done |]. split.
    { intros r' [->|Hin]%elem_of_cons Hm'; [lia | by apply Hmax]. }
    destruct Hres as [?|(r' & ? & ?)]; [by left | right; exists r'; split; [by right | done]].
  - specialize (IH o n p). destruct (foldl _ _ rs) as [[o' n'] p']. destruct IH as (Hn & Hmax & Hres).
    split; [done |]. split.
    { intros r' [->|Hin]%elem_of_cons Hm'; [congruence | by apply Hmax]. }
    destruct Hres as [?|(r' & ? & ?)]; [by left | right; exists r'; split; [by right | done]].
Qed.

Lemma scan_no_override path rs n p :
  (∀ r, r ∈ rs → MatchesPrefix path (r_PathPrefix r) = true → r_RateOverride r = None) →
  (foldl (scan_route path) (None, n, p) rs).1.1 = None.
Proof.
  revert n p. induction rs as [|r rs IH]; intros n p Hno; simpl; [done |].
  destruct (MatchesPrefix path (r_PathPrefix r)) eqn:Hm; cbn [andb]; [case_bool_decide |];
    rewrite ?(Hno r (list_elem_of_here _ _) Hm); apply IH; intros r' Hin; apply Hno; by right.
Qed.

(** The limit of a path is that of its longest matching route: the reported
    prefix is the longest that matches, [unknown] if none does; the route's own
    override applies if it has one, and the global limit if no matching route has
    an override. *)
Theorem limitsForPath_spec (l : Limiter) (path : string) :
  let matching r := r ∈ l_routes l ∧ MatchesPrefix path (r_PathPrefix r) = true in
  let '(rate, burst, prefix) := limitsForPath l path in
  ((∀ r, ¬ matching r) → rate = l_rate l ∧ burst = l_burst l ∧ prefix = "unknown") ∧
  ((∃ r, matching r) → ∃ r, matching r ∧ prefix = r_PathPrefix r ∧
     (∀ r', matching r' → len (r_PathPrefix r') ≤ len (r_PathPrefix r))%nat ∧
     ∀ o, r_RateOverride r = Some o → rate = rl_RequestsPerSecond o ∧ burst = rl_BurstSize o) ∧
  ((∀ r, matching r → r_RateOverride r = None) → rate = l_rate l ∧ burst = l_burst l).
Proof.
  intros matching. unfold limitsForPath.
  pose proof (scan_prefix path (l_routes l) None 0 "unknown") as Hscan.
  pose proof (scan_no_override path (l_routes l) 0 "unknown") as Hno.
  destruct (foldl _ _ _) as [[o n] p]. simpl in Hno. destruct Hscan as (_ & Hmax & Hres).
  assert ((∀ r, matching r → r_RateOverride r = None) → o = None) as Hno'.
  { intros Hm. apply Hno. intros r Hin Hr. by apply Hm. }
  clear Hno.
  assert ((∀ r, ¬ matching r) → o = None ∧ p = "unknown") as Hnone.
  { intros Hm. destruct Hres as [[= -> _ ->]|(r & Hin & Hr & _)]; [done |]. by destruct (Hm r). }
  assert ((∃ r, matching r) → ∃ r, matching r ∧ p = r_PathPrefix r ∧
    (∀ r', matching r' → len (r_PathPrefix r') ≤ len (r_PathPrefix r))%nat ∧
    (r_RateOverride r ≠ None → o = r_RateOverride r)) as Hbest.
  { intros [r0 [Hin0 Hm0]]. destruct Hres as [[= -> -> ->]|(r & Hin & Hm & -> & -> & _ & Ho)].
    - pose proof (Hmax r0 Hin0 Hm0). pose proof (MatchesPrefix_nonempty path _ Hm0). lia.
    - exists r. split_and!; [done.. | intros r' []; by apply Hmax | done]. }
  destruct o as [o|]; (split; [intros Hm; by destruct (Hnone Hm) as [? ->] |]); split.
  - intros Hm. destruct (Hbest Hm) as (r & ? & ? & ? & Ho). exists r. split_and!; [done.. |].
    intros o' Ho'. rewrite Ho' in Ho. by specialize (Ho ltac:(done)) as [= ->].
  - intros Hm. by specialize (Hno' Hm).
  - intros Hm. destruct (Hbest Hm) as (r & ? & ? & ? & Ho). exists r. split_and!; [done.. |].
    intros o' Ho'. rewrite Ho' in Ho. by specialize (Ho ltac:(done)).
  - done.
Qed.
End requests.

(** ** Who is limited *)

Section identity.
Context `{TokenBucket}.

(** A part of the header that the walk passes over. *)
Definition passed_over (l : Limiter) (part : string) : Prop :=
  TrimSpace part = "" ∨ isTrusted l (TrimSpace part) = true.

#[export] Instance passed_over_dec l part : Decision (passed_over l part).
Proof. unfold passed_over. apply _. Defined.

Lemma Split_cons c s sep :
  Split (String c s) sep =
    if Ascii.eqb c sep then "" :: Split s sep
    else match Split s sep with [] => [String c ""] | p :: ps => String c p :: ps end.
Proof. done. Qed.

Lemma Split_nonempty s sep : Split s sep ≠ [].
Proof.
  induction s as [|c s IH]; [done |]. rewrite Split_cons. destruct (Ascii.eqb c sep); [done |].
  by destruct (Split s sep).
Qed.

Lemma Split_app a b sep : Split (a +:+ String sep b) sep = Split a sep ++ Split b sep.
Proof.
  induction a as [|c a IH].
  - change ("" +:+ String sep b) with (String sep b). rewrite Split_cons, Ascii.eqb_refl. done.
  - change (String c a +:+ String sep b) with (String c (a +:+ String sep b)).
    rewrite !Split_cons, IH. destruct (Ascii.eqb c sep); [done |].
    pose proof (Split_nonempty a sep). by destruct (Split a sep).
Qed.

Lemma first_untrusted_passed l parts :
  first_untrusted l parts = None ↔ Forall (passed_over l) parts.
Proof.
  induction parts as [|part parts IH]; simpl; [by split |].
  rewrite Forall_cons_iff, <-IH. unfold passed_over.
  destruct (decide (TrimSpace part = "")) as [He|He].
  - rewrite bool_decide_eq_false_2 by tauto. simpl. tauto.
  - rewrite bool_decide_eq_true_2 by done. destruct (isTrusted l (TrimSpace part)); simpl.
    + tauto.
    + split; [done | intros [[?|?] _]; congruence].
Qed.

Lemma first_untrusted_Some l parts ip :
  first_untrusted l parts = Some ip →
  ∃ after part before, parts = after ++ part :: before ∧ ip = TrimSpace part ∧ ip ≠ "" ∧
    isTrusted l ip = false ∧ Forall (passed_over l) after.
Proof.
  induction parts as [|part parts IH]; simpl; [done |].
  destruct (decide (passed_over l part)) as [Hp|Hp].
  - assert (bool_decide (TrimSpace part ≠ "") && negb (isTrusted l (TrimSpace part)) = false) as ->.
    { destruct Hp as [Hp|Hp]; rewrite Hp; [done | apply andb_false_r]. }
    intros Hf. destruct (IH Hf) as (after & p & before & -> & ? & ? & ? & ?).
    exists (part :: after), p, before. split_and!; try done. by constructor.
  - unfold passed_over in Hp. assert (TrimSpace part ≠ "") as Hne by tauto.
    rewrite bool_decide_eq_true_2 by done.
    destruct (isTrusted l (TrimSpace part)) eqn:Ht; [tauto |]. intros [= <-].
    by exists [], part, parts.
Qed.

Lemma first_untrusted_app l parts parts' ip :
  first_untrusted l parts = Some ip → first_untrusted l (parts ++ parts') = Some ip.
Proof. induction parts as [|part parts IH]; simpl; [done |]. destruct (_ && _); auto. Qed.

Lemma clientIP_trusted l r :
  isTrusted l (extractIP (rq_RemoteAddr r)) = true →
  clientIP l r = default (extractIP (rq_RemoteAddr r))
    (first_untrusted l (reverse (Split (header_Get "X-Forwarded-For" (rq_Header r)) ","))).
Proof.
  intros Ht. unfold clientIP. rewrite Ht.
  assert (is_nil_list (l_trustedCIDRs l) = false) as ->.
  { unfold isTrusted in Ht. destruct (ParseIP _); [|done]. by destruct (l_trustedCIDRs l). }
  cbn [negb andb]. case_decide as Hx; [done |].
  assert (header_Get "X-Forwarded-For" (rq_Header r) = "") as -> by by destruct (header_Get _ _). done.
Qed.

(** The request with other X-Forwarded-For lines. *)
Definition with_forwarded (lines : list string) (r : Request) : Request :=
  r <| rq_Header := <["X-Forwarded-For" := lines]> (rq_Header r) |>.

Lemma header_Get_forwarded line rest r :
  header_Get "X-Forwarded-For" (rq_Header (with_forwarded (line :: rest) r)) = line.
Proof. unfold header_Get. simpl. by rewrite lookup_insert_eq. Qed.

(** C17. The client of a request is its peer unless the peer is a trusted proxy,
    whatever X-Forwarded-For lines it sends. Behind a trusted proxy it is the last entry
    of the first X-Forwarded-For line that is not itself trusted, or the peer if there
    is none: what is to the left of that entry, and every further line, is ignored. So
    a client cannot choose its identity if the proxy appends to the line it received;
    if the proxy adds a line of its own below, the client's own line decides. *)
Theorem clientIP_spec (l : Limiter) (r : Request) :
  let peer := extractIP (rq_RemoteAddr r) in
  let first := header_Get "X-Forwarded-For" (rq_Header r) in
  (isTrusted l peer = false →
     clientIP l r = peer ∧ ∀ lines, clientIP l (with_forwarded lines r) = peer) ∧
  (isTrusted l peer = true → Forall (passed_over l) (Split first ",") → clientIP l r = peer) ∧
  (isTrusted l peer = true → ¬ Forall (passed_over l) (Split first ",") →
     (∃ before part after, Split first "," = before ++ part :: after ∧
        clientIP l r = TrimSpace part ∧ TrimSpace part ≠ "" ∧
        isTrusted l (TrimSpace part) = false ∧ Forall (passed_over l) after) ∧
     ∀ forged rest,
       clientIP l (with_forwarded ((forged +:+ "," +:+ first) :: rest) r) = clientIP l r) ∧
  (isTrusted l peer = true → ∀ ip own, Split ip "," = [ip] → TrimSpace ip = ip → ip ≠ "" →
     isTrusted l ip = false → clientIP l (with_forwarded (ip :: own) r) = ip).
Proof.
  intros peer first. split_and!.
  - intros Ht. unfold clientIP. simpl. fold peer. rewrite Ht, andb_false_r. by split.
  - intros Ht Hall. rewrite clientIP_trusted by done. fold first peer.
    assert (first_untrusted l (reverse (Split first ",")) = None) as ->; [|done].
    by apply first_untrusted_passed, Forall_reverse.
  - intros Ht Hnot. rewrite (clientIP_trusted l r Ht). fold first peer.
    destruct (first_untrusted l (reverse (Split first ","))) as [ip|] eqn:Hf.
    2: { destruct Hnot. by apply Forall_reverse, first_untrusted_passed. }
    split.
    + apply first_untrusted_Some in Hf as (after & part & before & Hs & -> & ? & ? & ?).
      exists (reverse before), part, (reverse after). split_and!; try done.
      * rewrite <-(reverse_involutive (Split first ",")), Hs, reverse_app, reverse_cons.
        by rewrite <-app_assoc.
      * by apply Forall_reverse.
    + intros forged rest. rewrite clientIP_trusted, header_Get_forwarded by done.
      change (forged +:+ "," +:+ first) with (forged +:+ String "," first).
      by rewrite Split_app, reverse_app, (first_untrusted_app l _ _ ip Hf).
  - intros Ht ip own Hs Htrim Hne Hip. rewrite clientIP_trusted, header_Get_forwarded, Hs by done.
    cbn. by rewrite Htrim, Hip, bool_decide_eq_true_2.
Qed.
End identity.

(** Two routes matching a path, the longer without an override of its own: the
    shorter one's override applies if it comes first in the configuration, and
    not if it comes second. *)
Lemma override_depends_on_route_order `{TokenBucket} (l : Limiter) (path : string)
    (short long : RouteConfig) (o : RateLimitConfig) :
  MatchesPrefix path (r_PathPrefix short) = true → MatchesPrefix path (r_PathPrefix long) = true →
  (len (r_PathPrefix short) < len (r_PathPrefix long))%nat →
  r_RateOverride short = Some o → r_RateOverride long = None →
  (limitsForPath (l <| l_routes := [short; long] |>) path).1 =
    (rl_RequestsPerSecond o, rl_BurstSize o) ∧
  (limitsForPath (l <| l_routes := [long; short] |>) path).1 = (l_rate l, l_burst l).
Proof.
  intros Hs Hl Hlen Ho Hn. pose proof (MatchesPrefix_nonempty _ _ Hs).
  unfold limitsForPath, scan_route. simpl. rewrite Hs, Hl, Ho, Hn. simpl.
  rewrite !bool_decide_eq_true_2 by lia. split; [done |].
  by rewrite bool_decide_eq_false_2 by lia.
Qed.

(** Retry-After is rounded to whole seconds: no wait at all from two requests per
    second on, and no number for a zero or NaN rate. *)
Example retry_after_examples :
  let after rate := FormatFloat_f0 (fdiv (f64 1) rate) in
  after (f64 100) = "0" ∧ after (f64 2) = "0" ∧ after (f64 1) = "1" ∧
  after (f64_lit 1 10) = "10" ∧ after (f64 0) = "+Inf" ∧ after f64_nan = "NaN".
Proof. by vm_compute. Qed.

(** ** Running schedules *)

Section exec.
Context `{TokenBucket}.

(** A schedule: request [i] arrives with a key, or takes its next step at a time. *)
Definition world_exec (w : World) (cmd : nat * (ClientKey + Time)) : World :=
  match cmd.2, w_threads w !! cmd.1 with
  | inl key, None =>
      mkWorld (w_limiter w) (<[cmd.1 := (key, PLookup)]> (w_threads w)) (w_log w)
  | inr now, Some (key, pc) =>
      let '(pc', l') := thread_step now key pc (w_limiter w) in
      mkWorld l' (<[cmd.1 := (key, pc')]> (w_threads w)) (w_log w ++ answer_of now key pc pc')
  | _, _ => w
  end.

Lemma world_exec_steps cmds w : rtc request_step w (foldl world_exec w cmds).
Proof.
  revert w. induction cmds as [|[i c] cmds IH]; intros w; [done |]. simpl.
  etrans; [|apply IH]. unfold world_exec. simpl.
  destruct c as [key|now], (w_threads w !! i) as [[key' pc]|] eqn:Hi; try done.
  - apply rtc_once. by apply RequestStart.
  - destruct (thread_step now key' pc (w_limiter w)) as [pc' l'] eqn:Hs.
    apply rtc_once. by eapply RequestRun.
Qed.
End exec.

(** ** Witnesses *)

(** A bucket that is never refilled: the tokens left. *)
#[local] Instance unrefilled : TokenBucket := {|
  Bucket := Z;
  NewLimiter _ burst := burst;
  bucket_Allow b _ := if decide (0 < b) then (true, b - 1) else (false, b)
|}.

Definition demo_limiter : Limiter :=
  NewRateLimiter (mkRateLimit (f64 5) 1 0 0) [] ["10.0.0.0/8"; "not a network"] true.

Definition demo_key : ClientKey := mkKey "1.2.3.4" (f64 5) 1.

(** Two requests of one new client, both missing the map before either inserts. *)
Definition demo_schedule : list (nat * (ClientKey + Time)) :=
  [(1%nat, inl demo_key); (2%nat, inl demo_key); (1%nat, inr 1); (2%nat, inr 1);
   (1%nat, inr 2); (2%nat, inr 3); (2%nat, inr 4); (1%nat, inr 5)].

Lemma one_bucket_per_key_witness :
  let w := foldl world_exec (mkWorld demo_limiter ∅ []) demo_schedule in
  an_ok <$> w_log w = [true; false] ∧
  ∃ k0, key_eqb k0 demo_key = true ∧
    an_ok <$> filter (λ a, key_eqb (an_key a) demo_key = true) (w_log w) =
      (bucket_run (NewLimiter (k_rate k0) (k_burst k0))
         (an_time <$> filter (λ a, key_eqb (an_key a) demo_key = true) (w_log w))).1.
Proof.
  intros w. split; [by vm_compute |].
  apply (one_bucket_per_key demo_limiter w demo_key eq_refl); [apply world_exec_steps | done].
Defined.

Definition stale_limiter : Limiter :=
  demo_limiter <| l_heap := [mkEntry 1 0; mkEntry 0 (20 * Minute)] |>
    <| l_clients := [(demo_key, 0%nat); (mkKey "5.6.7.8" (f64 5) 1, 1%nat)] |>.

Lemma evictOnce_spec_witness :
  (evictOnce (15 * Minute) stale_limiter).1 =
    stale_limiter <| l_clients := [(mkKey "5.6.7.8" (f64 5) 1, 1%nat)] |>.
Proof.
  rewrite (evictOnce_spec stale_limiter (15 * Minute)); [by vm_compute |]. split.
  - intros k p k1 p1. unfold stale_limiter. simpl.
    rewrite !elem_of_cons, !elem_of_nil. intros [Hp|[Hp|[]]] [Hq|[Hq|[]]] He; simplify_eq; try done;
      by vm_compute in He.
  - by apply (bool_decide_unpack _).
Defined.

(** Through a trusted proxy; the entry furthest to the right is the proxy's own. *)
Definition forwarded_request : Request :=
  new_request "GET" "/" (header_Set "X-Forwarded-For" "6.6.6.6, 1.2.3.4, 10.9.9.9" ∅) "10.0.0.1:999".

Lemma clientIP_spec_witness :
  clientIP demo_limiter forwarded_request = "1.2.3.4" ∧
  (∀ forged rest, clientIP demo_limiter
     (with_forwarded ((forged +:+ "," +:+ "6.6.6.6, 1.2.3.4, 10.9.9.9") :: rest) forwarded_request) =
     "1.2.3.4") ∧
  clientIP demo_limiter (with_forwarded ["6.6.6.6"; "1.2.3.4"] forwarded_request) = "6.6.6.6".
Proof.
  split; [by vm_compute |].
  destruct (clientIP_spec demo_limiter forwarded_request) as (_ & _ & Hf & Hown). split.
  - intros forged rest.
    destruct Hf as [_ Hf]; [by vm_compute | by apply (bool_decide_unpack _); vm_compute |].
    exact (Hf forged rest).
  - by apply Hown; vm_compute.
Defined.

(** A second X-Forwarded-For line, as a proxy that adds lines sends it, is not
    looked at. *)
Example second_forwarded_line_ignored :
  clientIP demo_limiter (with_forwarded ["6.6.6.6"; "1.2.3.4"] forwarded_request) = "6.6.6.6".
Proof. by vm_compute. Qed.
