(* ===== verification/Deadline.v ===== *)
(** * The deadline middleware (internal/middleware/deadline.go)

    [Deadline] runs the next handler in a goroutine of its own and races it
    against the context's deadline.  Both goroutines write to the same client
    connection; [deadlineWriter] marks the response as claimed before the
    handler's first write, and the deadline answers only if it can claim it.
    Claiming and writing are separate steps, so a state keeps the handler's
    pending write, and the steps of the two goroutines interleave freely. The
    handler is the list of its calls on its writer; the expiry of the context
    may be noticed at any moment. *)

From stdpp Require Import relations.
From S2P Require Import Prelude GoStrings Http ApiError.

(** The goroutine of the middleware: before its select, before the claim,
    writing the 504, waiting for the handler, returned. *)
Inductive MainPc := MSelect | MClaim | MAnswer (ops : list WriterOp) | MWait | MReturned.

Record DeadlineState := mkDeadline {
  dl_client : Client;
  dl_claimed : bool;
  dl_pending : option WriterOp;          (** claimed, not yet forwarded *)
  dl_handler : list WriterOp;            (** the handler's calls still to come *)
  dl_done : bool;                        (** the channel is closed *)
  dl_main : MainPc
}.

#[export] Instance DeadlineState_eta : Eta DeadlineState := λ s,
  mkDeadline (dl_client s) (dl_claimed s) (dl_pending s) (dl_handler s) (dl_done s) (dl_main s).

Definition is_write (op : WriterOp) : bool :=
  match op with OpHeader _ => false | _ => true end.

(** A call on the client connection; the connection does not read the clock. *)
Definition apply_op (op : WriterOp) (c : Client) : Client := writer_op op time_zero c.

Definition apply_ops (ops : list WriterOp) (c : Client) : Client := foldl (λ c op, apply_op op c) c ops.

(** What the deadline answers. *)
Definition deadline_ops (r : Request) : list WriterOp :=
  json_ops (Some r) StatusGatewayTimeout DeadlineExceeded "global request deadline exceeded".

(** [dw.tryClaimWrite()] *)
Definition tryClaimWrite (s : DeadlineState) : bool * DeadlineState :=
  (negb (dl_claimed s), s <| dl_claimed := true |>).

Inductive deadline_step (r : Request) : DeadlineState → DeadlineState → Prop :=
(* the handler's goroutine *)
| HandlerHeader s u ops :
    dl_pending s = None → dl_handler s = OpHeader u :: ops →
    deadline_step r s (s <| dl_client := apply_op (OpHeader u) (dl_client s) |>
                         <| dl_handler := ops |>)
| HandlerClaim s op ops :
    dl_pending s = None → dl_handler s = op :: ops → is_write op = true →
    deadline_step r s (s <| dl_claimed := true |> <| dl_pending := Some op |>
                         <| dl_handler := ops |>)
| HandlerWrite s op :
    dl_pending s = Some op →
    deadline_step r s (s <| dl_client := apply_op op (dl_client s) |> <| dl_pending := None |>)
| HandlerDone s :
    dl_pending s = None → dl_handler s = [] → dl_done s = false →
    deadline_step r s (s <| dl_done := true |>)
(* the middleware *)
| SelectDone s :
    dl_main s = MSelect → dl_done s = true →
    deadline_step r s (s <| dl_main := MReturned |>)
| SelectExpired s :
    dl_main s = MSelect →
    deadline_step r s (s <| dl_main := MClaim |>)
| DeadlineClaim s ok s' :
    dl_main s = MClaim → tryClaimWrite s = (ok, s') →
    deadline_step r s (s' <| dl_main := if ok then MAnswer (deadline_ops r) else MWait |>)
| DeadlineAnswer s op ops :
    dl_main s = MAnswer (op :: ops) →
    deadline_step r s (s <| dl_client := apply_op op (dl_client s) |> <| dl_main := MAnswer ops |>)
| DeadlineAnswered s :
    dl_main s = MAnswer [] →
    deadline_step r s (s <| dl_main := MWait |>)
| WaitDone s :
    dl_main s = MWait → dl_done s = true →
    deadline_step r s (s <| dl_main := MReturned |>).

(** [Deadline(timeout)] applied to a handler: disabled, or the state it starts in. *)
Definition Deadline (timeout : Duration) (handler : list WriterOp) (c : Client)
    : Client + DeadlineState :=
  if decide (timeout ≤ 0) then inl (apply_ops handler c)
  else inr (mkDeadline c false None handler false MSelect).

(** ** Interleavings *)

Inductive interleaves {A} : list A → list A → list A → Prop :=
| interleaves_nil : interleaves [] [] []
| interleaves_l x l k m : interleaves l k m → interleaves (x :: l) k (x :: m)
| interleaves_r x l k m : interleaves l k m → interleaves l (x :: k) (x :: m).

Lemma interleaves_left {A} (l : list A) : interleaves l [] l.
Proof. induction l; by constructor. Qed.

Lemma interleaves_nil_l {A} (k m : list A) : interleaves [] k m → m = k.
Proof.
  revert k. induction m as [|x m IH]; intros k Hi; inversion Hi; subst; [done |].
  f_equal. by apply IH.
Qed.

Lemma interleaves_snoc_l {A} (l k m : list A) x :
  interleaves l k m → interleaves (l ++ [x]) k (m ++ [x]).
Proof. induction 1; simpl; repeat (constructor || done). Qed.

Lemma interleaves_snoc_r {A} (l k m : list A) x :
  interleaves l k m → interleaves l (k ++ [x]) (m ++ [x]).
Proof. induction 1; simpl; repeat (constructor || done). Qed.

Lemma apply_ops_snoc ops op c : apply_ops (ops ++ [op]) c = apply_op op (apply_ops ops c).
Proof. unfold apply_ops. by rewrite foldl_app. Qed.

(** ** The invariant *)

Section deadline.
Context (r : Request) (c0 : Client) (handler : list WriterOp).

(** The handler's calls so far (its pending one excepted) and still to come. *)
Definition todo (s : DeadlineState) : list WriterOp :=
  match dl_pending s with Some op => op :: dl_handler s | None => dl_handler s end.

(** Nothing of the 504 has been written: the client has the handler's calls. *)
Record untouched (s : DeadlineState) (past : list WriterOp) : Prop := {
  un_past : handler = past ++ todo s;
  un_client : dl_client s = apply_ops past c0;
  un_claimed : dl_claimed s = false → forallb (λ op, negb (is_write op)) past = true ∧
    dl_pending s = None
}.

(** The 504 was claimed after [before], before the handler wrote anything: the
    client has an interleaving of the rest with the answer so far. *)
Record mixed (before : list WriterOp) (s : DeadlineState) (answered : list WriterOp) : Prop := {
  mx_run : ∃ past merged, handler = before ++ past ++ todo s ∧
    forallb (λ op, negb (is_write op)) before = true ∧
    interleaves past answered merged ∧
    dl_client s = apply_ops (before ++ merged) c0;
  mx_claimed : dl_claimed s = true
}.

(** What holds at each point of the middleware, of the two descriptions above. *)
Definition phase_ok (main : MainPc) (U : Prop) (M : list WriterOp → Prop) (finished : Prop) : Prop :=
  match main with
  | MSelect | MClaim => U
  | MAnswer ops => ∃ answered, deadline_ops r = answered ++ ops ∧ M answered
  | MWait => U ∨ M (deadline_ops r)
  | MReturned => finished ∧ (U ∨ M (deadline_ops r))
  end.

(** What is known of who has claimed the response first: nothing; that it was the
    handler; that it was the deadline, when the handler had made the calls [before]. *)
Inductive FirstClaim := ByAny | ByHandler | ByDeadline (before : list WriterOp).

Definition clean (f : FirstClaim) (s : DeadlineState) : Prop :=
  match f with
  | ByAny => ∃ past, untouched s past
  | ByHandler => dl_claimed s = true ∧ ∃ past, untouched s past
  | ByDeadline _ => False
  end.

Definition answering (f : FirstClaim) (s : DeadlineState) (answered : list WriterOp) : Prop :=
  match f with
  | ByAny => ∃ before, mixed before s answered
  | ByHandler => False
  | ByDeadline before => mixed before s answered
  end.

Definition deadline_inv (f : FirstClaim) (s : DeadlineState) : Prop :=
  (dl_done s = true → todo s = []) ∧
  phase_ok (dl_main s) (clean f s) (answering f s) (dl_done s = true).

Lemma clean_mono f s s' :
  (∀ past, untouched s past → ∃ past', untouched s' past') →
  (dl_claimed s = true → dl_claimed s' = true) → clean f s → clean f s'.
Proof. intros Hu Hc. destruct f; simpl; [by intros [past ?%Hu] | intros [? [past ?%Hu]]; auto | done]. Qed.

Lemma answering_mono f s s' a a' :
  (∀ before, mixed before s a → mixed before s' a') → answering f s a → answering f s' a'.
Proof. intros Hm. destruct f; simpl; [intros [before ?%Hm]; by exists before | done | apply Hm]. Qed.

Lemma phase_ok_mono main (U U' : Prop) (M M' : list WriterOp → Prop) (F F' : Prop) :
  (U → U') → (∀ a, M a → M' a) → (F → F') → phase_ok main U M F → phase_ok main U' M' F'.
Proof.
  intros HU HM HF. destruct main; simpl; [done | done | | |].
  - intros (a & ? & ?). exists a. auto.
  - intros [?|?]; auto.
  - intros [? [?|?]]; auto.
Qed.

(** A call of the handler reaches the client. *)
Lemma untouched_call s s' past op :
  untouched s past → todo s = op :: todo s' →
  dl_client s' = apply_op op (dl_client s) →
  (dl_claimed s' = false → is_write op = false ∧ dl_claimed s = false) → dl_pending s' = None →
  untouched s' (past ++ [op]).
Proof.
  intros [Hp Hc Hcl] Ht Hcl' Hw Hpend. split.
  - by rewrite Hp, Ht, <-app_assoc.
  - by rewrite Hcl', Hc, apply_ops_snoc.
  - intros Hf. destruct (Hw Hf) as [Hop Hs]. destruct (Hcl Hs) as [Hpast _]. split; [|done].
    by rewrite forallb_app, Hpast; simpl; rewrite Hop.
Qed.

Lemma mixed_call before s s' answered op :
  mixed before s answered → todo s = op :: todo s' →
  dl_client s' = apply_op op (dl_client s) → dl_claimed s' = true → mixed before s' answered.
Proof.
  intros [(past & merged & Hh & Hb & Hi & Hc) _] Ht Hcl Hs'. split; [|done].
  exists (past ++ [op]), (merged ++ [op]). split_and!; [| done | by apply interleaves_snoc_l |].
  - by rewrite Hh, Ht, <-app_assoc.
  - by rewrite Hcl, Hc, app_assoc, apply_ops_snoc.
Qed.

(** Steps that change neither the client nor the handler's progress. *)
Lemma untouched_same s s' past :
  untouched s past → todo s' = todo s → dl_client s' = dl_client s →
  (dl_claimed s' = false → dl_claimed s = false ∧ dl_pending s' = dl_pending s) →
  untouched s' past.
Proof.
  intros [Hp Hc Hcl] Ht Hcl' Hf. split; [congruence.. |].
  intros H. destruct (Hf H) as [Hs Hpe]. rewrite Hpe. by apply Hcl.
Qed.

Lemma mixed_same before s s' answered :
  mixed before s answered → todo s' = todo s → dl_client s' = dl_client s → dl_claimed s' = true →
  mixed before s' answered.
Proof. intros [H1 _] Ht Hc Hcl. split; [|done]. by rewrite Ht, Hc. Qed.

(** Steps of the middleware alone. *)
Lemma untouched_main s m past : untouched s past → untouched (s <| dl_main := m |>) past.
Proof. intros Hu. by apply (untouched_same s). Qed.

Lemma clean_main f s m : clean f s → clean f (s <| dl_main := m |>).
Proof. apply clean_mono; [|done]. intros past Hu. exists past. by apply untouched_main. Qed.

Lemma answering_main f s m a : answering f s a → answering f (s <| dl_main := m |>) a.
Proof. apply answering_mono. intros b Hm. apply (mixed_same b s); [done.. | apply Hm]. Qed.

(** Steps of the handler. *)
Lemma deadline_inv_handler f s s' :
  deadline_inv f s → dl_main s' = dl_main s →
  (dl_done s' = true → todo s' = []) → (dl_done s = true → dl_done s' = true) →
  (dl_claimed s = true → dl_claimed s' = true) →
  (∀ past, untouched s past → ∃ past', untouched s' past') →
  (∀ before a, mixed before s a → mixed before s' a) → deadline_inv f s'.
Proof.
  intros [_ Hph] Hmain Hdone Hd Hcl Hu Hm. split; [done |]. rewrite Hmain.
  refine (phase_ok_mono _ _ _ _ _ _ _ _ _ Hd Hph).
  - by apply clean_mono.
  - intros a. apply answering_mono. intros before. apply Hm.
Qed.

Lemma deadline_step_inv f s s' : deadline_inv f s → deadline_step r s s' → deadline_inv f s'.
Proof.
  intros Hinv Hstep. pose proof Hinv as [Hdone Hph]. destruct Hstep as
    [s u ops Hp Hh | s op ops Hp Hh Hw | s op Hp | s Hp Hh Hd
    | s Hm Hd | s Hm | s ok s' Hm Hok | s op ops Hm | s Hm | s Hm Hd].
  - (* a header call *)
    assert (todo s = OpHeader u :: ops) as Ht by (unfold todo; by rewrite Hp).
    apply (deadline_inv_handler f s); [done | done | | done | done | |].
    + simpl. intros Hd. by rewrite (Hdone Hd) in Ht.
    + intros past Hu. exists (past ++ [OpHeader u]). apply (untouched_call s);
        [done | by rewrite Ht; unfold todo; simpl; rewrite Hp | done..].
    + intros before a Hmx. apply (mixed_call before s _ a (OpHeader u));
        [done | by rewrite Ht; unfold todo; simpl; rewrite Hp | done | apply Hmx].
  - (* the handler claims *)
    assert (todo s = op :: ops) as Ht by (unfold todo; by rewrite Hp).
    apply (deadline_inv_handler f s); [done | done | | done | done | |].
    + simpl. intros Hd. by rewrite (Hdone Hd) in Ht.
    + intros past Hu. exists past. by apply (untouched_same s).
    + intros before a Hmx. by apply (mixed_same before s).
  - (* the handler writes *)
    assert (todo s = op :: dl_handler s) as Ht by (unfold todo; by rewrite Hp).
    apply (deadline_inv_handler f s); [done | done | | done | done | |].
    + simpl. intros Hd. by rewrite (Hdone Hd) in Ht.
    + intros past Hu. exists (past ++ [op]). apply (untouched_call s); [done | done | done | | done].
      simpl. intros Hf. destruct Hu as [_ _ Hcl]. destruct (Hcl Hf). congruence.
    + intros before a Hmx. apply (mixed_call before s _ a op); [done | done | done | apply Hmx].
  - (* the handler is done *)
    assert (todo s = []) as Ht by (unfold todo; by rewrite Hp).
    apply (deadline_inv_handler f s); [done | done | done | done | done | |].
    + intros past Hu. exists past. by apply (untouched_same s).
    + intros before a Hmx. apply (mixed_same before s); [done.. | apply Hmx].
  - split; [done |]. rewrite Hm in Hph. simpl in *. split; [done |]. left. by apply clean_main.
  - split; [done |]. rewrite Hm in Hph. by apply clean_main.
  - rewrite Hm in Hph. simpl in Hph. injection Hok as <- <-. split; [done |].
    destruct (dl_claimed s) eqn:Hc; simpl.
    + left. revert Hph. apply clean_mono; [|done]. intros past Hu. exists past.
      by apply (untouched_same s).
    + exists []. split; [done |]. destruct f; simpl in *; [|by destruct Hph; congruence | done].
      destruct Hph as [past [Hpast Hcl Hb]]. destruct (Hb Hc) as [Hb' Hp]. exists past.
      split; [|done]. exists [], []. split_and!; [exact Hpast | done | constructor |].
      by rewrite app_nil_r.
  - rewrite Hm in Hph. destruct Hph as (answered & Ha & Hans). split; [done |]. simpl.
    exists (answered ++ [op]). split; [by rewrite <-app_assoc |]. revert Hans.
    apply answering_mono. intros before [(past & merged & Hh & Hb & Hi & Hc) Hcl]. split; [|done].
    exists past, (merged ++ [op]). split_and!; [done | done | by apply interleaves_snoc_r |].
    simpl. by rewrite Hc, app_assoc, apply_ops_snoc.
  - rewrite Hm in Hph. destruct Hph as (answered & Ha & Hans). rewrite app_nil_r in Ha.
    split; [done |]. simpl. right. rewrite Ha. by apply answering_main.
  - rewrite Hm in Hph. split; [done |]. simpl. split; [done |].
    destruct Hph as [Hu|Hmx]; [left; by apply clean_main | right; by apply answering_main].
Qed.

Lemma deadline_steps_inv f s s' : deadline_inv f s → rtc (deadline_step r) s s' → deadline_inv f s'.
Proof. intros Hinv Hs. induction Hs; eauto using deadline_step_inv. Qed.

Definition deadline_start : DeadlineState := mkDeadline c0 false None handler false MSelect.

Lemma deadline_reachable_inv s : rtc (deadline_step r) deadline_start s → deadline_inv ByAny s.
Proof. apply deadline_steps_inv. split; [done |]. simpl. exists []. by split. Qed.

(** A state in which nobody has claimed the response. *)
Lemma unclaimed_not_answering s a : dl_claimed s = false → ¬ answering ByAny s a.
Proof. intros Hc [before [_ Hm]]. congruence. Qed.

Lemma unclaimed_untouched s :
  deadline_inv ByAny s → dl_claimed s = false →
  (∃ past, untouched s past) ∧ ∀ ops, dl_main s ≠ MAnswer ops.
Proof.
  intros [_ Hph] Hc. pose proof (λ a, unclaimed_not_answering s a Hc) as Hno.
  destruct (dl_main s) as [| |ops| |]; simpl in Hph.
  - by split.
  - by split.
  - destruct Hph as (a & _ & Ha). by destruct (Hno a).
  - destruct Hph as [Hu|Ha]; [by split | by destruct (Hno _ Ha)].
  - destruct Hph as [_ [Hu|Ha]]; [by split | by destruct (Hno _ Ha)].
Qed.

(** The step that claims, and what is known after it. *)
Lemma first_claim s s' :
  deadline_inv ByAny s → dl_claimed s = false → deadline_step r s s' → dl_claimed s' = true →
  match dl_pending s' with
  | Some _ => deadline_inv ByHandler s'
  | None => ∃ before, handler = before ++ dl_handler s ∧ dl_client s = apply_ops before c0 ∧
      forallb (λ op, negb (is_write op)) before = true ∧ deadline_inv (ByDeadline before) s'
  end.
Proof.
  intros Hinv Hc Hstep Hc'.
  destruct (unclaimed_untouched s Hinv Hc) as [[past Hu] Hmain].
  pose proof Hu as [Hpast Hcl Hb]. destruct (Hb Hc) as [Hb' Hpend].
  pose proof (deadline_step_inv _ _ _ Hinv Hstep) as [Hdone' _]. destruct Hinv as [_ Hph].
  destruct Hstep as [ |s op ops Hp Hh Hw | | | | |s ok s' Hm Hok | | |]; simpl in Hc'; try congruence.
  - split; [done |]. change (phase_ok (dl_main s) (clean ByHandler (s <| dl_claimed := true |> <| dl_pending := Some op |>
      <| dl_handler := ops |>)) (λ _, False) (dl_done s = true)).
    assert (clean ByHandler (s <| dl_claimed := true |> <| dl_pending := Some op |>
      <| dl_handler := ops |>)) as Hclean.
    { split; [done |]. exists past. apply (untouched_same s); [done | | done..].
      unfold todo. simpl. by rewrite Hp, Hh. }
    destruct (dl_main s) as [| |aops| |]; simpl.
    + done.
    + done.
    + by destruct (Hmain aops).
    + by left.
    + split; [apply Hph | by left].
  - injection Hok as <- <-. cbn [dl_pending]. rewrite Hpend. exists past.
    unfold todo in Hpast. rewrite Hpend in Hpast.
    split; [exact Hpast | split; [exact Hcl | split; [exact Hb' |]]].
    split; [revert Hdone'; unfold todo; simpl; by rewrite Hpend |]. simpl. rewrite Hc. simpl.
    exists []. split; [done |]. split; [|done]. exists [], [].
    split_and!; [|done | constructor | by rewrite app_nil_r]. done.
Qed.

(** ** Properties *)

(** C19. Whatever the interleaving, when the middleware returns the handler has
    finished. If nobody claimed the response, the handler made no write and the client
    has exactly its calls. If the handler was the first to claim -- it began its answer
    before the deadline's claim, even if the deadline had expired -- the client has
    exactly the handler's calls, never a 504. If the deadline was first, the client has
    the 504, complete and in order, interleaved only with the calls the handler made
    after that claim; one that makes none leaves exactly the 504. *)
Theorem deadline_answers (s : DeadlineState) :
  rtc (deadline_step r) deadline_start s → dl_main s = MReturned →
  dl_done s = true ∧
  (dl_claimed s = false →
     forallb (λ op, negb (is_write op)) handler = true ∧ dl_client s = apply_ops handler c0) ∧
  ∀ s1 s2, rtc (deadline_step r) deadline_start s1 → dl_claimed s1 = false →
    deadline_step r s1 s2 → dl_claimed s2 = true → rtc (deadline_step r) s2 s →
    match dl_pending s2 with
    | Some _ => dl_client s = apply_ops handler c0
    | None =>
        ∃ before merged, handler = before ++ dl_handler s1 ∧
          forallb (λ op, negb (is_write op)) before = true ∧
          dl_client s1 = apply_ops before c0 ∧ dl_client s = apply_ops merged (dl_client s1) ∧
          interleaves (dl_handler s1) (deadline_ops r) merged ∧
          (dl_handler s1 = [] → merged = deadline_ops r)
    end.
Proof.
  intros Hsteps Hm. pose proof (deadline_reachable_inv s Hsteps) as Hinv.
  pose proof Hinv as [Hdone Hph]. rewrite Hm in Hph. destruct Hph as [Hd _].
  specialize (Hdone Hd). split; [done |]. split.
  - intros Hc. destruct (unclaimed_untouched s Hinv Hc) as [[past [Hpast Hcl Hb]] _].
    rewrite Hdone, app_nil_r in Hpast. destruct (Hb Hc). by subst.
  - intros s1 s2 Hs1 Hc1 Hstep Hc2 Hs2.
    pose proof (first_claim s1 s2 (deadline_reachable_inv s1 Hs1) Hc1 Hstep Hc2) as Hfirst.
    destruct (dl_pending s2) as [op|].
    + destruct (deadline_steps_inv _ _ _ Hfirst Hs2) as [_ Hph]. rewrite Hm in Hph.
      destruct Hph as [_ [[_ [past [Hpast Hcl _]]]|[]]]. by rewrite Hpast, Hdone, app_nil_r.
    + destruct Hfirst as (before & Hb & Hcl1 & Hw & Hfirst).
      destruct (deadline_steps_inv _ _ _ Hfirst Hs2) as [_ Hph]. rewrite Hm in Hph.
      destruct Hph as [_ [[]|[(past & merged & Hh & _ & Hi & Hcl) _]]].
      rewrite Hdone, app_nil_r, Hb in Hh. apply app_inv_head in Hh as <-.
      exists before, merged. split_and!; [done.. | | done |].
      * rewrite Hcl, Hcl1. unfold apply_ops. by rewrite foldl_app.
      * intros Hnil. rewrite Hnil in Hi. by apply interleaves_nil_l.
Qed.
End deadline.

(** ** Termination *)

(** What is left to do. *)
Definition main_measure (main : MainPc) : nat :=
  match main with
  | MSelect => 7 | MClaim => 6 | MAnswer ops => 2 + length ops | MWait => 1 | MReturned => 0
  end.

Definition deadline_measure (s : DeadlineState) : nat :=
  2 * length (dl_handler s) + (match dl_pending s with Some _ => 1 | None => 0 end) +
  (if dl_done s then 0 else 1) + main_measure (dl_main s).

Lemma deadline_step_measure r s s' :
  deadline_step r s s' → (deadline_measure s' < deadline_measure s)%nat.
Proof.
  unfold deadline_measure. intros Hstep. destruct Hstep as
    [s u ops Hp Hh | s op ops Hp Hh Hw | s op Hp | s Hp Hh Hd
    | s Hm Hd | s Hm | s ok s' Hm Hok | s op ops Hm | s Hm | s Hm Hd]; simpl;
    rewrite ?Hp, ?Hh, ?Hd, ?Hm; simpl; try lia.
  injection Hok as <- <-. simpl. destruct (dl_claimed s); simpl; lia.
Qed.

(** The race always ends: an execution has at most [2 n + 8] steps for a handler
    of [n] calls, and until the middleware has returned some step is possible --
    no schedule leaves it waiting. It does wait for the handler, however long that
    runs: the deadline only bounds what is answered. *)
Theorem deadline_terminates (r : Request) (c0 : Client) (handler : list WriterOp) (n : nat)
    (s : DeadlineState) :
  nsteps (deadline_step r) n (mkDeadline c0 false None handler false MSelect) s →
  (n ≤ 2 * length handler + 8)%nat ∧ (dl_main s ≠ MReturned → ∃ s', deadline_step r s s').
Proof.
  intros Hn. split.
  - assert (∀ s s', nsteps (deadline_step r) n s s' →
      (n + deadline_measure s' ≤ deadline_measure s)%nat) as Hm.
    { clear. intros s s'. induction 1 as [|n x y z Hxy _ IH]; [done |].
      pose proof (deadline_step_measure r x y Hxy). lia. }
    specialize (Hm _ _ Hn). unfold deadline_measure in Hm at 2. simpl in Hm. lia.
  - intros Hret. destruct (dl_main s) as [| |[|op ops]| |] eqn:Hm; [| | | | |done].
    + eexists. by apply SelectExpired.
    + eexists. by eapply DeadlineClaim.
    + eexists. by apply DeadlineAnswered.
    + eexists. by eapply DeadlineAnswer.
    + destruct (dl_done s) eqn:Hd; [eexists; by apply WaitDone |].
      destruct (dl_pending s) as [op|] eqn:Hp; [eexists; by eapply HandlerWrite |].
      destruct (dl_handler s) as [|op ops] eqn:Hh; [eexists; by apply HandlerDone |].
      destruct op as [u|code|b]; eexists;
        [by eapply HandlerHeader | by eapply HandlerClaim | by eapply HandlerClaim].
Qed.

(** ** Schedules *)

(** Who moves next; [MoveExpire] is the select seeing the deadline. *)
Inductive Move := MoveHandler | MoveExpire | MoveMain.

Definition move (r : Request) (s : DeadlineState) (mv : Move) : DeadlineState :=
  match mv with
  | MoveHandler =>
      match dl_pending s, dl_handler s with
      | Some op, _ => s <| dl_client := apply_op op (dl_client s) |> <| dl_pending := None |>
      | None, OpHeader u :: ops =>
          s <| dl_client := apply_op (OpHeader u) (dl_client s) |> <| dl_handler := ops |>
      | None, op :: ops =>
          s <| dl_claimed := true |> <| dl_pending := Some op |> <| dl_handler := ops |>
      | None, [] => s <| dl_done := true |>
      end
  | MoveExpire => match dl_main s with MSelect => s <| dl_main := MClaim |> | _ => s end
  | MoveMain =>
      match dl_main s with
      | MSelect | MWait => if dl_done s then s <| dl_main := MReturned |> else s
      | MClaim =>
          let '(ok, s) := tryClaimWrite s in
          s <| dl_main := if ok then MAnswer (deadline_ops r) else MWait |>
      | MAnswer (op :: ops) =>
          s <| dl_client := apply_op op (dl_client s) |> <| dl_main := MAnswer ops |>
      | MAnswer [] => s <| dl_main := MWait |>
      | MReturned => s
      end
  end.

Lemma main_move r c cl p ops d m :
  let s := mkDeadline c cl p ops d m in rtc (deadline_step r) s (move r s MoveMain).
Proof.
  destruct m as [| |[|op aops]| |]; simpl; try done.
  - destruct d; [|done]. apply rtc_once. by apply (SelectDone r (mkDeadline c cl p ops true MSelect)).
  - apply rtc_once. by apply (DeadlineClaim r (mkDeadline c cl p ops d MClaim) (negb cl)
      (mkDeadline c true p ops d MClaim)).
  - apply rtc_once. by apply (DeadlineAnswered r (mkDeadline c cl p ops d (MAnswer []))).
  - apply rtc_once. by apply (DeadlineAnswer r (mkDeadline c cl p ops d (MAnswer (op :: aops))) op).
  - destruct d; [|done]. apply rtc_once. by apply (WaitDone r (mkDeadline c cl p ops true MWait)).
Qed.

Lemma move_steps r s mv : rtc (deadline_step r) s (move r s mv).
Proof.
  destruct s as [c cl [op|] ops d m], mv; simpl.
  - apply rtc_once. by apply (HandlerWrite r (mkDeadline c cl (Some op) ops d m)).
  - destruct m; try done. apply rtc_once. by apply (SelectExpired r (mkDeadline _ _ _ _ _ MSelect)).
  - apply main_move.
  - destruct ops as [|[u|code|b] ops].
    + destruct d; [done |]. apply rtc_once. by apply (HandlerDone r (mkDeadline c cl None [] false m)).
    + apply rtc_once. by apply (HandlerHeader r (mkDeadline c cl None (OpHeader u :: ops) d m)).
    + apply rtc_once. by apply (HandlerClaim r (mkDeadline c cl None (OpWriteHeader code :: ops) d m) (OpWriteHeader code)).
    + apply rtc_once. by apply (HandlerClaim r (mkDeadline c cl None (OpWrite b :: ops) d m) (OpWrite b)).
  - destruct m; try done. apply rtc_once. by apply (SelectExpired r (mkDeadline _ _ _ _ _ MSelect)).
  - apply main_move.
Qed.

Definition run_moves (r : Request) (mvs : list Move) (handler : list WriterOp) : DeadlineState :=
  foldl (move r) (mkDeadline new_client false None handler false MSelect) mvs.

Lemma moves_steps r mvs s : rtc (deadline_step r) s (foldl (move r) s mvs).
Proof.
  revert s. induction mvs as [|mv mvs IH]; intros s; [done |]. simpl. etrans; [apply move_steps | apply IH].
Qed.

Lemma run_moves_steps r mvs handler :
  rtc (deadline_step r) (mkDeadline new_client false None handler false MSelect)
    (run_moves r mvs handler).
Proof. apply moves_steps. Qed.

(** A handler that is late still reaches the client: the 504 and its JSON body are
    followed by the body of the handler. *)
Definition late_moves : list Move :=
  [MoveExpire; MoveMain; MoveMain; MoveMain; MoveMain; MoveMain;
   MoveHandler; MoveHandler; MoveHandler; MoveHandler; MoveHandler; MoveMain].

Definition late_handler : list WriterOp := [OpWriteHeader 200; OpWrite "late"].

Lemma late_writes_reach_the_client (r : Request) :
  ∃ s, rtc (deadline_step r) (mkDeadline new_client false None late_handler false MSelect) s ∧
    dl_main s = MReturned ∧
    (fst <$> sent_status (cl_calls (dl_client s))) = Some StatusGatewayTimeout ∧
    calls_body (cl_calls (dl_client s)) =
      error_body (header_Get "X-Request-Id" (rq_Header r)) StatusGatewayTimeout DeadlineExceeded
        "global request deadline exceeded" +:+ "late".
Proof.
  exists (run_moves r late_moves late_handler). split; [apply run_moves_steps |].
  split; [done |]. by split.
Qed.

(** ** Witnesses *)

Definition slow_request : Request := new_request "GET" "/slow" ∅ "10.0.0.1:1".

(** The deadline expires, and then the handler is the first to claim: no 504; or the
    deadline is, and the handler's calls follow. *)
Lemma deadline_answers_witness :
  let start := deadline_start new_client late_handler in
  let expired := move slow_request start MoveExpire in
  let late := run_moves slow_request late_moves late_handler in
  (∀ s, rtc (deadline_step slow_request) (move slow_request expired MoveHandler) s →
     dl_main s = MReturned → dl_client s = apply_ops late_handler new_client) ∧
  ∃ merged, dl_client late = apply_ops merged new_client ∧
    interleaves late_handler (deadline_ops slow_request) merged.
Proof.
  intros start expired late.
  assert (rtc (deadline_step slow_request) start expired) as Hexp by apply (moves_steps slow_request [MoveExpire]).
  split.
  - intros s Hs Hm. set (claimed := move slow_request expired MoveHandler) in Hs.
    assert (deadline_step slow_request expired claimed) as Hstep
      by (by apply (HandlerClaim slow_request expired (OpWriteHeader 200) [OpWrite "late"])).
    assert (rtc (deadline_step slow_request) start s) as Hr
      by (etrans; [exact Hexp | by eapply rtc_l]).
    destruct (deadline_answers slow_request new_client late_handler s Hr Hm) as (_ & _ & Hall).
    exact (Hall expired claimed Hexp eq_refl Hstep eq_refl Hs).
  - destruct (deadline_answers slow_request new_client late_handler late (run_moves_steps _ _ _) eq_refl)
      as (_ & _ & Hall).
    destruct (Hall expired (move slow_request expired MoveMain) Hexp eq_refl) as
      (before & merged & Hb & _ & Hc1 & Hc & Hi & _); [| done | |].
    + by apply (DeadlineClaim slow_request expired true (expired <| dl_claimed := true |>)).
    + unfold late, run_moves. rewrite <-(take_drop 2 late_moves), foldl_app.
      cbn [take late_moves foldl]. apply moves_steps.
    + by exists merged.
Defined.

Lemma deadline_terminates_witness :
  let s := move slow_request (mkDeadline new_client false None late_handler false MSelect) MoveExpire in
  ∃ s', deadline_step slow_request s s'.
Proof.
  intros s. apply (deadline_terminates slow_request new_client late_handler 1 s); [|done].
  apply nsteps_once. by apply SelectExpired.
Defined.
