(* ===== verification/Proxy.v ===== *)
(** * The router: construction and route matching (internal/proxy/proxy.go)

    [sort.Slice] is not stable: of the order it leaves, only the documented
    facts are assumed (class [SortSlice]).  A [ReverseProxy] is external; the
    model keeps what the gateway gives it. *)

From stdpp Require Import sorting.
From S2P Require Import Prelude GoStrings Config ConfigValidate Routing.

(** ** Backend identity *)

(** [strings.TrimRight(s, "/")] *)
Fixpoint trim_slashes (s : string) : string :=
  match s with
  | EmptyString => EmptyString
  | String c r =>
      match trim_slashes r with
      | EmptyString => if Ascii.eqb c "/" then EmptyString else String c EmptyString
      | r' => String c r'
      end
  end.

Definition backendKey (u : URL) : string :=
  let host :=
    if Contains (u_Host u) ":" then u_Host u
    else u_Host u +:+ (if bool_decide (u_Scheme u = "https") then ":443" else ":80") in
  u_Scheme u +:+ "://" +:+ host +:+ trim_slashes (u_Path u).

(** ** Transports *)

Record Transport := mkTransport {
  t_MaxIdleConns : Z; t_MaxIdleConnsPerHost : Z; t_IdleConnTimeout : Duration;
  t_DialTimeout : Duration; t_KeepAlive : Duration; t_TLSHandshakeTimeout : Duration;
  t_ResponseHeaderTimeout : Duration
}.

Definition buildTransport (pool : option ConnectionPoolConfig) : Transport :=
  let pick (f : ConnectionPoolConfig → Z) (d : Z) :=
    match pool with Some p => if decide (0 < f p) then f p else d | None => d end in
  mkTransport (pick cp_MaxIdleConns 100) (pick cp_MaxIdlePerHost 10)
    (pick cp_IdleTimeout (90 * Second)) (10 * Second) (30 * Second) (5 * Second) 0.

(** ** The router *)

(** A reverse proxy: its target, its transport, and the backend its error handler
    logs. *)
Record ReverseProxy := mkReverseProxy {
  px_Target : URL; px_Transport : Transport; px_Backend : string
}.

Record Router := mkRouter {
  rt_routes : list RouteConfig;
  rt_proxies : gmap string ReverseProxy;
  rt_routeBackendKey : gmap string string;
  rt_methodSets : gmap string (gset string)
}.

(** Longest path prefix first. *)
Definition longer_prefix (a b : RouteConfig) : Prop :=
  (len (r_PathPrefix b) ≤ len (r_PathPrefix a))%nat.

#[export] Instance longer_prefix_dec a b : Decision (longer_prefix a b).
Proof. unfold longer_prefix. apply _. Defined.

(** What [sort.Slice] promises for this comparison. *)
Class SortSlice := {
  sort_routes : list RouteConfig → list RouteConfig;
  sort_routes_perm rs : sort_routes rs ≡ₚ rs;
  sort_routes_sorted rs : StronglySorted longer_prefix (sort_routes rs)
}.

Section router.
Context `{SortSlice, ConfigLib, GoFmt}.

(** The loop over the sorted routes: a proxy for each backend not seen yet, and
    the key of every route. *)
Fixpoint build_proxies (rs : list RouteConfig)
    (acc : gmap string ReverseProxy * gmap string string)
    : result (gmap string ReverseProxy * gmap string string) string :=
  match rs with
  | [] => Ok acc
  | route :: rs =>
      match url_Parse (r_Backend route) with
      | Err err =>
          Err ("invalid backend URL " +:+ fmt_quote (r_Backend route) +:+ " for route " +:+
               fmt_quote (r_PathPrefix route) +:+ ": " +:+ err)
      | Ok target =>
          let key := backendKey target in
          let keys := <[r_PathPrefix route := key]> acc.2 in
          match acc.1 !! key with
          | Some _ => build_proxies rs (acc.1, keys)
          | None =>
              build_proxies rs
                (<[key := mkReverseProxy target (buildTransport (r_ConnectionPool route))
                            (r_Backend route)]> acc.1, keys)
          end
      end
  end.

(** The allowed methods of the routes that restrict them, in upper case. *)
Definition build_method_sets (rs : list RouteConfig) : gmap string (gset string) :=
  foldl (λ ms route,
    if decide (r_Methods route = []) then ms
    else <[r_PathPrefix route := list_to_set (ToUpper <$> r_Methods route)]> ms) ∅ rs.

(** [proxy.New(routes, ...)] *)
Definition NewRouter (routes : list RouteConfig) : result Router string :=
  let sorted := sort_routes routes in
  match build_proxies sorted (∅, ∅) with
  | Err e => Err e
  | Ok (proxies, keys) => Ok (mkRouter sorted proxies keys (build_method_sets sorted))
  end.
End router.

(** [rt.matchRoute(path)]: the first route in order whose prefix matches. *)
Definition matchRoute (rt : Router) (path : string) : option RouteConfig :=
  find (λ route, MatchesPrefix path (r_PathPrefix route)) (rt_routes rt).

(** The method check of [ServeHTTP]: no set, or a set with the method. *)
Definition method_allowed (rt : Router) (route : RouteConfig) (method : string) : bool :=
  match rt_methodSets rt !! r_PathPrefix route with
  | None => true
  | Some ms => bool_decide (method ∈ ms)
  end.

Definition isRetryable (status : Z) : bool :=
  bool_decide (status = 502 ∨ status = 503 ∨ status = 504).

(** ** Lemmas on matching *)

Lemma find_split {A} (p : A → bool) (l : list A) x :
  find p l = Some x ↔ ∃ k r, l = k ++ x :: r ∧ Forall (λ y, p y = false) k ∧ p x = true.
Proof.
  induction l as [|y l IH]; simpl.
  - split; [done | by intros ([] & ? & ? & _)].
  - destruct (p y) eqn:Hy.
    + split; [intros [= ->]; by exists [], l |].
      intros ([|z k] & r & ? & Hk & ?); simplify_eq/=; [done |].
      apply Forall_cons_iff in Hk as [? _]. congruence.
    + rewrite IH. split.
      * intros (k & r & -> & ? & ?). exists (y :: k), r. split; [done |]. by split; [constructor |].
      * intros ([|z k] & r & ? & Hk & ?); simplify_eq/=; [congruence |].
        apply Forall_cons_iff in Hk as [_ ?]. by exists k, r.
Qed.

Lemma find_None {A} (p : A → bool) (l : list A) :
  find p l = None ↔ Forall (λ y, p y = false) l.
Proof.
  induction l as [|y l IH]; simpl; [by split |]. rewrite Forall_cons_iff, <-IH.
  by destruct (p y); split; [|intros []| |intros []].
Qed.

(** What a route list needs for the longest match to be found first. *)
Definition routes_wf (rs : list RouteConfig) : Prop :=
  StronglySorted longer_prefix rs ∧ NoDup (r_PathPrefix <$> rs).

Lemma prefix_inj rs r r' :
  NoDup (r_PathPrefix <$> rs) → r ∈ rs → r' ∈ rs → r_PathPrefix r = r_PathPrefix r' → r = r'.
Proof.
  intros Hnd (i & Hi)%list_elem_of_lookup (j & Hj)%list_elem_of_lookup Heq.
  assert (i = j) as ->; [|congruence].
  eapply NoDup_lookup; [done | |]; rewrite list_lookup_fmap; [by rewrite Hi | by rewrite Hj, Heq].
Qed.

(** The first match in a sorted list is the longest. *)
Lemma find_longest rs path r :
  routes_wf rs →
  find (λ r, MatchesPrefix path (r_PathPrefix r)) rs = Some r ↔
    r ∈ rs ∧ MatchesPrefix path (r_PathPrefix r) = true ∧
    ∀ r', r' ∈ rs → MatchesPrefix path (r_PathPrefix r') = true → r' ≠ r →
      (len (r_PathPrefix r') < len (r_PathPrefix r))%nat.
Proof.
  intros [Hs Hnd].
  assert (∀ r, find (λ r, MatchesPrefix path (r_PathPrefix r)) rs = Some r →
    r ∈ rs ∧ MatchesPrefix path (r_PathPrefix r) = true ∧
    ∀ r', r' ∈ rs → MatchesPrefix path (r_PathPrefix r') = true → r' ≠ r →
      (len (r_PathPrefix r') < len (r_PathPrefix r))%nat) as Hfirst.
  { intros r0 (k & rest & -> & Hk & Hm)%find_split. split_and!; [set_solver | done |].
    intros r' Hin Hm' Hne. apply elem_of_app in Hin as [Hin|[->|Hin]%elem_of_cons]; [|done|].
    - rewrite Forall_forall in Hk. by rewrite (Hk r' Hin) in Hm'.
    - apply StronglySorted_app_1_r in Hs. apply StronglySorted_inv in Hs as [_ Hle].
      rewrite Forall_forall in Hle. specialize (Hle r' Hin). unfold longer_prefix in Hle.
      assert (len (r_PathPrefix r') ≠ len (r_PathPrefix r0)); [|lia]. intros Heq. apply Hne.
      apply (prefix_inj _ r' r0 Hnd); [set_solver.. |].
      by apply (MatchesPrefix_same_len path). }
  split; [apply Hfirst |]. intros (Hin & Hm & Hmax).
  destruct (find _ rs) as [r0|] eqn:Hf.
  - destruct (Hfirst r0 eq_refl) as (Hin0 & Hm0 & Hmax0). f_equal.
    destruct (decide (r0 = r)) as [|Hne]; [done |].
    pose proof (Hmax r0 Hin0 Hm0 Hne). pose proof (Hmax0 r Hin Hm (not_eq_sym Hne)). lia.
  - apply find_None in Hf. rewrite Forall_forall in Hf. by rewrite (Hf r Hin) in Hm.
Qed.

(** ** Lemmas on construction *)

Section construction.
Context `{SortSlice, ConfigLib, GoFmt}.

(** What the loop keeps: every proxy stands under the key of its own target. *)
Definition proxies_ok (ps : gmap string ReverseProxy) : Prop :=
  ∀ k px, ps !! k = Some px → backendKey (px_Target px) = k.

(** What the loop establishes for the routes it has passed. *)
Definition route_resolved (acc : gmap string ReverseProxy * gmap string string)
    (r : RouteConfig) : Prop :=
  ∃ u px, url_Parse (r_Backend r) = Ok u ∧ acc.2 !! r_PathPrefix r = Some (backendKey u) ∧
    acc.1 !! backendKey u = Some px.

Lemma build_proxies_Ok rs acc out :
  NoDup (r_PathPrefix <$> rs) → build_proxies rs acc = Ok out →
  proxies_ok acc.1 →
  proxies_ok out.1 ∧ acc.1 ⊆ out.1 ∧ Forall (route_resolved out) rs ∧
  (∀ p, p ∉ (r_PathPrefix <$> rs) → out.2 !! p = acc.2 !! p).
Proof.
  revert acc. induction rs as [|r rs IH]; intros acc Hnd Hb Hok; simpl in Hb.
  { simplify_eq. split_and!; [done | done | constructor | done]. }
  apply NoDup_cons in Hnd as [Hr Hnd].
  destruct (url_Parse (r_Backend r)) as [u|] eqn:Hu; [|done].
  assert (∃ ps px, build_proxies rs (ps, <[r_PathPrefix r := backendKey u]> acc.2) = Ok out ∧
    proxies_ok ps ∧ acc.1 ⊆ ps ∧ ps !! backendKey u = Some px) as (ps & px & Hb' & Hps & Hsub & Hpx).
  { destruct (acc.1 !! backendKey u) as [px|] eqn:Hpx; [by exists acc.1, px |].
    eexists _, _. split; [exact Hb |]. split; [|split; [by apply insert_subseteq |
      apply lookup_insert_eq]].
    intros k px [[<- <-]|[_ Hk]]%lookup_insert_Some; [done | by apply Hok]. }
  destruct (IH _ Hnd Hb' Hps) as (Hok' & Hsub' & Hall & Hkeys). simpl in *.
  split_and!; [done | by etransitivity | |].
  - constructor; [|done]. exists u, px. split; [done |]. split.
    + rewrite Hkeys by done. apply lookup_insert_eq.
    + by eapply lookup_weaken.
  - intros p [Hne Hp]%not_elem_of_cons. rewrite Hkeys by done. by apply lookup_insert_ne.
Qed.

(** The loop fails exactly on a backend that does not parse. *)
Lemma build_proxies_total rs acc :
  (∃ out, build_proxies rs acc = Ok out) ↔
    Forall (λ r, ∃ u, url_Parse (r_Backend r) = Ok u) rs.
Proof.
  revert acc. induction rs as [|r rs IH]; intros acc; simpl; [by split; [|eexists] |].
  rewrite Forall_cons_iff. destruct (url_Parse (r_Backend r)) as [u|e].
  - destruct (acc.1 !! backendKey u); rewrite IH; split; [split; [eauto | done] | tauto
      | split; [eauto | done] | tauto].
  - split; [by intros [] | by intros [[] _]].
Qed.

Lemma build_method_sets_lookup rs p :
  NoDup (r_PathPrefix <$> rs) →
  ∀ r, r ∈ rs → r_PathPrefix r = p →
  build_method_sets rs !! p =
    if decide (r_Methods r = []) then None else Some (list_to_set (ToUpper <$> r_Methods r)).
Proof.
  unfold build_method_sets.
  assert (∀ rs ms, p ∉ (r_PathPrefix <$> rs) →
    foldl (λ ms route, if decide (r_Methods route = []) then ms
      else <[r_PathPrefix route := list_to_set (ToUpper <$> r_Methods route)]> ms) ms rs !! p
    = (ms : gmap string (gset string)) !! p) as Hout.
  { clear. induction rs as [|r rs IH]; intros ms Hp; simpl; [done |].
    apply not_elem_of_cons in Hp as [Hne Hp].
    rewrite IH by done. case_decide; [done |]. by apply lookup_insert_ne. }
  generalize (∅ : gmap string (gset string)), (lookup_empty (M := gmap string) (A := gset string) p).
  induction rs as [|r0 rs IH]; intros ms Hms Hnd r Hin Hr; [by apply elem_of_nil in Hin |].
  apply NoDup_cons in Hnd as [Hr0 Hnd]. simpl. apply elem_of_cons in Hin as [->|Hin].
  - rewrite Hout by (by rewrite <-Hr). case_decide; [done |]. rewrite <-Hr. apply lookup_insert_eq.
  - apply (IH _); [|done..]. case_decide; [done |].
    rewrite lookup_insert_ne; [done |]. intros Heq. apply Hr0. rewrite Heq, <-Hr.
    by apply list_elem_of_fmap_2.
Qed.

Lemma NewRouter_wf routes rt :
  NoDup (r_PathPrefix <$> routes) → NewRouter routes = Ok rt → routes_wf (rt_routes rt) ∧
  rt_routes rt ≡ₚ routes.
Proof.
  intros Hnd Hn. unfold NewRouter in Hn.
  destruct (build_proxies _ _) as [[ps ks]|]; [|done]. injection Hn as <-. simpl.
  split; [split; [apply sort_routes_sorted |] | apply sort_routes_perm].
  by rewrite sort_routes_perm.
Qed.

(** ** Properties *)

(** C16. The router of a configuration without repeated prefixes matches every
    path to the configured route with the longest matching prefix -- the only
    one of that length -- whatever order the configuration or the sort put the
    routes in; and to none exactly when no prefix matches. *)
Theorem matchRoute_longest (routes : list RouteConfig) (rt : Router) (path : string) :
  NoDup (r_PathPrefix <$> routes) → NewRouter routes = Ok rt →
  (∀ r, matchRoute rt path = Some r ↔
     r ∈ routes ∧ under_prefix path (r_PathPrefix r) ∧
     ∀ r', r' ∈ routes → under_prefix path (r_PathPrefix r') → r' ≠ r →
       (len (r_PathPrefix r') < len (r_PathPrefix r))%nat) ∧
  (matchRoute rt path = None ↔ ∀ r, r ∈ routes → ¬ under_prefix path (r_PathPrefix r)).
Proof.
  intros Hnd Hn. destruct (NewRouter_wf routes rt Hnd Hn) as [Hwf Hp].
  split.
  - intros r. unfold matchRoute. rewrite find_longest by done.
    setoid_rewrite MatchesPrefix_iff. by setoid_rewrite Hp.
  - unfold matchRoute. rewrite find_None, Forall_forall. setoid_rewrite Hp.
    setoid_rewrite <-MatchesPrefix_iff. by setoid_rewrite not_true_iff_false.
Qed.

(** C36. A router can be built exactly when every backend URL parses, and then
    every route resolves to a proxy for its own backend: two routes share a
    proxy exactly when their backends have the same identity; and a route
    admits exactly its configured methods, compared in upper case, or all. *)
Theorem NewRouter_resolves (routes : list RouteConfig) :
  NoDup (r_PathPrefix <$> routes) →
  ((∃ rt, NewRouter routes = Ok rt) ↔
     Forall (λ r, ∃ u, url_Parse (r_Backend r) = Ok u) routes) ∧
  (∀ rt r, NewRouter routes = Ok rt → r ∈ routes →
     (∃ u px, url_Parse (r_Backend r) = Ok u ∧
        rt_routeBackendKey rt !! r_PathPrefix r = Some (backendKey u) ∧
        rt_proxies rt !! backendKey u = Some px ∧ backendKey (px_Target px) = backendKey u) ∧
     (∀ method, method_allowed rt r method = true ↔
        r_Methods r = [] ∨ method ∈ (ToUpper <$> r_Methods r))).
Proof.
  intros Hnd. assert (NoDup (r_PathPrefix <$> sort_routes routes)) as Hnds
    by (by rewrite sort_routes_perm).
  unfold NewRouter. split.
  - assert (Forall (λ r, ∃ u, url_Parse (r_Backend r) = Ok u) routes ↔
      Forall (λ r, ∃ u, url_Parse (r_Backend r) = Ok u) (sort_routes routes)) as ->
      by (by rewrite sort_routes_perm).
    rewrite <-(build_proxies_total _ (∅, ∅)).
    destruct (build_proxies _ _) as [[ps ks]|]; split; try done; try (by intros []); eauto.
  - intros rt r Hb Hin. rewrite <-(sort_routes_perm routes) in Hin.
    destruct (build_proxies (sort_routes routes) (∅, ∅)) as [[ps ks]|] eqn:Hbp; [|done].
    injection Hb as <-. simpl.
    destruct (build_proxies_Ok _ _ _ Hnds Hbp) as (Hok & _ & Hall & _); [done |].
    rewrite Forall_forall in Hall. split.
    + destruct (Hall r Hin) as (u & px & Hu & Hk & Hpx). exists u, px. by eauto using Hok.
    + intros method. unfold method_allowed. simpl.
      rewrite (build_method_sets_lookup _ (r_PathPrefix r) Hnds r Hin eq_refl).
      case_decide; [by split; [left |]|]. rewrite bool_decide_eq_true, elem_of_list_to_set. tauto.
Qed.
End construction.

(** ** Witnesses *)

#[export] Instance longer_prefix_total : Total longer_prefix.
Proof. intros a b. unfold longer_prefix. lia. Qed.

#[export] Instance longer_prefix_trans : Transitive longer_prefix.
Proof. intros a b c. unfold longer_prefix. lia. Qed.

(** A sort that does what is promised. *)
Definition merge_sorted : SortSlice := {|
  sort_routes := merge_sort longer_prefix;
  sort_routes_perm := merge_sort_Permutation longer_prefix;
  sort_routes_sorted := StronglySorted_merge_sort longer_prefix
|}.

Definition demo_routes : list RouteConfig :=
  [demo_route <| r_PathPrefix := "/" |>;
   demo_route <| r_Methods := ["get"] |>;
   demo_route <| r_PathPrefix := "/api/users" |>].

Definition demo_router : Router :=
  let s := merge_sorted in let l := demo_lib (empty_config []) in let f := demo_fmt in
  match NewRouter demo_routes with Ok rt => rt | Err _ => mkRouter [] ∅ ∅ ∅ end.

Lemma demo_routes_NoDup : NoDup (r_PathPrefix <$> demo_routes).
Proof. by apply (bool_decide_unpack _). Qed.

Lemma matchRoute_longest_witness :
  (r_PathPrefix <$> matchRoute demo_router "/api/users/7") = Some "/api/users" ∧
  (r_PathPrefix <$> matchRoute demo_router "/apis") = Some "/" ∧
  (matchRoute demo_router "users" = None ↔
     ∀ r, r ∈ demo_routes → ¬ under_prefix "users" (r_PathPrefix r)).
Proof.
  split; [by vm_compute |]. split; [by vm_compute |].
  apply (@matchRoute_longest merge_sorted (demo_lib (empty_config [])) demo_fmt demo_routes
           demo_router "users" demo_routes_NoDup). by vm_compute.
Defined.

Lemma NewRouter_resolves_witness :
  let s := merge_sorted in let l := demo_lib (empty_config []) in let f := demo_fmt in
  (∃ rt, NewRouter demo_routes = Ok rt) ∧
  (method_allowed demo_router (demo_route <| r_Methods := ["get"] |>) "GET" = true).
Proof.
  intros s l f.
  destruct (@NewRouter_resolves s l f demo_routes demo_routes_NoDup) as [H1 H2]. split.
  - apply H1. repeat constructor; by eexists.
  - apply (H2 demo_router); [by vm_compute | set_solver |]. right. by apply (bool_decide_unpack _).
Defined.
