(* ===== verification/Writers.v ===== *)
(** * The proxy's response writers (internal/proxy/proxy.go)

    [responseRecorder] and [latencyWriter] forward to the client while noting the
    status and adding the latency header; [responseBuffer] keeps a response in
    memory for replay. *)

From S2P Require Import Prelude GoStrings Http.

Record Recorder := mkRecorder {
  rr_client : Client; rr_statusCode : Z; rr_written : bool
}.

#[export] Instance Recorder_eta : Eta Recorder := λ r,
  mkRecorder (rr_client r) (rr_statusCode r) (rr_written r).

Definition recorder_note (code : Z) (rr : Recorder) : Recorder :=
  if rr_written rr then rr else rr <| rr_statusCode := code |> <| rr_written := true |>.

Definition recorder_WriteHeader (code : Z) (t : Time) (rr : Recorder) : Recorder :=
  let rr := recorder_note code rr in rr <| rr_client := rw_WriteHeader code t (rr_client rr) |>.

Definition recorder_Write (body : string) (t : Time) (rr : Recorder) : Recorder :=
  let rr := recorder_note StatusOK rr in rr <| rr_client := rw_Write body t (rr_client rr) |>.

#[export] Instance recorder_writer : ResponseWriter Recorder := {
  rw_header_of rr := rw_header_of (rr_client rr);
  rw_Header upd rr := rr <| rr_client := rw_Header upd (rr_client rr) |>;
  rw_WriteHeader := recorder_WriteHeader;
  rw_Write := recorder_Write
}.

Record LatencyWriter := mkLatencyWriter {
  lw_ResponseWriter : Recorder; lw_start : Time; lw_written : bool
}.

#[export] Instance LatencyWriter_eta : Eta LatencyWriter := λ l,
  mkLatencyWriter (lw_ResponseWriter l) (lw_start l) (lw_written l).

(** The latency header is set once, before the first call that commits. *)
Definition latency_mark (t : Time) (lw : LatencyWriter) : LatencyWriter :=
  if lw_written lw then lw
  else
    lw <| lw_written := true |>
       <| lw_ResponseWriter :=
            rw_Header (header_Set "X-Gateway-Latency"
                         (duration_string (time_sub t (lw_start lw)))) (lw_ResponseWriter lw) |>.

Definition latency_WriteHeader (code : Z) (t : Time) (lw : LatencyWriter) : LatencyWriter :=
  let lw := latency_mark t lw in
  lw <| lw_ResponseWriter := rw_WriteHeader code t (lw_ResponseWriter lw) |>.

Definition latency_Write (body : string) (t : Time) (lw : LatencyWriter) : LatencyWriter :=
  let lw := latency_mark t lw in
  lw <| lw_ResponseWriter := rw_Write body t (lw_ResponseWriter lw) |>.

#[export] Instance latency_writer : ResponseWriter LatencyWriter := {
  rw_header_of lw := rw_header_of (lw_ResponseWriter lw);
  rw_Header upd lw := lw <| lw_ResponseWriter := rw_Header upd (lw_ResponseWriter lw) |>;
  rw_WriteHeader := latency_WriteHeader;
  rw_Write := latency_Write
}.

Record ResponseBuffer := mkBuffer {
  rb_header : Header; rb_body : string; rb_statusCode : Z; rb_written : bool
}.

#[export] Instance ResponseBuffer_eta : Eta ResponseBuffer := λ b,
  mkBuffer (rb_header b) (rb_body b) (rb_statusCode b) (rb_written b).

(** [b.Reset()] empties the header map, the body and the status. *)
Definition buffer_Reset (b : ResponseBuffer) : ResponseBuffer :=
  mkBuffer ∅ "" StatusOK false.

Definition buffer_note (code : Z) (b : ResponseBuffer) : ResponseBuffer :=
  if rb_written b then b else b <| rb_statusCode := code |> <| rb_written := true |>.

Definition buffer_Write (p : string) (b : ResponseBuffer) : ResponseBuffer :=
  let b := buffer_note StatusOK b in b <| rb_body := rb_body b +:+ p |>.

#[export] Instance buffer_writer : ResponseWriter ResponseBuffer := {
  rw_header_of := rb_header;
  rw_Header upd b := b <| rb_header := upd (rb_header b) |>;
  rw_WriteHeader code _ b := buffer_note code b;
  rw_Write p _ b := buffer_Write p b
}.

(** [b.replayTo(rr)] *)
Definition replayTo (b : ResponseBuffer) (t : Time) (rr : Recorder) : Recorder :=
  let rr := rw_Header (header_add_all (rb_header b)) rr in
  let rr := rw_WriteHeader (rb_statusCode b) t rr in
  rw_Write (rb_body b) t rr.

(** ** The status of a response, told from the handler's calls *)

Fixpoint first_status (ops : list (WriterOp * Time)) : option Z :=
  match ops with
  | [] => None
  | (OpHeader _, _) :: ops => first_status ops
  | (OpWriteHeader code, _) :: _ => Some code
  | (OpWrite _, _) :: _ => Some 200
  end.

Fixpoint ops_body (ops : list (WriterOp * Time)) : string :=
  match ops with
  | [] => ""
  | (OpWrite b, _) :: ops => b +:+ ops_body ops
  | _ :: ops => ops_body ops
  end.

(** No informational response: what HTTP/1.1 servers send before the final one. *)
Definition informational (code : Z) : bool := bool_decide (100 ≤ code ≤ 199 ∧ code ≠ 101).

Definition no_informational (ops : list (WriterOp * Time)) : Prop :=
  Forall (λ o, match o.1 with OpWriteHeader code => informational code = false | _ => True end) ops.

Lemma recorder_written ops rr :
  rr_written rr = true → rr_statusCode (run_ops ops rr) = rr_statusCode rr.
Proof.
  revert rr. induction ops as [|[[u|code|b] t] ops IH]; intros rr Hw; [done | ..];
    simpl; (rewrite IH; unfold recorder_WriteHeader, recorder_Write, recorder_note; simpl;
      by rewrite ?Hw).
Qed.

(** The recorder notes the first status and passes every call on. *)
Lemma recorder_status ops rr :
  rr_written rr = false →
  rr_statusCode (run_ops ops rr) = default (rr_statusCode rr) (first_status ops).
Proof.
  revert rr. induction ops as [|[[u|code|b] t] ops IH]; intros rr Hw; [done | ..]; simpl.
  - by rewrite IH.
  - rewrite recorder_written; unfold recorder_WriteHeader, recorder_note; by rewrite Hw.
  - rewrite recorder_written; unfold recorder_Write, recorder_note; by rewrite Hw.
Qed.

Lemma recorder_forwards ops rr : rr_client (run_ops ops rr) = run_ops ops (rr_client rr).
Proof.
  revert rr. induction ops as [|[op t] ops IH]; intros rr; [done |]. simpl. rewrite IH. f_equal.
  destruct op; simpl; unfold recorder_WriteHeader, recorder_Write, recorder_note;
    by destruct (rr_written rr).
Qed.

Lemma buffer_written ops b :
  rb_written b = true → rb_statusCode (run_ops ops b) = rb_statusCode b.
Proof.
  revert b. induction ops as [|[[u|code|p] t] ops IH]; intros b Hw; [done | ..];
    simpl; (rewrite IH; unfold buffer_Write, buffer_note; simpl; by rewrite ?Hw).
Qed.

Lemma buffer_status ops b :
  rb_written b = false →
  rb_statusCode (run_ops ops b) = default (rb_statusCode b) (first_status ops).
Proof.
  revert b. induction ops as [|[[u|code|p] t] ops IH]; intros b Hw; [done | ..]; simpl.
  - by rewrite IH.
  - rewrite buffer_written; unfold buffer_note; by rewrite Hw.
  - rewrite buffer_written; unfold buffer_Write, buffer_note; by rewrite Hw.
Qed.

Lemma buffer_body ops b : rb_body (run_ops ops b) = rb_body b +:+ ops_body ops.
Proof.
  revert b. induction ops as [|[[u|code|p] t] ops IH]; intros b; simpl.
  - by rewrite string_app_nil_r.
  - by rewrite IH.
  - rewrite IH. unfold buffer_note. by destruct (rb_written b).
  - rewrite IH. unfold buffer_Write, buffer_note.
    destruct (rb_written b); simpl; by rewrite <-string_app_assoc.
Qed.

(** What a client gets when a handler writes to it directly. *)
Lemma client_calls ops c :
  no_informational ops →
  ∃ cs, cl_calls (run_ops ops c) = cl_calls c ++ cs ∧
    fst <$> sent_status cs = first_status ops ∧ calls_body cs = ops_body ops.
Proof.
  revert c. induction ops as [|[[u|code|p] t] ops IH]; intros c Hn;
    [by exists []; rewrite app_nil_r | ..]; apply Forall_cons_iff in Hn as [Hc Hn]; simpl.
  - exact (IH (mkClient (u (cl_header c)) (cl_calls c)) Hn).
  - destruct (IH (mkClient (cl_header c) (cl_calls c ++ [CallWriteHeader code (cl_header c)])) Hn)
      as (cs & -> & _ & Hb). simpl.
    exists (CallWriteHeader code (cl_header c) :: cs). split; [by rewrite <-app_assoc |].
    split; [|done]. simpl. unfold informational in Hc. apply bool_decide_eq_false in Hc.
    by rewrite decide_False.
  - destruct (IH (mkClient (cl_header c) (cl_calls c ++ [CallWrite p (cl_header c)])) Hn)
      as (cs & -> & _ & Hb). simpl.
    exists (CallWrite p (cl_header c) :: cs). split; [by rewrite <-app_assoc |].
    split; [done |]. cbn [calls_body ops_body]. by rewrite Hb.
Qed.

(** ** Properties *)

(** Buffering is transparent: a response without informational statuses that
    is buffered and replayed reaches a client with the same status and body as
    if the handler had written to it directly, and the recorder notes that
    status. *)
Theorem replay_transparent (ops : list (WriterOp * Time)) (b : ResponseBuffer) (t : Time) :
  no_informational ops →
  informational (default 200 (first_status ops)) = false →
  let direct := run_ops ops new_client in
  let rr := replayTo (run_ops ops (buffer_Reset b)) t (mkRecorder new_client 200 false) in
  (fst <$> sent_status (cl_calls (rr_client rr))) =
    Some (default 200 (fst <$> sent_status (cl_calls direct))) ∧
  calls_body (cl_calls (rr_client rr)) = calls_body (cl_calls direct) ∧
  rr_statusCode rr = default 200 (fst <$> sent_status (cl_calls direct)).
Proof.
  intros Hn Hi. simpl. destruct (client_calls ops new_client Hn) as (cs & Hcs & Hst & Hb).
  simpl in Hcs. rewrite Hcs, Hst, Hb. unfold replayTo, recorder_WriteHeader, recorder_Write,
    recorder_note; simpl.
  rewrite (buffer_status ops (buffer_Reset b)), (buffer_body ops) by done. simpl.
  split; [|split; [|done]].
  - unfold informational in Hi. apply bool_decide_eq_false in Hi. by rewrite decide_False.
  - by rewrite string_app_nil_r.
Qed.

(** An informational response defeats both wrappers: after an early 1xx
    status the recorder and the buffer keep that status instead of the final
    one, so a failed response is not seen as one, and a buffered one is replayed
    as a success. *)
Theorem informational_status_is_kept (code final : Z) (body : string) (t : Time) :
  informational code = true → informational final = false →
  let ops := [(OpWriteHeader code, t); (OpWriteHeader final, t); (OpWrite body, t)] in
  (fst <$> sent_status (cl_calls (run_ops ops new_client))) = Some final ∧
  rr_statusCode (run_ops ops (mkRecorder new_client 200 false)) = code ∧
  (fst <$> sent_status (cl_calls (rr_client
     (replayTo (run_ops ops (mkBuffer ∅ "" 200 false)) t (mkRecorder new_client 200 false)))))
    = Some 200.
Proof.
  unfold informational. rewrite bool_decide_eq_true, bool_decide_eq_false. intros Hc Hf.
  cbn. rewrite !(decide_True _ _ Hc), !(decide_False _ _ Hf). done.
Qed.

(** ** Witnesses *)

Lemma replay_transparent_witness :
  let ops := [(OpHeader (header_Set "A" "b"), 1); (OpWriteHeader 404, 1); (OpWrite "x", 2);
              (OpWrite "y", 3)] in
  let rr := replayTo (run_ops ops (mkBuffer ∅ "old" 502 true)) 9 (mkRecorder new_client 200 false) in
  let rr' := replayTo (run_ops ops (buffer_Reset (mkBuffer ∅ "old" 502 true))) 9
               (mkRecorder new_client 200 false) in
  rr_statusCode rr = 502 ∧ rr_statusCode rr' = 404 ∧
  calls_body (cl_calls (rr_client rr')) = "xy".
Proof.
  intros ops rr rr'. split; [by vm_compute |].
  destruct (replay_transparent ops (mkBuffer ∅ "old" 502 true) 9) as (_ & Hb & Hs);
    [by repeat constructor | done |].
  split; [exact Hs | exact Hb].
Defined.

Lemma informational_status_is_kept_witness :
  rr_statusCode (run_ops [(OpWriteHeader 103, 0); (OpWriteHeader 502, 0); (OpWrite "bad", 0)]
    (mkRecorder new_client 200 false)) = 103.
Proof. by apply (informational_status_is_kept 103 502 "bad" 0). Defined.
