(* ===== verification/ProxyServe.v ===== *)
(** * Serving a proxied request (internal/proxy/proxy.go, [Router.ServeHTTP])

    The circuit breakers are used through [AdmissionControl] only.  What happens
    outside the gateway during one request is listed, in program order, in a
    [ServeEnv]: the clock readings, whether the request's context is done before
    each attempt, and what the backend makes the reverse proxy do with its
    writer.  Other requests do not interleave here ([Concurrent] does that). *)

From S2P Require Import Prelude GoFloat GoStrings Metrics Config ConfigValidate Routing.
From S2P Require Import CircuitBreaker Http Json ApiError Writers Proxy.

(** How one call of [ReverseProxy.ServeHTTP] ends: it returns, it calls the error
    handler, or it aborts by panicking with [http.ErrAbortHandler]. *)
Inductive Ending := Finished | Failed | Aborted.

#[export] Instance Ending_eq_dec : EqDecision Ending.
Proof. solve_decision. Defined.

Record Attempt := mkAttempt {
  at_cancelled : bool;                  (** [r.Context().Err() != nil] before it *)
  at_start : Time;
  at_ops : list (WriterOp * Time);      (** the calls of the reverse proxy *)
  at_ending : Ending;
  at_end : Time                         (** when the call has returned *)
}.

Record ServeEnv := mkServeEnv {
  en_start : Time;
  en_attempts : list Attempt;
  en_end : Time
}.

(** The calls of one attempt on its writer: those of the reverse proxy, then those
    of the error handler [New] installs. *)
Definition attempt_ops (req : Request) (a : Attempt) : list (WriterOp * Time) :=
  at_ops a ++
  match at_ending a with
  | Failed => (λ op, (op, at_end a)) <$>
      json_ops (Some req) StatusBadGateway UpstreamUnavailable "upstream service unavailable"
  | _ => []
  end.

(** [100*(1<<(attempt-1))] milliseconds, in 64-bit arithmetic. *)
Definition backoff (attempt : Z) : Duration :=
  wrap64 (wrap64 (100 * wrap64 (2 ^ (attempt - 1))) * Millisecond).

Definition max_attempts (route : RouteConfig) : Z :=
  let n := wrap64 (r_RetryAttempts route + 1) in if decide (n < 1) then 1 else n.

(** The path the backend is asked for. *)
Definition backend_path (route : RouteConfig) (path : string) : string :=
  if r_StripPrefix route then
    let p := TrimPrefix path (r_PathPrefix route) in if decide (p = "") then "/" else p
  else path.

(** The request after the route's headers are set and its path rewritten. *)
Definition rewrite_request (route : RouteConfig) (req : Request) : Request :=
  req <| rq_Header := map_fold (λ k v h, header_Set (CanonicalHeaderKey k) v h) (rq_Header req)
                        (r_Headers route) |>
      <| rq_Path := backend_path route (rq_Path req) |>.

Section serve.
Context {B : Type} `{AdmissionControl B}.

(** The state a request changes: the recorder around the client connection, its
    backend's breaker (if any), the metrics, the requests sent to the backend
    with their timeouts, and the back-offs slept. *)
Record Serving := mkServing {
  sv_recorder : Recorder;
  sv_breaker : option B;
  sv_events : list MetricEvent;
  sv_forwarded : list (Request * Duration);
  sv_sleeps : list Duration
}.

#[local] Instance Serving_eta : Eta Serving := λ s,
  mkServing (sv_recorder s) (sv_breaker s) (sv_events s) (sv_forwarded s) (sv_sleeps s).

Definition log_events (evs : list MetricEvent) (s : Serving) : Serving :=
  s <| sv_events := sv_events s ++ evs |>.

(** [if breaker != nil { ... RecordFailure or RecordSuccess ... }]; [None] is a panic
    inside the breaker. *)
Definition record_outcome (failed : bool) (latency : Duration) (now : Time) (s : Serving)
    : option Serving :=
  match sv_breaker s with
  | None => Some s
  | Some b =>
      '(b, evs) ← (if failed then ac_RecordFailure b latency now
                   else ac_RecordSuccess b latency now);
      Some (log_events evs (s <| sv_breaker := Some b |>))
  end.

(** Writing to [w] itself, under the recorder. *)
Definition write_json (req : Request) (status : Z) (code : ErrorCode) (msg : string) (now : Time)
    (s : Serving) : Serving :=
  let rr := sv_recorder s in
  s <| sv_recorder := rr <| rr_client := WriteJSON (Some req) status code msg now (rr_client rr) |> |>.

Definition on_recorder (f : Recorder → Recorder) (s : Serving) : Serving :=
  s <| sv_recorder := f (sv_recorder s) |>.

Definition forward (route : RouteConfig) (req : Request) (s : Serving) : Serving :=
  s <| sv_forwarded := sv_forwarded s ++ [(req, route_Timeout route)] |>.

(** What the loop over the attempts ends with: the code after it runs, the function
    returns early, or it panics. *)
Inductive LoopEnd := LoopBreak | LoopReturn | LoopPanic.

(** The final attempt, straight to the client. *)
Definition final_attempt (route : RouteConfig) (req : Request) (start : Time) (a : Attempt)
    (s : Serving) : option (LoopEnd * Serving) :=
  let s := forward route req s in
  let s := on_recorder (λ rr,
    lw_ResponseWriter (run_ops (attempt_ops req a) (mkLatencyWriter rr start false))) s in
  match at_ending a with
  | Aborted => Some (LoopPanic, s)
  | _ =>
      let latency := time_sub (at_end a) (at_start a) in
      s ← record_outcome (isRetryable (rr_statusCode (sv_recorder s))) latency (at_end a) s;
      Some (LoopBreak, s)
  end.

(** An earlier attempt, into a buffer: [inl] when it ends the loop, [inr] when the
    request is retried. *)
Definition buffered_attempt (m : bool) (route : RouteConfig) (req : Request) (start : Time)
    (attempt : Z) (a : Attempt) (s : Serving) : option ((LoopEnd * Serving) + Serving) :=
  let s := forward route req s in
  let buf := run_ops (attempt_ops req a) (buffer_Reset (mkBuffer ∅ "" StatusOK false)) in
  match at_ending a with
  | Aborted => Some (inl (LoopPanic, s))
  | _ =>
      let latency := time_sub (at_end a) (at_start a) in
      if negb (isRetryable (rb_statusCode buf)) then
        s ← record_outcome false latency (at_end a) s;
        let s := on_recorder (λ rr,
          replayTo buf (at_end a)
            (rw_Header (header_Set "X-Gateway-Latency"
              (duration_string (time_sub (at_end a) start))) rr)) s in
        Some (inl (LoopBreak, s))
      else
        s ← record_outcome true latency (at_end a) s;
        let s := log_events (emit m [mkEvent RetryTotal [r_PathPrefix route; r_Backend route] Inc]) s in
        Some (inr (s <| sv_sleeps := sv_sleeps s ++ [backoff attempt] |>))
  end.

(** The loop, [attempt] being its counter; [None] if a breaker panics or the
    environment lists too few attempts. *)
Fixpoint attempt_loop (m : bool) (route : RouteConfig) (req : Request) (start : Time)
    (attempt : Z) (attempts : list Attempt) (s : Serving) : option (LoopEnd * Serving) :=
  match attempts with
  | [] => None
  | a :: attempts =>
      if at_cancelled a then
        Some (LoopReturn,
              write_json req StatusGatewayTimeout RequestCancelled "request cancelled"
                (at_start a) s)
      else if decide (attempt = max_attempts route) then final_attempt route req start a s
      else
        r ← buffered_attempt m route req start attempt a s;
        match r with
        | inl out => Some out
        | inr s => attempt_loop m route req start (attempt + 1) attempts s
        end
  end.

(** The metrics recorded after the loop. *)
Definition request_events (m : bool) (route : RouteConfig) (req : Request) (status : Z)
    (total : Duration) : list MetricEvent :=
  let statusStr := Itoa status in
  emit m ([mkEvent RequestsTotal [r_PathPrefix route; rq_Method req; statusStr] Inc;
           mkEvent RequestDuration [r_PathPrefix route; rq_Method req]
             (Observe (duration_seconds total))] ++
          if decide (500 ≤ status) then
            [mkEvent BackendErrors [r_PathPrefix route; r_Backend route; statusStr] Inc]
          else []).

(** From the gauge to the end: the body with its deferred [Dec]. *)
Definition serve_admitted (rt : Router) (m : bool) (route : RouteConfig) (env : ServeEnv)
    (req : Request) (s : Serving) : option (Exit * Serving) :=
  let s := log_events (emit m [mkEvent ActiveConnections [] Inc]) s in
  let req := rewrite_request route req in
  '(out, s) ←
    (match rt_routeBackendKey rt !! r_PathPrefix route ≫= λ key, rt_proxies rt !! key with
     | None =>
         (* a nil proxy: its first call panics *)
         a ← head (en_attempts env);
         Some (if at_cancelled a then
                 (LoopReturn,
                  write_json req StatusGatewayTimeout RequestCancelled "request cancelled"
                    (at_start a) s)
               else (LoopPanic, s))
     | Some _ => attempt_loop m route req (en_start env) 1 (en_attempts env) s
     end);
  let s := match out with
           | LoopBreak => log_events (request_events m route req (rr_statusCode (sv_recorder s))
                            (time_sub (en_end env) (en_start env))) s
           | _ => s
           end in
  Some (match out with LoopPanic => Panicked | _ => Returned end,
        log_events (emit m [mkEvent ActiveConnections [] Dec]) s).

(** Writing [serve_rejected]'s answer, under the recorder. *)
Definition rejected_answer (route : RouteConfig) (req : Request) (now : Time) (rr : Recorder) : Recorder :=
  rr <| rr_client :=
    if decide (r_FallbackStatus route ≠ 0) then
      run_ops ((λ op, (op, now)) <$>
        ([OpHeader (header_Set "Content-Type" "application/json");
          OpWriteHeader (r_FallbackStatus route)] ++
         if decide (r_FallbackBody route ≠ "") then
           [OpWrite (r_FallbackBody route); OpWrite newline] else [])) (rr_client rr)
    else WriteJSON (Some req) StatusServiceUnavailable CircuitOpen "circuit breaker open" now
           (rr_client rr) |>.

(** The answer while the circuit is open. *)
Definition serve_rejected (route : RouteConfig) (req : Request) (now : Time) (s : Serving) : Serving :=
  on_recorder (rejected_answer route req now) s.

(** [rt.ServeHTTP(w, r)]: [breakers] are the router's; the result has the breaker
    of the matched backend, after the deferred [Release].  [None]: a call of a
    breaker panics or blocks (or [env] is too short). *)
Definition ServeHTTP (rt : Router) (m : bool) (breakers : gmap string B) (env : ServeEnv)
    (req : Request) (client : Client) : option (Exit * Serving) :=
  let now := en_start env in
  let s breaker := mkServing (mkRecorder client StatusOK false) breaker [] [] [] in
  match matchRoute rt (rq_Path req) with
  | None =>
      Some (Returned, write_json req StatusNotFound RouteNotFound "no matching route" now (s None))
  | Some route =>
      if negb (method_allowed rt route (rq_Method req)) then
        Some (Returned, write_json req StatusMethodNotAllowed MethodNotAllowed
          ("method " +:+ rq_Method req +:+ " not allowed for " +:+ r_PathPrefix route) now (s None))
      else
        match breakers !! r_Backend route with
        | None => serve_admitted rt m route env req (s None)
        | Some b =>
            let '(admitted, b, evs) := ac_Allow b now in
            let s := log_events evs (s (Some b)) in
            if negb admitted then Some (Returned, serve_rejected route req now s)
            else
              '(exit, s) ← serve_admitted rt m route env req s;
              b ← sv_breaker s;
              '(b, evs) ← ac_Release b;
              Some (exit, log_events evs (s <| sv_breaker := Some b |>))
        end
  end.
End serve.
Arguments Serving _ : clear implicits.

(** ** Lemmas on the writers of an attempt *)

(** The status an attempt answers with, as the wrappers see it. *)
Definition attempt_status (req : Request) (a : Attempt) : Z :=
  default StatusOK (first_status (attempt_ops req a)).

Lemma latency_status ops lw :
  rr_written (lw_ResponseWriter lw) = false →
  rr_statusCode (lw_ResponseWriter (run_ops ops lw)) =
    default (rr_statusCode (lw_ResponseWriter lw)) (first_status ops).
Proof.
  assert (∀ ops lw, rr_written (lw_ResponseWriter lw) = true →
    rr_statusCode (lw_ResponseWriter (run_ops ops lw)) = rr_statusCode (lw_ResponseWriter lw)) as Hw.
  { clear. induction ops as [|[[u|code|b] t] ops IH]; intros lw Hw; [done | ..]; simpl;
      (rewrite IH; unfold latency_WriteHeader, latency_Write, latency_mark; simpl;
       destruct (lw_written lw); simpl;
       unfold recorder_WriteHeader, recorder_Write, recorder_note; simpl; by rewrite ?Hw). }
  revert lw. induction ops as [|[[u|code|b] t] ops IH]; intros lw Hn; [done | ..]; simpl.
  - by rewrite IH.
  - rewrite Hw; unfold latency_WriteHeader, latency_mark; destruct (lw_written lw); simpl;
      unfold recorder_WriteHeader, recorder_note; simpl; by rewrite Hn.
  - rewrite Hw; unfold latency_Write, latency_mark; destruct (lw_written lw); simpl;
      unfold recorder_Write, recorder_note; simpl; by rewrite Hn.
Qed.

Lemma buffered_status req a :
  rb_statusCode (run_ops (attempt_ops req a) (buffer_Reset (mkBuffer ∅ "" StatusOK false))) =
    attempt_status req a.
Proof. by rewrite buffer_status. Qed.

(** The body a client has been sent. *)
Definition body_sent (rr : Recorder) : string := calls_body (cl_calls (rr_client rr)).

Lemma latency_body ops lw :
  body_sent (lw_ResponseWriter (run_ops ops lw)) =
    body_sent (lw_ResponseWriter lw) +:+ ops_body ops.
Proof.
  unfold body_sent. revert lw.
  induction ops as [|[[u|code|p] t] ops IH]; intros lw; simpl; [by rewrite string_app_nil_r | ..];
    rewrite IH; [done | ..]; unfold latency_WriteHeader, latency_Write, latency_mark;
    destruct (lw_written lw); simpl; unfold recorder_WriteHeader, recorder_Write, recorder_note;
    simpl; destruct (rr_written _); simpl; rewrite calls_body_app; simpl;
    by rewrite ?string_app_nil_r, <-?string_app_assoc.
Qed.

Lemma replay_body buf t rr : body_sent (replayTo buf t rr) = body_sent rr +:+ rb_body buf.
Proof.
  unfold body_sent, replayTo, recorder_WriteHeader, recorder_Write, recorder_note. simpl.
  destruct (rr_written rr); simpl; rewrite !calls_body_app; simpl; by rewrite !string_app_nil_r.
Qed.

(** ** The loop *)

Section laws.
Context {B : Type} `{AdmissionLaws B}.

(** What a step may do to the breaker: nothing without one; otherwise keep it
    well formed, with [d] more admissions. *)
Definition breaker_moved (d : Z) (b b' : option B) : Prop :=
  match b, b' with
  | None, None => True
  | Some b, Some b' => ac_keeps b b' d
  | _, _ => False
  end.

Lemma breaker_moved_trans d d' b1 b2 b3 :
  breaker_moved d b1 b2 → breaker_moved d' b2 b3 → breaker_moved (d + d') b1 b3.
Proof.
  destruct b1, b2, b3; simpl; try done. unfold ac_keeps.
  intros (_ & H1 & H2) (? & H3 & H4). split; [done |]. rewrite H4, H3, H2, H1. split; lia.
Qed.

Definition breaker_ok (b : option B) : Prop := match b with Some b => ac_ok b | None => True end.

Lemma breaker_moved_ok d b b' : breaker_moved d b b' → breaker_ok b'.
Proof. destruct b, b'; simpl; try done. by intros [? _]. Qed.

(** A step that only touches the parts of the state its caller names. *)
Lemma record_outcome_law failed l now (s : Serving B) :
  breaker_ok (sv_breaker s) →
  ∃ b e, record_outcome failed l now s =
    Some (mkServing (sv_recorder s) b (sv_events s ++ e) (sv_forwarded s) (sv_sleeps s)) ∧
    breaker_moved 0 (sv_breaker s) b.
Proof.
  intros Hok. unfold record_outcome. destruct (sv_breaker s) as [b|] eqn:Hb.
  2: { exists None, []. rewrite app_nil_r. split; [|done]. rewrite <-Hb. by destruct s. }
  simpl in Hok. destruct failed.
  - destruct (ac_RecordFailure_law b l now Hok) as (b' & e & Hr & Hk). rewrite Hr.
    exists (Some b'), e. done.
  - destruct (ac_RecordSuccess_law b l now Hok) as (b' & e & Hr & Hk). rewrite Hr.
    exists (Some b'), e. done.
Qed.

(** What the loop needs of its environment: an entry for every attempt left. *)
Definition enough (route : RouteConfig) (attempt : Z) (attempts : list Attempt) : Prop :=
  max_attempts route < attempt + Z.of_nat (length attempts).

Lemma attempt_loop_runs m route req start attempt attempts (s : Serving B) :
  attempt ≤ max_attempts route → enough route attempt attempts → breaker_ok (sv_breaker s) →
  ∃ out s', attempt_loop m route req start attempt attempts s = Some (out, s') ∧
    breaker_moved 0 (sv_breaker s) (sv_breaker s') ∧
    (out = LoopPanic → ∃ a, a ∈ attempts ∧ at_ending a = Aborted).
Proof.
  unfold enough. revert attempt s.
  induction attempts as [|a attempts IH]; intros attempt s Hle Hen Hok; simpl in Hen; [lia |].
  cbn [attempt_loop]. destruct (at_cancelled a).
  { eexists _, _. split; [done |]. split; [|done]. simpl.
    destruct (sv_breaker s); simpl; [|done]. split; [done | lia]. }
  assert (Hrefl : breaker_moved 0 (sv_breaker s) (sv_breaker s)).
  { destruct (sv_breaker s); simpl; [|done]. split; [done | lia]. }
  case_decide as Hf; [unfold final_attempt | unfold buffered_attempt].
  - destruct (at_ending a) eqn:He; [| |by eexists _, _; split; [done | split; [done |]];
      intros _; exists a; split; [left |]].
    all: match goal with |- context [record_outcome ?f ?l ?n ?st] =>
      destruct (record_outcome_law f l n st Hok) as (b & e & -> & Hm) end; simpl;
      eexists _, _; by split; [done | split].
  - destruct (at_ending a) eqn:He; [| |by eexists _, _; split; [done | split; [done |]];
      intros _; exists a; split; [left |]].
    all: destruct (negb (isRetryable _));
      match goal with |- context [record_outcome ?f ?l ?n ?st] =>
        destruct (record_outcome_law f l n st Hok) as (b & e & -> & Hm) end; simpl;
      [eexists _, _; by split; [done | split] |].
    all: match goal with |- context [attempt_loop _ _ _ _ _ _ ?st] =>
      destruct (IH (attempt + 1) st) as (out & s' & -> & Hm' & Hp);
        [lia | lia | by eapply breaker_moved_ok |] end.
    all: exists out, s'; split; [done |]; split; [by apply (breaker_moved_trans 0 0 _ b) |].
    all: intros Hl; destruct (Hp Hl) as (a' & ? & ?); exists a'; split; [by right | done].
Qed.

(** Recording a list of results, each failed or not, with latency and time. *)
Fixpoint record_all (rs : list (bool * Duration * Time)) (s : Serving B) : option (option B) :=
  match rs with
  | [] => Some (sv_breaker s)
  | (failed, l, now) :: rs => s ← record_outcome failed l now s; record_all rs s
  end.

Lemma record_all_breaker rs (s s' : Serving B) :
  sv_breaker s = sv_breaker s' → record_all rs s = record_all rs s'.
Proof.
  revert s s'. induction rs as [|[[f l] now] rs IH]; intros s s' Hb; simpl; [congruence |].
  unfold record_outcome. rewrite <-Hb.
  destruct (sv_breaker s) as [b|] eqn:Hs; [|simpl; apply IH; congruence].
  destruct f; [destruct (ac_RecordFailure b l now) as [[]|]
              |destruct (ac_RecordSuccess b l now) as [[]|]]; simpl; try done; by apply IH.
Qed.

Lemma record_outcome_frame failed l now (s s' : Serving B) :
  record_outcome failed l now s = Some s' →
  sv_recorder s' = sv_recorder s ∧ sv_forwarded s' = sv_forwarded s ∧ sv_sleeps s' = sv_sleeps s.
Proof.
  unfold record_outcome. destruct (sv_breaker s) as [b|]; [|by intros [= <-]].
  destruct failed; [destruct (ac_RecordFailure b l now) as [[]|]
                   |destruct (ac_RecordSuccess b l now) as [[]|]]; by intros [= <-].
Qed.

(** What the breaker is told about an attempt. *)
Definition outcome_of (req : Request) (a : Attempt) : bool * Duration * Time :=
  (isRetryable (attempt_status req a), time_sub (at_end a) (at_start a), at_end a).

(** A loop that breaks stopped at the first attempt that was final or not
    retryable. *)
Record loop_result (route : RouteConfig) (req : Request) (attempt : Z) (attempts : list Attempt)
    (s s' : Serving B) (k : nat) (a : Attempt) : Prop := {
  lr_last : attempts !! k = Some a;
  lr_retried : Forall (λ a, isRetryable (attempt_status req a) = true) (take k attempts);
  lr_stops : attempt + Z.of_nat k = max_attempts route ∨ isRetryable (attempt_status req a) = false;
  lr_bound : attempt + Z.of_nat k ≤ max_attempts route;
  lr_status : rr_statusCode (sv_recorder s') = attempt_status req a;
  lr_body : body_sent (sv_recorder s') =
    body_sent (sv_recorder s) +:+ ops_body (attempt_ops req a);
  lr_forwarded : sv_forwarded s' = sv_forwarded s ++ replicate (S k) (req, route_Timeout route);
  lr_sleeps : sv_sleeps s' = sv_sleeps s ++ (backoff <$> seqZ attempt (Z.of_nat k));
  lr_breaker : record_all (outcome_of req <$> take (S k) attempts) s = Some (sv_breaker s')
}.

Lemma loop_result_cons route req attempt a0 attempts (s s1 s2 s' : Serving B) k a :
  isRetryable (attempt_status req a0) = true →
  record_outcome true (time_sub (at_end a0) (at_start a0)) (at_end a0) s = Some s1 →
  sv_breaker s2 = sv_breaker s1 → sv_recorder s2 = sv_recorder s →
  sv_forwarded s2 = sv_forwarded s ++ [(req, route_Timeout route)] →
  sv_sleeps s2 = sv_sleeps s ++ [backoff attempt] →
  loop_result route req (attempt + 1) attempts s2 s' k a →
  loop_result route req attempt (a0 :: attempts) s s' (S k) a.
Proof.
  intros Hr Ho Hb Hrr Hf Hs []. split; simpl; try done; try lia.
  - by constructor.
  - destruct lr_stops0; [left; lia | by right].
  - by rewrite lr_body0, Hrr.
  - by rewrite lr_forwarded0, Hf, <-app_assoc.
  - rewrite lr_sleeps0, Hs, <-app_assoc. simpl. f_equal.
    rewrite (seqZ_cons attempt (Z.of_nat (S k))) by lia. simpl.
    by replace (Z.pred (Z.of_nat (S k))) with (Z.of_nat k) by lia;
      replace (Z.succ attempt) with (attempt + 1) by lia.
  - rewrite Hr, Ho. simpl. rewrite <-lr_breaker0. by apply record_all_breaker.
Qed.

Lemma record_outcome_breaker f l now (s s1 s' : Serving B) :
  sv_breaker s = sv_breaker s1 → record_outcome f l now s = Some s' →
  ∃ s1', record_outcome f l now s1 = Some s1' ∧ sv_breaker s1' = sv_breaker s'.
Proof.
  unfold record_outcome. intros Hs. rewrite <-Hs. destruct (sv_breaker s) as [b|] eqn:Hb.
  2: { intros [= <-]. exists s1. split; congruence. }
  intros Hr. apply bind_Some in Hr as ([b' e] & -> & [= <-]). by eexists.
Qed.

Lemma last_attempt_result route req attempt attempts a (s s0 s' : Serving B) f :
  f = isRetryable (attempt_status req a) →
  attempt ≤ max_attempts route →
  attempt = max_attempts route ∨ isRetryable (attempt_status req a) = false →
  sv_breaker s0 = sv_breaker s →
  record_outcome f (time_sub (at_end a) (at_start a)) (at_end a) s0 = Some s' →
  ∀ s'', sv_breaker s'' = sv_breaker s' → rr_statusCode (sv_recorder s'') = attempt_status req a →
  body_sent (sv_recorder s'') = body_sent (sv_recorder s) +:+ ops_body (attempt_ops req a) →
  sv_forwarded s'' = sv_forwarded s ++ [(req, route_Timeout route)] → sv_sleeps s'' = sv_sleeps s →
  loop_result route req attempt (a :: attempts) s s'' 0 a.
Proof.
  intros -> Hle Hstop Hb Ho s'' Hb'' Hst Hbd Hf Hs. split; simpl; try done; try lia.
  - destruct Hstop; [left; lia | by right].
  - by rewrite Hs, app_nil_r.
  - destruct (record_outcome_breaker _ _ _ s0 s s' Hb Ho) as (s1 & -> & Hb1). simpl. congruence.
Qed.

Lemma attempt_loop_result m route req start attempt attempts (s s' : Serving B) :
  attempt ≤ max_attempts route → rr_written (sv_recorder s) = false →
  rr_statusCode (sv_recorder s) = StatusOK →
  attempt_loop m route req start attempt attempts s = Some (LoopBreak, s') →
  ∃ k a, loop_result route req attempt attempts s s' k a.
Proof.
  revert attempt s. induction attempts as [|a attempts IH]; intros attempt s Hle Hw Hst Hl;
    [done |]. cbn [attempt_loop] in Hl. destruct (at_cancelled a); [done |].
  case_decide as Hfin.
  - exists 0%nat, a. unfold final_attempt in Hl.
    destruct (at_ending a); try done; apply bind_Some in Hl as (s1 & Ho & [= <-]);
      pose proof (record_outcome_frame _ _ _ _ _ Ho) as (Hr & Hf & Hs);
      (eapply last_attempt_result; [| done | by left | | exact Ho |..]; try done;
       [simpl; rewrite latency_status by done; simpl; by rewrite Hst
       | rewrite Hr; simpl; rewrite latency_status by done; simpl; by rewrite Hst
       | rewrite Hr; apply latency_body]).
  - unfold buffered_attempt in Hl. rewrite buffered_status in Hl.
    destruct (isRetryable (attempt_status req a)) eqn:Hret; cbn [negb] in Hl.
    + assert (∃ s1 s2, record_outcome true (time_sub (at_end a) (at_start a)) (at_end a)
          (forward route req s) = Some s1 ∧
        attempt_loop m route req start (attempt + 1) attempts s2 = Some (LoopBreak, s') ∧
        sv_breaker s2 = sv_breaker s1 ∧ sv_recorder s2 = sv_recorder s1 ∧
        sv_forwarded s2 = sv_forwarded s1 ∧ sv_sleeps s2 = sv_sleeps s1 ++ [backoff attempt])
        as (s1 & s2 & Ho & Hl' & Hb2 & Hr2 & Hf2 & Hs2).
      { destruct (at_ending a); try done; apply bind_Some in Hl as (r & Hr & Hl);
          apply bind_Some in Hr as (s1 & Ho & [= <-]);
          eexists s1, _; by split_and!; [exact Ho | exact Hl | ..]. }
      pose proof (record_outcome_frame _ _ _ _ _ Ho) as (Hr & Hf & Hs). simpl in *.
      destruct (record_outcome_breaker _ _ _ (forward route req s) s s1 eq_refl Ho) as (s1' & Ho' & Hb1).
      destruct (IH (attempt + 1) s2) as (k & a' & Hres);
        [lia | by rewrite Hr2, Hr | by rewrite Hr2, Hr | done |].
      exists (S k), a'. eapply (loop_result_cons _ _ _ _ _ _ _ s2);
        [done | exact Ho' | congruence | by rewrite Hr2, Hr | by rewrite Hf2, Hf | by rewrite Hs2, Hs | exact Hres].
    + exists 0%nat, a. destruct (at_ending a); try done; apply bind_Some in Hl as (r & Hr & Hl);
        apply bind_Some in Hr as (s1 & Ho & [= <-]); injection Hl as <-;
        pose proof (record_outcome_frame _ _ _ _ _ Ho) as (Hr & Hf & Hs);
        (eapply last_attempt_result; [symmetry; exact Hret | done | by right | | exact Ho |..];
         try done; simpl;
         [unfold recorder_WriteHeader, recorder_note; simpl; rewrite Hr; simpl; rewrite Hw;
          apply buffered_status
         |rewrite replay_body, buffer_body, Hr; by unfold body_sent]).
Qed.

(** What a router needs: its routes resolve to proxies. *)
Definition resolves (rt : Router) : Prop :=
  ∀ r, r ∈ rt_routes rt → ∃ key px, rt_routeBackendKey rt !! r_PathPrefix r = Some key ∧
    rt_proxies rt !! key = Some px.

Lemma matchRoute_In rt path r : matchRoute rt path = Some r → r ∈ rt_routes rt.
Proof. unfold matchRoute. intros (k & l & -> & _)%find_split. set_solver. Qed.

Lemma max_attempts_pos route : 1 ≤ max_attempts route.
Proof. unfold max_attempts. case_decide; lia. Qed.

Lemma serve_admitted_runs rt m route env req (s : Serving B) :
  resolves rt → route ∈ rt_routes rt →
  enough route 1 (en_attempts env) → breaker_ok (sv_breaker s) →
  ∃ exit s', serve_admitted rt m route env req s = Some (exit, s') ∧
    breaker_moved 0 (sv_breaker s) (sv_breaker s') ∧
    (exit = Panicked → ∃ a, a ∈ en_attempts env ∧ at_ending a = Aborted).
Proof.
  intros Hrt Hin Hen Hok. destruct (Hrt route Hin) as (key & px & Hk & Hp).
  unfold serve_admitted. rewrite Hk. simpl. rewrite Hp.
  match goal with |- context [attempt_loop _ _ _ _ _ _ ?st] =>
    destruct (attempt_loop_runs m route (rewrite_request route req) (en_start env) 1
      (en_attempts env) st) as (out & s' & -> & Hm & Hpanic);
      [apply max_attempts_pos | done | done |] end.
  simpl. eexists _, _. split; [done |]. simpl in Hm.
  destruct out; simpl; (split; [exact Hm | by auto]).
Qed.

(** Nothing but the request at hand is forwarded. *)
Lemma attempt_loop_forwards (P : Request * Duration → Prop) m route req start attempt attempts
    (s s' : Serving B) out :
  P (req, route_Timeout route) → Forall P (sv_forwarded s) →
  attempt_loop m route req start attempt attempts s = Some (out, s') → Forall P (sv_forwarded s').
Proof.
  intros HP. revert attempt s. induction attempts as [|a attempts IH]; intros attempt s Hs Hl;
    [done |]. cbn [attempt_loop] in Hl.
  assert (Forall P (sv_forwarded (forward route req s))) as Hf
    by (apply Forall_app; split; [done | by constructor]).
  destruct (at_cancelled a); [by simplify_eq |].
  case_decide.
  - unfold final_attempt in Hl.
    destruct (at_ending a); try (by simplify_eq);
      apply bind_Some in Hl as (s1 & Ho & [= <- <-]);
      by destruct (record_outcome_frame _ _ _ _ _ Ho) as (_ & -> & _).
  - apply bind_Some in Hl as (r & Hr & Hl). unfold buffered_attempt in Hr.
    destruct (at_ending a); [| |by simplify_eq]; destruct (negb _);
      apply bind_Some in Hr as (s1 & Ho & [= <-]);
      destruct (record_outcome_frame _ _ _ _ _ Ho) as (_ & Hf1 & _); try (by simplify_eq/=; rewrite Hf1);
      (eapply IH; [|exact Hl]; simpl; by rewrite Hf1).
Qed.

Lemma serve_admitted_forwards (P : Request * Duration → Prop) rt m route env req
    (s s' : Serving B) exit :
  P (rewrite_request route req, route_Timeout route) → Forall P (sv_forwarded s) →
  serve_admitted rt m route env req s = Some (exit, s') → Forall P (sv_forwarded s').
Proof.
  intros HP Hs Hl. unfold serve_admitted in Hl.
  apply bind_Some in Hl as ([out s1] & Hl & [= _ <-]).
  assert (Forall P (sv_forwarded s1)); [|by destruct out].
  destruct (_ ≫= λ key, rt_proxies rt !! key).
  2: { apply bind_Some in Hl as (a & _ & Ha). by destruct (at_cancelled a); simplify_eq. }
  exact (attempt_loop_forwards P _ _ _ _ _ _ (log_events _ s) _ _ HP Hs Hl).
Qed.

(** The JSON answer a client that got nothing yet is left with. *)
Definition json_answer (req : Request) (status : Z) (code : ErrorCode) (msg : string) : Client :=
  let h := header_Set "Content-Type" "application/json" ∅ in
  mkClient h
    [CallWriteHeader status h;
     CallWrite (marshal (mkErrorResponse (StatusText status) (error_code_string code) msg
                  (header_Get "X-Request-Id" (rq_Header req))) +:+ newline) h].

Lemma write_json_answer req status code msg now rr (s : Serving B) :
  sv_recorder s = rr → rr_client rr = new_client →
  rr_client (sv_recorder (write_json req status code msg now s)) = json_answer req status code msg.
Proof.
  intros <- Hn. simpl. rewrite Hn. unfold WriteJSON, json_ops, run_ops. simpl.
  by rewrite error_body_marshal.
Qed.

(** ** Properties *)

(** Serving a request on well-formed breakers: it runs, and keeps the breaker's slots. *)
Lemma ServeHTTP_runs (rt : Router) (m : bool) (breakers : gmap string B) (env : ServeEnv)
    (req : Request) (client : Client) :
  resolves rt → map_Forall (λ _, ac_ok) breakers →
  (∀ r, matchRoute rt (rq_Path req) = Some r → enough r 1 (en_attempts env)) →
  ∃ exit s, ServeHTTP rt m breakers env req client = Some (exit, s) ∧
    (∀ b', sv_breaker s = Some b' → ∃ r b, matchRoute rt (rq_Path req) = Some r ∧
       breakers !! r_Backend r = Some b ∧ ac_keeps b b' 0) ∧
    (exit = Panicked → ∃ a, a ∈ en_attempts env ∧ at_ending a = Aborted).
Proof.
  intros Hrt Hall Hen. unfold ServeHTTP.
  destruct (matchRoute rt (rq_Path req)) as [route|] eqn:Hm.
  2: { eexists _, _. by split. }
  destruct (method_allowed rt route (rq_Method req)); simpl; [|eexists _, _; by split].
  pose proof (matchRoute_In _ _ _ Hm) as Hin. specialize (Hen route eq_refl).
  destruct (breakers !! r_Backend route) as [b|] eqn:Hb.
  2: { match goal with |- context [serve_admitted _ _ _ _ _ ?st] =>
         destruct (serve_admitted_runs rt m route env req st Hrt Hin Hen)
           as (exit & s & -> & Hmv & Hp); [done |] end.
       eexists _, _. split; [done |]. split; [|done]. intros b' Hb'. rewrite Hb' in Hmv. done. }
  destruct (ac_Allow_law b (en_start env)) as (r & b1 & e & Ha & Hk); [by apply (Hall _ _ Hb) |].
  rewrite Ha. destruct r; simpl.
  - match goal with |- context [serve_admitted _ _ _ _ _ ?st] =>
      destruct (serve_admitted_runs rt m route env req st Hrt Hin Hen)
        as (exit & s & -> & Hmv & Hp); [apply Hk |] end.
    simpl in *. destruct (sv_breaker s) as [b2|]; [|done]. simpl.
    pose proof (breaker_moved_trans 1 0 (Some b) (Some b1) (Some b2) Hk Hmv) as Hk2.
    unfold breaker_moved, ac_keeps in Hk2. destruct Hk2 as (Hok2 & Hs2 & Hu2).
    destruct (ac_Release_law b2 Hok2) as (b3 & e3 & -> & Hk3).
    { assert (0 ≤ ac_slots b); [|lia]. by apply ac_slots_nonneg, (Hall _ _ Hb). }
    simpl. eexists _, _. split; [done |]. split; [|done]. simpl. intros b' [= <-].
    exists route, b. split; [done |]. split; [done |].
    destruct Hk3 as (? & Hs3 & Hu3). rewrite Hu2 in Hs3. unfold ac_keeps.
    split_and!; [done | lia | congruence].
  - eexists _, _. split; [done |]. split; [|done]. simpl. intros b' Hb'.
    exists route, b. split; [done |]. split; [done |].
    by simplify_eq/=.
Qed.

(** C6. Serving a request never fails inside a breaker and gives back what it
    took: whatever the backend does -- succeed, fail, be retried, be cancelled
    between attempts, or abort by a panic -- the breaker of the matched backend
    ends with as many slots in use as before and stays well formed. The handler
    panics only when an attempt was aborted. *)
Theorem ServeHTTP_balances (rt : Router) (m : bool) (breakers : gmap string B) (env : ServeEnv)
    (req : Request) (client : Client) :
  resolves rt → map_Forall (λ _, ac_ok) breakers →
  (∀ r, matchRoute rt (rq_Path req) = Some r → enough r 1 (en_attempts env)) →
  ∃ exit s, ServeHTTP rt m breakers env req client = Some (exit, s) ∧
    (∀ b', sv_breaker s = Some b' → ∃ r b, matchRoute rt (rq_Path req) = Some r ∧
       breakers !! r_Backend r = Some b ∧ ac_keeps b b' 0) ∧
    (exit = Panicked → ∃ a, a ∈ en_attempts env ∧ at_ending a = Aborted).
Proof. apply ServeHTTP_runs. Qed.

(** C9. The retry policy: an admitted request that is not cancelled is sent to the
    backend once more after each answer of 502, 503 or 504, with the back-offs
    in between, until an answer is something else or the attempts are used up;
    every attempt is reported to the breaker, a retryable answer as a failure;
    and the metrics carry the status of the last attempt. *)
Theorem retry_policy (rt : Router) (m : bool) (route : RouteConfig) (env : ServeEnv)
    (req : Request) (c : Client) (b : option B) (evs : list MetricEvent) (s' : Serving B) :
  let s := mkServing (mkRecorder c StatusOK false) b evs [] [] in
  let req' := rewrite_request route req in
  Forall (λ a, at_cancelled a = false) (en_attempts env) →
  serve_admitted rt m route env req s = Some (Returned, s') →
  ∃ k a, loop_result route req' 1 (en_attempts env) s s' k a ∧
    ∃ evs', sv_events s' = evs' ++
      request_events m route req' (attempt_status req' a) (time_sub (en_end env) (en_start env)) ++
      emit m [mkEvent ActiveConnections [] Dec].
Proof.
  intros s req' Hc Hs. unfold serve_admitted in Hs.
  apply bind_Some in Hs as ([out s1] & Hl & [= Hexit <-]).
  destruct (_ ≫= λ key, rt_proxies rt !! key).
  2: { apply bind_Some in Hl as (a & Ha & Hl). destruct (en_attempts env) as [|a0 l]; [done |].
       apply Forall_cons_iff in Hc as [Hc _]. injection Ha as ->. rewrite Hc in Hl.
       by simplify_eq. }
  assert (out = LoopBreak) as ->.
  { destruct out; [done | | done]. exfalso. clear Hexit. revert Hl Hc. generalize 1.
    match goal with |- context [attempt_loop _ _ _ _ _ _ ?st] => generalize st end.
    induction (en_attempts env) as [|a l IH]; intros st n Hl Hc; [done |].
    apply Forall_cons_iff in Hc as [Ha Hc]. cbn [attempt_loop] in Hl. rewrite Ha in Hl.
    case_decide; [unfold final_attempt in Hl; destruct (at_ending a); try done;
      by apply bind_Some in Hl as (? & _ & ?)|].
    apply bind_Some in Hl as ([[out st']|st'] & Hb & Hl); [|by eapply IH].
    unfold buffered_attempt in Hb. simplify_eq.
    destruct (at_ending a); simplify_eq; destruct (negb _); try done;
      apply bind_Some in Hb as (? & _ & ?); simplify_eq. }
  apply attempt_loop_result in Hl as (k & a & []); [|apply max_attempts_pos | done | done].
  exists k, a. split.
  - split; try done. simpl. rewrite <-lr_breaker0. by apply record_all_breaker.
  - simpl. rewrite lr_status0. eexists. by rewrite <-app_assoc.
Qed.

(** An attempt that aborts makes the handler panic. *)
Lemma ServeHTTP_aborts (rt : Router) (m : bool) (breakers : gmap string B) (env : ServeEnv)
    (req : Request) (client : Client) (route : RouteConfig) (a : Attempt) (rest : list Attempt) :
  resolves rt → map_Forall (λ _, ac_ok) breakers →
  matchRoute rt (rq_Path req) = Some route → method_allowed rt route (rq_Method req) = true →
  (∀ b, breakers !! r_Backend route = Some b → (ac_Allow b (en_start env)).1.1 = true) →
  en_attempts env = a :: rest → enough route 1 (en_attempts env) →
  at_cancelled a = false → at_ending a = Aborted →
  ∃ s, ServeHTTP rt m breakers env req client = Some (Panicked, s).
Proof.
  intros Hrt Hok Hm Hmeth Hadm Henv Hen Hc Ha.
  destruct (ServeHTTP_runs rt m breakers env req client) as (exit & s & Hs & _ & _); [done..| |].
  { intros r. rewrite Hm. by intros [= <-]. }
  exists s. rewrite Hs. do 2 f_equal. destruct (Hrt route) as (key & px & Hk & Hp); [by eapply matchRoute_In |].
  assert (∀ st ex s1, serve_admitted rt m route env req st = Some (ex, s1) → ex = Panicked) as Hpanic.
  { intros st ex s1. unfold serve_admitted. rewrite Hk. simpl. rewrite Hp, Henv. simpl. rewrite Hc.
    unfold final_attempt, buffered_attempt. rewrite Ha. case_decide; by intros [= <- _]. }
  unfold ServeHTTP in Hs. rewrite Hm, Hmeth in Hs. cbn [negb] in Hs.
  destruct (breakers !! r_Backend route) as [b|] eqn:Hb; [|by apply Hpanic in Hs].
  specialize (Hadm b eq_refl). destruct (ac_Allow b (en_start env)) as [[ok b1] e]. simpl in Hadm.
  subst ok. cbn [negb] in Hs. apply bind_Some in Hs as ([ex s1] & Hs1%Hpanic & Hs). subst ex.
  apply bind_Some in Hs as (b2 & _ & Hs). by apply bind_Some in Hs as ([b3 e3] & _ & [= <- _]).
Qed.

(** What a request sends to a backend, and when. *)
Lemma ServeHTTP_forwards (rt : Router) (m : bool) (breakers : gmap string B) (env : ServeEnv)
    (req : Request) (client : Client) (exit : Exit) (s : Serving B) :
  ServeHTTP rt m breakers env req client = Some (exit, s) →
  ∀ fr, fr ∈ sv_forwarded s → ∃ route, matchRoute rt (rq_Path req) = Some route ∧
     method_allowed rt route (rq_Method req) = true ∧
     (∀ b, breakers !! r_Backend route = Some b → (ac_Allow b (en_start env)).1.1 = true) ∧
     fr = (rewrite_request route req, route_Timeout route).
Proof.
  intros Hs fr Hin. unfold ServeHTTP in Hs.
  destruct (matchRoute rt (rq_Path req)) as [route|] eqn:Hm.
  2: { injection Hs as _ <-. by apply elem_of_nil in Hin. }
  destruct (method_allowed rt route (rq_Method req)) eqn:Hmeth; cbn [negb] in Hs.
  2: { injection Hs as _ <-. by apply elem_of_nil in Hin. }
  exists route. split; [done |]. split; [done |].
  assert (∀ st ex s1, sv_forwarded st = [] → serve_admitted rt m route env req st = Some (ex, s1) →
    fr ∈ sv_forwarded s1 → fr = (rewrite_request route req, route_Timeout route)) as Hfw.
  { intros st ex s1 Hst Hs1 Hin1.
    eapply (serve_admitted_forwards (λ fr, fr = (rewrite_request route req, route_Timeout route)))
      in Hs1; [|done | by rewrite Hst].
    rewrite Forall_forall in Hs1. by apply Hs1. }
  destruct (breakers !! r_Backend route) as [b|] eqn:Hb; [|split; [done | by eapply Hfw; [| exact Hs |]]].
  destruct (ac_Allow b (en_start env)) as [[r b1] e] eqn:Ha. destruct r; cbn [negb] in Hs.
  - apply bind_Some in Hs as ([ex s1] & Hs1 & Hs). apply bind_Some in Hs as (b2 & Hb2 & Hs).
    apply bind_Some in Hs as ([b3 e3] & Hr & [= _ <-]).
    split; [intros b' [= <-]; by rewrite Ha | by eapply Hfw; [| exact Hs1 |]].
  - injection Hs as _ <-. by apply elem_of_nil in Hin.
Qed.

(** Only admitted requests reach a backend: what is forwarded is the request
    rewritten by the matching route, with the route's timeout, and only if the
    route allows the method and its breaker, if any, lets the request pass. The
    others are answered without touching the backend: no route 404, a method
    not allowed 405, an open circuit with the route's fallback or 503, the
    breaker left as the refusal left it. *)
Theorem only_admitted_requests_are_forwarded (rt : Router) (m : bool) (breakers : gmap string B)
    (env : ServeEnv) (req : Request) (exit : Exit) (s : Serving B) :
  ServeHTTP rt m breakers env req new_client = Some (exit, s) →
  let allowed b := (ac_Allow b (en_start env)).1.1 in
  let c := rr_client (sv_recorder s) in
  (∀ fr, fr ∈ sv_forwarded s → ∃ route, matchRoute rt (rq_Path req) = Some route ∧
     method_allowed rt route (rq_Method req) = true ∧
     (∀ b, breakers !! r_Backend route = Some b → allowed b = true) ∧
     fr = (rewrite_request route req, route_Timeout route)) ∧
  (matchRoute rt (rq_Path req) = None →
     c = json_answer req 404 RouteNotFound "no matching route") ∧
  ∀ route, matchRoute rt (rq_Path req) = Some route →
    (method_allowed rt route (rq_Method req) = false →
       c = json_answer req 405 MethodNotAllowed
         ("method " +:+ rq_Method req +:+ " not allowed for " +:+ r_PathPrefix route)) ∧
    ∀ b, method_allowed rt route (rq_Method req) = true →
      breakers !! r_Backend route = Some b → allowed b = false →
      sv_breaker s = Some (ac_Allow b (en_start env)).1.2 ∧
      (r_FallbackStatus route = 0 →
         c = json_answer req 503 CircuitOpen "circuit breaker open") ∧
      (r_FallbackStatus route ≠ 0 → informational (r_FallbackStatus route) = false →
         (fst <$> sent_status (cl_calls c)) = Some (r_FallbackStatus route) ∧
         calls_body (cl_calls c) =
           if decide (r_FallbackBody route = "") then "" else r_FallbackBody route +:+ newline).
Proof.
  intros Hs allowed c. split; [by eapply ServeHTTP_forwards |]. subst c. unfold ServeHTTP in Hs.
  destruct (matchRoute rt (rq_Path req)) as [route|] eqn:Hm.
  2: { injection Hs as _ <-. split; [intros; by eapply write_json_answer | done]. }
  destruct (method_allowed rt route (rq_Method req)) eqn:Hmeth; cbn [negb] in Hs.
  2: { injection Hs as _ <-. split; [done |]. intros r [= <-]. split; [|congruence].
       intros _. by eapply write_json_answer. }
  split; [done |]. intros r [= <-]. split; [congruence |]. intros b _ Hb Hno.
  subst allowed. rewrite Hb in Hs. simpl in Hno. destruct (ac_Allow b (en_start env)) as [[ok b1] e] eqn:Ha.
  simpl in Hno. subst ok. cbn [negb] in Hs. injection Hs as _ <-.
  split; [done |]. unfold serve_rejected, rejected_answer. split; intros Hf.
  - destruct (decide (r_FallbackStatus route ≠ 0)) as [Hn|_]; [done |].
    pose (rr := mkRecorder new_client StatusOK false).
    exact (write_json_answer req 503 CircuitOpen "circuit breaker open" (en_start env) rr
             (log_events e (mkServing rr (Some b1) [] [] [])) eq_refl eq_refl).
  - intros Hi. destruct (decide (r_FallbackStatus route ≠ 0)) as [_|Hn]; [|by destruct Hn].
    unfold informational in Hi. apply bool_decide_eq_false in Hi.
    destruct (decide (r_FallbackBody route = "")) as [He|Hne];
      [rewrite (decide_False (P := r_FallbackBody route ≠ "")) by tauto
      |rewrite (decide_True (P := r_FallbackBody route ≠ "")) by done];
      cbn; (rewrite decide_False by done); (split; [done |]); by rewrite ?string_app_nil_r.
Qed.
End laws.

(** A router built by [New] resolves all its routes. *)
Lemma NewRouter_all_resolve `{SortSlice, ConfigLib, GoFmt} routes rt :
  NoDup (r_PathPrefix <$> routes) → NewRouter routes = Ok rt → resolves rt.
Proof.
  intros Hnd Hn. assert (NoDup (r_PathPrefix <$> sort_routes routes)) as Hnds
    by (by rewrite sort_routes_perm).
  unfold NewRouter in Hn. destruct (build_proxies _ _) as [[ps ks]|] eqn:Hb; [|done].
  injection Hn as <-. destruct (build_proxies_Ok _ _ _ Hnds Hb) as (_ & _ & Hall & _); [done |].
  intros r Hin. rewrite Forall_forall in Hall. destruct (Hall r Hin) as (u & px & _ & Hk & Hp).
  by exists (backendKey u), px.
Qed.

(** ** The back-offs *)

Lemma backoff_small n : 1 ≤ n ≤ 37 → backoff n = 100 * Millisecond * 2 ^ (n - 1).
Proof.
  intros Hn. assert (0 < 2 ^ (n - 1) ≤ 2 ^ 36)
    by (split; [apply Z.pow_pos_nonneg | apply Z.pow_le_mono_r]; lia).
  change (2 ^ 36) with 68719476736 in *.
  unfold backoff, Millisecond. rewrite (wrap64_id (2 ^ _)), (wrap64_id (100 * _)), wrap64_id;
    int_solve.
Qed.

(** The back-offs double from 100ms: as long as at most 37 retries are made,
    all the sleeps of a request add up to (2^k - 1) times 100ms and none is
    negative. With 38 retries the 64-bit product has overflowed and the sleep is
    negative, which is no sleep at all. *)
Theorem backoffs_double (k : nat) :
  ((k ≤ 37)%nat →
     foldr Z.add 0 (backoff <$> seqZ 1 (Z.of_nat k)) = (2 ^ Z.of_nat k - 1) * (100 * Millisecond) ∧
     Forall (λ d, 100 * Millisecond ≤ d) (backoff <$> seqZ 1 (Z.of_nat k))) ∧
  backoff 38 < 0.
Proof.
  split; [|by vm_compute]. induction k as [|k IH]; intros Hk; [done |].
  destruct IH as [Hsum Hall]; [lia |].
  replace (Z.of_nat (S k)) with (Z.of_nat k + 1) by lia.
  assert (∀ n, seqZ n 1 = [n]) as Hone by (intros n; apply (f_equal (λ z, [z])); lia).
  rewrite seqZ_app, Hone, fmap_app, fmap_cons, fmap_nil by lia.
  pose proof (backoff_small (1 + Z.of_nat k)) as Hb.
  replace (1 + Z.of_nat k - 1) with (Z.of_nat k) in Hb by lia. specialize (Hb ltac:(lia)).
  assert (0 < 2 ^ Z.of_nat k) by (apply Z.pow_pos_nonneg; lia). split.
  - rewrite foldr_app. simpl.
    assert (∀ l z, foldr Z.add z l = foldr Z.add 0 l + z) as ->
      by (clear; induction l as [|x l IH]; intros z; simpl; [lia | rewrite IH; lia]).
    rewrite Hsum, Hb, Z.pow_add_r by lia. lia.
  - apply Forall_app. split; [done |]. repeat constructor. rewrite Hb.
    unfold Millisecond. lia.
Qed.

(** ** Witnesses *)

Definition retry_route : RouteConfig := demo_route <| r_RetryAttempts := 1 |>.

Definition retry_router : Router :=
  let s := merge_sorted in let l := demo_lib (empty_config []) in let f := demo_fmt in
  match NewRouter [retry_route] with Ok rt => rt | Err _ => mkRouter [] ∅ ∅ ∅ end.

(** A backend that answers 503 at once and 200 on the second attempt. *)
Definition retry_env : ServeEnv := mkServeEnv 0
  [mkAttempt false 1 [(OpWriteHeader 503, 2); (OpWrite "busy", 2)] Finished 3;
   mkAttempt false 4 [(OpWriteHeader 200, 5); (OpWrite "ok", 5)] Finished 6] 7.

Definition demo_request : Request := new_request "GET" "/api/users" ∅ "10.0.0.1:1234".

Definition demo_breakers : gmap string CompositeBreaker :=
  {[ "http://users:3000" := demo_composite ]}.

Lemma retry_router_resolves : resolves retry_router.
Proof.
  apply (@NewRouter_all_resolve merge_sorted (demo_lib (empty_config [])) demo_fmt [retry_route]);
    [by apply (bool_decide_unpack _) | by vm_compute].
Qed.

Lemma demo_breakers_ok : map_Forall (λ _, ac_ok) demo_breakers.
Proof.
  apply map_Forall_singleton. apply (used_accounts _ 0), used_new, demo_cfg_ok.
Qed.

Lemma ServeHTTP_balances_witness :
  ∃ exit s, ServeHTTP retry_router true demo_breakers retry_env demo_request new_client =
      Some (exit, s) ∧
    (∀ b', sv_breaker s = Some b' → slots b' = 0) ∧ length (sv_forwarded s) = 2%nat.
Proof.
  destruct (ServeHTTP_balances retry_router true demo_breakers retry_env demo_request new_client)
    as (exit & s & Hs & Hb & _).
  - apply retry_router_resolves.
  - apply demo_breakers_ok.
  - intros r Hm. vm_compute in Hm. injection Hm as <-. vm_compute. tauto.
  - exists exit, s. split; [done |]. split.
    + intros b' Hb'. destruct (Hb b' Hb') as (r & b & Hr & Hl & _ & Hk & _).
      vm_compute in Hr. injection Hr as <-. vm_compute in Hl. injection Hl as <-. exact Hk.
    + vm_compute in Hs. by injection Hs as <- <-.
Defined.

Definition demo_serving : Serving CompositeBreaker :=
  mkServing (mkRecorder new_client StatusOK false) (Some demo_composite) [] [] [].

Lemma retry_policy_witness :
  ∃ s', serve_admitted retry_router true retry_route retry_env demo_request demo_serving =
      Some (Returned, s') ∧
    sv_sleeps s' = [100 * Millisecond] ∧ body_sent (sv_recorder s') = "ok" ∧
    ∃ k a, loop_result retry_route (rewrite_request retry_route demo_request) 1
      (en_attempts retry_env) demo_serving s' k a.
Proof.
  destruct (serve_admitted retry_router true retry_route retry_env demo_request demo_serving)
    as [[ex s']|] eqn:Hs; [|by vm_compute in Hs].
  pose proof Hs as Hv. vm_compute in Hv. injection Hv as Hex Hs'. subst ex.
  exists s'. split; [done |]. split; [by rewrite <-Hs' |]. split; [by rewrite <-Hs' |].
  destruct (retry_policy retry_router true retry_route retry_env demo_request new_client
    (Some demo_composite) [] s') as (k & a & Hr & _);
    [by apply (bool_decide_unpack _) | exact Hs |].
  by exists k, a.
Defined.

(** A backend whose bulkhead is full: the request is refused with 503. *)
Definition full_breakers : gmap string CompositeBreaker :=
  {[ "http://users:3000" := (composite_Allow demo_composite 0).1.2 ]}.

Lemma only_admitted_requests_are_forwarded_witness :
  ∃ s, ServeHTTP retry_router true full_breakers retry_env demo_request new_client =
      Some (Returned, s) ∧
    sv_forwarded s = [] ∧
    rr_client (sv_recorder s) = json_answer demo_request 503 CircuitOpen "circuit breaker open".
Proof.
  destruct (ServeHTTP retry_router true full_breakers retry_env demo_request new_client)
    as [[ex s]|] eqn:Hs; [|by vm_compute in Hs].
  pose proof Hs as Hv. vm_compute in Hv. injection Hv as Hex Hs'. subst ex.
  exists s. split; [done |].
  destruct (only_admitted_requests_are_forwarded retry_router true full_breakers retry_env
    demo_request Returned s Hs) as (Hf & _ & Hr). split; [by rewrite <-Hs' |].
  destruct (Hr retry_route) as [_ Hb]; [by vm_compute |].
  destruct (Hb (composite_Allow demo_composite 0).1.2) as (_ & Hj & _); [by vm_compute.. |].
  by apply Hj.
Defined.
