(* ===== verification/Logging.v ===== *)
(** * Request logging (internal/middleware/logging.go)

    [Logging] wraps the client's writer twice, to note the status and to keep the
    beginning of the body, hands the request on, and logs one entry when the
    handler has returned.  The underlying writer is any [ResponseWriter], the
    pooled capture buffer any [BodyCapture].  Redaction is in [Redact]. *)

From S2P Require Import Prelude GoStrings Http Redact Middleware Writers.

Open Scope Z_scope.

(** ** Levels *)

(** [slog.Level] *)
Abbreviation Level := Z (only parsing).

Definition LevelDebug : Level := -4.
Definition LevelInfo : Level := 0.
Definition LevelWarn : Level := 4.
Definition LevelError : Level := 8.

Definition LogLevelNone : Level := LevelError + 100.

(** [strings.ToLower(s)] on ASCII; no letter outside ASCII has its lower case among
    the letters of the words this file looks for. *)
Fixpoint ToLower (s : string) : string :=
  match s with "" => "" | String c r => String (lower_ascii c) (ToLower r) end.

Definition ParseLogLevel (level : string) : Level :=
  let level := ToLower level in
  if decide (level = "debug") then LevelDebug
  else if decide (level = "warn") then LevelWarn
  else if decide (level = "error") then LevelError
  else if decide (level = "none") then LogLevelNone
  else LevelInfo.

(** [shouldLogBody(contentType)] *)
Definition shouldLogBody (contentType : string) : bool :=
  if decide (contentType = "") then true
  else
    let ct := ToLower contentType in
    Contains ct "json" || HasPrefix ct "text/" || Contains ct "xml" || Contains ct "form-urlencoded".

(** ** Capturing bodies *)

Record BodyCapture := mkCapture { bc_buf : string; bc_maxBytes : Z; bc_contentType : string }.

#[export] Instance BodyCapture_eta : Eta BodyCapture := λ b,
  mkCapture (bc_buf b) (bc_maxBytes b) (bc_contentType b).

(** [bc.Reset()] keeps nothing of the response captured before. *)
Definition capture_Reset (bc : BodyCapture) : BodyCapture := mkCapture "" 0 "".

Definition capture_Write (p : string) (bc : BodyCapture) : BodyCapture :=
  let remaining := bc_maxBytes bc - Z.of_nat (len (bc_buf bc)) in
  if decide (remaining ≤ 0) then bc
  else
    bc <| bc_buf := bc_buf bc +:+
            (if decide (remaining < Z.of_nat (len p)) then stake (Z.to_nat remaining) p else p) |>.

(** [captureRequestBody(r, maxBytes)]: what is logged, and the request with a body
    that replays what the tee kept and then reads on; a [LimitReader] of a
    limit that is not positive is empty. *)
Definition captureRequestBody (r : Request) (maxBytes : Z) : string * Request :=
  let body := default "" (rq_Body r) in
  let limit := wrap64 (maxBytes + 1) in
  let captured := stake (Z.to_nat limit) body in
  let r' := r <| rq_Body := Some (captured +:+ sdrop (len captured) body) |> in
  let s :=
    if decide (maxBytes < Z.of_nat (len captured)) then
      stake (Z.to_nat maxBytes) captured +:+ "...[truncated]"
    else captured in
  (redactSensitive s, r').

(** ** The wrappers *)

Record StatusRecorder (W : Type) := mkStatusRecorder { sr_ResponseWriter : W; sr_statusCode : Z }.
Arguments mkStatusRecorder {W}.
Arguments sr_ResponseWriter {W}.
Arguments sr_statusCode {W}.

Record BodyRecorder (W : Type) := mkBodyRecorder {
  br_ResponseWriter : W; br_capture : BodyCapture; br_headerWritten : bool
}.
Arguments mkBodyRecorder {W}.
Arguments br_ResponseWriter {W}.
Arguments br_capture {W}.
Arguments br_headerWritten {W}.

Section Wrappers.
  Context {W : Type} `{ResponseWriter W}.

Definition status_WriteHeader (code : Z) (t : Time) (sr : StatusRecorder W) : StatusRecorder W :=
  mkStatusRecorder (rw_WriteHeader code t (sr_ResponseWriter sr)) code.

#[export] Instance status_writer : ResponseWriter (StatusRecorder W) := {
  rw_header_of sr := rw_header_of (sr_ResponseWriter sr);
  rw_Header upd sr := mkStatusRecorder (rw_Header upd (sr_ResponseWriter sr)) (sr_statusCode sr);
  rw_WriteHeader := status_WriteHeader;
  rw_Write b t sr := mkStatusRecorder (rw_Write b t (sr_ResponseWriter sr)) (sr_statusCode sr)
}.

(** The content type is that of the header at the first call that commits it. *)
Definition note_content_type (br : BodyRecorder W) : BodyRecorder W :=
  if br_headerWritten br then br
  else
    mkBodyRecorder (br_ResponseWriter br)
      ((br_capture br) <| bc_contentType :=
         header_Get "Content-Type" (rw_header_of (br_ResponseWriter br)) |>) true.

Definition body_WriteHeader (code : Z) (t : Time) (br : BodyRecorder W) : BodyRecorder W :=
  let br := note_content_type br in
  mkBodyRecorder (rw_WriteHeader code t (br_ResponseWriter br)) (br_capture br) (br_headerWritten br).

Definition body_Write (b : string) (t : Time) (br : BodyRecorder W) : BodyRecorder W :=
  let br := note_content_type br in
  mkBodyRecorder (rw_Write b t (br_ResponseWriter br)) (capture_Write b (br_capture br))
    (br_headerWritten br).

#[export] Instance body_writer : ResponseWriter (BodyRecorder W) := {
  rw_header_of br := rw_header_of (br_ResponseWriter br);
  rw_Header upd br :=
    mkBodyRecorder (rw_Header upd (br_ResponseWriter br)) (br_capture br) (br_headerWritten br);
  rw_WriteHeader := body_WriteHeader;
  rw_Write := body_Write
}.
End Wrappers.

(** ** The middleware *)

(** [LoggingConfig] *)
Record LoggingOptions := mkLoggingOptions { lc_BodyLogging : bool; lc_MaxBodyLogBytes : Z }.

(** The attributes of the log call; [None] is an absent one. *)
Record LogEntry := mkEntry {
  le_level : Level; le_method : string; le_path : string; le_status : Z; le_latency_ms : Z;
  le_client_ip : string; le_request_id : string;
  le_request_body : option string; le_response_body : option string
}.

Record Logged (S W : Type) := mkLogged {
  lg_writer : W; lg_run : HandlerRun S; lg_entry : option LogEntry
}.
Arguments mkLogged {S W}.
Arguments lg_writer {S W}.
Arguments lg_run {S W}.
Arguments lg_entry {S W}.

Definition logs_body (bodyConfig : option LoggingOptions) : bool :=
  match bodyConfig with Some c => lc_BodyLogging c | None => false end.

Definition max_body (bodyConfig : option LoggingOptions) : Z :=
  match bodyConfig with
  | Some c => if decide (0 < lc_MaxBodyLogBytes c) then lc_MaxBodyLogBytes c else 4096
  | None => 4096
  end.

Definition nonempty (s : string) : option string := if decide (s = "") then None else Some s.

(** [Logging(logger, routeLogLevel, bodyConfig)(next).ServeHTTP(w, r)]; [start] and
    [stop] are the two readings of the clock.  A handler that panics takes the
    logging with it. *)
Definition Logging {S W} `{ResponseWriter W} (routeLogLevel : option (string → Level))
    (bodyConfig : option LoggingOptions) (start stop : Time) (pooled : BodyCapture)
    (next : Handler S) (s : S) (r : Request) (w : W) : Logged S W :=
  let level := default (λ _, LevelInfo) routeLogLevel (rq_Path r) in
  if decide (level = LogLevelNone) then
    let h := next s r (rw_header_of w) in mkLogged (run_ops (h_ops h) w) h None
  else
    let '(reqBody, r') :=
      if logs_body bodyConfig && shouldLogBody (header_Get "Content-Type" (rq_Header r)) &&
         negb (is_nil (rq_Body r))
      then captureRequestBody r (max_body bodyConfig) else ("", r) in
    let h := next s r' (rw_header_of w) in
    let '(w', status, respCapture) :=
      if logs_body bodyConfig && shouldLogBody "" then
        let capture := (capture_Reset pooled) <| bc_maxBytes := max_body bodyConfig |> in
        let sr := run_ops (h_ops h) (mkStatusRecorder (mkBodyRecorder w capture false) StatusOK) in
        (br_ResponseWriter (sr_ResponseWriter sr), sr_statusCode sr,
         Some (br_capture (sr_ResponseWriter sr)))
      else
        let sr := run_ops (h_ops h) (mkStatusRecorder w StatusOK) in
        (sr_ResponseWriter sr, sr_statusCode sr, None) in
    mkLogged w' h
      match h_exit h with
      | Panicked => None
      | Returned =>
          Some (mkEntry level (rq_Method r') (h_path h) status
                  (Z.quot (time_sub stop start) 1000000) (rq_RemoteAddr r') (GetRequestID r')
                  (nonempty reqBody)
                  (bc ← respCapture;
                   if shouldLogBody (bc_contentType bc) then redactSensitive <$> nonempty (bc_buf bc)
                   else None))
      end.

(** ** Specification

    What the log says of a response, told from the handler's calls. *)

Fixpoint last_status (st : Z) (ops : list (WriterOp * Time)) : Z :=
  match ops with
  | [] => st
  | (OpWriteHeader code, _) :: ops => last_status code ops
  | _ :: ops => last_status st ops
  end.

(** The content type in the header when a response is committed. *)
Fixpoint committed_type {W} `{ResponseWriter W} (ops : list (WriterOp * Time)) (w : W) : string :=
  match ops with
  | [] => ""
  | (OpHeader upd, _) :: ops => committed_type ops (rw_Header upd w)
  | _ :: _ => header_Get "Content-Type" (rw_header_of w)
  end.

(** The part of a request's body that is logged, before redaction. *)
Definition excerpt (max : Z) (body : string) : string :=
  if decide (Z.of_nat (len body) ≤ max) then body
  else stake (Z.to_nat max) body +:+ "...[truncated]".

Definition expected_entry {S W} `{ResponseWriter W} (level : Level)
    (bodyConfig : option LoggingOptions) (latency : Duration) (h : HandlerRun S) (r : Request) (w : W)
    : LogEntry :=
  let max := max_body bodyConfig in
  mkEntry level (rq_Method r) (h_path h) (last_status StatusOK (h_ops h)) (Z.quot latency 1000000)
    (rq_RemoteAddr r) (GetRequestID r)
    (body ← rq_Body r;
     if logs_body bodyConfig && shouldLogBody (header_Get "Content-Type" (rq_Header r))
     then nonempty (redactSensitive (excerpt max body)) else None)
    (if logs_body bodyConfig && shouldLogBody (committed_type (h_ops h) w)
     then redactSensitive <$> nonempty (stake (Z.to_nat max) (ops_body (h_ops h))) else None).

(** A response whose final status is set at most once and before its body -- and
    explicitly, if an informational one came first. *)
Inductive Phase := Fresh | Informed | Final.

Fixpoint settled (p : Phase) (ops : list (WriterOp * Time)) : bool :=
  match ops with
  | [] => true
  | (OpHeader _, _) :: ops => settled p ops
  | (OpWriteHeader code, _) :: ops =>
      match p with
      | Final => false
      | _ => settled (if informational code then Informed else Final) ops
      end
  | (OpWrite _, _) :: ops => match p with Informed => false | _ => settled Final ops end
  end.

(** ** Lemmas *)

(** Appending within a limit, in two steps. *)
Lemma stake_app_limit n s t :
  stake n s +:+ stake (n - len (stake n s)) t = stake n (s +:+ t).
Proof.
  revert n. induction s as [|c s IH]; intros [|n]; [done | done | done |].
  simpl. rewrite !string_cons_app. simpl. by rewrite <-IH.
Qed.

Lemma client_run_app ops (c : Client) :
  ∃ cs, cl_calls (run_ops ops c) = cl_calls c ++ cs.
Proof.
  revert c. induction ops as [|[[u|code|b] t] ops IH]; intros c; simpl;
    [by exists []; rewrite app_nil_r | ..];
    match goal with |- context [run_ops ops ?c'] => destruct (IH c') as [cs ->] end;
    eexists; simpl; by rewrite <-?app_assoc.
Qed.

Section WrapperLemmas.
  Context {W : Type} `{ResponseWriter W}.

Lemma status_run ops (w : W) st :
  run_ops ops (mkStatusRecorder w st) = mkStatusRecorder (run_ops ops w) (last_status st ops).
Proof.
  revert w st. induction ops as [|[[u|code|b] t] ops IH]; intros w st; [done | ..]; simpl; apply IH.
Qed.

Lemma body_run_writer ops (br : BodyRecorder W) :
  br_ResponseWriter (run_ops ops br) = run_ops ops (br_ResponseWriter br).
Proof.
  revert br. induction ops as [|[op t] ops IH]; intros br; [done |]. simpl. rewrite IH. f_equal.
  destruct op; simpl; unfold body_WriteHeader, body_Write, note_content_type;
    by destruct (br_headerWritten br).
Qed.

Lemma body_run_written ops (br : BodyRecorder W) :
  br_headerWritten br = true →
  bc_contentType (br_capture (run_ops ops br)) = bc_contentType (br_capture br).
Proof.
  revert br. induction ops as [|[[u|code|b] t] ops IH]; intros br Hb; [done | ..]; simpl;
    unfold body_WriteHeader, body_Write, note_content_type; rewrite ?Hb, IH by done; [done..|].
  unfold capture_Write. simpl. by case_decide.
Qed.

Lemma body_run_type ops (br : BodyRecorder W) :
  br_headerWritten br = false → bc_contentType (br_capture br) = "" →
  bc_contentType (br_capture (run_ops ops br)) = committed_type ops (br_ResponseWriter br).
Proof.
  revert br. induction ops as [|[[u|code|b] t] ops IH]; intros br Hb Ht; [done | ..]; simpl.
  - by rewrite IH.
  - rewrite body_run_written; unfold body_WriteHeader, note_content_type; by rewrite Hb.
  - rewrite body_run_written; unfold body_Write, note_content_type; rewrite Hb; [|done].
    simpl. unfold capture_Write. by case_decide.
Qed.

(** The capture buffer holds the beginning of the body. *)
Lemma capture_Write_buf max s p bc :
  bc_maxBytes bc = max → 0 ≤ max → bc_buf bc = stake (Z.to_nat max) s →
  bc_maxBytes (capture_Write p bc) = max ∧
  bc_buf (capture_Write p bc) = stake (Z.to_nat max) (s +:+ p).
Proof.
  intros Hm H0 Hb. rewrite <-stake_app_limit, <-Hb. unfold capture_Write. rewrite Hm.
  assert (len (bc_buf bc) ≤ Z.to_nat max)%nat by (rewrite Hb, len_stake; lia).
  case_decide as Hr.
  - split; [done |]. replace (_ - _)%nat with 0%nat by lia. by rewrite string_app_nil_r.
  - split; [done |]. simpl. f_equal. replace (Z.to_nat (max - _)) with
      (Z.to_nat max - len (bc_buf bc))%nat by lia.
    case_decide; [done |]. symmetry. apply stake_all. lia.
Qed.

Lemma body_run_buf max ops s (br : BodyRecorder W) :
  bc_maxBytes (br_capture br) = max → 0 ≤ max →
  bc_buf (br_capture br) = stake (Z.to_nat max) s →
  bc_buf (br_capture (run_ops ops br)) = stake (Z.to_nat max) (s +:+ ops_body ops).
Proof.
  intros Hm H0. revert s br Hm. induction ops as [|[[u|code|b] t] ops IH]; intros s br Hm Hb; simpl.
  - by rewrite string_app_nil_r.
  - by apply IH.
  - apply IH; unfold body_WriteHeader, note_content_type; by destruct (br_headerWritten br).
  - rewrite string_app_assoc. unfold body_Write. apply IH; simpl;
      (eapply capture_Write_buf; [|done|]; unfold note_content_type;
       by destruct (br_headerWritten br)).
Qed.
End WrapperLemmas.

Lemma captureRequestBody_spec r b max :
  rq_Body r = Some b → 0 < max < int64_max →
  captureRequestBody r max = (redactSensitive (excerpt max b), r).
Proof.
  intros Hb Hmax. unfold captureRequestBody. rewrite Hb. simpl.
  rewrite wrap64_id by int_solve. f_equal.
  - f_equal. unfold excerpt. rewrite len_stake.
    destruct (decide (max < _)), (decide (_ ≤ max)); try lia.
    + f_equal. rewrite stake_stake. f_equal. lia.
    + apply stake_all. lia.
  - rewrite stake_sdrop. destruct r; simpl in *; by subst.
Qed.

(** Whatever the limits, the handler gets the request as it came. *)
Lemma captureRequestBody_request r b max :
  rq_Body r = Some b → (captureRequestBody r max).2 = r.
Proof.
  intros Hb. unfold captureRequestBody. rewrite Hb. simpl. rewrite stake_sdrop.
  destruct r; simpl in *; by subst.
Qed.

Lemma Logging_run {S W} `{ResponseWriter W} levels cfg start stop pooled (next : Handler S) s r (w : W) :
  lg_run (Logging levels cfg start stop pooled next s r w) = next s r (rw_header_of w).
Proof.
  unfold Logging. case_decide; [done |].
  destruct (logs_body cfg && _ && negb (is_nil (rq_Body r))) eqn:Hl; [|by destruct (logs_body cfg && shouldLogBody "")].
  apply andb_true_iff in Hl as [_ Hl]. destruct (rq_Body r) as [b|] eqn:Hb; [|done].
  pose proof (captureRequestBody_request r b (max_body cfg) Hb) as Hr.
  destruct (captureRequestBody r (max_body cfg)) as [text r']. simpl in Hr. subst r'. by destruct (logs_body cfg && shouldLogBody "").
Qed.

(** ** Properties *)

(** C25. Logging is transparent and says what happened: whatever writer it wraps and
    whatever an earlier request left in the pooled buffer, the handler is given
    the request unchanged -- body included, although it was read for the log --
    and the client gets exactly the handler's calls; the one entry, written
    unless the route's level is [none] or the handler panics, has the last status
    set, and bodies bounded by the limit and redacted. *)
Theorem Logging_spec {S W} `{ResponseWriter W} (routeLogLevel : option (string → Level))
    (bodyConfig : option LoggingOptions) (start stop : Time) (pooled : BodyCapture)
    (next : Handler S) (s : S) (r : Request) (w : W) :
  max_body bodyConfig < int64_max →
  let level := default (λ _, LevelInfo) routeLogLevel (rq_Path r) in
  let h := next s r (rw_header_of w) in
  Logging routeLogLevel bodyConfig start stop pooled next s r w =
  mkLogged (run_ops (h_ops h) w) h
    (if decide (level = LogLevelNone ∨ h_exit h = Panicked) then None
     else Some (expected_entry level bodyConfig (time_sub stop start) h r w)).
Proof.
  intros Hmax level h. unfold Logging. fold level. destruct (decide (level = LogLevelNone)) as [Hl|Hl].
  { rewrite decide_True by (by left). done. }
  assert (0 < max_body bodyConfig) as H0.
  { unfold max_body. destruct bodyConfig; [case_decide|]; lia. }
  unfold expected_entry. set (max := max_body bodyConfig) in *.
  set (wants := logs_body bodyConfig && shouldLogBody (header_Get "Content-Type" (rq_Header r))).
  assert ((if wants && negb (is_nil (rq_Body r)) then captureRequestBody r max else ("", r)) =
    (default "" (body ← rq_Body r; if wants then Some (redactSensitive (excerpt max body)) else None),
     r)) as ->.
  { destruct (rq_Body r) as [b|] eqn:Hb; [|by rewrite andb_false_r]. rewrite andb_true_r.
    destruct wants; [|done]. by apply captureRequestBody_spec. }
  assert (nonempty (default "" (body ← rq_Body r;
      if wants then Some (redactSensitive (excerpt max body)) else None)) =
    (body ← rq_Body r; if wants then nonempty (redactSensitive (excerpt max body)) else None)) as Hreq
    by (destruct (rq_Body r), wants; done).
  fold h. destruct (logs_body bodyConfig) eqn:Hb; simpl.
  - rewrite status_run. cbn [sr_ResponseWriter sr_statusCode]. rewrite body_run_writer.
    cbn [br_ResponseWriter]. f_equal.
    destruct (h_exit h); [|by rewrite decide_True by (by right)].
    rewrite decide_False by by intros []. do 2 f_equal; [done |].
    rewrite body_run_type by done. cbn [br_ResponseWriter].
    rewrite (body_run_buf max _ "") by (done || lia || by destruct (Z.to_nat max)). done.
  - rewrite status_run. cbn [sr_ResponseWriter sr_statusCode]. f_equal.
    destruct (h_exit h); [|by rewrite decide_True by (by right)].
    rewrite decide_False by by intros []. do 2 f_equal. exact Hreq.
Qed.

Lemma settled_last_status ops st : settled Final ops = true → last_status st ops = st.
Proof. induction ops as [|[[u|code|b] t] ops IH]; simpl; [done | exact IH | done | exact IH]. Qed.

Lemma settled_calls p ops st0 (c : Client) :
  settled p ops = true → p ≠ Final → (p = Fresh → st0 = StatusOK) →
  ∃ cs, cl_calls (run_ops ops c) = cl_calls c ++ cs ∧
    ∀ st h, sent_status cs = Some (st, h) → last_status st0 ops = st.
Proof.
  revert p st0 c. induction ops as [|[[u|code|b] t] ops IH]; intros p st0 c Hs Hp H0; simpl in *.
  - exists []. by rewrite app_nil_r.
  - match goal with |- context [run_ops ops ?c'] =>
      by destruct (IH p st0 c') as (cs & -> & Hcs); [..|exists cs] end.
  - unfold informational in Hs, IH. case_bool_decide as Hi; destruct p; try done;
      match goal with |- context [run_ops ops ?c'] =>
        first [destruct (IH Informed code c') as (cs & -> & Hcs); [done..|]
              |destruct (client_run_app ops c') as [cs ->]] end;
      exists (CallWriteHeader code (cl_header c) :: cs); simpl; (rewrite <-app_assoc; split; [done |]);
      [by rewrite decide_True..| |]; rewrite decide_False by done;
      intros ? ? [= <- <-]; by apply settled_last_status.
  - destruct p; [|done..]. rewrite H0 by done.
    match goal with |- context [run_ops ops ?c'] => destruct (client_run_app ops c') as [cs ->] end.
    exists (CallWrite b (cl_header c) :: cs). simpl. rewrite <-app_assoc. split; [done |].
    intros ? ? [= <- <-]. by apply settled_last_status.
Qed.

(** The status in the log is the status the client was sent, informational
    responses or not, for every handler that sets its final status at most once
    and before the body. *)
Theorem logged_status_is_sent (ops : list (WriterOp * Time)) (st : Z) (h : Header) :
  settled Fresh ops = true → sent_status (cl_calls (run_ops ops new_client)) = Some (st, h) →
  sr_statusCode (run_ops ops (mkStatusRecorder new_client StatusOK)) = st.
Proof.
  intros Hs Hst. rewrite status_run. simpl. destruct (settled_calls Fresh ops StatusOK new_client) as (cs & Hcs & Hl); [done..|].
  rewrite Hcs in Hst. by eapply Hl.
Qed.

(** The limit is applied before the redaction: a secret that is cut has lost its
    closing quote, and its beginning is logged. *)
Example truncated_secret_leaks :
  let r := (new_request "POST" "/login" ∅ "10.0.0.1:5000")
             <| rq_Body := Some (dquoted "password" +:+ ":" +:+ dquoted "hunter2hunter2") |> in
  (captureRequestBody r 64).1 = dquoted "password" +:+ ":" +:+ dquoted "***" ∧
  (captureRequestBody r 19).1 =
    dquoted "password" +:+ ":" +:+ String quote "hunter2" +:+ "...[truncated]".
Proof. by vm_compute. Qed.

(** An early informational response has no content type yet, so that of the
    response is not looked at and a binary body is logged. *)
Example informational_defeats_the_filter :
  let final := [(OpHeader (header_Set "Content-Type" "image/png"), 0); (OpWriteHeader 200, 0);
                (OpWrite "PNG", 0)] in
  shouldLogBody (committed_type final new_client) = false ∧
  shouldLogBody (committed_type ((OpWriteHeader 103, 0) :: final) new_client) = true.
Proof. done. Qed.

Example ParseLogLevel_examples :
  ParseLogLevel "DEBUG" = -4 ∧ ParseLogLevel "None" = LogLevelNone ∧ ParseLogLevel "" = LevelInfo ∧
  Forall (λ l, ParseLogLevel l < LogLevelNone) ["debug"; "info"; "warn"; "error"; "verbose"].
Proof. split_and!; [done..|]. by repeat constructor. Qed.

(** ** Witnesses *)

Lemma Logging_spec_witness :
  let next : Handler unit := λ s r _,
    mkRun [(OpWriteHeader 404, 1); (OpWrite (default "" (rq_Body r)), 2)] Returned "/a" (rq_Header r) s in
  let r := (new_request "POST" "/x/a" ∅ "10.0.0.1:5000") <| rq_Body := Some "hello" |> in
  let l := Logging None (Some (mkLoggingOptions true 4)) 1000000 9000000 (mkCapture "secret" 9 "image/png")
             next tt r new_client in
  calls_body (cl_calls (lg_writer l)) = "hello" ∧
  lg_entry l = Some (mkEntry LevelInfo "POST" "/a" 404 8 "10.0.0.1:5000" ""
                       (Some "hell...[truncated]") (Some "hell")).
Proof.
  intros next r l. unfold l.
  rewrite (Logging_spec None (Some (mkLoggingOptions true 4)) 1000000 9000000
             (mkCapture "secret" 9 "image/png") next tt r new_client) by done.
  done.
Defined.

Lemma logged_status_is_sent_witness :
  let ops := [(OpWriteHeader 103, 0); (OpWriteHeader 502, 0); (OpWrite "bad", 0)] in
  sr_statusCode (run_ops ops (mkStatusRecorder new_client StatusOK)) = 502.
Proof. intros ops. by apply (logged_status_is_sent ops 502 ∅). Defined.
