(* ===== verification/LogWriter.v ===== *)
(** * The rotating log file (internal/logging/writer.go)

    The directory of the log file is a map from names to files; what the operating
    system answers (a failing rename, a short write) is an argument of the
    operations, as are the clock's readings -- the civil time of the time zone for
    the name of a backup, whose conversion from an instant is not modelled.  The
    writer's methods run under its mutex; [cleanup] runs beside them, in a
    goroutine of its own. *)

From stdpp Require Import sorting.
From S2P Require Import Prelude GoStrings.

Open Scope Z_scope.

(** ** Names *)

(** [strings.HasSuffix] and [strings.TrimSuffix] *)
Definition HasSuffix (s suffix : string) : bool :=
  bool_decide (len suffix ≤ len s)%nat && bool_decide (sdrop (len s - len suffix) s = suffix).

Definition TrimSuffix (s suffix : string) : string :=
  if HasSuffix s suffix then stake (len s - len suffix) s else s.

(** [filepath.Ext] of a name without slashes: from its last dot. *)
Fixpoint last_dot (s : string) : option string :=
  match s with
  | "" => None
  | String c r =>
      match last_dot r with
      | Some x => Some x
      | None => if Ascii.eqb c "." then Some s else None
      end
  end.

Definition Ext (name : string) : string := default "" (last_dot name).

(** The extension of the backups and the name before it. *)
Definition backup_ext (name : string) : string := if decide (Ext name = "") then ".log" else Ext name.

Definition backup_base (name : string) : string := TrimSuffix name (Ext name).

(** A reading of a calendar and clock. *)
Record Civil := mkCivil { c_year : Z; c_month : Z; c_day : Z; c_hour : Z; c_min : Z; c_sec : Z }.

(** A number below [10 ^ w] in [w] digits. *)
Fixpoint digits (w : nat) (z : Z) : string :=
  match w with
  | O => ""
  | S w => String (ascii_of_nat (48 + Z.to_nat (z / 10 ^ Z.of_nat w))) (digits w (z mod 10 ^ Z.of_nat w))
  end.

(** [Format("20060102-150405")] *)
Definition timestamp (c : Civil) : string :=
  digits 4 (c_year c) +:+ digits 2 (c_month c) +:+ digits 2 (c_day c) +:+ "-" +:+
  digits 2 (c_hour c) +:+ digits 2 (c_min c) +:+ digits 2 (c_sec c).

Definition rotatedName (name : string) (c : Civil) : string :=
  backup_base name +:+ "-" +:+ timestamp c +:+ backup_ext name.

(** ** State *)

Record LogFile := mkLogFile { lf_content : string; lf_mtime : Time }.

Abbreviation Dir := (gmap string LogFile) (only parsing).

(** [rw.file] is never nil once the writer exists, but it may be closed: an open
    one is the file of the writer's name. *)
Record RotatingWriter := mkRotatingWriter {
  rw_open : bool; rw_filePath : string; rw_size : Z;
  rw_maxBytes : Z; rw_maxBackups : Z; rw_maxAgeDays : Z
}.

#[export] Instance RotatingWriter_eta : Eta RotatingWriter := λ rw,
  mkRotatingWriter (rw_open rw) (rw_filePath rw) (rw_size rw) (rw_maxBytes rw) (rw_maxBackups rw)
    (rw_maxAgeDays rw).

Inductive FileError := ErrMkdir | ErrOpen | ErrStat | ErrClosed | ErrWrite.

Inductive OpenOutcome := OpenOk | OpenFails | StatFails.

(** What the operating system does in one call of [Write]. *)
Record FileEnv := mkFileEnv {
  fe_now : Time; fe_civil : Civil;
  fe_renames : bool; fe_open : OpenOutcome;
  fe_accepts : nat                        (** how many bytes are written at most *)
}.

(** ** Operations *)

Definition create_if_missing (name : string) (now : Time) (dir : Dir) : Dir :=
  match dir !! name with Some _ => dir | None => <[name := mkLogFile "" now]> dir end.

Definition file_size (name : string) (dir : Dir) : Z :=
  match dir !! name with Some f => Z.of_nat (len (lf_content f)) | None => 0 end.

(** [rw.openFile()] *)
Definition openFile (o : OpenOutcome) (now : Time) (rw : RotatingWriter) (dir : Dir)
    : option FileError * RotatingWriter * Dir :=
  match o with
  | OpenFails => (Some ErrOpen, rw, dir)
  | StatFails => (Some ErrStat, rw, create_if_missing (rw_filePath rw) now dir)
  | OpenOk =>
      let dir := create_if_missing (rw_filePath rw) now dir in
      (None, rw <| rw_open := true |> <| rw_size := file_size (rw_filePath rw) dir |>, dir)
  end.

(** [NewRotatingWriter(filePath, maxSizeMB, maxBackups, maxAgeDays)] *)
Definition NewRotatingWriter (filePath : string) (maxSizeMB maxBackups maxAgeDays : Z)
    (mkdir : bool) (o : OpenOutcome) (now : Time) (dir : Dir) : result RotatingWriter FileError * Dir :=
  let rw := mkRotatingWriter false filePath 0 (wrap64 (wrap64 (maxSizeMB * 1024) * 1024)) maxBackups
              maxAgeDays in
  if negb mkdir then (Err ErrMkdir, dir)
  else
    match openFile o now rw dir with
    | (Some e, _, dir) => (Err e, dir)
    | (None, rw, dir) => (Ok rw, dir)
    end.

(** [os.Rename(name, name')] when it does not fail; a file of the new name is
    replaced. *)
Definition rename (name name' : string) (dir : Dir) : Dir :=
  match dir !! name with
  | Some f => <[name' := f]> (delete name dir)
  | None => dir
  end.

(** [rw.rotate()]; a failing close or rename is reported on stderr only. *)
Definition rotate (e : FileEnv) (rw : RotatingWriter) (dir : Dir)
    : option FileError * RotatingWriter * Dir :=
  let rw := rw <| rw_open := false |> in
  let dir :=
    if fe_renames e then rename (rw_filePath rw) (rotatedName (rw_filePath rw) (fe_civil e)) dir
    else dir in
  openFile (fe_open e) (fe_now e) rw dir.

(** [rw.file.Write(p)] *)
Definition append_file (e : FileEnv) (p : string) (rw : RotatingWriter) (dir : Dir)
    : Z * option FileError * Dir :=
  if rw_open rw then
    let n := Nat.min (fe_accepts e) (len p) in
    let old := default "" (lf_content <$> dir !! rw_filePath rw) in
    (Z.of_nat n, if decide (n < len p)%nat then Some ErrWrite else None,
     <[rw_filePath rw := mkLogFile (old +:+ stake n p) (fe_now e)]> dir)
  else (0, Some ErrClosed, dir).

(** [rw.Write(p)] *)
Definition log_Write (e : FileEnv) (p : string) (rw : RotatingWriter) (dir : Dir)
    : Z * option FileError * RotatingWriter * Dir :=
  let '(err, rw, dir) :=
    if decide (rw_maxBytes rw < wrap64 (rw_size rw + Z.of_nat (len p))) then rotate e rw dir
    else (None, rw, dir) in
  match err with
  | Some err => (0, Some err, rw, dir)
  | None =>
      let '(n, err, dir) := append_file e p rw dir in
      (n, err, rw <| rw_size := wrap64 (rw_size rw + n) |>, dir)
  end.

Definition log_Close (rw : RotatingWriter) : RotatingWriter := rw <| rw_open := false |>.

(** ** Cleaning up *)

(** The names [cleanup] takes for backups. *)
Definition is_backup (rw : RotatingWriter) (name : string) : bool :=
  HasPrefix name (backup_base (rw_filePath rw) +:+ "-") &&
  HasSuffix name (backup_ext (rw_filePath rw)) && negb (bool_decide (name = rw_filePath rw)).

(** [sort.Strings] of the names that match; the entries of a directory are
    files here. *)
Definition backups (rw : RotatingWriter) (dir : Dir) : list string :=
  merge_sort String.le (filter (λ n, is_backup rw n = true) (elements (dom dir))).

(** What happens to [cleanup]: the directory that is read, the calls that fail,
    and [time.Now().AddDate(0, 0, -maxAgeDays)]. *)
Record CleanupEnv := mkCleanupEnv {
  ce_reads : bool; ce_removes : string → bool; ce_stats : string → bool; ce_cutoff : Time
}.

Definition remove (e : CleanupEnv) (name : string) (dir : Dir) : Dir :=
  if ce_removes e name then delete name dir else dir.

(** The first loop; [None] is the panic of [rotated[0]] on an empty slice. *)
Fixpoint remove_excess (e : CleanupEnv) (maxBackups : Z) (rotated : list string) (dir : Dir)
    : option (list string * Dir) :=
  match rotated with
  | [] => if decide (maxBackups < 0) then None else Some ([], dir)
  | name :: rest =>
      if decide (maxBackups < Z.of_nat (length rotated)) then
        remove_excess e maxBackups rest (remove e name dir)
      else Some (rotated, dir)
  end.

(** The second loop's body. *)
Definition remove_aged (e : CleanupEnv) (dir : Dir) (name : string) : Dir :=
  match dir !! name with
  | Some f =>
      if ce_stats e name && bool_decide (lf_mtime f < ce_cutoff e) then remove e name dir else dir
  | None => dir
  end.

(** [rw.cleanup()] *)
Definition log_cleanup (e : CleanupEnv) (rw : RotatingWriter) (dir : Dir) : option Dir :=
  if negb (ce_reads e) then Some dir
  else
    '(rotated, dir) ← remove_excess e (rw_maxBackups rw) (backups rw dir) dir;
    Some (foldl (remove_aged e) dir rotated).

Example rotatedName_examples :
  rotatedName "gateway.log" (mkCivil 2024 3 7 9 5 0) = "gateway-20240307-090500.log" ∧
  rotatedName "gateway" (mkCivil 2024 12 31 23 59 59) = "gateway-20241231-235959.log".
Proof. by vm_compute. Qed.

(** ** Names of backups sort by time *)

Definition civil_ok (c : Civil) : Prop :=
  0 ≤ c_year c < 10000 ∧ 0 ≤ c_month c < 100 ∧ 0 ≤ c_day c < 100 ∧ 0 ≤ c_hour c < 100 ∧
  0 ≤ c_min c < 100 ∧ 0 ≤ c_sec c < 100.

(** Lexicographic order of the fields. *)
Definition civil_lt (c d : Civil) : Prop :=
  c_year c < c_year d ∨ (c_year c = c_year d ∧
  (c_month c < c_month d ∨ (c_month c = c_month d ∧
  (c_day c < c_day d ∨ (c_day c = c_day d ∧
  (c_hour c < c_hour d ∨ (c_hour c = c_hour d ∧
  (c_min c < c_min d ∨ (c_min c = c_min d ∧ c_sec c < c_sec d))))))))).

(** [String.leb], one character at a time. *)
Lemma string_le_cons c d s t :
  String.le (String c s) (String d t) ↔
  (nat_of_ascii c < nat_of_ascii d)%nat ∨ (c = d ∧ String.le s t).
Proof.
  unfold String.le, String.leb. cbn [String.compare]. unfold Ascii.compare.
  destruct (N.compare_spec (N_of_ascii c) (N_of_ascii d)) as [Heq|Hlt|Hgt].
  - apply (f_equal ascii_of_N) in Heq. rewrite !ascii_N_embedding in Heq. subst.
    split; [by right |]. intros [?|[_ ?]]; [lia | done].
  - split; [|done]. intros _. left. unfold nat_of_ascii. lia.
  - split; [done |]. intros [?|[-> _]]; [unfold nat_of_ascii in *; lia | lia].
Qed.

Lemma string_le_app p s t : String.le (p +:+ s) (p +:+ t) ↔ String.le s t.
Proof.
  induction p as [|c p IH]; [done |]. rewrite !string_cons_app, string_le_cons, IH.
  split; [intros [?|[_ ?]]; [lia | done] | by right].
Qed.

Lemma nat_of_digit z : 0 ≤ z < 10 → nat_of_ascii (ascii_of_nat (48 + Z.to_nat z)) = (48 + Z.to_nat z)%nat.
Proof. intros. apply nat_ascii_embedding. lia. Qed.

Lemma pow10_pos w : 0 < 10 ^ Z.of_nat w.
Proof. apply Z.pow_pos_nonneg; lia. Qed.

(** The leading digit of a number, and the rest. *)
Lemma digit_split w z :
  0 ≤ z < 10 ^ Z.of_nat (S w) →
  0 ≤ z / 10 ^ Z.of_nat w < 10 ∧ 0 ≤ z mod 10 ^ Z.of_nat w < 10 ^ Z.of_nat w.
Proof.
  rewrite Nat2Z.inj_succ, Z.pow_succ_r by lia. intros Hz. pose proof (pow10_pos w).
  split; [|by apply Z.mod_pos_bound]. split; [by apply Z.div_pos; lia |].
  apply Z.div_lt_upper_bound; lia.
Qed.

Lemma div_mod_lt w a b :
  a < b ↔ a / 10 ^ Z.of_nat w < b / 10 ^ Z.of_nat w ∨
          (a / 10 ^ Z.of_nat w = b / 10 ^ Z.of_nat w ∧ a mod 10 ^ Z.of_nat w < b mod 10 ^ Z.of_nat w).
Proof.
  pose proof (pow10_pos w). set (m := 10 ^ Z.of_nat w) in *.
  pose proof (Z.div_mod a m). pose proof (Z.div_mod b m).
  pose proof (Z.mod_pos_bound a m). pose proof (Z.mod_pos_bound b m). nia.
Qed.

Lemma digits_le w a b s t :
  0 ≤ a < 10 ^ Z.of_nat w → 0 ≤ b < 10 ^ Z.of_nat w →
  String.le (digits w a +:+ s) (digits w b +:+ t) ↔ a < b ∨ (a = b ∧ String.le s t).
Proof.
  revert a b. induction w as [|w IH]; intros a b Ha Hb.
  - simpl in *. assert (a = b) as -> by lia. split; [by right | intros [?|[_ ?]]; [lia | done]].
  - apply digit_split in Ha as [Ha Ha']. apply digit_split in Hb as [Hb Hb'].
    cbn [digits]. rewrite !string_cons_app, string_le_cons, IH, !nat_of_digit by done.
    rewrite (div_mod_lt w a b). pose proof (Z.div_mod a (10 ^ Z.of_nat w)) as Ea.
    pose proof (Z.div_mod b (10 ^ Z.of_nat w)) as Eb. pose proof (pow10_pos w).
    split.
    + intros [Hlt|[Heq [Hm|[Hm Hs]]]]; [left; left; lia | |];
        apply (f_equal nat_of_ascii) in Heq; rewrite !nat_of_digit in Heq by done;
        assert (a / 10 ^ Z.of_nat w = b / 10 ^ Z.of_nat w) as Hd by lia; [by left; right |].
      right. split; [|done]. lia.
    + intros [[Hlt|[-> Hm]]|[-> Hs]]; [left; lia | right | right]; (split; [done |]); [by left |].
      by right.
Qed.

Lemma rotatedName_le name c d :
  civil_ok c → civil_ok d →
  String.le (rotatedName name c) (rotatedName name d) ↔ civil_lt c d ∨ c = d.
Proof.
  intros (?&?&?&?&?&?) (?&?&?&?&?&?). unfold rotatedName, timestamp.
  rewrite string_le_app, <-!string_app_assoc, (string_le_app "-").
  rewrite !digits_le, (string_le_app "-"), !digits_le by done.
  unfold civil_lt. destruct c as [y mo da ho mi se], d as [y' mo' da' ho' mi' se']; simpl in *.
  assert (String.le (backup_ext name) (backup_ext name)) by done.
  split.
  - intros Hle. destruct (decide (y = y' ∧ mo = mo' ∧ da = da' ∧ ho = ho' ∧ mi = mi' ∧ se = se'))
      as [(->&->&->&->&->&->)|Hne]; [by right | left; lia].
  - intros [Hlt|[= -> -> -> -> -> ->]]; [lia | tauto].
Qed.

Lemma civil_lt_irrefl c : ¬ civil_lt c c.
Proof. unfold civil_lt. lia. Qed.

Lemma civil_lt_trans c d e : civil_lt c d → civil_lt d e → civil_lt c e.
Proof. unfold civil_lt. lia. Qed.

Lemma rotatedName_inj name c d :
  civil_ok c → civil_ok d → rotatedName name c = rotatedName name d → c = d.
Proof.
  intros Hc Hd Heq.
  assert (String.le (rotatedName name c) (rotatedName name d)) as H1 by by rewrite Heq.
  assert (String.le (rotatedName name d) (rotatedName name c)) as H2 by by rewrite Heq.
  apply rotatedName_le in H1 as [H1| ->]; [|done..]. apply rotatedName_le in H2 as [H2| ->]; [|done..].
  destruct (civil_lt_irrefl c). by eapply civil_lt_trans.
Qed.

(** Backups sort by time: for one log file, the names of two rotations are in the
    order [sort.Strings] gives them exactly when the rotations are, and they are
    equal only for rotations in the same second -- which is why the second of
    these replaces the backup of the first. *)
Theorem backups_sort_by_time (name : string) (c d : Civil) :
  civil_ok c → civil_ok d →
  (String.le (rotatedName name c) (rotatedName name d) ↔ civil_lt c d ∨ c = d) ∧
  (rotatedName name c = rotatedName name d ↔ c = d).
Proof.
  intros Hc Hd. split; [by apply rotatedName_le |]. split; [by apply rotatedName_inj | by intros ->].
Qed.

(** ** Names and the live file *)

Lemma sdrop_all n s : (len s ≤ n)%nat → sdrop n s = "".
Proof.
  revert s. induction n as [|n IH]; intros [|c s] Hn; try done; [cbn in Hn; lia |].
  apply IH. cbn in Hn. unfold len. lia.
Qed.

Lemma HasSuffix_app s t : HasSuffix (s +:+ t) t = true.
Proof.
  unfold HasSuffix. rewrite len_app, Nat.add_sub, sdrop_app.
  rewrite !bool_decide_eq_true_2 by (done || lia). done.
Qed.

Lemma len_TrimSuffix s t : (len s ≤ len (TrimSuffix s t) + len t)%nat.
Proof. unfold TrimSuffix. destruct (HasSuffix s t); [rewrite len_stake|]; lia. Qed.

Lemma rotatedName_ne name c : rotatedName name c ≠ name.
Proof.
  intros Heq. apply (f_equal len) in Heq. unfold rotatedName, backup_base in Heq.
  rewrite !len_app in Heq. pose proof (len_TrimSuffix name (Ext name)).
  assert (len "-" = 1%nat) by done.
  assert (len (Ext name) ≤ len (backup_ext name))%nat; [|lia].
  unfold backup_ext. case_decide as He; [by rewrite He; simpl; lia | done].
Qed.

Lemma rotatedName_is_backup rw c : is_backup rw (rotatedName (rw_filePath rw) c) = true.
Proof.
  unfold is_backup. rewrite bool_decide_eq_false_2 by apply rotatedName_ne.
  unfold rotatedName. rewrite string_app_assoc, HasPrefix_app. simpl.
  by rewrite string_app_assoc, HasSuffix_app.
Qed.

(** ** Writing *)

(** An open file is there, and [rw.size] is its size. *)
Definition writer_ok (rw : RotatingWriter) (dir : Dir) : Prop :=
  rw_open rw = true →
  is_Some (dir !! rw_filePath rw) ∧ rw_size rw = file_size (rw_filePath rw) dir.

Lemma create_lookup name now dir : is_Some (create_if_missing name now dir !! name).
Proof.
  unfold create_if_missing. destruct (dir !! name) eqn:Hd; [by rewrite Hd |].
  rewrite lookup_insert_eq. by eexists.
Qed.

Lemma create_present name now dir f :
  dir !! name = Some f → create_if_missing name now dir = dir.
Proof. unfold create_if_missing. by intros ->. Qed.


Lemma append_open e p rw dir f :
  rw_open rw = true → dir !! rw_filePath rw = Some f →
  append_file e p rw dir =
  (Z.of_nat (Nat.min (fe_accepts e) (len p)),
   if decide (Nat.min (fe_accepts e) (len p) < len p)%nat then Some ErrWrite else None,
   <[rw_filePath rw := mkLogFile (lf_content f +:+ stake (Nat.min (fe_accepts e) (len p)) p) (fe_now e)]> dir).
Proof. intros Ho Hf. unfold append_file. by rewrite Ho, Hf. Qed.

Lemma append_ok e p rw dir g :
  rw_open rw = true → dir !! rw_filePath rw = Some g → rw_size rw = Z.of_nat (len (lf_content g)) →
  Z.of_nat (len (lf_content g)) + Z.of_nat (len p) ≤ int64_max →
  let '(n, err, dir') := append_file e p rw dir in
  n = Z.of_nat (Nat.min (fe_accepts e) (len p)) ∧ (err = None ↔ (len p ≤ fe_accepts e)%nat) ∧
  dir' = <[rw_filePath rw := mkLogFile (lf_content g +:+ stake (Nat.min (fe_accepts e) (len p)) p)
             (fe_now e)]> dir ∧
  writer_ok (rw <| rw_size := wrap64 (rw_size rw + n) |>) dir'.
Proof.
  intros Ho Hg Hs Hmax. rewrite (append_open e p rw dir g) by done. split_and!; [done | | done |].
  - case_decide; split; (done || lia).
  - intros _. simpl. unfold file_size. rewrite lookup_insert_eq. split; [by eexists |]. simpl.
    rewrite len_app, len_stake, wrap64_id, Hs; [lia | int_solve].
Qed.

(** A write that does not fail to open the file: where the bytes go. *)
Definition written (e : FileEnv) (p : string) (rotates : Prop) `{Decision rotates} (rw : RotatingWriter)
    (f : LogFile) (dir : Dir) : Dir :=
  let p := stake (Nat.min (fe_accepts e) (len p)) p in
  if decide (rotates ∧ fe_renames e = true) then
    <[rw_filePath rw := mkLogFile p (fe_now e)]> (<[rotatedName (rw_filePath rw) (fe_civil e) := f]> dir)
  else <[rw_filePath rw := mkLogFile (lf_content f +:+ p) (fe_now e)]> dir.

Lemma rotate_opens e rw dir f :
  dir !! rw_filePath rw = Some f → fe_open e = OpenOk →
  let old := if fe_renames e then mkLogFile "" (fe_now e) else f in
  rotate e rw dir =
  (None, rw <| rw_open := true |> <| rw_size := Z.of_nat (len (lf_content old)) |>,
   if fe_renames e then
     <[rw_filePath rw := old]> (<[rotatedName (rw_filePath rw) (fe_civil e) := f]> dir)
   else dir).
Proof.
  intros Hf Ho. unfold rotate, openFile. rewrite Ho. simpl.
  pose proof (rotatedName_ne (rw_filePath rw) (fe_civil e)) as Hne.
  destruct (fe_renames e).
  - unfold rename. rewrite Hf. unfold create_if_missing, file_size.
    rewrite lookup_insert_ne, lookup_delete_eq by done. rewrite lookup_insert_eq.
    by rewrite !(insert_insert_ne _ (rw_filePath rw)), insert_delete_eq by done.
  - rewrite (create_present _ _ _ f) by done. unfold file_size. by rewrite Hf.
Qed.

Lemma log_Write_keeps (e : FileEnv) (p : string) (rw : RotatingWriter) (dir : gmap string LogFile)
    (f : LogFile) :
  rw_open rw = true → writer_ok rw dir → dir !! rw_filePath rw = Some f →
  file_size (rw_filePath rw) dir + Z.of_nat (len p) ≤ int64_max →
  let rotates := rw_maxBytes rw < file_size (rw_filePath rw) dir + Z.of_nat (len p) in
  let '(n, err, rw', dir') := log_Write e p rw dir in
  rw_filePath rw' = rw_filePath rw ∧ writer_ok rw' dir' ∧
  (¬ rotates ∨ fe_open e = OpenOk →
     n = Z.of_nat (Nat.min (fe_accepts e) (len p)) ∧ (err = None ↔ (len p ≤ fe_accepts e)%nat) ∧
     dir' = written e p rotates rw f dir ∧
     (fe_renames e = true →
        file_size (rw_filePath rw) dir' ≤ Z.max (rw_maxBytes rw) (Z.of_nat (len p)))) ∧
  (rotates ∧ fe_open e ≠ OpenOk →
     n = 0 ∧ err ≠ None ∧ rw_open rw' = false ∧
     ∀ name, name ≠ rw_filePath rw → name ≠ rotatedName (rw_filePath rw) (fe_civil e) →
       dir' !! name = dir !! name).
Proof.
  intros Ho Hok Hf Hmax rotates. destruct (Hok Ho) as [_ Hs].
  assert (file_size (rw_filePath rw) dir = Z.of_nat (len (lf_content f))) as Hsize
    by (unfold file_size; by rewrite Hf).
  unfold log_Write. rewrite Hs, wrap64_id by int_solve. fold rotates. unfold written.
  assert (∀ c m d, file_size m (<[m := mkLogFile c (fe_now e)]> d) = Z.of_nat (len c)) as Hnew
    by (intros; unfold file_size; by rewrite lookup_insert_eq).
  destruct (decide rotates) as [Hr|Hr]; [destruct (fe_open e) eqn:Hopen|].
  - rewrite (rotate_opens e rw dir f) by done.
    cbn zeta. destruct (fe_renames e) eqn:Hren; cbn beta iota;
      (match goal with |- context [append_file e p ?rw' ?d] =>
         pose proof (append_ok e p rw' d) as Ha; destruct (append_file e p rw' d) as [[n err] dir'] end);
      [destruct (Ha (mkLogFile "" (fe_now e))) as (-> & Herr & -> & Hw)
      |destruct (Ha f) as (-> & Herr & -> & Hw)]; try done; try (simpl; lia);
      [by rewrite lookup_insert_eq | |];
      (split; [done |]; split; [done |]; split; [|intros [_ ?]; done]; intros _;
       split_and!; [done | done | |]; simpl; rewrite ?Hnew).
    + rewrite decide_True by done. by rewrite insert_insert_eq.
    + intros _. change ("" +:+ ?x) with x. rewrite len_stake. lia.
    + by rewrite decide_False by (intros [_ ?]; congruence).
    + done.
  - unfold rotate, openFile. rewrite Hopen. simpl.
    split_and!; [done | done | intros [?|?]; done |]. intros _. split_and!; try done.
    intros name H1 H2. unfold rename. rewrite Hf.
    destruct (fe_renames e); [|done]. by rewrite lookup_insert_ne, lookup_delete_ne.
  - unfold rotate, openFile. rewrite Hopen. simpl.
    split_and!; [done | done | intros [?|?]; done |]. intros _. split_and!; try done.
    intros name H1 H2. unfold create_if_missing, rename. rewrite Hf.
    destruct (fe_renames e); case_match; rewrite ?lookup_insert_ne, ?lookup_delete_ne by done; done.
  - pose proof (append_ok e p rw dir f Ho Hf) as Ha.
    destruct (append_file e p rw dir) as [[n err] dir'].
    destruct Ha as (-> & Herr & -> & Hw); [congruence | lia |].
    rewrite decide_False by (intros [? _]; done).
    split_and!; [done | done | | intros [? _]; done]. intros _. split_and!; try done.
    intros _. rewrite Hnew, len_app, len_stake. unfold rotates in Hr. lia.
Qed.

(** Whether a write begins with a rotation, the file that puts aside, and the live file
    as the opening or the write after it finds it. *)
Definition write_rotates (p : string) (rw : RotatingWriter) : bool :=
  bool_decide (rw_maxBytes rw < wrap64 (rw_size rw + Z.of_nat (len p))).

Definition put_aside (e : FileEnv) (p : string) (rw : RotatingWriter) (dir : Dir) : option LogFile :=
  if write_rotates p rw && fe_renames e then dir !! rw_filePath rw else None.

Definition left_live (e : FileEnv) (p : string) (rw : RotatingWriter) (dir : Dir) : option LogFile :=
  match put_aside e p rw dir with Some _ => None | None => dir !! rw_filePath rw end.

Definition text_of (f : option LogFile) : string := default "" (lf_content <$> f).

(** Everything but the live file: the old one under its new name, if it was put aside. *)
Definition others_after (e : FileEnv) (p : string) (rw : RotatingWriter) (dir dir' : Dir) : Prop :=
  ∀ name, name ≠ rw_filePath rw → dir' !! name =
    match put_aside e p rw dir with
    | Some f => if decide (name = rotatedName (rw_filePath rw) (fe_civil e)) then Some f else dir !! name
    | None => dir !! name
    end.

(** What is done with the record, when the live file is [before]. *)
Definition record_written (e : FileEnv) (p : string) (path : string) (before : option LogFile)
    (n : Z) (err : option FileError) (dir' : Dir) : Prop :=
  n = Z.of_nat (Nat.min (fe_accepts e) (len p)) ∧ (err = None ↔ (len p ≤ fe_accepts e)%nat) ∧
  dir' !! path =
    Some (mkLogFile (text_of before +:+ stake (Nat.min (fe_accepts e) (len p)) p) (fe_now e)).

Lemma append_writes e p rw dir :
  rw_open rw = true →
  let '(n, err, dir') := append_file e p rw dir in
  record_written e p (rw_filePath rw) (dir !! rw_filePath rw) n err dir' ∧
  ∀ name, name ≠ rw_filePath rw → dir' !! name = dir !! name.
Proof.
  intros Ho. unfold append_file. rewrite Ho. split.
  - split; [done |]. split; [case_decide; split; (done || lia) | by rewrite lookup_insert_eq].
  - intros name Hn. by rewrite lookup_insert_ne.
Qed.

(** The directory a rotation opens the new file in. *)
Lemma rotate_renames e p rw dir :
  write_rotates p rw = true →
  let dir1 := if fe_renames e then rename (rw_filePath rw) (rotatedName (rw_filePath rw) (fe_civil e)) dir
              else dir in
  dir1 !! rw_filePath rw = left_live e p rw dir ∧ others_after e p rw dir dir1.
Proof.
  intros Hr. pose proof (rotatedName_ne (rw_filePath rw) (fe_civil e)) as Hne.
  unfold left_live, others_after, put_aside, rename. rewrite Hr.
  destruct (fe_renames e); simpl; [|done]. destruct (dir !! rw_filePath rw) as [f|] eqn:Hf; [|done].
  split; [by rewrite lookup_insert_ne, lookup_delete_eq |]. intros name Hn.
  case_decide as Hd; [subst; apply lookup_insert_eq | by rewrite lookup_insert_ne, lookup_delete_ne].
Qed.

Lemma create_others name now dir name' :
  name' ≠ name → create_if_missing name now dir !! name' = dir !! name'.
Proof. intros Hn. unfold create_if_missing. case_match; [done | by rewrite lookup_insert_ne]. Qed.

Lemma create_text name now dir : text_of (create_if_missing name now dir !! name) = text_of (dir !! name).
Proof. unfold create_if_missing. case_match eqn:Hd; [by rewrite Hd | by rewrite lookup_insert_eq]. Qed.

Lemma rotate_outcome e p rw dir :
  write_rotates p rw = true →
  let '(err, rw', dir') := rotate e rw dir in
  let before := left_live e p rw dir in
  rw' = (rw <| rw_open := rw_open rw' |>) <| rw_size := rw_size rw' |> ∧ others_after e p rw dir dir' ∧
  match fe_open e with
  | OpenOk => err = None ∧ rw_open rw' = true ∧ rw_size rw' = Z.of_nat (len (text_of before)) ∧
      text_of (dir' !! rw_filePath rw) = text_of before
  | OpenFails => err = Some ErrOpen ∧ rw_open rw' = false ∧ rw_size rw' = rw_size rw ∧
      dir' !! rw_filePath rw = before
  | StatFails => err = Some ErrStat ∧ rw_open rw' = false ∧ rw_size rw' = rw_size rw ∧
      dir' !! rw_filePath rw = Some (default (mkLogFile "" (fe_now e)) before)
  end.
Proof.
  intros Hr. destruct (rotate_renames e p rw dir Hr) as [Hlive Hothers]. unfold rotate, openFile.
  set (dir1 := if fe_renames e then _ else dir) in *.
  assert (others_after e p rw dir (create_if_missing (rw_filePath rw) (fe_now e) dir1)) as Hcreate.
  { intros name Hn. by rewrite create_others, Hothers. }
  destruct (fe_open e); simpl; fold dir1; (split; [done |]).
  - split; [exact Hcreate |]. pose proof (create_text (rw_filePath rw) (fe_now e) dir1) as Ht.
    rewrite Hlive in Ht. split_and!; [done | done | | done]. rewrite <-Ht. unfold file_size, text_of.
    by destruct (create_if_missing _ _ _ !! _).
  - by split; [exact Hothers |].
  - split; [exact Hcreate |]. split_and!; [done..|]. rewrite <-Hlive. unfold create_if_missing.
    destruct (dir1 !! rw_filePath rw) as [f|] eqn:Hd; [by rewrite Hd | by rewrite lookup_insert_eq].
Qed.

(** What a write does, whatever the state of the writer and the answers of the system. *)
Lemma log_Write_outcome (e : FileEnv) (p : string) (rw : RotatingWriter) (dir : gmap string LogFile) :
  let '(n, err, rw', dir') := log_Write e p rw dir in
  let before := left_live e p rw dir in
  rw' = (rw <| rw_open := rw_open rw' |>) <| rw_size := rw_size rw' |> ∧ others_after e p rw dir dir' ∧
  match write_rotates p rw, fe_open e with
  | true, OpenOk =>
      record_written e p (rw_filePath rw) before n err dir' ∧ rw_open rw' = true ∧
      rw_size rw' = wrap64 (Z.of_nat (len (text_of before)) + n)
  | true, OpenFails =>
      n = 0 ∧ err = Some ErrOpen ∧ rw_open rw' = false ∧ rw_size rw' = rw_size rw ∧
      dir' !! rw_filePath rw = before
  | true, StatFails =>
      n = 0 ∧ err = Some ErrStat ∧ rw_open rw' = false ∧ rw_size rw' = rw_size rw ∧
      dir' !! rw_filePath rw = Some (default (mkLogFile "" (fe_now e)) before)
  | false, _ =>
      rw_open rw' = rw_open rw ∧ rw_size rw' = wrap64 (rw_size rw + n) ∧
      if rw_open rw then record_written e p (rw_filePath rw) before n err dir'
      else n = 0 ∧ err = Some ErrClosed ∧ dir' = dir
  end.
Proof.
  unfold log_Write. destruct (decide _) as [Hr|Hr].
  - assert (write_rotates p rw = true) as Hrot by by apply bool_decide_eq_true.
    pose proof (rotate_outcome e p rw dir Hrot) as Ho. rewrite Hrot.
    destruct (rotate e rw dir) as [[err rw1] dir1]. destruct Ho as (Hrw & Hothers & Ho).
    destruct (fe_open e); [|destruct Ho as (-> & Ho); by split; [|split]..].
    destruct Ho as (-> & Hopen & Hsize & Ht). pose proof (append_writes e p rw1 dir1 Hopen) as Ha.
    assert (rw_filePath rw1 = rw_filePath rw) as Hpath by by rewrite Hrw.
    destruct (append_file e p rw1 dir1) as [[n err] dir']. rewrite Hpath in Ha.
    destruct Ha as [(-> & Herr & Hd) Hkeep]. split_and!.
    + by rewrite Hrw.
    + intros name Hn. by rewrite Hkeep, Hothers.
    + split_and!; [done | done |]. by rewrite Hd, Ht.
    + done.
    + simpl. by rewrite Hsize.
  - assert (write_rotates p rw = false) as Hrot by by apply bool_decide_eq_false.
    assert (put_aside e p rw dir = None) as Hpa by (unfold put_aside; by rewrite Hrot).
    assert (left_live e p rw dir = dir !! rw_filePath rw) as -> by (unfold left_live; by rewrite Hpa).
    unfold others_after. rewrite Hpa, Hrot.
    pose proof (append_writes e p rw dir) as Ha. unfold append_file in *.
    destruct (rw_open rw) eqn:Hopen; simpl in *.
    + destruct (Ha eq_refl) as [Hw Hkeep]. split_and!; [by destruct rw; simpl in *; subst | done..].
    + by split_and!; [destruct rw; simpl in *; subst |..].
Qed.

Lemma text_of_Some f : text_of (Some f) = lf_content f.
Proof. done. Qed.

Lemma file_size_text name (dir : gmap string LogFile) :
  file_size name dir = Z.of_nat (len (text_of (dir !! name))).
Proof. unfold file_size, text_of. by destruct (dir !! name). Qed.

Lemma left_live_size e p rw (dir : gmap string LogFile) :
  Z.of_nat (len (text_of (left_live e p rw dir))) ≤ file_size (rw_filePath rw) dir.
Proof. rewrite file_size_text. unfold left_live. destruct (put_aside e p rw dir); simpl; lia. Qed.

(** The size of the live file after the record was written. *)
Lemma record_written_size e p path before n err (dir : gmap string LogFile) :
  record_written e p path before n err dir →
  file_size path dir = Z.of_nat (len (text_of before)) + n ∧ n ≤ Z.of_nat (len p) ∧ 0 ≤ n ∧
  is_Some (dir !! path).
Proof.
  intros (-> & _ & Hd). rewrite file_size_text, Hd, text_of_Some. cbn [lf_content]. rewrite len_app, len_stake.
  split_and!; [lia | lia | lia | by eexists].
Qed.

Lemma aside_left e p rw (dir : gmap string LogFile) (rotates : Prop) `{base.Decision rotates} :
  write_rotates p rw = bool_decide rotates →
  if decide (rotates ∧ fe_renames e = true ∧ is_Some (dir !! rw_filePath rw))
  then put_aside e p rw dir = dir !! rw_filePath rw ∧ left_live e p rw dir = None
  else put_aside e p rw dir = None ∧ left_live e p rw dir = dir !! rw_filePath rw.
Proof.
  intros Hrot. unfold left_live, put_aside. rewrite Hrot. case_decide as Hd.
  - destruct Hd as (Hr & -> & f & ->). by rewrite bool_decide_eq_true_2.
  - destruct (bool_decide rotates && fe_renames e) eqn:Hc; [|done].
    apply andb_true_iff in Hc as [Hr%bool_decide_eq_true Hre].
    destruct (dir !! rw_filePath rw) eqn:Hp; [|done]. destruct Hd. by split_and!; [..|eexists].
Qed.

(** The size of the live file after a write that reached it. *)
Lemma live_bound e p rw (dir dir' : gmap string LogFile) n err :
  record_written e p (rw_filePath rw) (left_live e p rw dir) n err dir' →
  file_size (rw_filePath rw) dir ≤ rw_size rw ∨ write_rotates p rw = true →
  rw_size rw + Z.of_nat (len p) ≤ rw_maxBytes rw ∨ write_rotates p rw = true →
  fe_renames e = true →
  file_size (rw_filePath rw) dir' ≤ Z.max (rw_maxBytes rw) (Z.of_nat (len p)).
Proof.
  intros Hw Hsize Hmax Hre. apply record_written_size in Hw as (-> & ? & ? & _).
  pose proof (left_live_size e p rw dir). destruct (write_rotates p rw) eqn:Hr.
  - assert (text_of (left_live e p rw dir) = "") as ->; [|simpl; lia].
    unfold left_live, put_aside. rewrite Hr, Hre. simpl. by destruct (dir !! rw_filePath rw).
  - destruct Hsize as [?|?], Hmax as [?|?]; try done. lia.
Qed.

Lemma others_backup e p rw (dir dir' : gmap string LogFile) :
  others_after e p rw dir dir' →
  let backup := rotatedName (rw_filePath rw) (fe_civil e) in
  dir' !! backup = match put_aside e p rw dir with Some f => Some f | None => dir !! backup end ∧
  ∀ name, name ≠ rw_filePath rw → name ≠ backup → dir' !! name = dir !! name.
Proof.
  intros Ho backup. split.
  - rewrite (Ho backup) by apply rotatedName_ne.
    destruct (put_aside e p rw dir); [by rewrite decide_True | done].
  - intros name Hn Hb. rewrite (Ho name Hn).
    destruct (put_aside e p rw dir); [by rewrite decide_False | done].
Qed.

(** C35. Every way a write can go, whatever the state of the writer (its file open or
    closed) and whatever the system answers. It rotates exactly if the file would exceed
    the limit. Rotating puts the live file aside under the backup's name if it can be
    renamed, and no other file but the live one changes. Then: what the system accepts
    of the record is appended to what was left of the live file, and there is an error
    exactly if that is not all of it; or the new file cannot be opened, and then nothing
    is written, the writer is closed, and the live file is what was left of it, or empty
    if it was created; or it does not rotate and the file is closed, and then nothing
    changes. The size the writer keeps of an open file is the size of that file; and
    after a write the live file is never larger than the limit or than the one record in
    it, as long as renaming works. *)
Theorem log_Write_spec (e : FileEnv) (p : string) (rw : RotatingWriter) (dir : gmap string LogFile) :
  writer_ok rw dir → 0 ≤ rw_size rw → rw_size rw + Z.of_nat (len p) ≤ int64_max →
  file_size (rw_filePath rw) dir + Z.of_nat (len p) ≤ int64_max →
  let rotates := rw_maxBytes rw < rw_size rw + Z.of_nat (len p) in
  let path := rw_filePath rw in
  let backup := rotatedName path (fe_civil e) in
  let '(n, err, rw', dir') := log_Write e p rw dir in
  rw_filePath rw' = path ∧ rw_maxBytes rw' = rw_maxBytes rw ∧ writer_ok rw' dir' ∧
  ∃ aside left : option LogFile,
    (if decide (rotates ∧ fe_renames e = true ∧ is_Some (dir !! path))
     then aside = dir !! path ∧ left = None else aside = None ∧ left = dir !! path) ∧
    dir' !! backup = match aside with Some f => Some f | None => dir !! backup end ∧
    (∀ name, name ≠ path → name ≠ backup → dir' !! name = dir !! name) ∧
    let accepted := Nat.min (fe_accepts e) (len p) in
    let stored := n = Z.of_nat accepted ∧ (err = None ↔ (len p ≤ fe_accepts e)%nat) ∧
      rw_open rw' = true ∧
      dir' !! path = Some (mkLogFile (text_of left +:+ stake accepted p) (fe_now e)) ∧
      (fe_renames e = true → file_size path dir' ≤ Z.max (rw_maxBytes rw) (Z.of_nat (len p))) in
    if decide rotates then
      match fe_open e with
      | OpenOk => stored
      | OpenFails => n = 0 ∧ err = Some ErrOpen ∧ rw_open rw' = false ∧ dir' !! path = left
      | StatFails => n = 0 ∧ err = Some ErrStat ∧ rw_open rw' = false ∧
          dir' !! path = Some (default (mkLogFile "" (fe_now e)) left)
      end
    else if rw_open rw then stored else n = 0 ∧ err = Some ErrClosed ∧ rw' = rw ∧ dir' = dir.
Proof.
  intros Hok Hlo Hs Hf rotates path backup.
  pose proof (log_Write_outcome e p rw dir) as Hw.
  assert (write_rotates p rw = bool_decide rotates) as Hrot
    by (unfold write_rotates; by rewrite wrap64_id by int_solve).
  pose proof (aside_left e p rw dir rotates Hrot) as Haside.
  pose proof (left_live_size e p rw dir) as Hleft.
  pose proof (live_bound e p rw dir) as Hbound.
  destruct (log_Write e p rw dir) as [[[n err] rw'] dir']. destruct Hw as (Hrw & Hothers & Hout).
  destruct (others_backup e p rw dir dir' Hothers) as [Hb Ho].
  assert (rw_filePath rw' = path ∧ rw_maxBytes rw' = rw_maxBytes rw) as [Hpath Hmax] by by rewrite Hrw.
  fold path in Hleft, Hf. rewrite Hrot in Hout, Hbound.
  split; [done | split; [done |]]. unfold writer_ok. rewrite Hpath.
  destruct (decide rotates) as [Hr|Hr].
  - rewrite bool_decide_eq_true_2 in Hout, Hbound by done.
    destruct (fe_open e).
    + destruct Hout as (Hw & Hopen & Hsize). split.
      * intros _. destruct (record_written_size _ _ _ _ _ _ _ Hw) as (Hz & ? & ? & ?).
        fold path in Hz. split; [done |]. by rewrite Hsize, Hz, wrap64_id by int_solve.
      * exists (put_aside e p rw dir), (left_live e p rw dir).
        split; [done | split; [done | split; [done |]]]. destruct Hw as (H1 & H2 & H3).
        split_and!; [done..|]. eapply Hbound; [by split_and! | by right..].
    + destruct Hout as (-> & -> & Hopen & _ & Hd). split; [by rewrite Hopen |].
      exists (put_aside e p rw dir), (left_live e p rw dir). by split_and!.
    + destruct Hout as (-> & -> & Hopen & _ & Hd). split; [by rewrite Hopen |].
      exists (put_aside e p rw dir), (left_live e p rw dir). by split_and!.
  - rewrite bool_decide_eq_false_2 in Hout, Hbound by done.
    destruct Hout as (Hopen & Hsize & Hout). rewrite Hopen. destruct (rw_open rw) eqn:Hopen0.
    + destruct (Hok Hopen0) as [_ Hsz]. fold path in Hsz. split.
      * intros _. destruct (record_written_size _ _ _ _ _ _ _ Hout) as (Hz & ? & ? & ?).
        fold path in Hz. split; [done |].
        assert (left_live e p rw dir = dir !! path) as Hl.
        { unfold left_live, put_aside. by rewrite Hrot, bool_decide_eq_false_2. }
        rewrite Hsize, Hz, Hl, wrap64_id, Hsz, file_size_text by int_solve. done.
      * exists (put_aside e p rw dir), (left_live e p rw dir).
        split; [done | split; [done | split; [done |]]]. destruct Hout as (H1 & H2 & H3).
        split_and!; [done..|]. eapply Hbound; [by split_and! | left; by rewrite Hsz | left; unfold rotates in Hr; lia].
    + destruct Hout as (-> & -> & ->). split; [done |].
      exists (put_aside e p rw dir), (left_live e p rw dir). split_and!; try done.
      rewrite Hrw, Hopen, Hsize, Z.add_0_r, wrap64_id by int_solve. rewrite <-Hopen0. by destruct rw.
Qed.

(** ** Cleaning up *)

Lemma elem_of_backups rw (dir : gmap string LogFile) name :
  name ∈ backups rw dir ↔ is_backup rw name = true ∧ is_Some (dir !! name).
Proof.
  unfold backups. rewrite merge_sort_Permutation, list_elem_of_filter, elem_of_elements, elem_of_dom.
  done.
Qed.

Lemma NoDup_backups rw (dir : gmap string LogFile) : NoDup (backups rw dir).
Proof.
  unfold backups. rewrite merge_sort_Permutation. apply NoDup_filter, NoDup_elements.
Qed.

Lemma remove_excess_spec e m l (dir : gmap string LogFile) :
  remove_excess e (Z.of_nat m) l dir =
  Some (lastn m l, foldl (λ d n, remove e n d) dir (take (length l - m) l)).
Proof.
  revert dir. induction l as [|n l IH]; intros dir; cbn [remove_excess].
  - rewrite decide_False by lia. by rewrite lastn_all by (simpl; lia).
  - case_decide as Hlt; simpl in Hlt.
    + rewrite IH. unfold lastn.
      replace (length (n :: l) - m)%nat with (S (length l - m)) by (simpl; lia). done.
    + rewrite lastn_all by (simpl; lia). replace (length (n :: l) - m)%nat with 0%nat by (simpl; lia).
      done.
Qed.

Lemma remove_excess_panics e max l (dir : gmap string LogFile) :
  max < 0 → remove_excess e max l dir = None.
Proof.
  intros Hm. revert dir. induction l as [|n l IH]; intros dir; cbn [remove_excess].
  - by rewrite decide_True.
  - by rewrite decide_True by lia.
Qed.

Lemma lookup_removes e l (dir : gmap string LogFile) name :
  foldl (λ d n, remove e n d) dir l !! name =
  if bool_decide (name ∈ l) && ce_removes e name then None else dir !! name.
Proof.
  revert dir. induction l as [|n l IH]; intros dir; [done |]. simpl. rewrite IH. unfold remove.
  destruct (decide (name = n)) as [->|Hne].
  - rewrite (bool_decide_eq_true_2 (n ∈ n :: l)) by (by left). simpl.
    destruct (ce_removes e n); rewrite ?andb_false_r; [|done]. rewrite lookup_delete_eq. by case_match.
  - assert (bool_decide (name ∈ n :: l) = bool_decide (name ∈ l)) as ->
      by (apply bool_decide_ext; rewrite elem_of_cons; tauto).
    destruct (ce_removes e n); [|done]. by rewrite lookup_delete_ne.
Qed.

Definition aged (e : CleanupEnv) (name : string) (f : LogFile) : bool :=
  ce_stats e name && bool_decide (lf_mtime f < ce_cutoff e) && ce_removes e name.

Lemma lookup_remove_aged e l (dir : gmap string LogFile) name :
  foldl (remove_aged e) dir l !! name =
  f ← dir !! name; if bool_decide (name ∈ l) && aged e name f then None else Some f.
Proof.
  revert dir. induction l as [|n l IH]; intros dir; simpl; [by destruct (dir !! name) |].
  rewrite IH. unfold remove_aged, remove, aged. destruct (decide (name = n)) as [->|Hne].
  - rewrite (bool_decide_eq_true_2 (n ∈ n :: l)) by (by left).
    destruct (dir !! n) as [f|] eqn:Hf; simpl; [|by rewrite Hf].
    destruct (ce_stats e n && bool_decide (lf_mtime f < ce_cutoff e)) eqn:Hold; simpl.
    + destruct (ce_removes e n); simpl; [by rewrite lookup_delete_eq |].
      rewrite Hf. simpl. by rewrite Hold, andb_false_r.
    + rewrite Hf. simpl. by rewrite Hold, andb_false_r.
  - assert (bool_decide (name ∈ n :: l) = bool_decide (name ∈ l)) as ->
      by (apply bool_decide_ext; rewrite elem_of_cons; tauto).
    f_equal. repeat case_match; by rewrite ?lookup_delete_ne.
Qed.

(** What [cleanup] deletes: of the files that look like backups, all but the
    [maxBackups] last in the order of their names, and of these the ones older
    than the cutoff -- each if the system lets it; no other file, so never the
    live one. A negative [maxBackups], which the configuration admits, makes it
    panic, and with it the process. *)
Theorem cleanup_spec (e : CleanupEnv) (rw : RotatingWriter) (dir : gmap string LogFile) :
  ce_reads e = true →
  if decide (rw_maxBackups rw < 0) then log_cleanup e rw dir = None
  else ∃ dir', log_cleanup e rw dir = Some dir' ∧
    let kept := lastn (Z.to_nat (rw_maxBackups rw)) (backups rw dir) in
    (∀ name, dir' !! name =
       f ← dir !! name;
       if is_backup rw name &&
          (if decide (name ∈ kept) then aged e name f else ce_removes e name) then None
       else Some f) ∧
    dir' !! rw_filePath rw = dir !! rw_filePath rw ∧
    (∀ b b', b ∈ kept → b' ∈ backups rw dir → b' ∉ kept → String.le b' b).
Proof.
  intros Hr. unfold log_cleanup. rewrite Hr. simpl. case_decide as Hm.
  { by rewrite remove_excess_panics. }
  set (m := Z.to_nat (rw_maxBackups rw)).
  assert (rw_maxBackups rw = Z.of_nat m) as -> by lia. rewrite remove_excess_spec. simpl.
  eexists. split; [done |]. set (l := backups rw dir). unfold lastn.
  set (k := (length l - m)%nat).
  assert (∀ name, foldl (remove_aged e) (foldl (λ d n, remove e n d) dir (take k l)) (drop k l) !! name =
    f ← dir !! name;
    if is_backup rw name && (if decide (name ∈ drop k l) then aged e name f else ce_removes e name)
    then None else Some f) as Hlook.
  { intros name. rewrite lookup_remove_aged, lookup_removes.
    destruct (dir !! name) as [f|] eqn:Hf; [|by destruct (_ && _)]. simpl.
    assert (name ∈ l ↔ is_backup rw name = true) as Hl
      by (unfold l; rewrite elem_of_backups, Hf; split; [by intros [] | by split]).
    pose proof (NoDup_backups rw dir) as Hnd. fold l in Hnd.
    rewrite <-(take_drop k l) in Hl, Hnd. apply NoDup_app in Hnd as (_ & Hdis & _).
    rewrite elem_of_app in Hl. destruct (is_backup rw name) eqn:Hb; simpl.
    - case_decide as Hd.
      + rewrite (bool_decide_eq_false_2 (name ∈ take k l)) by (intros Ht; exact (Hdis _ Ht Hd)). simpl.
        by rewrite bool_decide_eq_true_2.
      + rewrite (bool_decide_eq_true_2 (name ∈ take k l)) by (destruct (proj2 Hl eq_refl); done). simpl.
        destruct (ce_removes e name); [done |]. simpl. by rewrite bool_decide_eq_false_2.
    - assert (¬ (name ∈ take k l ∨ name ∈ drop k l)) as Hno by (intros Hin; by apply Hl in Hin).
      by rewrite !bool_decide_eq_false_2 by tauto. }
  split; [exact Hlook |]. split.
  - rewrite Hlook. destruct (dir !! rw_filePath rw); [|done]. simpl. unfold is_backup.
    by rewrite bool_decide_eq_true_2, andb_false_r.
  - intros b b' Hb Hb' Hn.
    pose proof (StronglySorted_merge_sort String.le
      (filter (λ n, is_backup rw n = true) (elements (dom dir)))) as Hs.
    fold (backups rw dir) in Hs. fold l in Hs, Hb'. rewrite <-(take_drop k l) in Hs, Hb'.
    apply elem_of_app in Hb' as [Hb'|]; [|done].
    by apply (StronglySorted_app_1_elem_of _ (take k l) (drop k l)).
Qed.

(** ** The log as one stream *)

Fixpoint contents (dir : gmap string LogFile) (names : list string) : string :=
  match names with
  | [] => ""
  | name :: names => default "" (lf_content <$> dir !! name) +:+ contents dir names
  end.

(** The backups in the order of their names, then the live file. *)
Definition log_stream (rw : RotatingWriter) (dir : gmap string LogFile) : string :=
  contents dir (backups rw dir ++ [rw_filePath rw]).

Lemma contents_app dir l k : contents dir (l ++ k) = contents dir l +:+ contents dir k.
Proof. induction l as [|n l IH]; [done |]. cbn. by rewrite <-string_app_assoc, <-IH. Qed.

Lemma contents_ext (dir dir' : gmap string LogFile) l :
  (∀ n, n ∈ l → dir' !! n = dir !! n) → contents dir' l = contents dir l.
Proof.
  induction l as [|n l IH]; intros Heq; [done |]. simpl. rewrite IH, Heq; [done | by left |].
  intros n' Hn'. apply Heq. by right.
Qed.

Lemma backups_eq rw rw' (dir dir' : gmap string LogFile) :
  rw_filePath rw' = rw_filePath rw → (∀ n, is_backup rw n = true → (is_Some (dir' !! n) ↔ is_Some (dir !! n))) →
  backups rw' dir' = backups rw dir.
Proof.
  intros Hp Hd. apply (StronglySorted_unique String.le); [apply StronglySorted_merge_sort; apply _.. |].
  apply NoDup_Permutation; [apply NoDup_backups.. |]. intros n. rewrite !elem_of_backups.
  unfold is_backup in *. rewrite Hp. naive_solver.
Qed.

Lemma backups_snoc rw rw' (dir dir' : gmap string LogFile) new :
  rw_filePath rw' = rw_filePath rw → is_backup rw new = true →
  (∀ n, is_backup rw n = true → (is_Some (dir' !! n) ↔ is_Some (dir !! n) ∨ n = new)) →
  (∀ n, n ∈ backups rw dir → String.le n new ∧ n ≠ new) →
  backups rw' dir' = backups rw dir ++ [new].
Proof.
  intros Hp Hn Hd Hle. apply (StronglySorted_unique String.le).
  - apply StronglySorted_merge_sort; apply _.
  - apply StronglySorted_app_2; [|apply StronglySorted_merge_sort; apply _ | repeat constructor].
    intros n n' Hin Hn'. apply list_elem_of_singleton in Hn' as ->. by apply Hle.
  - apply NoDup_Permutation; [apply NoDup_backups | |].
    + apply NoDup_app. split_and!; [apply NoDup_backups | | apply NoDup_singleton].
      intros n Hin Hn'. apply list_elem_of_singleton in Hn' as ->. by destruct (Hle new).
    + intros n. rewrite elem_of_app, list_elem_of_singleton, !elem_of_backups.
      unfold is_backup in *. rewrite Hp. naive_solver.
Qed.

Lemma path_not_backup rw (dir : gmap string LogFile) : rw_filePath rw ∉ backups rw dir.
Proof.
  rewrite elem_of_backups. unfold is_backup.
  rewrite bool_decide_eq_true_2, andb_false_r by done. by intros [].
Qed.

(** Rotation loses nothing: when the file operations succeed and a rotation
    happens in a later second than those that made the existing backups, the
    backups in order followed by the live file are one stream, which a write
    extends by its record. *)
Theorem Write_extends_stream (e : FileEnv) (p : string) (rw : RotatingWriter)
    (dir : gmap string LogFile) (f : LogFile) :
  rw_open rw = true → writer_ok rw dir → dir !! rw_filePath rw = Some f →
  file_size (rw_filePath rw) dir + Z.of_nat (len p) ≤ int64_max →
  fe_open e = OpenOk → fe_renames e = true → (len p ≤ fe_accepts e)%nat → civil_ok (fe_civil e) →
  (∀ b, b ∈ backups rw dir →
     ∃ c, b = rotatedName (rw_filePath rw) c ∧ civil_ok c ∧ civil_lt c (fe_civil e)) →
  let '(n, err, rw', dir') := log_Write e p rw dir in
  err = None ∧ log_stream rw' dir' = log_stream rw dir +:+ p.
Proof.
  intros Ho Hok Hf Hmax Hopen Hren Hacc Hce Hold.
  pose proof (log_Write_keeps e p rw dir f Ho Hok Hf Hmax) as Hw.
  destruct (log_Write e p rw dir) as [[[n err] rw'] dir'].
  destruct Hw as (Hp & _ & Hdir & _). destruct Hdir as (_ & Herr & -> & _); [by right |].
  split; [by apply Herr |]. unfold log_stream. rewrite Hp, !contents_app.
  set (new := rotatedName (rw_filePath rw) (fe_civil e)).
  pose proof (rotatedName_ne (rw_filePath rw) (fe_civil e)) as Hne. fold new in Hne.
  pose proof (path_not_backup rw dir) as Hnb.
  unfold written. rewrite Nat.min_r, stake_all by lia. case_decide as Hr.
  - assert (∀ b, b ∈ backups rw dir → String.le b new ∧ b ≠ new) as Hlt.
    { intros b Hb. destruct (Hold b Hb) as (c & -> & Hc & Hlt). unfold new. split.
      - apply rotatedName_le; [done..|]. by left.
      - intros Heq. apply rotatedName_inj in Heq; [|done..]. subst. by apply civil_lt_irrefl in Hlt. }
    rewrite (backups_snoc rw rw' dir _ new); [| done | apply rotatedName_is_backup | | exact Hlt].
    + rewrite contents_app. cbn [contents]. rewrite !string_app_nil_r.
      rewrite lookup_insert_eq, lookup_insert_ne, lookup_insert_eq, Hf by done. simpl.
      f_equal. f_equal. apply contents_ext. intros b Hb.
      destruct (Hlt b Hb) as [_ Hbn]. assert (b ≠ rw_filePath rw) by (intros ->; done).
      by rewrite !lookup_insert_ne.
    + intros b Hb. destruct (decide (b = new)) as [->|Hbn].
      * rewrite lookup_insert_ne, lookup_insert_eq by done. naive_solver.
      * destruct (decide (b = rw_filePath rw)) as [->|Hbp]; [rewrite lookup_insert_eq, Hf; naive_solver |].
        rewrite !lookup_insert_ne by done. naive_solver.
  - rewrite (backups_eq rw rw' dir); [| done |].
    + cbn [contents]. rewrite lookup_insert_eq, Hf, !string_app_nil_r, <-string_app_assoc. simpl.
      f_equal. apply contents_ext. intros b Hb. by rewrite lookup_insert_ne by (intros Heq; by rewrite Heq in Hnb).
    + intros b Hb. destruct (decide (b = rw_filePath rw)) as [->|Hbp];
        [rewrite lookup_insert_eq, Hf; naive_solver | by rewrite lookup_insert_ne].
Qed.

(** Two rotations in one second: the second backup replaces the first, whose records
    are lost. *)
Example same_second_rotation_loses :
  let t := mkCivil 2024 3 7 9 5 0 in let e := mkFileEnv 0 t true OpenOk 100 in
  let rw := mkRotatingWriter true "a.log" 3 4 5 30 in
  let dir := {["a.log" := mkLogFile "one" 0]} : gmap string LogFile in
  let '(_, _, rw, dir) := log_Write e "two" rw dir in
  let '(_, err, rw, dir) := log_Write e "three" rw dir in
  err = None ∧ log_stream rw dir = "twothree".
Proof. by vm_compute. Qed.

(** The pattern for backups is that of names: the log of another program that
    begins with the same name and a hyphen is counted, and deleted. *)
Example foreign_log_deleted :
  let rw := mkRotatingWriter true "gateway.log" 0 10 1 30 in
  let dir := <["gateway-access.log" := mkLogFile "precious" 5]>
    {["gateway-20240307-090500.log" := mkLogFile "" 5]} : gmap string LogFile in
  (log_cleanup (mkCleanupEnv true (λ _, true) (λ _, true) 9) rw dir ≫= λ d, lf_content <$> d !! "gateway-access.log")
  = None.
Proof. by vm_compute. Qed.

(** ** Witnesses *)

Lemma backups_sort_by_time_witness :
  String.le (rotatedName "a.log" (mkCivil 2024 9 30 23 59 59))
    (rotatedName "a.log" (mkCivil 2024 10 1 0 0 0)).
Proof.
  apply (backups_sort_by_time "a.log" (mkCivil 2024 9 30 23 59 59) (mkCivil 2024 10 1 0 0 0));
    [unfold civil_ok; simpl; lia.. | left; unfold civil_lt; simpl; lia].
Defined.

(** A rotation with a short write; one whose new file cannot be opened; and the write
    after that, on the closed file. *)
Lemma log_Write_spec_witness :
  let e o := mkFileEnv 7 (mkCivil 2024 3 7 9 5 0) true o 2 in
  let rw := mkRotatingWriter true "a.log" 3 4 5 30 in
  let closed := mkRotatingWriter false "a.log" 3 4 5 30 in
  let dir := {["a.log" := mkLogFile "one" 0]} : gmap string LogFile in
  (let '(n, err, rw', dir') := log_Write (e OpenOk) "three" rw dir in
   rw_open rw' = true ∧ dir' !! "a.log" = Some (mkLogFile "th" 7)) ∧
  (let '(n, err, rw', dir') := log_Write (e OpenFails) "three" rw dir in
   err = Some ErrOpen ∧ rw_open rw' = false ∧ dir' !! "a.log" = None ∧
   dir' !! "a-20240307-090500.log" = Some (mkLogFile "one" 0)) ∧
  (let '(n, err, rw', dir') := log_Write (e OpenOk) "x" closed dir in
   n = 0 ∧ err = Some ErrClosed ∧ rw' = closed ∧ dir' = dir).
Proof.
  intros e rw closed dir. split; [|split].
  - pose proof (log_Write_spec (e OpenOk) "three" rw dir) as Hw.
    destruct (log_Write (e OpenOk) "three" rw dir) as [[[n err] rw'] dir'].
    destruct Hw as (_ & _ & _ & aside & left & [-> ->] & _ & _ & _ & _ & Ho & Hd & _);
      [by split; [eexists |] | done | by vm_compute | by vm_compute | by split].
  - pose proof (log_Write_spec (e OpenFails) "three" rw dir) as Hw.
    destruct (log_Write (e OpenFails) "three" rw dir) as [[[n err] rw'] dir'].
    destruct Hw as (_ & _ & _ & aside & left & [-> ->] & Hb & _ & _ & He & Hc & Hd);
      [by split; [eexists |] | done | by vm_compute | by vm_compute |].
    split; [exact He | split; [exact Hc | split; [exact Hd | exact Hb]]].
  - pose proof (log_Write_spec (e OpenOk) "x" closed dir) as Hw.
    destruct (log_Write (e OpenOk) "x" closed dir) as [[[n err] rw'] dir'].
    destruct Hw as (_ & _ & _ & aside & left & _ & _ & _ & Hw);
      [done | done | by vm_compute | by vm_compute | exact Hw].
Defined.

Lemma cleanup_spec_witness :
  let rw := mkRotatingWriter true "a.log" 0 10 1 30 in
  let dir := <["a-20240307-090500.log" := mkLogFile "new" 5]>
    {["a-20240306-090500.log" := mkLogFile "old" 4]} : gmap string LogFile in
  ∃ dir', log_cleanup (mkCleanupEnv true (λ _, true) (λ _, true) 0) rw dir = Some dir' ∧
    dir' !! "a-20240306-090500.log" = None.
Proof.
  intros rw dir.
  destruct (cleanup_spec (mkCleanupEnv true (λ _, true) (λ _, true) 0) rw dir) as (dir' & Hc & Hl & _);
    [done |].
  exists dir'. split; [exact Hc |]. by rewrite Hl.
Defined.

Lemma Write_extends_stream_witness :
  let e := mkFileEnv 7 (mkCivil 2024 3 7 9 5 0) true OpenOk 100 in
  let rw := mkRotatingWriter true "a.log" 3 4 5 30 in
  let dir := <["a-20240306-235959.log" := mkLogFile "zero" 5]>
    {["a.log" := mkLogFile "one" 0]} : gmap string LogFile in
  let '(_, err, rw', dir') := log_Write e "two" rw dir in
  err = None ∧ log_stream rw' dir' = "zeroonetwo".
Proof.
  intros e rw dir.
  pose proof (Write_extends_stream e "two" rw dir (mkLogFile "one" 0)) as Hw.
  destruct (log_Write e "two" rw dir) as [[[n err] rw'] dir'].
  destruct Hw as [He Hs]; [done | | done | by vm_compute | done | done | simpl; unfold len; simpl; lia
    | unfold civil_ok; simpl; lia | |].
  - intros _. split; [by eexists | done].
  - intros b Hb. assert (backups rw dir = ["a-20240306-235959.log"]) as Hbs by by vm_compute.
    rewrite Hbs in Hb. apply list_elem_of_singleton in Hb as ->.
    exists (mkCivil 2024 3 6 23 59 59). split; [done |].
    split; [unfold civil_ok; simpl; lia | unfold civil_lt; simpl; lia].
  - split; [exact He |]. rewrite Hs. by vm_compute.
Defined.
