(* ===== verification/Health.v ===== *)
(** * Health and readiness (internal/health/health.go)

    A readiness check probes every route in a goroutine of its own and collects
    the answers in the order they arrive, which is any; the result is kept for
    five seconds.  Dialling is a parameter: what addresses answer within the
    timeout. *)

From stdpp Require Import sorting.
From S2P Require Import Prelude GoStrings GoNet CircuitBreaker FailureRateBreaker Config ConfigValidate Json Http.
Import FailureRate(State, StateClosed, StateOpen, StateHalfOpen).

Open Scope Z_scope.

Definition livenessBody : string := encode (JObject [("status", JString "ok")]) +:+ newline.

Definition readinessCacheTTL : Duration := 5 * Second.

(** The cache is what the handler's mutex protects; [None] is a nil body. *)
Record HealthHandler := mkHealth {
  hh_routes : list RouteConfig;
  hh_cachedResult : option string; hh_cachedStatus : Z; hh_cachedAt : Time
}.

#[export] Instance HealthHandler_eta : Eta HealthHandler := λ h,
  mkHealth (hh_routes h) (hh_cachedResult h) (hh_cachedStatus h) (hh_cachedAt h).

(** [New(routes, breakers, logger)]; the breakers are shared with the proxy, so
    what a check sees of them is an argument of the check. *)
Definition NewHealth (routes : list RouteConfig) : HealthHandler := mkHealth routes None 0 0.

Record BackendResult := mkResult { br_prefix : string; br_backend : string; br_status : string; br_ok : bool }.

Definition json_answer_ops (status : Z) (body : string) : list WriterOp :=
  [OpHeader (header_Set "Content-Type" "application/json"); OpWriteHeader status; OpWrite body].

Definition liveness : list WriterOp := json_answer_ops StatusOK livenessBody.

Definition hasPort (host : string) : bool :=
  match SplitHostPort host with Some _ => true | None => false end.

(** The address dialled for a backend. *)
Definition dial_address (u : URL) : string :=
  if hasPort (u_Host u) then u_Host u
  else u_Host u +:+ (if decide (u_Scheme u = "https") then ":443" else ":80").

Section readiness.
  Context `{ConfigLib} (dial : string → bool).

(** The result for one route, given the state of its breaker ([None]: it has none);
    [cancelled]: the client that asked is gone, so the request's context fails
    every dial. *)
Definition probe_result (cancelled : bool) (route : RouteConfig) (st : option State) : BackendResult :=
  let result := mkResult (r_PathPrefix route) (r_Backend route) in
  match st with
  | Some StateOpen => result "circuit-open" false
  | Some StateHalfOpen => result "circuit-half-open" true
  | _ =>
    match url_Parse (r_Backend route) with
    | Err _ => result "invalid URL" false
    | Ok u =>
        if negb cancelled && dial (dial_address u) then result "ok" true
        else result "unreachable" false
    end
  end.

(** The goroutine of one route.  A breaker that is nil is absent. *)
Definition probe (breakers : gmap string CompositeBreaker) (cancelled : bool) (route : RouteConfig)
    : BackendResult :=
  probe_result cancelled route (EffectiveState <$> breakers !! r_Backend route).

(** The loop that receives the results. *)
Definition collect (arrivals : list BackendResult) : gmap string string * bool :=
  foldl (λ '(results, down) res, (<[br_prefix res := br_status res]> results, down || negb (br_ok res)))
    (∅, false) arrivals.

Definition readiness_body (results : gmap string string) (down : bool) : string :=
  encode (JObject [("backends", json_map results);
                   ("status", JString (if down then "not ready" else "ready"))]) +:+ newline.

(** [h.readiness(w, r)]: the answer and the handler afterwards.  [now] and [later]
    are the readings of the clock at the cache's check and update; [arrivals]
    are the results of the probes in the order they come in, unused when the
    cache is fresh. *)
Definition readiness (now later : Time) (arrivals : list BackendResult) (h : HealthHandler)
    : list WriterOp * HealthHandler :=
  let refresh :=
    let '(results, down) := collect arrivals in
    let status := if down then StatusServiceUnavailable else StatusOK in
    let body := readiness_body results down in
    (json_answer_ops status body,
     h <| hh_cachedResult := Some body |> <| hh_cachedStatus := status |> <| hh_cachedAt := later |>) in
  match hh_cachedResult h with
  | Some body =>
      if decide (time_sub now (hh_cachedAt h) < readinessCacheTTL) then
        (json_answer_ops (hh_cachedStatus h) body, h)
      else refresh
  | None => refresh
  end.
End readiness.

(** ** Lemmas *)

Lemma collect_snoc l r :
  collect (l ++ [r]) =
  (<[br_prefix r := br_status r]> (collect l).1, (collect l).2 || negb (br_ok r)).
Proof. unfold collect. rewrite foldl_app. simpl. by destruct (foldl _ _ l). Qed.

(** With one result per prefix the order of arrival is immaterial. *)
Lemma collect_spec l :
  NoDup (br_prefix <$> l) →
  (∀ p s, (collect l).1 !! p = Some s ↔ ∃ r, r ∈ l ∧ br_prefix r = p ∧ br_status r = s) ∧
  ((collect l).2 = false ↔ Forall (λ r, br_ok r = true) l).
Proof.
  induction l as [|r l IH] using rev_ind; intros Hnd.
  - split; [|done]. intros p s. split; [done |]. by intros (? & ?%elem_of_nil & _).
  - rewrite fmap_app in Hnd. apply NoDup_app in Hnd as (Hnd & Hdis & _).
    destruct (IH Hnd) as [IH1 IH2]. rewrite collect_snoc. simpl. split.
    + intros p s. destruct (decide (p = br_prefix r)) as [->|Hp].
      * rewrite lookup_insert_eq. split.
        -- intros [= <-]. exists r. split; [|done]. apply elem_of_app. right. by left.
        -- intros (r' & Hr' & Hpr & <-). apply elem_of_app in Hr' as [Hr'|Hr'].
           ++ exfalso. apply (Hdis (br_prefix r')); [by apply list_elem_of_fmap_2 |].
              rewrite Hpr. by left.
           ++ apply list_elem_of_singleton in Hr' as ->. done.
      * rewrite lookup_insert_ne, IH1 by done. split.
        -- intros (r' & Hr' & ?). exists r'. split; [|done]. apply elem_of_app. by left.
        -- intros (r' & Hr' & Hpr & Hs). exists r'. apply elem_of_app in Hr' as [?|Hr']; [done |].
           apply list_elem_of_singleton in Hr' as ->. by destruct Hp.
    + rewrite orb_false_iff, IH2, Forall_app, Forall_singleton, negb_false_iff. done.
Qed.

Lemma readiness_valid v down :
  valid_json v = true →
  valid_json (JObject [("backends", v); ("status", JString (if down : bool then "not ready" else "ready"))])
  = true.
Proof.
  intros Hv. cbn [valid_json forallb fst snd]. rewrite Hv, andb_true_r.
  destruct down; by vm_compute.
Qed.

Section spec.
  Context `{ConfigLib} (dial : string → bool).

Lemma probe_prefix breakers cancelled r : br_prefix (probe dial breakers cancelled r) = r_PathPrefix r.
Proof. unfold probe, probe_result. by repeat case_match. Qed.

Lemma probe_status_valid breakers cancelled r :
  valid_utf8 (br_status (probe dial breakers cancelled r)) = true.
Proof. unfold probe, probe_result. by repeat case_match. Qed.

Definition cache_fresh (now : Time) (h : HealthHandler) : bool :=
  negb (is_nil (hh_cachedResult h)) && bool_decide (time_sub now (hh_cachedAt h) < readinessCacheTTL).

(** C31. A readiness check that is not answered from the cache says 200 if no route is
    down and 503 otherwise, whatever the order in which the probes end; a client
    that parses its body finds exactly each route's prefix with its probe's
    status; and for five seconds every other check gets the very same answer. *)
Theorem readiness_spec (breakers : gmap string CompositeBreaker) (cancelled : bool) (now later : Time)
    (arrivals : list BackendResult) (h : HealthHandler) :
  cache_fresh now h = false →
  arrivals ≡ₚ (probe dial breakers cancelled <$> hh_routes h) →
  NoDup (r_PathPrefix <$> hh_routes h) →
  Forall (λ r, valid_utf8 (r_PathPrefix r) = true) (hh_routes h) →
  let up := forallb (λ r, br_ok (probe dial breakers cancelled r)) (hh_routes h) in
  ∃ text l,
    (readiness now later arrivals h).1 =
      json_answer_ops (if up then StatusOK else StatusServiceUnavailable) (text +:+ newline) ∧
    parse_json text = Some (JObject [("backends", JObject l);
      ("status", JString (if up then "ready" else "not ready"))]) ∧
    (∀ p s, (p, JString s) ∈ l ↔
       ∃ r, r ∈ hh_routes h ∧ r_PathPrefix r = p ∧ br_status (probe dial breakers cancelled r) = s) ∧
    (∀ now' later' arrivals', time_sub now' later < readinessCacheTTL →
       readiness now' later' arrivals' (readiness now later arrivals h).2 = readiness now later arrivals h).
Proof.
  intros Hfresh Harr Hnd Hval up.
  assert (NoDup (br_prefix <$> arrivals)) as Hnd'.
  { rewrite Harr, <-list_fmap_compose. rewrite (list_fmap_ext _ r_PathPrefix); [done |].
    intros. apply probe_prefix. }
  destruct (collect_spec arrivals Hnd') as [Hlook Hdown].
  assert (∀ p s, (collect arrivals).1 !! p = Some s ↔
    ∃ r, r ∈ hh_routes h ∧ r_PathPrefix r = p ∧ br_status (probe dial breakers cancelled r) = s) as Hlook'.
  { intros p s. rewrite Hlook. split.
    - intros (b & Hb & <- & <-). rewrite Harr in Hb. apply list_elem_of_fmap in Hb as (r & -> & Hr).
      exists r. by rewrite probe_prefix.
    - intros (r & Hr & <- & <-). exists (probe dial breakers cancelled r).
      rewrite Harr, probe_prefix. split; [by apply list_elem_of_fmap_2 | done]. }
  assert ((collect arrivals).2 = negb up) as Hup.
  { destruct up eqn:Hu; simpl.
    - apply Hdown. rewrite Harr, Forall_fmap. apply Forall_forall. intros r Hr.
      unfold up in Hu. rewrite forallb_forall in Hu. apply Hu. by apply list_elem_of_In.
    - apply not_false_iff_true. intros Hf. apply Hdown in Hf. rewrite Harr, Forall_fmap in Hf.
      unfold up in Hu. apply not_true_iff_false in Hu. apply Hu, forallb_forall. intros r Hr.
      rewrite Forall_forall in Hf. apply Hf. by apply list_elem_of_In. }
  assert (∀ rdy, rdy = readiness now later arrivals h →
    rdy = (json_answer_ops (if up then StatusOK else StatusServiceUnavailable)
             (readiness_body (collect arrivals).1 (negb up)),
           mkHealth (hh_routes h) (Some (readiness_body (collect arrivals).1 (negb up)))
             (if up then StatusOK else StatusServiceUnavailable) later)) as Hrdy.
  { intros rdy ->. unfold readiness, cache_fresh in *. destruct (collect arrivals) as [results down].
    simpl in Hup. subst down. destruct (hh_cachedResult h); simpl in Hfresh.
    - apply bool_decide_eq_false in Hfresh. rewrite decide_False by done. by destruct up.
    - by destruct up. }
  rewrite (Hrdy _ eq_refl). destruct (json_map_spec (collect arrivals).1) as (l & Hl & Hmem).
  eexists _, l. split; [done |]. split_and!.
  - rewrite parse_encode; [rewrite Hl; by destruct up |]. assert (valid_json (json_map (collect arrivals).1) = true) as Hv; [apply json_map_valid |].
    2: by apply readiness_valid.
    intros p s Hp. apply Hlook' in Hp as (r & Hr & <- & <-). split; [|apply probe_status_valid].
    rewrite Forall_forall in Hval. by apply Hval.
  - intros p s. by rewrite Hmem, Hlook'.
  - intros now' later' arrivals' Ht. unfold readiness. simpl. by rewrite decide_True.
Qed.
End spec.

(** ** Witnesses *)

Definition health_demo : HealthHandler :=
  NewHealth [demo_route <| r_PathPrefix := "/a" |>; demo_route <| r_PathPrefix := "/b" |>].

Definition answer_status (ops : list WriterOp) : option Z :=
  head (omap (λ op, match op with OpWriteHeader st => Some st | _ => None end) ops).

Lemma readiness_spec_witness :
  let lib := demo_lib (empty_config []) in
  let dial a := bool_decide (a = "users:3000") in
  let ps := probe dial ∅ false <$> hh_routes health_demo in
  answer_status (readiness 10 12 (reverse ps) health_demo).1 = Some 200 ∧
  readiness 20 21 [] (readiness 10 12 (reverse ps) health_demo).2 = readiness 10 12 (reverse ps) health_demo.
Proof.
  intros lib dial ps.
  destruct (readiness_spec dial ∅ false 10 12 (reverse ps) health_demo) as (text & l & Ha & _ & _ & Hc).
  - done.
  - unfold ps. by rewrite reverse_Permutation.
  - by apply (bool_decide_unpack _).
  - repeat constructor; by vm_compute.
  - split; [by rewrite Ha |]. by apply Hc.
Defined.

(** A client that goes away while its check runs makes every dial fail, and its
    "not ready" is what all others get for the next five seconds. *)
Example cancelled_check_is_cached :
  let lib := demo_lib (empty_config []) in
  let ps := probe (λ _, true) ∅ true <$> hh_routes health_demo in
  let h := (readiness 10 12 ps health_demo).2 in
  answer_status (readiness (4 * Second) (4 * Second) (probe (λ _, true) ∅ false <$> hh_routes h) h).1
  = Some 503.
Proof. by vm_compute. Qed.
