(* ===== verification/AdminJson.v ===== *)
(** * What the admin API encodes (the json tags of internal/config/config.go and of
    ratelimit.LimiterEntry)

    The values [encoding/json] makes of the configuration and of the limiter's
    entries, member by member in the order of the fields.  A float that is not
    finite has no encoding, so these are options.  The text of a float and of a
    time are a parameter, [GoJson].  A slice that is empty here is a nil one, which
    is shown as null: the key was absent from the file. *)

From S2P Require Import Prelude GoFloat GoStrings Config Json RateLimit.

Open Scope Z_scope.

(** The encoder's texts: of a float the shortest decimal that rounds to it, an error
    for NaN and the infinities; of a time RFC 3339 in the zone of the process. *)
Class GoJson := {
  json_float : float64 → option string;
  json_time : Time → string;
  json_float_finite f : is_Some (json_float f) ↔ is_Some (f64_trunc f);
  json_float_number f t : json_float f = Some t → number_text t = true;
  json_float_inj f f' t : json_float f = Some t → json_float f' = Some t → f = f';
  json_time_valid t : valid_utf8 (json_time t) = true
}.

#[local] Instance JString_inj : Inj (=) (=) JString.
Proof. by intros ? ? [= ->]. Qed.

#[local] Instance JObject_inj : Inj (=) (=) JObject.
Proof. by intros ? ? [= ->]. Qed.

Definition json_strings (l : list string) : Json :=
  if decide (l = []) then JNull else JArray (JString <$> l).

(** A member that [omitempty] leaves out. *)
Definition omit (empty : bool) (member : string * Json) : list (string * Json) :=
  if empty then [] else [member].

Definition tls_json (t : TLSConfig) : Json :=
  JObject [("enabled", JBool (tls_Enabled t)); ("cert_file", JString (tls_CertFile t));
           ("key_file", JString (tls_KeyFile t)); ("min_version", JString (tls_MinVersion t))].

Definition server_json (s : ServerConfig) : Json :=
  JObject [("port", JInt (s_Port s)); ("read_timeout", JInt (s_ReadTimeout s));
           ("write_timeout", JInt (s_WriteTimeout s)); ("shutdown_timeout", JInt (s_ShutdownTimeout s));
           ("trusted_proxies", json_strings (s_TrustedProxies s));
           ("max_body_bytes", JInt (s_MaxBodyBytes s)); ("global_timeout_ms", JInt (s_GlobalTimeoutMs s));
           ("tls", tls_json (s_TLS s))].

Definition metrics_json (m : MetricsConfig) : Json :=
  JObject [("enabled", match m_Enabled m with Some b => JBool b | None => JNull end);
           ("path", JString (m_Path m))].

Definition logging_json (l : LoggingConfig) : Json :=
  JObject [("output", JString (l_Output l)); ("max_size_mb", JInt (l_MaxSizeMB l));
           ("max_backups", JInt (l_MaxBackups l)); ("max_age_days", JInt (l_MaxAgeDays l));
           ("body_logging", JBool (l_BodyLogging l)); ("max_body_log_bytes", JInt (l_MaxBodyLogBytes l))].

Definition auth_json (a : AuthConfig) : Json :=
  JObject [("enabled", JBool (au_Enabled a)); ("jwt_secret", JString (au_JWTSecret a));
           ("issuer", JString (au_Issuer a)); ("audience", JString (au_Audience a));
           ("scopes", json_strings (au_Scopes a))].

Definition admin_json (a : AdminConfig) : Json :=
  JObject [("enabled", JBool (adm_Enabled a)); ("ip_allowlist", json_strings (adm_IPAllowlist a))].

Definition pool_json (p : ConnectionPoolConfig) : Json :=
  JObject [("max_idle_conns", JInt (cp_MaxIdleConns p)); ("max_idle_per_host", JInt (cp_MaxIdlePerHost p));
           ("idle_timeout", JInt (cp_IdleTimeout p))].

Section json.
Context `{GoJson}.

Definition json_number (f : float64) : option Json := JNumber <$> json_float f.

Definition rate_limit_json (rl : RateLimitConfig) : option Json :=
  rps ← json_number (rl_RequestsPerSecond rl);
  Some (JObject [("requests_per_second", rps); ("burst_size", JInt (rl_BurstSize rl));
                 ("idle_ttl", JInt (rl_IdleTTL rl)); ("cleanup_interval", JInt (rl_CleanupInterval rl))]).

Definition circuit_breaker_json (c : CircuitBreakerConfig) : option Json :=
  threshold ← json_number (cbc_FailureThreshold c);
  floor ← json_number (cbc_MinThreshold c);
  Some (JObject [("window_size", JInt (cbc_WindowSize c)); ("failure_threshold", threshold);
                 ("reset_timeout", JInt (cbc_ResetTimeout c)); ("half_open_max", JInt (cbc_HalfOpenMax c));
                 ("slow_threshold", JInt (cbc_SlowThreshold c)); ("max_concurrent", JInt (cbc_MaxConcurrent c));
                 ("adaptive", JBool (cbc_Adaptive c)); ("latency_ceiling", JInt (cbc_LatencyCeiling c));
                 ("min_threshold", floor)]).

(** A nil pointer is left out; else [Some] of its encoding, if that exists. *)
Definition pointer_json {A} (json : A → option Json) (key : string) (p : option A)
    : option (list (string * Json)) :=
  match p with None => Some [] | Some x => j ← json x; Some [(key, j)] end.

(** The members of a route before and after those that may be left out. *)
Definition route_members (r : RouteConfig) : list (string * Json) :=
  [("path_prefix", JString (r_PathPrefix r)); ("backend", JString (r_Backend r));
   ("strip_prefix", JBool (r_StripPrefix r)); ("methods", json_strings (r_Methods r));
   ("auth_required", JBool (r_AuthRequired r)); ("timeout_ms", JInt (r_TimeoutMs r));
   ("retry_attempts", JInt (r_RetryAttempts r))].

Definition route_last_members (r : RouteConfig) : list (string * Json) :=
  [("fallback_status", JInt (r_FallbackStatus r)); ("fallback_body", JString (r_FallbackBody r));
   ("log_level", JString (r_LogLevel r))].

Definition route_json (r : RouteConfig) : option Json :=
  override ← pointer_json rate_limit_json "rate_override" (r_RateOverride r);
  pool ← pointer_json (Some ∘ pool_json) "connection_pool" (r_ConnectionPool r);
  Some (JObject (route_members r ++
    omit (bool_decide (r_Headers r = ∅)) ("headers", json_map (r_Headers r)) ++
    override ++ pool ++ route_last_members r)).

(** [json.Marshal(cfg)]; the warnings are not encoded. *)
Definition config_json (cfg : Config) : option Json :=
  rate_limit ← rate_limit_json (cfg_RateLimit cfg);
  circuit_breaker ← circuit_breaker_json (cfg_CircuitBreaker cfg);
  routes ← mapM route_json (cfg_Routes cfg);
  Some (JObject
    [("server", server_json (cfg_Server cfg)); ("metrics", metrics_json (cfg_Metrics cfg));
     ("logging", logging_json (cfg_Logging cfg)); ("rate_limit", rate_limit);
     ("auth", auth_json (cfg_Auth cfg)); ("circuit_breaker", circuit_breaker);
     ("admin", admin_json (cfg_Admin cfg));
     ("routes", if decide (cfg_Routes cfg = []) then JNull else JArray routes)]).

(** [json.Marshal] of an entry of the snapshot. *)
Definition entry_json (e : LimiterEntry) : option Json :=
  rate ← json_number (le_Rate e);
  Some (JObject [("ip", JString (le_IP e)); ("rate", rate); ("burst", JInt (le_Burst e));
                 ("last_seen", JString (json_time (le_LastSeen e)))]).

(** ** The encoding determines what is encoded *)

Lemma Itoa_inj z z' : Itoa z = Itoa z' → z = z'.
Proof. apply (inj pretty). Qed.

Lemma json_strings_inj l l' : json_strings l = json_strings l' → l = l'.
Proof.
  unfold json_strings. repeat case_decide; subst; try done.
  intros [= Hl]. by apply (inj (fmap JString)).
Qed.

Lemma json_number_inj f f' j : json_number f = Some j → json_number f' = Some j → f = f'.
Proof.
  unfold json_number. intros (t & Ht & ->)%fmap_Some (t' & Ht' & [= ->])%fmap_Some.
  by eapply json_float_inj.
Qed.

Lemma json_map_inj m m' : json_map m = json_map m' → m = m'.
Proof.
  intros Hm. destruct (json_map_spec m) as (l & Hl & Hs), (json_map_spec m') as (l' & Hl' & Hs').
  assert (l = l') as <- by congruence. apply map_eq. intros k. apply option_eq. intros v.
  by rewrite <-Hs, <-Hs'.
Qed.
End json.

(** Equal encodings, field by field. *)
Ltac json_inj :=
  repeat match goal with
  | H : Some _ = Some _ |- _ => injection H as H
  | H : JObject _ = JObject _ |- _ => injection H; clear H; intros
  | H : JString _ = JString _ |- _ => injection H as H
  | H : JBool _ = JBool _ |- _ => injection H as H
  | H : Itoa _ = Itoa _ |- _ => apply Itoa_inj in H
  | H : json_strings _ = json_strings _ |- _ => apply json_strings_inj in H
  | H : json_map _ = json_map _ |- _ => apply json_map_inj in H
  | H : _ ≫= _ = Some _ |- _ => apply bind_Some in H as (? & ? & H)
  end.

Section inj.
Context `{GoJson}.

(** No two values have the same encoding. *)
Definition json_injective {A} (json : A → option Json) : Prop :=
  ∀ x y j, json x = Some j → json y = Some j → x = y.

Lemma server_json_inj s s' : server_json s = server_json s' → s = s'.
Proof.
  destruct s as [? ? ? ? ? ? ? []], s' as [? ? ? ? ? ? ? []]. unfold server_json, tls_json. simpl.
  intros Hj. json_inj. by subst.
Qed.

Lemma metrics_json_inj m m' : metrics_json m = metrics_json m' → m = m'.
Proof.
  destruct m as [[]], m' as [[]]; unfold metrics_json; simpl; intros [=]; by subst.
Qed.

Lemma logging_json_inj l l' : logging_json l = logging_json l' → l = l'.
Proof. destruct l, l'. unfold logging_json. simpl. intros Hj. json_inj. by subst. Qed.

Lemma auth_json_inj a a' : auth_json a = auth_json a' → a = a'.
Proof. destruct a, a'. unfold auth_json. simpl. intros Hj. json_inj. by subst. Qed.

Lemma admin_json_inj a a' : admin_json a = admin_json a' → a = a'.
Proof. destruct a, a'. unfold admin_json. simpl. intros Hj. json_inj. by subst. Qed.

Lemma pool_json_inj p p' : pool_json p = pool_json p' → p = p'.
Proof. destruct p, p'. unfold pool_json. simpl. intros Hj. json_inj. by subst. Qed.

Lemma pool_json_injective : json_injective (Some ∘ pool_json).
Proof.
  intros p p' j Hp Hp'. apply pool_json_inj. unfold compose in *.
  apply (inj Some). by rewrite Hp.
Qed.

Lemma rate_limit_json_inj : json_injective rate_limit_json.
Proof.
  intros [] [] j Hx Hy. unfold rate_limit_json in *. json_inj. subst. json_inj. subst.
  f_equal. by eapply json_number_inj.
Qed.

Lemma circuit_breaker_json_inj : json_injective circuit_breaker_json.
Proof.
  intros [] [] j Hx Hy. unfold circuit_breaker_json in *. json_inj. subst. json_inj. subst.
  f_equal; by eapply json_number_inj.
Qed.
(** A member that may be left out, in front of members with other keys. *)
Definition optional (k : string) (l : list (string * Json)) : Prop := l = [] ∨ ∃ j, l = [(k, j)].

Definition starts_without (k : string) (l : list (string * Json)) : Prop :=
  ∀ kv, head l = Some kv → kv.1 ≠ k.

Lemma starts_without_app k k' l rest :
  optional k' l → k' ≠ k → starts_without k rest → starts_without k (l ++ rest).
Proof. intros [->|[j ->]] Hk Hr kv; [apply Hr |]. by intros [= <-]. Qed.

Lemma optional_inj k l l' rest rest' :
  optional k l → optional k l' → starts_without k rest → starts_without k rest' →
  l ++ rest = l' ++ rest' → l = l' ∧ rest = rest'.
Proof.
  intros [->|[j ->]] [->|[j' ->]] Hr Hr'; simpl; [done | | | by intros [= -> ->]].
  - intros ->. by destruct (Hr (k, j') eq_refl).
  - intros <-. by destruct (Hr' (k, j) eq_refl).
Qed.

Lemma pointer_json_optional {A} (json : A → option Json) key p l :
  pointer_json json key p = Some l → optional key l.
Proof.
  destruct p as [x|]; simpl; [|intros [= <-]; by left].
  intros (j & _ & [= <-])%bind_Some. right. by exists j.
Qed.

Lemma pointer_json_inj {A} (json : A → option Json) key p p' l :
  json_injective json → pointer_json json key p = Some l → pointer_json json key p' = Some l → p = p'.
Proof.
  intros Hinj. destruct p as [x|], p' as [x'|]; simpl.
  - intros (j & Hj & [= <-])%bind_Some (j' & Hj' & [= ->])%bind_Some. f_equal. by eapply Hinj.
  - by intros (j & Hj & [= <-])%bind_Some [=].
  - intros [= <-] (j & Hj & [=])%bind_Some.
  - done.
Qed.

Lemma headers_optional h : optional "headers" (omit (bool_decide (h = ∅)) ("headers", json_map h)).
Proof. unfold omit. case_bool_decide; [by left | right; by eexists]. Qed.

Lemma headers_inj (h h' : gmap string string) :
  omit (bool_decide (h = ∅)) ("headers", json_map h) =
  omit (bool_decide (h' = ∅)) ("headers", json_map h') → h = h'.
Proof.
  unfold omit. repeat case_bool_decide; subst; try done. intros Hm.
  apply json_map_inj. generalize dependent (json_map h). intros j Hm. by injection Hm.
Qed.

Lemma route_json_inj : json_injective route_json.
Proof.
  intros r r' j Hx Hy. unfold route_json in *.
  apply bind_Some in Hx as (o & Ho & Hx), Hy as (o' & Ho' & Hy).
  apply bind_Some in Hx as (p & Hp & Hx), Hy as (p' & Hp' & Hy).
  rewrite <-Hx in Hy. apply (inj Some), (inj JObject), app_inj_1 in Hy as [Hfixed Hy]; [|done].
  pose proof (pointer_json_optional _ _ _ _ Ho) as Oo. pose proof (pointer_json_optional _ _ _ _ Ho') as Oo'.
  pose proof (pointer_json_optional _ _ _ _ Hp) as Op. pose proof (pointer_json_optional _ _ _ _ Hp') as Op'.
  apply (optional_inj "headers") in Hy as [Hh Hy]; [| apply headers_optional.. | |].
  2,3: eapply starts_without_app; [done | done |]; eapply starts_without_app; [done | done |]; by intros kv [= <-].
  apply (optional_inj "rate_override") in Hy as [-> Hy]; [|done | done | |].
  2,3: eapply starts_without_app; [done | done |]; by intros kv [= <-].
  apply (optional_inj "connection_pool") in Hy as [-> Hy]; [|done | done | by intros kv [= <-] ..].
  apply headers_inj in Hh.
  assert (r_RateOverride r = r_RateOverride r') as Hro by (by eapply pointer_json_inj; [apply rate_limit_json_inj | ..]).
  assert (r_ConnectionPool r = r_ConnectionPool r') as Hpo by (by eapply pointer_json_inj; [apply pool_json_injective | ..]).
  destruct r, r'. cbn -[json_map json_strings Itoa] in *. injection Hfixed. injection Hy. clear Hfixed Hy.
  intros. json_inj. by subst.
Qed.

Lemma member_inj {A B} (k : A) (x y : B) l l' : (k, x) :: l = (k, y) :: l' → x = y ∧ l = l'.
Proof. by intros [= -> ->]. Qed.

Lemma mapM_json_inj {A} (json : A → option Json) l l' k :
  json_injective json → mapM json l = Some k → mapM json l' = Some k → l = l'.
Proof.
  intros Hinj Hl%mapM_Some Hl'%mapM_Some. revert l' Hl'.
  induction Hl as [|x j l k Hx Hl IH]; intros l' Hl'; inversion Hl'; subst; [done |].
  f_equal; [by eapply Hinj | by apply IH].
Qed.

(** Without its warnings, which are not encoded. *)
Definition unwarned (cfg : Config) : Config := cfg <| cfg_Warnings := [] |>.

Lemma config_json_inj cfg cfg' j :
  config_json cfg = Some j → config_json cfg' = Some j → unwarned cfg = unwarned cfg'.
Proof.
  intros Hx Hy. unfold config_json in *.
  apply bind_Some in Hx as (rl & Hrl & Hx), Hy as (rl' & Hrl' & Hy).
  apply bind_Some in Hx as (cb & Hcb & Hx), Hy as (cb' & Hcb' & Hy).
  apply bind_Some in Hx as (rs & Hrs & Hx), Hy as (rs' & Hrs' & Hy).
  rewrite <-Hx in Hy. apply (inj Some), (inj JObject) in Hy.
  apply member_inj in Hy as [Hs Hy]. apply member_inj in Hy as [Hm Hy].
  apply member_inj in Hy as [Hl Hy]. apply member_inj in Hy as [-> Hy].
  apply member_inj in Hy as [Ha Hy]. apply member_inj in Hy as [-> Hy].
  apply member_inj in Hy as [Had Hy]. apply member_inj in Hy as [Hr _].
  assert (cfg_Routes cfg = cfg_Routes cfg') as Hroutes.
  { revert Hr. repeat case_decide; [congruence | done | done |]. intros [= ->].
    by eapply mapM_json_inj; [apply route_json_inj | ..]. }
  apply server_json_inj in Hs. apply metrics_json_inj in Hm. apply logging_json_inj in Hl.
  apply auth_json_inj in Ha. apply admin_json_inj in Had.
  assert (cfg_RateLimit cfg = cfg_RateLimit cfg') as Hrl'' by by eapply rate_limit_json_inj.
  assert (cfg_CircuitBreaker cfg = cfg_CircuitBreaker cfg') as Hcb'' by by eapply circuit_breaker_json_inj.
  unfold unwarned. destruct cfg, cfg'. simpl in *. congruence.
Qed.

(** ** What has an encoding *)

Definition finite (f : float64) : Prop := is_Some (f64_trunc f).

Definition config_floats (cfg : Config) : list float64 :=
  rl_RequestsPerSecond (cfg_RateLimit cfg) ::
  cbc_FailureThreshold (cfg_CircuitBreaker cfg) :: cbc_MinThreshold (cfg_CircuitBreaker cfg) ::
  omap (λ r, rl_RequestsPerSecond <$> r_RateOverride r) (cfg_Routes cfg).

Lemma json_number_finite f : is_Some (json_number f) ↔ finite f.
Proof. unfold json_number. rewrite fmap_is_Some. apply json_float_finite. Qed.

Lemma rate_limit_json_finite rl : is_Some (rate_limit_json rl) ↔ finite (rl_RequestsPerSecond rl).
Proof.
  rewrite <-json_number_finite. unfold rate_limit_json. destruct (json_number _); simpl;
    split; intros [? [=]]; by eexists.
Qed.

Lemma circuit_breaker_json_finite c :
  is_Some (circuit_breaker_json c) ↔ finite (cbc_FailureThreshold c) ∧ finite (cbc_MinThreshold c).
Proof.
  rewrite <-!json_number_finite. unfold circuit_breaker_json.
  destruct (json_number (cbc_FailureThreshold c)), (json_number (cbc_MinThreshold c)); simpl;
    (split; [intros [? [=]] | intros [[? [=]] [? [=]]]]); by repeat eexists.
Qed.

Lemma route_json_finite r :
  is_Some (route_json r) ↔ (∀ o, r_RateOverride r = Some o → finite (rl_RequestsPerSecond o)).
Proof.
  unfold route_json. destruct (r_RateOverride r) as [o|]; simpl.
  - pose proof (rate_limit_json_finite o) as Ho. destruct (rate_limit_json o); simpl.
    + destruct (r_ConnectionPool r); simpl; (split; [intros _ ? [= <-]; by apply Ho | by eexists]).
    + split; [by intros [? ?] |]. intros Hf. destruct Ho as [_ Ho]. by destruct (Ho (Hf o eq_refl)).
  - destruct (r_ConnectionPool r); simpl; (split; [by intros _ ? ? | by eexists]).
Qed.

(** Exactly the configurations whose floats are finite can be shown. *)
Lemma config_json_finite cfg : is_Some (config_json cfg) ↔ Forall finite (config_floats cfg).
Proof.
  assert (is_Some (mapM route_json (cfg_Routes cfg)) ↔
    Forall finite (omap (λ r, rl_RequestsPerSecond <$> r_RateOverride r) (cfg_Routes cfg))) as Hr.
  { rewrite mapM_is_Some. induction (cfg_Routes cfg) as [|r rs IH]; [by split; constructor |].
    rewrite Forall_cons, IH. change ((is_Some ∘ route_json) r) with (is_Some (route_json r)).
    rewrite route_json_finite. simpl.
    destruct (r_RateOverride r) as [o|]; simpl; [|by split; [intros [_ ?] | intros ?; split]].
    rewrite Forall_cons.
    split; [intros [Ho ?]; split; [by apply Ho | done] |].
    intros [Ho ?]. split; [|done]. intros o' [= <-]. exact Ho. }
  unfold config_floats, config_json. rewrite !Forall_cons, <-Hr, <-rate_limit_json_finite.
  rewrite (assoc (∧) (finite (cbc_FailureThreshold _))), <-circuit_breaker_json_finite.
  destruct (rate_limit_json _), (circuit_breaker_json _), (mapM route_json _); simpl;
    (split; [intros [? [=]] | intros ([? [=]] & [? [=]] & [? [=]])]); by repeat eexists.
Qed.
End inj.

(** ** What can be read back

    The texts of a configuration; if they are valid UTF-8, its encoding is read
    back by a client ([parse_encode]). *)

Definition route_texts (r : RouteConfig) : list string :=
  [r_PathPrefix r; r_Backend r; r_FallbackBody r; r_LogLevel r] ++ r_Methods r ++
  ((map_to_list (r_Headers r)).*1 ++ (map_to_list (r_Headers r)).*2).

Definition config_texts (cfg : Config) : list string :=
  let tls := s_TLS (cfg_Server cfg) in
  let auth := cfg_Auth cfg in
  [tls_CertFile tls; tls_KeyFile tls; tls_MinVersion tls; m_Path (cfg_Metrics cfg); l_Output (cfg_Logging cfg);
   au_JWTSecret auth; au_Issuer auth; au_Audience auth] ++
  s_TrustedProxies (cfg_Server cfg) ++ au_Scopes auth ++ adm_IPAllowlist (cfg_Admin cfg) ++
  (cfg_Routes cfg ≫= route_texts).

Definition valid_texts (l : list string) : Prop := Forall (λ s, valid_utf8 s = true) l.

(** A member list is valid if its names and values are. *)
Definition valid_members (l : list (string * Json)) : Prop :=
  Forall (λ kv, valid_utf8 kv.1 = true ∧ valid_json kv.2 = true) l.

Lemma valid_object l : valid_members l → valid_json (JObject l) = true.
Proof.
  intros Hl. cbn [valid_json]. apply forallb_forall. intros kv Hin%list_elem_of_In.
  unfold valid_members in Hl. rewrite Forall_forall in Hl. destruct (Hl kv Hin). by apply andb_true_iff.
Qed.

Lemma valid_json_strings l : valid_texts l → valid_json (json_strings l) = true.
Proof.
  intros Hl. unfold json_strings. case_decide; [done |]. cbn [valid_json]. apply forallb_forall.
  intros j (s & -> & Hs)%list_elem_of_In%list_elem_of_fmap. unfold valid_texts in Hl.
  rewrite Forall_forall in Hl. by apply Hl.
Qed.

Lemma valid_headers h :
  valid_texts ((map_to_list h).*1 ++ (map_to_list h).*2) → valid_json (json_map h) = true.
Proof.
  intros [Hk Hv]%Forall_app. apply json_map_valid. intros k v Hkv. apply elem_of_map_to_list in Hkv.
  rewrite Forall_forall in Hk, Hv. split; [apply Hk | apply Hv]; apply list_elem_of_fmap; by exists (k, v).
Qed.

(** Members one by one: names are literals, values integers, texts or known to be valid. *)
Ltac solve_members :=
  unfold valid_members;
  repeat (apply Forall_cons; split; [split; [reflexivity | cbn [snd];
    first [reflexivity | assumption | auto using valid_JInt, valid_json_strings]] |]);
  try by constructor.

Lemma valid_tls_json t :
  valid_texts [tls_CertFile t; tls_KeyFile t; tls_MinVersion t] → valid_json (tls_json t) = true.
Proof.
  intros Ht. unfold valid_texts in Ht. rewrite !Forall_cons in Ht. destruct Ht as (? & ? & ? & _).
  apply valid_object. solve_members.
Qed.

Section valid.
Context `{GoJson}.

Lemma valid_json_number f j : json_number f = Some j → valid_json j = true.
Proof. intros (t & Ht & ->)%fmap_Some. by eapply json_float_number. Qed.

Lemma valid_rate_limit_json rl j : rate_limit_json rl = Some j → valid_json j = true.
Proof.
  intros (rps & Hr%valid_json_number & [= <-])%bind_Some. apply valid_object. solve_members.
Qed.

Lemma valid_circuit_breaker_json c j : circuit_breaker_json c = Some j → valid_json j = true.
Proof.
  intros (x & Hx%valid_json_number & (y & Hy%valid_json_number & [= <-])%bind_Some)%bind_Some.
  apply valid_object. solve_members.
Qed.

Lemma valid_pointer {A} (json : A → option Json) key p l :
  valid_utf8 key = true → (∀ x j, json x = Some j → valid_json j = true) →
  pointer_json json key p = Some l → valid_members l.
Proof.
  intros Hk Hj. destruct p as [x|]; simpl; [|intros [= <-]; constructor].
  intros (j & Hx & [= <-])%bind_Some. constructor; [|constructor]. split; [done | by eapply Hj].
Qed.

Lemma valid_pool p j : (Some ∘ pool_json) p = Some j → valid_json j = true.
Proof. intros [= <-]. apply valid_object. solve_members. Qed.

Lemma valid_route_json r j : valid_texts (route_texts r) → route_json r = Some j → valid_json j = true.
Proof.
  intros Ht Hj. unfold route_texts, valid_texts in Ht. rewrite !Forall_app, !Forall_cons in Ht.
  destruct Ht as ((Hp & Hb & Hf & Hl & _) & Hm & Hh).
  unfold route_json in Hj. apply bind_Some in Hj as (o & Ho & Hj). apply bind_Some in Hj as (p & Hpool & Hj).
  apply (inj Some) in Hj. subst j. apply valid_object. unfold valid_members. rewrite !Forall_app. split_and!.
  - unfold route_members. solve_members.
  - unfold omit. case_bool_decide; [constructor |]. constructor; [|constructor].
    split; [done | apply valid_headers; by apply Forall_app].
  - by eapply valid_pointer; [..| exact Ho]; [| apply valid_rate_limit_json].
  - by eapply valid_pointer; [..| exact Hpool]; [| apply valid_pool].
  - unfold route_last_members. solve_members.
Qed.

Lemma config_json_valid cfg j :
  valid_texts (config_texts cfg) → config_json cfg = Some j → valid_json j = true.
Proof.
  intros Ht Hj. unfold config_texts, valid_texts in Ht. rewrite !Forall_app, !Forall_cons in Ht.
  destruct Ht as ((? & ? & ? & ? & ? & ? & ? & ? & _) & ? & ? & ? & Hr).
  unfold config_json in Hj. apply bind_Some in Hj as (rl & Hrl%valid_rate_limit_json & Hj).
  apply bind_Some in Hj as (cb & Hcb%valid_circuit_breaker_json & Hj).
  apply bind_Some in Hj as (rs & Hrs & Hj). apply (inj Some) in Hj. subst j. apply valid_object.
  unfold valid_members. rewrite !Forall_cons. split_and!; try done; cbn [snd].
  - apply valid_object. solve_members. apply valid_tls_json. by repeat constructor.
  - apply valid_object. solve_members. by destruct (m_Enabled _).
  - apply valid_object. solve_members.
  - apply valid_object. solve_members.
  - apply valid_object. solve_members.
  - case_decide; [done |]. cbn [valid_json]. apply forallb_forall. intros j Hin%list_elem_of_In.
    apply mapM_Some in Hrs. apply list_elem_of_lookup in Hin as [i Hi].
    destruct (Forall2_lookup_r _ _ _ _ _ Hrs Hi) as (r & Hri & Hrj).
    eapply valid_route_json; [|exact Hrj]. apply Forall_bind in Hr. rewrite Forall_forall in Hr.
    apply (Hr r). by eapply list_elem_of_lookup_2.
Qed.
End valid.

(** ** An encoder

    Exact, if not the shortest: a float is written as its mantissa and its power of
    two, after an e. *)

Lemma number_text_app s t :
  number_text s = true → all_chars number_char t = true → number_text (s +:+ t) = true.
Proof.
  destruct s as [|c s]; [done |]. rewrite string_cons_app. cbn [number_text].
  intros [-> Hs]%andb_true_iff Ht. by rewrite all_chars_app, Hs, Ht.
Qed.

Lemma all_chars_split p c s s' t t' :
  all_chars p s = true → all_chars p s' = true → p c = false →
  s +:+ String c t = s' +:+ String c t' → s = s' ∧ t = t'.
Proof.
  intros Hs Hs' Hc. revert s' Hs'. induction s as [|a s IH]; intros [|b s'] Hs'; cbn [all_chars] in *;
    rewrite ?string_cons_app.
  - by intros [= ->].
  - intros [= -> _]. by rewrite Hc in Hs'.
  - intros [= -> _]. by rewrite Hc in Hs.
  - apply andb_true_iff in Hs as [_ Hs], Hs' as [_ Hs']. intros [= -> He].
    by destruct (IH Hs s' Hs' He) as [-> ->].
Qed.

Definition integer_char (c : ascii) : bool := digit_char c || Ascii.eqb c "-".

Lemma integer_Itoa z : all_chars integer_char (Itoa z) = true.
Proof.
  assert (∀ p, all_chars integer_char (pretty_N_go p "") = true) as Hp.
  { intros p. apply (all_chars_impl digit_char); [|by apply digits_pretty_go].
    intros c Hc. unfold integer_char. by rewrite Hc. }
  destruct z as [|p|p]; [done | exact (Hp (N.pos p)) |].
  change (Itoa (Z.neg p)) with (String "-" (pretty_N_go (N.pos p) "")). cbn [all_chars]. by rewrite Hp.
Qed.

Lemma len_Itoa z : (1 ≤ len (Itoa z))%nat.
Proof. destruct (number_text_head _ (number_text_Itoa z)) as (_ & c & r & -> & _). unfold len. simpl. lia. Qed.

Definition float_text (z e : Z) : string := Itoa z +:+ String "e" (Itoa e).

Lemma len_float_text z e : (3 ≤ len (float_text z e))%nat.
Proof.
  unfold float_text. rewrite len_app. pose proof (len_Itoa z). pose proof (len_Itoa e).
  change (len (String "e" (Itoa e))) with (S (len (Itoa e))). lia.
Qed.

Lemma float_text_inj z z' e e' : float_text z e = float_text z' e' → z = z' ∧ e = e'.
Proof.
  intros [Hz He]%(all_chars_split integer_char); [|apply integer_Itoa.. | done].
  by apply Itoa_inj in Hz, He.
Qed.

Definition plain_float (f : float64) : option string :=
  match f with
  | S754_zero s => Some (if s then "-0" else "0")
  | S754_finite s m e => Some (float_text (if s then Z.neg m else Z.pos m) e)
  | S754_infinity _ | S754_nan => None
  end.

Lemma zero_is_no_float_text (s : bool) z e : (if s then "-0" else "0") ≠ float_text z e.
Proof.
  intros Hz. pose proof (len_float_text z e) as Hl. rewrite <-Hz in Hl.
  destruct s; unfold len in Hl; simpl in Hl; lia.
Qed.

Definition plain_json : GoJson.
Proof.
  refine {| json_float := plain_float; json_time _ := "2024-01-01T00:00:00Z" |}.
  - intros []; simpl; split; intros [? [=]]; by eexists.
  - intros [s| | |s m e] t [= <-]; [by destruct s |].
    apply number_text_app; [apply number_text_Itoa |]. cbn [all_chars].
    destruct (number_text_head _ (number_text_Itoa e)) as [-> _]. by vm_compute.
  - intros [s| | |s m e] [s'| | |s' m' e'] t [= Ht] [= Ht']; subst t.
    + by destruct s, s'.
    + symmetry in Ht'. by apply zero_is_no_float_text in Ht'.
    + by apply zero_is_no_float_text in Ht'.
    + apply float_text_inj in Ht' as [Hm ->]. by destruct s, s'; simplify_eq.
  - by vm_compute.
Defined.
