(* ===== verification/Admin.v ===== *)
(** * The admin API (internal/admin/admin.go)

    Read-only views of the routes, the configuration and the rate limiter, behind
    a guard on the method and the peer's address.  What the handlers read of the
    other components -- the current configuration, the limiter's snapshot, the
    breakers -- are arguments, and so are the two query parameters.  What the encoder
    makes of the structs is in [AdminJson]. *)

From S2P Require Import Prelude GoFloat GoStrings GoNet FailureRateBreaker CircuitBreaker Config ConfigValidate Json Http RateLimit AdminJson.
Import FailureRate(State, StateClosed, StateOpen, StateHalfOpen).

Open Scope Z_scope.

Record AdminHandler := mkAdminHandler { ad_routes : list RouteConfig; ad_allowedNets : list IPNet }.

(** [New(..., routes, allowlist, logger)]: entries that do not parse are dropped. *)
Definition NewAdmin (routes : list RouteConfig) (allowlist : list string) : AdminHandler :=
  mkAdminHandler routes (omap ParseCIDR allowlist).

Definition admin_extractIP (remoteAddr : string) : string :=
  match SplitHostPort remoteAddr with Some (host, _) => host | None => remoteAddr end.

Definition isAllowed (h : AdminHandler) (ipStr : string) : bool :=
  match ParseIP ipStr with
  | None => false
  | Some ip => existsb (λ n, net_Contains n ip) (ad_allowedNets h)
  end.

(** [h.writeJSON(w, status, v)]: a value that has no encoding is not written, after the
    status was. *)
Definition writeJSON (status : Z) (v : option Json) : list WriterOp :=
  [OpHeader (header_Set "Content-Type" "application/json"); OpWriteHeader status] ++
  match v with Some j => [OpWrite (encode j +:+ newline)] | None => [] end.

(** [h.guard(next)]; a handler is its calls, [None] if it panics. *)
Definition guard (h : AdminHandler) (next : option (list WriterOp)) (r : Request)
    : option (list WriterOp) :=
  if decide (rq_Method r ≠ "GET") then
    Some (writeJSON StatusMethodNotAllowed (Some (JObject [("error", JString "Method Not Allowed")])))
  else if negb (isAllowed h (admin_extractIP (rq_RemoteAddr r))) then
    Some (writeJSON StatusForbidden (Some (JObject [("error", JString "Forbidden")])))
  else next.

(** ** Routes *)

Record RouteStatus := mkRouteStatus {
  rs_PathPrefix : string; rs_Backend : string; rs_Methods : list string; rs_AuthRequired : bool;
  rs_TimeoutMs : Z; rs_CircuitBreakerState : string
}.

Definition state_name (s : State) : string :=
  match s with StateClosed => "closed" | StateOpen => "open" | StateHalfOpen => "half-open" end.

(** [cb.State()] is the inner state: a full bulkhead does not show here. *)
Definition route_status (breakers : gmap string CompositeBreaker) (route : RouteConfig) : RouteStatus :=
  mkRouteStatus (r_PathPrefix route) (r_Backend route) (r_Methods route) (r_AuthRequired route)
    (r_TimeoutMs route)
    match breakers !! r_Backend route with
    | Some cb => state_name (InnerState cb)
    | None => "unknown"
    end.

Definition route_status_json (s : RouteStatus) : Json :=
  JObject ([("path_prefix", JString (rs_PathPrefix s)); ("backend", JString (rs_Backend s))] ++
    (if decide (rs_Methods s = []) then [] else [("methods", JArray (JString <$> rs_Methods s))]) ++
    [("auth_required", JBool (rs_AuthRequired s)); ("timeout_ms", JInt (rs_TimeoutMs s));
     ("circuit_breaker_state", JString (rs_CircuitBreakerState s))]).

Definition routesHandler (breakers : gmap string CompositeBreaker) (h : AdminHandler) : list WriterOp :=
  writeJSON StatusOK
    (Some (JObject [("routes", JArray (route_status_json <$> (route_status breakers <$> ad_routes h)))])).

(** ** Configuration *)

(** The copy of the current configuration that is shown. *)
Definition redacted (cfg : Config) : Config :=
  if decide (au_JWTSecret (cfg_Auth cfg) ≠ "") then
    cfg <| cfg_Auth := (cfg_Auth cfg) <| au_JWTSecret := "***" |> |>
  else cfg.

(** [h.configHandler(w, r)] *)
Definition configHandler `{GoJson} (cfg : Config) : list WriterOp :=
  writeJSON StatusOK (config_json (redacted cfg)).

(** ** Rate limiters *)

(** [parseInt(s)], on a 64-bit [int]. *)
Fixpoint parse_digits_wrap (n : Z) (s : string) : Z :=
  match s with
  | "" => n
  | String c r =>
      match dec_val c with
      | None => -1
      | Some d => parse_digits_wrap (wrap64 (wrap64 (n * 10) + d)) r
      end
  end.

Definition parseInt (s : string) : Z := parse_digits_wrap 0 (TrimSpace s).

Definition page_size_param (ps : string) : Z :=
  if decide (ps = "") then 100
  else let v := parseInt ps in if decide (0 < v ∧ v ≤ 1000) then v else 100.

Definition page_param (p : string) : Z :=
  if decide (p = "") then 0 else let v := parseInt p in if decide (0 ≤ v) then v else 0.

(** [s[start:end]]; [None] is the panic of an index out of range. *)
Definition slice {A} (l : list A) (start stop : Z) : option (list A) :=
  if decide (0 ≤ start ∧ start ≤ stop ∧ stop ≤ Z.of_nat (length l)) then
    Some (take (Z.to_nat (stop - start)) (drop (Z.to_nat start) l))
  else None.

Record LimitersPage := mkPage { lp_entries : list LimiterEntry; lp_total : Z; lp_page : Z }.

(** The page [h.limitersHandler(w, r)] shows of the snapshot [entries]. *)
Definition limiters_page (entries : list LimiterEntry) (page_size page : string) : option LimitersPage :=
  let pageSize := page_size_param page_size in
  let page := page_param page in
  let total := Z.of_nat (length entries) in
  let start := wrap64 (page * pageSize) in
  let start := if decide (total < start) then total else start in
  let stop := wrap64 (start + pageSize) in
  let stop := if decide (total < stop) then total else stop in
  shown ← slice entries start stop; Some (mkPage shown total page).

Definition page_json `{GoJson} (p : LimitersPage) : option Json :=
  entries ← mapM entry_json (lp_entries p);
  Some (JObject [("entries", JArray entries); ("page", JInt (lp_page p)); ("total", JInt (lp_total p))]).

Definition limitersHandler `{GoJson} (entries : list LimiterEntry) (page_size page : string)
    : option (list WriterOp) :=
  p ← limiters_page entries page_size page; Some (writeJSON StatusOK (page_json p)).

(** [h.RegisterRoutes(mux)]: what the admin paths answer; [None] as the outer
    result is a path that is not registered. *)
Definition admin_mux `{GoJson} (h : AdminHandler) (breakers : gmap string CompositeBreaker) (cfg : Config)
    (entries : list LimiterEntry) (page_size page : string) (r : Request)
    : option (option (list WriterOp)) :=
  if decide (rq_Path r = "/admin/routes") then Some (guard h (Some (routesHandler breakers h)) r)
  else if decide (rq_Path r = "/admin/config") then Some (guard h (Some (configHandler cfg)) r)
  else if decide (rq_Path r = "/admin/limiters") then
    Some (guard h (limitersHandler entries page_size page) r)
  else None.

(** ** Properties *)

(** Who passes the guard: a GET whose peer has an address in a network of the
    allow list. *)
Definition admitted (allowlist : list string) (r : Request) : Prop :=
  rq_Method r = "GET" ∧
  ∃ ip n cidr, ParseIP (admin_extractIP (rq_RemoteAddr r)) = Some ip ∧
    cidr ∈ allowlist ∧ ParseCIDR cidr = Some n ∧ net_Contains n ip = true.

Lemma isAllowed_spec routes allowlist s :
  isAllowed (NewAdmin routes allowlist) s = true ↔
  ∃ ip n cidr, ParseIP s = Some ip ∧ cidr ∈ allowlist ∧ ParseCIDR cidr = Some n ∧ net_Contains n ip = true.
Proof.
  unfold isAllowed. simpl. destruct (ParseIP s) as [ip|]; [|by split; [done | intros (? & ? & ? & ? & _)]]. rewrite existsb_exists. split.
  - intros (n & Hn & Hc). apply list_elem_of_In, list_elem_of_omap in Hn as (cidr & Hin & Hp). eauto 10.
  - intros (ip' & n & cidr & [= <-] & Hin & Hp & Hc). exists n. split; [|done].
    apply list_elem_of_In, list_elem_of_omap. by exists cidr.
Qed.

(** C30. Nothing of the admin API is shown to a peer outside the allow list: unless
    the request is a GET from an allowed address, every admin path answers 405
    or 403, the same whatever the state of the gateway is -- so an empty allow
    list shuts everyone out, and a forwarded address does not help. *)
Theorem admin_guarded `{GoJson} (routes : list RouteConfig) (allowlist : list string) (r : Request)
    (breakers : gmap string CompositeBreaker) (cfg : Config) (entries : list LimiterEntry)
    (page_size page : string) :
  let h := NewAdmin routes allowlist in
  let answer := admin_mux h breakers cfg entries page_size page r in
  rq_Path r ∈ ["/admin/routes"; "/admin/config"; "/admin/limiters"] →
  (¬ admitted allowlist r →
     ∃ ops, answer = Some (Some ops) ∧
       ops = if decide (rq_Method r = "GET")
             then writeJSON StatusForbidden (Some (JObject [("error", JString "Forbidden")]))
             else writeJSON StatusMethodNotAllowed
                    (Some (JObject [("error", JString "Method Not Allowed")]))) ∧
  (admitted allowlist r →
     answer = Some
       (if decide (rq_Path r = "/admin/routes") then Some (routesHandler breakers h)
        else if decide (rq_Path r = "/admin/config") then Some (configHandler cfg)
        else limitersHandler entries page_size page)).
Proof.
  intros h answer Hp.
  assert (answer = Some (guard h
    (if decide (rq_Path r = "/admin/routes") then Some (routesHandler breakers h)
     else if decide (rq_Path r = "/admin/config") then Some (configHandler cfg)
     else limitersHandler entries page_size page) r)) as ->.
  { unfold answer, admin_mux. repeat case_decide; try done. exfalso.
    rewrite !elem_of_cons in Hp. destruct Hp as [?|[?|[?|?%elem_of_nil]]]; done. }
  generalize (if decide (rq_Path r = "/admin/routes") then Some (routesHandler breakers h)
     else if decide (rq_Path r = "/admin/config") then Some (configHandler cfg)
     else limitersHandler entries page_size page). intros next.
  pose proof (isAllowed_spec routes allowlist (admin_extractIP (rq_RemoteAddr r))) as Ha. fold h in Ha.
  unfold guard, admitted. split.
  - intros Hno. eexists. split; [|reflexivity]. do 2 f_equal.
    destruct (decide (rq_Method r = "GET")) as [Hm|Hm].
    + rewrite decide_False by (intros Hn; done). destruct (isAllowed h _); [|done].
      destruct Hno. split; [done |]. by apply Ha.
    + by rewrite decide_True.
  - intros [Hm Hin]. rewrite decide_False by (intros Hn; done). apply Ha in Hin. by rewrite Hin.
Qed.

(** Paging: as long as the product of the two parameters fits, the pages of a
    size are consecutive pieces of the snapshot, of that size but for the last
    -- so they cover it, each entry once -- and a page past the end is empty. *)
Theorem paging_partitions (entries : list LimiterEntry) (page_size page : string) :
  let size := page_size_param page_size in
  let n := page_param page in
  n * size ≤ int64_max → Z.of_nat (length entries) + 1000 ≤ int64_max →
  1 ≤ size ≤ 1000 ∧
  limiters_page entries page_size page =
    Some (mkPage (take (Z.to_nat size) (drop (Z.to_nat (n * size)) entries))
            (Z.of_nat (length entries)) n).
Proof.
  intros size n Hn Hlen.
  assert (1 ≤ size ≤ 1000) as Hs by (unfold size, page_size_param; repeat case_decide; lia).
  assert (0 ≤ n) as H0 by (unfold n, page_param; repeat case_decide; lia).
  split; [done |]. unfold limiters_page. fold size. fold n. clearbody size n.
  assert (0 ≤ n * size) by nia. rewrite (wrap64_id (n * size)) by int_solve.
  case_decide as Hpast.
  - rewrite wrap64_id by int_solve. rewrite decide_True by lia. unfold slice.
    rewrite decide_True by lia. rewrite Z.sub_diag. cbn [Z.to_nat take]. simpl.
    rewrite (drop_ge entries (Z.to_nat (n * size))) by lia. by rewrite take_nil.
  - rewrite wrap64_id by int_solve. unfold slice.
    destruct (decide (Z.of_nat (length entries) < n * size + size)).
    + rewrite decide_True by lia. simpl. do 2 f_equal.
      rewrite !take_ge; [done | rewrite length_drop; lia..].
    + rewrite decide_True by lia. simpl. do 3 f_equal. lia.
Qed.

(** The product overflows for a page number a client can send, and the index is
    out of range: the handler panics, and the server drops the connection. *)
Example page_overflow_panics :
  limiters_page [] "2" "4611686018427387904" = None ∧
  parseInt "4611686018427387904" = 2 ^ 62.
Proof. by vm_compute. Qed.

(** The shown configuration does not depend on the secret. *)
Lemma redacted_hides (cfg : Config) (s s' : string) :
  s ≠ "" → s' ≠ "" →
  redacted (cfg <| cfg_Auth := (cfg_Auth cfg) <| au_JWTSecret := s |> |>) =
  redacted (cfg <| cfg_Auth := (cfg_Auth cfg) <| au_JWTSecret := s' |> |>).
Proof. intros Hs Hs'. unfold redacted. simpl. by rewrite !decide_True. Qed.

Lemma redacted_floats cfg : config_floats (redacted cfg) = config_floats cfg.
Proof. unfold redacted. by case_decide. Qed.

Lemma redacted_texts cfg : valid_texts (config_texts cfg) → valid_texts (config_texts (redacted cfg)).
Proof.
  unfold redacted. case_decide; [|done]. unfold valid_texts, config_texts.
  rewrite !Forall_app, !Forall_cons. simpl. intuition.
Qed.

Section answer.
Context `{GoJson}.

(** What a client reads of an answer of [writeJSON]: the value of its one body, which a
    new line ends. *)
Definition read_answer (ops : list WriterOp) : option Json :=
  match ops with
  | [OpHeader _; OpWriteHeader 200; OpWrite body] =>
      '(v, rest) ← parse_value (len body) body; if decide (rest = newline) then Some v else None
  | _ => None
  end.

Lemma read_writeJSON j : valid_json j = true → read_answer (writeJSON StatusOK (Some j)) = Some j.
Proof.
  intros Hj. unfold writeJSON. cbn [app read_answer StatusOK]. change StatusOK with 200. cbn iota.
  rewrite parse_value_encode; [done | | done | done].
  rewrite len_app. pose proof (json_size_encode j (proj1 (valid_json_read j Hj))). lia.
Qed.

(** C38. GET /admin/config shows the current configuration, all of it but the secret:
    the answer is the same whatever the secret is, as long as there is one; two
    configurations with the same answer are the same but for the secret and the
    warnings; and a client that parses the answer reads the encoding of every
    field.  This is for configurations whose floats are finite; with a NaN or an
    infinity, which the validation accepts, the answer is 200 with no body. *)
Theorem config_answer (cfg : Config) :
  valid_texts (config_texts cfg) →
  (∀ s s', s ≠ "" → s' ≠ "" →
     configHandler (cfg <| cfg_Auth := (cfg_Auth cfg) <| au_JWTSecret := s |> |>) =
     configHandler (cfg <| cfg_Auth := (cfg_Auth cfg) <| au_JWTSecret := s' |> |>)) ∧
  (Forall finite (config_floats cfg) →
     (∃ j, config_json (redacted cfg) = Some j ∧ read_answer (configHandler cfg) = Some j) ∧
     ∀ cfg', valid_texts (config_texts cfg') → configHandler cfg' = configHandler cfg →
       unwarned (redacted cfg') = unwarned (redacted cfg)) ∧
  (¬ Forall finite (config_floats cfg) →
     configHandler cfg = [OpHeader (header_Set "Content-Type" "application/json"); OpWriteHeader 200]).
Proof.
  intros Ht. split; [|split].
  - intros s s' Hs Hs'. unfold configHandler. by rewrite (redacted_hides cfg s s' Hs Hs').
  - intros Hf. rewrite <-redacted_floats in Hf. apply config_json_finite in Hf as [j Hj].
    pose proof (config_json_valid _ _ (redacted_texts _ Ht) Hj) as Hv.
    assert (read_answer (configHandler cfg) = Some j) as Hread
      by (unfold configHandler; rewrite Hj; by apply read_writeJSON).
    split; [by exists j |]. intros cfg' Ht' Heq. rewrite <-Heq in Hread. unfold configHandler in Hread.
    destruct (config_json (redacted cfg')) as [j'|] eqn:Hj'; [|done].
    rewrite read_writeJSON in Hread by exact (config_json_valid _ _ (redacted_texts _ Ht') Hj').
    injection Hread as ->. by eapply config_json_inj.
  - intros Hf. rewrite <-redacted_floats, <-config_json_finite in Hf. unfold configHandler.
    destruct (config_json (redacted cfg)); [|done]. by destruct Hf.
Qed.

(** A page of the limiters is read back, as long as no client has a rate that is not
    finite: there is no other text in an entry than the client's address. *)
Theorem limiters_answer (entries : list LimiterEntry) (page_size page : string) (p : LimitersPage) :
  Forall (λ e, finite (le_Rate e) ∧ valid_utf8 (le_IP e) = true) entries →
  limiters_page entries page_size page = Some p →
  ∃ ops js, limitersHandler entries page_size page = Some ops ∧
    mapM entry_json (lp_entries p) = Some js ∧
    read_answer ops = Some (JObject [("entries", JArray js); ("page", JInt (lp_page p));
                                     ("total", JInt (lp_total p))]).
Proof.
  intros He Hp. assert (Forall (λ e, finite (le_Rate e) ∧ valid_utf8 (le_IP e) = true) (lp_entries p)) as Hp'.
  { unfold limiters_page in Hp. apply bind_Some in Hp as (shown & Hs & [= <-]). unfold slice in Hs.
    case_decide; [|done]. injection Hs as <-. by apply Forall_take, Forall_drop. }
  assert (∃ js, mapM entry_json (lp_entries p) = Some js ∧ forallb valid_json js = true) as (js & Hjs & Hv).
  { clear Hp He. induction Hp' as [|e es [Hf Hip] _ (js & Hjs & Hv)]; [by exists [] |].
    apply json_number_finite in Hf as [n Hn]. eexists. split.
    - apply mapM_Some. constructor; [unfold entry_json; by rewrite Hn | by apply mapM_Some].
    - cbn [forallb]. rewrite Hv, andb_true_r. apply valid_object.
      pose proof (valid_json_number _ _ Hn). pose proof (json_time_valid (le_LastSeen e)). solve_members. }
  assert (page_json p = Some (JObject [("entries", JArray js); ("page", JInt (lp_page p));
    ("total", JInt (lp_total p))])) as Hj by (unfold page_json; by rewrite Hjs).
  eexists _, js. split_and!; [| done |].
  - unfold limitersHandler. rewrite Hp. cbn [mbind option_bind]. by rewrite Hj.
  - apply read_writeJSON, valid_object. solve_members.
Qed.
End answer.

(** ** Witnesses *)

Lemma admin_guarded_witness :
  let r := new_request "GET" "/admin/config" {["X-Forwarded-For" := ["10.0.0.7"]]} "203.0.113.9:4000" in
  let json := plain_json in
  admin_mux (NewAdmin [] ["10.0.0.0/8"]) ∅ (empty_config []) [] "" "" r =
  Some (Some (writeJSON StatusForbidden (Some (JObject [("error", JString "Forbidden")])))).
Proof.
  intros r json.
  destruct (admin_guarded [] ["10.0.0.0/8"] r ∅ (empty_config []) [] "" "")
    as [(ops & Ha & Ho) _].
  - right. left.
  - intros [_ (ip & n & cidr & Hip & Hcidr & Hn & Hc)].
    apply list_elem_of_singleton in Hcidr as ->. vm_compute in Hip, Hn. injection Hip as <-.
    injection Hn as <-. by vm_compute in Hc.
  - rewrite Ho in Ha. exact Ha.
Defined.

Lemma paging_partitions_witness :
  let e i := mkLimiterEntry "10.0.0.1" (f64 5) i 0 in
  limiters_page (e <$> [0; 1; 2; 3; 4]) "2" " 2 " = Some (mkPage [e 4] 5 2).
Proof.
  intros e. destruct (paging_partitions (e <$> [0; 1; 2; 3; 4]) "2" " 2 ") as [_ Hp].
  - vm_compute. done.
  - vm_compute. done.
  - rewrite Hp. done.
Defined.

#[local] Existing Instance plain_json.

(** With a secret, and a route that injects a header. *)
Definition shown_config (secret : string) : Config :=
  (empty_config [demo_route <| r_Headers := {["X-Env" := "prod"]} |>])
    <| cfg_Auth := mkAuth true secret "issuer" "gateway" ["read"] |>.

Lemma config_answer_witness :
  configHandler (shown_config "alpha") = configHandler (shown_config "beta") ∧
  (∃ j, read_answer (configHandler (shown_config "alpha")) = Some j) ∧
  configHandler (shown_config "") ≠ configHandler (shown_config "alpha").
Proof.
  assert (∀ s, valid_utf8 s = true → valid_texts (config_texts (shown_config s))) as Hv.
  { intros s Hs. assert (config_texts (shown_config s) = [""; ""; ""; ""; ""; s; "issuer"; "gateway"; "read";
      "/api"; "http://users:3000"; ""; ""; "X-Env"; "prod"]) as -> by (by vm_compute).
    unfold valid_texts. rewrite !Forall_cons. split_and!; try exact Hs; try reflexivity. constructor. }
  assert (∀ s, Forall finite (config_floats (shown_config s))) as Hf
    by (intros s; repeat constructor; by eexists).
  destruct (config_answer (shown_config "alpha") (Hv "alpha" eq_refl)) as (Hsame & Hfinite & _).
  destruct (Hfinite (Hf "alpha")) as [(j & _ & Hj) Hinj].
  split; [by apply (Hsame "alpha" "beta") |]. split; [by exists j |].
  intros He. specialize (Hinj (shown_config "") (Hv "" eq_refl) He).
  apply (f_equal (λ c, au_JWTSecret (cfg_Auth c))) in Hinj.
  clear -Hinj. by change ("" = "***") in Hinj.
Defined.

Lemma limiters_answer_witness :
  let e := mkLimiterEntry "10.0.0.1" (f64 5) 3 0 in
  ∃ ops j, limitersHandler [e] "" "" = Some ops ∧ read_answer ops = Some j.
Proof.
  intros e. destruct (limiters_answer [e] "" "" (mkPage [e] 1 0)) as (ops & js & Ho & _ & Hr).
  - repeat constructor. by eexists.
  - by vm_compute.
  - eauto.
Defined.

(** A rate of .inf is a valid configuration; the admin API answers 200 and nothing. *)
Example infinite_rate_is_not_shown :
  let lib := demo_lib (empty_config []) in
  let fmt := demo_fmt in
  let cfg := applyDefaults (shown_config "secret") in
  let cfg := cfg <| cfg_RateLimit := (cfg_RateLimit cfg) <| rl_RequestsPerSecond := S754_infinity false |> |> in
  validate cfg = None ∧
  configHandler cfg = [OpHeader (header_Set "Content-Type" "application/json"); OpWriteHeader 200].
Proof. split; [by vm_compute | done]. Qed.
