(* ===== verification/CertLoader.v ===== *)
(** * The TLS certificate loader (internal/tlsutil/certloader.go)

    The current certificate is replaced only by one that loaded; file events are
    debounced as for the configuration ([Reload.watch_loop]).  Loading and
    parsing the files is a parameter: what [tls.LoadX509KeyPair] returns at a
    time.  A reload is one step at the time its timer fires. *)

From S2P Require Import Prelude Config Reload.

Open Scope Z_scope.

(** fsnotify's operation bits. *)
Definition op_Create : Z := 1.
Definition op_Write : Z := 2.

Section certloader.
  Context {Cert : Type} (load : Time → result Cert string).

(** [cl.cert], under its lock, and whether [cl.stopCh] is closed. *)
Record CertLoader := mkCertLoader { cl_cert : option Cert; cl_stopped : bool }.

Definition loadCert (now : Time) (cl : CertLoader) : option string * CertLoader :=
  match load now with
  | Err e => (Some e, cl)
  | Ok cert => (None, mkCertLoader (Some cert) (cl_stopped cl))
  end.

(** [cl.Reload()] *)
Definition cert_Reload (now : Time) (cl : CertLoader) : option string * CertLoader := loadCert now cl.

Definition GetCertificate (cl : CertLoader) : option Cert := cl_cert cl.

(** [cl.Stop()]; [None]: closing the channel a second time panics. *)
Definition cert_Stop (cl : CertLoader) : option CertLoader :=
  if cl_stopped cl then None else Some (mkCertLoader (cl_cert cl) true).

(** [New(certFile, keyFile, logger)], given the errors of creating the watcher and
    of adding the two files to it. *)
Definition NewCertLoader (now : Time) (watcher add_cert add_key : option string)
    : result CertLoader string :=
  match loadCert now (mkCertLoader None false) with
  | (Some e, _) => Err ("initial certificate load: " +:+ e)
  | (None, cl) =>
      match watcher, add_cert, add_key with
      | Some e, _, _ => Err ("creating file watcher: " +:+ e)
      | None, Some e, _ => Err ("watching cert file: " +:+ e)
      | None, None, Some e => Err ("watching key file: " +:+ e)
      | None, None, None => Ok cl
      end
  end.

(** The events that count: a write or a creation. *)
Definition counts (event : Time * Z) : bool := negb (bool_decide (Z.land event.2 (Z.lor op_Write op_Create) = 0)).

(** [cl.watchLoop()] on the events of a run that is stopped at [stop]. *)
Definition cert_watchLoop (events : list (Time * Z)) (stop : Time) (cl : CertLoader) : CertLoader :=
  foldl (λ cl t, (cert_Reload t cl).2) cl (watch_loop (fst <$> filter (λ e, counts e = true) events) stop).

(** ** Properties *)

(** The last certificate that loaded at the given times. *)
Definition last_loaded (cert : Cert) (times : list Time) : Cert :=
  foldl (λ c t, match load t with Ok c' => c' | Err _ => c end) cert times.

Lemma reloads_spec cert stopped times :
  foldl (λ cl t, (cert_Reload t cl).2) (mkCertLoader (Some cert) stopped) times =
  mkCertLoader (Some (last_loaded cert times)) stopped.
Proof.
  unfold last_loaded. revert cert. induction times as [|t times IH]; intros cert; [done |]. simpl.
  unfold cert_Reload, loadCert. destruct (load t); apply IH.
Qed.

Lemma watch_loop_last events t stop :
  t + debounce_delay ≤ stop →
  ∃ fired, watch_loop (events ++ [t]) stop = fired ++ [t + debounce_delay].
Proof.
  intros Hs. unfold watch_loop. rewrite foldl_app. simpl.
  destruct (foldl watch_event (None, []) events) as [pending fired]. simpl.
  rewrite decide_True by done. by eexists.
Qed.

(** C33. Handshakes have a certificate, and what is written to the watched files takes
    effect, for reloads of which none overlaps another: a loader that could be created
    answers with the last certificate that loaded, at its creation or at one of the
    debounced reloads -- files that do not load are ignored, as are events that are no
    write and no creation, a rename or a replaced link among them -- and if the files
    are good 300ms after the last write or creation, and the loader has not been
    stopped by then, that is the certificate in them. *)
Theorem rotation_takes_effect (now : Time) (watcher add_cert add_key : option string)
    (cl : CertLoader) (events : list (Time * Z)) (stop : Time) :
  NewCertLoader now watcher add_cert add_key = Ok cl →
  let times := fst <$> filter (λ e, counts e = true) events in
  let served := GetCertificate (cert_watchLoop events stop cl) in
  (∃ first, load now = Ok first ∧ served = Some (last_loaded first (watch_loop times stop))) ∧
  (∀ before t cert, times = before ++ [t] → t + debounce_delay ≤ stop →
     load (t + debounce_delay) = Ok cert → served = Some cert).
Proof.
  intros Hnew times served. unfold NewCertLoader, loadCert in Hnew.
  destruct (load now) as [first|e] eqn:Hload; [|done].
  assert (cl = mkCertLoader (Some first) false) as -> by (repeat case_match; by simplify_eq).
  assert (served = Some (last_loaded first (watch_loop times stop))) as Hserved
    by (unfold served, cert_watchLoop; by rewrite reloads_spec).
  split; [by exists first |]. intros before t cert Ht Hstop Hgood.
  destruct (watch_loop_last before t stop Hstop) as [fired Hw].
  rewrite Hserved, Ht, Hw. unfold last_loaded. rewrite foldl_app. simpl. by rewrite Hgood.
Qed.
End certloader.
Arguments CertLoader _ : clear implicits.

(** ** Witnesses *)

(** A rotation that writes the certificate at 1s and the key at 1.1s. *)
Lemma rotation_takes_effect_witness :
  let s := Second in
  let load t := if decide (t < 1 * s) then Ok 1
                else if decide (t < 1 * s + 100 * Millisecond) then Err "key does not match"
                else Ok 2 in
  ∃ cl, NewCertLoader load 0 None None None = Ok cl ∧
    GetCertificate (cert_watchLoop load [(s, op_Write); (s + 100 * Millisecond, op_Write); (2 * s, 4)]
                      (5 * s) cl) = Some 2.
Proof.
  intros s load. eexists. split; [reflexivity |].
  apply (rotation_takes_effect load 0 None None None _ _ _ eq_refl)
    with (before := [s]) (t := s + 100 * Millisecond); [done | by vm_compute | done].
Defined.

(** A file that is replaced by renaming another over it gives no event that counts:
    the new certificate is not loaded. *)
Example replaced_by_rename_is_missed :
  let load t := if decide (t < Second) then Ok 1 else Ok 2 in
  ∃ cl, NewCertLoader load 0 None None None = Ok cl ∧
    GetCertificate (cert_watchLoop load [(Second, 16); (Second, 4)] (99 * Second) cl) = Some 1.
Proof. intros load. by eexists. Qed.
