(* ===== verification/Goroutine.v ===== *)
(** * Goroutines on shared state

    A goroutine is a program that performs atomic actions on what it shares with
    others -- a critical section, an operation on a channel, a counter -- and
    computes in between.  [run] executes one alone; a [Pool] holds any number of
    them, of which any may perform the next action.  A [Protocol] says which
    actions a goroutine may perform when, by a ghost state of its own, and what
    then holds of the shared state in every interleaving. *)

From stdpp Require Import relations.
From S2P Require Import Prelude.

Section prog.
  Context {Action : Set → Type}.

(** Either the goroutine has returned, or there is a next action and what is done
    with its answer. *)
Inductive Prog (A : Type) : Type :=
| Ret (a : A)
| Do {X : Set} (act : Action X) (k : X → Prog A).

#[global] Arguments Ret {A} a.
#[global] Arguments Do {A X} act k.

#[export] Instance prog_ret : MRet Prog := λ A, Ret.

#[export] Instance prog_bind : MBind Prog := λ A B f,
  fix go p := match p with Ret a => f a | Do act k => Do act (λ x, go (k x)) end.

Definition act {X : Set} (a : Action X) : Prog X := Do a Ret.

(** Several actions whose answers are not used. *)
Fixpoint each {A} (f : A → Prog unit) (l : list A) : Prog unit :=
  match l with [] => Ret tt | a :: l => f a ;; each f l end.

(** A goroutine whose result nobody waits for. *)
Definition background {A} (p : Prog A) : Prog unit := p ≫= λ _, mret tt.

Definition returned {A} (p : Prog A) : bool := match p with Ret _ => true | Do _ _ => false end.

(** [p] performs at most [n] actions, whatever their answers. *)
Fixpoint at_most {A} (n : nat) (p : Prog A) {struct p} : Prop :=
  match p with
  | Ret _ => True
  | Do act k => match n with O => False | S n => ∀ x, at_most n (k x) end
  end.

Lemma at_most_weaken {A} n m (p : Prog A) : at_most n p → (n ≤ m)%nat → at_most m p.
Proof.
  revert n m. induction p as [a|X a k IH]; intros n m Hp Hm; [done |].
  destruct n; [destruct Hp |]. destruct m; [lia |]. intros x. apply (IH x n); [apply Hp | lia].
Qed.

Lemma at_most_bind {A B} n m (f : A → Prog B) (p : Prog A) :
  at_most n p → (∀ a, at_most m (f a)) → at_most (n + m) (p ≫= f).
Proof.
  intros Hp Hf. revert n Hp. induction p as [a|X a k IH]; intros n Hp; simpl.
  - eapply at_most_weaken; [apply Hf | lia].
  - destruct n; [destruct Hp |]. intros x. by apply IH.
Qed.

Lemma at_most_act {X : Set} (a : Action X) : at_most 1 (act a).
Proof. unfold act. simpl. done. Qed.

Lemma at_most_each {A} n (f : A → Prog unit) l :
  (∀ a, at_most n (f a)) → at_most (length l * n) (each f l).
Proof.
  intros Hf. induction l as [|a l IH]; simpl; [done |]. by apply at_most_bind.
Qed.
End prog.
Arguments Prog Action A : clear implicits.

(** What an action answers and does, performed by the goroutine of a number; [None]
    is a panic, or a channel operation that blocks. *)
Class Semantics (Action : Set → Type) (Sh : Type) :=
  perform : ∀ X : Set, nat → Action X → Sh → option (X * Sh).
Arguments perform {Action Sh _ X}.

Section semantics.
  Context {Action : Set → Type} {Sh : Type} `{Semantics Action Sh}.

(** One goroutine without interruption. *)
Fixpoint run {A} (t : nat) (p : Prog Action A) (s : Sh) : option (A * Sh) :=
  match p with
  | Ret a => Some (a, s)
  | Do act k => '(x, s) ← perform t act s; run t (k x) s
  end.

Lemma run_bind {A B} t (f : A → Prog Action B) p s :
  run t (p ≫= f) s = '(a, s) ← run t p s; run t (f a) s.
Proof.
  revert s. induction p as [a|X a k IH]; intros s; simpl; [done |].
  destruct (perform t a s) as [[x s']|]; simpl; [apply IH | done].
Qed.

Lemma run_seq {A B} t (f : A → Prog Action B) p s x s' :
  run t p s = Some (x, s') → run t (p ≫= f) s = run t (f x) s'.
Proof. intros Hp. by rewrite run_bind, Hp. Qed.

Lemma run_act {X : Set} t (a : Action X) s : run t (act a) s = perform t a s.
Proof. simpl. by destruct (perform t a s) as [[]|]. Qed.

(** ** Interleaving *)

Record Pool (A : Type) := mkPool { pl_shared : Sh; pl_threads : gmap nat (Prog Action A) }.
#[global] Arguments mkPool {A}.
#[global] Arguments pl_shared {A}.
#[global] Arguments pl_threads {A}.

(** Some goroutine performs its next action. *)
Inductive act_step {A} : Pool A → Pool A → Prop :=
| step_act s s' ts t (X : Set) (a : Action X) k x :
    ts !! t = Some (Do a k) → perform t a s = Some (x, s') →
    act_step (mkPool s ts) (mkPool s' (<[t := k x]> ts)).

(** ... or one of the programs that [may_start] is started. *)
Inductive pool_step {A} (may_start : nat → Prog Action A → Prop) : Pool A → Pool A → Prop :=
| step_start s ts t p :
    ts !! t = None → may_start t p → pool_step may_start (mkPool s ts) (mkPool s (<[t := p]> ts))
| step_run pl pl' : act_step pl pl' → pool_step may_start pl pl'.

(** A schedule: which goroutine is next, skipping those that have returned;
    [None] if one panics or blocks. *)
Fixpoint schedule {A} (l : list nat) (pl : Pool A) : option (Pool A) :=
  match l with
  | [] => Some pl
  | t :: l =>
      match pl_threads pl !! t with
      | Some (Do a k) =>
          '(x, s) ← perform t a (pl_shared pl);
          schedule l (mkPool s (<[t := k x]> (pl_threads pl)))
      | _ => schedule l pl
      end
  end.

Lemma schedule_steps {A} l (pl pl' : Pool A) : schedule l pl = Some pl' → rtc act_step pl pl'.
Proof.
  revert pl. induction l as [|t l IH]; intros [s ts]; simpl; [by intros [= <-] |].
  destruct (ts !! t) as [[a|X a k]|] eqn:Ht; [by apply IH | | by apply IH].
  destruct (perform t a s) as [[x s']|] eqn:Hp; simpl; [|done].
  intros Hs. eapply rtc_l; [by econstructor | by apply IH].
Qed.

Lemma schedule_reaches {A} may_start l (pl0 pl pl' : Pool A) :
  rtc (pool_step may_start) pl0 pl → schedule l pl = Some pl' → rtc (pool_step may_start) pl0 pl'.
Proof.
  intros Hr Hs%schedule_steps. etrans; [exact Hr |].
  eapply rtc_subrel; [|exact Hs]. intros x y Hxy. by apply step_run.
Qed.

(** ** The number of steps *)

Definition total (bs : gmap nat nat) : nat := map_fold (λ _ n acc, (n + acc)%nat) 0%nat bs.

Lemma total_update bs t n n' :
  bs !! t = Some n → (total (<[t := n']> bs) + n = total bs + n')%nat.
Proof.
  intros Ht. unfold total. rewrite <-insert_delete_eq.
  rewrite map_fold_insert_L; [| lia | by rewrite lookup_delete_eq].
  rewrite (map_fold_delete_L _ _ t n bs); [lia | intros; lia | done].
Qed.

Definition bounded_by {A} (bs : gmap nat nat) (ts : gmap nat (Prog Action A)) : Prop :=
  ∀ t p, ts !! t = Some p → ∃ n, bs !! t = Some n ∧ at_most n p.

Lemma act_step_bounded {A} bs (pl pl' : Pool A) :
  bounded_by bs (pl_threads pl) → act_step pl pl' →
  ∃ bs', bounded_by bs' (pl_threads pl') ∧ (total bs' < total bs)%nat.
Proof.
  intros Hbs. destruct 1 as [s s' ts t X a k x Ht Hp]. simpl in *.
  destruct (Hbs t _ Ht) as (n & Hn & Ham).
  destruct n as [|n']; [done |].
  exists (<[t := n']> bs). split.
  - intros u q Hu. destruct (decide (u = t)) as [->|Hne].
    + rewrite lookup_insert_eq in Hu. injection Hu as <-. exists n'. by rewrite lookup_insert_eq.
    + rewrite lookup_insert_ne in Hu by done. rewrite lookup_insert_ne by done. by apply Hbs.
  - pose proof (total_update bs t (S n') n' Hn). lia.
Qed.
End semantics.

(** The steps of a pool to which none is added are bounded. *)
Lemma act_steps_bounded `{Semantics Action Sh} {A} n (pl pl' : Pool A) bs :
  bounded_by bs (pl_threads pl) → nsteps act_step n pl pl' → (n ≤ total bs)%nat.
Proof.
  intros Hbs Hn. revert bs Hbs. induction Hn as [pl|n pl1 pl2 pl3 Hs _ IH]; intros bs Hbs; [lia |].
  destruct (act_step_bounded bs _ _ Hbs Hs) as (bs' & Hbs' & Hlt). specialize (IH bs' Hbs'). lia.
Qed.

(** ** Every pool ends

    Goroutines to which none is added cannot run forever, whatever the answers of
    their actions: each step leaves one of the programs with less to do. *)

Section ending.
  Context {Action : Set → Type} {A : Type}.

Definition child (p q : Prog Action A) : Prop :=
  match p with Ret _ => False | Do _ k => ∃ x, q = k x end.

Definition advance (ts ts' : gmap nat (Prog Action A)) : Prop :=
  ∃ t p q, ts !! t = Some p ∧ child p q ∧ ts' = <[t := q]> ts.

Lemma advance_insert i p ts :
  ts !! i = None → sn advance ts → sn advance (<[i := p]> ts).
Proof.
  intros Hi Hts. revert Hi p. induction Hts as [ts _ IHts]. intros Hi p.
  induction p as [a|X a k IHp]; constructor; intros ts' (t & p & q & Ht & Hc & ->).
  all: destruct (decide (t = i)) as [->|Hne];
    [rewrite lookup_insert_eq in Ht; injection Ht as <- | rewrite lookup_insert_ne in Ht by done].
  2,4: rewrite insert_insert_ne by done; apply IHts;
    [by exists t, p, q | by rewrite lookup_insert_ne].
  - done.
  - destruct Hc as [x ->]. rewrite insert_insert_eq. apply IHp.
Qed.

Lemma advance_ends ts : sn advance ts.
Proof.
  induction ts as [|i p ts Hi IH] using map_ind; [|by apply advance_insert].
  constructor. intros ts' (t & p & q & Ht & _). by rewrite lookup_empty in Ht.
Qed.
End ending.

Lemma pools_end `{Semantics Action Sh} {A} (pl : Pool (Action := Action) (Sh := Sh) A) : sn act_step pl.
Proof.
  destruct pl as [s ts]. revert s. induction (advance_ends ts) as [ts _ IH]. intros s.
  constructor. intros pl' Hs. unfold flip in Hs.
  remember (mkPool s ts) as pl eqn:Hpl. destruct Hs as [s1 s' ts1 t X a k x Ht _].
  injection Hpl as -> ->. apply IH. exists t, (Do a k), (k x). split; [done |]. by split; [exists x |].
Qed.

(** ** Protocols

    The ghost state [G] of a goroutine says what it owns.  An action that is
    allowed neither panics nor blocks, and keeps the invariant that connects the
    shared state with the ghost states of all. *)

Class Protocol (Action : Set → Type) (Sh G : Type) `{Semantics Action Sh} := {
  pr_allowed : ∀ X : Set, nat → G → Action X → Prop;
  pr_next : ∀ X : Set, G → Action X → X → G;
  pr_idle : G → Prop;       (** may be started with *)
  pr_done : G → Prop;       (** may return with *)
  pr_inv : Sh → gmap nat G → Prop;
  pr_inv_act : ∀ (X : Set) t (a : Action X) s gs g,
    pr_inv s gs → gs !! t = Some g → pr_allowed X t g a →
    ∃ x s', perform t a s = Some (x, s') ∧ pr_inv s' (<[t := pr_next X g a x]> gs);
  pr_inv_start : ∀ t s gs g,
    pr_inv s gs → gs !! t = None → pr_idle g → pr_inv s (<[t := g]> gs)
}.
Arguments pr_allowed {Action Sh G _ _ X}.
Arguments pr_next {Action Sh G _ _ X}.
Arguments pr_idle {Action Sh G _ _}.
Arguments pr_done {Action Sh G _ _}.
Arguments pr_inv {Action Sh G _ _}.

Section protocol.
  Context {Action : Set → Type} {Sh G : Type} `{Protocol Action Sh G}.

(** [p], started with [g], keeps to the protocol and returns as [post] says. *)
Fixpoint follows {A} (t : nat) (post : A → G → Prop) (g : G) (p : Prog Action A) : Prop :=
  match p with
  | Ret a => post a g
  | Do act k => pr_allowed t g act ∧ ∀ x, follows t post (pr_next g act x) (k x)
  end.

Lemma follows_bind {A B} t (post : B → G → Prop) g (p : Prog Action A) (f : A → Prog Action B) :
  follows t (λ a g, follows t post g (f a)) g p → follows t post g (p ≫= f).
Proof.
  revert g. induction p as [a|X a k IH]; intros g; simpl; [done |].
  intros [Ha Hk]. split; [done |]. intros x. by apply IH.
Qed.

Lemma follows_mono {A} t (post post' : A → G → Prop) g (p : Prog Action A) :
  (∀ a g, post a g → post' a g) → follows t post g p → follows t post' g p.
Proof.
  intros Hp. revert g. induction p as [a|X a k IH]; intros g; simpl; [apply Hp |].
  intros [Ha Hk]. split; [done |]. intros x. by apply IH.
Qed.

Lemma follows_each {A} t g (f : A → Prog Action unit) l :
  (∀ a, a ∈ l → follows t (λ _ g', g' = g) g (f a)) → follows t (λ _ g', g' = g) g (each f l).
Proof.
  intros Hf. induction l as [|a l IH]; simpl; [done |]. apply follows_bind.
  eapply follows_mono; [|apply Hf; by left]. intros _ ? ->. apply IH. intros b Hb. apply Hf. by right.
Qed.

Definition finishes {A} (_ : A) (g : G) : Prop := pr_done g.

Section pool.
  Context {A : Type} (may_start : nat → Prog Action A → Prop).
  Hypothesis starts_well : ∀ t p, may_start t p → ∃ g, pr_idle g ∧ follows t finishes g p.

(** Every goroutine of the pool keeps to the protocol. *)
Definition pool_ok (pl : Pool A) : Prop :=
  ∃ gs, pr_inv (pl_shared pl) gs ∧ dom gs = dom (pl_threads pl) ∧
    ∀ t p, pl_threads pl !! t = Some p → ∃ g, gs !! t = Some g ∧ follows t finishes g p.

Lemma pool_ok_step pl pl' : pool_ok pl → pool_step may_start pl pl' → pool_ok pl'.
Proof.
  intros (gs & Hinv & Hdom & Hall). destruct 1 as [s ts t p Ht Hp|pl pl' Hs].
  - destruct (starts_well t p Hp) as (g & Hid & Hf). simpl in *.
    assert (gs !! t = None) as Hg.
    { apply not_elem_of_dom. rewrite Hdom. by apply not_elem_of_dom. }
    exists (<[t := g]> gs). split_and!; simpl; [by apply pr_inv_start | by rewrite !dom_insert_L, Hdom |].
    intros u q Hu. destruct (decide (u = t)) as [->|Hne].
    + rewrite lookup_insert_eq in Hu. injection Hu as <-. exists g. by rewrite lookup_insert_eq.
    + rewrite lookup_insert_ne in Hu by done. rewrite lookup_insert_ne by done. by apply Hall.
  - destruct Hs as [s s' ts t X a k x Ht Hp]. simpl in *.
    destruct (Hall t _ Ht) as (g & Hg & Ha & Hk).
    destruct (pr_inv_act X t a s gs g Hinv Hg Ha) as (x' & s'' & Hp' & Hinv').
    rewrite Hp in Hp'. injection Hp' as <- <-.
    exists (<[t := pr_next g a x]> gs). split_and!; simpl; [done | by rewrite !dom_insert_L, Hdom |].
    intros u q Hu. destruct (decide (u = t)) as [->|Hne].
    + rewrite lookup_insert_eq in Hu. injection Hu as <-. eexists. by rewrite lookup_insert_eq.
    + rewrite lookup_insert_ne in Hu by done. rewrite lookup_insert_ne by done. by apply Hall.
Qed.

Lemma pool_ok_steps pl pl' : pool_ok pl → rtc (pool_step may_start) pl pl' → pool_ok pl'.
Proof. intros Hok Hs. induction Hs as [|pl1 pl2 pl3 Hs _ IH]; eauto using pool_ok_step. Qed.

(** A goroutine that has not returned can perform its next action. *)
Lemma pool_ok_progress pl t p :
  pool_ok pl → pl_threads pl !! t = Some p → returned p = false → ∃ pl', act_step pl pl' ∧
    ∃ p', pl_threads pl' = <[t := p']> (pl_threads pl).
Proof.
  intros (gs & Hinv & _ & Hall) Ht Hp. destruct p as [|X a k]; [done |].
  destruct (Hall t _ Ht) as (g & Hg & Ha & _).
  destruct (pr_inv_act X t a _ gs g Hinv Hg Ha) as (x & s' & Hx & _).
  destruct pl as [s ts]. simpl in *. eexists. split; [by econstructor | by eexists].
Qed.

(** When all have returned, every ghost state is one to return with. *)
Lemma pool_ok_returned pl :
  pool_ok pl → (∀ t p, pl_threads pl !! t = Some p → returned p = true) →
  ∃ gs, pr_inv (pl_shared pl) gs ∧ map_Forall (λ _, pr_done) gs.
Proof.
  intros (gs & Hinv & Hdom & Hall) Hret. exists gs. split; [done |]. intros t g Hg.
  destruct (pl_threads pl !! t) as [p|] eqn:Ht.
  - destruct (Hall t p Ht) as (g' & Hg' & Hf). rewrite Hg in Hg'. injection Hg' as <-.
    specialize (Hret t p Ht). by destruct p.
  - apply not_elem_of_dom in Ht. rewrite <-Hdom in Ht. by apply not_elem_of_dom in Ht; simplify_eq.
Qed.
End pool.
End protocol.

(** ** Programs with more actions *)

Section lift.
  Context {Action Action' : Set → Type} (f : ∀ X : Set, Action X → Action' X).

(** The same program among goroutines that can do more. *)
Fixpoint lift {A} (p : Prog Action A) : Prog Action' A :=
  match p with Ret a => Ret a | Do a k => Do (f _ a) (λ x, lift (k x)) end.

(** Every action of the program is one of [P]. *)
Fixpoint only {A} (P : ∀ X : Set, Action X → Prop) (p : Prog Action A) : Prop :=
  match p with Ret _ => True | Do a k => P _ a ∧ ∀ x, only P (k x) end.

Lemma only_all {A} (P : ∀ X : Set, Action X → Prop) (p : Prog Action A) : (∀ X a, P X a) → only P p.
Proof. intros HP. induction p as [|X a k IH]; simpl; [done | by split]. Qed.

Lemma only_bind {A B} (P : ∀ X : Set, Action X → Prop) (p : Prog Action A) (g : A → Prog Action B) :
  only P p → (∀ a, only P (g a)) → only P (p ≫= g).
Proof. intros Hp Hg. induction p as [|X a k IH]; simpl in *; [apply Hg |]. split; [apply Hp | intros x; by apply IH, Hp]. Qed.

Lemma only_each {A} (P : ∀ X : Set, Action X → Prop) (g : A → Prog Action unit) l :
  (∀ a, only P (g a)) → only P (each g l).
Proof. intros Hg. induction l as [|a l IH]; simpl; [done |]. by apply only_bind. Qed.

(** Alone, it does to its part of the shared state what it did. *)
Lemma run_lift {Sh Sh'} `{Semantics Action Sh, Semantics Action' Sh'} {A} t (p : Prog Action A)
    (put : Sh → Sh' → Sh') s s' :
  (∀ (X : Set) (a : Action X) s0, perform t (f X a) (put s0 s') = '(x, s1) ← perform t a s0; Some (x, put s1 s')) →
  run t (lift p) (put s s') = '(x, s1) ← run t p s; Some (x, put s1 s').
Proof.
  intros Hf. revert s. induction p as [a|X a k IH]; intros s; simpl; [done |].
  rewrite Hf. destruct (perform t a s) as [[x s1]|]; simpl; [apply IH | done].
Qed.
End lift.

(** ** Counting goroutines by their ghost state *)

Definition count {G} (P : G → Prop) `{∀ g, Decision (P g)} (gs : gmap nat G) : Z :=
  Z.of_nat (size (filter (λ kv, P kv.2) gs)).

Section count.
  Context {G : Type} (P : G → Prop) `{∀ g, Decision (P g)}.

Lemma count_start (gs : gmap nat G) t g :
  gs !! t = None → count P (<[t := g]> gs) = count P gs + if decide (P g) then 1 else 0.
Proof.
  intros Ht. unfold count. rewrite map_filter_insert. simpl. case_decide.
  - rewrite map_size_insert_None by (apply map_lookup_filter_None; by left). lia.
  - rewrite delete_id by done. lia.
Qed.

Lemma count_update (gs : gmap nat G) t g g' :
  gs !! t = Some g →
  count P (<[t := g']> gs) =
    count P gs - (if decide (P g) then 1 else 0) + if decide (P g') then 1 else 0.
Proof.
  intros Ht. assert (gs = <[t := g]> (delete t gs)) as Heq by by rewrite insert_delete_id.
  rewrite Heq at 2. rewrite <-(insert_delete_eq gs t g').
  rewrite !count_start by apply lookup_delete_eq. lia.
Qed.

Lemma count_none (gs : gmap nat G) : map_Forall (λ _ g, ¬ P g) gs → count P gs = 0.
Proof.
  intros Hn. unfold count.
  assert (filter (λ kv, P kv.2) gs = ∅) as ->; [|done]. apply map_empty. intros t.
  apply map_lookup_filter_None_2. right. intros g Hg. by apply (Hn t g).
Qed.

Lemma count_pos (gs : gmap nat G) t g : gs !! t = Some g → P g → 1 ≤ count P gs.
Proof.
  intros Ht HP. unfold count. assert (size (filter (λ kv, P kv.2) gs) ≠ 0%nat); [|lia].
  intros Hz%map_size_empty_inv. assert (filter (λ kv, P kv.2) gs !! t = Some g) as Hf
    by by apply map_lookup_filter_Some. by rewrite Hz in Hf.
Qed.

Lemma count_nonneg (gs : gmap nat G) : 0 ≤ count P gs.
Proof. unfold count. lia. Qed.
End count.

Lemma count_mono {G} (P Q : G → Prop) `{∀ g, Decision (P g), ∀ g, Decision (Q g)} (gs : gmap nat G) :
  map_Forall (λ _ g, P g → Q g) gs → count P gs ≤ count Q gs.
Proof.
  intros Hpq. unfold count. apply inj_le, map_subseteq_size, map_filter_subseteq_ext.
  intros t g Hg. by apply (Hpq t g).
Qed.
