(* ===== verification/History.v ===== *)
(** * Goroutines whose actions are recorded

    A shared state with a history of what was done to it, by whom, from which it can be
    computed.  A goroutine knows what it has done itself; a [Promises] says what it may
    do, given that, and what every entry of the history says of the history before it.
    From this comes a [Protocol] of [Goroutine]. *)

From stdpp Require Import relations.
From S2P Require Import Prelude Goroutine.

(** ** Histories

    [P l e] holds of every entry [e] and what was before it. *)

Section history.
  Context {E : Type}.

Definition history (P : list E → E → Prop) (l : list E) : Prop :=
  ∀ l1 e l2, l = l1 ++ e :: l2 → P l1 e.

Lemma history_nil P : history P [].
Proof. intros [] ? ? [=]. Qed.

Lemma history_snoc P l e : history P l → P l e → history P (l ++ [e]).
Proof.
  intros Hl He l1 e' l2. destruct l2 as [|e2 l2 _] using rev_ind.
  - intros [-> [= <-]]%app_inj_tail. done.
  - rewrite app_comm_cons, app_assoc. intros [-> _]%app_inj_tail. by eapply Hl.
Qed.

Lemma history_elem P l e : history P l → e ∈ l → ∃ l1 l2, l = l1 ++ e :: l2 ∧ P l1 e.
Proof. intros Hl (l1 & l2 & ->)%list_elem_of_split. exists l1, l2. split; [done | by eapply Hl]. Qed.

Lemma history_prefix P l l' : history P (l ++ l') → history P l.
Proof. intros Hl l1 e l2 ->. apply (Hl l1 e (l2 ++ l')). by rewrite <-app_assoc. Qed.

(** What the goroutine [t] did. *)
Definition done_by (t : nat) (l : list (nat * E)) : list E := (filter (λ x, x.1 = t) l).*2.

Lemma done_by_app t l l' : done_by t (l ++ l') = done_by t l ++ done_by t l'.
Proof. unfold done_by. by rewrite list.filter_app, fmap_app. Qed.

Lemma done_by_own t es : done_by t (pair t <$> es) = es.
Proof.
  unfold done_by. induction es as [|e es IH]; [done |].
  cbn [fmap list_fmap]. rewrite filter_cons_True by done. cbn. by rewrite IH.
Qed.

Lemma done_by_other t u es : u ≠ t → done_by u (pair t <$> es) = [].
Proof.
  intros Hne. unfold done_by. induction es as [|e es IH]; [done |].
  cbn [fmap list_fmap]. by rewrite filter_cons_False by naive_solver.
Qed.

(** What [t] did first, and the rest. *)
Lemma done_by_cons t l e es :
  done_by t l = e :: es → ∃ l1 l2, l = l1 ++ (t, e) :: l2 ∧ done_by t l2 = es.
Proof.
  unfold done_by. induction l as [|[u e'] l IH]; [done |]. destruct (decide (u = t)) as [->|Hne].
  - rewrite filter_cons_True by done. intros [= -> Hes]. by exists [], l.
  - rewrite filter_cons_False by done. intros (l1 & l2 & -> & Hes)%IH. by exists ((u, e') :: l1), l2.
Qed.

Lemma elem_of_done_by t l e : e ∈ done_by t l ↔ (t, e) ∈ l.
Proof.
  unfold done_by. rewrite list_elem_of_fmap. split.
  - intros ([u e'] & -> & [Hu Hin]%list_elem_of_filter). simpl in *. by subst.
  - intros Hin. exists (t, e). split; [done |]. by apply list_elem_of_filter.
Qed.
End history.

(** ** Recorded actions *)

Class Recorded (Action : Set → Type) (St Event : Type) := {
  section_of : ∀ X : Set, Action X → St → X * St;
  event_of : ∀ X : Set, Action X → X → option Event;
  apply_event : St → Event → St;
  section_event : ∀ (X : Set) (a : Action X) s,
    (section_of X a s).2 =
      match event_of X a (section_of X a s).1 with Some e => apply_event s e | None => s end
}.
Arguments section_of {Action St Event _ X}.
Arguments event_of {Action St Event _ X}.
Arguments apply_event {Action St Event _}.

Record Journal (St Event : Type) := mkJournal { jn_state : St; jn_log : list (nat * Event) }.
Arguments mkJournal {St Event}.
Arguments jn_state {St Event}.
Arguments jn_log {St Event}.

Section recorded.
  Context {Action : Set → Type} {St Event : Type} `{Recorded Action St Event}.

#[export] Instance perform_recorded : Semantics Action (Journal St Event) := λ X t a s,
  let '(x, st) := section_of a (jn_state s) in
  Some (x, mkJournal st (jn_log s ++ (pair t <$> option_list (event_of a x)))).

(** The state that a history makes of [s0]. *)
Definition replay (s0 : St) (l : list (nat * Event)) : St := foldl apply_event s0 l.*2.

Lemma replay_snoc s0 l x : replay s0 (l ++ [x]) = apply_event (replay s0 l) x.2.
Proof. unfold replay. by rewrite fmap_app, foldl_app. Qed.

(** [knows l t own]: what [t], which has done [own], knows of the history [l]. *)
Class Promises (s0 : St) := {
  may_do : ∀ X : Set, nat → list Event → Action X → Prop;
  truthful : list (nat * Event) → nat * Event → Prop;
  knows : list (nat * Event) → nat → list Event → Prop;
  may_do_truthful : ∀ (X : Set) t (a : Action X) l own,
    knows l t own → may_do X t own a →
    Forall (λ e, truthful l (t, e)) (option_list (event_of a (section_of a (replay s0 l)).1));
  knows_own : ∀ (X : Set) t (a : Action X) l own,
    knows l t own → may_do X t own a →
    let es := option_list (event_of a (section_of a (replay s0 l)).1) in
    knows (l ++ (pair t <$> es)) t (own ++ es);
  knows_other : ∀ l t u own es, u ≠ t → knows l u own → knows (l ++ (pair t <$> es)) u own;
  knows_start : ∀ l t, done_by t l = [] → knows l t []
}.
Arguments may_do {s0 _ X}.
Arguments truthful {s0 _}.
Arguments knows {s0 _}.

Section promises.
  Context (s0 : St) `{!Promises s0}.

Definition journal_inv (s : Journal St Event) (gs : gmap nat (list Event)) : Prop :=
  jn_state s = replay s0 (jn_log s) ∧ history truthful (jn_log s) ∧
  map_Forall (knows (jn_log s)) gs ∧ ∀ t, gs !! t = None → done_by t (jn_log s) = [].

Definition journal_next (X : Set) (own : list Event) (a : Action X) (x : X) : list Event :=
  own ++ option_list (event_of a x).

Lemma history_grows P (l : list (nat * Event)) t (e : option Event) :
  history P l → Forall (λ e, P l (t, e)) (option_list e) → history P (l ++ (pair t <$> option_list e)).
Proof.
  intros Hl He. destruct e as [e|]; [|by rewrite app_nil_r].
  apply history_snoc; [done |]. by inversion He.
Qed.

Lemma replay_grows l t (e : option Event) :
  replay s0 (l ++ (pair t <$> option_list e)) =
    match e with Some e => apply_event (replay s0 l) e | None => replay s0 l end.
Proof. destruct e; [apply replay_snoc | by rewrite app_nil_r]. Qed.

Lemma journal_inv_act (X : Set) t (a : Action X) s gs own :
  journal_inv s gs → gs !! t = Some own → may_do t own a →
  ∃ x s', perform t a s = Some (x, s') ∧ journal_inv s' (<[t := journal_next X own a x]> gs).
Proof.
  intros (Hs & Hh & Hgs & Hnone) Ht Ha. pose proof (Hgs t own Ht) as Hk. unfold perform, perform_recorded, journal_next.
  pose proof (section_event X a (jn_state s)) as He.
  pose proof (may_do_truthful X t a (jn_log s) own Hk Ha) as Htr.
  pose proof (knows_own X t a (jn_log s) own Hk Ha) as Hown. cbn zeta in Hown.
  rewrite <-Hs in Htr, Hown. destruct (section_of a (jn_state s)) as [x st]. cbn [fst snd] in *.
  eexists x, _. split; [done |]. split_and!; cbn [jn_state jn_log].
  - by rewrite replay_grows, He, Hs.
  - by apply history_grows.
  - intros u h Hu. destruct (decide (u = t)) as [->|Hne].
    + rewrite lookup_insert_eq in Hu. by injection Hu as <-.
    + rewrite lookup_insert_ne in Hu by done. by apply knows_other, Hgs.
  - intros u Hu. apply lookup_insert_None in Hu as [Hu Hne].
    rewrite done_by_app, done_by_other, app_nil_r by done. by apply Hnone.
Qed.

Lemma journal_inv_start t s gs own :
  journal_inv s gs → gs !! t = None → own = [] → journal_inv s (<[t := own]> gs).
Proof.
  intros (Hs & Hh & Hgs & Hnone) Ht ->. split_and!; [done.. | |].
  - apply map_Forall_insert_2; [by apply knows_start, Hnone | done].
  - intros u Hu. apply lookup_insert_None in Hu as [Hu _]. by apply Hnone.
Qed.

#[export] Instance journal_protocol : Protocol Action (Journal St Event) (list Event) := {|
  pr_allowed X t own a := may_do t own a; pr_next := journal_next;
  pr_idle own := own = []; pr_done _ := True; pr_inv := journal_inv;
  pr_inv_act := journal_inv_act; pr_inv_start := journal_inv_start
|}.

Lemma follows_step {X : Set} {A} t post own (a : Action X) (k : X → Prog Action A) :
  may_do t own a → (∀ x, follows t post (own ++ option_list (event_of a x)) (k x)) →
  follows t post own (act a ≫= k).
Proof. by split. Qed.

(** Programs that keep their promises, started from nothing: everything in the history is
    truthful. *)
Section pool.
Context {A : Type} (may_start : nat → Prog Action A → Prop).
Hypothesis starts_truthful : ∀ t p, may_start t p → follows t finishes [] p.

Lemma journal_starts t p : may_start t p → ∃ own, pr_idle own ∧ follows t finishes own p.
Proof. intros Hp. exists []. split; [done | by apply starts_truthful]. Qed.

Theorem journal_truthful (pl : Pool A) :
  rtc (pool_step may_start) (mkPool (mkJournal s0 []) ∅) pl →
  let s := pl_shared pl in
  (∀ t p, pl_threads pl !! t = Some p → returned p = false →
     ∃ pl' p', act_step pl pl' ∧ pl_threads pl' = <[t := p']> (pl_threads pl)) ∧
  sn act_step pl ∧ jn_state s = replay s0 (jn_log s) ∧ history truthful (jn_log s).
Proof.
  intros Hr s. assert (pool_ok pl) as Hok.
  { apply (pool_ok_steps may_start journal_starts _ _) in Hr; [done |]. exists ∅.
    split; [split_and!; [done | apply history_nil | apply map_Forall_empty | done] | by split]. }
  pose proof Hok as (gs & (Hs & Hh & _) & _). split; [|split; [apply pools_end | by split]].
  intros t p Ht Hp. destruct (pool_ok_progress pl t p Hok Ht Hp) as (pl' & Hst & p' & Hp'). by exists pl', p'.
Qed.
End pool.
End promises.
End recorded.
