(* ===== verification/Concurrent.v ===== *)
(** * Requests, reloads and readiness checks at the same time
    (internal/proxy/proxy.go, internal/circuitbreaker/*.go,
    internal/health/health.go, [Gateway.OnReload])

    The programs of the goroutines that use the circuit breakers, as they
    interleave: every critical section of a mutex, channel operation and metric
    call is one action.  The layers of a breaker are pointers that never change,
    so a program is given them ([Layers]); what they hold is shared
    ([Shared]).  [updateThreshold] is one action although it takes two locks: the
    average it updates first is read under its own lock only.  What a request does
    to its own client is its own. *)

From stdpp Require Import relations.
From S2P Require Import Prelude GoFloat GoStrings Metrics FailureRateBreaker CircuitBreaker BulkheadConc.
From S2P Require Import Config ConfigValidate Routing Http Json ApiError Writers Proxy ProxyServe Health Goroutine.
Import FailureRate(State, StateClosed, StateOpen, StateHalfOpen, wf).

Open Scope Z_scope.

(** ** Actions *)

Inductive Action : Set → Type :=
| TryAcquire (backend : string) : Action bool             (** [select { case b.sem <- ...: default: }] *)
| Receive (backend : string) : Action unit                (** [<-b.sem] *)
| LenSem (backend : string) : Action Z                    (** [len(b.sem)] *)
| CoreAllow (backend : string) (now : Time) : Action bool
| CoreRecord (backend : string) (failed : bool) (now : Time) : Action unit
| UpdateThreshold (backend : string) (latency : Duration) : Action unit
| CoreState (backend : string) : Action State
| UpdateConfig (backend : string) (cfg : CBConfig) : Action unit
| Emit (e : MetricEvent) : Action unit
| BeginUpstream (backend : string) (req : Request) (timeout : Duration) : Action unit
| EndUpstream : Action unit.

(** The breakers, the metrics, the exchanges with backends that are in progress,
    by goroutine, and all that were begun. *)
Record Shared := mkShared {
  sh_breakers : gmap string CompositeBreaker;
  sh_events : list MetricEvent;
  sh_upstream : gmap nat string;
  sh_forwarded : list (nat * (string * Request * Duration))
}.

(** The state with a new value of one breaker, and the metric calls made meanwhile. *)
Definition put (backend : string) (c : CompositeBreaker) (evs : list MetricEvent) (s : Shared) : Shared :=
  mkShared (<[backend := c]> (sh_breakers s)) (sh_events s ++ evs) (sh_upstream s) (sh_forwarded s).

Definition with_breaker {X : Set} (backend : string)
    (f : CompositeBreaker → option (X * CompositeBreaker * list MetricEvent)) (s : Shared)
    : option (X * Shared) :=
  c ← sh_breakers s !! backend;
  '(x, c, evs) ← f c;
  Some (x, put backend c evs s).

Definition with_bulkhead {X : Set} (f : Bulkhead → option (X * Bulkhead)) (c : CompositeBreaker)
    : option (X * CompositeBreaker * list MetricEvent) :=
  match effective c with
  | BBulkhead i h => '(x, h) ← f h; Some (x, mkComposite (BBulkhead i h), [])
  | _ => None
  end.

Definition with_core {X : Set}
    (f : FailureRate.FailureRateBreaker → option (X * FailureRate.FailureRateBreaker * list MetricEvent))
    (c : CompositeBreaker) : option (X * CompositeBreaker * list MetricEvent) :=
  '(x, fr, evs) ← f (core (effective c));
  Some (x, mkComposite (map_core (λ _, fr) (effective c)), evs).

Fixpoint map_adaptive (f : AdaptiveBreaker → AdaptiveBreaker) (b : Breaker) : Breaker :=
  match b with
  | BFailureRate fr => BFailureRate fr
  | BAdaptive a => BAdaptive (f a)
  | BTimeout i slow => BTimeout (map_adaptive f i) slow
  | BBulkhead i h => BBulkhead (map_adaptive f i) h
  end.

#[export] Instance perform_action : Semantics Action Shared := λ X t a,
  match a in Action X return Shared → option (X * Shared) with
  | TryAcquire be => with_breaker be (with_bulkhead (λ h,
      Some (match try_acquire h with Some h' => (true, h') | None => (false, h) end)))
  | Receive be => with_breaker be (with_bulkhead (λ h, h ← sem_receive h; Some (tt, h)))
  | LenSem be => with_breaker be (with_bulkhead (λ h, Some (sem_len h, h)))
  | CoreAllow be now => with_breaker be (with_core (λ fr, Some (FailureRate.Allow fr now)))
  | CoreRecord be failed now => with_breaker be (with_core (λ fr,
      '(fr, evs) ← (if failed then FailureRate.RecordFailure fr now else FailureRate.RecordSuccess fr now);
      Some (tt, fr, evs)))
  | UpdateThreshold be latency => with_breaker be (λ c,
      Some (tt, mkComposite (map_adaptive (λ a, updateThreshold a latency) (effective c)), []))
  | CoreState be => with_breaker be (λ c, Some (InnerState c, c, []))
  | UpdateConfig be cfg => with_breaker be (λ c, Some (tt, composite_UpdateConfig c cfg, []))
  | Emit e => λ s,
      Some (tt, mkShared (sh_breakers s) (sh_events s ++ [e]) (sh_upstream s) (sh_forwarded s))
  | BeginUpstream be req timeout => λ s,
      Some (tt, mkShared (sh_breakers s) (sh_events s) (<[t := be]> (sh_upstream s))
                  (sh_forwarded s ++ [(t, (be, req, timeout))]))
  | EndUpstream => λ s,
      Some (tt, mkShared (sh_breakers s) (sh_events s) (delete t (sh_upstream s)) (sh_forwarded s))
  end.

(** ** The methods of the breakers *)

Inductive Layers :=
| LCore
| LAdaptive
| LTimeout (inner : Layers) (slowThreshold : Duration)
| LBulkhead (inner : Layers) (cap : Z) (label : string) (metrics : bool).

Fixpoint layers (b : Breaker) : Layers :=
  match b with
  | BFailureRate _ => LCore
  | BAdaptive _ => LAdaptive
  | BTimeout i slow => LTimeout (layers i) slow
  | BBulkhead i h => LBulkhead (layers i) (sem_cap h) (bh_backend h) (bh_metrics h)
  end.

Definition emit_p (evs : list MetricEvent) : Prog Action unit := each (λ e, act (Emit e)) evs.

(** [b.recordInFlight()] *)
Definition recordInFlight_p (be label : string) (m : bool) : Prog Action unit :=
  if m then
    n ← act (LenSem be);
    act (Emit (mkEvent BulkheadInFlight [label] (SetTo (f64 n))))
  else mret tt.

(** [b.Allow()] *)
Fixpoint Allow_p (be : string) (l : Layers) (now : Time) : Prog Action bool :=
  match l with
  | LCore | LAdaptive => act (CoreAllow be now)
  | LTimeout i _ => Allow_p be i now
  | LBulkhead i _ label m =>
      acquired ← act (TryAcquire be);
      if acquired : bool then
        recordInFlight_p be label m ;;
        admitted ← Allow_p be i now;
        if admitted : bool then mret true
        else act (Receive be) ;; recordInFlight_p be label m ;; mret false
      else emit_p (emit m [mkEvent BulkheadRejections [label] Inc]) ;; mret false
  end.

(** [b.RecordFailure(latency)], or [b.RecordSuccess(latency)] *)
Fixpoint Record_p (be : string) (l : Layers) (failed : bool) (latency : Duration) (now : Time)
    : Prog Action unit :=
  match l with
  | LCore => act (CoreRecord be failed now)
  | LAdaptive => act (CoreRecord be failed now) ;; act (UpdateThreshold be latency)
  | LTimeout i slow => Record_p be i (failed || bool_decide (slow < latency)) latency now
  | LBulkhead i _ _ _ => Record_p be i failed latency now
  end.

(** [c.Release()] *)
Definition Release_p (be : string) (l : Layers) : Prog Action unit :=
  match l with
  | LBulkhead _ _ label m => act (Receive be) ;; recordInFlight_p be label m
  | _ => mret tt
  end.

(** [c.EffectiveState()] *)
Definition EffectiveState_p (be : string) (l : Layers) : Prog Action State :=
  match l with
  | LBulkhead _ cap _ _ =>
      n ← act (LenSem be);
      if bool_decide (cap ≤ n) then mret StateOpen else act (CoreState be)
  | _ => act (CoreState be)
  end.

(** ** A request: [rt.ServeHTTP(w, r)]

    [stacks] has the layers of [rt.breakers].  The recorder around the client is
    the request's own. *)

Definition record_outcome_p (be : string) (l : option Layers) (failed : bool) (latency : Duration)
    (now : Time) : Prog Action unit :=
  match l with None => mret tt | Some l => Record_p be l failed latency now end.

Definition error_answer (req : Request) (status : Z) (code : ErrorCode) (msg : string) (now : Time)
    (rr : Recorder) : Recorder :=
  rr <| rr_client := WriteJSON (Some req) status code msg now (rr_client rr) |>.

Definition final_attempt_p (l : option Layers) (route : RouteConfig) (req : Request) (start : Time)
    (a : Attempt) (rr : Recorder) : Prog Action (LoopEnd * Recorder) :=
  act (BeginUpstream (r_Backend route) req (route_Timeout route)) ;;
  let rr := lw_ResponseWriter (run_ops (attempt_ops req a) (mkLatencyWriter rr start false)) in
  act EndUpstream ;;
  match at_ending a with
  | Aborted => mret (LoopPanic, rr)
  | _ =>
      record_outcome_p (r_Backend route) l (isRetryable (rr_statusCode rr))
        (time_sub (at_end a) (at_start a)) (at_end a) ;;
      mret (LoopBreak, rr)
  end.

Definition buffered_attempt_p (m : bool) (l : option Layers) (route : RouteConfig) (req : Request)
    (start : Time) (a : Attempt) (rr : Recorder) : Prog Action ((LoopEnd * Recorder) + Recorder) :=
  act (BeginUpstream (r_Backend route) req (route_Timeout route)) ;;
  let buf := run_ops (attempt_ops req a) (buffer_Reset (mkBuffer ∅ "" StatusOK false)) in
  act EndUpstream ;;
  match at_ending a with
  | Aborted => mret (inl (LoopPanic, rr))
  | _ =>
      let latency := time_sub (at_end a) (at_start a) in
      if negb (isRetryable (rb_statusCode buf)) then
        record_outcome_p (r_Backend route) l false latency (at_end a) ;;
        mret (inl (LoopBreak,
          replayTo buf (at_end a)
            (rw_Header (header_Set "X-Gateway-Latency"
              (duration_string (time_sub (at_end a) start))) rr)))
      else
        record_outcome_p (r_Backend route) l true latency (at_end a) ;;
        emit_p (emit m [mkEvent RetryTotal [r_PathPrefix route; r_Backend route] Inc]) ;;
        mret (inr rr)
  end.

(** The loop over the attempts; it ends when none is listed. *)
Fixpoint attempt_loop_p (m : bool) (l : option Layers) (route : RouteConfig) (req : Request)
    (start : Time) (attempt : Z) (attempts : list Attempt) (rr : Recorder)
    : Prog Action (LoopEnd * Recorder) :=
  match attempts with
  | [] => mret (LoopReturn, rr)
  | a :: attempts =>
      if at_cancelled a then
        mret (LoopReturn,
              error_answer req StatusGatewayTimeout RequestCancelled "request cancelled" (at_start a) rr)
      else if decide (attempt = max_attempts route) then final_attempt_p l route req start a rr
      else
        r ← buffered_attempt_p m l route req start a rr;
        match r with
        | inl out => mret out
        | inr rr => attempt_loop_p m l route req start (attempt + 1) attempts rr
        end
  end.

(** From the gauge to the deferred [Dec]. *)
Definition serve_admitted_p (rt : Router) (m : bool) (l : option Layers) (route : RouteConfig)
    (env : ServeEnv) (req : Request) (rr : Recorder) : Prog Action (Exit * Recorder) :=
  emit_p (emit m [mkEvent ActiveConnections [] Inc]) ;;
  let req := rewrite_request route req in
  '(out, rr) ←
    match rt_routeBackendKey rt !! r_PathPrefix route ≫= λ key, rt_proxies rt !! key with
    | None =>
        mret (match head (en_attempts env) with
              | Some a =>
                  if at_cancelled a then
                    (LoopReturn, error_answer req StatusGatewayTimeout RequestCancelled
                                   "request cancelled" (at_start a) rr)
                  else (LoopPanic, rr)
              | None => (LoopReturn, rr)
              end)
    | Some _ => attempt_loop_p m l route req (en_start env) 1 (en_attempts env) rr
    end;
  match out with
  | LoopBreak => emit_p (request_events m route req (rr_statusCode rr)
                           (time_sub (en_end env) (en_start env)))
  | _ => mret tt
  end ;;
  emit_p (emit m [mkEvent ActiveConnections [] Dec]) ;;
  mret (match out with LoopPanic => Panicked | _ => Returned end, rr).

Definition serve_p (rt : Router) (m : bool) (stacks : gmap string Layers) (env : ServeEnv)
    (req : Request) (client : Client) : Prog Action (Exit * Recorder) :=
  let now := en_start env in
  let rr := mkRecorder client StatusOK false in
  match matchRoute rt (rq_Path req) with
  | None => mret (Returned, error_answer req StatusNotFound RouteNotFound "no matching route" now rr)
  | Some route =>
      if negb (method_allowed rt route (rq_Method req)) then
        mret (Returned, error_answer req StatusMethodNotAllowed MethodNotAllowed
          ("method " +:+ rq_Method req +:+ " not allowed for " +:+ r_PathPrefix route) now rr)
      else
        match stacks !! r_Backend route with
        | None => serve_admitted_p rt m None route env req rr
        | Some l =>
            admitted ← Allow_p (r_Backend route) l now;
            if negb admitted then mret (Returned, rejected_answer route req now rr)
            else
              '(exit, rr) ← serve_admitted_p rt m (Some l) route env req rr;
              Release_p (r_Backend route) l ;;
              mret (exit, rr)
        end
  end.

(** ** A reload and a readiness check *)

(** The loop of [g.OnReload] over the breakers, in whatever order. *)
Definition reload_p (cfg : CBConfig) (backends : list string) : Prog Action unit :=
  each (λ be, act (UpdateConfig be cfg)) backends.

(** The goroutine that probes one route. *)
Definition probe_p `{ConfigLib} (dial : string → bool) (stacks : gmap string Layers)
    (cancelled : bool) (route : RouteConfig) : Prog Action BackendResult :=
  match stacks !! r_Backend route with
  | None => mret (probe_result dial cancelled route None)
  | Some l =>
      st ← EffectiveState_p (r_Backend route) l;
      mret (probe_result dial cancelled route (Some st))
  end.

(** ** Alone, a goroutine computes what the sequential definitions do

    [after t be sv s]: the shared state, from [s], when the request of goroutine
    [t], matched to backend [be], has got to [sv]. *)

Definition after (t : nat) (be : string) (sv : Serving CompositeBreaker) (s : Shared) : Shared :=
  mkShared (match sv_breaker sv with Some c => <[be := c]> (sh_breakers s) | None => sh_breakers s end)
    (sh_events s ++ sv_events sv) (sh_upstream s)
    (sh_forwarded s ++ ((λ f, (t, (be, f.1, f.2))) <$> sv_forwarded sv)).

Definition moved (c : CompositeBreaker) (evs : list MetricEvent) (sv : Serving CompositeBreaker)
    : Serving CompositeBreaker :=
  mkServing (sv_recorder sv) (Some c) (sv_events sv ++ evs) (sv_forwarded sv) (sv_sleeps sv).

Lemma moved_moved c c' e e' sv : moved c' e' (moved c e sv) = moved c' (e ++ e') sv.
Proof. unfold moved. simpl. by rewrite app_assoc. Qed.

(** The places in a stack where a breaker can be. *)
Record stack_context (K : Breaker → Breaker) : Prop := {
  sc_core b : core (K b) = core b;
  sc_map_core f b : map_core f (K b) = K (map_core f b);
  sc_map_adaptive f b : map_adaptive f (K b) = K (map_adaptive f b)
}.

Lemma stack_context_id : stack_context (λ b, b).
Proof. done. Qed.

Lemma stack_context_bulkhead h : stack_context (λ b, BBulkhead b h).
Proof. done. Qed.

Lemma stack_context_timeout K slow : stack_context K → stack_context (λ b, K (BTimeout b slow)).
Proof. intros [H1 H2 H3]. split; intros; by rewrite ?H1, ?H2, ?H3. Qed.

Create HintDb stack.
#[export] Hint Resolve stack_context_id stack_context_bulkhead stack_context_timeout : stack.

Section alone.
Context (t : nat) (be : string) (s : Shared).

Lemma with_breaker_after {X : Set} (f : CompositeBreaker → option (X * CompositeBreaker * list MetricEvent))
    sv c :
  sv_breaker sv = Some c →
  with_breaker be f (after t be sv s) = '(x, c', e) ← f c; Some (x, after t be (moved c' e sv) s).
Proof.
  intros Hb. unfold with_breaker, after, put. simpl. rewrite Hb, lookup_insert_eq. simpl.
  destruct (f c) as [[[x c'] e]|]; simpl; [|done]. by rewrite insert_insert_eq, app_assoc.
Qed.

Lemma perform_Emit e sv :
  perform t (Emit e) (after t be sv s) = Some (tt, after t be (log_events [e] sv) s).
Proof. unfold after, log_events. simpl. by rewrite app_assoc. Qed.

Lemma run_emit evs sv :
  run t (emit_p evs) (after t be sv s) = Some (tt, after t be (log_events evs sv) s).
Proof.
  revert sv. induction evs as [|e evs IH]; intros sv.
  - unfold after, log_events. simpl. by rewrite app_nil_r.
  - change (emit_p (e :: evs)) with (act (Emit e) ;; emit_p evs).
    rewrite run_bind, run_act, perform_Emit. simpl. rewrite IH.
    unfold after, log_events. simpl. by rewrite <-!app_assoc.
Qed.

Lemma run_recordInFlight i h sv c :
  sv_breaker sv = Some c → effective c = BBulkhead i h →
  run t (recordInFlight_p be (bh_backend h) (bh_metrics h)) (after t be sv s) =
    Some (tt, after t be (moved c (recordInFlight h) sv) s).
Proof.
  intros Hb Hc. unfold recordInFlight_p, recordInFlight. destruct (bh_metrics h).
  - rewrite run_bind, run_act. cbn [perform perform_action].
    rewrite (with_breaker_after _ _ _ Hb). unfold with_bulkhead. rewrite Hc.
    simpl. unfold after, moved. destruct c as [b]. simpl in *. subst b. by rewrite app_nil_r, app_assoc.
  - simpl. unfold after, moved. simpl. by rewrite Hb, app_nil_r.
Qed.

Lemma run_Allow_core K b now sv :
  stack_context K → no_bulkhead b → sv_breaker sv = Some (mkComposite (K b)) →
  run t (Allow_p be (layers b) now) (after t be sv s) =
    let '(r, b', e) := breaker_Allow b now in
    Some (r, after t be (moved (mkComposite (K b')) e sv) s).
Proof.
  intros HK Hb Hsv. assert (Allow_p be (layers b) now = act (CoreAllow be now)) as ->
    by (clear -Hb; induction b; naive_solver).
  rewrite run_act, breaker_Allow_core by done. cbn [perform perform_action].
  destruct (FailureRate.Allow (core b) now) as [[r fr] e] eqn:Ha.
  rewrite (with_breaker_after _ _ _ Hsv). unfold with_core. simpl.
  by rewrite (sc_core K HK), Ha, (sc_map_core K HK).
Qed.

(** What the critical section of the core does to the stack around it. *)
Lemma run_CoreRecord K b (failed : bool) now sv :
  stack_context K → sv_breaker sv = Some (mkComposite (K b)) →
  run t (act (CoreRecord be failed now)) (after t be sv s) =
    '(fr, e) ← (if failed then FailureRate.RecordFailure (core b) now
                else FailureRate.RecordSuccess (core b) now);
    Some (tt, after t be (moved (mkComposite (K (map_core (λ _, fr) b))) e sv) s).
Proof.
  intros HK Hsv. rewrite run_act. cbn [perform perform_action].
  rewrite (with_breaker_after _ _ _ Hsv). unfold with_core. simpl. rewrite (sc_core K HK).
  destruct (if failed then _ else _) as [[fr e]|]; simpl; [|done]. by rewrite (sc_map_core K HK).
Qed.

Lemma run_Record_core K b (failed : bool) latency now sv :
  stack_context K → no_bulkhead b → sv_breaker sv = Some (mkComposite (K b)) →
  run t (Record_p be (layers b) failed latency now) (after t be sv s) =
    '(b', e) ← (if failed then breaker_RecordFailure b latency now
                else breaker_RecordSuccess b latency now);
    Some (tt, after t be (moved (mkComposite (K b')) e sv) s).
Proof.
  revert K failed. induction b as [fr|a|i IH slow|i IH h]; intros K failed HK Hb Hsv; [| | |done].
  - cbn [layers Record_p]. rewrite (run_CoreRecord K _ _ _ _ HK Hsv). simpl.
    destruct failed;
      [destruct (FailureRate.RecordFailure fr now) as [[]|]
      |destruct (FailureRate.RecordSuccess fr now) as [[]|]]; done.
  - cbn [layers Record_p]. rewrite run_bind, (run_CoreRecord K _ _ _ _ HK Hsv). simpl.
    assert (∀ fr e, run t (act (UpdateThreshold be latency))
        (after t be (moved (mkComposite (K (BAdaptive (a <| ad_inner := fr |>)))) e sv) s) =
      Some (tt, after t be (moved (mkComposite (K (BAdaptive
        (updateThreshold (a <| ad_inner := fr |>) latency)))) e sv) s)) as Hup.
    { intros fr e. rewrite run_act. cbn [perform perform_action].
      rewrite (with_breaker_after _ _ (mkComposite (K (BAdaptive (a <| ad_inner := fr |>))))) by done.
      simpl. by rewrite (sc_map_adaptive K HK), moved_moved, app_nil_r. }
    destruct failed;
      [destruct (FailureRate.RecordFailure (ad_inner a) now) as [[fr e]|]
      |destruct (FailureRate.RecordSuccess (ad_inner a) now) as [[fr e]|]]; simpl; try done; apply Hup.
  - cbn [layers Record_p].
    rewrite (IH (λ b, K (BTimeout b slow)) _ (stack_context_timeout K slow HK) Hb Hsv). simpl.
    destruct failed; simpl; [by destruct (breaker_RecordFailure i latency now) as [[]|] |].
    case_bool_decide as Hs; rewrite ?(decide_True _ _ Hs), ?(decide_False _ _ Hs);
      [by destruct (breaker_RecordFailure i latency now) as [[]|]
      |by destruct (breaker_RecordSuccess i latency now) as [[]|]].
Qed.

Lemma run_Allow c now sv :
  composite_ok c → sv_breaker sv = Some c →
  run t (Allow_p be (layers (effective c)) now) (after t be sv s) =
    let '(r, c', e) := composite_Allow c now in Some (r, after t be (moved c' e sv) s).
Proof.
  destruct c as [b]. intros [Hst _] Hsv. unfold composite_Allow. simpl in *.
  destruct b as [fr|a|i slow|i h]; simpl in Hst;
    [rewrite (run_Allow_core (λ b, b)) by done; by destruct (breaker_Allow _ _) as [[]]..|].
  destruct Hst as [Hi Hh]. cbn [layers Allow_p breaker_Allow]. unfold bulkhead_ok in Hh.
  rewrite run_bind, run_act. cbn [perform perform_action].
  rewrite (with_breaker_after _ _ _ Hsv). unfold with_bulkhead. cbn [effective].
  unfold try_acquire. case_decide as Hcap.
  2: { cbn [mbind option_bind]. erewrite run_seq by apply run_emit.
       unfold moved, log_events. simpl. by rewrite app_nil_r. }
  set (h1 := h <| sem_len := sem_len h + 1 |>). cbn [mbind option_bind].
  erewrite run_seq by (by apply (run_recordInFlight i h1 _ (mkComposite (BBulkhead i h1)))).
  cbn beta. rewrite run_bind, (run_Allow_core (λ b, BBulkhead b h1)) by done.
  destruct (breaker_Allow i now) as [[[|] i'] e]; cbn [mbind option_bind].
  - simpl. by rewrite !moved_moved.
  - rewrite run_bind, run_act. cbn [perform perform_action].
    rewrite (with_breaker_after _ _ (mkComposite (BBulkhead i' h1))) by done.
    unfold with_bulkhead, sem_receive. cbn [effective].
    rewrite decide_True by (simpl; lia). cbn [mbind option_bind].
    set (h2 := h1 <| sem_len := sem_len h1 - 1 |>).
    erewrite run_seq by (by apply (run_recordInFlight i' h2 _ (mkComposite (BBulkhead i' h2)))).
    simpl. by rewrite !moved_moved.
Qed.

Lemma run_Record c (failed : bool) latency now sv :
  composite_ok c → sv_breaker sv = Some c →
  run t (Record_p be (layers (effective c)) failed latency now) (after t be sv s) =
    '(c', e) ← (if failed then composite_RecordFailure c latency now
                else composite_RecordSuccess c latency now);
    Some (tt, after t be (moved c' e sv) s).
Proof.
  destruct c as [b]. intros [Hst _] Hsv. unfold composite_RecordFailure, composite_RecordSuccess. simpl in *.
  destruct b as [fr|a|i slow|i h]; simpl in Hst;
    [rewrite (run_Record_core (λ b, b)) by done;
     destruct failed; simpl;
       match goal with |- context [mbind _ ?o] => by destruct o as [[]|] end..|].
  destruct Hst as [Hi _]. cbn [layers Record_p].
  rewrite (run_Record_core (λ b, BBulkhead b h) i failed latency now sv (stack_context_bulkhead h) Hi Hsv).
  destruct failed; simpl;
    [by destruct (breaker_RecordFailure i latency now) as [[]|]
    |by destruct (breaker_RecordSuccess i latency now) as [[]|]].
Qed.

Lemma run_Release c sv :
  sv_breaker sv = Some c →
  run t (Release_p be (layers (effective c))) (after t be sv s) =
    '(c', e) ← Release c; Some (tt, after t be (moved c' e sv) s).
Proof.
  destruct c as [b]. intros Hsv. unfold Release. simpl in *.
  assert (Some (tt, after t be sv s) = Some (tt, after t be (moved (mkComposite b) [] sv) s)) as Hid
    by (unfold after, moved; simpl; by rewrite Hsv, app_nil_r).
  destruct b as [fr|a|i slow|i h]; [exact Hid..|]. cbn [layers Release_p].
  rewrite run_bind, run_act. cbn [perform perform_action].
  rewrite (with_breaker_after _ _ _ Hsv). unfold with_bulkhead, sem_receive. cbn [effective].
  case_decide; simpl; [|done].
  set (h' := h <| sem_len := sem_len h - 1 |>).
  rewrite (run_recordInFlight i h' _ (mkComposite (BBulkhead i h'))) by done.
  by rewrite moved_moved.
Qed.
End alone.

(** ** The layers of a breaker never change *)

Lemma layers_map_core f b : layers (map_core f b) = layers b.
Proof. induction b; simpl; congruence. Qed.

Lemma layers_map_adaptive f b : layers (map_adaptive f b) = layers b.
Proof. induction b; simpl; congruence. Qed.

Lemma layers_Allow b now : layers (breaker_Allow b now).1.2 = layers b.
Proof.
  induction b as [fr|a|i IH slow|i IH h]; simpl.
  - by destruct (FailureRate.Allow fr now) as [[]].
  - by destruct (FailureRate.Allow (ad_inner a) now) as [[]].
  - destruct (breaker_Allow i now) as [[]]. simpl in *. congruence.
  - unfold try_acquire. case_decide; simpl; [|done].
    destruct (breaker_Allow i now) as [[[|] i'] e]; simpl in *; [congruence |].
    unfold sem_receive. by case_decide; simpl; rewrite IH.
Qed.

Lemma layers_RecordFailure b latency now b' e :
  breaker_RecordFailure b latency now = Some (b', e) → layers b' = layers b.
Proof.
  revert b' e. induction b as [fr|a|i IH slow|i IH h]; intros b' e; simpl; rewrite bind_Some;
    intros ([x e'] & Hx & [= <- _]); simpl; by rewrite ?(IH _ _ Hx).
Qed.

Lemma layers_RecordSuccess b latency now b' e :
  breaker_RecordSuccess b latency now = Some (b', e) → layers b' = layers b.
Proof.
  revert b' e. induction b as [fr|a|i IH slow|i IH h]; intros b' e; simpl; rewrite bind_Some;
    intros ([x e'] & Hx & [= <- _]); simpl; [done | done | | by rewrite ?(IH _ _ Hx)].
  case_decide; [by rewrite (layers_RecordFailure _ _ _ _ _ Hx) | by rewrite (IH _ _ Hx)].
Qed.

Definition layers_of (sv : Serving CompositeBreaker) : option Layers :=
  (λ c, layers (effective c)) <$> sv_breaker sv.

(** ** A request alone *)

Section request.
Context (t : nat) (s : Shared) (rt : Router) (m : bool) (route : RouteConfig).
Hypothesis fresh : sh_upstream s !! t = None.
Abbreviation be := (r_Backend route) (only parsing).

Lemma run_record_outcome failed latency now sv sv' :
  breaker_ok (sv_breaker sv) → record_outcome failed latency now sv = Some sv' →
  run t (record_outcome_p be (layers_of sv) failed latency now) (after t be sv s) =
    Some (tt, after t be sv' s) ∧
  layers_of sv' = layers_of sv ∧ sv_recorder sv' = sv_recorder sv ∧ breaker_ok (sv_breaker sv').
Proof.
  intros Hok Hr. pose proof (record_outcome_frame _ _ _ _ _ Hr) as (Hrec & _).
  pose proof (record_outcome_law failed latency now sv Hok) as (b' & e & Hr' & Hk).
  unfold layers_of, record_outcome_p. revert Hr Hr' Hk. unfold record_outcome.
  destruct (sv_breaker sv) as [c|] eqn:Hb.
  2: { intros [= <-] _ _. rewrite Hb. by split_and!. }
  simpl. intros Hr. rewrite (run_Record _ _ _ c) by done.
  assert (∀ c' e, (if failed then composite_RecordFailure c latency now
    else composite_RecordSuccess c latency now) = Some (c', e) →
    layers (effective c') = layers (effective c)) as Hl.
  { intros c' e' Hc. destruct c as [b]. destruct failed; unfold composite_RecordFailure, composite_RecordSuccess in Hc;
      apply bind_Some in Hc as ([b2 e2] & Hc & [= <- _]);
      [by eapply layers_RecordFailure | by eapply layers_RecordSuccess]. }
  change (ac_RecordFailure c latency now) with (composite_RecordFailure c latency now) in *.
  change (ac_RecordSuccess c latency now) with (composite_RecordSuccess c latency now) in *.
  destruct (if failed then _ else _) as [[c' e']|]; simpl in *; [|done].
  injection Hr as <-. intros [= <-] Hk.
  split_and!; [done | simpl; by rewrite (Hl _ _ eq_refl) | done | apply Hk].
Qed.

(** The two ends of an exchange with the backend, seen by the request itself. *)
Lemma run_exchange {A} req (p : Prog Action A) sv :
  run t (act (BeginUpstream be req (route_Timeout route)) ;; act EndUpstream ;; p) (after t be sv s) =
  run t p (after t be (forward route req sv) s).
Proof.
  simpl. rewrite delete_insert_id by done. unfold after, forward. simpl.
  by rewrite fmap_app, app_assoc.
Qed.

(** What a step of the request must establish for the next. *)
Definition stays (sv sv' : Serving CompositeBreaker) : Prop :=
  layers_of sv' = layers_of sv ∧ breaker_ok (sv_breaker sv').

Lemma run_final_attempt req start a sv out sv' :
  breaker_ok (sv_breaker sv) → final_attempt route req start a sv = Some (out, sv') →
  run t (final_attempt_p (layers_of sv) route req start a (sv_recorder sv)) (after t be sv s) =
    Some ((out, sv_recorder sv'), after t be sv' s) ∧ stays sv sv'.
Proof.
  intros Hok Hf. unfold final_attempt_p. cbn zeta. rewrite run_exchange.
  unfold final_attempt in Hf. cbn zeta in Hf.
  set (sv1 := on_recorder _ (forward route req sv)) in Hf.
  assert (after t be (forward route req sv) s = after t be sv1 s) as -> by done.
  change (layers_of sv) with (layers_of sv1).
  assert (breaker_ok (sv_breaker sv1)) as Hok1 by done.
  destruct (at_ending a);
    [| |injection Hf as <- <-; by split];
    apply bind_Some in Hf as (sv2 & Hr & [= <- <-]);
    destruct (run_record_outcome _ _ _ _ _ Hok1 Hr) as (Hrun & Hl & Hrec & Hok2);
    erewrite run_seq by exact Hrun; rewrite Hrec; by split.
Qed.

Lemma run_buffered_attempt req start attempt a sv r :
  breaker_ok (sv_breaker sv) → buffered_attempt m route req start attempt a sv = Some r →
  let sv' := match r with inl (_, sv') => sv' | inr sv' => sv' end in
  run t (buffered_attempt_p m (layers_of sv) route req start a (sv_recorder sv)) (after t be sv s) =
    Some (match r with inl (out, sv') => inl (out, sv_recorder sv') | inr sv' => inr (sv_recorder sv') end,
          after t be sv' s) ∧ stays sv sv'.
Proof.
  intros Hok Hf. unfold buffered_attempt_p. cbn zeta. rewrite run_exchange.
  unfold buffered_attempt in Hf. cbn zeta in Hf.
  set (sv1 := forward route req sv) in *.
  change (layers_of sv) with (layers_of sv1).
  assert (breaker_ok (sv_breaker sv1)) as Hok1 by done.
  destruct (at_ending a);
    [| |injection Hf as <-; by split];
    destruct (negb (isRetryable _));
    apply bind_Some in Hf as (sv2 & Hr & [= <-]);
    destruct (run_record_outcome _ _ _ _ _ Hok1 Hr) as (Hrun & Hl & Hrec & Hok2);
    erewrite run_seq by exact Hrun; cbn beta.
  all: change (sv_recorder sv) with (sv_recorder sv1); rewrite <-Hrec.
  1,3: by split.
  all: erewrite run_seq by apply run_emit; by split.
Qed.

Lemma run_attempt_loop req start attempt attempts sv out sv' :
  breaker_ok (sv_breaker sv) →
  attempt_loop m route req start attempt attempts sv = Some (out, sv') →
  run t (attempt_loop_p m (layers_of sv) route req start attempt attempts (sv_recorder sv))
      (after t be sv s) = Some ((out, sv_recorder sv'), after t be sv' s) ∧ stays sv sv'.
Proof.
  revert attempt sv. induction attempts as [|a attempts IH]; intros attempt sv Hok Hl; [done |].
  cbn [attempt_loop attempt_loop_p] in *. destruct (at_cancelled a); [injection Hl as <- <-; by split |].
  case_decide; [by apply run_final_attempt |].
  apply bind_Some in Hl as (r & Hr & Hl).
  destruct (run_buffered_attempt _ _ _ _ _ _ Hok Hr) as (Hrun & Hlay & Hok').
  erewrite run_seq by exact Hrun. destruct r as [[out1 sv1]|sv1].
  - injection Hl as <- <-. by split.
  - destruct (IH (attempt + 1) sv1 Hok' Hl) as (Hrest & Hlay2 & Hok2).
    rewrite Hlay in Hrest, Hlay2. by split.
Qed.

Lemma run_serve_admitted env req sv exit sv' :
  breaker_ok (sv_breaker sv) → serve_admitted rt m route env req sv = Some (exit, sv') →
  run t (serve_admitted_p rt m (layers_of sv) route env req (sv_recorder sv)) (after t be sv s) =
    Some ((exit, sv_recorder sv'), after t be sv' s) ∧ stays sv sv'.
Proof.
  intros Hok Hs. unfold serve_admitted_p, serve_admitted in *. cbn zeta in *.
  erewrite run_seq by apply run_emit. cbn beta.
  set (sv1 := log_events (emit m [mkEvent ActiveConnections [] Inc]) sv) in *.
  change (layers_of sv) with (layers_of sv1). change (sv_recorder sv) with (sv_recorder sv1).
  assert (breaker_ok (sv_breaker sv1)) as Hok1 by done.
  apply bind_Some in Hs as ([out sv2] & Hs & [= <- <-]).
  match type of Hs with ?o = _ => match goal with |- run t (mbind ?k ?p) ?st = _ ∧ _ =>
    assert (run t p st = Some ((out, sv_recorder sv2), after t be sv2 s) ∧ stays sv1 sv2)
      as (Hrun & Hlay & Hok2) end end.
  { destruct (rt_routeBackendKey rt !! r_PathPrefix route ≫= _) as [pr|].
    - by apply run_attempt_loop.
    - apply bind_Some in Hs as (a & -> & Hs).
      destruct (at_cancelled a); injection Hs as <- <-; by split. }
  erewrite run_seq by exact Hrun.
  destruct out; (split; [|by split]);
    [erewrite run_seq by apply run_emit | erewrite run_seq by done..];
    by erewrite run_seq by apply run_emit.
Qed.
End request.

(** What another name for the state before a request is. *)
Lemma after_start t be c s rr :
  sh_breakers s !! be = Some c → after t be (mkServing rr (Some c) [] [] []) s = s.
Proof.
  intros Hc. destruct s as [bs evs up fw]. unfold after. simpl in *.
  by rewrite insert_id, !app_nil_r.
Qed.

Lemma after_nothing t be s rr : after t be (mkServing rr None [] [] []) s = s.
Proof. destruct s as [bs evs up fw]. unfold after. simpl. by rewrite !app_nil_r. Qed.

Definition stacks_of (s : Shared) : gmap string Layers :=
  (λ c, layers (effective c)) <$> sh_breakers s.

(** The backend of the route that a request matches. *)
Definition matched_backend (rt : Router) (req : Request) : string :=
  match matchRoute rt (rq_Path req) with Some route => r_Backend route | None => "" end.

(** A request that no other goroutine interrupts computes exactly what [ServeHTTP]
    says: the same answer and exit, and the breaker, the metrics and the requests
    forwarded as there. *)
Theorem serve_alone (t : nat) (rt : Router) (m : bool) (env : ServeEnv) (req : Request)
    (client : Client) (s : Shared) :
  sh_upstream s !! t = None → map_Forall (λ _, composite_ok) (sh_breakers s) → resolves rt →
  (∀ r, matchRoute rt (rq_Path req) = Some r → enough r 1 (en_attempts env)) →
  ∃ exit sv, ServeHTTP rt m (sh_breakers s) env req client = Some (exit, sv) ∧
    run t (serve_p rt m (stacks_of s) env req client) s =
      Some ((exit, sv_recorder sv), after t (matched_backend rt req) sv s).
Proof.
  intros Hup Hall Hrt Hen.
  assert (map_Forall (λ _, ac_ok) (sh_breakers s)) as Hall' by exact Hall.
  destruct (ServeHTTP_runs rt m (sh_breakers s) env req client Hrt Hall' Hen) as (exit & sv & Hs & _).
  exists exit, sv. split; [done |]. revert Hs. unfold ServeHTTP, serve_p, matched_backend, stacks_of.
  cbn zeta. destruct (matchRoute rt (rq_Path req)) as [route|] eqn:Hm.
  2: { intros [= <- <-]. simpl. do 2 f_equal. symmetry. apply after_nothing. }
  destruct (method_allowed rt route (rq_Method req)); cbn [negb].
  2: { intros [= <- <-]. simpl. do 2 f_equal. symmetry. apply after_nothing. }
  rewrite lookup_fmap. destruct (sh_breakers s !! r_Backend route) as [c|] eqn:Hc; cbn [fmap option_fmap option_map].
  2: { intros Hs. set (sv0 := mkServing _ None [] [] []) in Hs.
       rewrite <-(after_nothing t (r_Backend route) s (mkRecorder client StatusOK false)) at 1.
       by apply (run_serve_admitted t s rt m route Hup env req sv0 exit sv). }
  pose proof (Hall _ _ Hc) as Hok.
  rewrite <-(after_start t (r_Backend route) c s (mkRecorder client StatusOK false) Hc) at 1.
  rewrite run_bind. rewrite run_Allow by done.
  change (ac_Allow c (en_start env)) with (composite_Allow c (en_start env)).
  destruct (composite_Allow_keeps c (en_start env) Hok) as (r & c1 & e & Ha & Hok1 & _).
  rewrite Ha. cbn [mbind option_bind].
  assert (layers (effective c1) = layers (effective c)) as Hl1.
  { pose proof (layers_Allow (effective c) (en_start env)) as Hl. unfold composite_Allow in Ha.
    destruct (breaker_Allow (effective c) (en_start env)) as [[r1 b1] e1]. injection Ha as <- <- <-. done. }
  set (sv1 := log_events e (mkServing (mkRecorder client StatusOK false) (Some c1) [] [] [])).
  change (moved c1 e _) with sv1. destruct r; cbn [negb]; [|by intros [= <- <-]].
  intros Hs. apply bind_Some in Hs as ([exit2 sv2] & Hs & Hs2).
  apply bind_Some in Hs2 as (c2 & Hc2 & Hs2). apply bind_Some in Hs2 as ([c3 e3] & Hrel & [= <- <-]).
  destruct (run_serve_admitted t s rt m route Hup env req sv1 exit2 sv2 Hok1 Hs) as (Hrun & Hl2 & _).
  assert (layers_of sv1 = Some (layers (effective c))) as Hl by (unfold sv1, layers_of; simpl; by rewrite Hl1).
  rewrite Hl in Hrun, Hl2. erewrite run_seq by exact Hrun. cbn beta iota.
  unfold layers_of in Hl2. rewrite Hc2 in Hl2. injection Hl2 as <-.
  rewrite run_bind, (run_Release _ _ _ c2) by done.
  change (ac_Release c2) with (Release c2) in Hrel. by rewrite Hrel.
Qed.

(** Alone, the loop of a reload updates the breakers it is given and nothing else. *)
Lemma reload_alone t cfg bes s :
  Forall (λ be, is_Some (sh_breakers s !! be)) bes →
  ∃ s', run t (reload_p cfg bes) s = Some (tt, s') ∧ sh_events s' = sh_events s ∧
    ∀ be, sh_breakers s' !! be =
      (if decide (be ∈ bes) then λ c, composite_UpdateConfig c cfg else id) <$> sh_breakers s !! be.
Proof.
  revert s. induction bes as [|b bes IH]; intros s Hall.
  - exists s. split_and!; [done.. |]. intros be. rewrite decide_False by apply not_elem_of_nil.
    by rewrite option_fmap_id.
  - apply Forall_cons_iff in Hall as [[c Hc] Hall].
    set (s1 := put b (composite_UpdateConfig c cfg) [] s).
    destruct (IH s1) as (s' & Hrun & Hev & Hlk).
    { eapply Forall_impl; [exact Hall |]. intros be Hbe. simpl.
      destruct (decide (be = b)) as [->|Hne]; [rewrite lookup_insert_eq; by eexists | by rewrite lookup_insert_ne]. }
    exists s'. split_and!.
    + unfold reload_p. cbn [each]. rewrite run_bind, run_act. cbn [perform perform_action].
      unfold with_breaker. rewrite Hc. simpl. exact Hrun.
    + rewrite Hev. simpl. apply app_nil_r.
    + intros be. rewrite Hlk. simpl. destruct (decide (be = b)) as [->|Hne].
      * rewrite lookup_insert_eq, Hc, (decide_True (P := b ∈ b :: bes)) by by left. simpl.
        case_decide; [by rewrite composite_UpdateConfig_idemp | done].
      * rewrite lookup_insert_ne by done.
        assert (be ∈ b :: bes ↔ be ∈ bes) as Hiff by (rewrite elem_of_cons; naive_solver).
        by rewrite (decide_ext _ _ _ _ Hiff).
Qed.

(** Alone, a probe finds what the readiness check's definition says. *)
Lemma probe_alone `{ConfigLib} t dial cancelled route s :
  ∃ s', run t (probe_p dial (stacks_of s) cancelled route) s =
      Some (probe dial (sh_breakers s) cancelled route, s') ∧ sh_breakers s' = sh_breakers s.
Proof.
  unfold probe_p, probe, stacks_of. rewrite lookup_fmap.
  destruct (sh_breakers s !! r_Backend route) as [[b]|] eqn:Hc; simpl; [|by exists s].
  assert (∀ b st, sh_breakers s !! r_Backend route = Some (mkComposite b) →
    FailureRate.state (core b) = st →
    ∃ s', run t (act (CoreState (r_Backend route)) ≫= λ st, mret (probe_result dial cancelled route (Some st))) s =
      Some (probe_result dial cancelled route (Some st), s') ∧ sh_breakers s' = sh_breakers s) as Hcore.
  { intros b' st Hb <-. rewrite run_bind, run_act. cbn [perform perform_action]. unfold with_breaker.
    rewrite Hb. simpl. eexists. split; [done |]. simpl. by apply insert_id. }
  destruct b as [fr|a|i slow|i h]; [by eapply Hcore.. |]. cbn [layers EffectiveState_p].
  cbn. unfold with_breaker. rewrite Hc. cbn. unfold EffectiveState, bulkhead, AtCapacity. cbn [effective].
  case_bool_decide; simpl.
  - eexists. split; [done |]. simpl. by apply insert_id.
  - cbn [perform perform_action]. unfold with_breaker, put. cbn [sh_breakers]. rewrite lookup_insert_eq. simpl.
    eexists. split; [done |]. simpl. rewrite insert_insert_eq. by apply insert_id.
Qed.

(** ** The protocol of the goroutines *)

(** The gauge of the requests being served. *)
Definition active_connections (evs : list MetricEvent) : Z :=
  countZ (λ e, bool_decide (ev_collector e = ActiveConnections) &&
               match ev_op e with Inc => true | _ => false end) evs -
  countZ (λ e, bool_decide (ev_collector e = ActiveConnections) &&
               match ev_op e with Dec => true | _ => false end) evs.

(** A goroutine owns at most one slot, is counted by the gauge or not, and has at
    most one exchange in progress. *)
Record Ghost := mkGhost { gh_slot : option string; gh_counted : bool; gh_upstream : option string }.

Definition idle_ghost : Ghost := mkGhost None false None.

(** The core reports its own state only. *)
Lemma transitionTo_events fr st now fr' e :
  FailureRate.transitionTo fr st now = (fr', e) → active_connections e = 0.
Proof.
  unfold FailureRate.transitionTo. case_decide; intros [= _ <-]; [done |].
  simpl. by destruct (FailureRate.metrics fr).
Qed.

Lemma core_Allow fr now :
  wf fr → ∃ r fr' e, FailureRate.Allow fr now = (r, fr', e) ∧ wf fr' ∧ active_connections e = 0.
Proof.
  intros Hwf. destruct (FailureRate.Allow fr now) as [[r fr'] e] eqn:Ha. exists r, fr', e.
  split; [done |]. split; [by eapply FailureRate_Allow_wf |]. revert Ha. unfold FailureRate.Allow.
  repeat case_match; intros ?; simplify_eq; eauto using transitionTo_events.
Qed.

Lemma core_Record fr (failed : bool) now :
  wf fr → ∃ fr' e, (if failed then FailureRate.RecordFailure fr now else FailureRate.RecordSuccess fr now) =
    Some (fr', e) ∧ wf fr' ∧ active_connections e = 0.
Proof.
  intros Hwf.
  destruct (FailureRate.step_mode FailureRate.OpSuccess now fr Hwf)
    as (? & fs & es & Hs%FailureRate.RecordSuccess_step & Hwfs & _).
  destruct (FailureRate.step_mode FailureRate.OpFailure now fr Hwf)
    as (? & ff & ef & Hf%FailureRate.RecordFailure_step & Hwff & _).
  destruct failed; [exists ff, ef | exists fs, es]; (split; [done |]; split; [done |]).
  - revert Hf. unfold FailureRate.RecordFailure. case_match; rewrite ?bind_Some.
    + intros (b & _ & Hb). repeat case_match; simplify_eq; eauto using transitionTo_events.
    + by intros [= <- <-].
    + intros ?. simplify_eq. eauto using transitionTo_events.
  - revert Hs. unfold FailureRate.RecordSuccess. case_match; rewrite ?bind_Some.
    + by intros (b & _ & [= <- <-]).
    + by intros [= <- <-].
    + case_match; intros ?; simplify_eq; eauto using transitionTo_events.
Qed.

Lemma core_map_adaptive_wf latency b :
  wf (core b) → wf (core (map_adaptive (λ a, updateThreshold a latency) b)).
Proof. induction b; simpl; try done. apply FailureRate.wf_threshold. Qed.

Lemma no_bulkhead_map_adaptive f b : no_bulkhead b → no_bulkhead (map_adaptive f b).
Proof. by induction b. Qed.

(** Changing what is below the bulkhead. *)
Lemma stack_map_ok (F : Breaker → Breaker) b :
  (∀ i h, F (BBulkhead i h) = BBulkhead (F i) h) → (∀ i, no_bulkhead i → no_bulkhead (F i)) →
  wf (core (F b)) → composite_ok (mkComposite b) →
  composite_ok (mkComposite (F b)) ∧ slots (mkComposite (F b)) = slots (mkComposite b).
Proof.
  intros Hb Hn Hwf [Hst _]. simpl in *. assert (no_bulkhead b → no_bulkhead (F b)) as Hnb by apply Hn.
  destruct b as [| | |i h]; simpl in Hst;
    [specialize (Hnb Hst); split; [split; [by destruct (F _) | done] |];
     unfold slots, bulkhead; simpl; by destruct (F _)..|].
  rewrite Hb in *. destruct Hst as [Hi Hh]. split; [split; [split; [by apply Hn | done] | done] | done].
Qed.

Section protocol.
Context (stacks : gmap string Layers) (rt : Router) (m : bool) (jobs : nat → Request).

Definition bulkhead_cap (be : string) : option Z :=
  match stacks !! be with Some (LBulkhead _ cap _ _) => Some cap | _ => None end.

(** What goroutine [t] may forward: the request it serves, rewritten by a route
    that matches it and allows its method. *)
Definition forwardable (t : nat) (be : string) (req : Request) (timeout : Duration) : Prop :=
  ∃ route, matchRoute rt (rq_Path (jobs t)) = Some route ∧
    method_allowed rt route (rq_Method (jobs t)) = true ∧
    be = r_Backend route ∧ req = rewrite_request route (jobs t) ∧ timeout = route_Timeout route.

Definition allowed (X : Set) (t : nat) (g : Ghost) (a : Action X) : Prop :=
  match a with
  | TryAcquire be => gh_slot g = None ∧ gh_upstream g = None ∧ is_Some (bulkhead_cap be)
  | Receive be => gh_slot g = Some be ∧ gh_upstream g = None ∧ is_Some (bulkhead_cap be)
  | LenSem be => is_Some (bulkhead_cap be)
  | CoreAllow be _ | CoreRecord be _ _ | UpdateThreshold be _ | CoreState be => is_Some (stacks !! be)
  | UpdateConfig be cfg => is_Some (stacks !! be) ∧ 1 ≤ cb_WindowSize cfg ≤ int64_max
  | Emit e => ev_collector e = ActiveConnections → gh_upstream g = None ∧
      (ev_op e = Inc ∧ gh_counted g = false ∨ ev_op e = Dec ∧ gh_counted g = true)
  | BeginUpstream be req timeout =>
      gh_upstream g = None ∧ (is_Some (bulkhead_cap be) → gh_slot g = Some be) ∧
      (m = true → gh_counted g = true) ∧ forwardable t be req timeout
  | EndUpstream => True
  end.

Definition next (X : Set) (g : Ghost) (a : Action X) : X → Ghost :=
  match a with
  | TryAcquire be => λ acquired, if acquired then mkGhost (Some be) (gh_counted g) (gh_upstream g) else g
  | Receive be => λ _, mkGhost None (gh_counted g) (gh_upstream g)
  | Emit e => λ _,
      if decide (ev_collector e = ActiveConnections) then
        mkGhost (gh_slot g) (match ev_op e with Inc => true | _ => false end) (gh_upstream g)
      else g
  | BeginUpstream be _ _ => λ _, mkGhost (gh_slot g) (gh_counted g) (Some be)
  | EndUpstream => λ _, mkGhost (gh_slot g) (gh_counted g) None
  | _ => λ _, g
  end.

Definition owns (be : string) (g : Ghost) : Prop := gh_slot g = Some be.
Definition counted (g : Ghost) : Prop := gh_counted g = true.
Definition exchanging (be : string) (g : Ghost) : Prop := gh_upstream g = Some be.

#[export] Instance owns_dec be g : Decision (owns be g).
Proof. unfold owns. apply _. Defined.
#[export] Instance counted_dec g : Decision (counted g).
Proof. unfold counted. apply _. Defined.
#[export] Instance exchanging_dec be g : Decision (exchanging be g).
Proof. unfold exchanging. apply _. Defined.

(** An exchange needs a slot, if there are any, and is counted. *)
Definition entitled (g : Ghost) : Prop :=
  ∀ be, exchanging be g → (is_Some (bulkhead_cap be) → owns be g) ∧ (m = true → counted g).

Record conc_inv (s : Shared) (gs : gmap nat Ghost) : Prop := {
  ci_stacks : stacks_of s = stacks;
  ci_ok : map_Forall (λ _, composite_ok) (sh_breakers s);
  ci_slots be c : sh_breakers s !! be = Some c → is_Some (bulkhead_cap be) → slots c = count (owns be) gs;
  ci_gauge : active_connections (sh_events s) = count counted gs;
  ci_upstream : sh_upstream s = omap gh_upstream gs;
  ci_entitled : map_Forall (λ _, entitled) gs;
  ci_forwarded : Forall (λ f, forwardable f.1 f.2.1.1 f.2.1.2 f.2.2) (sh_forwarded s)
}.

Lemma stacks_lookup s gs be :
  conc_inv s gs → stacks !! be = (λ c, layers (effective c)) <$> sh_breakers s !! be.
Proof. intros Hinv. rewrite <-(ci_stacks _ _ Hinv). apply lookup_fmap. Qed.

Lemma known_breaker s gs be :
  conc_inv s gs → is_Some (stacks !! be) → ∃ c, sh_breakers s !! be = Some c ∧ composite_ok c.
Proof.
  intros Hinv [l Hl]. rewrite (stacks_lookup s gs) in Hl by done.
  apply fmap_Some in Hl as (c & Hc & _). exists c. split; [done |]. by apply (ci_ok _ _ Hinv be).
Qed.

Lemma known_bulkhead s gs be :
  conc_inv s gs → is_Some (bulkhead_cap be) →
  ∃ i h, sh_breakers s !! be = Some (mkComposite (BBulkhead i h)) ∧
    no_bulkhead i ∧ bulkhead_ok h ∧ wf (core i).
Proof.
  intros Hinv Hb. unfold bulkhead_cap in Hb.
  destruct (stacks !! be) as [l|] eqn:Hl; [|by destruct Hb].
  destruct (known_breaker s gs be Hinv ltac:(by rewrite Hl)) as ([b] & Hc & [Hst Hwf]).
  rewrite (stacks_lookup s gs), Hc in Hl by done. injection Hl as <-.
  destruct b as [| | |i h]; [by destruct Hb..|]. destruct Hst. by exists i, h.
Qed.

(** An action on one breaker that changes at most who owns its slots. *)
Lemma conc_inv_put s gs be c c' evs t g slot' :
  conc_inv s gs → sh_breakers s !! be = Some c → composite_ok c' →
  layers (effective c') = layers (effective c) → active_connections evs = 0 → gs !! t = Some g →
  gh_slot g = slot' ∨ gh_upstream g = None ∧
    (gh_slot g = None ∧ slot' = Some be ∨ gh_slot g = Some be ∧ slot' = None) →
  (is_Some (bulkhead_cap be) →
     slots c' = slots c - (if decide (gh_slot g = Some be) then 1 else 0) +
                (if decide (slot' = Some be) then 1 else 0)) →
  conc_inv (put be c' evs s) (<[t := mkGhost slot' (gh_counted g) (gh_upstream g)]> gs).
Proof.
  intros Hinv Hc Hok Hlay Hev Ht Hslot Hnum. set (g' := mkGhost slot' _ _).
  destruct Hinv as [Hst Hall Hsl Hg Hup Hent Hfw]. split; simpl.
  - rewrite <-Hst. unfold stacks_of, put. simpl. rewrite fmap_insert, Hlay. apply insert_id.
    by rewrite lookup_fmap, Hc.
  - by apply map_Forall_insert_2.
  - intros be' d Hd Hb. rewrite (count_update _ _ _ g g') by done.
    destruct (decide (be' = be)) as [->|Hne].
    + rewrite lookup_insert_eq in Hd. injection Hd as <-. rewrite (Hnum Hb), (Hsl be c Hc Hb).
      unfold owns in *. simpl. repeat case_decide; (done || lia).
    + rewrite lookup_insert_ne in Hd by done. rewrite (Hsl be' d Hd Hb).
      destruct Hslot as [Hs | [_ [[Hs Hs'] | [Hs Hs']]]];
        repeat case_decide; unfold owns in *; simplify_eq/=; (congruence || lia).
  - unfold active_connections in *. rewrite !countZ_app. rewrite (count_update _ _ _ g g') by done.
    repeat case_decide; unfold counted in *; simpl in *; (done || lia).
  - rewrite Hup. apply map_eq. intros u. rewrite !lookup_omap.
    destruct (decide (u = t)) as [->|Hne]; [by rewrite lookup_insert_eq, Ht | by rewrite lookup_insert_ne].
  - apply map_Forall_insert_2; [|done]. pose proof (Hent t g Ht) as He. unfold entitled, exchanging in *.
    simpl. destruct Hslot as [<- | [Hn _]]; [done | by rewrite Hn].
  - done.
Qed.

Lemma ghost_same (t : nat) g (gs : gmap nat Ghost) :
  gs !! t = Some g → <[t := mkGhost (gh_slot g) (gh_counted g) (gh_upstream g)]> gs = gs.
Proof. intros Ht. apply insert_id. rewrite Ht. by destruct g. Qed.

(** An action on one breaker that leaves its slots alone. *)
Lemma conc_inv_same s gs be c c' evs :
  conc_inv s gs → sh_breakers s !! be = Some c → composite_ok c' →
  layers (effective c') = layers (effective c) → slots c' = slots c → active_connections evs = 0 →
  conc_inv (put be c' evs s) gs.
Proof.
  intros [Hst Hall Hsl Hg Hup Hent Hfw] Hc Hok Hlay Hs Hev. split; simpl; try done.
  - rewrite <-Hst. unfold stacks_of, put. simpl. rewrite fmap_insert, Hlay. apply insert_id.
    by rewrite lookup_fmap, Hc.
  - by apply map_Forall_insert_2.
  - intros be' d Hd Hb. destruct (decide (be' = be)) as [->|Hne].
    + rewrite lookup_insert_eq in Hd. injection Hd as <-. by rewrite Hs, (Hsl be c).
    + rewrite lookup_insert_ne in Hd by done. by apply Hsl.
  - unfold active_connections in *. rewrite !countZ_app. lia.
Qed.

Lemma act_slot t g s gs be (acquire : bool) :
  conc_inv s gs → gs !! t = Some g →
  (if acquire then allowed bool t g (TryAcquire be) else allowed unit t g (Receive be)) →
  if acquire then
    ∃ x s', perform t (TryAcquire be) s = Some (x, s') ∧
      conc_inv s' (<[t := next bool g (TryAcquire be) x]> gs)
  else
    ∃ s', perform t (Receive be) s = Some (tt, s') ∧
      conc_inv s' (<[t := next unit g (Receive be) tt]> gs).
Proof.
  intros Hinv Ht Ha.
  assert (is_Some (bulkhead_cap be)) as Hb by (destruct acquire; apply Ha).
  destruct (known_bulkhead s gs be Hinv Hb) as (i & h & Hc & Hi & Hh & Hwf).
  unfold bulkhead_ok in Hh. cbn [perform perform_action]. unfold with_breaker. rewrite Hc.
  unfold with_bulkhead. cbn [mbind option_bind effective].
  destruct acquire; [unfold try_acquire | unfold sem_receive].
  - destruct Ha as (Hs & Hu & _). case_decide as Hl; cbn [mbind option_bind].
    + eexists true, _. split; [done |]. simpl.
      apply (conc_inv_put s gs be (mkComposite (BBulkhead i h))); try done.
      * split; [split; [done | unfold bulkhead_ok; simpl; lia] | done].
      * right. auto.
      * intros _. unfold slots, bulkhead. simpl. repeat case_decide; (congruence || lia).
    + eexists false, _. split; [done |]. simpl. rewrite insert_id by done.
      by apply (conc_inv_same s gs be (mkComposite (BBulkhead i h))).
  - destruct Ha as (Hs & Hu & _).
    assert (1 ≤ sem_len h).
    { pose proof (ci_slots _ _ Hinv be _ Hc Hb) as Hn. unfold slots, bulkhead in Hn. simpl in Hn.
      rewrite Hn. by apply (count_pos _ gs t g). }
    rewrite decide_True by lia. eexists. split; [done |]. simpl.
    apply (conc_inv_put s gs be (mkComposite (BBulkhead i h))); try done.
    + split; [split; [done | unfold bulkhead_ok; simpl; lia] | done].
    + right. auto.
    + intros _. unfold slots, bulkhead. simpl. repeat case_decide; (congruence || lia).
Qed.

Lemma act_core {X : Set} s gs be
    (f : FailureRate.FailureRateBreaker → option (X * FailureRate.FailureRateBreaker * list MetricEvent)) :
  conc_inv s gs → is_Some (stacks !! be) →
  (∀ fr, wf fr → ∃ x fr' e, f fr = Some (x, fr', e) ∧ wf fr' ∧ active_connections e = 0) →
  ∃ x s', with_breaker be (with_core f) s = Some (x, s') ∧ conc_inv s' gs.
Proof.
  intros Hinv Hb Hf. destruct (known_breaker s gs be Hinv Hb) as ([b] & Hc & Hok).
  pose proof Hok as [_ Hwf]. destruct (Hf _ Hwf) as (x & fr' & e & Hx & Hwf' & He).
  unfold with_breaker, with_core. rewrite Hc. simpl in *. rewrite Hx. simpl.
  eexists x, _. split; [done |].
  destruct (stack_map_ok (map_core (λ _, fr')) b) as [Hok' Hs]; [done | | by rewrite core_map_core | done |].
  { intros i. apply no_bulkhead_map_core. }
  apply (conc_inv_same s gs be (mkComposite b)); try done. apply layers_map_core.
Qed.

(** An action that touches no breaker. *)
Lemma conc_inv_local s s' gs t g g' :
  conc_inv s gs → gs !! t = Some g → sh_breakers s' = sh_breakers s → gh_slot g' = gh_slot g →
  active_connections (sh_events s') =
    active_connections (sh_events s) - (if decide (counted g) then 1 else 0) +
    (if decide (counted g') then 1 else 0) →
  sh_upstream s' = omap gh_upstream (<[t := g']> gs) → entitled g' →
  Forall (λ f, forwardable f.1 f.2.1.1 f.2.1.2 f.2.2) (sh_forwarded s') →
  conc_inv s' (<[t := g']> gs).
Proof.
  intros [Hst Hall Hsl Hg Hup Hent Hfw] Ht Hb Hs He Hu Hg' Hf. split; try done.
  - unfold stacks_of. by rewrite Hb.
  - by rewrite Hb.
  - intros be c. rewrite Hb. intros Hc Hcap. rewrite (Hsl be c Hc Hcap).
    rewrite (count_update _ _ _ g g') by done.
    assert (owns be g' ↔ owns be g) by (unfold owns; by rewrite Hs). repeat case_decide; (tauto || lia).
  - rewrite He, Hg. by rewrite (count_update _ _ _ g g').
  - by apply map_Forall_insert_2.
Qed.

Lemma omap_upstream_same (gs : gmap nat Ghost) t g g' :
  gs !! t = Some g → gh_upstream g' = gh_upstream g →
  omap gh_upstream (<[t := g']> gs) = omap gh_upstream gs.
Proof.
  intros Ht Hu. apply map_eq. intros u. rewrite !lookup_omap.
  destruct (decide (u = t)) as [->|Hne]; [by rewrite lookup_insert_eq, Ht | by rewrite lookup_insert_ne].
Qed.

(** A metric call; those on the gauge of the requests come in pairs. *)
Lemma act_emit t g s gs e :
  conc_inv s gs → gs !! t = Some g → allowed unit t g (Emit e) →
  ∃ x s', perform t (Emit e) s = Some (x, s') ∧ conc_inv s' (<[t := next unit g (Emit e) x]> gs).
Proof.
  intros Hinv Ht Ha. eexists tt, _. split; [done |]. simpl in Ha |- *. case_decide as Hac.
  - destruct (Ha Hac) as [Hu Hop].
    apply (conc_inv_local s _ gs t g); simpl; try done.
    + unfold active_connections. rewrite !countZ_app. simpl.
      rewrite (bool_decide_eq_true_2 _ Hac).
      destruct Hop as [[-> Hco] | [-> Hco]]; simpl; repeat case_decide; unfold counted in *;
        simpl in *; (congruence || lia).
    + rewrite (ci_upstream _ _ Hinv). symmetry. by apply (omap_upstream_same gs t g).
    + unfold entitled, exchanging. simpl. by rewrite Hu.
    + apply Hinv.
  - apply (conc_inv_local s _ gs t g); simpl; try done.
    + unfold active_connections. rewrite !countZ_app. simpl.
      rewrite (bool_decide_eq_false_2 _ Hac). simpl. lia.
    + rewrite (ci_upstream _ _ Hinv). symmetry. by apply (omap_upstream_same gs t g).
    + by apply (ci_entitled _ _ Hinv t).
    + apply Hinv.
Qed.

(** Every allowed action can be performed, and keeps the invariant. *)
Lemma conc_inv_act (X : Set) t (a : Action X) s gs g :
  conc_inv s gs → gs !! t = Some g → allowed X t g a →
  ∃ x s', perform t a s = Some (x, s') ∧ conc_inv s' (<[t := next X g a x]> gs).
Proof.
  intros Hinv Ht Ha.
  destruct a as [be|be|be|be now|be failed now|be latency|be|be cfg|e|be req timeout|].
  - exact (act_slot t g s gs be true Hinv Ht Ha).
  - destruct (act_slot t g s gs be false Hinv Ht Ha) as (s' & Hp & Hi). by exists tt, s'.
  - destruct (known_bulkhead s gs be Hinv Ha) as (i & h & Hc & Hi & Hh & Hwf).
    cbn [perform perform_action next]. unfold with_breaker. rewrite Hc. cbn.
    eexists _, _. split; [done |]. rewrite insert_id by done.
    by apply (conc_inv_same s gs be (mkComposite (BBulkhead i h))).
  - cbn [next]. rewrite insert_id by done. apply act_core; [done | done |]. intros fr Hwf.
    destruct (core_Allow fr now Hwf) as (r & fr' & e & -> & Hwf' & He). by exists r, fr', e.
  - cbn [next]. rewrite insert_id by done. apply act_core; [done | done |]. intros fr Hwf.
    destruct (core_Record fr failed now Hwf) as (fr' & e & -> & Hwf' & He). by exists tt, fr', e.
  - cbn [perform perform_action next]. rewrite insert_id by done.
    destruct (known_breaker s gs be Hinv Ha) as ([b] & Hc & Hok). unfold with_breaker. rewrite Hc. simpl.
    eexists tt, _. split; [done |].
    destruct (stack_map_ok (map_adaptive (λ a, updateThreshold a latency)) b) as [Hok' Hs];
      [done | intros i; apply no_bulkhead_map_adaptive | apply core_map_adaptive_wf, Hok | done |].
    apply (conc_inv_same s gs be (mkComposite b)); try done. apply layers_map_adaptive.
  - cbn [perform perform_action next]. rewrite insert_id by done.
    destruct (known_breaker s gs be Hinv Ha) as (c & Hc & Hok). unfold with_breaker. rewrite Hc. simpl.
    eexists _, _. split; [done |]. by apply (conc_inv_same s gs be c).
  - cbn [perform perform_action next]. rewrite insert_id by done. destruct Ha as [Hb Hw].
    destruct (known_breaker s gs be Hinv Hb) as (c & Hc & Hok). unfold with_breaker. rewrite Hc. simpl.
    eexists tt, _. split; [done |].
    destruct (UpdateConfig_keeps c cfg Hw Hok) as (Hok' & Hs & _).
    apply (conc_inv_same s gs be c); try done; [apply layers_map_core | lia].
  - by apply act_emit.
  - destruct Ha as (Hu & Hs & Hm & Hf). eexists tt, _. split; [done |].
    apply (conc_inv_local s _ gs t g); simpl; try done.
    + repeat case_decide; unfold counted in *; simpl in *; (congruence || lia).
    + rewrite (ci_upstream _ _ Hinv). symmetry. by apply omap_insert_Some.
    + unfold entitled, exchanging, owns, counted. simpl. by intros be' [= <-].
    + apply Forall_app. split; [apply Hinv | by repeat constructor].
  - eexists tt, _. split; [done |]. apply (conc_inv_local s _ gs t g); simpl; try done.
    + repeat case_decide; unfold counted in *; simpl in *; (congruence || lia).
    + rewrite (ci_upstream _ _ Hinv). symmetry. by apply omap_insert_None.
    + apply Hinv.
Qed.

Lemma conc_inv_start t s gs g :
  conc_inv s gs → gs !! t = None → g = idle_ghost → conc_inv s (<[t := g]> gs).
Proof.
  intros [Hst Hall Hsl Hg Hup Hent Hfw] Ht ->. split; try done.
  - intros be c Hc Hb. rewrite (Hsl be c Hc Hb), count_start by done.
    unfold owns. rewrite decide_False by done. lia.
  - rewrite Hg, count_start by done. unfold counted. rewrite decide_False by done. lia.
  - rewrite Hup, omap_insert_None by done. symmetry. apply delete_id. by rewrite lookup_omap, Ht.
  - by apply map_Forall_insert_2.
Qed.

#[export] Instance conc_protocol : Protocol Action Shared Ghost := {|
  pr_allowed := allowed; pr_next := next;
  pr_idle g := g = idle_ghost; pr_done g := g = idle_ghost; pr_inv := conc_inv;
  pr_inv_act := conc_inv_act; pr_inv_start := conc_inv_start
|}.

(** ** The programs keep to the protocol *)

Fixpoint plain (l : Layers) : Prop :=
  match l with LCore | LAdaptive => True | LTimeout i _ => plain i | LBulkhead _ _ _ _ => False end.

(** At most one bulkhead, outermost. *)
Definition layers_ok (l : Layers) : Prop := match l with LBulkhead i _ _ _ => plain i | _ => plain l end.

Definition slot_of (be : string) (l : Layers) : option string :=
  match l with LBulkhead _ _ _ _ => Some be | _ => None end.

Lemma follows_emit t g evs :
  Forall (λ e, ev_collector e ≠ ActiveConnections) evs → follows t (λ _ g', g' = g) g (emit_p evs).
Proof.
  intros Hevs. apply follows_each. intros e He. rewrite Forall_forall in Hevs. specialize (Hevs e He).
  simpl. split; [done |]. intros _. by rewrite decide_False.
Qed.

Lemma follows_recordInFlight t g be label on :
  is_Some (bulkhead_cap be) → follows t (λ _ g', g' = g) g (recordInFlight_p be label on).
Proof. intros Hb. unfold recordInFlight_p. destruct on; simpl; [|done]. split_and!; [done | by intros n..]. Qed.

(** One step of a proof that a program keeps to the protocol. *)
Lemma follows_seq {A B} t (post : B → Ghost → Prop) (mid : A → Ghost → Prop) g
    (p : Prog Action A) (f : A → Prog Action B) :
  follows t mid g p → (∀ a g', mid a g' → follows t post g' (f a)) → follows t post g (p ≫= f).
Proof. intros Hp Hf. apply follows_bind. by eapply follows_mono. Qed.

Lemma follows_Allow_plain t g be l now :
  is_Some (stacks !! be) → plain l → follows t (λ _ g', g' = g) g (Allow_p be l now).
Proof. intros Hb. induction l; simpl; try done. Qed.

Lemma follows_Allow t c be l now :
  stacks !! be = Some l → layers_ok l →
  follows t (λ r g', g' = mkGhost (if r : bool then slot_of be l else None) c None)
    (mkGhost None c None) (Allow_p be l now).
Proof.
  intros Hb Hl. assert (is_Some (stacks !! be)) as Hk by (by rewrite Hb).
  destruct l as [| |i slow|i cap label on];
    [eapply follows_mono; [|by apply follows_Allow_plain]; intros r ? ->; by destruct r..|].
  assert (is_Some (bulkhead_cap be)) as Hcap by (unfold bulkhead_cap; rewrite Hb; by eexists).
  cbn [Allow_p]. apply follows_seq with (λ (r : bool) g', g' = mkGhost (if r then Some be else None) c None).
  { simpl. split; [done |]. by intros []. }
  intros [] ? ->.
  - eapply follows_seq; [by apply follows_recordInFlight |]. intros _ ? ->.
    eapply follows_seq; [by apply follows_Allow_plain |]. intros [] ? ->; [done |].
    eapply follows_seq with (λ _ g', g' = mkGhost None c None); [simpl; split; [done | by intros _] |].
    intros _ ? ->. eapply follows_seq; [by apply follows_recordInFlight |]. by intros _ ? ->.
  - eapply follows_seq; [apply follows_emit; destruct on; by repeat constructor | by intros _ ? ->].
Qed.

Lemma follows_Record t g be l (failed : bool) latency now :
  is_Some (stacks !! be) → follows t (λ _ g', g' = g) g (Record_p be l failed latency now).
Proof. intros Hb. revert failed. induction l; intros failed; simpl; naive_solver. Qed.

Lemma follows_record_outcome t g be l (failed : bool) latency now :
  stacks !! be = l → follows t (λ _ g', g' = g) g (record_outcome_p be l failed latency now).
Proof. intros Hb. destruct l; [|done]. by apply follows_Record. Qed.

Lemma follows_Release t c be l :
  stacks !! be = Some l →
  follows t (λ _ g', g' = mkGhost None c None) (mkGhost (slot_of be l) c None) (Release_p be l).
Proof.
  intros Hb. destruct l as [| |i slow|i cap label on]; [done..|].
  assert (is_Some (bulkhead_cap be)) as Hcap by (unfold bulkhead_cap; rewrite Hb; by eexists).
  cbn [Release_p]. apply follows_seq with (λ _ g', g' = mkGhost None c None).
  { simpl. split; [done | by intros _]. }
  intros _ ? ->. by apply follows_recordInFlight.
Qed.

Section serving.
Context (t : nat) (route : RouteConfig) (c : bool).
Let be := r_Backend route.
Let l := stacks !! be.
Let g := mkGhost (l ≫= slot_of be) c None.
Hypothesis matched : matchRoute rt (rq_Path (jobs t)) = Some route.
Hypothesis allows : method_allowed rt route (rq_Method (jobs t)) = true.
Hypothesis is_counted : m = true → c = true.
Let req := rewrite_request route (jobs t).

Lemma follows_exchange {A} (post : A → Ghost → Prop) (p : Prog Action A) :
  follows t post g p →
  follows t post g (act (BeginUpstream be req (route_Timeout route)) ;; act EndUpstream ;; p).
Proof.
  intros Hp. cbn. split; [|intros _; split; [done | by intros _]]. split_and!; [done | | done |].
  - intros [n Hn]. unfold bulkhead_cap in Hn. fold l in Hn. unfold g. simpl.
    destruct l as [[]|]; try done.
  - by exists route.
Qed.

Lemma follows_attempt_loop start attempt attempts rr :
  follows t (λ _ g', g' = g) g (attempt_loop_p m l route req start attempt attempts rr).
Proof.
  revert attempt rr. induction attempts as [|a attempts IH]; intros attempt rr; [done |].
  cbn [attempt_loop_p]. destruct (at_cancelled a); [done |]. case_decide.
  - apply follows_exchange. destruct (at_ending a);
      [eapply follows_seq; [by apply follows_record_outcome | by intros _ ? ->].. | done].
  - apply follows_seq with (λ _ g', g' = g).
    + apply follows_exchange. destruct (at_ending a); [..|done]; destruct (negb _).
      all: eapply follows_seq; [by apply follows_record_outcome | intros _ ? ->]; try done.
      all: eapply follows_seq; [apply follows_emit; destruct m; by repeat constructor | by intros _ ? ->].
    + intros [out|rr'] ? ->; [done | apply IH].
Qed.
End serving.

Lemma follows_gauge t sl (up : bool) :
  follows t (λ _ g', g' = mkGhost sl (if up then m else false) None)
    (mkGhost sl (if up then false else m) None)
    (emit_p (emit m [mkEvent ActiveConnections [] (if up then Inc else Dec)])).
Proof.
  destruct m; simpl; [|by destruct up]. split; [|intros _; by destruct up].
  intros _. split; [done |]. destruct up; auto.
Qed.

Lemma follows_serve_admitted t route env rr :
  matchRoute rt (rq_Path (jobs t)) = Some route →
  method_allowed rt route (rq_Method (jobs t)) = true →
  let l := stacks !! r_Backend route in
  let g := mkGhost (l ≫= slot_of (r_Backend route)) false None in
  follows t (λ _ g', g' = g) g (serve_admitted_p rt m l route env (jobs t) rr).
Proof.
  intros Hm Ha l g. unfold serve_admitted_p. cbn zeta.
  eapply follows_seq; [apply (follows_gauge t _ true) | intros _ ? ->].
  apply follows_seq with (λ _ g', g' = mkGhost (l ≫= slot_of (r_Backend route)) m None).
  { destruct (rt_routeBackendKey rt !! r_PathPrefix route ≫= _) as [pr|]; [|done]. by apply follows_attempt_loop. }
  intros [out rr'] ? ->. apply follows_seq with (λ _ g', g' = mkGhost (l ≫= slot_of (r_Backend route)) m None).
  { destruct out; [|done..]. apply follows_emit. unfold request_events.
    destruct m; [|done]. simpl. case_decide; by repeat constructor. }
  intros _ ? ->. eapply follows_seq; [apply (follows_gauge t _ false) | by intros _ ? ->].
Qed.

Lemma follows_serve t env client :
  (∀ be l, stacks !! be = Some l → layers_ok l) →
  follows t (λ _ g', g' = idle_ghost) idle_ghost (serve_p rt m stacks env (jobs t) client).
Proof.
  intros Hst. unfold serve_p. cbn zeta. destruct (matchRoute rt (rq_Path (jobs t))) as [route|] eqn:Hm; [|done].
  destruct (method_allowed rt route (rq_Method (jobs t))) eqn:Ha; cbn [negb]; [|done].
  pose proof (follows_serve_admitted t route env (mkRecorder client StatusOK false) Hm Ha) as Hf. simpl in Hf.
  destruct (stacks !! r_Backend route) as [l|] eqn:Hl; [|exact Hf].
  eapply follows_seq; [by apply follows_Allow, (Hst _ _ Hl) | intros [] ? ->; [|done]].
  eapply follows_seq; [exact Hf | intros [exit rr'] ? ->].
  eapply follows_seq; [by apply follows_Release | by intros _ ? ->].
Qed.

Lemma follows_reload t cfg bes :
  1 ≤ cb_WindowSize cfg ≤ int64_max → Forall (λ be, is_Some (stacks !! be)) bes →
  follows t (λ _ g', g' = idle_ghost) idle_ghost (reload_p cfg bes).
Proof.
  intros Hw Hb. apply follows_each. intros be Hin. rewrite Forall_forall in Hb. simpl.
  split; [by split; [apply Hb |] | done].
Qed.

Lemma follows_probe `{ConfigLib} t dial cancelled route :
  follows t (λ _ g', g' = idle_ghost) idle_ghost (probe_p dial stacks cancelled route).
Proof.
  unfold probe_p. destruct (stacks !! r_Backend route) as [l|] eqn:Hl; [|done].
  assert (is_Some (stacks !! r_Backend route)) as Hk by (by rewrite Hl).
  apply follows_seq with (λ _ g', g' = idle_ghost); [|by intros ? ? ->].
  destruct l as [| |i slow|i cap label on]; [done..|]. simpl. split.
  - unfold bulkhead_cap. rewrite Hl. by eexists.
  - intros n. by case_bool_decide.
Qed.
End protocol.

(** ** Bounds *)

Lemma at_most_emit evs : at_most (length evs) (emit_p evs).
Proof.
  unfold emit_p. rewrite <-(Nat.mul_1_r (length evs)). apply at_most_each. intros e. apply at_most_act.
Qed.

Lemma at_most_recordInFlight be label on : at_most 2 (recordInFlight_p be label on).
Proof. by destruct on. Qed.

Lemma at_most_Allow be l now : layers_ok l → at_most 7 (Allow_p be l now).
Proof.
  assert (∀ l, plain l → at_most 1 (Allow_p be l now)) as Hp.
  { intros l'. induction l'; simpl; try done. }
  intros Hl. destruct l as [| |i slow|i cap label on]; [done | done | |].
  { eapply at_most_weaken; [by apply (Hp (LTimeout i slow)) | lia]. }
  cbn [Allow_p]. apply (at_most_bind 1 6); [apply at_most_act | intros []].
  - apply (at_most_bind 2 4); [apply at_most_recordInFlight | intros _].
    apply (at_most_bind 1 3); [by apply Hp | intros []; [done |]].
    apply (at_most_bind 1 2); [apply at_most_act | intros _].
    apply (at_most_bind 2 0); [apply at_most_recordInFlight | done].
  - apply (at_most_bind 1 5); [|done]. by destruct on.
Qed.

Lemma at_most_Record be l (failed : bool) latency now : at_most 2 (Record_p be l failed latency now).
Proof. revert failed. induction l; intros failed; simpl; auto. Qed.

Lemma at_most_attempt_loop m l route req start attempt attempts rr :
  attempt ≤ max_attempts route →
  at_most (5 * Z.to_nat (max_attempts route - attempt + 1))
    (attempt_loop_p m l route req start attempt attempts rr).
Proof.
  intros Ha. assert (∀ failed latency now, at_most 2 (record_outcome_p (r_Backend route) l failed latency now)) as Hr.
  { intros. destruct l; [apply at_most_Record | done]. }
  revert attempt rr Ha. induction attempts as [|a attempts IH]; intros attempt rr Ha; [done |].
  cbn [attempt_loop_p]. destruct (at_cancelled a); [done |].
  destruct (decide (attempt = max_attempts route)) as [->|Hne].
  - replace (Z.to_nat (max_attempts route - max_attempts route + 1)) with 1%nat by lia.
    apply (at_most_bind 1 4); [apply at_most_act | intros _].
    apply (at_most_bind 1 3); [apply at_most_act | intros _].
    destruct (at_ending a); [apply (at_most_bind 2 1); [apply Hr | done].. | done].
  - replace (Z.to_nat (max_attempts route - attempt + 1))
      with (S (Z.to_nat (max_attempts route - (attempt + 1) + 1))) by lia.
    rewrite Nat.mul_succ_r, Nat.add_comm. apply at_most_bind.
    + apply (at_most_bind 1 4); [apply at_most_act | intros _].
      apply (at_most_bind 1 3); [apply at_most_act | intros _].
      destruct (at_ending a); [..|done]; destruct (negb _).
      all: apply (at_most_bind 2 1); [apply Hr | intros _; by destruct m].
    + intros [out|rr']; [done | apply IH; lia].
Qed.

(** The actions a request performs at most. *)
Definition request_bound (rt : Router) (req : Request) : nat :=
  match matchRoute rt (rq_Path req) with
  | Some route => 15 + 5 * Z.to_nat (max_attempts route)
  | None => 0
  end.

Lemma at_most_serve rt m stacks env req client :
  (∀ be l, stacks !! be = Some l → layers_ok l) →
  at_most (request_bound rt req) (serve_p rt m stacks env req client).
Proof.
  intros Hst. unfold serve_p, request_bound. cbn zeta.
  destruct (matchRoute rt (rq_Path req)) as [route|]; [|done].
  destruct (method_allowed rt route (rq_Method req)); cbn [negb]; [|done].
  set (n := (5 * Z.to_nat (max_attempts route))%nat).
  assert (∀ l rr, at_most (5 + n) (serve_admitted_p rt m l route env req rr)) as Hadm.
  { intros l rr. apply (at_most_bind 1 (4 + n)); [by destruct m | intros _].
    replace (4 + n)%nat with (n + 4)%nat by lia. apply at_most_bind.
    - destruct (_ ≫= _); [|done].
      pose proof (at_most_attempt_loop m l route (rewrite_request route req) (en_start env) 1
        (en_attempts env) rr (max_attempts_pos route)) as Hb.
      by replace (max_attempts route - 1 + 1) with (max_attempts route) in Hb by lia.
    - intros [out rr']. apply (at_most_bind 3 1).
      + destruct out; [|done..]. eapply at_most_weaken; [apply at_most_emit |].
        unfold request_events. destruct m; simpl; [case_decide |]; simpl; lia.
      + intros _. apply (at_most_bind 1 0); [by destruct m | done]. }
  destruct (stacks !! r_Backend route) as [l|] eqn:Hl.
  - replace (15 + n)%nat with (7 + (8 + n))%nat by lia.
    apply at_most_bind; [by apply at_most_Allow, (Hst _ _ Hl) | intros []; [|done]].
    replace (8 + n)%nat with (5 + n + 3)%nat by lia. apply at_most_bind; [apply Hadm | intros [exit rr']].
    apply (at_most_bind 3 0); [|done]. destruct l; [done..|].
    apply (at_most_bind 1 2); [apply at_most_act | intros _; apply at_most_recordInFlight].
  - eapply at_most_weaken; [apply Hadm | lia].
Qed.

(** ** Everything at once *)

(** The breakers [NewGateway] makes, before any request. *)
Definition fresh_shared (cfgs : gmap string CBConfig) (m : bool) : Shared :=
  mkShared (map_imap (λ be cfg, Some (NewComposite be cfg m)) cfgs) [] ∅ [].

(** Goroutines of the gateway, on its shared state. *)
Abbreviation System := (Pool (Action := Action) (Sh := Shared) unit).

Section everything.
Context `{ConfigLib} (cfgs : gmap string CBConfig) (rt : Router) (m : bool) (jobs : nat → Request).
Hypothesis cfgs_ok : map_Forall (λ _, cb_config_ok) cfgs.
Let s0 := fresh_shared cfgs m.
Let stacks := stacks_of s0.

(** The goroutines that come and go: requests, whatever their backends do; reloads;
    the probes of readiness checks. *)
Inductive may_start (t : nat) : Prog Action unit → Prop :=
| start_request env client :
    may_start t (background (serve_p rt m stacks env (jobs t) client))
| start_reload cfg bes :
    cb_config_ok cfg → Forall (λ be, is_Some (cfgs !! be)) bes → may_start t (background (reload_p cfg bes))
| start_probe dial cancelled route :
    may_start t (background (probe_p dial stacks cancelled route)).

Definition system_step : System → System → Prop := pool_step may_start.

Definition start_pool : System := mkPool s0 ∅.

Lemma fresh_lookup be : sh_breakers s0 !! be = (λ cfg, NewComposite be cfg m) <$> cfgs !! be.
Proof. unfold s0, fresh_shared. simpl. rewrite map_lookup_imap. by destruct (cfgs !! be). Qed.

Lemma stacks_ok_layers be l : stacks !! be = Some l → layers_ok l.
Proof.
  unfold stacks, stacks_of. rewrite lookup_fmap, fresh_lookup.
  destruct (cfgs !! be) as [cfg|]; [|done]. intros [= <-]. unfold NewComposite.
  repeat case_decide; by destruct (cb_Adaptive cfg).
Qed.

Lemma bulkhead_cap_fresh be cfg :
  cfgs !! be = Some cfg → 0 < cb_MaxConcurrent cfg → bulkhead_cap stacks be = Some (cb_MaxConcurrent cfg).
Proof.
  intros Hc Hm. unfold bulkhead_cap, stacks, stacks_of. rewrite lookup_fmap, fresh_lookup, Hc. simpl.
  unfold NewComposite. rewrite decide_True by done. done.
Qed.

Lemma fresh_breakers_ok : map_Forall (λ _, composite_ok) (sh_breakers s0).
Proof.
  intros be c Hc. rewrite fresh_lookup in Hc. apply fmap_Some in Hc as (cfg & Hcfg & ->).
  by apply NewComposite_ok, (cfgs_ok be).
Qed.

Lemma conc_inv_fresh : conc_inv stacks rt m jobs s0 ∅.
Proof.
  split; try done.
  - apply fresh_breakers_ok.
  - intros be c Hc _. rewrite fresh_lookup in Hc. apply fmap_Some in Hc as (cfg & Hcfg & ->).
    rewrite count_none by done. by apply NewComposite_ok, (cfgs_ok be).
Qed.

#[local] Instance system_protocol : Protocol Action Shared Ghost := conc_protocol stacks rt m jobs.

Lemma may_start_follows t p :
  may_start t p → ∃ g, pr_idle g ∧ follows t finishes g p.
Proof.
  intros Hp. exists idle_ghost. split; [done |].
  destruct Hp as [env client|cfg bes Hcfg Hbes|dial cancelled route]; unfold background.
  - eapply follows_seq; [apply follows_serve, stacks_ok_layers | by intros ? ? ->].
  - eapply follows_seq; [apply follows_reload; [apply Hcfg |] | by intros ? ? ->].
    eapply Forall_impl; [exact Hbes |]. intros be [cfg' Hb]. unfold stacks, stacks_of.
    rewrite lookup_fmap, fresh_lookup, Hb. by eexists.
  - eapply follows_seq; [apply follows_probe | by intros ? ? ->].
Qed.

Lemma system_ok pl : rtc system_step start_pool pl → pool_ok pl.
Proof.
  apply (pool_ok_steps may_start may_start_follows). exists ∅.
  split; [apply conc_inv_fresh | by split].
Qed.

(** The exchanges of a backend are those of the goroutines that say so. *)
Lemma upstream_count (gs : gmap nat Ghost) be :
  Z.of_nat (size (filter (λ kv, kv.2 = be) (omap gh_upstream gs))) = count (exchanging be) gs.
Proof.
  unfold count. rewrite <-!size_dom. do 2 f_equal. apply set_eq. intros t. rewrite !elem_of_dom. split.
  - intros [b Hb]. apply map_lookup_filter_Some in Hb as [Hb Hbe]. simpl in Hbe. subst b.
    rewrite lookup_omap in Hb. apply bind_Some in Hb as (g & Hg & Hu). exists g.
    by apply map_lookup_filter_Some.
  - intros [g Hg]. apply map_lookup_filter_Some in Hg as [Hg Hu]. exists be.
    apply map_lookup_filter_Some. split; [by rewrite lookup_omap, Hg | done].
Qed.

Lemma upstream_total (gs : gmap nat Ghost) :
  Z.of_nat (size (omap gh_upstream gs)) = count (λ g, is_Some (gh_upstream g)) gs.
Proof.
  unfold count. rewrite <-!size_dom. do 2 f_equal. apply set_eq. intros t. rewrite !elem_of_dom. split.
  - intros [b Hb]. rewrite lookup_omap in Hb. apply bind_Some in Hb as (g & Hg & Hu). exists g.
    apply map_lookup_filter_Some. split; [done | by exists b].
  - intros [g Hg]. apply map_lookup_filter_Some in Hg as [Hg [b Hu]]. exists b. rewrite lookup_omap, Hg. exact Hu.
Qed.

(** What holds at every moment: the bulkheads hold, the gauge covers the exchanges,
    and only what a route admits was forwarded. *)
Lemma inv_moment s gs :
  conc_inv stacks rt m jobs s gs →
  (∀ be cfg, cfgs !! be = Some cfg → 0 < cb_MaxConcurrent cfg →
     Z.of_nat (size (filter (λ kv, kv.2 = be) (sh_upstream s))) ≤ cb_MaxConcurrent cfg) ∧
  (m = true → Z.of_nat (size (sh_upstream s)) ≤ active_connections (sh_events s)) ∧
  Forall (λ f, forwardable rt jobs f.1 f.2.1.1 f.2.1.2 f.2.2) (sh_forwarded s).
Proof.
  intros Hinv. split_and!; [| | apply Hinv].
  - intros be cfg Hc Hm. pose proof (bulkhead_cap_fresh be cfg Hc Hm) as Hcap.
    assert (is_Some (bulkhead_cap stacks be)) as Hb by by rewrite Hcap.
    destruct (known_bulkhead stacks rt m jobs s gs be Hinv Hb) as (i & h & Hlk & _ & Hh & _).
    pose proof (ci_slots _ _ _ _ _ _ Hinv be _ Hlk Hb) as Hs. unfold slots, bulkhead in Hs. simpl in Hs.
    assert (sem_cap h = cb_MaxConcurrent cfg) as Hcap'.
    { unfold bulkhead_cap in Hcap. rewrite (stacks_lookup stacks rt m jobs s gs be Hinv), Hlk in Hcap.
      simpl in Hcap. by injection Hcap. }
    rewrite (ci_upstream _ _ _ _ _ _ Hinv), upstream_count. unfold bulkhead_ok in Hh.
    etrans; [|apply Z.eq_le_incl, Hcap']. etrans; [|apply Hh]. rewrite Hs. apply count_mono.
    intros t g Hg Hex. by apply (ci_entitled _ _ _ _ _ _ Hinv t g Hg be).
  - intros Hm. rewrite (ci_upstream _ _ _ _ _ _ Hinv), upstream_total, (ci_gauge _ _ _ _ _ _ Hinv).
    apply (count_mono (λ g, is_Some (gh_upstream g)) counted). intros t g Hg [be Hu].
    by apply (ci_entitled _ _ _ _ _ _ Hinv t g Hg be).
Qed.

(** What is left when every goroutine is idle. *)
Lemma inv_idle s gs :
  conc_inv stacks rt m jobs s gs → map_Forall (λ _ g, g = idle_ghost) gs →
  sh_upstream s = ∅ ∧ active_connections (sh_events s) = 0 ∧
  map_Forall (λ _ c, composite_ok c ∧ slots c = 0) (sh_breakers s).
Proof.
  intros Hinv Hidle. split_and!.
  - rewrite (ci_upstream _ _ _ _ _ _ Hinv). apply map_empty. intros t. rewrite lookup_omap.
    destruct (gs !! t) as [g|] eqn:Hg; [by rewrite (Hidle t g Hg) | done].
  - rewrite (ci_gauge _ _ _ _ _ _ Hinv). apply count_none. intros t g Hg. by rewrite (Hidle t g Hg).
  - intros be c Hc. pose proof (ci_ok _ _ _ _ _ _ Hinv be c Hc) as Hok. split; [done |].
    destruct (bulkhead c) as [h|] eqn:Hb; [|unfold slots; by rewrite Hb].
    rewrite (ci_slots _ _ _ _ _ _ Hinv be c Hc).
    + apply count_none. intros t g Hg. by rewrite (Hidle t g Hg).
    + unfold bulkhead_cap. rewrite (stacks_lookup stacks rt m jobs s gs be Hinv), Hc.
      destruct c as [[| | |i h']]; done.
Qed.

Lemma system_bounded pl :
  rtc system_step start_pool pl → ∃ bs, bounded_by bs (pl_threads pl).
Proof.
  intros Hr. remember start_pool as pl0 eqn:Hpl0.
  assert (∃ bs, bounded_by bs (pl_threads pl0)) as Hb0 by (exists ∅; rewrite Hpl0; by intros t p Hp).
  clear Hpl0. induction Hr as [|pl1 pl2 pl3 Hs _ IH]; [done |]. apply IH. destruct Hb0 as [bs Hbs].
  destruct Hs as [s ts t p Ht Hp|pl1 pl2 Hs].
  2: { destruct (act_step_bounded bs _ _ Hbs Hs) as (bs' & Hbs' & _). by exists bs'. }
  assert (∃ n, at_most n p) as [n Hn].
  { assert (∀ A (q : Prog Action A) n, at_most n q → ∃ n, at_most n (background q)) as Hbg.
    { intros A q n Hq. exists (n + 0)%nat. by apply at_most_bind. }
    destruct Hp as [env client|cfg bes _ _|dial cancelled route].
    - eapply Hbg, at_most_serve, stacks_ok_layers.
    - eapply Hbg, at_most_each. intros be. apply at_most_act.
    - apply (Hbg _ _ 2%nat). unfold probe_p. destruct (stacks !! _) as [l|]; [|done].
      apply (at_most_bind 2 0); [|done]. destruct l; simpl; [done..|]. intros k. by case_bool_decide. }
  exists (<[t := n]> bs). intros u q Hu. simpl in *. destruct (decide (u = t)) as [->|Hne].
  - rewrite lookup_insert_eq in Hu. injection Hu as <-. exists n. by rewrite lookup_insert_eq.
  - rewrite lookup_insert_ne in Hu by done. rewrite lookup_insert_ne by done. by apply Hbs.
Qed.

(** C5. Requests, reloads and readiness checks can be interleaved in any way: a
    goroutine that has not returned can always go on -- no call of a breaker
    panics, no receive from a semaphore blocks; a backend never has more exchanges
    at a time than its [max_concurrent]; the gauge counts at least the exchanges;
    and all that is forwarded is a goroutine's own request, rewritten by a route
    that matches it and allows its method. *)
Theorem interleavings_are_safe (pl : System) :
  rtc system_step start_pool pl →
  (∀ t p, pl_threads pl !! t = Some p → returned p = false →
     ∃ pl' p', act_step pl pl' ∧ pl_threads pl' = <[t := p']> (pl_threads pl)) ∧
  (∀ be cfg, cfgs !! be = Some cfg → 0 < cb_MaxConcurrent cfg →
     Z.of_nat (size (filter (λ kv, kv.2 = be) (sh_upstream (pl_shared pl)))) ≤ cb_MaxConcurrent cfg) ∧
  (m = true → Z.of_nat (size (sh_upstream (pl_shared pl))) ≤
     active_connections (sh_events (pl_shared pl))) ∧
  (∀ t be req timeout, (t, (be, req, timeout)) ∈ sh_forwarded (pl_shared pl) →
     ∃ route, matchRoute rt (rq_Path (jobs t)) = Some route ∧
       method_allowed rt route (rq_Method (jobs t)) = true ∧ be = r_Backend route ∧
       req = rewrite_request route (jobs t) ∧ timeout = route_Timeout route).
Proof.
  intros Hr. pose proof (system_ok pl Hr) as Hok. split.
  - intros t p Ht Hp. destruct (pool_ok_progress pl t p Hok Ht Hp) as (pl' & Hs & p' & Hp').
    by exists pl', p'.
  - destruct Hok as (gs & Hinv & _). destruct (inv_moment _ gs Hinv) as (H1 & H2 & H3).
    split_and!; [done | done |]. intros t be req timeout Hin. rewrite Forall_forall in H3.
    exact (H3 _ Hin).
Qed.

(** C8. Whatever goroutines are under way, every way of running them ends after a
    bounded number of actions -- for a request at most [request_bound] of them --
    and then all of them have returned, every slot is free, no exchange is in
    progress, the gauge is at zero, and every breaker is well formed. *)
Theorem interleavings_end (pl : System) :
  rtc system_step start_pool pl →
  (∀ t env client, at_most (request_bound rt (jobs t)) (serve_p rt m stacks env (jobs t) client)) ∧
  ∃ N, ∀ n pl', nsteps act_step n pl pl' → (n ≤ N)%nat ∧
    ((∀ pl'', ¬ act_step pl' pl'') →
       (∀ t p, pl_threads pl' !! t = Some p → returned p = true) ∧
       sh_upstream (pl_shared pl') = ∅ ∧ active_connections (sh_events (pl_shared pl')) = 0 ∧
       map_Forall (λ _ c, composite_ok c ∧ slots c = 0) (sh_breakers (pl_shared pl'))).
Proof.
  intros Hr. split; [intros; apply at_most_serve, stacks_ok_layers |].
  destruct (system_bounded pl Hr) as [bs Hbs]. exists (total bs). intros n pl' Hn.
  split; [by eapply act_steps_bounded |]. intros Hstuck.
  assert (rtc system_step start_pool pl') as Hr'.
  { etrans; [exact Hr |]. apply rtc_nsteps_2 in Hn.
    eapply rtc_subrel; [|exact Hn]. intros x y Hxy. by apply step_run. }
  pose proof (system_ok pl' Hr') as Hok.
  assert (∀ t p, pl_threads pl' !! t = Some p → returned p = true) as Hret.
  { intros t p Ht. destruct (returned p) eqn:Hp; [done |].
    destruct (pool_ok_progress pl' t p Hok Ht Hp) as (pl'' & Hs & _). by destruct (Hstuck pl''). }
  split; [done |]. destruct (pool_ok_returned pl' Hok Hret) as (gs & Hinv & Hidle).
  by apply (inv_idle _ gs).
Qed.

End everything.

(** ** Witnesses *)

Definition busy_cfg : CBConfig := demo_cfg <| cb_MaxConcurrent := 2 |>.

Definition busy_cfgs : gmap string CBConfig := {[ "http://users:3000" := busy_cfg ]}.

#[local] Instance busy_lib : ConfigLib := demo_lib (empty_config []).

Definition busy_job (t : nat) : Request := demo_request.

Definition busy_stacks : gmap string Layers := stacks_of (fresh_shared busy_cfgs true).

(** Two requests of the same backend, both under way. *)
Definition busy_program : Prog Action unit :=
  background (serve_p retry_router true busy_stacks retry_env demo_request new_client).

Definition busy_pool : System :=
  mkPool (fresh_shared busy_cfgs true) (<[1%nat := busy_program]> (<[0%nat := busy_program]> ∅)).

Lemma busy_cfgs_ok : map_Forall (λ _, cb_config_ok) busy_cfgs.
Proof. apply map_Forall_singleton. by vm_compute. Qed.

Lemma busy_reachable :
  rtc (system_step busy_cfgs retry_router true busy_job) (start_pool busy_cfgs true) busy_pool.
Proof.
  eapply rtc_l; [|apply rtc_once]; (apply step_start; [done | apply (start_request _ _ _ busy_job)]).
Qed.

(** The value a gauge ends with. *)
Definition gauge_value (c : Collector) (evs : list MetricEvent) : option MetricOp :=
  ev_op <$> last (filter (λ e, ev_collector e = c) evs).

(** Both have run to the end: the first read the length of the semaphore before the
    second gave its slot back, and wrote it to the gauge afterwards.  The gauge says
    that a request is in flight, and none is. *)
Example in_flight_gauge_goes_stale :
  (λ pl, (gauge_value BulkheadInFlight (sh_events (pl_shared pl)),
          slots <$> sh_breakers (pl_shared pl) !! "http://users:3000",
          returned <$> pl_threads pl !! 0%nat, returned <$> pl_threads pl !! 1%nat)) <$>
    schedule (replicate 17 0%nat ++ replicate 17 1%nat ++ [0; 0; 1; 1; 1; 0]%nat) busy_pool =
  Some (Some (SetTo (f64 1)), Some 0, Some true, Some true).
Proof. by vm_compute. Qed.

Lemma serve_alone_witness :
  let s := fresh_shared busy_cfgs true in
  ∃ exit sv, ServeHTTP retry_router true (sh_breakers s) retry_env demo_request new_client = Some (exit, sv) ∧
    body_sent (sv_recorder sv) = "ok" ∧
    run 0 (serve_p retry_router true (stacks_of s) retry_env demo_request new_client) s =
      Some ((exit, sv_recorder sv), after 0 (matched_backend retry_router demo_request) sv s).
Proof.
  intros s. destruct (serve_alone 0 retry_router true retry_env demo_request new_client s)
    as (exit & sv & Hs & Hrun).
  - done.
  - apply (fresh_breakers_ok busy_cfgs true busy_cfgs_ok).
  - apply retry_router_resolves.
  - intros r Hm. vm_compute in Hm. injection Hm as <-. vm_compute. tauto.
  - exists exit, sv. split; [exact Hs |]. split; [|exact Hrun].
    assert ((λ r, body_sent (sv_recorder r.2)) <$> ServeHTTP retry_router true (sh_breakers s)
      retry_env demo_request new_client = Some "ok") as Hv by by vm_compute.
    rewrite Hs in Hv. by injection Hv.
Defined.

(** In the middle of both requests. *)
Lemma interleavings_are_safe_witness :
  ∃ pl, schedule (replicate 6 0%nat ++ replicate 6 1%nat) busy_pool = Some pl ∧
    size (sh_upstream (pl_shared pl)) = 2%nat ∧
    Z.of_nat (size (filter (λ kv, kv.2 = "http://users:3000") (sh_upstream (pl_shared pl)))) ≤ 2.
Proof.
  assert ((λ pl, size (sh_upstream (pl_shared pl))) <$>
    schedule (replicate 6 0%nat ++ replicate 6 1%nat) busy_pool = Some 2%nat) as Hv by by vm_compute.
  apply fmap_Some in Hv as (pl & Hpl & Hsize). exists pl. split; [done |]. split; [done |].
  destruct (interleavings_are_safe busy_cfgs retry_router true busy_job busy_cfgs_ok pl) as (_ & Hcap & _).
  - etrans; [apply busy_reachable |]. apply schedule_steps in Hpl.
    eapply rtc_subrel; [|exact Hpl]. intros x y Hxy. by apply step_run.
  - by apply (Hcap "http://users:3000" busy_cfg).
Defined.

Lemma interleavings_end_witness :
  request_bound retry_router demo_request = 25%nat ∧
  ∃ N, ∀ n pl', nsteps act_step n busy_pool pl' → (n ≤ N)%nat.
Proof.
  split; [by vm_compute |].
  destruct (interleavings_end busy_cfgs retry_router true busy_job busy_cfgs_ok busy_pool busy_reachable)
    as (_ & N & HN).
  exists N. intros n pl' Hn. apply (HN n pl' Hn).
Defined.
