(* ===== verification/LimiterConc.v ===== *)
(** * Requests, reloads and the janitor at the rate limiter
    (internal/ratelimit/ratelimit.go)

    The programs of the goroutines that share a [Limiter], as they interleave: a
    critical section, a use of a bucket, and each access to a field outside the lock
    is one action.  [limitsForPath] reads [l.routes], [l.rate] and [l.burst] without
    the lock that [UpdateConfig] writes them under; so each of the reads and each of
    the writes is an action of its own.  A reader of a slice gets one of the slices
    written, not a mixture of two.  The other sections under the lock do not touch
    the three fields, so that dividing [UpdateConfig]'s changes nothing for them.

    The shared state has three histories: the answers of the buckets with the
    goroutine that asked, the key every bucket was made for, and the buckets that
    were taken out of the map. *)

From stdpp Require Import relations.
From S2P Require Import Prelude GoFloat GoStrings GoNet Metrics Config Routing Http ApiError RateLimit Goroutine.

Open Scope Z_scope.

(** ** Actions *)

Inductive LimiterAction : Set → Type :=
| ScanRoutes (path : string) : LimiterAction (option RateLimitConfig * string)
| ReadRate : LimiterAction float64
| ReadBurst : LimiterAction Z
| LookUp (key : ClientKey) (now : Time) : LimiterAction (option (nat * bool))
| Touch (p : nat) (now : Time) : LimiterAction unit
| InsertClient (key : ClientKey) (now : Time) : LimiterAction nat
| AskBucket (key : ClientKey) (p : nat) (now : Time) : LimiterAction bool
| WriteRate (rate : float64) : LimiterAction unit
| WriteBurst (burst : Z) : LimiterAction unit
| WriteRoutes (routes : list RouteConfig) : LimiterAction unit
| ClearClients : LimiterAction unit
| FindExpired (now : Time) : LimiterAction (list ClientKey)
| EvictBatch (now : Time) (keys : list ClientKey) : LimiterAction nat
| CountClients : LimiterAction Z
| TakeSnapshot : LimiterAction (list LimiterEntry)
| Note (e : MetricEvent) : LimiterAction unit.

(** Why a bucket is no longer in the map. *)
Inductive Removal := Cleared | Evicted (now seen : Time).

Section actions.
Context `{TokenBucket}.

Record LimiterShared := mkLS {
  ls_limiter : Limiter;
  ls_events : list MetricEvent;
  ls_log : list (nat * Answer);
  ls_made : list ClientKey;
  ls_removed : list (nat * Removal)
}.

#[export] Instance LimiterShared_eta : Eta LimiterShared := λ s,
  mkLS (ls_limiter s) (ls_events s) (ls_log s) (ls_made s) (ls_removed s).

Definition on_limiter (f : Limiter → Limiter) (s : LimiterShared) : LimiterShared :=
  s <| ls_limiter := f (ls_limiter s) |>.

(** The buckets of [l] that are in its map and not in that of [l']. *)
Definition taken_out (why : ClientEntry → Removal) (l l' : Limiter) : list (nat * Removal) :=
  omap (λ '(_, p),
    if decide (p ∈ (l_clients l').*2) then None
    else c ← l_heap l !! p; Some (p, why c)) (l_clients l).

#[export] Instance perform_limiter : Semantics LimiterAction LimiterShared := λ X t a,
  match a in LimiterAction X return LimiterShared → option (X * LimiterShared) with
  | ScanRoutes path => λ s,
      let '(o, _, prefix) :=
        foldl (scan_route path) (None, 0%nat, "unknown") (l_routes (ls_limiter s)) in
      Some ((o, prefix), s)
  | ReadRate => λ s, Some (l_rate (ls_limiter s), s)
  | ReadBurst => λ s, Some (l_burst (ls_limiter s), s)
  | LookUp key now => λ s, Some (lookup_fast key now (ls_limiter s), s)
  | Touch p now => λ s, Some (tt, on_limiter (touch p now) s)
  | InsertClient key now => λ s,
      let '(p, l) := lookup_slow key now (ls_limiter s) in
      let new := match find_client key (l_clients (ls_limiter s)) with Some _ => [] | None => [key] end in
      Some (p, s <| ls_limiter := l |> <| ls_made := ls_made s ++ new |>)
  | AskBucket key p now => λ s,
      _ ← l_heap (ls_limiter s) !! p;
      let '(ok, l) := allow_at p now (ls_limiter s) in
      Some (ok, s <| ls_limiter := l |> <| ls_log := ls_log s ++ [(t, mkAnswer key p now ok)] |>)
  | WriteRate rate => λ s, Some (tt, on_limiter (λ l, l <| l_rate := rate |>) s)
  | WriteBurst burst => λ s, Some (tt, on_limiter (λ l, l <| l_burst := burst |>) s)
  | WriteRoutes routes => λ s, Some (tt, on_limiter (λ l, l <| l_routes := routes |>) s)
  | ClearClients => λ s,
      let l := (ls_limiter s) <| l_clients := [] |> in
      Some (tt, s <| ls_limiter := l |>
                  <| ls_removed := ls_removed s ++ taken_out (λ _, Cleared) (ls_limiter s) l |>)
  | FindExpired now => λ s, Some (expired_keys now (ls_limiter s), s)
  | EvictBatch now keys => λ s,
      let '(l, n) := evict_batch now keys (ls_limiter s, 0%nat) in
      Some (n, s <| ls_limiter := l |>
                 <| ls_removed := ls_removed s ++
                      taken_out (λ c, Evicted now (c_lastSeen c)) (ls_limiter s) l |>)
  | CountClients => λ s, Some (Z.of_nat (length (l_clients (ls_limiter s))), s)
  | TakeSnapshot => λ s, Some (limiter_Snapshot (ls_limiter s), s)
  | Note e => λ s, Some (tt, s <| ls_events := ls_events s ++ [e] |>)
  end.

Definition note_p (evs : list MetricEvent) : Prog LimiterAction unit := each (λ e, act (Note e)) evs.

(** ** A request: the limiter's middleware up to its decision

    [l0] has the fields that never change: the trusted networks and whether the
    metrics are on. *)

Definition limitsForPath_p (path : string) : Prog LimiterAction (float64 * Z * string) :=
  '(override, prefix) ← act (ScanRoutes path);
  match override with
  | Some o => mret (rl_RequestsPerSecond o, rl_BurstSize o, prefix)
  | None =>
      rate ← act ReadRate;
      burst ← act ReadBurst;
      mret (rate, burst, prefix)
  end.

Definition getLimiter_p (key : ClientKey) (rd : Readings) : Prog LimiterAction nat :=
  found ← act (LookUp key (rd_since rd));
  match found with
  | Some (p, true) => act (Touch p (rd_seen rd)) ;; mret p
  | Some (p, false) => mret p
  | None => act (InsertClient key (rd_seen rd))
  end.

(** The rate of the limit that the request is over, if it is. *)
Definition limit_p (l0 : Limiter) (rd : Readings) (r : Request) : Prog LimiterAction (option float64) :=
  '(rate, burst, prefix) ← limitsForPath_p (rq_Path r);
  let key := mkKey (clientIP l0 r) rate burst in
  p ← getLimiter_p key rd;
  ok ← act (AskBucket key p (rd_allow rd));
  if ok : bool then mret None
  else note_p (emit (l_metrics l0) [mkEvent RateLimitHits [prefix] Inc]) ;; mret (Some rate).

(** ** A reload, a pass of the janitor, a snapshot *)

(** [l.UpdateConfig(cfg, routes)] *)
Definition UpdateConfig_p (cfg : RateLimitConfig) (routes : list RouteConfig) : Prog LimiterAction unit :=
  act (WriteRate (rl_RequestsPerSecond cfg)) ;;
  act (WriteBurst (rl_BurstSize cfg)) ;;
  act (WriteRoutes routes) ;;
  act ClearClients.

Definition updateTrackedGauge_p (m : bool) : Prog LimiterAction unit :=
  if m then
    n ← act CountClients;
    act (Note (mkEvent RateLimitClientsTracked [] (SetTo (f64 n))))
  else mret tt.

Fixpoint evict_loop_p (fuel : nat) (now : Time) (expired : list ClientKey) (start evicted : nat)
    : Prog LimiterAction nat :=
  match fuel with
  | O => mret evicted
  | S fuel =>
      if decide (start < length expired)%nat then
        let stop := Nat.min (start + evictBatchSize) (length expired) in
        n ← act (EvictBatch now (take (stop - start) (drop start expired)));
        evict_loop_p fuel now expired (start + evictBatchSize) (evicted + n)
      else mret evicted
  end.

(** [l.evictOnce(now)] *)
Definition evictOnce_p (m : bool) (now : Time) : Prog LimiterAction unit :=
  expired ← act (FindExpired now);
  if decide (length expired = 0%nat) then updateTrackedGauge_p m
  else
    evicted ← evict_loop_p (length expired) now expired 0 0;
    (if decide (0 < evicted)%nat
     then note_p (emit m [mkEvent RateLimitClientsEvicted [] (Add (f64 (Z.of_nat evicted)))])
     else mret tt) ;;
    updateTrackedGauge_p m.

(** [l.Snapshot()] *)
Definition Snapshot_p : Prog LimiterAction (list LimiterEntry) := act TakeSnapshot.

(** ** Alone, the programs compute what the sequential definitions say *)

Lemma run_note t evs s : run t (note_p evs) s = Some (tt, s <| ls_events := ls_events s ++ evs |>).
Proof.
  revert s. induction evs as [|e evs IH]; intros s; [destruct s; simpl; by rewrite app_nil_r |].
  unfold note_p in *. cbn [each]. rewrite run_bind, run_act. cbn. rewrite IH. simpl. by rewrite <-app_assoc.
Qed.

Lemma clientIP_same_proxies l l' r : l_trustedCIDRs l = l_trustedCIDRs l' → clientIP l r = clientIP l' r.
Proof.
  intros Heq. unfold clientIP.
  assert (∀ s, isTrusted l s = isTrusted l' s) as Ht by (intros s; unfold isTrusted; by rewrite Heq).
  assert (∀ ps, first_untrusted l ps = first_untrusted l' ps) as Hf.
  { intros ps. induction ps as [|p ps IH]; [done |]. simpl. by rewrite Ht, IH. }
  by rewrite Heq, Ht, Hf.
Qed.

Lemma run_limits t path s :
  run t (limitsForPath_p path) s = Some (limitsForPath (ls_limiter s) path, s).
Proof.
  unfold limitsForPath_p, limitsForPath. rewrite run_bind, run_act. cbn [perform perform_limiter].
  destruct (foldl _ _ _) as [[o n] prefix]. cbn. by destruct o.
Qed.

(** The pointers of the map are valid. *)
Definition pointers_ok (l : Limiter) : Prop := ∀ k p, (k, p) ∈ l_clients l → is_Some (l_heap l !! p).

Lemma run_getLimiter t key rd s :
  pointers_ok (ls_limiter s) →
  let '(p, l) := getLimiter (k_ip key) (k_rate key) (k_burst key) rd (ls_limiter s) in
  ∃ s', run t (getLimiter_p key rd) s = Some (p, s') ∧ ls_limiter s' = l ∧
    ls_events s' = ls_events s ∧ is_Some (l_heap l !! p).
Proof.
  intros Hp. destruct key as [ip rate burst]. unfold getLimiter, getLimiter_p. cbn [k_ip k_rate k_burst].
  rewrite run_bind, run_act. cbn [perform perform_limiter mbind option_bind].
  destruct (lookup_fast _ (rd_since rd) (ls_limiter s)) as [[p [|]]|] eqn:Hl.
  - eexists. split; [done |]. split_and!; [done.. |]. simpl. rewrite list_lookup_alter_eq.
    apply bind_Some in Hl as (q & _ & Hl). apply bind_Some in Hl as (c & Hc & [= <- _]). rewrite Hc. by eexists.
  - exists s. split; [done |]. split_and!; [done.. |].
    apply bind_Some in Hl as (q & _ & Hl). apply bind_Some in Hl as (c & Hc & [= <- _]). by eexists.
  - cbn. unfold lookup_slow.
    destruct (find_client _ (l_clients (ls_limiter s))) as [q|] eqn:Hf.
    + eexists. split; [done |]. split_and!; [done.. |]. simpl. rewrite list_lookup_alter_eq.
      apply find_client_Some in Hf as (k & Hin & _). destruct (Hp _ _ Hin) as [c ->]. by eexists.
    + eexists. split; [done |]. split_and!; [done.. |]. simpl. by rewrite lookup_app_r, Nat.sub_diag.
Qed.

(** A request that no other goroutine interrupts is decided as the middleware says, and
    leaves the limiter and the metrics as it does. *)
Theorem limiter_alone {W} `{ResponseWriter W} (next : W → W) (t : nat) (l0 : Limiter) (rd : Readings)
    (r : Request) (s : LimiterShared) (w : W) :
  l_trustedCIDRs l0 = l_trustedCIDRs (ls_limiter s) → l_metrics l0 = l_metrics (ls_limiter s) →
  pointers_ok (ls_limiter s) →
  ∃ over s' evs, run t (limit_p l0 rd r) s = Some (over, s') ∧
    ls_events s' = ls_events s ++ evs ∧
    RateLimitMiddleware next rd r (ls_limiter s) w =
      (ls_limiter s',
       match over with None => next w | Some rate => reject r rate (rd_allow rd) w end, evs).
Proof.
  intros Hc Hm Hp. unfold limit_p, RateLimitMiddleware. rewrite run_bind, run_limits.
  cbn [mbind option_bind]. destruct (limitsForPath (ls_limiter s) (rq_Path r)) as [[rate burst] prefix].
  rewrite (clientIP_same_proxies l0 (ls_limiter s) r Hc), Hm.
  pose proof (run_getLimiter t (mkKey (clientIP (ls_limiter s) r) rate burst) rd s Hp) as Hg.
  cbn [k_ip k_rate k_burst] in Hg.
  destruct (getLimiter _ rate burst rd (ls_limiter s)) as [p l1] eqn:Hget.
  destruct Hg as (s1 & Hrun & Hl1 & He1 & [c Hlook]).
  rewrite run_bind, Hrun. cbn [mbind option_bind]. rewrite run_bind, run_act.
  cbn [perform perform_limiter]. rewrite Hl1, Hlook. cbn [mbind option_bind].
  destruct (allow_at p (rd_allow rd) l1) as [ok l2] eqn:Ha.
  assert (l_metrics l2 = l_metrics (ls_limiter s)) as Hm2.
  { unfold allow_at in Ha. rewrite Hlook in Ha. destruct (bucket_Allow _ _). injection Ha as _ <-. simpl.
    revert Hget. unfold getLimiter, lookup_slow. repeat case_match; by intros [= _ <-]. }
  cbn [mbind option_bind]. destruct ok.
  - eexists None, _, []. split; [done |]. split; [simpl; by rewrite He1, app_nil_r | done].
  - rewrite run_bind, run_note. cbn. eexists (Some rate), _, _. split; [done |].
    simpl. rewrite He1, Hm2. by split.
Qed.

Lemma evict_batch_count now keys l n :
  evict_batch now keys (l, n) =
    ((evict_batch now keys (l, 0%nat)).1, (n + (evict_batch now keys (l, 0%nat)).2)%nat).
Proof.
  revert l n. induction keys as [|key keys IH]; intros l n; [simpl; by rewrite Nat.add_0_r |].
  change (evict_batch now (key :: keys) (l, n)) with (evict_batch now keys (evict_key now (l, n) key)).
  change (evict_batch now (key :: keys) (l, 0%nat)) with (evict_batch now keys (evict_key now (l, 0%nat) key)).
  unfold evict_key. cbn [fst snd]. destruct (find_client _ _) as [p|]; [destruct (idle _ _ _)|]; [|apply IH..].
  rewrite (IH _ (S n)), (IH _ 1%nat). f_equal. simpl. lia.
Qed.

Lemma run_evict_loop t fuel now expired start n s :
  ∃ s', run t (evict_loop_p fuel now expired start n) s =
      Some ((evict_loop fuel now expired start (ls_limiter s, n)).2, s') ∧
    ls_limiter s' = (evict_loop fuel now expired start (ls_limiter s, n)).1 ∧ ls_events s' = ls_events s.
Proof.
  revert start n s. induction fuel as [|fuel IH]; intros start n s; [by exists s |].
  cbn [evict_loop_p evict_loop]. case_decide; [|by exists s].
  set (keys := take _ _). rewrite run_bind, run_act. cbn [perform perform_limiter].
  rewrite (evict_batch_count now keys _ n). destruct (evict_batch now keys (ls_limiter s, 0%nat)) as [l k].
  cbn [mbind option_bind fst snd].
  match goal with |- context [run t _ ?s1] => destruct (IH (start + evictBatchSize)%nat (n + k)%nat s1) as (s' & Hr & Hl & He) end.
  exists s'. by split_and!.
Qed.

Lemma run_gauge t s :
  run t (updateTrackedGauge_p (l_metrics (ls_limiter s))) s =
    Some (tt, s <| ls_events := ls_events s ++ updateTrackedGauge (ls_limiter s) |>).
Proof.
  unfold updateTrackedGauge_p, updateTrackedGauge, emit. destruct (l_metrics (ls_limiter s)); [done |].
  destruct s. simpl. by rewrite app_nil_r.
Qed.

Lemma janitor_alone t now s :
  let '(l, evs) := evictOnce now (ls_limiter s) in
  ∃ s', run t (evictOnce_p (l_metrics (ls_limiter s)) now) s = Some (tt, s') ∧
    ls_limiter s' = l ∧ ls_events s' = ls_events s ++ evs.
Proof.
  unfold evictOnce, evictOnce_p. rewrite run_bind, run_act. cbn [perform perform_limiter mbind option_bind].
  case_decide; [rewrite run_gauge; by eexists |]. rewrite run_bind.
  set (expired := expired_keys now (ls_limiter s)).
  destruct (run_evict_loop t (length expired) now expired 0 0 s) as (s1 & Hr & Hl & He). rewrite Hr.
  destruct (evict_loop _ now expired 0 (ls_limiter s, 0%nat)) as [l n] eqn:Hloop. cbn [mbind option_bind fst snd] in *.
  assert (l_metrics l = l_metrics (ls_limiter s)) as Hm.
  { destruct (evict_loop_clients (length expired) now expired 0 (ls_limiter s, 0%nat)) as (cs & n' & Hev).
    rewrite Hev in Hloop. by injection Hloop as <- _. }
  rewrite <-Hm. case_decide.
  - rewrite run_bind, run_note. cbn [mbind option_bind].
    rewrite <-Hl. set (s2 := s1 <| ls_events := _ |>).
    change (ls_limiter s1) with (ls_limiter s2). rewrite run_gauge. eexists. split; [done |].
    split; [done |]. simpl. by rewrite He, app_assoc.
  - rewrite run_bind. cbn. rewrite <-Hl, run_gauge. eexists. split; [done |]. split; [done |]. simpl. by rewrite He.
Qed.

Lemma update_alone t cfg routes s :
  ∃ s', run t (UpdateConfig_p cfg routes) s = Some (tt, s') ∧ ls_events s' = ls_events s ∧
    ls_limiter s' = limiter_UpdateConfig cfg routes (ls_limiter s).
Proof. by eexists. Qed.
End actions.

(** ** The protocol *)

Section protocol.
Context `{TokenBucket} (l0 : Limiter) (jobs : nat → Request).
(** The configurations in force at some time: the one the limiter was made with and
    those that reloads bring. *)
Context (in_force : RateLimitConfig → list RouteConfig → Prop).

Definition override_in_force (path : string) (o : RateLimitConfig) : Prop :=
  ∃ cfg routes route, in_force cfg routes ∧ route ∈ routes ∧
    MatchesPrefix path (r_PathPrefix route) = true ∧ r_RateOverride route = Some o.

Definition rate_in_force (rate : float64) : Prop :=
  ∃ cfg routes, in_force cfg routes ∧ rate = rl_RequestsPerSecond cfg.

Definition burst_in_force (burst : Z) : Prop :=
  ∃ cfg routes, in_force cfg routes ∧ burst = rl_BurstSize cfg.

(** The limit of a request: an override of a route that matches it, or a global rate
    and a global burst. *)
Definition limit_in_force (path : string) (rate : float64) (burst : Z) : Prop :=
  (∃ o, override_in_force path o ∧ rate = rl_RequestsPerSecond o ∧ burst = rl_BurstSize o) ∨
  (rate_in_force rate ∧ burst_in_force burst).

(** What a goroutine has read: an override, the rate, the burst, and the bucket of a
    key. *)
Record LimiterGhost := mkLG {
  lg_override : option RateLimitConfig; lg_rate : option float64; lg_burst : option Z;
  lg_client : option (ClientKey * nat)
}.

Definition no_ghost : LimiterGhost := mkLG None None None None.

(** The bucket at [p] serves [key]. *)
Definition serves (made : list ClientKey) (key : ClientKey) (p : nat) : Prop :=
  ∃ k, made !! p = Some k ∧ (k = key ∨ key_eqb k key = true).

(** [key] is the request's address with a limit the goroutine has read. *)
Definition chosen (t : nat) (g : LimiterGhost) (key : ClientKey) : Prop :=
  k_ip key = clientIP l0 (jobs t) ∧
  ((∃ o, lg_override g = Some o ∧ k_rate key = rl_RequestsPerSecond o ∧ k_burst key = rl_BurstSize o) ∨
   (lg_rate g = Some (k_rate key) ∧ lg_burst g = Some (k_burst key))).

Definition limiter_allowed (X : Set) (t : nat) (g : LimiterGhost) (a : LimiterAction X) : Prop :=
  match a with
  | ScanRoutes path => path = rq_Path (jobs t)
  | LookUp key _ | InsertClient key _ => chosen t g key
  | Touch p _ => ∃ key, lg_client g = Some (key, p)
  | AskBucket key p _ => chosen t g key ∧ lg_client g = Some (key, p)
  | WriteRate rate => rate_in_force rate
  | WriteBurst burst => burst_in_force burst
  | WriteRoutes routes => ∃ cfg, in_force cfg routes
  | _ => True
  end.

Definition limiter_next (X : Set) (g : LimiterGhost) (a : LimiterAction X) : X → LimiterGhost :=
  match a in LimiterAction X return X → LimiterGhost with
  | ScanRoutes _ => λ x, mkLG x.1 (lg_rate g) (lg_burst g) (lg_client g)
  | ReadRate => λ x, mkLG (lg_override g) (Some x) (lg_burst g) (lg_client g)
  | ReadBurst => λ x, mkLG (lg_override g) (lg_rate g) (Some x) (lg_client g)
  | LookUp key _ => λ x,
      mkLG (lg_override g) (lg_rate g) (lg_burst g)
        (match x with Some (p, _) => Some (key, p) | None => lg_client g end)
  | InsertClient key _ => λ p, mkLG (lg_override g) (lg_rate g) (lg_burst g) (Some (key, p))
  | AskBucket _ _ _ => λ _, no_ghost
  | _ => λ _, g
  end.

(** What the goroutine has read is so. *)
Record ghost_ok (s : LimiterShared) (t : nat) (g : LimiterGhost) : Prop := {
  go_override o : lg_override g = Some o → override_in_force (rq_Path (jobs t)) o;
  go_rate rate : lg_rate g = Some rate → rate_in_force rate;
  go_burst burst : lg_burst g = Some burst → burst_in_force burst;
  go_client key p : lg_client g = Some (key, p) → serves (ls_made s) key p
}.

Definition removed (s : LimiterShared) (p : nat) : Prop :=
  ∃ why, (p, why) ∈ ls_removed s ∧
    match why with
    | Cleared => True
    | Evicted now seen => l_idleTTL l0 < time_sub now seen
    end.

(** The invariant of the shared state: the limiter's settings, the map, the buckets. *)
Record limiter_ok (s : LimiterShared) : Prop := {
  lk_fixed : l_trustedCIDRs (ls_limiter s) = l_trustedCIDRs l0 ∧ l_idleTTL (ls_limiter s) = l_idleTTL l0;
  lk_rate : rate_in_force (l_rate (ls_limiter s));
  lk_burst : burst_in_force (l_burst (ls_limiter s));
  lk_routes : ∃ cfg, in_force cfg (l_routes (ls_limiter s));
  lk_distinct : distinct (l_clients (ls_limiter s));
  lk_clients k p : (k, p) ∈ l_clients (ls_limiter s) → ls_made s !! p = Some k;
  lk_made : length (ls_made s) = length (l_heap (ls_limiter s));
  lk_bucket p k c : ls_made s !! p = Some k → l_heap (ls_limiter s) !! p = Some c →
    bucket_run (NewLimiter (k_rate k) (k_burst k)) (an_time <$> answers_at p (ls_log s).*2) =
      (an_ok <$> answers_at p (ls_log s).*2, c_limiter c);
  lk_log t a : (t, a) ∈ ls_log s →
    k_ip (an_key a) = clientIP l0 (jobs t) ∧
    limit_in_force (rq_Path (jobs t)) (k_rate (an_key a)) (k_burst (an_key a)) ∧
    serves (ls_made s) (an_key a) (an_bucket a);
  lk_gone p k : ls_made s !! p = Some k → (k, p) ∈ l_clients (ls_limiter s) ∨ removed s p;
  lk_again p q k k' : (p < q)%nat → ls_made s !! p = Some k → ls_made s !! q = Some k' →
    key_eqb k k' = true → removed s p
}.

Definition limiter_inv (s : LimiterShared) (gs : gmap nat LimiterGhost) : Prop :=
  limiter_ok s ∧ map_Forall (ghost_ok s) gs.

(** ** Every action keeps the invariant *)

Lemma scan_override (path : string) routes best n prefix o :
  (foldl (scan_route path) (best, n, prefix) routes).1.1 = Some o →
  best = Some o ∨ ∃ route, route ∈ routes ∧ MatchesPrefix path (r_PathPrefix route) = true ∧
    r_RateOverride route = Some o.
Proof.
  revert best n prefix. induction routes as [|r routes IH]; intros best n prefix; [by left |].
  cbn [foldl scan_route].
  destruct (MatchesPrefix path (r_PathPrefix r)) eqn:Hm; cbn [andb]; [case_bool_decide|].
  all: intros Ho; apply IH in Ho as [Ho|(route & Hin & ? & ?)];
    [|right; exists route; by split_and!; [right |..]].
  2,3: by left.
  destruct (r_RateOverride r) as [o'|] eqn:Hr; [|by left].
  injection Ho as ->. right. exists r. by split_and!; [left |..].
Qed.

Lemma chosen_in_force s t g key :
  ghost_ok s t g → chosen t g key → limit_in_force (rq_Path (jobs t)) (k_rate key) (k_burst key).
Proof.
  intros [Ho Hr Hb _] [_ [(o & Hg & -> & ->)|[Hgr Hgb]]]; [left; exists o; auto | right; auto].
Qed.

(** A bucket's answers are those of its key's bucket. *)
Lemma limiter_ok_answers s p k :
  limiter_ok s → ls_made s !! p = Some k →
  an_ok <$> answers_at p (ls_log s).*2 =
    (bucket_run (NewLimiter (k_rate k) (k_burst k)) (an_time <$> answers_at p (ls_log s).*2)).1.
Proof.
  intros Hs Hk. destruct (lookup_lt_is_Some_2 (l_heap (ls_limiter s)) p) as [c Hc].
  { rewrite <-(lk_made s Hs). by eapply lookup_lt_Some. }
  by rewrite (lk_bucket s Hs p k c Hk Hc).
Qed.

Lemma serves_mono made new key p : serves made key p → serves (made ++ new) key p.
Proof. intros (k & Hk & ?). exists k. split; [by apply lookup_app_l_Some | done]. Qed.

Lemma limiter_inv_next s s' gs t g' :
  limiter_inv s gs → (∃ new, ls_made s' = ls_made s ++ new) → limiter_ok s' → ghost_ok s' t g' →
  limiter_inv s' (<[t := g']> gs).
Proof.
  intros [_ Hgs] [new Hm] Hs' Hg'. split; [done |]. apply map_Forall_insert_2; [done |].
  intros u g Hu. destruct (Hgs u g Hu) as [Ho Hr Hb Hc]. split; try done.
  intros key p Hp. rewrite Hm. by apply serves_mono, Hc.
Qed.

(** The state is the same but for the settings and the metrics. *)
Lemma limiter_ok_settings s rate burst routes evs :
  limiter_ok s → rate_in_force rate → burst_in_force burst → (∃ cfg, in_force cfg routes) →
  limiter_ok (on_limiter (λ l, l <| l_rate := rate |> <| l_burst := burst |> <| l_routes := routes |>) s
    <| ls_events := evs |>).
Proof. intros [] ???. by split. Qed.

Lemma removed_app s s' new p : ls_removed s' = ls_removed s ++ new → removed s p → removed s' p.
Proof. intros Hr (why & Hin & ?). exists why. rewrite Hr. split; [apply elem_of_app; by left | done]. Qed.

Lemma limiter_ok_touch p now s : limiter_ok s → limiter_ok (on_limiter (touch p now) s).
Proof.
  intros [Hf Hr Hb Hro Hd Hc Hm Hbu Hl Hg Ha]. split; try done.
  - simpl. by rewrite length_alter.
  - intros q k c Hk Hq. simpl in Hq.
    destruct (decide (p = q)) as [->|Hne]; [|rewrite list_lookup_alter_ne in Hq by done; by apply Hbu].
    rewrite list_lookup_alter_eq in Hq. apply fmap_Some in Hq as (c' & Hc' & ->). exact (Hbu q k c' Hk Hc').
Qed.

Lemma pointer_lt s k p : limiter_ok s → (k, p) ∈ l_clients (ls_limiter s) → (p < length (l_heap (ls_limiter s)))%nat.
Proof. intros Hs Hin. rewrite <-(lk_made s Hs). eapply lookup_lt_Some, (lk_clients s Hs), Hin. Qed.

Lemma no_answers s p : limiter_ok s → (length (ls_made s) ≤ p)%nat → answers_at p (ls_log s).*2 = [].
Proof.
  intros Hs Hp. destruct (answers_at p (ls_log s).*2) as [|a ans] eqn:Ha; [done | exfalso].
  assert (a ∈ answers_at p (ls_log s).*2) as Hin by (rewrite Ha; by left). clear Ha.
  apply list_elem_of_filter in Hin as [<- ([t a'] & -> & Hin)%list_elem_of_fmap].
  destruct (lk_log s Hs t a' Hin) as (_ & _ & k & Hk & _). apply lookup_lt_Some in Hk. simpl in Hp. lia.
Qed.

Lemma distinct_snoc cs key p :
  distinct cs → find_client key cs = None → (∀ k q, (k, q) ∈ cs → q < p)%nat → distinct (cs ++ [(key, p)]).
Proof.
  intros [Hd Hnd] Hf Hlt. apply find_client_None in Hf. rewrite Forall_forall in Hf. split.
  - intros k q k' q'. rewrite !elem_of_app, !list_elem_of_singleton.
    intros [Hi|Hi] [Hj|Hj] He; simplify_eq/=; [by eapply Hd | | | done].
    + specialize (Hf _ Hi). simpl in Hf. congruence.
    + specialize (Hf _ Hj). simpl in Hf. rewrite key_eqb_sym in Hf. congruence.
  - rewrite fmap_app. apply NoDup_app. split; [done |]. split; [|apply NoDup_singleton].
    intros q ([k q'] & -> & Hin)%list_elem_of_fmap Hq%list_elem_of_singleton.
    specialize (Hlt _ _ Hin). simpl in Hq. lia.
Qed.

(** A new bucket. *)
Lemma limiter_ok_make key now s :
  limiter_ok s → find_client key (l_clients (ls_limiter s)) = None →
  let p := length (l_heap (ls_limiter s)) in
  limiter_ok (s
    <| ls_limiter := (ls_limiter s)
         <| l_heap := l_heap (ls_limiter s) ++ [mkEntry (NewLimiter (k_rate key) (k_burst key)) now] |>
         <| l_clients := l_clients (ls_limiter s) ++ [(key, p)] |> |>
    <| ls_made := ls_made s ++ [key] |>).
Proof.
  intros Hs Hf p. pose proof Hs as [Hfx Hr Hb Hro Hd Hc Hm Hbu Hl Hg Ha].
  assert ((ls_made s ++ [key]) !! p = Some key) as Hp.
  { unfold p. rewrite <-Hm. by rewrite lookup_app_r, Nat.sub_diag. }
  assert (∀ q k, (ls_made s ++ [key]) !! q = Some k → q = p ∧ k = key ∨ (q < p)%nat ∧ ls_made s !! q = Some k) as Hq.
  { intros q k [Hq|[Hq Hk]]%lookup_app_Some.
    - right. split; [|done]. unfold p. rewrite <-Hm. by eapply lookup_lt_Some.
    - left. apply list_lookup_singleton_Some in Hk as [Hz ->]. split; [unfold p; lia | done]. }
  split; simpl; try done.
  - apply distinct_snoc; [done | done |]. intros k q Hin. by eapply pointer_lt.
  - intros k q [Hin|Hin]%elem_of_app.
    + apply lookup_app_l_Some. by apply Hc.
    + apply list_elem_of_singleton in Hin as [= -> ->]. exact Hp.
  - rewrite !length_app. simpl. by rewrite Hm.
  - intros q k c Hk Hq'. destruct (Hq q k Hk) as [[-> ->]|[Hlt Hk']].
    + unfold p in Hq'. rewrite lookup_app_r, Nat.sub_diag in Hq' by done. injection Hq' as <-.
      rewrite (no_answers s p Hs) by (unfold p; lia). done.
    + rewrite lookup_app_l in Hq' by done. by apply Hbu.
  - intros t a Hin. destruct (Hl t a Hin) as (? & ? & ?). split_and!; [done | done |]. by apply serves_mono.
  - intros q k Hk. destruct (Hq q k Hk) as [[-> ->]|[_ Hk']].
    + left. apply elem_of_app. right. by apply list_elem_of_singleton.
    + destruct (Hg q k Hk') as [?|?]; [left; apply elem_of_app; by left | by right].
  - intros q q' k k' Hlt Hk Hk' He. destruct (Hq q k Hk) as [[-> ->]|[_ Hkq]].
    { destruct (Hq q' k' Hk') as [[-> _]|[? _]]; lia. }
    destruct (Hq q' k' Hk') as [[-> ->]|[_ Hkq']]; [|by apply (Ha q q' k k')].
    destruct (Hg q k Hkq) as [Hin|?]; [|done]. exfalso.
    apply find_client_None in Hf. rewrite Forall_forall in Hf. specialize (Hf _ Hin). simpl in Hf. congruence.
Qed.

(** A question to a bucket. *)
Lemma limiter_ok_ask t key p now s c :
  limiter_ok s → l_heap (ls_limiter s) !! p = Some c → serves (ls_made s) key p →
  k_ip key = clientIP l0 (jobs t) → limit_in_force (rq_Path (jobs t)) (k_rate key) (k_burst key) →
  let '(ok, l) := allow_at p now (ls_limiter s) in
  limiter_ok (s <| ls_limiter := l |> <| ls_log := ls_log s ++ [(t, mkAnswer key p now ok)] |>).
Proof.
  intros [Hfx Hr Hb Hro Hd Hc Hm Hbu Hl Hg Ha] Hlook Hserves Hip Hlim. unfold allow_at. rewrite Hlook.
  destruct (bucket_Allow (c_limiter c) now) as [ok b] eqn:Hbk. split; simpl; try done.
  - by rewrite length_insert.
  - intros q k c' Hk Hq. rewrite fmap_app. unfold answers_at. rewrite filter_app. cbn [fmap list_fmap snd].
    destruct (decide (p = q)) as [<-|Hne].
    + rewrite list_lookup_insert_eq in Hq by (by eapply lookup_lt_Some). injection Hq as <-.
      rewrite filter_cons_True, filter_nil, !fmap_app by done. simpl.
      rewrite (bucket_run_snoc _ _ _ _ _ (Hbu p k c Hk Hlook)), Hbk. done.
    + rewrite list_lookup_insert_ne in Hq by done.
      rewrite filter_cons_False, filter_nil, app_nil_r by (simpl; congruence). by apply Hbu.
  - intros u a [Hin|Hin]%elem_of_app; [by apply Hl |].
    by apply list_elem_of_singleton in Hin as [= -> ->].
Qed.

(** Buckets that are taken out of the map. *)
Lemma limiter_ok_take_out why keep s :
  limiter_ok s →
  let l := ls_limiter s in
  let l' := l <| l_clients := filter (λ c, keep c = true) (l_clients l) |> in
  (∀ k p c, (k, p) ∈ l_clients l → keep (k, p) = false → l_heap l !! p = Some c →
     match why c with Cleared => True | Evicted now seen => l_idleTTL l0 < time_sub now seen end) →
  limiter_ok (s <| ls_limiter := l' |> <| ls_removed := ls_removed s ++ taken_out why l l' |>).
Proof.
  intros Hs l l' Hwhy. pose proof Hs as [Hfx Hr Hb Hro Hd Hc Hm Hbu Hl Hg Ha].
  set (s' := s <| ls_limiter := l' |> <| ls_removed := _ |>).
  assert (∀ p, removed s p → removed s' p) as Hmono by (intros p; by apply (removed_app s s' (taken_out why l l'))).
  split; simpl; try done.
  - by apply distinct_filter.
  - intros k p [_ Hin]%list_elem_of_filter. by apply Hc.
  - intros p k Hk. destruct (Hg p k Hk) as [Hin|Hrem]; [|right; by apply Hmono].
    destruct (keep (k, p)) eqn:Hkeep; [left; by apply list_elem_of_filter |]. right.
    destruct (lookup_lt_is_Some_2 (l_heap l) p) as [c Hlook]; [by eapply pointer_lt |].
    exists (why c). split; [|by eapply Hwhy]. apply elem_of_app. right. unfold taken_out.
    apply list_elem_of_omap. exists (k, p). split; [done |]. rewrite decide_False; [by rewrite Hlook |].
    intros ([k' p'] & Hp' & [Hkeep' Hin']%list_elem_of_filter)%list_elem_of_fmap. simpl in Hp'. subst p'.
    rewrite (distinct_inj _ _ _ _ Hd Hin Hin') in Hkeep. congruence.
  - intros p q k k' Hlt Hk Hk' He. by apply Hmono, (Ha p q k k').
Qed.

Lemma filter_clients_all cs : filter (λ c : ClientKey * nat, (λ _, false) c = true) cs = [].
Proof. by induction cs. Qed.

Lemma act_take_out s gs t g why keep :
  limiter_inv s gs → gs !! t = Some g →
  let l := ls_limiter s in
  let l' := l <| l_clients := filter (λ c, keep c = true) (l_clients l) |> in
  (∀ k p c, (k, p) ∈ l_clients l → keep (k, p) = false → l_heap l !! p = Some c →
     match why c with Cleared => True | Evicted now seen => l_idleTTL l0 < time_sub now seen end) →
  limiter_inv (s <| ls_limiter := l' |> <| ls_removed := ls_removed s ++ taken_out why l l' |>)
    (<[t := g]> gs).
Proof.
  intros Hinv Ht l l' Hwhy. apply (limiter_inv_next s); [done | | |].
  - exists []. by rewrite app_nil_r.
  - apply limiter_ok_take_out; [apply Hinv | done].
  - destruct Hinv as [_ Hgs]. by destruct (Hgs t g Ht).
Qed.

(** The goroutine learns something of a state that stays as it is. *)
Lemma act_read s gs t g' : limiter_inv s gs → ghost_ok s t g' → limiter_inv s (<[t := g']> gs).
Proof. intros [Hs Hgs] Hg. split; [done | by apply map_Forall_insert_2]. Qed.

(** It changes the state and learns nothing. *)
Lemma act_write s s' gs t g :
  limiter_inv s gs → gs !! t = Some g → ls_made s' = ls_made s → limiter_ok s' →
  limiter_inv s' (<[t := g]> gs).
Proof.
  intros Hinv Ht Hm Hs'. pose proof Hinv as [_ Hgs]. destruct (Hgs t g Ht) as [Ho Hr Hb Hc].
  apply (limiter_inv_next s); [done | exists []; by rewrite app_nil_r | done |]. split; try done.
  intros key p Hp. rewrite Hm. by apply Hc.
Qed.

Lemma found_serves s key p :
  limiter_ok s → find_client key (l_clients (ls_limiter s)) = Some p → serves (ls_made s) key p.
Proof. intros Hs (k & Hin & He)%find_client_Some. exists k. split; [by apply Hs | by right]. Qed.

Lemma act_scan s gs t g path :
  limiter_inv s gs → gs !! t = Some g → path = rq_Path (jobs t) →
  ∃ x s', perform t (ScanRoutes path) s = Some (x, s') ∧
    limiter_inv s' (<[t := limiter_next _ g (ScanRoutes path) x]> gs).
Proof.
  intros Hinv Ht ->. pose proof Hinv as [Hs Hgs]. pose proof (Hgs t g Ht) as [_ Gr Gb Gc].
  cbn [perform perform_limiter]. destruct (foldl _ _ _) as [[o n] prefix] eqn:Hscan.
  eexists _, s. split; [done |]. apply act_read; [done |]. split; simpl; try done. intros o' ->.
  destruct (scan_override (rq_Path (jobs t)) (l_routes (ls_limiter s)) None 0 "unknown" o') as [?|(route & ? & ? & ?)];
    [by rewrite Hscan | done |].
  destruct (lk_routes s Hs) as [cfg Hcfg]. by exists cfg, (l_routes (ls_limiter s)), route.
Qed.

Lemma act_insert s gs t g key now :
  limiter_inv s gs → gs !! t = Some g →
  ∃ x s', perform t (InsertClient key now) s = Some (x, s') ∧
    limiter_inv s' (<[t := limiter_next _ g (InsertClient key now) x]> gs).
Proof.
  intros Hinv Ht. pose proof Hinv as [Hs Hgs]. pose proof (Hgs t g Ht) as [Go Gr Gb _].
  cbn [perform perform_limiter limiter_next]. unfold lookup_slow.
  destruct (find_client key (l_clients (ls_limiter s))) as [q|] eqn:Hf; simpl; eexists _, _;
    (split; [done |]); apply (limiter_inv_next s); try done; try by eexists.
  - rewrite app_nil_r. pose proof (limiter_ok_touch q now s Hs) as Hok. by destruct s.
  - split; simpl; try done. rewrite app_nil_r. intros key' p [= <- <-]. by apply found_serves.
  - by apply limiter_ok_make.
  - split; simpl; try done. intros key' p [= <- <-]. exists key. split; [|by left].
    by rewrite <-(lk_made s Hs), lookup_app_r, Nat.sub_diag.
Qed.

Lemma act_ask s gs t g key p now :
  limiter_inv s gs → gs !! t = Some g → chosen t g key → lg_client g = Some (key, p) →
  ∃ x s', perform t (AskBucket key p now) s = Some (x, s') ∧ limiter_inv s' (<[t := no_ghost]> gs).
Proof.
  intros Hinv Ht Hch Hcl. pose proof Hinv as [Hs Hgs]. pose proof (Hgs t g Ht) as Hg.
  pose proof (go_client _ _ _ Hg key p Hcl) as Hsv. pose proof Hsv as (k & Hk & _).
  destruct (lookup_lt_is_Some_2 (l_heap (ls_limiter s)) p) as [c Hc];
    [rewrite <-(lk_made s Hs); by eapply lookup_lt_Some |].
  pose proof (limiter_ok_ask t key p now s c Hs Hc Hsv) as Hask.
  cbn [perform perform_limiter]. rewrite Hc. cbn [mbind option_bind].
  destruct (allow_at p now (ls_limiter s)) as [ok l]. eexists ok, _. split; [done |].
  apply (limiter_inv_next s); [done | exists []; by rewrite app_nil_r | |by split].
  apply Hask; [apply Hch | by eapply chosen_in_force].
Qed.

Lemma act_evict s gs t g now keys :
  limiter_inv s gs → gs !! t = Some g →
  ∃ x s', perform t (EvictBatch now keys) s = Some (x, s') ∧ limiter_inv s' (<[t := g]> gs).
Proof.
  intros Hinv Ht. pose proof Hinv as [Hs _]. cbn [perform perform_limiter].
  destruct (evict_batch_spec now keys (ls_limiter s) 0 (lk_distinct s Hs)) as (n & -> & _).
  eexists n, _. split; [done |].
  apply (act_take_out s gs t g (λ c, Evicted now (c_lastSeen c)) (survives keys (ls_limiter s) now) Hinv Ht).
  intros k p c Hin Hsv Hc. unfold survives in Hsv. cbn [fst snd] in Hsv.
  apply negb_false_iff, andb_true_iff in Hsv as [_ Hi]. unfold idle in Hi. rewrite Hc in Hi.
  apply bool_decide_eq_true in Hi. by rewrite <-(proj2 (lk_fixed s Hs)).
Qed.

Lemma limiter_inv_act (X : Set) t (a : LimiterAction X) s gs g :
  limiter_inv s gs → gs !! t = Some g → limiter_allowed X t g a →
  ∃ x s', perform t a s = Some (x, s') ∧ limiter_inv s' (<[t := limiter_next X g a x]> gs).
Proof.
  intros Hinv Ht Ha. pose proof Hinv as [Hs Hgs]. pose proof (Hgs t g Ht) as Hg. pose proof Hg as [Go Gr Gb Gc].
  destruct a as [path| | |key now|p now|key now|key p now|rate|burst|routes| |now|now keys| | |e].
  1: by apply act_scan.
  5: by apply act_insert.
  5: destruct Ha; by eapply act_ask.
  10: by apply (act_evict s gs t g).
  all: cbn [perform perform_limiter limiter_next limiter_allowed] in *; eexists _, _; (split; [done |]).
  (* what only reads *)
  1,2,3: apply act_read; [done |]; split; simpl; try done.
  9,10,11: by apply act_read.
  - intros rate [= <-]. apply Hs.
  - intros burst [= <-]. apply Hs.
  - intros key' p. unfold lookup_fast.
    destruct (find_client key (l_clients (ls_limiter s))) as [q|] eqn:Hf; [|apply Gc].
    simpl. destruct (l_heap (ls_limiter s) !! q) as [c|]; [|apply Gc]. intros [= <- <-]. by apply found_serves.
  - apply (act_write s); [done.. | by apply limiter_ok_touch].
  - apply (act_write s); [done.. |]. destruct Hs. by split.
  - apply (act_write s); [done.. |]. destruct Hs. by split.
  - apply (act_write s); [done.. |]. destruct Hs. by split.
  - pose proof (act_take_out s gs t g (λ _, Cleared) (λ _, false) Hinv Ht) as Htake. cbn zeta in Htake.
    rewrite filter_clients_all in Htake. by apply Htake.
  - apply (act_write s); [done.. |]. destruct Hs. by split.
Qed.

Lemma limiter_inv_start t s gs g :
  limiter_inv s gs → gs !! t = None → g = no_ghost → limiter_inv s (<[t := g]> gs).
Proof. intros [Hs Hgs] _ ->. split; [done |]. apply map_Forall_insert_2; [by split | done]. Qed.

#[export] Instance limiter_protocol : Protocol LimiterAction LimiterShared LimiterGhost := {|
  pr_allowed := limiter_allowed; pr_next := limiter_next;
  pr_idle g := g = no_ghost; pr_done g := g = no_ghost; pr_inv := limiter_inv; pr_inv_act := limiter_inv_act; pr_inv_start := limiter_inv_start
|}.

(** ** The programs keep to it *)

Definition quiet {A} (_ : A) (g : LimiterGhost) : Prop := g = no_ghost.

Lemma follows_note t evs : follows t quiet no_ghost (note_p evs).
Proof. apply follows_each. intros e _. by split. Qed.

Lemma follows_limit t rd : follows t quiet no_ghost (limit_p l0 rd (jobs t)).
Proof.
  assert (∀ g rate burst prefix, chosen t g (mkKey (clientIP l0 (jobs t)) rate burst) →
    follows t quiet g (
      p ← getLimiter_p (mkKey (clientIP l0 (jobs t)) rate burst) rd;
      ok ← act (AskBucket (mkKey (clientIP l0 (jobs t)) rate burst) p (rd_allow rd));
      if ok : bool then mret None
      else note_p (emit (l_metrics l0) [mkEvent RateLimitHits [prefix] Inc]) ;; mret (Some rate))) as Hrest.
  { intros g rate burst prefix Hch. set (key := mkKey _ rate burst) in *. apply follows_bind.
    apply follows_mono with (λ p g', chosen t g' key ∧ lg_client g' = Some (key, p)).
    { intros p g' [Hch' Hcl]. simpl. split; [done |]. intros [|]; [done |]. apply follows_bind.
      eapply follows_mono; [|apply follows_note]. by intros _ ? ->. }
    unfold getLimiter_p. simpl. split; [done |]. intros [[p [|]]|]; simpl.
    - split; [by exists key | by intros _].
    - done.
    - split; [done | by intros p]. }
  unfold limit_p, limitsForPath_p. simpl. split; [done |]. intros [[o|] prefix]; simpl.
  - apply Hrest. split; [done |]. left. by exists o.
  - split; [done |]. intros rate. split; [done |]. intros burst. apply Hrest. split; [done |]. by right.
Qed.

Lemma follows_update t cfg routes :
  in_force cfg routes → follows t quiet no_ghost (UpdateConfig_p cfg routes).
Proof.
  intros Hf. simpl. split_and!; [by exists cfg, routes | intros _].
  split; [by exists cfg, routes | intros _]. split; [by exists cfg | intros _]. by split.
Qed.

Lemma follows_tracked_gauge t on : follows t quiet no_ghost (updateTrackedGauge_p on).
Proof. destruct on; [|done]. simpl. by split_and!. Qed.

Lemma follows_janitor t on now : follows t quiet no_ghost (evictOnce_p on now).
Proof.
  unfold evictOnce_p. simpl. split; [done |]. intros expired. case_decide; [apply follows_tracked_gauge |].
  apply follows_bind. apply follows_mono with quiet.
  { intros n ? ->. apply follows_bind, follows_mono with quiet; [intros _ ? ->; apply follows_tracked_gauge |].
    case_decide; [apply follows_note | done]. }
  generalize (length expired) at 1 as fuel. intros fuel. generalize 0%nat at 1 as start. generalize 0%nat as n.
  induction fuel as [|fuel IH]; intros n start; [done |]. cbn [evict_loop_p]. case_decide; [|done].
  simpl. split; [done |]. intros k. apply IH.
Qed.
End protocol.

(** ** Everything that happens to a limiter *)

Abbreviation LimiterPool := (Pool (Action := LimiterAction) (Sh := LimiterShared) unit).

Section pool.
Context `{TokenBucket} (cfg0 : RateLimitConfig) (routes0 : list RouteConfig) (trusted : list string) (m : bool).
Context (jobs : nat → Request) (in_force : RateLimitConfig → list RouteConfig → Prop).
Hypothesis starts_in_force : in_force cfg0 routes0.
Let l0 := NewRateLimiter cfg0 routes0 trusted m.

(** Requests, reloads, passes of the janitor and snapshots. *)
Inductive limiter_start : nat → Prog LimiterAction unit → Prop :=
| start_limited t rd : limiter_start t (background (limit_p l0 rd (jobs t)))
| start_update t cfg routes : in_force cfg routes → limiter_start t (background (UpdateConfig_p cfg routes))
| start_janitor t now : limiter_start t (background (evictOnce_p m now))
| start_snapshot t : limiter_start t (background Snapshot_p).

Definition fresh_limiter : LimiterShared := mkLS l0 [] [] [] [].

Definition limiter_pool : LimiterPool := mkPool fresh_limiter ∅.

Lemma fresh_limiter_ok : limiter_ok l0 jobs in_force fresh_limiter.
Proof.
  split; simpl; try done; try (by exists cfg0, routes0); try (by exists cfg0).
  - split; [by intros ???? ?%elem_of_nil | constructor].
  - by intros ?? ?%elem_of_nil.
  - by intros ?? ?%elem_of_nil.
Qed.

#[local] Instance pool_protocol : Protocol LimiterAction LimiterShared LimiterGhost :=
  limiter_protocol l0 jobs in_force.

Lemma follows_background {A} t (p : Prog LimiterAction A) :
  follows t quiet no_ghost p →
  follows t finishes no_ghost (background p).
Proof. intros Hp. apply follows_bind. eapply follows_mono; [|exact Hp]. by intros _ ? ->. Qed.

Lemma limiter_start_follows t p :
  limiter_start t p → ∃ g, pr_idle g ∧
    follows t finishes g p.
Proof.
  intros Hp. exists no_ghost. split; [done |].
  destruct Hp; apply follows_background;
    [apply follows_limit | by apply follows_update | apply follows_janitor | by split].
Qed.

Lemma limiter_pool_ok pl : rtc (pool_step limiter_start) limiter_pool pl → pool_ok pl.
Proof.
  apply (pool_ok_steps limiter_start limiter_start_follows). exists ∅.
  split; [by split; [apply fresh_limiter_ok | apply map_Forall_empty] | by split].
Qed.

(** C10. However requests, reloads, passes of the janitor and snapshots interleave at the
    limiter: a goroutine that has not returned can go on, and all of them end.  Every
    bucket answers as one bucket of its key's limit, new and full when it was made,
    asked at those times in that order.  Every answer is for the address of the
    request that asked, and for a limit in force: the override of a route that
    matches it, or a global rate and a global burst; and it comes from a bucket of
    that address and limit.  There is a second bucket for a client and limit only
    after the first was taken out of the map, by a reload, or by the janitor when the
    client had not been seen for longer than the idle TTL. *)
Theorem limiter_interleavings (pl : LimiterPool) :
  rtc (pool_step limiter_start) limiter_pool pl →
  let s := pl_shared pl in
  (∀ t p, pl_threads pl !! t = Some p → returned p = false →
     ∃ pl' p', act_step pl pl' ∧ pl_threads pl' = <[t := p']> (pl_threads pl)) ∧
  sn act_step pl ∧
  (∀ p k, ls_made s !! p = Some k →
     let answers := answers_at p (ls_log s).*2 in
     an_ok <$> answers = (bucket_run (NewLimiter (k_rate k) (k_burst k)) (an_time <$> answers)).1) ∧
  (∀ t a, (t, a) ∈ ls_log s →
     let key := an_key a in
     k_ip key = clientIP l0 (jobs t) ∧
     limit_in_force in_force (rq_Path (jobs t)) (k_rate key) (k_burst key) ∧
     ∃ k, ls_made s !! an_bucket a = Some k ∧ (k = key ∨ key_eqb k key = true)) ∧
  (∀ p q k k', (p < q)%nat → ls_made s !! p = Some k → ls_made s !! q = Some k' → key_eqb k k' = true →
     ∃ why, (p, why) ∈ ls_removed s ∧
       match why with Cleared => True | Evicted now seen => l_idleTTL l0 < time_sub now seen end).
Proof.
  intros Hr s. pose proof (limiter_pool_ok pl Hr) as Hok. pose proof Hok as (gs & [Hs _] & _).
  split_and!.
  - intros t p Ht Hp. destruct (pool_ok_progress pl t p Hok Ht Hp) as (pl' & Hst & p' & Hp').
    by exists pl', p'.
  - apply pools_end.
  - intros p k Hk. by apply (limiter_ok_answers l0 jobs in_force s).
  - apply (lk_log _ _ _ s Hs).
  - apply (lk_again _ _ _ s Hs).
Qed.
End pool.

(** ** Witnesses *)

#[local] Existing Instance unrefilled.

Definition slow_limit : RateLimitConfig := mkRateLimit (f64 1) 100 0 0.
Definition fast_limit : RateLimitConfig := mkRateLimit (f64 100) 1 0 0.

Definition slow_or_fast (cfg : RateLimitConfig) (routes : list RouteConfig) : Prop :=
  (cfg = slow_limit ∨ cfg = fast_limit) ∧ routes = [].

Definition limited_request : Request := new_request "GET" "/api" ∅ "1.2.3.4:5".

Definition same_job (_ : nat) : Request := limited_request.

Definition slow_l0 : Limiter := NewRateLimiter slow_limit [] [] true.

(** A request and a reload, both under way. *)
Definition reloading_pool : LimiterPool :=
  mkPool (fresh_limiter slow_limit [] [] true)
    (<[1%nat := background (UpdateConfig_p fast_limit [])]>
      (<[0%nat := background (limit_p slow_l0 (mkReadings 0 0 0) limited_request)]> ∅)).

Lemma reloading_reachable :
  rtc (pool_step (limiter_start slow_limit [] [] true same_job slow_or_fast))
    (limiter_pool slow_limit [] [] true) reloading_pool.
Proof.
  eapply rtc_l; [|apply rtc_once].
  - apply step_start; [done | apply (start_limited _ _ _ _ same_job)].
  - apply step_start; [done |]. apply start_update. split; [by right | done].
Qed.

(** The reload has written the rate and not yet the burst: the request is admitted by
    a bucket of 100 at 100 per second, a limit that neither configuration has. *)
Example limits_are_torn :
  (λ pl, (an_key ∘ snd <$> ls_log (pl_shared pl), returned <$> pl_threads pl !! 0%nat)) <$>
    schedule ([1] ++ replicate 6 0)%nat reloading_pool =
  Some ([mkKey "1.2.3.4" (f64 100) 100], Some true).
Proof. by vm_compute. Qed.

Lemma limiter_interleavings_witness :
  ∃ pl, schedule ([1] ++ replicate 6 0)%nat reloading_pool = Some pl ∧
    (∃ a, (0%nat, a) ∈ ls_log (pl_shared pl) ∧ an_ok a = true ∧ k_ip (an_key a) = "1.2.3.4" ∧
       rate_in_force slow_or_fast (k_rate (an_key a)) ∧ burst_in_force slow_or_fast (k_burst (an_key a))).
Proof.
  assert ((λ pl, ls_log (pl_shared pl)) <$> schedule ([1] ++ replicate 6 0)%nat reloading_pool =
    Some [(0%nat, mkAnswer (mkKey "1.2.3.4" (f64 100) 100) 0 0 true)]) as Hv by by vm_compute.
  apply fmap_Some in Hv as (pl & Hpl & Hlog). exists pl. split; [done |].
  destruct (limiter_interleavings slow_limit [] [] true same_job slow_or_fast
    ltac:(split; [by left | done]) pl) as (_ & _ & _ & Hans & _).
  { etrans; [apply reloading_reachable |]. apply schedule_steps in Hpl.
    eapply rtc_subrel; [|exact Hpl]. intros x y Hxy. by apply step_run. }
  eexists. rewrite <-Hlog. split; [by left |]. split; [done |].
  destruct (Hans 0%nat _ ltac:(rewrite <-Hlog; by left)) as (Hip & [(o & Ho & _)|[Hr Hb]] & _).
  { destruct Ho as (cfg & routes & route & [_ ->] & Hin & _). by apply elem_of_nil in Hin. }
  by split_and!.
Defined.

(** A client is back after eleven minutes.  Between its look-up and the refresh of its
    last-seen time the janitor removes it; its next request makes a new bucket, and
    more requests than the burst of two are admitted at one time. *)
Example eviction_before_refresh :
  let cfg := mkRateLimit (f64 1) 2 0 0 in
  let l0 := NewRateLimiter cfg [] [] false in
  let at_ now := background (limit_p l0 (mkReadings now now now) limited_request) in
  let late := 11 * Minute in
  (λ pl, ((λ a, (an_time a, an_ok a)) ∘ snd <$> ls_log (pl_shared pl), (ls_removed (pl_shared pl)).*1)) <$>
    schedule (replicate 6 0 ++ replicate 4 1 ++ replicate 3 2 ++ replicate 2 1 ++ replicate 6 3 ++ replicate 6 4)%nat
      (mkPool (fresh_limiter cfg [] [] false)
        (<[4%nat := at_ late]> (<[3%nat := at_ late]> (<[2%nat := background (evictOnce_p false late)]>
          (<[1%nat := at_ late]> (<[0%nat := at_ 0]> ∅)))))) =
  Some ([(0, true); (late, true); (late, true); (late, true)], [0%nat]).
Proof. by vm_compute. Qed.
