(* ===== verification/Gateway.v ===== *)
(** * The gateway (internal/gateway/gateway.go)

    [NewGateway] puts the components together: the table of breakers, the router,
    the limiter, the middleware around them, the endpoints that bypass it, and
    the reloader with the gateway itself as its observer.  [handle] is the
    resulting handler, [gateway_OnReload] what a reload does to the running
    parts, [gateway_event] what happens to a gateway from outside.

    What changes while the gateway runs is its [GState]; the rest of [Gateway]
    is fixed by the construction.  Everything that comes from outside during one
    request -- clock, random bytes, the backend, the schedule of the deadline's
    race -- is an [IO].  A request is one step: requests do not interleave here
    ([GatewayConc] and the components' own files treat the interleavings). *)

From S2P Require Import Prelude GoFloat GoStrings GoNet Metrics Config ConfigValidate Routing FailureRateBreaker CircuitBreaker Http Json ApiError.
From S2P Require Import Middleware Auth RateLimit Deadline Proxy Writers ProxyServe Logging Reload Health AdminJson Admin CertLoader.

Open Scope Z_scope.

(** ** Replaying a response

    The calls that make of any writer what a client got: a handler that writes to
    a client can so be put under a middleware. *)

Definition call_ops (call : ClientCall) : list WriterOp :=
  match call with
  | CallWriteHeader code h => [OpHeader (λ _, h); OpWriteHeader code]
  | CallWrite body h => [OpHeader (λ _, h); OpWrite body]
  end.

Definition replay (t : Time) (c : Client) : list (WriterOp * Time) :=
  (λ op, (op, t)) <$> ((cl_calls c ≫= call_ops) ++ [OpHeader (λ _, cl_header c)]).

Lemma run_replay t c c0 :
  run_ops (replay t c) c0 = mkClient (cl_header c) (cl_calls c0 ++ cl_calls c).
Proof.
  destruct c as [h calls]. unfold replay. rewrite fmap_app, run_ops_app. simpl.
  revert c0. induction calls as [|[code h'|b h'] calls IH]; intros c0; simpl;
    [by rewrite app_nil_r | rewrite IH; simpl; by rewrite <-app_assoc..].
Qed.

(** ** The endpoints beside the request path: [http.ServeMux] *)

Fixpoint ends_in_slash (s : string) : bool :=
  match s with
  | "" => false
  | String c "" => Ascii.eqb c "/"
  | String _ r => ends_in_slash r
  end.

(** The segments that [path.Clean] keeps, last one first. *)
Definition clean_segment (kept : list string) (seg : string) : list string :=
  if decide (seg = "" ∨ seg = ".") then kept
  else if decide (seg = "..") then tail kept
  else seg :: kept.

(** The mux's [cleanPath] *)
Definition cleanPath (p : string) : string :=
  let clean := "/" +:+ Join (reverse (foldl clean_segment [] (Split p "/"))) "/" in
  if ends_in_slash p && negb (bool_decide (clean = "/")) then clean +:+ "/" else clean.

(** The pattern a path matches: itself, or a subtree it lies in. *)
Definition mux_match (patterns : list string) (path : string) : option string :=
  if decide (path ∈ patterns) then Some path
  else find (λ p, ends_in_slash p && HasPrefix path p) patterns.

Inductive MuxAnswer := MuxPattern (pattern : string) | MuxRedirect (path : string) | MuxNotFound.

(** What a mux with the given patterns -- plain paths, without methods, hosts or
    wildcards -- answers with; the request's path needs no escaping. *)
Definition mux_find (patterns : list string) (r : Request) : MuxAnswer :=
  let path := if decide (rq_Method r = "CONNECT") then rq_Path r else cleanPath (rq_Path r) in
  match mux_match patterns path with
  | Some p => if decide (path = rq_Path r) then MuxPattern p else MuxRedirect path
  | None =>
      if bool_decide (path +:+ "/" ∈ patterns) then MuxRedirect (path +:+ "/")
      else if decide (path = rq_Path r) then MuxNotFound else MuxRedirect path
  end.

(** [http.NotFound] *)
Definition not_found_ops : list WriterOp :=
  [OpHeader (λ h, delete "Content-Length" h);
   OpHeader (header_Set "Content-Type" "text/plain; charset=utf-8");
   OpHeader (header_Set "X-Content-Type-Options" "nosniff");
   OpWriteHeader StatusNotFound; OpWrite ("404 page not found" +:+ newline)].

Definition StatusMovedPermanently : Z := 301.

(** [http.Redirect] to a path without query and without characters that HTML or
    URLs escape. *)
Definition redirect_ops (r : Request) (path : string) : list WriterOp :=
  let get := bool_decide (rq_Method r = "GET") in
  [OpHeader (header_Set "Location" path)] ++
  (if get || bool_decide (rq_Method r = "HEAD")
   then [OpHeader (header_Set "Content-Type" "text/html; charset=utf-8")] else []) ++
  [OpWriteHeader StatusMovedPermanently] ++
  (if get then [OpWrite ("<a href=" +:+ dquoted path +:+ ">Moved Permanently</a>." +:+
                         newline +:+ newline)] else []).

(** ** State *)

(** Alive; ended by a panic outside any recover; or beyond the model: a breaker
    call panics or blocks, or the environment lists fewer attempts than are
    made. *)
Inductive Fate := Alive | Crashed | Stuck.

#[export] Instance Fate_eq_dec : EqDecision Fate.
Proof. solve_decision. Defined.

Section state.
Context `{TokenBucket}.

Record GState := mkGState {
  gs_Limiter : Limiter;
  gs_Breakers : gmap string CompositeBreaker;
  gs_routesRef : list RouteConfig;
  gs_Health : HealthHandler;
  gs_events : list MetricEvent;                 (** calls on the metrics *)
  gs_log : list LogEntry;                       (** the request log *)
  gs_forwarded : list (Request * Duration);     (** requests sent to backends *)
  gs_fate : Fate
}.

#[export] Instance GState_eta : Eta GState := λ s,
  mkGState (gs_Limiter s) (gs_Breakers s) (gs_routesRef s) (gs_Health s) (gs_events s) (gs_log s)
    (gs_forwarded s) (gs_fate s).

Definition add_events (evs : list MetricEvent) (st : GState) : GState :=
  st <| gs_events := gs_events st ++ evs |>.

Lemma add_events_nil st : add_events [] st = st.
Proof. destruct st. unfold add_events. simpl. by rewrite app_nil_r. Qed.
End state.

(** What comes from outside during a request. *)
Record IO := mkIO {
  io_now : Time;                  (** stamps the middleware's own calls *)
  io_rnd : list Z;                (** for a request ID *)
  io_schedule : list Move;        (** of the race with the deadline *)
  io_log_start : Time; io_log_stop : Time; io_pooled : BodyCapture;
  io_rate : Readings;
  io_auth : Time;
  io_env : ServeEnv;
  io_ready : Time; io_ready_done : Time;
  io_dial : string → bool;        (** the addresses that answer a readiness probe *)
  io_gone : bool;                 (** the client left while they were dialled *)
  io_order : list BackendResult → list BackendResult;  (** the order the probes end in *)
  io_page_size : string; io_page : string
}.

(** ** Construction *)

Definition cb_config (c : CircuitBreakerConfig) : CBConfig :=
  mkCBConfig (cbc_WindowSize c) (cbc_FailureThreshold c) (cbc_ResetTimeout c) (cbc_HalfOpenMax c)
    (cbc_SlowThreshold c) (cbc_MaxConcurrent c) (cbc_Adaptive c) (cbc_LatencyCeiling c)
    (cbc_MinThreshold c).

(** The loop that makes one breaker for every backend. *)
Definition build_breakers (cfg : CBConfig) (m : bool) (routes : list RouteConfig)
    : gmap string CompositeBreaker :=
  foldl (λ bs route,
    match bs !! r_Backend route with
    | Some _ => bs
    | None => <[r_Backend route := NewComposite (r_Backend route) cfg m]> bs
    end) ∅ routes.

(** The patterns registered on the mux, in order. *)
Definition mux_patterns (cfg : Config) : list string :=
  ["/health"; "/ready"] ++
  (if metrics_IsEnabled (cfg_Metrics cfg) then [m_Path (cfg_Metrics cfg)] else []) ++
  (if adm_Enabled (cfg_Admin cfg) then ["/admin/routes"; "/admin/config"; "/admin/limiters"] else []).

Definition bypassExact (cfg : Config) (path : string) : bool :=
  metrics_IsEnabled (cfg_Metrics cfg) && bool_decide (path = m_Path (cfg_Metrics cfg)).

Definition bypassPrefixes (cfg : Config) : list string :=
  ["/health"; "/ready"] ++ (if adm_Enabled (cfg_Admin cfg) then ["/admin/"] else []).

Definition bypasses (cfg : Config) (path : string) : bool :=
  bypassExact cfg path || existsb (λ p, HasPrefix path p) (bypassPrefixes cfg).

(** The mux registers the patterns: it panics on one that has no slash, and on one that
    is registered already. *)
Definition mux_registers (cfg : Config) : Prop :=
  Forall (λ p, Contains p "/" = true) (mux_patterns cfg) ∧ NoDup (mux_patterns cfg).

#[export] Instance mux_registers_dec cfg : Decision (mux_registers cfg).
Proof. unfold mux_registers. apply _. Defined.

(** The metrics are to be served where another endpoint is, or on no path at all. *)
Definition metrics_path_refused (cfg : Config) : Prop :=
  metrics_IsEnabled (cfg_Metrics cfg) = true ∧
  (Contains (m_Path (cfg_Metrics cfg)) "/" = false ∨
   m_Path (cfg_Metrics cfg) ∈ ["/health"; "/ready"] ++
     (if adm_Enabled (cfg_Admin cfg) then ["/admin/routes"; "/admin/config"; "/admin/limiters"] else [])).

#[export] Instance metrics_path_refused_dec cfg : Decision (metrics_path_refused cfg).
Proof. unfold metrics_path_refused. apply _. Defined.

Lemma mux_registers_iff cfg : mux_registers cfg ↔ ¬ metrics_path_refused cfg.
Proof.
  unfold mux_registers, mux_patterns, metrics_path_refused.
  set (adm := if adm_Enabled (cfg_Admin cfg) then _ else _).
  set (fixed := ["/health"; "/ready"] ++ adm).
  assert (NoDup fixed ∧ Forall (λ p, Contains p "/" = true) fixed) as [Hnd Hsl]
    by (unfold fixed, adm; destruct (adm_Enabled _); split; by apply (bool_decide_unpack _)).
  destruct (metrics_IsEnabled (cfg_Metrics cfg)).
  - change ([m_Path (cfg_Metrics cfg)] ++ adm) with (m_Path (cfg_Metrics cfg) :: adm).
    rewrite <-Permutation_middle, NoDup_cons, Forall_cons.
    destruct (Contains (m_Path (cfg_Metrics cfg)) "/"); naive_solver.
  - split; [by intros _ [] | by intros _].
Qed.

(** [http.Server], as far as it is configured. *)
Record Server := mkGoServer {
  srv_Addr : string; srv_ReadTimeout : Duration; srv_WriteTimeout : Duration;
  srv_MinVersion : option Z
}.

Definition VersionTLS12 : Z := 771.
Definition VersionTLS13 : Z := 772.

Definition build_server (s : ServerConfig) : Server :=
  mkGoServer (":" +:+ Itoa (s_Port s)) (s_ReadTimeout s) (s_WriteTimeout s)
    (if tls_Enabled (s_TLS s) then
       Some (if decide (tls_MinVersion (s_TLS s) = "1.3") then VersionTLS13 else VersionTLS12)
     else None).

Definition body_config (l : LoggingConfig) : option LoggingOptions :=
  if l_BodyLogging l then Some (mkLoggingOptions true (l_MaxBodyLogBytes l)) else None.

(** The level at which the requests of a path are logged, by the current routes. *)
Definition routeLogLevel (routes : list RouteConfig) (path : string) : Level :=
  (foldl (λ '(bestLen, bestLevel) route,
     if MatchesPrefix path (r_PathPrefix route) && bool_decide (bestLen < len (r_PathPrefix route))%nat
     then (len (r_PathPrefix route), ParseLogLevel (r_LogLevel route))
     else (bestLen, bestLevel)) (0%nat, LevelInfo) routes).2.

Section gateway.
Context `{TokenBucket, JwtLib, ConfigLib, SortSlice, GoFmt, GoJson} {Cert : Type}.
(** promhttp's page. *)
Context (metrics_page : list MetricEvent → Request → list WriterOp).

Record Gateway := mkGateway {
  g_Config : Config;
  g_Metrics : bool;                             (** the metrics pointer is set *)
  g_Router : Router;
  g_Admin : option AdminHandler;
  g_Server : Server;
  g_certLoader : option (CertLoader Cert)
}.

(** [g.OnReload(old, newCfg)]: the routes of the limiter and of the log levels, its
    rates, and the parameters of every breaker; the rest stays as built. *)
Definition gateway_OnReload : Observer GState := λ _ newCfg st,
  (Accepted,
   st <| gs_Limiter := limiter_UpdateConfig (cfg_RateLimit newCfg) (cfg_Routes newCfg) (gs_Limiter st) |>
      <| gs_Breakers := (λ b, composite_UpdateConfig b (cb_config (cfg_CircuitBreaker newCfg)))
                          <$> gs_Breakers st |>
      <| gs_routesRef := cfg_Routes newCfg |>).

Inductive Built :=
| BuildOk (g : Gateway) (rel : Reloader GState) (st : GState)
| BuildErr (err : string)
| BuildPanic.                                   (** a pattern the mux does not register *)

Definition new_state (cfg : Config) (m : bool) : GState :=
  mkGState
    (NewRateLimiter (cfg_RateLimit cfg) (cfg_Routes cfg) (s_TrustedProxies (cfg_Server cfg)) m)
    (build_breakers (cb_config (cfg_CircuitBreaker cfg)) m (cfg_Routes cfg))
    (cfg_Routes cfg) (NewHealth (cfg_Routes cfg)) [] [] [] Alive.

Definition new_reloader (cfg : Config) (m : bool) : Reloader GState :=
  let rel := NewReloader "" cfg in
  RegisterObserver gateway_OnReload (if m then SetRollbackRecorder rel else rel).

(** [NewGateway(ctx, cfg, logger, opts)]; [tls] is what [tlsutil.New] returns. *)
Definition NewGateway (cfg : Config) (tls : result (CertLoader Cert) string) : Built :=
  let m := metrics_IsEnabled (cfg_Metrics cfg) in
  match NewRouter (cfg_Routes cfg) with
  | Err e => BuildErr ("building proxy router: " +:+ e)
  | Ok router =>
      let adm := if adm_Enabled (cfg_Admin cfg)
                 then Some (NewAdmin (cfg_Routes cfg) (adm_IPAllowlist (cfg_Admin cfg))) else None in
      let g loader := mkGateway cfg m router adm (build_server (cfg_Server cfg)) loader in
      let rel := new_reloader cfg m in
      if decide (mux_registers cfg) then
        if tls_Enabled (s_TLS (cfg_Server cfg)) then
          match tls with
          | Err e => BuildErr ("loading TLS certificate: " +:+ e)
          | Ok loader => BuildOk (g (Some loader)) rel (new_state cfg m)
          end
        else BuildOk (g None) rel (new_state cfg m)
      else BuildPanic
  end.

(** [g.SetReloadPath(path)] *)
Definition SetReloadPath (path : string) (rel : Reloader GState) : Reloader GState := SetPath path rel.

(** ** The request path *)

Definition routeRequiresAuth (g : Gateway) (path : string) : bool :=
  match matchRoute (g_Router g) path with Some route => r_AuthRequired route | None => false end.

(** The innermost handlers write to a client and change the state as they go. *)
Record Flow := mkFlow {
  fl_client : Client; fl_state : GState; fl_exit : Exit; fl_path : string; fl_header : Header
}.

#[export] Instance Flow_eta : Eta Flow := λ f,
  mkFlow (fl_client f) (fl_state f) (fl_exit f) (fl_path f) (fl_header f).

#[export] Instance flow_writer : ResponseWriter Flow := {
  rw_header_of f := cl_header (fl_client f);
  rw_Header upd f := f <| fl_client := rw_Header upd (fl_client f) |>;
  rw_WriteHeader code t f := f <| fl_client := rw_WriteHeader code t (fl_client f) |>;
  rw_Write b t f := f <| fl_client := rw_Write b t (fl_client f) |>
}.

(** The request as the router leaves it: rewritten if it was admitted. *)
Definition routed_request (g : Gateway) (breakers : gmap string CompositeBreaker) (now : Time)
    (r : Request) : Request :=
  match matchRoute (g_Router g) (rq_Path r) with
  | None => r
  | Some route =>
      if method_allowed (g_Router g) route (rq_Method r) &&
         match breakers !! r_Backend route with
         | Some b => (composite_Allow b now).1.1
         | None => true
         end
      then rewrite_request route r else r
  end.

(** [router.ServeHTTP(w, r)]: the breaker of the matched backend goes back to its
    place in the table. *)
Definition router_handler (g : Gateway) (io : IO) (r : Request) (f : Flow) : Flow :=
  let st := fl_state f in
  match ServeHTTP (g_Router g) (g_Metrics g) (gs_Breakers st) (io_env io) r (fl_client f) with
  | None => f <| fl_state := st <| gs_fate := Stuck |> |>
  | Some (exit, sv) =>
      let r' := routed_request g (gs_Breakers st) (en_start (io_env io)) r in
      let breakers :=
        match matchRoute (g_Router g) (rq_Path r), sv_breaker sv with
        | Some route, Some b => <[r_Backend route := b]> (gs_Breakers st)
        | _, _ => gs_Breakers st
        end in
      mkFlow (rr_client (sv_recorder sv))
        (add_events (sv_events sv)
           (st <| gs_Breakers := breakers |>
               <| gs_forwarded := gs_forwarded st ++ sv_forwarded sv |>))
        exit (rq_Path r') (rq_Header r')
  end.

Definition auth_handler (g : Gateway) (io : IO) (r : Request) (f : Flow) : Flow :=
  let '(f, evs) := AuthMiddleware (cfg_Auth (g_Config g)) (routeRequiresAuth g) (g_Metrics g)
                     (λ _, router_handler g io r) (io_auth io) r f in
  f <| fl_state := add_events evs (fl_state f) |>.

(** The limiter, and under it authentication and the router, as a handler. *)
Definition limited_handler (g : Gateway) (io : IO) : Handler GState := λ st r w,
  let f := mkFlow (mkClient w []) st Returned (rq_Path r) (rq_Header r) in
  let '(l, f, evs) := RateLimitMiddleware (auth_handler g io r) (io_rate io) r (gs_Limiter st) f in
  mkRun (replay (io_now io) (fl_client f)) (fl_exit f) (fl_path f) (fl_header f)
    (add_events evs ((fl_state f) <| gs_Limiter := l |>)).

(** Logging is transparent for its handler's calls ([Logging_spec]); its entry goes
    to the log. *)
Definition logging_handler (g : Gateway) (io : IO) (next : Handler GState) : Handler GState :=
  λ st r w,
  let lg := Logging (Some (routeLogLevel (gs_routesRef st))) (body_config (cfg_Logging (g_Config g)))
              (io_log_start io) (io_log_stop io) (io_pooled io) next st r (mkClient w []) in
  let st' := h_state (lg_run lg) in
  (lg_run lg) <| h_state := st' <| gs_log := gs_log st' ++ option_list (lg_entry lg) |> |>.

(** Any schedule, and then both goroutines until they are done. *)
Definition race_to_end (schedule : list Move) (ops : list WriterOp) : list Move :=
  schedule ++ replicate (2 * length ops + 2) MoveHandler ++ replicate 8 MoveMain.

(** [Deadline(timeout)(next)]: a panic of the handler is in a goroutine that nothing
    recovers; the process ends, and what is left of the run has no meaning. *)
Definition deadline_handler (timeout : Duration) (io : IO) (next : Handler GState) : Handler GState :=
  λ st r w,
  let run := next st r w in
  let ops := fst <$> h_ops run in
  match Deadline timeout ops (mkClient w []) with
  | inl _ => run
  | inr start =>
      match h_exit run with
      | Panicked => run <| h_exit := Returned |> <| h_state := (h_state run) <| gs_fate := Crashed |> |>
      | Returned =>
          run <| h_ops := replay (io_now io)
                   (dl_client (foldl (move r) start (race_to_end (io_schedule io) ops))) |>
      end
  end.

(** The middleware stack. *)
Definition request_handler (g : Gateway) (io : IO) : Handler GState :=
  let now := io_now io in
  let handler := limited_handler g io in
  let handler := BodyLimit (s_MaxBodyBytes (cfg_Server (g_Config g))) now handler in
  let handler := CORS DefaultCORSConfig now handler in
  let handler := logging_handler g io handler in
  let handler := SecurityHeaders now handler in
  let handler := deadline_handler (GlobalTimeout (cfg_Server (g_Config g))) io handler in
  let handler := RequestID (io_rnd io) now handler in
  Recovery now handler.

(** ** The bypass

    [current]: what [g.Reloader.Current()] returns. *)

(** The results a readiness check receives. *)
Definition readiness_arrivals (io : IO) (st : GState) : list BackendResult :=
  io_order io (probe (io_dial io) (gs_Breakers st) (io_gone io) <$> hh_routes (gs_Health st)).

Definition mux_handler (g : Gateway) (current : Config) (io : IO) : Handler GState := λ st r w,
  let run exit ops st := mkRun ((λ op, (op, io_now io)) <$> ops) exit (rq_Path r) (rq_Header r) st in
  match mux_find (mux_patterns (g_Config g)) r with
  | MuxNotFound => run Returned not_found_ops st
  | MuxRedirect path => run Returned (redirect_ops r path) st
  | MuxPattern p =>
      if decide (p = "/health") then run Returned liveness st
      else if decide (p = "/ready") then
        let '(ops, h) :=
          readiness (io_ready io) (io_ready_done io) (readiness_arrivals io st) (gs_Health st) in
        run Returned ops (st <| gs_Health := h |>)
      else
        match g_Admin g ≫= λ adm,
          admin_mux adm (gs_Breakers st) current
            (limiter_Snapshot (gs_Limiter st)) (io_page_size io) (io_page io) r
        with
        | Some (Some ops) => run Returned ops st
        | Some None => run Panicked [] st
        | None => run Returned (metrics_page (gs_events st) r) st
        end
  end.

(** [g.handler] *)
Definition handle (g : Gateway) (current : Config) (io : IO) : Handler GState := λ st r w,
  if bypasses (g_Config g) (rq_Path r) then mux_handler g current io st r w
  else request_handler g io st r w.

(** ** What happens to a gateway *)

(** The configurations [Load] returns; a window size is an [int]. *)
Definition loadable (cfg : Config) : Prop :=
  valid_config cfg ∧ cbc_WindowSize (cfg_CircuitBreaker cfg) ≤ int64_max.

Inductive gateway_event (g : Gateway)
    : Reloader GState * GState → Reloader GState * GState → Prop :=
| EventRequest rel st io r :
    gs_fate st = Alive →
    (∀ probes, io_order io probes ≡ₚ probes) →
    (∀ route, matchRoute (g_Router g) (rq_Path r) = Some route →
       enough route 1 (en_attempts (io_env io))) →
    gateway_event g (rel, st) (rel, h_state (handle g (r_current rel) io st r ∅))
| EventReload rel st loaded ok rel' st' evs :
    gs_fate st = Alive →
    (∀ cfg, loaded = Ok cfg → loadable cfg) →
    Reload loaded rel st = (ok, rel', st', evs) →
    gateway_event g (rel, st) (rel', add_events evs st')
| EventJanitor rel st now l evs :
    gs_fate st = Alive →
    evictOnce now (gs_Limiter st) = (l, evs) →
    gateway_event g (rel, st) (rel, add_events evs (st <| gs_Limiter := l |>)).

(** ** Lemmas: through the middleware *)

(** What the inner handlers are given. *)
Definition with_id (io : IO) (r : Request) : Request :=
  let given := header_Get "X-Request-Id" (rq_Header r) in
  let id := if decide (given = "") then newUUID (io_rnd io) else given in
  r <| rq_Header := header_Set "X-Request-Id" id (rq_Header r) |> <| rq_RequestID := Some id |>.

Definition prepared (g : Gateway) (io : IO) (r : Request) : Request :=
  if negb (is_nil (rq_Body r)) && negb (bool_decide (rq_ContentLength r = 0))
  then (with_id io r) <| rq_BodyLimit := Some (s_MaxBodyBytes (cfg_Server (g_Config g))) |>
  else with_id io r.

Lemma prepared_same g io r :
  rq_Path (prepared g io r) = rq_Path r ∧ rq_Method (prepared g io r) = rq_Method r ∧
  rq_RemoteAddr (prepared g io r) = rq_RemoteAddr r ∧ rq_Body (prepared g io r) = rq_Body r ∧
  ∀ k, k ≠ "X-Request-Id" → header_Get k (rq_Header (prepared g io r)) = header_Get k (rq_Header r).
Proof.
  unfold prepared. destruct (negb _ && negb _); simpl; split_and!; try done;
    intros k Hk; unfold header_Get, header_Set; by rewrite lookup_insert_ne.
Qed.

(** The parts of the state that the log and the end of the process do not concern. *)
Definition running (st : GState) : GState := st <| gs_log := [] |> <| gs_fate := Alive |>.

(** A request gets to the limiter, or the middleware answers it and changes nothing. *)
Definition passes_middleware (g : Gateway) (r : Request) : Prop :=
  rq_Method r ≠ "OPTIONS" ∧ rq_ContentLength r ≤ s_MaxBodyBytes (cfg_Server (g_Config g)).

#[export] Instance passes_middleware_dec g r : Decision (passes_middleware g r).
Proof. unfold passes_middleware. apply _. Defined.

(** An optional timeout. *)
Definition timed (g : Gateway) : Prop := 0 < GlobalTimeout (cfg_Server (g_Config g)).

#[export] Instance timed_dec g : Decision (timed g).
Proof. unfold timed. apply _. Defined.

(** What the outer handlers leave alone of a run. *)
Definition run_outcome (run : HandlerRun GState) : GState * Fate * Exit :=
  (running (h_state run), gs_fate (h_state run), h_exit run).

Lemma deadline_outcome g io next st r w :
  let run := next st r w in
  run_outcome (deadline_handler (GlobalTimeout (cfg_Server (g_Config g))) io next st r w) =
    if decide (h_exit run = Panicked ∧ timed g) then (running (h_state run), Crashed, Returned)
    else run_outcome run.
Proof.
  intros run. unfold deadline_handler, Deadline, timed, run_outcome. fold run.
  destruct (decide (_ ≤ 0)) as [Hd|Hd]; [by rewrite decide_False by lia |].
  destruct (h_exit run) eqn:He.
  - rewrite decide_False by by intros []. simpl. by rewrite He.
  - rewrite decide_True; [done | split; [done | lia]].
Qed.

Lemma before_outcome ops now next h : run_outcome (before ops now next h) = run_outcome (next (header_after ops h)).
Proof. done. Qed.

Lemma logging_outcome g io next st r w : ∃ w', run_outcome (logging_handler g io next st r w) = run_outcome (next st r w').
Proof. eexists. unfold logging_handler, run_outcome. simpl. rewrite Logging_run. done. Qed.

(** Beneath the request ID: security headers, logging, CORS and the body limit. *)
Lemma inner_outcome g io st r w next :
  let max := s_MaxBodyBytes (cfg_Server (g_Config g)) in
  let now := io_now io in
  ∃ w', run_outcome (SecurityHeaders now (logging_handler g io (CORS DefaultCORSConfig now
                   (BodyLimit max now next))) st (with_id io r) w) =
    if decide (passes_middleware g r) then run_outcome (next st (prepared g io r) w')
    else (running st, gs_fate st, Returned).
Proof.
  intros max now. unfold SecurityHeaders. rewrite before_outcome.
  match goal with |- context [logging_handler g io ?n st _ ?h] =>
    destruct (logging_outcome g io n st (with_id io r) h) as [w1 ->] end.
  unfold CORS. rewrite before_outcome. unfold BodyLimit.
  change (rq_Method (with_id io r)) with (rq_Method r).
  change (rq_ContentLength (with_id io r)) with (rq_ContentLength r).
  change (rq_Body (with_id io r)) with (rq_Body r).
  destruct (decide (passes_middleware g r)) as [[Ho Hm]|Hp].
  - eexists. rewrite (decide_False _ _ Ho), decide_False by lia. done.
  - exists w. destruct (decide (rq_Method r = "OPTIONS")) as [Ho|Ho]; [done |].
    destruct (decide (max < rq_ContentLength r)); [done |]. destruct Hp. split; [done | lia].
Qed.

(** How a run of the inner handlers ends for the process. *)
Definition fate_of (g : Gateway) (run : HandlerRun GState) : Fate :=
  if decide (h_exit run = Panicked ∧ timed g) then Crashed else gs_fate (h_state run).

Lemma deadline_outcome_as g io next st r w (run : HandlerRun GState) :
  run_outcome (next st r w) = run_outcome run →
  (run_outcome (deadline_handler (GlobalTimeout (cfg_Server (g_Config g))) io next st r w)).1 =
  (running (h_state run), fate_of g run).
Proof.
  intros Ho. rewrite deadline_outcome. unfold run_outcome, fate_of in *.
  pose proof (f_equal (fst ∘ fst) Ho) as Hs. pose proof (f_equal (snd ∘ fst) Ho) as Hf.
  pose proof (f_equal snd Ho) as He. cbn [compose fst snd] in Hs, Hf, He.
  rewrite He, Hf. case_decide; cbn [fst]; by rewrite Hs.
Qed.

Lemma Recovery_outcome now (next : Handler GState) st r w :
  run_outcome (Recovery now next st r w) = ((run_outcome (next st r w)).1, Returned).
Proof. unfold Recovery, run_outcome. destruct (h_exit (next st r w)) eqn:He; [by rewrite He | done]. Qed.

(** The chain, as far as the state is concerned: a request comes to the limiter, or
    the middleware answers it and nothing else changes. *)
Lemma request_handler_reaches g io st r w :
  ∃ w', run_outcome (request_handler g io st r w) =
    if decide (passes_middleware g r) then
      let inner := limited_handler g io st (prepared g io r) w' in
      (running (h_state inner), fate_of g inner, Returned)
    else (running st, gs_fate st, Returned).
Proof.
  unfold request_handler. rewrite Recovery_outcome. unfold RequestID. rewrite before_outcome.
  match goal with |- context [header_after ?ops w] => generalize (header_after ops w) end.
  intros w1. destruct (inner_outcome g io st r w1 (limited_handler g io)) as [w' Hi].
  exists w'. cbn zeta in *. destruct (decide (passes_middleware g r)) as [Hp|Hp].
  - fold (with_id io r). by rewrite (deadline_outcome_as g io _ _ _ _ _ Hi).
  - fold (with_id io r).
    rewrite (deadline_outcome_as g io _ _ _ _ (mkRun [] Returned "" ∅ st) Hi).
    unfold fate_of. by rewrite decide_False by by intros [].
Qed.

(** ** Lemmas: the limiter, authentication and the router *)

Lemma flow_ops ops (f : Flow) : run_ops ops f = f <| fl_client := run_ops ops (fl_client f) |>.
Proof.
  revert f. induction ops as [|[[u|code|b] t] ops IH]; intros f; [by destruct f | ..];
    simpl; rewrite IH; by destruct f.
Qed.

(** The answer of the client's bucket. *)
Definition limiter_allows (l : Limiter) (rd : Readings) (r : Request) : bool :=
  let '(rate, burst, _) := limitsForPath l (rq_Path r) in
  let '(p, l) := getLimiter (clientIP l r) rate burst rd l in
  (allow_at p (rd_allow rd) l).1.

(** What authentication asks of a request. *)
Definition auth_passes (g : Gateway) (now : Time) (r : Request) : Prop :=
  au_Enabled (cfg_Auth (g_Config g)) = true → routeRequiresAuth g (rq_Path r) = true →
  ∃ tok claims, extractBearerToken r = Some tok ∧
    validateToken tok (cfg_Auth (g_Config g)) now = Ok claims.

Lemma auth_handler_cases g io r f :
  let f' := auth_handler g io r f in
  (auth_passes g (io_auth io) r ∧ f' = router_handler g io r f) ∨
  (¬ auth_passes g (io_auth io) r ∧ fl_exit f' = fl_exit f ∧ ∃ evs, fl_state f' = add_events evs (fl_state f)).
Proof.
  intros f'. assert (∀ f : Flow, f <| fl_state := add_events [] (fl_state f) |> = f) as Hid.
  { intros []. by rewrite add_events_nil. }
  unfold f', auth_handler, AuthMiddleware, auth_passes, WriteJSON.
  destruct (au_Enabled _), (routeRequiresAuth g _); cbn [negb orb];
    try (left; split; [done | apply Hid]).
  destruct (extractBearerToken r) as [tok|] eqn:Htok.
  2: { right. split; [|rewrite flow_ops; by eauto].
       intros Hp. by destruct (Hp eq_refl eq_refl) as (? & ? & ? & ?). }
  destruct (validateToken tok _ _) as [claims|err] eqn:Hval.
  - left. rewrite Hid. eauto.
  - right. split; [|destruct (isScopeError err); rewrite flow_ops; by eauto].
    intros Hp. destruct (Hp eq_refl eq_refl) as (? & ? & ? & ?). congruence.
Qed.

(** What a reload sets of the limiter. *)
Definition limiter_settings (l : Limiter) : float64 * Z * list RouteConfig :=
  (l_rate l, l_burst l, l_routes l).

Lemma getLimiter_settings ip rate burst rd l :
  limiter_settings (getLimiter ip rate burst rd l).2 = limiter_settings l.
Proof.
  unfold getLimiter, lookup_slow.
  destruct (lookup_fast _ _ _) as [[p []]|]; [done.. |]. by destruct (find_client _ _).
Qed.

Lemma allow_at_settings p now l : limiter_settings (allow_at p now l).2 = limiter_settings l.
Proof. unfold allow_at. destruct (l_heap l !! p); [|done]. by destruct (bucket_Allow _ _). Qed.

Lemma evict_key_settings now st key :
  limiter_settings (evict_key now st key).1 = limiter_settings st.1.
Proof. unfold evict_key. destruct (find_client _ _); [|done]. by destruct (idle _ _ _). Qed.

Lemma evict_loop_settings fuel now ks start st :
  limiter_settings (evict_loop fuel now ks start st).1 = limiter_settings st.1.
Proof.
  revert start st. induction fuel as [|fuel IH]; intros start st; [done |]. simpl.
  case_decide; [|done]. rewrite IH. unfold evict_batch. clear.
  match goal with |- context [foldl _ _ ?keys] => revert st; induction keys as [|k l IH] end; intros st;
    [done |]. simpl. by rewrite IH, evict_key_settings.
Qed.

Lemma evictOnce_settings now l : limiter_settings (evictOnce now l).1 = limiter_settings l.
Proof.
  unfold evictOnce. case_decide; [done |].
  pose proof (evict_loop_settings (length (expired_keys now l)) now (expired_keys now l) 0 (l, 0%nat)).
  by destruct (evict_loop _ _ _ _ _) as [l' n].
Qed.

Definition new_flow (st : GState) (r : Request) (w : Header) : Flow :=
  mkFlow (mkClient w []) st Returned (rq_Path r) (rq_Header r).

(** A request comes to the router, or only the limiter's state and the metrics
    change. *)
Lemma limited_handler_cases g io st r w :
  let run := limited_handler g io st r w in
  let f := router_handler g io r (new_flow st r w) in
  ∃ l evs, limiter_settings l = limiter_settings (gs_Limiter st) ∧
   ((limiter_allows (gs_Limiter st) (io_rate io) r = true ∧ auth_passes g (io_auth io) r ∧
       h_exit run = fl_exit f ∧ h_state run = add_events evs ((fl_state f) <| gs_Limiter := l |>)) ∨
    (¬ (limiter_allows (gs_Limiter st) (io_rate io) r = true ∧ auth_passes g (io_auth io) r) ∧
       h_exit run = Returned ∧ h_state run = add_events evs (st <| gs_Limiter := l |>))).
Proof.
  intros run f. unfold run, limited_handler, RateLimitMiddleware, limiter_allows.
  destruct (limitsForPath _ _) as [[rate burst] prefix].
  pose proof (getLimiter_settings (clientIP (gs_Limiter st) r) rate burst (io_rate io) (gs_Limiter st)) as Hl1.
  destruct (getLimiter _ _ _ _ _) as [p l1].
  pose proof (allow_at_settings p (rd_allow (io_rate io)) l1) as Hl2.
  destruct (allow_at p _ l1) as [ok l2]. cbn [fst snd] in *.
  fold (new_flow st r w). exists l2.
  assert (limiter_settings l2 = limiter_settings (gs_Limiter st)) as Hl by congruence. clear Hl1 Hl2.
  destruct ok.
  - destruct (auth_handler_cases g io r (new_flow st r w)) as [[Ha ->]|(Hno & He & evs & Hs)].
    + exists []. split; [done |]. left. by split_and!.
    + exists evs. split; [done |]. right. simpl. rewrite He, Hs.
      split; [by intros [_ ?] | split; [done | apply add_events_nil]].
  - eexists. split; [done |]. right. unfold reject, WriteJSON. rewrite flow_ops.
    split; [by intros [? _] | done].
Qed.

(** ** Lemmas: the invariant *)

(** Between requests every breaker is in order and its bulkhead empty. *)
Definition table_ok (bs : gmap string CompositeBreaker) : Prop :=
  map_Forall (λ _ b, composite_ok b ∧ slots b = 0) bs.

Lemma table_ok_insert bs k b b' :
  table_ok bs → bs !! k = Some b → ac_keeps b b' 0 →
  table_ok (<[k := b']> bs) ∧ dom (<[k := b']> bs) = dom bs.
Proof.
  intros Hok Hb (Hok' & Hs & _). destruct (Hok k b Hb) as [_ Hz]. split.
  - apply map_Forall_insert_2; [|done]. simpl in *. split; [done | lia].
  - rewrite dom_insert_L. apply elem_of_dom_2 in Hb. set_solver.
Qed.

Record state_ok (g : Gateway) (st : GState) : Prop := {
  so_breakers : table_ok (gs_Breakers st);
  so_backends : dom (gs_Breakers st) = list_to_set (r_Backend <$> rt_routes (g_Router g));
  so_fate : gs_fate st ≠ Stuck
}.

Definition enough_attempts (g : Gateway) (io : IO) (path : string) : Prop :=
  ∀ route, matchRoute (g_Router g) path = Some route → enough route 1 (en_attempts (io_env io)).

Lemma router_handler_ok g io r f :
  resolves (g_Router g) → state_ok g (fl_state f) → enough_attempts g io (rq_Path r) →
  let f' := router_handler g io r f in
  state_ok g (fl_state f') ∧ gs_fate (fl_state f') = gs_fate (fl_state f) ∧
  (fl_exit f' = Panicked → ∃ a, a ∈ en_attempts (io_env io) ∧ at_ending a = Aborted).
Proof.
  intros Hrt [Hbs Hdom Hfate] Hen f'.
  destruct (ServeHTTP_runs (g_Router g) (g_Metrics g) (gs_Breakers (fl_state f)) (io_env io) r
    (fl_client f)) as (exit & sv & Hs & Hb & Hp); [done | | done |].
  { intros k b Hk. by destruct (Hbs k b Hk). }
  unfold f', router_handler. rewrite Hs. simpl. split; [|by split].
  destruct (matchRoute _ _) as [route|] eqn:Hm; [|by split].
  destruct (sv_breaker sv) as [b'|] eqn:Hsv; [|by split].
  destruct (Hb b' eq_refl) as (route' & b & [= <-] & Hlook & Hkeep).
  destruct (table_ok_insert _ _ _ b' Hbs Hlook Hkeep) as [Hbs' Hd].
  split; [done | simpl; by rewrite Hd | done].
Qed.

Lemma running_state_ok g st st' :
  state_ok g st → running st' = running st → gs_fate st' ≠ Stuck → state_ok g st'.
Proof.
  intros [Hb Hd _] Hr Hf.
  assert (gs_Breakers st' = gs_Breakers st) as He by exact (f_equal gs_Breakers Hr).
  split; [by rewrite He.. | done].
Qed.

Lemma limited_handler_ok g io st r w :
  resolves (g_Router g) → state_ok g st → enough_attempts g io (rq_Path r) →
  let run := limited_handler g io st r w in
  state_ok g (h_state run) ∧ gs_fate (h_state run) = gs_fate st ∧
  (h_exit run = Panicked → ∃ a, a ∈ en_attempts (io_env io) ∧ at_ending a = Aborted).
Proof.
  intros Hrt Hok Hen run.
  destruct (limited_handler_cases g io st r w) as (l & evs & Hl & [(_ & _ & He & Hs)|(_ & He & Hs)]);
    fold run in He, Hs; rewrite He, Hs.
  - destruct (router_handler_ok g io r (new_flow st r w) Hrt Hok Hen) as ([] & Hf & Hp).
    split; [by split | by split].
  - destruct Hok. split; [by split | done].
Qed.

(** One request, by whichever way it goes. *)
Lemma handle_ok g cur io st r w :
  resolves (g_Router g) → state_ok g st → gs_fate st = Alive → enough_attempts g io (rq_Path r) →
  let run := handle g cur io st r w in
  state_ok g (h_state run) ∧
  (gs_fate (h_state run) = Crashed →
     timed g ∧ ∃ a, a ∈ en_attempts (io_env io) ∧ at_ending a = Aborted).
Proof.
  intros Hrt Hok Halive Hen run. unfold run, handle.
  destruct (bypasses (g_Config g) (rq_Path r)).
  - assert (∀ st', gs_Breakers st' = gs_Breakers st → gs_fate st' = gs_fate st →
      state_ok g st' ∧ (gs_fate st' = Crashed → timed g ∧ ∃ a, a ∈ en_attempts (io_env io) ∧
        at_ending a = Aborted)) as Hsame.
    { intros st' Hb Hf. destruct Hok as [Hb' Hd Hs]. split; [split; by rewrite ?Hb, ?Hf | rewrite Hf, Halive; done]. }
    unfold mux_handler. destruct (mux_find _ _) as [p| |]; [|by apply Hsame..].
    case_decide; [by apply Hsame |]. case_decide.
    { destruct (readiness _ _ _ _) as [ops h]. by apply Hsame. }
    destruct (g_Admin g ≫= _) as [[ops|]|]; by apply Hsame.
  - destruct (request_handler_reaches g io st r w) as [w' Ho].
    set (run' := request_handler g io st r w) in *.
    assert (running (h_state run') = (run_outcome run').1.1) as Hs by done.
    assert (gs_fate (h_state run') = (run_outcome run').1.2) as Hf by done.
    rewrite Ho in Hs, Hf. clear Ho. destruct (decide (passes_middleware g r)).
    + destruct (prepared_same g io r) as (Hpath & _).
      destruct (limited_handler_ok g io st (prepared g io r) w') as (Hok' & Hf' & Hp); [done.. | |].
      { by rewrite Hpath. }
      cbn [fst snd] in Hs, Hf. unfold fate_of in Hf. rewrite Hf', Halive in Hf.
      destruct (decide (_ ∧ timed g)) as [[He Ht]|Hn]; rewrite Hf.
      * split; [|by auto]. apply (running_state_ok g _ _ Hok' Hs). by rewrite Hf.
      * split; [|done]. apply (running_state_ok g _ _ Hok' Hs). by rewrite Hf.
    + cbn [fst snd] in Hs, Hf. rewrite Hf, Halive. split; [|done].
      apply (running_state_ok g _ _ Hok Hs). by rewrite Hf, Halive.
Qed.

(** What a reload sets, the breakers apart. *)
Definition settings (st : GState) : list RouteConfig * (float64 * Z * list RouteConfig) :=
  (gs_routesRef st, limiter_settings (gs_Limiter st)).

Definition config_settings (cfg : Config) : list RouteConfig * (float64 * Z * list RouteConfig) :=
  (cfg_Routes cfg,
   (rl_RequestsPerSecond (cfg_RateLimit cfg), rl_BurstSize (cfg_RateLimit cfg), cfg_Routes cfg)).

Lemma router_handler_settings g io r f :
  settings (fl_state (router_handler g io r f)) = settings (fl_state f).
Proof. unfold router_handler. by destruct (ServeHTTP _ _ _ _ _ _) as [[exit sv]|]. Qed.

Lemma limited_handler_settings g io st r w :
  settings (h_state (limited_handler g io st r w)) = settings st.
Proof.
  destruct (limited_handler_cases g io st r w) as (l & evs & Hl & [(_ & _ & _ & ->)|(_ & _ & ->)]);
    unfold settings; simpl; rewrite Hl; [|done].
  exact (f_equal (λ p, (p.1, limiter_settings (gs_Limiter st)))
    (router_handler_settings g io r (new_flow st r w))).
Qed.

Lemma handle_settings g cur io st r w : settings (h_state (handle g cur io st r w)) = settings st.
Proof.
  unfold handle. destruct (bypasses _ _).
  - unfold mux_handler. destruct (mux_find _ _) as [p| |]; [|done..]. case_decide; [done |].
    case_decide; [by destruct (readiness _ _ _ _) |]. by destruct (g_Admin g ≫= _) as [[ops|]|].
  - destruct (request_handler_reaches g io st r w) as [w' Ho].
    change (settings (h_state (request_handler g io st r w)))
      with (settings (run_outcome (request_handler g io st r w)).1.1).
    rewrite Ho. destruct (decide _); [|done]. exact (limited_handler_settings g io st (prepared g io r) w').
Qed.

(** ** Lemmas: construction and reload *)

Lemma build_breakers_ok cfg m routes :
  cb_config_ok cfg → table_ok (build_breakers cfg m routes) ∧
  dom (build_breakers cfg m routes) = list_to_set (r_Backend <$> routes).
Proof.
  intros Hcfg. induction routes as [|route routes [IH1 IH2]] using rev_ind; [done |].
  unfold build_breakers in *. rewrite foldl_app, fmap_app, list_to_set_app_L, <-IH2. simpl.
  match goal with |- context [?bs !! r_Backend route] => set (bs' := bs) in * end.
  destruct (bs' !! r_Backend route) eqn:Hb.
  - split; [done |]. apply elem_of_dom_2 in Hb. set_solver.
  - split; [|rewrite dom_insert_L; set_solver].
    apply map_Forall_insert_2; [by apply NewComposite_ok | done].
Qed.

Lemma build_breakers_fresh cfg m routes :
  map_Forall (λ k b, b = NewComposite k cfg m) (build_breakers cfg m routes).
Proof.
  induction routes as [|route routes IH] using rev_ind; [apply map_Forall_empty |].
  unfold build_breakers in *. rewrite foldl_app. simpl.
  destruct (_ !! r_Backend route); [done | by apply map_Forall_insert_2].
Qed.

Lemma loadable_cb cfg : loadable cfg → cb_config_ok (cb_config (cfg_CircuitBreaker cfg)).
Proof.
  intros [(_ & _ & _ & (Hw & _ & _ & _ & _ & Hm & _) & _) Hmax]. unfold cb_config_ok. simpl. lia.
Qed.

Lemma update_table_ok cfg bs :
  loadable cfg → table_ok bs →
  table_ok ((λ b, composite_UpdateConfig b (cb_config (cfg_CircuitBreaker cfg))) <$> bs).
Proof.
  intros Hcfg Hbs. apply map_Forall_fmap. intros k b Hb. destruct (Hbs k b Hb) as [Hok Hs].
  destruct (loadable_cb _ Hcfg) as [Hw _].
  destruct (keeps_weaken _ _ _ (UpdateConfig_keeps b _ Hw Hok)) as (? & Hs' & _).
  simpl. split; [done | lia].
Qed.

(** A gateway together with its reloader, between events. *)
Record gateway_ok (g : Gateway) (rel : Reloader GState) (st : GState) : Prop := {
  go_state : state_ok g st;
  go_observers : r_observers rel = [gateway_OnReload];
  go_legacy : r_legacyCallbacks rel = [];
  go_current : loadable (r_current rel);
  go_follows : settings st = config_settings (r_current rel)
}.

(** The gateway accepts every configuration that loads. *)
Lemma reload_accepted g rel st newCfg :
  gateway_ok g rel st →
  Reload (Ok newCfg) rel st =
    (true, rel <| r_current := newCfg |>, (gateway_OnReload (r_current rel) newCfg st).2, []).
Proof. intros [_ Hobs Hleg _ _]. unfold Reload. simpl. by rewrite Hobs, Hleg. Qed.

Lemma reload_ok g rel st newCfg :
  gateway_ok g rel st → loadable newCfg →
  gateway_ok g (rel <| r_current := newCfg |>) (gateway_OnReload (r_current rel) newCfg st).2.
Proof.
  intros [[Hb Hd Hf] Hobs Hleg Hcur Hset] Hnew. split; [|done..].
  split; [by apply update_table_ok | by simpl; rewrite dom_fmap_L | done].
Qed.

Lemma loadable_router cfg : loadable cfg → ∃ router, NewRouter (cfg_Routes cfg) = Ok router.
Proof.
  intros [(_ & _ & _ & _ & _ & _ & _ & Hv & _) _]. unfold NewRouter.
  destruct (build_proxies_total (sort_routes (cfg_Routes cfg)) (∅, ∅)) as [_ Hb].
  destruct Hb as [[ps ks] ->]; [|by eexists]. rewrite sort_routes_perm.
  apply (Forall_impl _ _ _ Hv). intros r (_ & _ & _ & (u & Hu & _) & _). by exists u.
Qed.

Lemma NewGateway_ok cfg tls g rel st :
  loadable cfg → NewGateway cfg tls = BuildOk g rel st →
  resolves (g_Router g) ∧ rt_routes (g_Router g) ≡ₚ cfg_Routes cfg ∧ g_Config g = cfg ∧
  gateway_ok g rel st ∧ gs_fate st = Alive ∧ gs_forwarded st = [].
Proof.
  intros Hcfg Hnew. unfold NewGateway in Hnew.
  destruct (NewRouter (cfg_Routes cfg)) as [router|e] eqn:Hr; [|done].
  assert (∃ loader, g = mkGateway cfg (metrics_IsEnabled (cfg_Metrics cfg)) router
      (if adm_Enabled (cfg_Admin cfg)
       then Some (NewAdmin (cfg_Routes cfg) (adm_IPAllowlist (cfg_Admin cfg))) else None)
      (build_server (cfg_Server cfg)) loader ∧
    rel = new_reloader cfg (metrics_IsEnabled (cfg_Metrics cfg)) ∧
    st = new_state cfg (metrics_IsEnabled (cfg_Metrics cfg))) as (loader & -> & -> & ->).
  { case_decide; [|done]. repeat case_match; simplify_eq; eauto. }
  assert (rt_routes router ≡ₚ cfg_Routes cfg) as Hperm.
  { unfold NewRouter in Hr. destruct (build_proxies _ _) as [[ps ks]|]; [|done].
    injection Hr as <-. apply sort_routes_perm. }
  destruct (build_breakers_ok (cb_config (cfg_CircuitBreaker cfg))
    (metrics_IsEnabled (cfg_Metrics cfg)) (cfg_Routes cfg)) as [Hb Hd]; [by apply loadable_cb |].
  split_and!; try done.
  - eapply NewRouter_all_resolve; [|exact Hr]. by destruct Hcfg as [(_ & _ & _ & _ & _ & _ & _ & _ & ?) _].
  - assert (r_current (new_reloader cfg (metrics_IsEnabled (cfg_Metrics cfg))) = cfg) as Hcur
      by (unfold new_reloader; by destruct (metrics_IsEnabled _)).
    split; rewrite ?Hcur; [|unfold new_reloader; by destruct (metrics_IsEnabled _)..|done|done].
    + split; [done | | done]. simpl. rewrite Hd. apply list_to_set_perm_L. simpl.
      by rewrite Hperm.
Qed.

(** Every event keeps what holds of a gateway. *)
Lemma event_ok g rel st rel' st' :
  resolves (g_Router g) → gateway_event g (rel, st) (rel', st') → gateway_ok g rel st →
  gateway_ok g rel' st' ∧ (gs_fate st' = Crashed → timed g).
Proof.
  intros Hrt Hev [Hst Hobs Hleg Hcur Hset].
  inversion Hev as [rel1 st1 io r Halive Horder Hen|rel1 st1 loaded ok rel2 st2 evs Halive Hload Hrel
    |rel1 st1 now l evs Halive Hevict]; subst.
  - destruct (handle_ok g (r_current rel') io st r ∅ Hrt Hst Halive Hen) as [Hst' Hcr].
    split; [|intros Hc; by destruct (Hcr Hc)]. split; [done..|]. by rewrite handle_settings.
  - assert (gs_fate (add_events evs st2) = gs_fate st2) as Hsame by done. rewrite Hsame.
    destruct loaded as [newCfg|e].
    + rewrite (reload_accepted g) in Hrel by done. injection Hrel as <- <- <- <-.
      rewrite add_events_nil. split; [by apply (reload_ok g rel st newCfg); [|apply Hload] |].
      simpl. congruence.
    + injection Hrel as <- <- <- <-. rewrite add_events_nil. split; [done | congruence].
  - simpl. split; [|congruence]. destruct Hst. split; [by split | done.. |].
    rewrite <-Hset. unfold settings. simpl. pose proof (evictOnce_settings now (gs_Limiter st)) as He.
    rewrite Hevict in He. by rewrite <-He.
Qed.

Lemma events_ok g w w' :
  resolves (g_Router g) → rtc (gateway_event g) w w' → gateway_ok g w.1 w.2 → gateway_ok g w'.1 w'.2.
Proof.
  intros Hrt. induction 1 as [|[rel1 st1] [rel2 st2] w' Hxy _ IH]; [done |]. intros Hok.
  by apply IH, (event_ok g rel1 st1).
Qed.

(** A gateway that was built from a loadable configuration, after any events. *)
Definition reachable (cfg : Config) (g : Gateway) (rel : Reloader GState) (st : GState) : Prop :=
  ∃ tls rel0 st0, loadable cfg ∧ NewGateway cfg tls = BuildOk g rel0 st0 ∧
    rtc (gateway_event g) (rel0, st0) (rel, st).

Lemma reachable_ok cfg g rel st :
  reachable cfg g rel st →
  resolves (g_Router g) ∧ rt_routes (g_Router g) ≡ₚ cfg_Routes cfg ∧ g_Config g = cfg ∧
  gateway_ok g rel st ∧ (gs_fate st = Crashed → timed g).
Proof.
  intros (tls & rel0 & st0 & Hcfg & Hnew & Hsteps).
  destruct (NewGateway_ok _ _ _ _ _ Hcfg Hnew) as (Hrt & Hperm & Hc & Hok & Halive & _).
  split_and!; [done.. | by apply (events_ok g (rel0, st0) (rel, st)) |]. intros Hcr.
  apply rtc_inv_r in Hsteps as [[= -> ->]|([rel1 st1] & Hsteps & Hlast)]; [congruence |].
  destruct (event_ok g rel1 st1 rel st Hrt Hlast); [|by auto].
  by apply (events_ok g (rel0, st0) (rel1, st1)).
Qed.

(** Nothing the limiter or authentication looks at is changed on the way to them. *)
Lemma prepared_gates g io r l now :
  limiter_allows l (io_rate io) (prepared g io r) = limiter_allows l (io_rate io) r ∧
  (auth_passes g now (prepared g io r) ↔ auth_passes g now r).
Proof.
  destruct (prepared_same g io r) as (Hp & _ & Ha & _ & Hh).
  assert (clientIP l (prepared g io r) = clientIP l r) as Hip
    by (unfold clientIP; by rewrite Ha, !Hh).
  assert (extractBearerToken (prepared g io r) = extractBearerToken r) as Htok
    by (unfold extractBearerToken; by rewrite !Hh).
  unfold limiter_allows, auth_passes. by rewrite Hp, Hip, Htok.
Qed.

(** ** Properties *)

(** C2. A running gateway stays sound: built from a configuration that [Load] returns,
    it has after any sequence of requests, reloads -- of files that load or do
    not -- and janitor passes a breaker for the backend of every route, in order
    and with an empty bulkhead; no breaker call has panicked or blocked; limits
    and log levels are those of the reloader's current configuration, which is
    one that loads; and the process has not died, unless a global timeout is
    configured. *)
Theorem gateway_invariant (cfg : Config) (g : Gateway) (rel : Reloader GState) (st : GState) :
  reachable cfg g rel st →
  (∀ route, route ∈ cfg_Routes cfg →
     ∃ b, gs_Breakers st !! r_Backend route = Some b ∧ composite_ok b ∧ slots b = 0) ∧
  loadable (r_current rel) ∧ settings st = config_settings (r_current rel) ∧
  gs_fate st ≠ Stuck ∧ (gs_fate st = Crashed → 0 < GlobalTimeout (cfg_Server cfg)).
Proof.
  intros Hr. destruct (reachable_ok cfg g rel st Hr) as (_ & Hperm & Hc & [[Hb Hd Hf] _ _ Hcur Hset] & Hcr).
  unfold timed in Hcr. rewrite Hc in Hcr. split_and!; try done. intros route Hroute.
  assert (r_Backend route ∈ dom (gs_Breakers st)) as [b Hlook]%elem_of_dom.
  { rewrite Hd, elem_of_list_to_set, Hperm. by apply list_elem_of_fmap_2. }
  exists b. split; [done |]. exact (Hb _ _ Hlook).
Qed.

(** C3. Only requests that passed every gate reach a backend: what one request makes
    the gateway send is, for a path beside the bypass, a method that is not
    OPTIONS and a declared length within the limit, admitted by the client's
    bucket and -- where the route the gateway was built with requires it -- by a
    token that validates, its path matched, its method allowed and the breaker of
    its backend closed enough; it is the client's request with its ID, its body
    limited, rewritten by that route. *)
Theorem forwarded_requests_are_guarded (g : Gateway) (cur : Config) (io : IO) (st : GState)
    (r : Request) (w : Header) :
  let sent := gs_forwarded (h_state (handle g cur io st r w)) in
  ∃ new, sent = gs_forwarded st ++ new ∧ ∀ fr, fr ∈ new →
    bypasses (g_Config g) (rq_Path r) = false ∧ passes_middleware g r ∧
    limiter_allows (gs_Limiter st) (io_rate io) r = true ∧ auth_passes g (io_auth io) r ∧
    ∃ route, matchRoute (g_Router g) (rq_Path r) = Some route ∧
      method_allowed (g_Router g) route (rq_Method r) = true ∧
      (∀ b, gs_Breakers st !! r_Backend route = Some b →
         (composite_Allow b (en_start (io_env io))).1.1 = true) ∧
      fr = (rewrite_request route (prepared g io r), route_Timeout route).
Proof.
  intros sent. unfold sent, handle. destruct (bypasses (g_Config g) (rq_Path r)) eqn:Hbyp.
  { exists []. split; [|by intros fr ?%elem_of_nil]. rewrite app_nil_r. unfold mux_handler.
    destruct (mux_find _ _) as [p| |]; [|done..]. case_decide; [done |].
    case_decide; [by destruct (readiness _ _ _ _) |]. by destruct (g_Admin g ≫= _) as [[ops|]|]. }
  destruct (request_handler_reaches g io st r w) as [w' Ho].
  change (gs_forwarded (h_state (request_handler g io st r w)))
    with (gs_forwarded (run_outcome (request_handler g io st r w)).1.1).
  rewrite Ho. clear Ho sent.
  destruct (decide (passes_middleware g r)) as [Hpass|Hno];
    [|exists []; split; [by rewrite app_nil_r | by intros fr ?%elem_of_nil]].
  set (r' := prepared g io r). cbn [fst]. change (gs_forwarded (running ?s)) with (gs_forwarded s).
  destruct (limited_handler_cases g io st r' w') as (l & evs & _ & [(Hl & Ha & _ & Hs)|(_ & _ & Hs)]);
    rewrite Hs; [|exists []; split; [by rewrite app_nil_r | by intros fr ?%elem_of_nil]].
  destruct (prepared_gates g io r (gs_Limiter st) (io_auth io)) as [Hl' Ha'].
  fold r' in Hl', Ha'. rewrite Hl' in Hl. apply Ha' in Ha.
  change (gs_forwarded (add_events evs ((fl_state ?f) <| gs_Limiter := l |>)))
    with (gs_forwarded (fl_state f)).
  unfold router_handler.
  destruct (ServeHTTP _ _ _ _ _ _) as [[exit sv]|] eqn:Hserve;
    [|exists []; split; [by rewrite app_nil_r | by intros fr ?%elem_of_nil]].
  exists (sv_forwarded sv). split; [done |]. intros fr Hfr.
  destruct (ServeHTTP_forwards _ _ _ _ _ _ _ _ Hserve fr Hfr) as (route & Hm & Hmeth & Hb & Hfr').
  destruct (prepared_same g io r) as (Hp & Hme & _). fold r' in Hp, Hme. rewrite Hp in Hm. rewrite Hme in Hmeth.
  split_and!; [done..|]. exists route. by split_and!.
Qed.

(** C21. A running gateway accepts every configuration that loads, so a reload that no
    other overlaps is never rolled back. After it the limiter's
    rate, burst and routes and the log levels are those of the new configuration, all
    clients start with fresh buckets, and every breaker's core has its parameters;
    applying the same configuration again changes nothing. The rest stays: the router
    has the routes of the start, and authentication and everything else that reads the
    gateway's own configuration the settings of the start. *)
Theorem reload_takes_effect (cfg : Config) (g : Gateway) (rel : Reloader GState) (st : GState)
    (newCfg : Config) :
  reachable cfg g rel st → loadable newCfg →
  ∃ st', Reload (Ok newCfg) rel st = (true, rel <| r_current := newCfg |>, st', []) ∧
    settings st' = config_settings newCfg ∧ l_clients (gs_Limiter st') = [] ∧
    (∀ k, gs_Breakers st' !! k =
       (λ b, composite_UpdateConfig b (cb_config (cfg_CircuitBreaker newCfg)))
         <$> gs_Breakers st !! k) ∧
    map_Forall (λ _ b, composite_ok b ∧ slots b = 0) (gs_Breakers st') ∧
    gateway_OnReload newCfg newCfg st' = (Accepted, st') ∧
    g_Config g = cfg ∧ rt_routes (g_Router g) ≡ₚ cfg_Routes cfg.
Proof.
  intros Hr Hnew. destruct (reachable_ok cfg g rel st Hr) as (_ & Hroutes & Hcfg & Hok & _).
  rewrite (reload_accepted g rel st newCfg Hok). eexists. split; [done |].
  destruct (reload_ok g rel st newCfg Hok Hnew) as [[Hb _ _] _ _ _ _].
  split_and!; [done..| | done | | done | done].
  - intros k. simpl. by rewrite lookup_fmap.
  - unfold gateway_OnReload. f_equal. simpl. rewrite <-map_fmap_compose.
    unfold update. simpl. f_equal. apply map_fmap_ext. intros k b Hk. apply composite_UpdateConfig_idemp.
Qed.

(** C29. An aborted response is not contained: when the first attempt of an admitted
    request aborts -- which is how the reverse proxy breaks off a response that
    its backend does not complete -- the process dies if a global timeout is
    configured, because the handler then runs in a goroutine of its own; without
    one the panic is recovered. *)
Theorem aborted_response_ends_the_process (cfg : Config) (g : Gateway) (rel : Reloader GState)
    (st : GState) (cur : Config) (io : IO) (r : Request) (w : Header) (route : RouteConfig)
    (a : Attempt) (rest : list Attempt) :
  reachable cfg g rel st → gs_fate st = Alive →
  bypasses cfg (rq_Path r) = false → passes_middleware g r →
  limiter_allows (gs_Limiter st) (io_rate io) r = true → auth_passes g (io_auth io) r →
  matchRoute (g_Router g) (rq_Path r) = Some route →
  method_allowed (g_Router g) route (rq_Method r) = true →
  (∀ b, gs_Breakers st !! r_Backend route = Some b →
     (composite_Allow b (en_start (io_env io))).1.1 = true) →
  en_attempts (io_env io) = a :: rest → enough route 1 (en_attempts (io_env io)) →
  at_cancelled a = false → at_ending a = Aborted →
  let run := handle g cur io st r w in
  h_exit run = Returned ∧
  gs_fate (h_state run) = if decide (0 < GlobalTimeout (cfg_Server cfg)) then Crashed else Alive.
Proof.
  intros Hr Halive Hbyp Hpass Hl Ha Hm Hmeth Hadm Henv Hen Hc Hab run.
  destruct (reachable_ok cfg g rel st Hr) as (Hrt & _ & Hcfg & [[Hb _ _] _ _ _ _] & _).
  unfold run, handle. rewrite Hcfg, Hbyp.
  destruct (request_handler_reaches g io st r w) as [w' Ho]. rewrite decide_True in Ho by done.
  split; [exact (f_equal snd Ho) |]. pose proof (f_equal (snd ∘ fst) Ho) as Hf.
  cbn [compose fst snd] in Hf. unfold run_outcome in Hf. cbn [fst snd] in Hf. rewrite Hf.
  destruct (prepared_gates g io r (gs_Limiter st) (io_auth io)) as [Hl' Ha'].
  destruct (limited_handler_cases g io st (prepared g io r) w')
    as (l & evs & _ & [(_ & _ & He & Hs)|([] & _)]); [|by rewrite Hl', Ha'].
  destruct (prepared_same g io r) as (Hp & Hme & _).
  destruct (ServeHTTP_aborts (g_Router g) (g_Metrics g) (gs_Breakers st) (io_env io)
    (prepared g io r) (mkClient w' []) route a rest) as [sv Hsv]; rewrite ?Hp, ?Hme; try done.
  { intros k b Hk. by destruct (Hb k b Hk). }
  unfold fate_of. rewrite He, Hs. unfold router_handler. cbn [new_flow fl_state fl_client]. rewrite Hsv.
  assert (timed g ↔ 0 < GlobalTimeout (cfg_Server cfg)) as Ht by (unfold timed; by rewrite Hcfg).
  destruct (decide (0 < GlobalTimeout (cfg_Server cfg))) as [H0'|H0'].
  - by rewrite decide_True by (split; [done | by apply Ht]).
  - by rewrite decide_False by (intros [_ ?%Ht]; done).
Qed.

(** What [NewGateway] does with a configuration that [Load] returns: it panics
    exactly when the metrics path has no slash or is one of the health or admin
    endpoints -- the validation allows that -- and fails exactly when the
    certificate does; otherwise the gateway has a resolving router for just the
    configured routes, a fresh breaker for each backend and none else, settings
    and reloader of this configuration, and serves no TLS below 1.2. *)
Theorem NewGateway_spec (cfg : Config) (tls : result (CertLoader Cert) string) :
  loadable cfg →
  (metrics_path_refused cfg → NewGateway cfg tls = BuildPanic) ∧
  (¬ metrics_path_refused cfg → ∀ e, tls_Enabled (s_TLS (cfg_Server cfg)) = true → tls = Err e →
     NewGateway cfg tls = BuildErr ("loading TLS certificate: " +:+ e)) ∧
  (¬ metrics_path_refused cfg →
     (tls_Enabled (s_TLS (cfg_Server cfg)) = true → ∃ loader, tls = Ok loader) →
     ∃ g rel st, NewGateway cfg tls = BuildOk g rel st ∧ g_Config g = cfg ∧
       rt_routes (g_Router g) ≡ₚ cfg_Routes cfg ∧ resolves (g_Router g) ∧
       dom (gs_Breakers st) = list_to_set (r_Backend <$> cfg_Routes cfg) ∧
       map_Forall (λ k b, b = NewComposite k (cb_config (cfg_CircuitBreaker cfg))
                                (metrics_IsEnabled (cfg_Metrics cfg))) (gs_Breakers st) ∧
       settings st = config_settings cfg ∧ r_current rel = cfg ∧ r_observers rel = [gateway_OnReload] ∧
       (∀ v, srv_MinVersion (g_Server g) = Some v → VersionTLS12 ≤ v)).
Proof.
  intros Hcfg. destruct (loadable_router cfg Hcfg) as [router Hr].
  split_and!.
  - intros Ht. unfold NewGateway. rewrite Hr, decide_False; [done |].
    intros Hn. by apply mux_registers_iff in Hn.
  - intros Ht e Hen ->. apply mux_registers_iff in Ht. unfold NewGateway.
    by rewrite Hr, (decide_True _ _ Ht), Hen.
  - intros Ht Htls. apply mux_registers_iff in Ht.
    assert (∃ g rel st, NewGateway cfg tls = BuildOk g rel st ∧
      st = new_state cfg (metrics_IsEnabled (cfg_Metrics cfg)) ∧ g_Server g = build_server (cfg_Server cfg))
      as (g & rel & st & Hnew & Hst & Hsrv).
    { unfold NewGateway. rewrite Hr, (decide_True _ _ Ht).
      destruct (tls_Enabled _); [destruct (Htls eq_refl) as [loader ->]|]; eauto 7. }
    exists g, rel, st.
    destruct (NewGateway_ok _ _ _ _ _ Hcfg Hnew) as (Hres & Hperm & Hc & [[_ Hd _] Hobs _ _ Hset] & _).
    assert (r_current rel = cfg) as Hcur.
    { revert Hnew. unfold NewGateway, new_reloader. repeat case_match; by intros [= _ <- _]. }
    rewrite Hcur in Hset. split_and!; try done.
    + rewrite Hd. apply list_to_set_perm_L. by rewrite Hperm.
    + rewrite Hst. simpl. apply build_breakers_fresh.
    + rewrite Hsrv. unfold build_server, VersionTLS12. simpl. intros v.
      repeat case_match; intros [= <-]; [unfold VersionTLS13; lia | unfold VersionTLS12; lia].
Qed.
End gateway.

(** ** Witnesses *)

#[local] Existing Instances unrefilled toy_jwt merge_sorted demo_fmt plain_json.
#[local] Instance demo_config_lib : ConfigLib := demo_lib (empty_config []).

Definition demo_config : Config := Eval vm_compute in
  let cfg := applyDefaults (empty_config [demo_route]) in
  cfg <| cfg_RateLimit := mkRateLimit (f64 5) 2 0 0 |>
      <| cfg_Server := (cfg_Server cfg) <| s_GlobalTimeoutMs := 1000 |> |>.

Lemma demo_loadable : loadable demo_config.
Proof.
  split; [|by vm_compute]. unfold valid_config. split_and!.
  - vm_compute. intuition (done || lia).
  - split_and!; [right; by vm_compute | by vm_compute..].
  - done.
  - unfold valid_circuit_breaker. split_and!; try (by vm_compute).
    right. split; by vm_compute.
  - split; [by left | done].
  - done.
  - done.
  - constructor; [|constructor]. unfold valid_route. split_and!; try done.
    + eexists. split; [done |]. split; [by left | done].
    + by left.
  - by apply (bool_decide_unpack _).
Qed.

(** Without a certificate and with trivial pages. *)
Definition demo_built : Built (Cert := unit) := NewGateway demo_config (Err "no certificate").

Definition demo_gateway : Gateway (Cert := unit) :=
  match demo_built with
  | BuildOk g _ _ => g
  | _ => mkGateway demo_config true demo_router None (build_server (cfg_Server demo_config)) None
  end.

Definition demo_reloader : Reloader GState := new_reloader demo_config true.
Definition demo_state : GState := new_state demo_config true.

Lemma demo_built_ok : demo_built = BuildOk demo_gateway demo_reloader demo_state.
Proof. by vm_compute. Qed.

Definition no_page : list MetricEvent → Request → list WriterOp := λ _ _, [].

(** One attempt, ending as given. *)
Definition demo_io (ending : Ending) : IO :=
  mkIO 0 (seqZ 0 16) [MoveHandler; MoveHandler] 0 0 (mkCapture "" 0 "") (mkReadings 1 2 3) 4
    (mkServeEnv 5 [mkAttempt false 6 [(OpWriteHeader 200, 7); (OpWrite "hello", 8)] ending 9] 10)
    0 0 (λ _, true) false id "" "".

Definition demo_handle (ending : Ending) (r : Request) : HandlerRun GState :=
  handle no_page demo_gateway (r_current demo_reloader) (demo_io ending) demo_state r ∅.

Definition demo_get : Request := new_request "GET" "/api/users" ∅ "10.0.0.1:1234".

Lemma demo_reachable :
  reachable no_page demo_config demo_gateway demo_reloader
    (h_state (demo_handle Finished demo_get)).
Proof.
  exists (Err "no certificate"), demo_reloader, demo_state.
  split; [exact demo_loadable |]. split; [exact demo_built_ok |]. apply rtc_once. unfold demo_handle.
  apply (EventRequest no_page demo_gateway demo_reloader demo_state
    (demo_io Finished) demo_get); [done | by intros ? |].
  intros route Hm. vm_compute in Hm. injection Hm as <-. by vm_compute.
Qed.

Lemma gateway_invariant_witness :
  let st := h_state (demo_handle Finished demo_get) in
  (length (gs_forwarded st) = 1)%nat ∧ gs_fate st = Alive ∧
  ∃ b, gs_Breakers st !! "http://users:3000" = Some b ∧ slots b = 0.
Proof.
  intros st. split; [by vm_compute |]. split; [by vm_compute |].
  destruct (gateway_invariant no_page demo_config demo_gateway demo_reloader
    st demo_reachable) as [Hb _].
  destruct (Hb (demo_route <| r_TimeoutMs := 30000 |>)) as (b & Hlook & _ & Hs); [by left |].
  exists b. split; [exact Hlook | exact Hs].
Defined.

(** A request that is forwarded, and two that are not. *)
Lemma forwarded_requests_are_guarded_witness :
  let sent r := gs_forwarded (h_state (demo_handle Finished r)) in
  (length (sent demo_get) = 1)%nat ∧ sent (demo_get <| rq_Method := "OPTIONS" |>) = [] ∧
  sent (demo_get <| rq_Path := "/health" |>) = [] ∧
  ∀ fr, fr ∈ sent demo_get → ∃ route, fr = (rewrite_request route
    (prepared demo_gateway (demo_io Finished) demo_get), route_Timeout route).
Proof.
  intros sent. split_and!; [by vm_compute.. |]. intros fr Hfr.
  destruct (forwarded_requests_are_guarded no_page demo_gateway (r_current demo_reloader)
    (demo_io Finished) demo_state demo_get ∅) as (new & Hnew & Hall).
  change (gs_forwarded demo_state) with ([] : list (Request * Duration)) in Hnew. rewrite app_nil_l in Hnew.
  unfold sent, demo_handle in Hfr. rewrite Hnew in Hfr.
  destruct (Hall fr Hfr) as (_ & _ & _ & _ & route & _ & _ & _ & ->). by exists route.
Defined.

Definition demo_reloaded : Config := Eval vm_compute in
  demo_config <| cfg_RateLimit := mkRateLimit (f64 7) 3 0 0 |>.

Lemma reload_takes_effect_witness :
  let st := h_state (demo_handle Finished demo_get) in
  let newCfg := demo_reloaded in
  ∃ st', Reload (Ok newCfg) demo_reloader st =
      (true, demo_reloader <| r_current := newCfg |>, st', []) ∧
    settings st' = config_settings newCfg ∧ l_burst (gs_Limiter st') = 3.
Proof.
  intros st newCfg.
  destruct (reload_takes_effect no_page demo_config demo_gateway demo_reloader
    st newCfg demo_reachable) as (st' & Hr & Hs & _).
  { destruct demo_loadable as [(Hv1 & _ & Hv) Hmax]. split; [|exact Hmax]. split; [exact Hv1 |].
    split; [|exact Hv]. split_and!; [right; by vm_compute | by vm_compute..]. }
  exists st'. split; [exact Hr |]. split; [exact Hs |]. exact (f_equal (λ s, s.2.1.2) Hs).
Defined.

(** With a global timeout an aborted response is fatal. *)
Lemma aborted_response_ends_the_process_witness :
  gs_fate (h_state (demo_handle Aborted demo_get)) = Crashed ∧
  h_exit (demo_handle Aborted demo_get) = Returned.
Proof.
  assert (reachable no_page demo_config demo_gateway demo_reloader demo_state) as Hr.
  { exists (Err "no certificate"), demo_reloader, demo_state.
    split; [exact demo_loadable |]. by split; [exact demo_built_ok |]. }
  destruct (aborted_response_ends_the_process no_page demo_config demo_gateway
    demo_reloader demo_state (r_current demo_reloader) (demo_io Aborted) demo_get ∅
    (demo_route <| r_TimeoutMs := 30000 |>)
    (mkAttempt false 6 [(OpWriteHeader 200, 7); (OpWrite "hello", 8)] Aborted 9) [] Hr)
    as [He Hf].
  - done.
  - by vm_compute.
  - split; [done | by vm_compute].
  - by vm_compute.
  - intros Hen. discriminate Hen.
  - by vm_compute.
  - by vm_compute.
  - intros b Hb. vm_compute in Hb. injection Hb as <-. by vm_compute.
  - done.
  - by vm_compute.
  - done.
  - done.
  - split; [|exact He]. unfold demo_handle. rewrite Hf. by vm_compute.
Defined.

Lemma NewGateway_spec_witness :
  (∃ g rel st, NewGateway (Cert := unit) demo_config (Err "no certificate") = BuildOk g rel st ∧
     r_current rel = demo_config ∧
     dom (gs_Breakers st) = list_to_set (r_Backend <$> cfg_Routes demo_config)) ∧
  ¬ metrics_path_refused demo_config.
Proof.
  assert (¬ metrics_path_refused demo_config) as Hno
    by by apply (bool_decide_unpack _).
  split; [|exact Hno].
  destruct (NewGateway_spec (Cert := unit) demo_config (Err "no certificate") demo_loadable)
    as (_ & _ & Hok).
  destruct (Hok Hno) as (g & rel & st & Hnew & _ & _ & _ & Hd & _ & _ & Hc & _); [done |].
  exists g, rel, st. split; [exact Hnew |]. split; [exact Hc | exact Hd].
Defined.

(** ** What the wiring gets wrong *)

(** A route under a prefix of the bypass is configured, matched -- and answered 404
    by the mux. *)
Example shadowed_route :
  let cfg := demo_config <| cfg_Routes := [demo_route <| r_PathPrefix := "/healthcare" |>] |> in
  let r := new_request "GET" "/healthcare" ∅ "10.0.0.1:1" in
  bypasses cfg (rq_Path r) = true ∧ mux_find (mux_patterns cfg) r = MuxNotFound.
Proof. by vm_compute. Qed.

(** Metrics on the path of the health check: accepted, and the start-up panics. *)
Example metrics_on_health_panics :
  let cfg := demo_config <| cfg_Metrics := mkMetricsConfig None "/health" |> in
  validate cfg = None ∧ NewGateway (Cert := unit) cfg (Err "") = BuildPanic.
Proof. by vm_compute. Qed.

(** A metrics path written without its slash does too. *)
Example metrics_without_slash_panics :
  let cfg := demo_config <| cfg_Metrics := mkMetricsConfig None "metrics" |> in
  validate cfg = None ∧ NewGateway (Cert := unit) cfg (Err "") = BuildPanic.
Proof. by vm_compute. Qed.

(** A reload that makes a route require authentication changes its log level, and
    leaves it open. *)
Example reloaded_auth_is_ignored :
  let newCfg := demo_config <| cfg_Routes := [demo_route <| r_AuthRequired := true |>
                                                <| r_LogLevel := "error" |>] |> in
  let st' := (gateway_OnReload demo_config newCfg demo_state).2 in
  routeRequiresAuth demo_gateway "/api/users" = false ∧
  routeLogLevel (gs_routesRef st') "/api/users" = LevelError.
Proof. by vm_compute. Qed.
