(* ===== verification/GatewayConc.v ===== *)
(** * The gateway's requests, reloads and background work at the same time
    (internal/gateway/gateway.go)

    The goroutines of a gateway on all that they share: the limiter ([LimiterConc])
    and, under it, the breakers and the backends ([Concurrent]).  [request_p] is what
    [limited_handler] does, a request from the limiter on; authentication is between
    the two and shares nothing but the metrics.  What is around the limiter in the
    chain is a request's own; [jobs] are the requests as the chain hands them down.
    [OnReload_p] is [Gateway.OnReload] without the pointer to the routes, which only
    the log levels use. *)

From stdpp Require Import relations.
From S2P Require Import Prelude GoFloat GoStrings Metrics Config ConfigValidate CircuitBreaker Routing Http ApiError.
From S2P Require Import Middleware Auth RateLimit Proxy Writers ProxyServe Health Goroutine Concurrent LimiterConc Gateway.

Open Scope Z_scope.

(** ** Actions and shared state *)

Inductive GatewayAction : Set → Type :=
| AtLimiter (X : Set) (a : LimiterAction X) : GatewayAction X
| AtProxy (X : Set) (a : Action X) : GatewayAction X.

Abbreviation at_limiter := (lift AtLimiter).
Abbreviation at_proxy := (lift AtProxy).

(** A writer that also remembers whether the next handler was reached. *)
#[export] Instance gated_writer {W} `{ResponseWriter W} : ResponseWriter (W * bool) := {
  rw_header_of w := rw_header_of w.1;
  rw_Header upd w := (rw_Header upd w.1, w.2);
  rw_WriteHeader code t w := (rw_WriteHeader code t w.1, w.2);
  rw_Write b t w := (rw_Write b t w.1, w.2)
}.

Section programs.
Context `{TokenBucket, JwtLib, ConfigLib} {Cert : Type}.

Record GatewayShared := mkGS { gws_limiter : LimiterShared; gws_proxy : Shared }.

#[export] Instance perform_gateway : Semantics GatewayAction GatewayShared := λ X t a s,
  match a with
  | AtLimiter _ a => '(x, l) ← perform t a (gws_limiter s); Some (x, mkGS l (gws_proxy s))
  | AtProxy _ a => '(x, p) ← perform t a (gws_proxy s); Some (x, mkGS (gws_limiter s) p)
  end.

(** Authentication: the response so far, and whether the request goes on. *)
Definition auth_gate (g : Gateway (Cert := Cert)) (now : Time) (r : Request) (client : Client)
    : Client * bool * list MetricEvent :=
  AuthMiddleware (cfg_Auth (g_Config g)) (routeRequiresAuth g) (g_Metrics g) (λ _ w, (w.1, true)) now r
    (client, false).

(** A request, from the limiter on. *)
Definition request_p (g : Gateway (Cert := Cert)) (l0 : Limiter) (stacks : gmap string Layers) (io : IO)
    (r : Request) (w : Header) : Prog GatewayAction (Exit * Client) :=
  over ← at_limiter (limit_p l0 (io_rate io) r);
  match over with
  | Some rate => mret (Returned, reject r rate (rd_allow (io_rate io)) (mkClient w []))
  | None =>
      let '((client, passed), evs) := auth_gate g (io_auth io) r (mkClient w []) in
      at_proxy (emit_p evs) ;;
      if passed then
        '(exit, rr) ← at_proxy (serve_p (g_Router g) (g_Metrics g) stacks (io_env io) r client);
        mret (exit, rr_client rr)
      else mret (Returned, client)
  end.

(** [g.OnReload(old, newCfg)], its loop over the backends in the order given. *)
Definition OnReload_p (newCfg : Config) (backends : list string) : Prog GatewayAction unit :=
  at_limiter (UpdateConfig_p (cfg_RateLimit newCfg) (cfg_Routes newCfg)) ;;
  at_proxy (reload_p (cb_config (cfg_CircuitBreaker newCfg)) backends).

(** ** The gate *)

Lemma gated_ops {W} `{ResponseWriter W} ops (w : W * bool) : run_ops ops w = (run_ops ops w.1, w.2).
Proof.
  revert w. induction ops as [|[[u|code|b] t] ops IH]; intros w; [by destruct w | ..];
    simpl; by rewrite IH.
Qed.

Lemma auth_gate_cases (g : Gateway (Cert := Cert)) now r client :
  let '((client', passed), evs) := auth_gate g now r client in
  Forall (λ e, ev_collector e ≠ ActiveConnections) evs ∧
  if passed then auth_passes g now r ∧ client' = client ∧ evs = [] else ¬ auth_passes g now r.
Proof.
  assert (∀ reason, Forall (λ e, ev_collector e ≠ ActiveConnections)
    (emit (g_Metrics g) [mkEvent AuthFailures [reason] Inc])) as Hev
    by (intros reason; destruct (g_Metrics g); by repeat constructor).
  unfold auth_gate, AuthMiddleware, auth_passes, WriteJSON.
  destruct (au_Enabled _), (routeRequiresAuth g _); cbn [negb orb]; try (by split; [constructor |]).
  destruct (extractBearerToken r) as [tok|].
  2: { rewrite gated_ops. split; [done |]. intros Hp. by destruct (Hp eq_refl eq_refl) as (? & ? & ? & ?). }
  destruct (validateToken tok _ _) as [claims|err] eqn:Hv.
  - split; [constructor |]. split_and!; [|done..]. intros _ _. by exists tok, claims.
  - destruct (isScopeError err); rewrite gated_ops; (split; [done |]); intros Hp;
      destruct (Hp eq_refl eq_refl) as (tok' & claims & [= <-] & Hv'); congruence.
Qed.
End programs.

(** ** Alone, a request does what the sequential handler says *)

Section alone.
Context `{TokenBucket, JwtLib} {Cert : Type} (g : Gateway (Cert := Cert)).

(** The gate decides for the handler of a flow too. *)
Lemma auth_same now r (next : Flow → Flow) (f : Flow) :
  AuthMiddleware (cfg_Auth (g_Config g)) (routeRequiresAuth g) (g_Metrics g) (λ _, next) now r f =
    let '((client, passed), evs) := auth_gate g now r (fl_client f) in
    (if passed then next f else f <| fl_client := client |>, evs).
Proof.
  unfold auth_gate, AuthMiddleware, WriteJSON.
  destruct (au_Enabled _), (routeRequiresAuth g _); cbn [negb orb]; try done.
  destruct (extractBearerToken r) as [tok|]; [|by rewrite gated_ops, flow_ops].
  destruct (validateToken tok _ _) as [claims|err]; [done |].
  destruct (isScopeError err); by rewrite gated_ops, flow_ops.
Qed.

Lemma run_at_limiter {A} t (p : Prog LimiterAction A) s :
  run t (at_limiter p) s = '(x, l) ← run t p (gws_limiter s); Some (x, mkGS l (gws_proxy s)).
Proof. destruct s as [l p0]. exact (run_lift AtLimiter t p (λ l s, mkGS l (gws_proxy s)) l (mkGS l p0) (λ _ _ _, eq_refl)). Qed.

Lemma run_at_proxy {A} t (p : Prog Action A) s :
  run t (at_proxy p) s = '(x, q) ← run t p (gws_proxy s); Some (x, mkGS (gws_limiter s) q).
Proof. destruct s as [l p0]. exact (run_lift AtProxy t p (λ q s, mkGS (gws_limiter s) q) p0 (mkGS l p0) (λ _ _ _, eq_refl)). Qed.

Lemma run_emit_events t evs s :
  run t (emit_p evs) s =
    Some (tt, mkShared (sh_breakers s) (sh_events s ++ evs) (sh_upstream s) (sh_forwarded s)).
Proof.
  revert s. induction evs as [|e evs IH]; intros s; [destruct s; simpl; by rewrite app_nil_r |].
  change (emit_p (e :: evs)) with (act (Emit e) ;; emit_p evs).
  rewrite run_bind, run_act. cbn [perform perform_action mbind option_bind]. rewrite IH. simpl.
  by rewrite <-app_assoc.
Qed.

(** A request that nothing interrupts gets the answer of [limited_handler], and leaves
    the limiter, the breakers, the metrics and the backends as it does. *)
Theorem request_alone (t : nat) (l0 : Limiter) (io : IO) (r : Request) (w : Header) (st : GState)
    (s : GatewayShared) :
  ls_limiter (gws_limiter s) = gs_Limiter st → sh_breakers (gws_proxy s) = gs_Breakers st →
  l_trustedCIDRs l0 = l_trustedCIDRs (gs_Limiter st) → l_metrics l0 = l_metrics (gs_Limiter st) →
  pointers_ok (gs_Limiter st) → sh_upstream (gws_proxy s) !! t = None →
  map_Forall (λ _, composite_ok) (gs_Breakers st) → resolves (g_Router g) →
  enough_attempts g io (rq_Path r) →
  let h := limited_handler g io st r w in
  ∃ client s' sent el ep,
    run t (request_p g l0 (stacks_of (gws_proxy s)) io r w) s = Some ((h_exit h, client), s') ∧
    h_ops h = replay (io_now io) client ∧
    ls_limiter (gws_limiter s') = gs_Limiter (h_state h) ∧
    sh_breakers (gws_proxy s') = gs_Breakers (h_state h) ∧
    gs_forwarded (h_state h) = gs_forwarded st ++ sent ∧
    sh_forwarded (gws_proxy s') = sh_forwarded (gws_proxy s) ++
      ((λ f, (t, (matched_backend (g_Router g) r, f.1, f.2))) <$> sent) ∧
    gs_events (h_state h) = gs_events st ++ ep ++ el ∧
    ls_events (gws_limiter s') = ls_events (gws_limiter s) ++ el ∧
    sh_events (gws_proxy s') = sh_events (gws_proxy s) ++ ep.
Proof.
  intros Hl Hb Hcidr Hmet Hptr Hup Hok Hrt Hen h. rewrite <-Hl in Hcidr, Hmet, Hptr. rewrite <-Hb in Hok.
  unfold h, limited_handler. fold (new_flow st r w).
  destruct (limiter_alone (auth_handler g io r) t l0 (io_rate io) r (gws_limiter s) (new_flow st r w)
    Hcidr Hmet Hptr) as (over & l' & el & Hrun & Hel & Hmw). rewrite Hl in Hmw. rewrite Hmw.
  unfold request_p. rewrite run_bind, run_at_limiter, Hrun. cbn [mbind option_bind].
  destruct over as [rate|].
  - unfold reject, WriteJSON. rewrite flow_ops. eexists _, _, [], el, []. split; [done |].
    simpl. rewrite !app_nil_r. by split_and!.
  - unfold auth_handler. rewrite auth_same. change (fl_client (new_flow st r w)) with (mkClient w []).
    destruct (auth_gate g (io_auth io) r (mkClient w [])) as [[client passed] ea] eqn:Hgate.
    rewrite run_bind, run_at_proxy. cbn [gws_proxy gws_limiter].
    rewrite run_emit_events. cbn [mbind option_bind].
    destruct passed.
    + pose proof (auth_gate_cases g (io_auth io) r (mkClient w [])) as Hcases. rewrite Hgate in Hcases.
      destruct Hcases as (_ & _ & -> & ->). rewrite run_bind, run_at_proxy. cbn [gws_proxy gws_limiter].
      destruct (gws_proxy s) as [bs evs ups fw] eqn:Hs. cbn [sh_breakers sh_events sh_upstream sh_forwarded] in *.
      rewrite app_nil_r. subst bs.
      destruct (serve_alone t (g_Router g) (g_Metrics g) (io_env io) r (mkClient w [])
        (mkShared (gs_Breakers st) evs ups fw)) as (exit & sv & Hsv & Hserve); [done.. |].
      rewrite Hserve. cbn [mbind option_bind]. unfold router_handler.
      change (gs_Breakers (fl_state (new_flow st r w))) with (gs_Breakers st).
      change (fl_client (new_flow st r w)) with (mkClient w []).
      cbn [sh_breakers] in Hsv. rewrite Hsv.
      eexists _, _, (sv_forwarded sv), el, (sv_events sv). split; [done |].
      split; [done |]. split; [done |]. simpl. rewrite app_nil_r. split_and!; try done.
      * unfold matched_backend. destruct (matchRoute (g_Router g) (rq_Path r)) as [route|] eqn:Hm; [done |].
        unfold ServeHTTP in Hsv. rewrite Hm in Hsv. by injection Hsv as _ <-.
      * by rewrite app_assoc.
    + eexists _, _, [], el, ea. split; [done |]. simpl. rewrite !app_nil_r, <-app_assoc, Hb. by split_and!.
Qed.
End alone.

(** ** The protocol *)

(** The ghost states of the two parts, and whether the limiter has admitted the
    request. *)
Record GatewayGhost := mkGG { gg_limiter : LimiterGhost; gg_passed : bool; gg_proxy : Ghost }.

Definition fresh_ghost : GatewayGhost := mkGG no_ghost false idle_ghost.

Definition sends {X : Set} (a : Action X) : bool := match a with BeginUpstream _ _ _ => true | _ => false end.

(** What an action adds to the requests forwarded. *)
Lemma perform_forwarded {X : Set} t (a : Action X) s x s' :
  perform t a s = Some (x, s') →
  ∃ new, sh_forwarded s' = sh_forwarded s ++ new ∧
    ∀ f, f ∈ new → sends a = true ∧ f.1 = t.
Proof.
  assert (∀ (Y : Set) be (f : CompositeBreaker → option (Y * CompositeBreaker * list MetricEvent)) y,
    with_breaker be f s = Some (y, s') → sh_forwarded s' = sh_forwarded s) as Hw.
  { intros Y be f y. unfold with_breaker. destruct (sh_breakers s !! be) as [c|]; [|done]. simpl.
    destruct (f c) as [[[z c'] evs]|]; [|done]. by intros [= _ <-]. }
  assert (sh_forwarded s' = sh_forwarded s → ∃ new, sh_forwarded s' = sh_forwarded s ++ new ∧
    ∀ f, f ∈ new → sends a = true ∧ f.1 = t) as Hsame.
  { intros ->. exists []. split; [by rewrite app_nil_r | by intros f ?%elem_of_nil]. }
  intros Hp. destruct a as [be|be|be|be now|be failed now|be latency|be|be cfg|e|be req timeout|];
    cbn [perform perform_action] in Hp; try (by eapply Hsame, Hw).
  - apply Hsame. by injection Hp as _ <-.
  - injection Hp as _ <-. eexists. split; [done |]. by intros f ->%list_elem_of_singleton.
  - apply Hsame. by injection Hp as _ <-.
Qed.

Section protocol.
Context `{TokenBucket}.

(** The limiter admitted a request of goroutine [t]. *)
Definition admitted_by (l : LimiterShared) (t : nat) : Prop := ∃ a, (t, a) ∈ ls_log l ∧ an_ok a = true.

Lemma perform_answers {X : Set} t (a : LimiterAction X) l x l' :
  perform t a l = Some (x, l') → ∃ new, ls_log l' = ls_log l ++ new.
Proof.
  assert (ls_log l' = ls_log l → ∃ new, ls_log l' = ls_log l ++ new) as Hsame
    by (intros ->; exists []; by rewrite app_nil_r).
  intros Hp. destruct a; cbn [perform perform_limiter] in Hp;
    try (apply Hsame; by injection Hp as _ <-).
  - destruct (foldl _ _ _) as [[o n] prefix]. apply Hsame. by injection Hp as _ <-.
  - destruct (lookup_slow _ _ _) as [p l2]. apply Hsame. by injection Hp as _ <-.
  - destruct (l_heap _ !! p); [|done]. simpl in Hp. destruct (allow_at _ _ _) as [ok l2].
    injection Hp as _ <-. by eexists.
  - destruct (evict_batch _ _ _) as [l2 n]. apply Hsame. by injection Hp as _ <-.
Qed.

Lemma admitted_mono l l' new t : ls_log l' = ls_log l ++ new → admitted_by l t → admitted_by l' t.
Proof. intros Hl (a & Hin & ?). exists a. rewrite Hl. split; [apply elem_of_app; by left | done]. Qed.

Context (l0 : Limiter) (jobs : nat → Request) (in_force : RateLimitConfig → list RouteConfig → Prop).
Context (stacks : gmap string Layers) (rt : Router) (m : bool).
(** The goroutines whose request authentication lets pass. *)
Context (authenticated : nat → Prop).

Definition gateway_allowed (X : Set) (t : nat) (g : GatewayGhost) (a : GatewayAction X) : Prop :=
  match a with
  | AtLimiter X a => limiter_allowed l0 jobs in_force X t (gg_limiter g) a
  | AtProxy X a =>
      allowed stacks rt m jobs X t (gg_proxy g) a ∧
      (sends a = true → gg_passed g = true ∧ authenticated t)
  end.

(** A bucket's yes. *)
Definition is_yes {X : Set} (a : LimiterAction X) : X → bool :=
  match a in LimiterAction X return X → bool with AskBucket _ _ _ => λ ok, ok | _ => λ _, false end.

Definition gateway_next (X : Set) (g : GatewayGhost) (a : GatewayAction X) : X → GatewayGhost :=
  match a in GatewayAction X return X → GatewayGhost with
  | AtLimiter X a => λ x, mkGG (limiter_next X (gg_limiter g) a x) (gg_passed g || is_yes a x) (gg_proxy g)
  | AtProxy X a => λ x, mkGG (gg_limiter g) (gg_passed g) (next X (gg_proxy g) a x)
  end.

Record gateway_inv (s : GatewayShared) (gs : gmap nat GatewayGhost) : Prop := {
  gi_limiter : limiter_inv l0 jobs in_force (gws_limiter s) (gg_limiter <$> gs);
  gi_proxy : conc_inv stacks rt m jobs (gws_proxy s) (gg_proxy <$> gs);
  gi_passed t g : gs !! t = Some g → gg_passed g = true → admitted_by (gws_limiter s) t;
  gi_forwarded t f : (t, f) ∈ sh_forwarded (gws_proxy s) →
    admitted_by (gws_limiter s) t ∧ authenticated t
}.

Lemma perform_yes {X : Set} t (a : LimiterAction X) l x l' :
  perform t a l = Some (x, l') → is_yes a x = true → admitted_by l' t.
Proof.
  destruct a; cbn [perform perform_limiter is_yes]; try done.
  destruct (l_heap _ !! p); [|done]. simpl. destruct (allow_at _ _ _) as [ok l2].
  intros [= <- <-] ->. eexists. split; [apply elem_of_app; right; by left | done].
Qed.

Lemma fmap_same (gs : gmap nat GatewayGhost) {B} (f : GatewayGhost → B) t g g' :
  gs !! t = Some g → f g' = f g → f <$> <[t := g']> gs = f <$> gs.
Proof. intros Ht Hf. rewrite fmap_insert, Hf. apply insert_id. by rewrite lookup_fmap, Ht. Qed.

Lemma gateway_inv_act (X : Set) t (a : GatewayAction X) s gs g :
  gateway_inv s gs → gs !! t = Some g → gateway_allowed X t g a →
  ∃ x s', perform t a s = Some (x, s') ∧ gateway_inv s' (<[t := gateway_next X g a x]> gs).
Proof.
  intros [Hl Hp Hpass Hfw] Ht Ha. destruct a as [X a|X a]; cbn [perform perform_gateway gateway_allowed] in *.
  - destruct (limiter_inv_act l0 jobs in_force X t a (gws_limiter s) (gg_limiter <$> gs) (gg_limiter g))
      as (x & l' & Hx & Hl'); [done | by rewrite lookup_fmap, Ht | done |].
    destruct (perform_answers _ _ _ _ _ Hx) as [new Hnew].
    rewrite Hx. eexists x, _. split; [done |]. split; cbn [gws_limiter gws_proxy gateway_next].
    + by rewrite fmap_insert.
    + by rewrite (fmap_same gs _ t g).
    + intros u g' Hu Hg'. destruct (decide (u = t)) as [->|Hne].
      * rewrite lookup_insert_eq in Hu. injection Hu as <-. cbn [gg_passed] in Hg'.
        apply orb_true_iff in Hg' as [Hg'|Hg']; [|by eapply perform_yes].
        eapply admitted_mono; [done |]. by eapply Hpass.
      * rewrite lookup_insert_ne in Hu by done. eapply admitted_mono; [done |]. by eapply Hpass.
    + intros u f Hin. destruct (Hfw u f Hin) as [??]. split; [by eapply admitted_mono | done].
  - destruct Ha as [Ha Hsend].
    destruct (conc_inv_act stacks rt m jobs X t a (gws_proxy s) (gg_proxy <$> gs) (gg_proxy g))
      as (x & p' & Hx & Hp'); [done | by rewrite lookup_fmap, Ht | done |].
    destruct (perform_forwarded _ _ _ _ _ Hx) as (new & Hnew & Hsent).
    rewrite Hx. eexists x, _. split; [done |]. split; cbn [gws_limiter gws_proxy gateway_next].
    + by rewrite (fmap_same gs _ t g).
    + by rewrite fmap_insert.
    + intros u g' Hu Hg'. destruct (decide (u = t)) as [->|Hne].
      * rewrite lookup_insert_eq in Hu. injection Hu as <-. by eapply Hpass.
      * rewrite lookup_insert_ne in Hu by done. by eapply Hpass.
    + intros u f. rewrite Hnew. intros [Hin|Hin]%elem_of_app; [by eapply Hfw |].
      destruct (Hsent _ Hin) as [Hs Hu]. simpl in Hu. subst u.
      destruct (Hsend Hs) as [Hg ?]. split; [by eapply Hpass | done].
Qed.

Lemma gateway_inv_start t s gs g :
  gateway_inv s gs → gs !! t = None → g = fresh_ghost → gateway_inv s (<[t := g]> gs).
Proof.
  intros [Hl Hp Hpass Hfw] Ht ->. split; [| | |done].
  - rewrite fmap_insert. apply limiter_inv_start; [done | by rewrite lookup_fmap, Ht | done].
  - rewrite fmap_insert. apply conc_inv_start; [done | by rewrite lookup_fmap, Ht | done].
  - intros u g' Hu. destruct (decide (u = t)) as [->|Hne];
      [rewrite lookup_insert_eq in Hu; by injection Hu as <- |].
    rewrite lookup_insert_ne in Hu by done. by apply Hpass.
Qed.

(** A goroutine may return when it has given everything back. *)
Definition settled (g : GatewayGhost) : Prop := gg_limiter g = no_ghost ∧ gg_proxy g = idle_ghost.

#[export] Instance gateway_protocol : Protocol GatewayAction GatewayShared GatewayGhost := {|
  pr_allowed := gateway_allowed; pr_next := gateway_next;
  pr_idle g := g = fresh_ghost; pr_done := settled; pr_inv := gateway_inv;
  pr_inv_act := gateway_inv_act; pr_inv_start := gateway_inv_start
|}.
End protocol.

(** ** The programs keep to it *)

Section follows.
Context `{TokenBucket, JwtLib, ConfigLib} {Cert : Type}.
Context (l0 : Limiter) (jobs : nat → Request) (ios : nat → IO).
Context (in_force : RateLimitConfig → list RouteConfig → Prop).
Context (g : Gateway (Cert := Cert)) (stacks : gmap string Layers).
Hypothesis stacks_plain : ∀ be l, stacks !! be = Some l → layers_ok l.

Let rt := g_Router g.
Let m := g_Metrics g.

Definition authenticated (t : nat) : Prop := auth_passes g (io_auth (ios t)) (jobs t).

#[local] Instance the_limiter : Protocol LimiterAction LimiterShared LimiterGhost :=
  limiter_protocol l0 jobs in_force.
#[local] Instance the_proxy : Protocol Action Shared Ghost := conc_protocol stacks rt m jobs.
#[local] Instance the_gateway : Protocol GatewayAction GatewayShared GatewayGhost :=
  gateway_protocol l0 jobs in_force stacks rt m authenticated.

(** [post] holds of the result and of whether a bucket has said yes. *)
Fixpoint tracks {A} (post : A → bool → Prop) (passed : bool) (p : Prog LimiterAction A) : Prop :=
  match p with Ret a => post a passed | Do a k => ∀ x, tracks post (passed || is_yes a x) (k x) end.

Lemma tracks_all {A} (post : A → bool → Prop) passed p : (∀ a b, post a b) → tracks post passed p.
Proof. intros Hp. revert passed. induction p as [a|X a k IH]; intros passed; simpl; [done | intros x; apply IH]. Qed.

Lemma tracks_bind {A B} (post : B → bool → Prop) passed (p : Prog LimiterAction A) (f : A → Prog LimiterAction B) :
  tracks (λ a b, tracks post b (f a)) passed p → tracks post passed (p ≫= f).
Proof. revert passed. induction p as [a|X a k IH]; intros passed Hp; simpl in *; [done | intros x; apply IH, Hp]. Qed.

Lemma tracks_mono {A} (post post' : A → bool → Prop) passed (p : Prog LimiterAction A) :
  (∀ a b, post a b → post' a b) → tracks post passed p → tracks post' passed p.
Proof. intros Hp. revert passed. induction p as [a|X a k IH]; intros passed Hq; simpl in *; [auto | intros x; by apply IH]. Qed.

Lemma tracks_limit lim rd r :
  tracks (λ over passed, over = None → passed = true) false (limit_p lim rd r).
Proof.
  unfold limit_p. apply tracks_bind, tracks_all. intros [[rate burst] prefix] b1.
  apply tracks_bind, tracks_all. intros p b2. simpl. intros [|].
  - by rewrite orb_true_r.
  - by apply tracks_bind, tracks_all.
Qed.

Lemma follows_at_limiter {A} t (post : A → LimiterGhost → Prop) (track : A → bool → Prop) gh
    (p : Prog LimiterAction A) :
  follows t post (gg_limiter gh) p → tracks track (gg_passed gh) p →
  follows t (λ a gh', post a (gg_limiter gh') ∧ track a (gg_passed gh') ∧ gg_proxy gh' = gg_proxy gh)
    gh (at_limiter p).
Proof.
  revert gh. induction p as [a|X a k IH]; intros gh; simpl; [done |]. intros [Ha Hk] Htr.
  split; [done |]. intros x. exact (IH x (gateway_next X gh (AtLimiter X a) x) (Hk x) (Htr x)).
Qed.

Lemma follows_at_proxy {A} t (post : A → Ghost → Prop) gh (p : Prog Action A) :
  follows t post (gg_proxy gh) p →
  only (λ X a, sends a = true → gg_passed gh = true ∧ authenticated t) p →
  follows t (λ a gh', post a (gg_proxy gh') ∧ gg_limiter gh' = gg_limiter gh ∧ gg_passed gh' = gg_passed gh)
    gh (at_proxy p).
Proof.
  revert gh. induction p as [a|X a k IH]; intros gh; simpl; [done |]. intros [Ha Hk] [Hs Ho].
  split; [done |]. intros x. exact (IH x (gateway_next X gh (AtProxy X a) x) (Hk x) (Ho x)).
Qed.

(** What never sends anything may run at any time. *)
Abbreviation sends_nothing := (only (λ X (a : Action X), sends a = true → False)).

Lemma follows_background_proxy {A} t (p : Prog Action A) :
  follows t (λ _ gh, gh = idle_ghost) idle_ghost p → sends_nothing p →
  follows t finishes fresh_ghost (background (at_proxy p)).
Proof.
  intros Hp Ho. apply follows_bind. eapply follows_mono; [|apply (follows_at_proxy t (λ _ gh, gh = idle_ghost)); [exact Hp |]].
  - intros a gh (Hg & Hl & _). simpl. split; [by rewrite Hl | done].
  - clear Hp. induction p as [a|X a k IH]; simpl in *; [done |]. destruct Ho as [Ha Ho]. split; [|by auto].
    intros Hs. by destruct (Ha Hs).
Qed.

Lemma follows_background_limiter {A} t (p : Prog LimiterAction A) :
  follows t quiet no_ghost p → follows t finishes fresh_ghost (background (at_limiter p)).
Proof.
  intros Hp. apply follows_bind.
  eapply follows_mono; [|apply (follows_at_limiter t quiet (λ _ _, True)); [exact Hp | by apply tracks_all]].
  intros a gh (Hg & _ & Hpr). by split.
Qed.

Lemma sends_nothing_emit evs : sends_nothing (emit_p evs).
Proof. apply only_each. intros e. by split. Qed.

Lemma sends_nothing_reload cfg bes : sends_nothing (reload_p cfg bes).
Proof. apply only_each. intros be. by split. Qed.

Lemma sends_nothing_probe dial cancelled route : sends_nothing (probe_p dial stacks cancelled route).
Proof.
  unfold probe_p. destruct (stacks !! _) as [l|]; [|done]. apply only_bind; [|done].
  destruct l; simpl; try done. split; [done |]. intros n. by case_bool_decide.
Qed.

Lemma follows_request t w :
  follows t finishes fresh_ghost (background (request_p g l0 stacks (ios t) (jobs t) w)).
Proof.
  apply follows_bind, follows_bind. eapply follows_mono; [|apply (follows_at_limiter t quiet
    (λ over passed, over = None → passed = true)); [apply follows_limit | apply tracks_limit]].
  intros [rate|] gh (Hl & Hpass & Hp); [by split |].
  pose proof (auth_gate_cases g (io_auth (ios t)) (jobs t) (mkClient w [])) as Hgate.
  destruct (auth_gate g _ _ _) as [[client passed] evs]. destruct Hgate as [Hev Hgate].
  apply follows_bind. eapply follows_mono; [|apply (follows_at_proxy t (λ _ gh, gh = idle_ghost))].
  2: { rewrite Hp. by apply follows_emit. }
  2: { apply only_each. intros e. by split. }
  intros _ gh' (Hp' & Hl' & Hpass'). destruct passed; [|by split; [rewrite Hl' |]].
  destruct Hgate as (Hauth & _ & _). apply follows_bind.
  eapply follows_mono; [|apply (follows_at_proxy t (λ _ gh, gh = idle_ghost))].
  - intros [exit rr] gh2 (Hp2 & Hl2 & _). split; [|done]. by rewrite Hl2, Hl'.
  - rewrite Hp'. by apply follows_serve.
  - apply only_all. intros X a _. split; [|done]. rewrite Hpass'. by apply Hpass.
Qed.

Lemma follows_OnReload t newCfg bes :
  in_force (cfg_RateLimit newCfg) (cfg_Routes newCfg) →
  1 ≤ cbc_WindowSize (cfg_CircuitBreaker newCfg) ≤ int64_max → Forall (λ be, is_Some (stacks !! be)) bes →
  follows t finishes fresh_ghost (background (OnReload_p newCfg bes)).
Proof.
  intros Hf Hw Hb. apply follows_bind, follows_bind.
  eapply follows_mono; [|apply (follows_at_limiter t quiet (λ _ _, True));
    [by apply follows_update | by apply tracks_all]].
  intros [] gh (Hl & _ & Hp). eapply follows_mono; [|apply (follows_at_proxy t (λ _ gh, gh = idle_ghost))].
  - intros _ gh' (Hp' & Hl' & _). split; [by rewrite Hl' | done].
  - rewrite Hp. by apply follows_reload.
  - apply only_each. intros be. by split.
Qed.
End follows.

(** ** Everything that happens to a gateway *)

Abbreviation GatewayPool := (Pool (Action := GatewayAction) (Sh := GatewayShared) unit).

(** The configuration of every backend's breaker. *)
Definition backend_configs (cfg : Config) : gmap string CBConfig :=
  list_to_map ((λ r, (r_Backend r, cb_config (cfg_CircuitBreaker cfg))) <$> cfg_Routes cfg).

Lemma backend_configs_lookup cfg be c :
  backend_configs cfg !! be = Some c ↔ be ∈ r_Backend <$> cfg_Routes cfg ∧ c = cb_config (cfg_CircuitBreaker cfg).
Proof.
  unfold backend_configs. induction (cfg_Routes cfg) as [|r rs IH]; simpl.
  { rewrite lookup_empty. split; [done | by intros [?%elem_of_nil _]]. }
  destruct (decide (be = r_Backend r)) as [->|Hne].
  - rewrite lookup_insert_eq. split; [intros [= <-]; split; [by left | done] | by intros [_ ->]].
  - rewrite lookup_insert_ne, IH, elem_of_cons by done.
    split; [intros [??]; split; [by right | done] | intros [[?|?] ?]; [done | by split]].
Qed.

Lemma build_breakers_conc `{ConfigLib} cfg m :
  loadable cfg →
  build_breakers (cb_config (cfg_CircuitBreaker cfg)) m (cfg_Routes cfg) =
    sh_breakers (fresh_shared (backend_configs cfg) m).
Proof.
  intros Hcfg. apply map_eq. intros be. rewrite fresh_lookup.
  pose proof (build_breakers_fresh (cb_config (cfg_CircuitBreaker cfg)) m (cfg_Routes cfg) be) as Hfresh.
  assert (dom (build_breakers (cb_config (cfg_CircuitBreaker cfg)) m (cfg_Routes cfg)) =
    list_to_set (r_Backend <$> cfg_Routes cfg)) as Hdom
    by (apply build_breakers_ok, loadable_cb, Hcfg).
  destruct (build_breakers _ _ _ !! be) as [b|] eqn:Hb.
  - assert (backend_configs cfg !! be = Some (cb_config (cfg_CircuitBreaker cfg))) as ->.
    { apply backend_configs_lookup. split; [|done]. apply elem_of_dom_2 in Hb. rewrite Hdom in Hb.
      by apply elem_of_list_to_set in Hb. }
    simpl. by rewrite (Hfresh b eq_refl).
  - destruct (backend_configs cfg !! be) as [c|] eqn:Hc; [|done]. exfalso.
    apply backend_configs_lookup in Hc as [Hin _]. apply not_elem_of_dom in Hb. apply Hb.
    rewrite Hdom. by apply elem_of_list_to_set.
Qed.

Section pool.
Context `{TokenBucket, JwtLib, ConfigLib, SortSlice, GoFmt} {Cert : Type}.
Context (cfg : Config) (tls : result (CertLoader.CertLoader Cert) string) (g : Gateway (Cert := Cert)).
Context (rel : Reload.Reloader GState) (st : GState).
Context (jobs : nat → Request) (ios : nat → IO) (reloads : Config → Prop).
Hypothesis loads : loadable cfg.
Hypothesis built : NewGateway cfg tls = BuildOk g rel st.
Hypothesis reloads_load : ∀ c, reloads c → loadable c.

(** The settings of the limiter under the first configuration and those reloaded. *)
Definition config_in_force (rl : RateLimitConfig) (routes : list RouteConfig) : Prop :=
  ∃ c, (c = cfg ∨ reloads c) ∧ rl = cfg_RateLimit c ∧ routes = cfg_Routes c.

Let l0 := gs_Limiter st.
Let stacks := (λ b, layers (effective b)) <$> gs_Breakers st.

(** Requests, reloads with the breakers in any order, passes of the janitor, probes of
    readiness checks, and listings of the limiters. *)
Inductive gateway_start (t : nat) : Prog GatewayAction unit → Prop :=
| start_served w : gateway_start t (background (request_p g l0 stacks (ios t) (jobs t) w))
| start_reloading c bes :
    reloads c → bes ≡ₚ (map_to_list (gs_Breakers st)).*1 → gateway_start t (background (OnReload_p c bes))
| start_eviction now : gateway_start t (background (at_limiter (evictOnce_p (g_Metrics g) now)))
| start_probing dial cancelled route :
    gateway_start t (background (at_proxy (probe_p dial stacks cancelled route)))
| start_listing : gateway_start t (background (at_limiter Snapshot_p)).

(** The gateway as it was built, before any goroutine. *)
Definition gateway_pool : GatewayPool :=
  mkPool (mkGS (mkLS l0 [] [] [] []) (mkShared (gs_Breakers st) [] ∅ [])) ∅.

Lemma built_state :
  g_Metrics g = metrics_IsEnabled (cfg_Metrics cfg) ∧ st = new_state cfg (g_Metrics g).
Proof.
  revert built. unfold NewGateway. repeat case_match; intros ?; by simplify_eq.
Qed.

Lemma built_shared :
  mkShared (gs_Breakers st) [] ∅ [] = fresh_shared (backend_configs cfg) (g_Metrics g).
Proof.
  destruct built_state as [_ ->]. unfold new_state. cbn [gs_Breakers].
  by rewrite build_breakers_conc.
Qed.

Lemma built_stacks : stacks = stacks_of (fresh_shared (backend_configs cfg) (g_Metrics g)).
Proof. by rewrite <-built_shared. Qed.

Lemma backend_configs_ok : map_Forall (λ _, cb_config_ok) (backend_configs cfg).
Proof. intros be c [_ ->]%backend_configs_lookup. by apply loadable_cb. Qed.

#[local] Instance pool_protocol : Protocol GatewayAction GatewayShared GatewayGhost :=
  gateway_protocol l0 jobs config_in_force stacks (g_Router g) (g_Metrics g) (authenticated jobs ios g).

Lemma gateway_start_follows t p : gateway_start t p → ∃ gh, pr_idle gh ∧ follows t finishes gh p.
Proof.
  intros Hp. exists fresh_ghost. split; [done |].
  destruct Hp as [w|c bes Hc Hbes|now|dial cancelled route|].
  - apply follows_request. intros be l Hl. rewrite built_stacks in Hl. by eapply stacks_ok_layers.
  - pose proof (loadable_cb c (reloads_load c Hc)) as [Hw _]. simpl in Hw.
    apply follows_OnReload; [by exists c; auto | done |].
    rewrite Hbes. apply Forall_forall. intros be ([be' b] & -> & Hin)%list_elem_of_fmap.
    apply elem_of_map_to_list in Hin. unfold stacks. rewrite lookup_fmap. simpl. rewrite Hin. by eexists.
  - apply follows_background_limiter, follows_janitor.
  - apply follows_background_proxy; [apply follows_probe | apply sends_nothing_probe].
  - apply follows_background_limiter. by split.
Qed.

Lemma gateway_pool_ok pl : rtc (pool_step gateway_start) gateway_pool pl → pool_ok pl.
Proof.
  apply (pool_ok_steps gateway_start gateway_start_follows). exists ∅. split; [|by split].
  split; [| |done|by intros ?? ?%elem_of_nil].
  - rewrite fmap_empty. split; [|apply map_Forall_empty]. unfold gateway_pool. cbn [pl_shared gws_limiter]. unfold l0.
    destruct built_state as [_ ->]. apply fresh_limiter_ok. exists cfg. by split; [left |].
  - rewrite fmap_empty. unfold gateway_pool. cbn [pl_shared gws_proxy].
    rewrite built_shared, built_stacks. by apply conc_inv_fresh, backend_configs_ok.
Qed.

(** C4. The gates hold under every interleaving.  However requests, reloads, passes of
    the janitor and readiness probes of a gateway interleave: a goroutine that has not
    returned can go on, and all of them end; a backend has no more exchanges at a time
    than its limit; and a request is forwarded only for a goroutine to which a bucket of
    its client's address and of a limit in force has said yes, whose token validates
    where its route requires one, and it is the goroutine's request rewritten by a
    route that matches it and allows its method.  When nothing can move any more,
    every goroutine has returned, no exchange is open, and every slot is free. *)
Theorem gateway_interleavings (pl : GatewayPool) :
  rtc (pool_step gateway_start) gateway_pool pl →
  let l := gws_limiter (pl_shared pl) in
  let s := gws_proxy (pl_shared pl) in
  (∀ t p, pl_threads pl !! t = Some p → returned p = false →
     ∃ pl' p', act_step pl pl' ∧ pl_threads pl' = <[t := p']> (pl_threads pl)) ∧
  sn act_step pl ∧
  (0 < cbc_MaxConcurrent (cfg_CircuitBreaker cfg) → ∀ be, be ∈ r_Backend <$> cfg_Routes cfg →
     Z.of_nat (size (filter (λ kv, kv.2 = be) (sh_upstream s))) ≤ cbc_MaxConcurrent (cfg_CircuitBreaker cfg)) ∧
  (∀ t be req timeout, (t, (be, req, timeout)) ∈ sh_forwarded s →
     (∃ a, (t, a) ∈ ls_log l ∧ an_ok a = true ∧ k_ip (an_key a) = clientIP l0 (jobs t) ∧
        limit_in_force config_in_force (rq_Path (jobs t)) (k_rate (an_key a)) (k_burst (an_key a))) ∧
     auth_passes g (io_auth (ios t)) (jobs t) ∧
     ∃ route, matchRoute (g_Router g) (rq_Path (jobs t)) = Some route ∧
       method_allowed (g_Router g) route (rq_Method (jobs t)) = true ∧ be = r_Backend route ∧
       req = rewrite_request route (jobs t) ∧ timeout = route_Timeout route) ∧
  ((∀ pl', ¬ act_step pl pl') →
     (∀ t p, pl_threads pl !! t = Some p → returned p = true) ∧ sh_upstream s = ∅ ∧
     map_Forall (λ _ c, composite_ok c ∧ slots c = 0) (sh_breakers s)).
Proof.
  intros Hr l s. pose proof (gateway_pool_ok pl Hr) as Hok. pose proof Hok as (gs & Hinv & _).
  destruct Hinv as [[Hl _] Hp _ Hfw].
  assert (∀ t p, pl_threads pl !! t = Some p → returned p = false →
    ∃ pl' p', act_step pl pl' ∧ pl_threads pl' = <[t := p']> (pl_threads pl)) as Hgo.
  { intros t p Ht Hret. destruct (pool_ok_progress pl t p Hok Ht Hret) as (pl' & Hs & p' & Hp').
    by exists pl', p'. }
  rewrite built_stacks in Hp. fold s in Hp.
  destruct (inv_moment _ _ _ _ _ _ Hp) as (Hcap & _ & Hall). split_and!; [done | apply pools_end | | |].
  - intros Hm be Hbe. apply (Hcap be (cb_config (cfg_CircuitBreaker cfg))); [|done].
    by apply backend_configs_lookup.
  - intros t be req timeout Hin. destruct (Hfw t _ Hin) as [(a & Ha & Hyes) Hauth].
    destruct (lk_log _ _ _ _ Hl t a Ha) as (Hip & Hlim & _).
    split; [by exists a |]. split; [exact Hauth |]. rewrite Forall_forall in Hall. exact (Hall _ Hin).
  - intros Hstuck. assert (∀ t p, pl_threads pl !! t = Some p → returned p = true) as Hret.
    { intros t p Ht. destruct (returned p) eqn:Hb; [done |].
      destruct (Hgo t p Ht Hb) as (pl' & _ & Hs & _). by destruct (Hstuck pl'). }
    split; [done |]. destruct (pool_ok_returned pl Hok Hret) as (gs' & [_ Hp' _ _] & Hdone).
    rewrite built_stacks in Hp'. destruct (inv_idle _ _ _ _ _ _ Hp') as (Hup & _ & Hbs); [|done].
    intros t gh Hgh. apply lookup_fmap_Some in Hgh as (gg & <- & Hgg). by apply (Hdone t gg).
Qed.
End pool.

(** ** Witnesses *)

#[local] Existing Instances unrefilled toy_jwt merge_sorted demo_fmt demo_config_lib.

Definition traffic_stacks : gmap string Layers := (λ b, layers (effective b)) <$> gs_Breakers demo_state.

Definition traffic_program : Prog GatewayAction unit :=
  background (request_p demo_gateway (gs_Limiter demo_state) traffic_stacks (demo_io Finished) demo_get ∅).

(** Two requests of one client, and a reload between them. *)
Definition traffic_pool : GatewayPool :=
  mkPool (pl_shared (gateway_pool demo_state))
    (<[2%nat := background (OnReload_p demo_reloaded (map_to_list (gs_Breakers demo_state)).*1)]>
      (<[1%nat := traffic_program]> (<[0%nat := traffic_program]> ∅))).

(** The first request is admitted by the limiter; the reload empties the map of the
    limiter and sets the breakers; both requests are forwarded. *)
Definition traffic_schedule : list nat :=
  (replicate 5 0 ++ replicate 9 2 ++ replicate 14 1 ++ replicate 20 0 ++ replicate 20 1 ++ replicate 9 2)%nat.

Lemma traffic_reachable :
  rtc (pool_step (gateway_start demo_gateway demo_state (λ _, demo_get) (λ _, demo_io Finished) (λ c, c = demo_reloaded)))
    (gateway_pool demo_state) traffic_pool.
Proof.
  set (s := pl_shared (gateway_pool demo_state)).
  apply (rtc_l _ _ (mkPool s (<[0%nat := traffic_program]> ∅)));
    [|apply (rtc_l _ _ (mkPool s (<[1%nat := traffic_program]> (<[0%nat := traffic_program]> ∅))));
      [|apply rtc_once]].
  1,2: apply step_start; [done |];
    apply (start_served demo_gateway demo_state (λ _, demo_get) (λ _, demo_io Finished)).
  apply step_start; [done |]. by apply start_reloading.
Qed.

Lemma demo_reloaded_loadable : loadable demo_reloaded.
Proof.
  destruct demo_loadable as [(Hv1 & _ & Hv) Hmax]. split; [|exact Hmax]. split; [exact Hv1 |].
  split; [|exact Hv]. split_and!; [right; by vm_compute | by vm_compute..].
Qed.

Lemma gateway_interleavings_witness :
  ∃ pl, schedule traffic_schedule traffic_pool = Some pl ∧
    (sh_forwarded (gws_proxy (pl_shared pl))).*1 = [1; 0]%nat ∧
    map_Forall (λ _ c, composite_ok c ∧ slots c = 0) (sh_breakers (gws_proxy (pl_shared pl))) ∧
    ∃ a, (0%nat, a) ∈ ls_log (gws_limiter (pl_shared pl)) ∧ an_ok a = true ∧ k_ip (an_key a) = "10.0.0.1".
Proof.
  assert ((λ pl, ((sh_forwarded (gws_proxy (pl_shared pl))).*1,
      bool_decide (map_Forall (λ _ b, b = true) (returned <$> pl_threads pl)))) <$>
    schedule traffic_schedule traffic_pool = Some ([1; 0]%nat, true)) as Hv by by vm_compute.
  apply fmap_Some in Hv as (pl & Hpl & [= Hsent Hret]). exists pl. split; [done |].
  symmetry in Hret. apply bool_decide_eq_true in Hret.
  destruct (gateway_interleavings demo_config (Err "no certificate") demo_gateway demo_reloader demo_state
    (λ _, demo_get) (λ _, demo_io Finished) (λ c, c = demo_reloaded) demo_loadable demo_built_ok
    ltac:(by intros c ->; apply demo_reloaded_loadable) pl) as (_ & _ & _ & Hfw & Hend).
  { etrans; [apply traffic_reachable |]. apply schedule_steps in Hpl.
    eapply rtc_subrel; [|exact Hpl]. intros x y Hxy. by apply step_run. }
  split; [done |]. split.
  - apply Hend. intros pl' Hs. destruct Hs as [s s' ts t X a k x Ht _]. simpl in Hret.
    specialize (Hret t false). rewrite lookup_fmap, Ht in Hret. by specialize (Hret eq_refl).
  - assert (0%nat ∈ (sh_forwarded (gws_proxy (pl_shared pl))).*1) as Hin
      by (rewrite <-Hsent; right; by left).
    apply list_elem_of_fmap in Hin as ([t [[be req] timeout]] & Ht & Hin). simpl in Ht. subst t.
    destruct (Hfw _ _ _ _ Hin) as ((a & Ha & Hyes & Hip & _) & _). exists a. split; [done |]. split; [done |].
    rewrite Hip. by vm_compute.
Defined.
