(* ===== verification/ResponseHeaders.v ===== *)
(** * The headers of a response, through the whole chain

    [Gateway.request_handler] stacks nine layers on one header map, which each of
    them may write to, and which the reverse proxy fills with the backend's
    headers.  Here: what of it the client can rely on.  A layer that, given a
    header with a certain value, leaves it with that value is an instance of
    [Upholds]; the instances compose as the layers do. *)

From stdpp Require Import relations.
From S2P Require Import Prelude GoFloat GoStrings GoNet Metrics Config ConfigValidate CircuitBreaker Http Json ApiError Proxy Writers ProxyServe.
From S2P Require Import Middleware Auth RateLimit Deadline Logging Reload AdminJson Admin Gateway.

(** ** Calls that keep the value of a header *)

Definition keeps_value (k v : string) (op : WriterOp) : Prop :=
  match op with
  | OpHeader u => ∀ h, header_Get k h = v → header_Get k (u h) = v
  | _ => True
  end.

Definition upholds (k v : string) (ops : list (WriterOp * Time)) : Prop :=
  Forall (λ o, keeps_value k v o.1) ops.

(** The header has the value now, and had it in every call the client received. *)
Definition carried (k v : string) (c : Client) : Prop :=
  header_Get k (cl_header c) = v ∧
  Forall (λ call, header_Get k (call_header call) = v) (cl_calls c).

(** The headers the gateway itself may overwrite on the way. *)
Definition touched : list string :=
  ["Content-Type"; "Retry-After"; "X-Gateway-Latency"; "Access-Control-Allow-Origin";
   "Access-Control-Allow-Methods"; "Access-Control-Allow-Headers"; "Access-Control-Max-Age"].

(** A header the gateway sets once and means to keep. *)
Class Reserved (k v : string) := { reserved_name : k ∉ touched; reserved_value : v ≠ "" }.

(** The calls of an attempt add the backend's headers to those that are there: the
    first value of a header stays. *)
Definition adds_headers (a : Attempt) : Prop :=
  Forall (λ o, match o.1 with
               | OpHeader u => ∀ k h, header_Get k h ≠ "" → header_Get k (u h) = header_Get k h
               | _ => True
               end) (at_ops a).

(** The backend sent a 1xx before its response, which the reverse proxy passes on. *)
Definition informational (a : Attempt) : bool :=
  existsb (λ o, match o.1 with OpWriteHeader code => bool_decide (100 ≤ code ≤ 199) | _ => false end)
    (at_ops a).

(** The reverse proxy adds a response's headers ([copyHeader]).  After a 1xx it
    empties the header map, so nothing is assumed of an attempt with one. *)
Definition proxy_adds (a : Attempt) : Prop := informational a = false → adds_headers a.

Lemma header_Get_Set_ne k k' v h : k ≠ k' → header_Get k (header_Set k' v h) = header_Get k h.
Proof. intros Hk. unfold header_Get, header_Set. by rewrite lookup_insert_ne. Qed.

Lemma header_Get_Add k k' v h :
  header_Get k h ≠ "" → header_Get k (header_Add k' v h) = header_Get k h.
Proof.
  unfold header_Get, header_Add. destruct (decide (k = k')) as [->|Hk].
  - rewrite lookup_insert_eq. by destruct (h !! k') as [[|]|].
  - by rewrite lookup_insert_ne.
Qed.

Lemma header_Get_add_all k h' h :
  header_Get k h ≠ "" → header_Get k (header_add_all h' h) = header_Get k h.
Proof.
  unfold header_Get, header_add_all. rewrite lookup_union_with.
  destruct (h !! k) as [[|v l]|]; [done | | done]. intros _.
  by destruct (filter _ h' !! k).
Qed.

Section header.
Context (k v : string).

Lemma keeps_set `{!Reserved k v} k' v' : k' ∈ touched → keeps_value k v (OpHeader (header_Set k' v')).
Proof. intros Hk' h Hh. rewrite header_Get_Set_ne; [done |]. intros ->. by destruct (reserved_name (k := k') (v := v)). Qed.

Lemma keeps_json `{!Reserved k v} r st code msg : Forall (keeps_value k v) (json_ops r st code msg).
Proof. repeat constructor. apply keeps_set. by left. Qed.

Lemma upholds_stamped (ops : list WriterOp) (now : Time) :
  Forall (keeps_value k v) ops → upholds k v ((λ op, (op, now)) <$> ops).
Proof. intros Hops. by apply Forall_fmap. Qed.

Lemma upholds_fst ops : upholds k v ops ↔ Forall (keeps_value k v) (fst <$> ops).
Proof. symmetry. apply Forall_fmap. Qed.

Lemma upholds_json `{!Reserved k v} r st code msg now : upholds k v ((λ op, (op, now)) <$> json_ops r st code msg).
Proof. apply upholds_stamped, keeps_json. Qed.

Lemma carried_op op t c : keeps_value k v op → carried k v c → carried k v (writer_op op t c).
Proof.
  intros Hop [Hh Hc]. destruct op; simpl; split; simpl; auto;
    (apply Forall_app; split; [done | by repeat constructor]).
Qed.

Lemma carried_run ops c : upholds k v ops → carried k v c → carried k v (run_ops ops c).
Proof.
  revert c. induction ops as [|[op t] ops IH]; intros c Ho Hc; [done |].
  apply Forall_cons_iff in Ho as [Hop Ho]. apply (IH (writer_op op t c)); [done |]. by apply carried_op.
Qed.

Lemma carried_WriteJSON `{!Reserved k v} r st code msg now c :
  carried k v c → carried k v (WriteJSON r st code msg now c).
Proof. apply carried_run, upholds_json. Qed.

Lemma carried_sent c st h :
  carried k v c → sent_status (cl_calls c) = Some (st, h) → header_Get k h = v.
Proof.
  intros [_ Hc]. induction Hc as [|[code h'|b h'] cs Hcall _ IH]; simpl; [done | |].
  - case_decide; [done |]. by intros [= <- <-].
  - by intros [= <- <-].
Qed.

(** What is replayed of a client that carries the header. *)
Lemma upholds_replay t c : carried k v c → upholds k v (replay t c).
Proof.
  intros [Hh Hc]. apply upholds_stamped, Forall_app. split; [|by apply Forall_singleton; intros ? _].
  apply Forall_bind, (Forall_impl _ _ _ Hc). intros [code h|b h] Hcall;
    (constructor; [by intros ? _ | by repeat constructor]).
Qed.
End header.

(** ** The router

    The proxy's writers add a latency, replay adds a buffered header to the one
    that is there, the error handler answers in JSON. *)

Section proxy.
Context (k v : string) `{!Reserved k v}.

Definition recorder_carries (rr : Recorder) : Prop := carried k v (rr_client rr).

Lemma adds_headers_upholds a : adds_headers a → upholds k v (at_ops a).
Proof.
  intros Ha. apply (Forall_impl _ _ _ Ha). intros [[u|code|b] t] Hu; simpl in *; [|done..].
  intros h Hh. rewrite Hu; [done |]. rewrite Hh. apply reserved_value.
Qed.

Lemma attempt_ops_uphold req a : adds_headers a → upholds k v (attempt_ops req a).
Proof.
  intros Ha. apply Forall_app. split; [by apply adds_headers_upholds |].
  destruct (at_ending a); [constructor | by apply upholds_json | constructor].
Qed.

Lemma recorder_carries_run ops rr :
  upholds k v ops → recorder_carries rr → recorder_carries (run_ops ops rr).
Proof. intros Ho Hr. unfold recorder_carries. rewrite recorder_forwards. by apply carried_run. Qed.

Lemma recorder_carries_latency t rr :
  recorder_carries rr → recorder_carries (rw_Header (header_Set "X-Gateway-Latency" t) rr).
Proof.
  intros Hr. apply (recorder_carries_run [(OpHeader (header_Set "X-Gateway-Latency" t), 0)]); [|done].
  apply Forall_singleton, (keeps_set k v). unfold touched. set_solver.
Qed.

Lemma latency_op_carries op t lw :
  keeps_value k v op → recorder_carries (lw_ResponseWriter lw) →
  recorder_carries (lw_ResponseWriter (writer_op op t lw)).
Proof.
  assert (recorder_carries (lw_ResponseWriter lw) →
    recorder_carries (lw_ResponseWriter (latency_mark t lw))) as Hmark.
  { unfold latency_mark. destruct (lw_written lw); [done |]. apply recorder_carries_latency. }
  intros Hop Hr. destruct op; simpl.
  - by apply (recorder_carries_run [(OpHeader upd, t)]); [apply Forall_singleton |].
  - by apply (recorder_carries_run [(OpWriteHeader code, t)]); [repeat constructor | apply Hmark].
  - by apply (recorder_carries_run [(OpWrite body, t)]); [repeat constructor | apply Hmark].
Qed.

Lemma latency_carries ops lw :
  upholds k v ops → recorder_carries (lw_ResponseWriter lw) →
  recorder_carries (lw_ResponseWriter (run_ops ops lw)).
Proof.
  revert lw. induction ops as [|[op t] ops IH]; intros lw Ho Hr; [done |].
  apply Forall_cons_iff in Ho as [Hop Ho]. apply (IH (writer_op op t lw)); [done |].
  by apply latency_op_carries.
Qed.

Lemma replayTo_carries b t rr : recorder_carries rr → recorder_carries (replayTo b t rr).
Proof.
  apply (recorder_carries_run [(OpHeader (header_add_all (rb_header b)), t);
    (OpWriteHeader (rb_statusCode b), t); (OpWrite (rb_body b), t)]).
  repeat constructor. intros h Hh. rewrite header_Get_add_all; [done |]. rewrite Hh. apply reserved_value.
Qed.

Lemma rejected_answer_carries route req now rr :
  recorder_carries rr → recorder_carries (rejected_answer route req now rr).
Proof.
  unfold recorder_carries, rejected_answer. cbn [rr_client]. intros Hr.
  destruct (decide (r_FallbackStatus route ≠ 0)); [|by apply carried_WriteJSON].
  apply carried_run; [|done]. apply upholds_stamped. constructor; [|constructor; [done |]].
  - apply (keeps_set k v). by left.
  - destruct (decide _); by repeat constructor.
Qed.
End proxy.

(** One request at the proxy, whatever its breaker does. *)
Section serve.
Context {B : Type} `{AdmissionControl B} (k v : string) `{!Reserved k v}.

Definition serving_carries (s : Serving B) : Prop := recorder_carries k v (sv_recorder s).

Lemma record_outcome_recorder failed latency now (s s' : Serving B) :
  record_outcome failed latency now s = Some s' → sv_recorder s' = sv_recorder s.
Proof.
  unfold record_outcome. destruct (sv_breaker s); [|by intros [= <-]].
  destruct failed; intros ([b' evs] & _ & [= <-])%bind_Some; done.
Qed.

Lemma write_json_carries req st code msg now (s : Serving B) :
  serving_carries s → serving_carries (write_json req st code msg now s).
Proof. by apply (carried_WriteJSON k v). Qed.

Lemma final_attempt_carries route req start a s out s' :
  adds_headers a → serving_carries s →
  final_attempt route req start a s = Some (out, s') → serving_carries s'.
Proof.
  intros Ha Hs Hrun. unfold final_attempt in Hrun.
  set (s1 := on_recorder _ _) in Hrun.
  assert (serving_carries s1) as Hs1.
  { apply (latency_carries k v); [by apply (attempt_ops_uphold k v) | exact Hs]. }
  assert (∀ r, record_outcome (isRetryable (rr_statusCode (sv_recorder s1)))
    (time_sub (at_end a) (at_start a)) (at_end a) s1 = Some r → serving_carries r) as Hr.
  { intros r Hr. unfold serving_carries. by rewrite (record_outcome_recorder _ _ _ _ _ Hr). }
  destruct (at_ending a); try (by injection Hrun as _ <-);
    apply bind_Some in Hrun as (s2 & H2 & [= _ <-]); by apply Hr.
Qed.

Lemma buffered_attempt_carries m route req start n a s out :
  adds_headers a → serving_carries s →
  buffered_attempt m route req start n a s = Some out →
  serving_carries match out with inl (_, s') => s' | inr s' => s' end.
Proof.
  intros Ha Hs Hrun. unfold buffered_attempt in Hrun. set (buf := run_ops _ _) in Hrun.
  assert (∀ f s', record_outcome f (time_sub (at_end a) (at_start a)) (at_end a)
    (forward route req s) = Some s' → recorder_carries k v (sv_recorder s')) as Hr.
  { intros f s' Hr. by rewrite (record_outcome_recorder _ _ _ _ _ Hr). }
  assert (at_ending a = Aborted ∧ out = inl (LoopPanic, forward route req s) ∨
    ∃ f s', record_outcome f (time_sub (at_end a) (at_start a)) (at_end a)
      (forward route req s) = Some s' ∧
      sv_recorder match out with inl (_, s') => s' | inr s' => s' end =
        (if f then sv_recorder s' else
           replayTo buf (at_end a) (rw_Header (header_Set "X-Gateway-Latency"
             (duration_string (time_sub (at_end a) start))) (sv_recorder s')))) as Hcases.
  { destruct (at_ending a); [right | right | left; by injection Hrun as <-];
      destruct (negb (isRetryable (rb_statusCode buf)));
      apply bind_Some in Hrun as (s' & Hs' & [= <-]); by eexists _, s'. }
  destruct Hcases as [[_ ->]|(f & s' & Hs' & Hout)]; [exact Hs |].
  unfold serving_carries. rewrite Hout. destruct f; [by apply (Hr true) |].
  apply (replayTo_carries k v), (recorder_carries_latency k v). by apply (Hr false).
Qed.

Lemma attempt_loop_carries m route req start n attempts s out s' :
  Forall adds_headers attempts → serving_carries s →
  attempt_loop m route req start n attempts s = Some (out, s') → serving_carries s'.
Proof.
  revert n s. induction attempts as [|a attempts IH]; intros n s Ha Hs Hrun; [done |].
  apply Forall_cons_iff in Ha as [Ha Has]. simpl in Hrun.
  destruct (at_cancelled a); [injection Hrun as _ <-; by apply write_json_carries |].
  case_decide; [by eapply final_attempt_carries |].
  apply bind_Some in Hrun as (r & Hr & Hrun).
  pose proof (buffered_attempt_carries _ _ _ _ _ _ _ _ Ha Hs Hr) as Hs'.
  destruct r as [[o s1]|s1]; [by injection Hrun as _ <- | by eapply IH].
Qed.

Lemma serve_admitted_carries rt m route env req s out s' :
  Forall adds_headers (en_attempts env) → serving_carries s →
  serve_admitted rt m route env req s = Some (out, s') → serving_carries s'.
Proof.
  intros Ha Hs Hrun. unfold serve_admitted in Hrun.
  apply bind_Some in Hrun as ([o s1] & Hloop & [= _ <-]).
  assert (serving_carries s1) as Hs1; [|by destruct o].
  destruct (rt_routeBackendKey rt !! _ ≫= _).
  - by eapply attempt_loop_carries; [..| exact Hloop].
  - apply bind_Some in Hloop as (a & _ & [= Hout]).
    destruct (at_cancelled a); injection Hout as _ <-; [by apply write_json_carries | exact Hs].
Qed.

Lemma ServeHTTP_carries rt m breakers env req c out s :
  Forall adds_headers (en_attempts env) → carried k v c →
  ServeHTTP rt m breakers env req c = Some (out, s) → serving_carries s.
Proof.
  intros Ha Hc Hrun. unfold ServeHTTP in Hrun.
  assert (∀ b, serving_carries (mkServing (mkRecorder c StatusOK false) b [] [] [])) as H0 by done.
  destruct (matchRoute rt (rq_Path req)) as [route|];
    [|injection Hrun as _ <-; by apply write_json_carries].
  destruct (negb (method_allowed _ _ _)); [injection Hrun as _ <-; by apply write_json_carries |].
  destruct (breakers !! r_Backend route) as [b|]; [|by eapply serve_admitted_carries].
  destruct (ac_Allow b (en_start env)) as [[admitted b'] evs].
  destruct (negb admitted); [injection Hrun as _ <-; by apply (rejected_answer_carries k v) |].
  apply bind_Some in Hrun as ([o s1] & H1 & Hrun).
  apply bind_Some in Hrun as (b2 & _ & Hrun). apply bind_Some in Hrun as ([b3 evs'] & _ & [= _ <-]).
  assert (serving_carries s1) as Hs1 by (by eapply serve_admitted_carries; [..| exact H1]). exact Hs1.
Qed.
End serve.

(** ** The race with the deadline *)

Section race.
Context (k v : string) `{!Reserved k v} (r : Request).

(** The calls of both goroutines still to come keep the header. *)
Definition race_upholds (s : DeadlineState) : Prop :=
  Forall (keeps_value k v) (todo s) ∧
  match dl_main s with MAnswer ops => Forall (keeps_value k v) ops | _ => True end.

Lemma move_cases s mv :
  let s' := move r s mv in
  (∃ op, dl_client s' = apply_op op (dl_client s) ∧ todo s = op :: todo s' ∧ dl_main s' = dl_main s) ∨
  (∃ op ops, dl_client s' = apply_op op (dl_client s) ∧ todo s' = todo s ∧
     dl_main s = MAnswer (op :: ops) ∧ dl_main s' = MAnswer ops) ∨
  (dl_client s' = dl_client s ∧ todo s' = todo s ∧
     (dl_main s' = dl_main s ∨ dl_main s' = MAnswer (deadline_ops r) ∨
      ∀ ops, dl_main s' ≠ MAnswer ops)).
Proof.
  destruct s as [c cl p ops d m]. destruct mv; unfold move, todo, tryClaimWrite; simpl.
  - destruct p as [op|]; simpl; [left; by exists op |].
    destruct ops as [|[u|code|b] ops]; simpl; [|left; by exists (OpHeader u)|..];
      right; right; by split_and!; auto.
  - right; right. destruct m; simpl; split_and!; auto.
  - right. destruct m as [| |[|op aops]| |]; simpl.
    + right. destruct d; simpl; split_and!; auto.
    + right. destruct cl; simpl; split_and!; auto.
    + right. by split_and!; auto.
    + left. by exists op, aops.
    + right. destruct d; simpl; split_and!; auto.
    + right. split_and!; auto.
Qed.

Lemma move_carried s mv :
  carried k v (dl_client s) ∧ race_upholds s →
  carried k v (dl_client (move r s mv)) ∧ race_upholds (move r s mv).
Proof.
  intros [Hc [Ht Hm]]. unfold race_upholds.
  destruct (move_cases s mv) as [(op & -> & Htodo & ->)|[(op & ops & -> & -> & Ha & ->)|(-> & -> & Hmain)]].
  - rewrite Htodo in Ht. apply Forall_cons_iff in Ht as [Hop Ht].
    split; [by apply carried_op | by split].
  - rewrite Ha in Hm. apply Forall_cons_iff in Hm as [Hop Hm].
    split; [by apply carried_op | by split].
  - split; [done |]. split; [done |]. destruct Hmain as [->|[->|Hno]]; [done | apply keeps_json; apply _ |].
    destruct (dl_main (move r s mv)); try done. by destruct (Hno ops).
Qed.

Lemma moves_carried mvs s :
  carried k v (dl_client s) → race_upholds s → carried k v (dl_client (foldl (move r) s mvs)).
Proof.
  intros Hc Hr. assert (carried k v (dl_client s) ∧ race_upholds s) as H by done. clear Hc Hr.
  revert s H. induction mvs as [|mv mvs IH]; intros s H; [apply H |]. simpl. by apply IH, move_carried.
Qed.
End race.

(** ** A header that is set first

    Calls that set the header before they write anything, and keep it. *)
Inductive sets_first (k v : string) : list WriterOp → Prop :=
| sets_here ops : Forall (keeps_value k v) ops → sets_first k v (OpHeader (header_Set k v) :: ops)
| sets_later u ops : sets_first k v ops → sets_first k v (OpHeader u :: ops).

(** The status line a client is sent is the deadline's, or comes with the header. *)
Definition answers (k v : string) (cs : list ClientCall) : Prop :=
  ∀ code h, sent_status cs = Some (code, h) → code = StatusGatewayTimeout ∨ header_Get k h = v.

Lemma sent_status_snoc cs c :
  sent_status (cs ++ [c]) = match sent_status cs with Some a => Some a | None => sent_status [c] end.
Proof. induction cs as [|[code h|b h] cs IH]; simpl; [done | by case_decide | done]. Qed.

Section first.
Context (k v : string) `{!Reserved k v} (r : Request).

Lemma sets_first_app ops ops' :
  sets_first k v ops → Forall (keeps_value k v) ops' → sets_first k v (ops ++ ops').
Proof. induction 1; intros Ho; simpl; constructor; auto. by apply Forall_app. Qed.

Lemma sets_first_run ops ops' :
  sets_first k v (fst <$> ops) → upholds k v ops' → sets_first k v (fst <$> (ops ++ ops')).
Proof. intros Hs Ho. rewrite fmap_app. apply sets_first_app; [done | by apply upholds_fst]. Qed.

Lemma sets_first_later us ops :
  sets_first k v ops → sets_first k v ((OpHeader <$> us) ++ ops).
Proof. intros Hs. induction us; simpl; [done | by constructor]. Qed.

Lemma sets_first_carried ops w :
  sets_first k v (fst <$> ops) → carried k v (run_ops ops (mkClient w [])).
Proof.
  revert w. induction ops as [|[op t] ops IH]; intros w Hs; [by inversion Hs |].
  inversion Hs as [ops' Ho|u ops' Ho]; subst; [|by apply IH].
  apply (carried_run k v ops); [by apply upholds_fst |]. split; [apply header_Get_Set | constructor].
Qed.

Lemma answers_snoc cs c :
  answers k v cs → (∀ code h, sent_status [c] = Some (code, h) →
    code = StatusGatewayTimeout ∨ header_Get k h = v) → answers k v (cs ++ [c]).
Proof.
  intros Hcs Hc code h. rewrite sent_status_snoc.
  destruct (sent_status cs) as [[]|] eqn:He; [|apply Hc]. intros [= <- <-]. by apply Hcs.
Qed.

Lemma sent_one c code h : sent_status [c] = Some (code, h) → h = call_header c.
Proof. destruct c; simpl; [case_decide |]; congruence. Qed.

(** What a call of the handler or of the deadline's answer does to the client. *)
Lemma apply_op_calls op c :
  cl_calls (apply_op op c) = cl_calls c ++
    match op with
    | OpHeader _ => []
    | OpWriteHeader code => [CallWriteHeader code (cl_header c)]
    | OpWrite b => [CallWrite b (cl_header c)]
    end.
Proof. destruct op; simpl; by rewrite ?app_nil_r. Qed.

Lemma apply_op_sent op c : sent_status (cl_calls c) ≠ None → sent_status (cl_calls (apply_op op c)) ≠ None.
Proof.
  intros Hs. rewrite apply_op_calls. destruct op; rewrite ?app_nil_r, ?sent_status_snoc; [done | ..];
    by destruct (sent_status (cl_calls c)).
Qed.

Lemma apply_op_answers op c :
  header_Get k (cl_header c) = v → answers k v (cl_calls c) → answers k v (cl_calls (apply_op op c)).
Proof.
  intros Hh Ha. rewrite apply_op_calls. destruct op; rewrite ?app_nil_r; [done | ..];
    (apply answers_snoc; [done |]; intros code' h' ->%sent_one; by right).
Qed.

(** In the race: the handler is before setting the header, or after it; and once the
    deadline's status is written, a status has been sent. *)
Definition handler_sets (c : Client) (ops : list WriterOp) : Prop :=
  sets_first k v ops ∨ (header_Get k (cl_header c) = v ∧ Forall (keeps_value k v) ops).

Definition main_answers (s : DeadlineState) : Prop :=
  match dl_main s with
  | MAnswer ops =>
      ops = deadline_ops r ∨ ops = tail (deadline_ops r) ∨
      (Forall (keeps_value k v) ops ∧ sent_status (cl_calls (dl_client s)) ≠ None)
  | _ => True
  end.

Record first_inv (s : DeadlineState) : Prop := {
  fi_handler : handler_sets (dl_client s) (todo s);
  fi_main : main_answers s;
  fi_answers : answers k v (cl_calls (dl_client s))
}.

Lemma handler_sets_op c op ops :
  handler_sets c ops → keeps_value k v op → handler_sets (apply_op op c) ops.
Proof. intros [Hs|[Hh Ho]] Hop; [by left | right]. split; [|done]. destruct op; simpl; auto. Qed.

Lemma handler_calls c op ops :
  handler_sets c (op :: ops) → answers k v (cl_calls c) →
  handler_sets (apply_op op c) ops ∧ answers k v (cl_calls (apply_op op c)).
Proof.
  intros [Hs|[Hh Ho]] Ha.
  - inversion Hs; subst; (split; [|done]); [right; split; [apply header_Get_Set | done] | by left].
  - apply Forall_cons_iff in Ho as [Hop Ho]. split; [|by apply apply_op_answers].
    apply handler_sets_op; [by right | done].
Qed.

Lemma main_calls s op ops :
  dl_main s = MAnswer (op :: ops) → main_answers s → answers k v (cl_calls (dl_client s)) →
  keeps_value k v op ∧ answers k v (cl_calls (apply_op op (dl_client s))) ∧
  (ops = tail (deadline_ops r) ∨
   (Forall (keeps_value k v) ops ∧ sent_status (cl_calls (apply_op op (dl_client s))) ≠ None)).
Proof.
  intros Hm Hma Ha. unfold main_answers in Hma. rewrite Hm in Hma.
  pose proof (keeps_json k v (Some r) StatusGatewayTimeout DeadlineExceeded
    "global request deadline exceeded") as Hj.
  destruct Hma as [Hops|[Hops|[Hops Hsent]]].
  - injection Hops as -> ->. apply Forall_cons_iff in Hj as [Hop _].
    split; [done |]. split; [done | by left].
  - injection Hops as -> ->. split; [done |]. rewrite apply_op_calls. split.
    + apply answers_snoc; [done |]. intros code h [= <- _]. by left.
    + right. split; [by repeat constructor |]. rewrite sent_status_snoc.
      by destruct (sent_status (cl_calls (dl_client s))).
  - apply Forall_cons_iff in Hops as [Hop Hops]. split; [done |]. split.
    + rewrite apply_op_calls. destruct op; rewrite ?app_nil_r; [done | ..]; intros code' h';
        rewrite sent_status_snoc; destruct (sent_status (cl_calls (dl_client s))) eqn:He; try done;
        intros [= ->]; by apply Ha.
    + right. split; [done | by apply apply_op_sent].
Qed.

Lemma move_first s mv : first_inv s → first_inv (move r s mv).
Proof.
  intros [Hh Hm Ha].
  destruct (move_cases r s mv) as [(op & Hc & Ht & Hmain)|[(op & ops & Hc & Ht & Hs & Hmain)|(Hc & Ht & Hmain)]].
  - rewrite Ht in Hh. destruct (handler_calls _ _ _ Hh Ha) as [Hh' Ha'].
    split; rewrite ?Hc; [done | | done]. unfold main_answers in *. rewrite Hmain, Hc.
    destruct (dl_main s); try done. destruct Hm as [?|[?|[? ?]]]; auto using apply_op_sent.
  - destruct (main_calls s op ops Hs Hm Ha) as (Hop & Ha' & Hops).
    split; rewrite ?Hc, ?Ht; [by apply handler_sets_op | | done].
    unfold main_answers. rewrite Hmain, Hc. destruct Hops; auto.
  - split; rewrite ?Hc, ?Ht; [done | | done]. unfold main_answers in *. rewrite Hc.
    destruct Hmain as [->|[->|Hno]]; [done | by left |].
    destruct (dl_main (move r s mv)); try done. by destruct (Hno ops).
Qed.

Lemma moves_first mvs s : first_inv s → first_inv (foldl (move r) s mvs).
Proof. revert s. induction mvs as [|mv mvs IH]; intros s Hs; [done |]. simpl. by apply IH, move_first. Qed.
End first.

(** ** Handlers *)

(** A handler given a header that has the value leaves it so, in every call. *)
Class Upholds (k v : string) {S : Type} (next : Handler S) :=
  upholding st r w : header_Get k w = v → upholds k v (h_ops (next st r w)).

(** For the requests described it puts the value there before it writes anything. *)
Class Establishes (k v : string) {S : Type} (P : Request → Prop) (next : Handler S) :=
  establishing st r w : P r → sets_first k v (fst <$> h_ops (next st r w)).

Section layers.
Context (k v : string) `{!Reserved k v} {S : Type} (now : Time).
Implicit Types next : Handler S.

(** Calls of a layer before its handler's. *)
Lemma before_upholds ops (next : Header → HandlerRun S) w :
  Forall (keeps_value k v) ops →
  (∀ w, header_Get k w = v → upholds k v (h_ops (next w))) →
  header_Get k w = v → upholds k v (h_ops (before ops now next w)).
Proof.
  intros Hops Hnext Hw. apply Forall_app. split; [by apply upholds_stamped |]. apply Hnext.
  unfold header_after. clear Hnext. revert w Hw.
  induction Hops as [|[u|code|b] ops Hop _ IH]; intros w Hw; simpl; [done | apply IH; by apply Hop | by apply IH..].
Qed.

Lemma answer_upholds ops (s : S) r : Forall (keeps_value k v) ops → upholds k v (h_ops (answer ops now s r)).
Proof. apply upholds_stamped. Qed.

#[export] Instance BodyLimit_upholds max next : Upholds k v next → Upholds k v (BodyLimit max now next).
Proof.
  intros Hnext st r w Hw. unfold BodyLimit. case_decide; [by apply answer_upholds, keeps_json |].
  by apply Hnext.
Qed.

#[export] Instance CORS_upholds cfg next : Upholds k v next → Upholds k v (CORS cfg now next).
Proof.
  intros Hnext st r w. unfold CORS. apply before_upholds.
  - case_decide; [|constructor]. rewrite !Forall_cons, Forall_nil.
    split_and!; [apply keeps_set; [apply _ | unfold touched; set_solver].. | done].
  - intros w' Hw'. case_decide; [apply answer_upholds; by repeat constructor | by apply Hnext].
Qed.

#[export] Instance Recovery_upholds next : Upholds k v next → Upholds k v (Recovery now next).
Proof.
  intros Hnext st r w Hw. unfold Recovery. destruct (h_exit _); [by apply Hnext |].
  apply Forall_app. split; [by apply Hnext | by apply upholds_json].
Qed.
End layers.

(** ** The gateway's layers *)

(** What [SecurityHeaders] sets for a request. *)
Definition security_headers (r : Request) : list (string * string) :=
  [("X-Content-Type-Options", "nosniff"); ("X-Frame-Options", "DENY"); ("X-Xss-Protection", "0")] ++
  if rq_TLS r || bool_decide (header_Get "X-Forwarded-Proto" (rq_Header r) = "https")
  then [("Strict-Transport-Security", "max-age=31536000; includeSubDomains")] else [].

Lemma SecurityHeaders_sets {S} now (next : Handler S) st r :
  SecurityHeaders now next st r =
  before (OpHeader <$> ((λ kv, header_Set kv.1 kv.2) <$> security_headers r)) now (next st r).
Proof. unfold SecurityHeaders, security_headers. by destruct (_ || _). Qed.

Lemma security_headers_distinct r : NoDup (security_headers r).*1.
Proof. unfold security_headers. destruct (_ || _); by apply (bool_decide_unpack _). Qed.

Lemma security_headers_reserved r k v : (k, v) ∈ security_headers r → Reserved k v ∧ k ≠ "X-Request-Id".
Proof.
  assert (Forall (λ kv, (kv.1 ∉ touched) ∧ kv.2 ≠ "" ∧ kv.1 ≠ "X-Request-Id") (security_headers r)) as Hall.
  { unfold security_headers. destruct (_ || _); by apply (bool_decide_unpack _). }
  intros Hin. rewrite Forall_forall in Hall. by destruct (Hall _ Hin) as (? & ? & ?).
Qed.

Section chain.
Context `{TokenBucket, JwtLib, ConfigLib, SortSlice, GoFmt, GoJson} {Cert : Type}.
Context (g : Gateway (Cert := Cert)) (io : IO) (Hadds : Forall adds_headers (en_attempts (io_env io))).
Implicit Types (st : GState) (next : Handler GState).

(** Authentication passes the request on, or answers in JSON. *)
Lemma AuthMiddleware_cases {W} `{ResponseWriter W} cfg requires m (next : option Claims → W → W) now r w :
  (∃ claims, (AuthMiddleware cfg requires m next now r w).1 = next claims w) ∨
  (∃ status code msg, (AuthMiddleware cfg requires m next now r w).1 = WriteJSON (Some r) status code msg now w).
Proof.
  unfold AuthMiddleware. destruct (negb _ || negb _); [left; by eexists |].
  destruct (extractBearerToken r); [|right; by eexists _, _, _].
  destruct (validateToken _ _ _); [left; by eexists |].
  right. destruct (isScopeError _); by eexists _, _, _.
Qed.

(** The limiter too passes it on, or refuses it. *)
Lemma RateLimitMiddleware_cases {W} `{ResponseWriter W} (next : W → W) rd r l w :
  (RateLimitMiddleware next rd r l w).1.2 = next w ∨
  ∃ rate, (RateLimitMiddleware next rd r l w).1.2 = reject r rate (rd_allow rd) w.
Proof.
  unfold RateLimitMiddleware. destruct (limitsForPath _ _) as [[rate burst] prefix].
  destruct (getLimiter _ _ _ _ _) as [p l1]. destruct (allow_at _ _ _) as [[] l2];
    [by left | right; by eexists].
Qed.

Section value.
Context (k v : string) `{!Reserved k v}.

Lemma flow_carried ops (f : Flow) :
  upholds k v ops → carried k v (fl_client f) → carried k v (fl_client (run_ops ops f)).
Proof. intros Ho Hf. rewrite flow_ops. by apply carried_run. Qed.

Lemma router_carried r f :
  carried k v (fl_client f) → carried k v (fl_client (router_handler g io r f)).
Proof.
  intros Hf. unfold router_handler.
  destruct (ServeHTTP _ _ _ _ _ _) as [[exit sv]|] eqn:Hs; [|done].
  exact (ServeHTTP_carries k v _ _ _ _ _ _ _ _ Hadds Hf Hs).
Qed.

Lemma WriteJSON_carried r status code msg now (f : Flow) :
  carried k v (fl_client f) → carried k v (fl_client (WriteJSON (Some r) status code msg now f)).
Proof. apply flow_carried, upholds_json; apply _. Qed.

Lemma auth_carried r f :
  carried k v (fl_client f) → carried k v (fl_client (auth_handler g io r f)).
Proof.
  intros Hf. unfold auth_handler.
  match goal with |- context [AuthMiddleware ?a ?b ?c ?d ?e ?r ?f] =>
    pose proof (AuthMiddleware_cases a b c d e r f) as Hc; destruct (AuthMiddleware a b c d e r f) as [f' evs]
  end.
  cbn [fst fl_client] in *. destruct Hc as [(cl & ->)|(st & code & msg & ->)];
    [by apply router_carried | by apply WriteJSON_carried].
Qed.

Lemma reject_carried r rate now (f : Flow) :
  carried k v (fl_client f) → carried k v (fl_client (reject r rate now f)).
Proof.
  intros Hf. unfold reject. apply WriteJSON_carried.
  apply (flow_carried [(OpHeader (header_Set "Retry-After" _), 0)]); [|done].
  apply Forall_singleton, keeps_set; [apply _ | unfold touched; set_solver].
Qed.

#[export] Instance limited_upholds : Upholds k v (limited_handler g io).
Proof.
  intros st r w Hw. unfold limited_handler.
  assert (carried k v (fl_client (new_flow st r w))) as Hf by (split; [done | constructor]).
  fold (new_flow st r w).
  match goal with |- context [RateLimitMiddleware ?a ?b ?c ?d ?e] =>
    pose proof (RateLimitMiddleware_cases a b c d e) as Hc; destruct (RateLimitMiddleware a b c d e) as [[l f'] evs]
  end.
  cbn [fst snd h_ops] in *. apply upholds_replay.
  destruct Hc as [->|(rate & ->)]; [by apply auth_carried | by apply reject_carried].
Qed.

#[export] Instance logging_upholds next : Upholds k v next → Upholds k v (logging_handler g io next).
Proof. intros Hnext st r w Hw. unfold logging_handler. simpl. rewrite Logging_run. by apply Hnext. Qed.

#[export] Instance deadline_upholds timeout next :
  Upholds k v next → Upholds k v (deadline_handler timeout io next).
Proof.
  intros Hnext st r w Hw. unfold deadline_handler, Deadline. specialize (Hnext st r w Hw).
  case_decide; [done |]. destruct (h_exit _); [|done]. apply upholds_replay, moves_carried; [apply _ | by split; [|constructor] |].
  split; [|done]. by apply Forall_fmap.
Qed.
(** A layer outside keeps what a layer inside has set, and comes before it. *)
#[export] Instance Recovery_establishes P now next :
  Establishes k v P next → Establishes k v P (Recovery now next).
Proof.
  intros Hnext st r w Hr. unfold Recovery. destruct (h_exit _); [by apply Hnext |].
  apply (sets_first_run k v (h_ops (next st r w))); [by apply Hnext | by apply upholds_json].
Qed.

Lemma before_ops ops now (next : Header → HandlerRun GState) w :
  fst <$> h_ops (before ops now next w) = ops ++ (fst <$> h_ops (next (header_after ops w))).
Proof. unfold before. cbn [h_ops]. simpl. rewrite fmap_app. f_equal. induction ops; simpl; by f_equal. Qed.

Lemma header_after_app ops ops' w : header_after (ops ++ ops') w = header_after ops' (header_after ops w).
Proof. apply foldl_app. Qed.

Lemma header_after_keeps ops w :
  Forall (keeps_value k v) ops → header_Get k w = v → header_Get k (header_after ops w) = v.
Proof.
  intros Ho. revert w. induction Ho as [|[u|code|b] ops Hop _ IH]; intros w Hw; simpl; auto.
Qed.

(** A layer that sets the header, and others around it, before a handler that
    upholds it. *)
Lemma before_establishes us us' now (next : Header → HandlerRun GState) w :
  Forall (keeps_value k v) (OpHeader <$> us') →
  (∀ w, header_Get k w = v → upholds k v (h_ops (next w))) →
  sets_first k v (fst <$> h_ops (before ((OpHeader <$> us) ++ OpHeader (header_Set k v) ::
    (OpHeader <$> us')) now next w)).
Proof.
  intros Hus Hnext. rewrite before_ops, <-app_assoc. apply sets_first_later. simpl. constructor.
  apply Forall_app. split; [done |]. apply upholds_fst, Hnext. rewrite header_after_app.
  apply (header_after_keeps (OpHeader <$> us')); [done | apply header_Get_Set].
Qed.

#[export] Instance SecurityHeaders_establishes now next :
  Upholds k v next → Establishes k v (λ r, (k, v) ∈ security_headers r) (SecurityHeaders now next).
Proof.
  intros Hnext st r w Hr. rewrite SecurityHeaders_sets.
  apply list_elem_of_split in Hr as (l & l' & Hl).
  pose proof (security_headers_distinct r) as Hnd. rewrite Hl in Hnd |- *.
  rewrite fmap_app, fmap_cons, !fmap_app, fmap_cons. rewrite fmap_app, fmap_cons in Hnd.
  apply before_establishes; [|intros w'; apply Hnext].
  apply Forall_fmap, Forall_fmap, Forall_forall. intros [k' v'] Hin h Hh. simpl.
  rewrite header_Get_Set_ne; [done |]. intros ->.
  apply NoDup_app in Hnd as (_ & _ & Hnd). apply NoDup_cons in Hnd as [Hnd _]. apply Hnd.
  apply list_elem_of_fmap. by exists (k', v').
Qed.

Lemma RequestID_establishes P rnd now next :
  (∀ r id, P r → P (r <| rq_Header := header_Set "X-Request-Id" id (rq_Header r) |>
                      <| rq_RequestID := Some id |>)) →
  Establishes k v P next → Establishes k v P (RequestID rnd now next).
Proof.
  intros HP Hnext st r w Hr. unfold RequestID. rewrite before_ops. apply (sets_first_later k v [_]).
  by apply Hnext, HP.
Qed.

Lemma deadline_off P timeout next :
  timeout ≤ 0 → Establishes k v P next → Establishes k v P (deadline_handler timeout io next).
Proof.
  intros Ht Hnext st r w Hr. unfold deadline_handler, Deadline. rewrite decide_True by done.
  by apply Hnext.
Qed.

(** With a deadline, what is sent first has the header or is the 504. *)
Lemma deadline_on P timeout next st r w :
  Establishes k v P next → P r →
  answers k v (cl_calls (run_ops (h_ops (deadline_handler timeout io next st r w)) (mkClient w []))).
Proof.
  intros Hnext Hr. specialize (Hnext st r w Hr). unfold deadline_handler, Deadline.
  assert (answers k v (cl_calls (run_ops (h_ops (next st r w)) (mkClient w [])))) as Hplain.
  { intros code h Hs. right. eapply carried_sent; [|exact Hs]. by apply sets_first_carried. }
  case_decide; [done |]. destruct (h_exit _); [|done]. cbn [h_ops].
  assert (∀ c, h_ops ((next st r w) <| h_ops := replay (io_now io) c |>) = replay (io_now io) c) as -> by done.
  rewrite run_replay. apply moves_first; [apply _ |]. split; [by left | done | by intros ? ?].
Qed.
End value.

(** ** Through the chain *)

Lemma with_id_nonempty r : GetRequestID (with_id io r) ≠ "".
Proof.
  unfold GetRequestID, with_id. simpl. case_decide; [|done].
  unfold newUUID. intros He. apply (f_equal len) in He. rewrite !len_app in He. simpl in He. lia.
Qed.

#[export] Instance request_id_reserved r : Reserved "X-Request-Id" (GetRequestID (with_id io r)).
Proof. split; [by apply (bool_decide_unpack _) | apply with_id_nonempty]. Qed.

(** The chain beneath the request ID and the deadline. *)
Definition secured_handler : Handler GState :=
  let now := io_now io in
  SecurityHeaders now (logging_handler g io (CORS DefaultCORSConfig now
    (BodyLimit (s_MaxBodyBytes (cfg_Server (g_Config g))) now (limited_handler g io)))).

#[export] Instance secured_upholds r : Upholds "X-Request-Id" (GetRequestID (with_id io r)) secured_handler.
Proof.
  intros st r' w Hw. unfold secured_handler. rewrite SecurityHeaders_sets.
  apply before_upholds; [| |done].
  - apply Forall_fmap, Forall_fmap, Forall_forall. intros [k v] Hin h Hh. simpl.
    rewrite header_Get_Set_ne; [done |]. by destruct (security_headers_reserved r' k v Hin) as [_ ?].
  - intros w' Hw'. by apply (upholding (k := "X-Request-Id") (v := GetRequestID (with_id io r))).
Qed.

Lemma secured_establishes r k v :
  (k, v) ∈ security_headers r → Establishes k v (λ r, (k, v) ∈ security_headers r) secured_handler.
Proof. intros [? _]%security_headers_reserved. unfold secured_handler. apply _. Qed.

Lemma request_handler_layers :
  request_handler g io =
    Recovery (io_now io) (RequestID (io_rnd io) (io_now io)
      (deadline_handler (GlobalTimeout (cfg_Server (g_Config g))) io secured_handler)).
Proof. done. Qed.

(** What a client is sent has the request's ID. *)
Lemma chain_request_id st r :
  carried "X-Request-Id" (GetRequestID (with_id io r)) (run_ops (h_ops (request_handler g io st r ∅)) new_client).
Proof.
  rewrite request_handler_layers. apply sets_first_carried.
  apply (Recovery_establishes _ _ (λ r', r' = r)); [|done]. intros st' r' w ->.
  unfold RequestID. rewrite before_ops. constructor.
  apply upholds_fst.
  apply (deadline_upholds "X-Request-Id" (GetRequestID (with_id io r))); [apply _ | apply header_Get_Set].
Qed.

Lemma security_headers_with_id r id :
  security_headers (r <| rq_Header := header_Set "X-Request-Id" id (rq_Header r) |>
                      <| rq_RequestID := Some id |>) = security_headers r.
Proof. unfold security_headers. simpl. by rewrite header_Get_Set_ne. Qed.

(** With a deadline nothing is left for [Recovery] to do. *)
Lemma deadline_returns next st r w :
  timed g →
  h_exit (deadline_handler (GlobalTimeout (cfg_Server (g_Config g))) io next st r w) = Returned.
Proof.
  unfold timed, deadline_handler, Deadline. intros Ht. rewrite decide_False by lia.
  by destruct (h_exit (next st r w)) eqn:He.
Qed.

(** And the security headers, or the deadline's answer. *)
Lemma chain_security st r k v :
  (k, v) ∈ security_headers r →
  let c := run_ops (h_ops (request_handler g io st r ∅)) new_client in
  if decide (timed g) then answers k v (cl_calls c) else carried k v c.
Proof.
  intros Hin c. unfold c. clear c. rewrite request_handler_layers.
  pose proof (secured_establishes r k v Hin) as Hest.
  destruct (security_headers_reserved r k v Hin) as [? _]. case_decide as Ht.
  - unfold Recovery, RequestID, before. cbn zeta.
    match goal with |- context [deadline_handler ?t io ?next st ?r' ?w] =>
      assert (h_exit (deadline_handler t io next st r' w) = Returned) as He by (by apply deadline_returns);
      pose proof (deadline_on k v _ t next st r' w Hest) as Hon
    end.
    destruct (deadline_handler _ io _ st _ _) as [ops e p h st'] eqn:Hd. simpl in He. subst e.
    apply Hon. by rewrite security_headers_with_id.
  - apply sets_first_carried.
    apply (Recovery_establishes _ _ (λ r, (k, v) ∈ security_headers r)); [|done].
    apply RequestID_establishes; [intros r' id; by rewrite security_headers_with_id |].
    apply deadline_off; [unfold timed in Ht; lia | done].
Qed.
End chain.

(** ** Properties *)

(** C27. Every response of the request path -- an answer of the middleware or the
    proxy, a backend's response that no informational (1xx) one preceded, an error
    after a panic, buffered, retried or not, in any state of the gateway and under
    any schedule of the deadline's race -- comes with the request's ID, which is
    the one the request brought, if it did, and with the security headers; only a
    504 under a global timeout may lack these, for the deadline stands above them.
    The reverse proxy is assumed to add the headers of such a response to those it
    finds; after a 1xx it empties the header map, and a response that follows one
    comes without ([early_hints_drop_headers]). *)
Theorem response_headers `{TokenBucket, JwtLib, ConfigLib, SortSlice, GoFmt, GoJson} {Cert : Type}
    (metrics_page : list MetricEvent → Request → list WriterOp) (g : Gateway (Cert := Cert)) (cur : Config) (io : IO)
    (st : GState) (r : Request) (code : Z) (h : Header) :
  bypasses (g_Config g) (rq_Path r) = false →
  Forall proxy_adds (en_attempts (io_env io)) →
  Forall (λ a, informational a = false) (en_attempts (io_env io)) →
  let run := handle metrics_page g cur io st r ∅ in
  sent_status (cl_calls (run_ops (h_ops run) new_client)) = Some (code, h) →
  let id := header_Get "X-Request-Id" h in
  id = GetRequestID (prepared g io r) ∧ id ≠ "" ∧
  (header_Get "X-Request-Id" (rq_Header r) ≠ "" → id = header_Get "X-Request-Id" (rq_Header r)) ∧
  ((∀ k v, (k, v) ∈ security_headers r → header_Get k h = v) ∨ (timed g ∧ code = StatusGatewayTimeout)).
Proof.
  intros Hby Hproxy Hinf run Hsent id.
  assert (Forall adds_headers (en_attempts (io_env io))) as Hadds.
  { rewrite Forall_forall in Hproxy, Hinf. apply Forall_forall. intros a Ha.
    by apply Hproxy; [|apply Hinf]. }
  unfold run, handle in Hsent. rewrite Hby in Hsent.
  assert (id = GetRequestID (with_id io r)) as Hid
    by exact (carried_sent _ _ _ _ _ (chain_request_id g io Hadds st r) Hsent).
  rewrite Hid. split_and!.
  - unfold prepared. by destruct (negb _ && _).
  - apply with_id_nonempty.
  - intros Hg. unfold with_id, GetRequestID. simpl. by rewrite decide_False.
  - pose proof (λ k v, chain_security g io Hadds st r k v) as Hsec.
    destruct (decide (timed g ∧ code = StatusGatewayTimeout)) as [|Hno]; [by right | left].
    intros k v Hin. specialize (Hsec k v Hin). cbn zeta in Hsec. case_decide as Ht.
    + destruct (Hsec _ _ Hsent) as [Hcode|]; [by destruct Hno | done].
    + exact (carried_sent _ _ _ _ _ Hsec Hsent).
Qed.

(** ** Witness, and what the statement leaves out *)

#[local] Existing Instances unrefilled toy_jwt merge_sorted demo_fmt plain_json demo_config_lib.

(** [demo_io], with the calls of the reverse proxy and the schedule of the race. *)
Definition served_io (schedule : list Move) (ops : list (WriterOp * Time)) : IO :=
  mkIO 0 (seqZ 0 16) schedule 0 0 (mkCapture "" 0 "") (mkReadings 1 2 3) 4
    (mkServeEnv 5 [mkAttempt false 6 ops Finished 9] 10) 0 0 (λ _, true) false id "" "".

(** The status and some headers a client is sent for [demo_get]. *)
Definition served (schedule : list Move) (ops : list (WriterOp * Time)) : option (Z * list string) :=
  let run := handle no_page demo_gateway (r_current demo_reloader)
               (served_io schedule ops) demo_state demo_get ∅ in
  '(code, h) ← sent_status (cl_calls (run_ops (h_ops run) new_client));
  Some (code, (λ k, header_Get k h) <$> ["X-Request-Id"; "X-Content-Type-Options"; "Server"]).

(** A backend that sends headers of its own, also one the gateway sets. *)
Definition backend_ops : list (WriterOp * Time) :=
  [(OpHeader (header_Add "Server" "nginx"), 7); (OpHeader (header_Add "X-Request-Id" "mine"), 7);
   (OpWriteHeader 200, 7); (OpWrite "hello", 8)].

Lemma backend_adds : adds_headers (mkAttempt false 6 backend_ops Finished 9).
Proof.
  unfold adds_headers, backend_ops. cbn [at_ops].
  constructor; [intros k h; apply header_Get_Add |].
  constructor; [intros k h; apply header_Get_Add |].
  constructor; [exact I |]. constructor; [exact I |]. constructor.
Qed.

Definition demo_id : string := "00010203-0405-4607-8809-0a0b0c0d0e0f".

Lemma response_headers_witness :
  served [] backend_ops = Some (200, [demo_id; "nosniff"; "nginx"]) ∧
  ∀ code h, sent_status (cl_calls (run_ops (h_ops (handle no_page demo_gateway
      (r_current demo_reloader) (served_io [] backend_ops) demo_state demo_get ∅)) new_client)) =
      Some (code, h) →
    header_Get "X-Request-Id" h = demo_id ∧ (code = 200 → header_Get "X-Frame-Options" h = "DENY").
Proof.
  split; [by vm_compute |]. intros code h Hsent.
  destruct (response_headers no_page demo_gateway (r_current demo_reloader)
    (served_io [] backend_ops) demo_state demo_get code h) as (Hid & _ & _ & Hsec).
  - done.
  - apply Forall_singleton. intros _. exact backend_adds.
  - by repeat constructor.
  - exact Hsent.
  - split; [rewrite Hid; by vm_compute |]. intros ->.
    destruct Hsec as [Hsec|[_ Hcode]]; [|done]. apply Hsec. right. by left.
Defined.

(** At the deadline, before the handler has run at all: the 504 has the ID only. *)
Example deadline_answer_lacks_security_headers :
  served [MoveExpire; MoveMain; MoveMain; MoveMain; MoveMain] backend_ops = Some (504, [demo_id; ""; ""]).
Proof. by vm_compute. Qed.

(** A backend that sends 103 Early Hints: the reverse proxy forwards it and empties the
    header map, as the informational response used it up; the response that
    follows has neither the ID nor the security headers. *)
Example early_hints_drop_headers :
  served [] ([(OpHeader (header_Add "Link" "</style.css>"), 6); (OpWriteHeader 103, 6);
              (OpHeader (λ _, ∅), 6)] ++ backend_ops) = Some (200, ["mine"; ""; "nginx"]).
Proof. by vm_compute. Qed.
