(* ===== verification/Echo.v ===== *)
(** * The test tools (cmd/echoserver/main.go, tests/load/gen-token.go)

    The echo server stands in for a backend: it answers with the request it got,
    or with a status the path asks for.  The token generator signs a token that
    the shipped configuration accepts.  The flags, the listener and the log are
    left out; signing is golang-jwt's, a parameter like its [Parse]. *)

From S2P Require Import Prelude GoFloat GoStrings GoNet Metrics Config Http Writers Json ApiError Auth LogWriter Gateway.

Open Scope Z_scope.

(** ** Parsing numbers *)

Fixpoint parse_digits (acc : Z) (s : string) : Z * string :=
  match s with
  | "" => (acc, "")
  | String c r => match dec_val c with Some d => parse_digits (acc * 10 + d) r | None => (acc, s) end
  end.

(** The value of a non-empty text of decimal digits, and what follows them. *)
Definition scan_digits (s : string) : option (Z * string) :=
  match s with
  | "" => None
  | String c _ => if is_nil (dec_val c) then None else Some (parse_digits 0 s)
  end.

Definition scan_signed (s : string) : option (Z * string) :=
  match s with
  | "" => None
  | String c r =>
      if Ascii.eqb c "-" then '(z, rest) ← scan_digits r; Some (- z, rest)
      else if Ascii.eqb c "+" then scan_digits r else scan_digits s
  end.

(** [strconv.Atoi(s)]; [None] is an error. *)
Definition Atoi (s : string) : option Z :=
  '(z, rest) ← scan_signed s;
  if decide (rest = "" ∧ int64 z) then Some z else None.

(** [fmt.Sscanf(s, "%d", &n)]: leading spaces are skipped, what follows the number is
    not looked at; a new line is an error. *)
Fixpoint Sscanf_d (s : string) : option Z :=
  match s with
  | "" => None
  | String c r =>
      if decide (nat_of_ascii c = 10%nat) then None
      else if is_space c then Sscanf_d r
      else '(z, _) ← scan_signed s; if decide (int64 z) then Some z else None
  end.

(** ** The server *)

(** The port and the service name: the environment's, if it has them. *)
Definition echo_port (flag : Z) (PORT : string) : Z :=
  if decide (PORT = "") then flag else default flag (Sscanf_d PORT).

Definition echo_name (flag : string) (SERVICE_NAME : string) : string :=
  if decide (SERVICE_NAME = "") then flag else SERVICE_NAME.

(** A header map with one text per name; a received header has a value at least. *)
Definition flattenHeaders (h : Header) : gmap string string :=
  (λ v, match v with [x] => x | _ => encode (JArray (JString <$> v)) end) <$> h.

Definition respond (code : Z) (body : Json) : list WriterOp :=
  [OpHeader (header_Set "Content-Type" "application/json"); OpWriteHeader code;
   OpWrite (encode body +:+ newline)].

(** The code that a path under /__status/ asks for. *)
Definition requested_code (path : string) : Z :=
  match Atoi (TrimPrefix path "/__status/") with
  | Some code => if decide (code < 100 ∨ 599 < code) then 500 else code
  | None => 500
  end.

Definition status_handler (name : string) (r : Request) : list WriterOp :=
  let code := requested_code (rq_Path r) in
  respond code (JObject [("message", JString (StatusText code)); ("requested_code", JInt code);
                         ("service", JString name)]).

(** [Format(time.RFC3339)] of a time in UTC. *)
Definition rfc3339_utc (c : Civil) : string :=
  digits 4 (c_year c) +:+ "-" +:+ digits 2 (c_month c) +:+ "-" +:+ digits 2 (c_day c) +:+ "T" +:+
  digits 2 (c_hour c) +:+ ":" +:+ digits 2 (c_min c) +:+ ":" +:+ digits 2 (c_sec c) +:+ "Z".

(** What is echoed of a request; [query] is its raw query. *)
Definition echo_json (name query : string) (now : Civil) (r : Request) : Json :=
  JObject [("headers", json_map (flattenHeaders (rq_Header r))); ("method", JString (rq_Method r));
           ("path", JString (rq_Path r)); ("query", JString query);
           ("remote_addr", JString (rq_RemoteAddr r)); ("service", JString name);
           ("timestamp", JString (rfc3339_utc now))].

Definition echo_handler (name query : string) (now : Civil) (r : Request) : list WriterOp :=
  respond StatusOK (echo_json name query now r).

(** The default mux with the two patterns: a path that is not clean is redirected, and so
    is the subtree's without its slash. *)
Definition echo_find (r : Request) : MuxAnswer :=
  let path := if decide (rq_Method r = "CONNECT") then rq_Path r else cleanPath (rq_Path r) in
  if decide (path = "/__status") then MuxRedirect "/__status/"
  else if decide (path ≠ rq_Path r) then MuxRedirect path
  else if HasPrefix path "/__status/" then MuxPattern "/__status/" else MuxPattern "/".

Example echo_find_example :
  let at_path p := echo_find (new_request "GET" p ∅ "10.0.0.1:1") in
  at_path "/__status/503" = MuxPattern "/__status/" ∧ at_path "/__status" = MuxRedirect "/__status/" ∧
  at_path "/users/1" = MuxPattern "/" ∧ at_path "/a//b" = MuxRedirect "/a/b".
Proof. by vm_compute. Qed.

(** ** The token generator *)

Section token.
Context `{JwtLib}.

(** Unix seconds, as [t.Unix()] counts them. *)
Definition unix_seconds (t : Time) : Z := t / Second - 62135596800.
Definition from_unix (s : Z) : Time := (s + 62135596800) * Second.

(** [jwt.NewWithClaims(jwt.SigningMethodHS256, claims).SignedString(secret)]; the expiry,
    a number, is given apart from the other claims.  [Parse] documents that it accepts
    a token it signed: with the key, the method among the valid ones, and the
    registered claims as the options require. *)
Class JwtIssuer := {
  jwt_sign : MapClaims → Z → string → result string string;
  jwt_sign_token m exp secret tok :
    jwt_sign m exp secret = Ok tok → tok ≠ "" ∧ all_chars (λ c, negb (is_space c)) tok = true;
  jwt_Parse_signed m exp secret tok kf opts now :
    jwt_sign m exp secret = Ok tok →
    kf (mkUnverified "HS256" true) = Ok secret → "HS256" ∈ po_ValidMethods opts →
    (po_Issuer opts ≠ "" → m !! "iss" = Some (CString (po_Issuer opts))) →
    (po_Audience opts ≠ "" → m !! "aud" = Some (CString (po_Audience opts))) →
    now < from_unix exp →
    jwt_Parse tok kf opts now = Ok (mkParsed (Some (<["exp" := COther]> m)) true)
}.

Context `{!JwtIssuer}.

Definition gen_claims : MapClaims :=
  {["sub" := CString "loadtest-user"; "iss" := CString "https://auth.example.com";
    "aud" := CString "api-gateway"; "scope" := CString "read write"]}.

Definition gen_secret (JWT_SECRET : string) : string :=
  if decide (JWT_SECRET = "") then "integration-test-secret-key-32chars!!" else JWT_SECRET.

(** What the program prints, or the error it exits with. *)
Definition gen_token (JWT_SECRET : string) (now : Time) : result string string :=
  jwt_sign gen_claims (unix_seconds (time_add now (2 * Hour))) (gen_secret JWT_SECRET).
End token.

(** ** Lemmas *)

Lemma trim_left_word s : all_chars (λ c, negb (is_space c)) s = true → trim_left s = s.
Proof. destruct s as [|c s]; [done |]. simpl. by destruct (is_space c). Qed.

Lemma trim_right_word s : all_chars (λ c, negb (is_space c)) s = true → trim_right s = s.
Proof.
  induction s as [|c s IH]; [done |]. simpl. intros [Hc Hs]%andb_true_iff. rewrite (IH Hs).
  destruct s; [|done]. by destruct (is_space c).
Qed.

Lemma TrimSpace_word s : all_chars (λ c, negb (is_space c)) s = true → TrimSpace s = s.
Proof. intros Hs. unfold TrimSpace. by rewrite trim_left_word, trim_right_word. Qed.

Lemma extractBearerToken_word r tok :
  header_Get "Authorization" (rq_Header r) = "Bearer " +:+ tok → tok ≠ "" →
  all_chars (λ c, negb (is_space c)) tok = true → extractBearerToken r = Some tok.
Proof.
  intros Ha Hne Hw. unfold extractBearerToken. rewrite Ha. simpl.
  rewrite TrimSpace_word by done. by rewrite decide_False.
Qed.

(** ** Properties *)

(** The answer of the status handler: the code the path asks for if that is a number
    from 100 to 599, and 500 otherwise. *)
Theorem status_handler_spec (name : string) (r : Request) (code : Z) :
  rq_Path r = "/__status/" +:+ Itoa code → 100 ≤ code ≤ 599 →
  status_handler name r = respond code (JObject [("message", JString (StatusText code));
    ("requested_code", JInt code); ("service", JString name)]) ∧
  (informational code = false →
     fst <$> sent_status (cl_calls (run_ops ((λ op, (op, 0)) <$> status_handler name r) new_client)) = Some code).
Proof.
  intros Hp Hc.
  assert (Forall (λ z, Atoi (Itoa z) = Some z) (seqZ 100 500)) as Hall
    by (by apply (bool_decide_unpack _); vm_compute).
  rewrite Forall_forall in Hall.
  assert (requested_code (rq_Path r) = code) as Hr.
  { unfold requested_code. rewrite Hp, TrimPrefix_app, (Hall code) by (apply elem_of_seqZ; lia).
    by rewrite decide_False by lia. }
  assert (status_handler name r = respond code (JObject [("message", JString (StatusText code));
    ("requested_code", JInt code); ("service", JString name)])) as Hs
    by (unfold status_handler; by rewrite Hr).
  split; [done |]. intros Hi. rewrite Hs. unfold informational in Hi. apply bool_decide_eq_false in Hi.
  cbn -[encode]. by rewrite decide_False.
Qed.

(** What a client reads of an echo is the request: the body parses to an object with
    the path, the method, the query and every header of the request under their
    names. *)
Theorem echo_reports (name query : string) (now : Civil) (r : Request) :
  valid_json (echo_json name query now r) = true →
  ∃ text hs, echo_handler name query now r =
      [OpHeader (header_Set "Content-Type" "application/json"); OpWriteHeader 200; OpWrite (text +:+ newline)] ∧
    parse_json text = Some (JObject [("headers", JObject hs); ("method", JString (rq_Method r));
      ("path", JString (rq_Path r)); ("query", JString query); ("remote_addr", JString (rq_RemoteAddr r));
      ("service", JString name); ("timestamp", JString (rfc3339_utc now))]) ∧
    ∀ k v, rq_Header r !! k = Some [v] → (k, JString v) ∈ hs.
Proof.
  intros Hv. exists (encode (echo_json name query now r)). eexists. split; [done |].
  split; [by apply parse_encode |]. intros k v Hk.
  assert (flattenHeaders (rq_Header r) !! k = Some v) as Hf
    by (unfold flattenHeaders; by rewrite lookup_fmap, Hk).
  destruct (json_map_spec (flattenHeaders (rq_Header r))) as (l & [= <-] & Hl). by apply Hl.
Qed.

Section issued.
Context `{JwtIssuer}.

(** A token that was signed with the secret, for the issuer and the audience, is parsed
    to its claims. *)
Lemma validateToken_issued (cfg : AuthConfig) (now : Time) (claims : MapClaims) (exp : Z) (tok scope : string) :
  jwt_sign claims exp (au_JWTSecret cfg) = Ok tok →
  claims !! "iss" = Some (CString (au_Issuer cfg)) →
  claims !! "aud" = Some (CString (au_Audience cfg)) →
  claims !! "scope" = Some (CString scope) →
  now < from_unix exp →
  validateToken tok cfg now =
    match missing_scope (au_Scopes cfg) (Fields scope) with
    | None => Ok (mkClaims (default "" (claim_string "sub" claims)) (au_Issuer cfg) (au_Audience cfg)
                    (Fields scope))
    | Some s => Err (ScopeError s)
    end.
Proof.
  intros Hs Hi Ha Hsc Hexp.
  assert (jwt_Parse tok (keyfunc cfg) (parser_options cfg) now =
    Ok (mkParsed (Some (<["exp" := COther]> claims)) true)) as Hp
    by (apply (jwt_Parse_signed _ _ _ _ _ _ _ Hs); [done | by left | done | done | done]).
  unfold validateToken, claim_string, claim_audience. rewrite Hp. cbn [pt_Claims pt_Valid].
  rewrite !lookup_insert_ne by done. rewrite Hi, Ha, Hsc. cbn [default from_option].
  by destruct (missing_scope _ _).
Qed.

(** A token issued for the gateway opens it: with claims of the configured issuer
    and audience, signed with the configured secret, until it expires -- and with
    all the required scopes it lets the request through, the handler getting its
    claims; a missing scope is answered 403. *)
Theorem issued_token_accepted (cfg : AuthConfig) (requires : string → bool) (m : bool) (now : Time)
    (r : Request) (claims : MapClaims) (exp : Z) (tok scope : string) :
  jwt_sign claims exp (au_JWTSecret cfg) = Ok tok →
  claims !! "iss" = Some (CString (au_Issuer cfg)) →
  claims !! "aud" = Some (CString (au_Audience cfg)) →
  claims !! "scope" = Some (CString scope) →
  now < from_unix exp →
  header_Get "Authorization" (rq_Header r) = "Bearer " +:+ tok →
  au_Enabled cfg = true → requires (rq_Path r) = true →
  ∀ W (rw : ResponseWriter W) (next : option Claims → W → W) w,
    AuthMiddleware cfg requires m next now r w =
      match missing_scope (au_Scopes cfg) (Fields scope) with
      | None => (next (Some (mkClaims (default "" (claim_string "sub" claims)) (au_Issuer cfg)
                               (au_Audience cfg) (Fields scope))) w, [])
      | Some s => (WriteJSON (Some r) 403 AuthInsufficientScope ("missing required scope: " +:+ s) now w,
                   emit m [mkEvent AuthFailures ["insufficient_scope"] Inc])
      end.
Proof.
  intros Hs Hi Ha Hsc Hexp Hauth Hen Hreq W rw next w.
  destruct (jwt_sign_token _ _ _ _ Hs) as [Hne Hw].
  unfold AuthMiddleware. rewrite Hen, Hreq, (extractBearerToken_word r tok) by done. cbn [negb orb].
  rewrite (validateToken_issued _ _ _ _ _ _ Hs Hi Ha Hsc Hexp). by destruct (missing_scope _ _).
Qed.

(** The authentication of configs/gateway.yaml. *)
Definition shipped_auth (secret : string) : AuthConfig :=
  mkAuth true secret "https://auth.example.com" "api-gateway" ["read"; "write"].

(** The generator's token is good for the shipped configuration with the same secret,
    for two hours less the part of a second that is cut off. *)
Theorem gen_token_opens (JWT_SECRET tok : string) (issued now : Time) :
  JWT_SECRET ≠ "" → gen_token JWT_SECRET issued = Ok tok → now ≤ issued + 2 * Hour - Second →
  validateToken tok (shipped_auth JWT_SECRET) now =
    Ok (mkClaims "loadtest-user" "https://auth.example.com" "api-gateway" ["read"; "write"]).
Proof.
  intros Hne Htok Hnow. unfold gen_token, gen_secret in Htok. rewrite decide_False in Htok by done.
  rewrite (validateToken_issued (shipped_auth JWT_SECRET) now _ _ _ "read write" Htok); try done.
  unfold from_unix, unix_seconds, time_add. revert Hnow. generalize (issued + 2 * Hour). intros t Hnow.
  unfold Second in *. pose proof (Z.mod_pos_bound t 1000000000). pose proof (Z.div_mod t 1000000000). lia.
Qed.
End issued.

(** ** Witnesses *)

#[local] Instance ClaimValue_eq_dec : EqDecision ClaimValue.
Proof.
  refine (fix go a b : Decision (a = b) :=
    match a, b with
    | CString s, CString t => cast_if (decide (s = t))
    | CList l, CList k => cast_if (@list_eq_dec _ go l k)
    | COther, COther => left eq_refl
    | _, _ => right _
    end); clear go; congruence.
Defined.

(** A toy library: it signs one set of claims, with one key. *)
#[local] Instance issuing_jwt : JwtLib := {|
  jwt_Parse tok kf opts now :=
    match kf (mkUnverified "HS256" true) with
    | Err e => Err e
    | Ok key =>
        if decide (tok = "token") then
          if decide (key = "secret" ∧ now < from_unix 7200) then
            Ok (mkParsed (Some (<["exp" := COther]> gen_claims)) true)
          else Err "token is expired"
        else Err "token is malformed"
    end
|}.

#[local, refine] Instance demo_issuer : JwtIssuer := {|
  jwt_sign m exp secret :=
    if decide (m = gen_claims ∧ exp = 7200 ∧ secret = "secret") then Ok "token" else Err "key is invalid"
|}.
Proof.
  - intros m exp secret tok. case_decide; [|done]. by intros [= <-].
  - intros m exp secret tok kf opts now. case_decide as Hm; [|done].
    destruct Hm as (-> & -> & ->). intros [= <-] Hkf _ _ _ Hexp. simpl. rewrite Hkf.
    by rewrite decide_True.
Defined.

Lemma issued_token_accepted_witness :
  let r := new_request "GET" "/api" {["Authorization" := ["Bearer token"]]} "10.0.0.1:1" in
  let ask scopes := mkAuth true "secret" "https://auth.example.com" "api-gateway" scopes in
  let next claims (_ : Client) := mkClient {["Subject" := [default "" (c_Subject <$> claims)]]} [] in
  AuthMiddleware (ask ["write"]) (λ _, true) true next 5 r new_client =
    (mkClient {["Subject" := ["loadtest-user"]]} [], []) ∧
  (AuthMiddleware (ask ["admin"]) (λ _, true) true next 5 r new_client).2 =
    [mkEvent AuthFailures ["insufficient_scope"] Inc].
Proof.
  intros r ask next.
  assert (∀ scopes, AuthMiddleware (ask scopes) (λ _, true) true next 5 r new_client =
    match missing_scope scopes (Fields "read write") with
    | None => (next (Some (mkClaims "loadtest-user" "https://auth.example.com" "api-gateway"
                 (Fields "read write"))) new_client, [])
    | Some s => (WriteJSON (Some r) 403 AuthInsufficientScope ("missing required scope: " +:+ s) 5 new_client,
                 emit true [mkEvent AuthFailures ["insufficient_scope"] Inc])
    end) as Hany.
  { intros scopes. by apply (issued_token_accepted (ask scopes) (λ _, true) true 5 r gen_claims 7200 "token"). }
  split; by rewrite Hany.
Defined.

Lemma gen_token_opens_witness :
  validateToken "token" (shipped_auth "secret") (from_unix 7100) =
    Ok (mkClaims "loadtest-user" "https://auth.example.com" "api-gateway" ["read"; "write"]).
Proof. by apply (gen_token_opens "secret" "token" (from_unix 0)). Defined.

Lemma status_handler_spec_witness :
  let r := new_request "GET" "/__status/503" ∅ "10.0.0.1:1" in
  fst <$> sent_status (cl_calls (run_ops ((λ op, (op, 0)) <$> status_handler "echo" r) new_client)) = Some 503.
Proof. intros r. destruct (status_handler_spec "echo" r 503) as [_ Hs]; [done | lia | by apply Hs]. Defined.

Lemma echo_reports_witness :
  let r := new_request "GET" "/users/1" {["X-Route" := ["users"]]} "10.0.0.1:1" in
  ∃ text hs, parse_json text = Some (JObject hs) ∧ ("path", JString "/users/1") ∈ hs.
Proof.
  intros r. destruct (echo_reports "echo" "" (mkCivil 2024 3 7 9 5 0) r) as (text & hs & _ & Hp & _);
    [by vm_compute |].
  eexists text, _. split; [exact Hp |]. do 2 right. by left.
Defined.

(** An informational code cannot be asked for: the server's answer goes on to a 200. *)
Example informational_request_is_200 :
  let r := new_request "GET" "/__status/103" ∅ "10.0.0.1:1" in
  requested_code (rq_Path r) = 103 ∧
  fst <$> sent_status (cl_calls (run_ops ((λ op, (op, 0)) <$> status_handler "echo" r) new_client)) = Some 200.
Proof. by vm_compute. Qed.
