(* ===== verification/Lifecycle.v ===== *)
(** * The process (cmd/gateway/main.go, [Gateway.Run] of
    internal/gateway/gateway.go, and the starting, stopping and signals of
    internal/config/reload.go and reload_unix.go)

    What starts and stops the running parts, in which order, and with which exit
    code.  The server, the watcher and the signals of the operating system are
    arguments: how they end, and when they come. *)

From stdpp Require Import sorting.
From S2P Require Import Prelude GoStrings Config ConfigValidate Http Auth RateLimit Proxy Logging LogWriter Reload AdminJson CertLoader Gateway.

Open Scope Z_scope.

(** ** The reloader's goroutines *)

(** What of the reloader runs: the file watcher, the signal handler, and whether
    [stopCh] is closed. *)
Record ReloaderRun := mkReloaderRun { rn_watcher : bool; rn_signals : bool; rn_stopped : bool }.

(** [r.Start()], given the errors of making the watcher and of watching the path.
    Without a watcher the function returns before it registers for signals. *)
Definition reloader_Start (new_watcher add : option string) (r : ReloaderRun) : ReloaderRun :=
  match new_watcher, add with
  | None, None => mkReloaderRun true true (rn_stopped r)
  | _, _ => mkReloaderRun false (rn_signals r) (rn_stopped r)
  end.

(** [r.Stop()]; [None]: a second close panics. *)
Definition reloader_Stop (r : ReloaderRun) : option ReloaderRun :=
  if rn_stopped r then None else Some (mkReloaderRun false false true).

(** A file that cannot be watched takes SIGHUP with it. *)
Example unwatched_file_ignores_signals :
  rn_signals (reloader_Start None (Some "no such file") (mkReloaderRun false false false)) = false.
Proof. done. Qed.

(** ** SIGHUP

    The handler's channel holds one signal; its goroutine is at the channel again
    when the reload it started has ended.  [duration t]: how long a reload takes
    that starts at [t]. *)
Section signals.
Context (duration : Time → Duration).

Record SignalLoop := mkSignalLoop {
  sg_free : Time;                 (** when the goroutine is back at its select *)
  sg_pending : bool;              (** the buffered signal *)
  sg_reloads : list Time          (** when reloads started *)
}.

Definition start_reload (t : Time) (s : SignalLoop) : SignalLoop :=
  mkSignalLoop (t + duration t) false (sg_reloads s ++ [t]).

(** The goroutine takes the buffered signal as soon as it is free. *)
Definition take_pending (s : SignalLoop) : SignalLoop :=
  if sg_pending s then start_reload (sg_free s) s else s.

(** A signal at [t]: received, buffered, or dropped when one is buffered. *)
Definition signal_arrives (s : SignalLoop) (t : Time) : SignalLoop :=
  let s := if decide (sg_free s ≤ t) then take_pending s else s in
  if decide (sg_free s ≤ t) then start_reload t s
  else mkSignalLoop (sg_free s) true (sg_reloads s).

(** The reloads that signals at the given times cause. *)
Definition signal_reloads (signals : list Time) : list Time :=
  sg_reloads (take_pending (foldl signal_arrives (mkSignalLoop 0 false []) signals)).

(** What holds after the signals [sigs]: each is served or waits for the buffered
    one, and the reloads are one after the other. *)
Record loop_ok (sigs : list Time) (s : SignalLoop) : Prop := {
  lo_served t : t ∈ sigs → (∃ r, r ∈ sg_reloads s ∧ t ≤ r) ∨ (sg_pending s = true ∧ t ≤ sg_free s);
  lo_free r : r ∈ sg_reloads s → r + duration r ≤ sg_free s;
  lo_order : StronglySorted (λ r r', r + duration r ≤ r') (sg_reloads s);
  lo_count : (length (sg_reloads s) + (if sg_pending s then 1 else 0) ≤ length sigs)%nat
}.

Lemma sorted_snoc {A} (R : A → A → Prop) l x :
  StronglySorted R l → (∀ y, y ∈ l → R y x) → StronglySorted R (l ++ [x]).
Proof.
  induction 1 as [|y l Hs IH Hf]; intros Hx; simpl; [by repeat constructor |].
  constructor; [apply IH; intros; apply Hx; by right |].
  apply Forall_app. split; [done |]. constructor; [apply Hx; by left | constructor].
Qed.

Context (duration_nonneg : ∀ t, 0 ≤ duration t).

(** A reload that starts not before the last one ended. *)
Lemma start_reload_ok sigs t s (n : nat) :
  loop_ok sigs s → sg_free s ≤ t →
  (sg_pending s = true → ∀ t', t' ∈ sigs → t' ≤ sg_free s → t' ≤ t) →
  (length (sg_reloads s) < n)%nat →
  let s' := start_reload t s in
  (∀ t', t' ∈ sigs → ∃ r, r ∈ sg_reloads s' ∧ t' ≤ r) ∧
  (∀ r, r ∈ sg_reloads s' → r + duration r ≤ sg_free s') ∧
  StronglySorted (λ r r', r + duration r ≤ r') (sg_reloads s') ∧ (length (sg_reloads s') ≤ n)%nat ∧
  t ∈ sg_reloads s'.
Proof.
  intros [Hs Hf Ho Hc] Ht Hp Hn s'. unfold s', start_reload. simpl. pose proof (duration_nonneg t).
  split_and!.
  - intros t' Hin. destruct (Hs t' Hin) as [(r & Hr & Hle)|[Hpend Hle]].
    + exists r. rewrite elem_of_app. by split; [left |].
    + exists t. rewrite elem_of_app, list_elem_of_singleton. split; [by right | by apply Hp].
  - intros r [Hr| ->%list_elem_of_singleton]%elem_of_app; [apply Hf in Hr; lia | lia].
  - apply sorted_snoc; [done |]. intros r Hr. apply Hf in Hr. lia.
  - rewrite length_app. simpl. lia.
  - apply elem_of_app. right. by apply list_elem_of_singleton.
Qed.

Lemma take_pending_ok sigs s : loop_ok sigs s → loop_ok sigs (take_pending s) ∧ sg_pending (take_pending s) = false.
Proof.
  intros Hok. unfold take_pending. destruct (sg_pending s) eqn:Hp; [|by split].
  pose proof (lo_count _ _ Hok) as Hc. rewrite Hp in Hc.
  destruct (start_reload_ok sigs (sg_free s) s (length sigs) Hok) as (H1 & H2 & H3 & H4 & _);
    [done | by intros | lia |].
  split; [|done]. split; [intros t Ht; left; by apply H1 | done | done | simpl in *; lia].
Qed.

Lemma signal_arrives_ok sigs s t : loop_ok sigs s → loop_ok (sigs ++ [t]) (signal_arrives s t).
Proof.
  intros Hok. unfold signal_arrives.
  set (s1 := if decide (sg_free s ≤ t) then take_pending s else s).
  assert (loop_ok sigs s1 ∧ (sg_free s1 ≤ t → sg_pending s1 = false)) as [Hok1 Hp1].
  { unfold s1. case_decide; [|split; [done | lia]]. destruct (take_pending_ok sigs s Hok). by split. }
  clearbody s1. clear Hok s. destruct (decide (sg_free s1 ≤ t)) as [Ht|Ht].
  - destruct (start_reload_ok sigs t s1 (length (sigs ++ [t])) Hok1) as (H1 & H2 & H3 & H4 & H5).
    { done. } { by rewrite Hp1. }
    { pose proof (lo_count _ _ Hok1). rewrite length_app. simpl. lia. }
    split; [| done | done | simpl in *; lia].
    intros t' [Ht'| ->%list_elem_of_singleton]%elem_of_app; left; [by apply H1 | by exists t].
  - destruct Hok1 as [H1 H2 H3 H4]. split; simpl; [| done | done |].
    + intros t' [Ht'| ->%list_elem_of_singleton]%elem_of_app.
      * destruct (H1 t' Ht') as [?|[_ ?]]; [by left | by right].
      * right. split; [done | lia].
    + rewrite length_app. simpl. destruct (sg_pending s1); lia.
Qed.

(** C34. No SIGHUP is lost: although the channel holds one signal and others are
    dropped while a reload runs, every signal is followed by a reload that starts
    when it came or later -- so the file as it was at the signal is read -- and
    the reloads of signals never overlap and are no more than the signals. *)
Theorem signals_are_served (signals : list Time) :
  let reloads := signal_reloads signals in
  (∀ t, t ∈ signals → ∃ r, r ∈ reloads ∧ t ≤ r) ∧
  StronglySorted (λ r r', r + duration r ≤ r') reloads ∧ (length reloads ≤ length signals)%nat.
Proof.
  intros reloads. unfold reloads, signal_reloads.
  assert (loop_ok signals (foldl signal_arrives (mkSignalLoop 0 false []) signals)) as Hok.
  { induction signals as [|t signals IH] using rev_ind.
    - split; simpl; [by intros ? ?%elem_of_nil.. | constructor | done].
    - rewrite foldl_app. by apply signal_arrives_ok. }
  apply take_pending_ok in Hok as [[H1 H2 H3 H4] Hp]. rewrite Hp in *. split_and!; [|done | lia].
  intros t Ht. by destruct (H1 t Ht) as [?|[? _]].
Qed.
End signals.

(** ** Running the gateway *)

(** How the wait of [Run] ends: the server fails, is closed by someone else, or the
    context is cancelled and the server then drains, or does not in time. *)
Inductive RunEnd :=
| ServerFails (err : string)
| ServerClosed
| ContextDone (drained : option string).

(** What [Run] starts and stops. *)
Record Running (Cert : Type) := mkRunning {
  ru_reloader : ReloaderRun; ru_limiter_stopped : bool; ru_loader : option (CertLoader Cert)
}.
Arguments mkRunning {Cert}.
Arguments ru_reloader {Cert}.
Arguments ru_limiter_stopped {Cert}.
Arguments ru_loader {Cert}.

(** The deferred calls, last one first; [None]: one of them panics. *)
Definition run_deferred {Cert} (r : Running Cert) : option (Running Cert) :=
  loader ← (match ru_loader r with None => Some None | Some l => Some <$> cert_Stop l end);
  if ru_limiter_stopped r then None
  else
    rel ← reloader_Stop (ru_reloader r);
    Some (mkRunning rel true loader).

(** [g.Run(ctx)]: its error, and what is stopped afterwards. *)
Definition gateway_Run {Cert} (new_watcher add : option string) (ending : RunEnd) (r : Running Cert)
    : option (option string * Running Cert) :=
  let r := mkRunning (reloader_Start new_watcher add (ru_reloader r)) (ru_limiter_stopped r) (ru_loader r) in
  let err :=
    match ending with
    | ServerFails e => Some e
    | ServerClosed => None
    | ContextDone None => None
    | ContextDone (Some e) => Some ("forced shutdown: " +:+ e)
    end in
  r ← run_deferred r; Some (err, r).

(** ** The executable *)

(** Where the log goes: [None] as the writer is stdout or stderr. *)
Inductive LogOutput := LogStdout | LogStderr | LogFile (w : RotatingWriter).

(** [buildLogWriter(cfg)]; a file that cannot be opened is replaced by stdout. *)
Definition buildLogWriter (cfg : LoggingConfig) (mkdir : bool) (o : OpenOutcome) (now : Time) (dir : Dir)
    : LogOutput * Dir :=
  if decide (l_Output cfg = "stdout" ∨ l_Output cfg = "") then (LogStdout, dir)
  else if decide (l_Output cfg = "stderr") then (LogStderr, dir)
  else
    match NewRotatingWriter (l_Output cfg) (l_MaxSizeMB cfg) (l_MaxBackups cfg) (l_MaxAgeDays cfg)
            mkdir o now dir with
    | (Err _, dir) => (LogStdout, dir)
    | (Ok rw, dir) => (LogFile rw, dir)
    end.

(** The logger [main] makes drops records below its level. *)
Definition logger_level : Level := LevelInfo.

Definition logged (entries : list LogEntry) : list LogEntry :=
  filter (λ e, logger_level ≤ le_level e) entries.

(** A route with the level [debug] is never logged: its level is accepted by the
    validation and below that of the only logger there is. *)
Lemma debug_routes_are_silent (level : string) :
  level ∈ ValidLogLevels →
  (logger_level ≤ ParseLogLevel level ∧ ParseLogLevel level ≠ LogLevelNone) ↔
  level ≠ "debug" ∧ level ≠ "none".
Proof.
  unfold ValidLogLevels. rewrite !elem_of_union, !elem_of_singleton.
  intros [[[[[->| ->]| ->]| ->]| ->]| ->]; vm_compute; intuition (done || congruence).
Qed.

Section main.
Context `{TokenBucket, JwtLib, ConfigLib, SortSlice, GoFmt, GoJson} {Cert : Type}.

(** How the process ends: with an exit code, or by a panic. *)
Inductive MainEnd := Exited (code : Z) | MainPanics.

(** [main()], given what the configuration file loads to, the certificate, the
    watcher's errors and how the server's run ends.  [os.Exit] skips the deferred
    closing of the log file. *)
Definition main (loaded : result Config string) (tls : result (CertLoader Cert) string)
    (new_watcher add : option string) (ending : RunEnd) : MainEnd :=
  match loaded with
  | Err _ => Exited 1
  | Ok cfg =>
      match NewGateway cfg tls with
      | BuildErr _ => Exited 1
      | BuildPanic => MainPanics
      | BuildOk g _ _ =>
          match gateway_Run new_watcher add ending
                  (mkRunning (mkReloaderRun false false false) false (g_certLoader g)) with
          | None => MainPanics
          | Some (Some _, _) => Exited 1
          | Some (None, _) => Exited 0
          end
      end
  end.

(** However the run ends, everything that was started is stopped, once. *)
Lemma Run_stops_everything new_watcher add ending (loader : option (CertLoader Cert)) :
  (∀ l, loader = Some l → cl_stopped l = false) →
  ∃ err r, gateway_Run new_watcher add ending (mkRunning (mkReloaderRun false false false) false loader) =
      Some (err, r) ∧
    ru_reloader r = mkReloaderRun false false true ∧ ru_limiter_stopped r = true ∧
    (∀ l, ru_loader r = Some l → cl_stopped l = true) ∧
    (err = None ↔ ending = ServerClosed ∨ ending = ContextDone None).
Proof.
  intros Hl. unfold gateway_Run, run_deferred, reloader_Start, cert_Stop. simpl.
  assert (∃ loader', (match loader with None => Some None | Some l => Some <$> if cl_stopped l then None
      else Some (mkCertLoader (cl_cert l) true) end) = Some loader' ∧
    ∀ l, loader' = Some l → cl_stopped l = true) as (loader' & -> & Hl').
  { destruct loader as [l|]; [|by exists None]. rewrite (Hl l eq_refl). eexists. split; [done |].
    by intros ? [= <-]. }
  simpl. destruct new_watcher, add; simpl; (eexists _, _; split_and!; [done.. |]);
    destruct ending as [e| |[e|]]; intuition (congruence || discriminate).
Qed.

(** The server ended as it should. *)
Definition ends_well (ending : RunEnd) : bool :=
  match ending with ServerClosed | ContextDone None => true | _ => false end.

(** The exit code says how it went: a process ends with 0 exactly when its file
    loads, the gateway can be built, and the server is closed or drains in time
    after the context is done; it panics exactly when the metrics path is that of
    another endpoint or has no slash; and otherwise -- the file or the certificate does not load,
    the server fails or does not drain -- it ends with 1. *)
Theorem main_spec (loaded : result Config string) (tls : result (CertLoader Cert) string)
    (new_watcher add : option string) (ending : RunEnd) :
  (∀ cfg, loaded = Ok cfg → loadable cfg) → (∀ l, tls = Ok l → cl_stopped l = false) →
  let outcome := main loaded tls new_watcher add ending in
  let certificate cfg := tls_Enabled (s_TLS (cfg_Server cfg)) = true → ∃ l, tls = Ok l in
  (outcome = MainPanics ↔ ∃ cfg, loaded = Ok cfg ∧ metrics_path_refused cfg) ∧
  (outcome = Exited 0 ↔ ∃ cfg, loaded = Ok cfg ∧ ¬ metrics_path_refused cfg ∧ certificate cfg ∧
                          ends_well ending = true) ∧
  (outcome = MainPanics ∨ outcome = Exited 0 ∨ outcome = Exited 1).
Proof.
  intros Hload Htls outcome certificate. unfold outcome, main.
  destruct loaded as [cfg|e].
  2: { split_and!; [by split; [|intros (? & ? & _)].. | by auto]. }
  destruct (loadable_router cfg (Hload cfg eq_refl)) as [router Hr].
  assert (∀ loader : option (CertLoader Cert), (∀ l, loader = Some l → cl_stopped l = false) →
    (match gateway_Run new_watcher add ending (mkRunning (mkReloaderRun false false false) false loader) with
     | None => MainPanics | Some (Some _, _) => Exited 1 | Some (None, _) => Exited 0 end) =
    Exited (if ends_well ending then 0 else 1)) as Hrun.
  { intros loader Hl. destruct (Run_stops_everything new_watcher add ending loader Hl)
      as (err & r & -> & _ & _ & _ & Herr).
    destruct err as [e|].
    - destruct (ends_well ending) eqn:He; [|done]. exfalso.
      assert (Some e = None) as [=]. apply Herr. destruct ending as [| |[]]; naive_solver.
    - destruct (proj1 Herr eq_refl) as [-> | ->]; done. }
  unfold NewGateway. rewrite Hr.
  destruct (decide (mux_registers cfg)) as [Hnd|Hnd].
  - apply mux_registers_iff in Hnd.
    match goal with |- (?o = _ ↔ _) ∧ _ =>
      assert (∃ b : bool, o = Exited (if b then 0 else 1) ∧
        (b = true ↔ certificate cfg ∧ ends_well ending = true)) as (b & -> & Hb) end.
    { unfold certificate. destruct (tls_Enabled (s_TLS (cfg_Server cfg))).
      - destruct tls as [l|e]; cbn [g_certLoader].
        + rewrite Hrun by (intros ? [= <-]; by apply Htls). eexists. split; [done |].
          split; [intros ?; split; [intros _; by exists l | done] | by intros [_ ?]].
        + exists false. split; [done |]. split; [done |]. intros [Hc _]. by destruct (Hc eq_refl) as [l [=]].
      - cbn [g_certLoader]. rewrite Hrun by done. eexists. split; [done |].
        split; [by intros ?; split | by intros [_ ?]]. }
    split_and!.
    + split; [by destruct b | intros (c & [= <-] & Ht)]. by destruct Hnd.
    + split.
      * destruct b; [|done]. intros _. destruct Hb as [Hb _]. exists cfg. destruct (Hb eq_refl). by split_and!.
      * intros (c & [= <-] & _ & Hc & He). destruct Hb as [_ Hb]. by rewrite Hb.
    + destruct b; auto.
  - assert (metrics_path_refused cfg) as Ht.
    { destruct (decide (metrics_path_refused cfg)) as [?|Hn]; [done |]. by apply mux_registers_iff in Hn. }
    split_and!; [| |by left].
    + split; [|done]. intros _. by exists cfg.
    + split; [done |]. intros (c & [= <-] & Hn & _). by destruct Hn.
Qed.
End main.

(** ** Witnesses *)

Lemma signals_are_served_witness :
  let duration t := 10 in
  signal_reloads duration [1; 3; 5; 40] = [1; 11; 40] ∧
  ∃ r, r ∈ signal_reloads duration [1; 3; 5; 40] ∧ 5 ≤ r.
Proof.
  intros duration. split; [by vm_compute |].
  assert (∀ t, 0 ≤ duration t) as Hd by (intros; unfold duration; lia).
  destruct (signals_are_served duration Hd [1; 3; 5; 40]) as [Hs _].
  apply Hs. apply elem_of_cons. right. apply elem_of_cons. right. by left.
Defined.

#[local] Existing Instances unrefilled toy_jwt merge_sorted demo_fmt plain_json demo_config_lib.

Lemma main_spec_witness :
  let outcome := main (Cert := unit) (Ok demo_config) (Err "no certificate") None None (ContextDone None) in
  outcome = Exited 0 ∧ main (Cert := unit) (Err "bad file") (Err "") None None ServerClosed = Exited 1.
Proof.
  intros outcome. split; [|done].
  destruct (main_spec (Cert := unit) (Ok demo_config) (Err "no certificate") None None (ContextDone None))
    as (_ & H0 & _).
  - intros cfg [= <-]. exact demo_loadable.
  - done.
  - apply H0. exists demo_config. split_and!; [done | | done | done].
    intros [_ Hin]. revert Hin. by apply (bool_decide_unpack _).
Defined.
