(* ===== verification/PipelineConc.v ===== *)
(** * Runs of the agent pipeline under way together (internal/envelope/agent.go)

    [Pipeline] is "safe for concurrent use": runs that overlap share the error budget
    and the operator's switch.  A run is a program of atomic actions: the section that
    reads the switch and the budget, the calls of the agents, and the section that
    records an error or a success.  The state is what these sections make of it in the
    order in which they happen, and every outcome is what [AgentPipeline.Run] computes
    from the state at its check; but that state may be out of date by then.

    The history has every section and call with the goroutine it belongs to. *)

From stdpp Require Import relations.
From S2P Require Import Prelude GoStrings GoErrors Proposal AgentPipeline Goroutine History.

Open Scope Z_scope.

(** ** Actions *)

Inductive PipelineAction : Set → Type :=
| CheckEnabled (now : Time) : PipelineAction (bool * Time * bool)
| CallPlan (planner : Planner) : PipelineAction (result PlanResult aerror)
| CallReview (r : Reviewer) (proposal : Proposal) : PipelineAction (result ReviewResult aerror)
| RecordError (out : PipelineOutcome) (now : Time) : PipelineAction PipelineOutcome
| RecordSuccess : PipelineAction unit
| SetSwitch (on : bool) : PipelineAction unit
| AskEnabled (now : Time) : PipelineAction bool
| Deliver (out : PipelineOutcome) : PipelineAction unit.

Inductive PipelineEvent :=
| Checked (now : Time) (answer : bool * Time * bool)
| AskedPlanner (planner : Planner) (answer : result PlanResult aerror)
| AskedReviewer (r : Reviewer) (proposal : Proposal) (answer : result ReviewResult aerror)
| Failed (now : Time) (out recorded : PipelineOutcome)
| Succeeded
| Switched (on : bool)
| Delivered (out : PipelineOutcome).

(** What an action answers and makes of the pipeline, and what the history has of it. *)
Definition pipeline_section (X : Set) (a : PipelineAction X) (p : Pipeline) : X * Pipeline :=
  match a in PipelineAction X return X * Pipeline with
  | CheckEnabled now => ((isEnabledLocked p now, enabledFrom p, enabled p), p)
  | CallPlan planner => (planner_Plan planner, p)
  | CallReview r proposal => (reviewer_Review r proposal, p)
  | RecordError out now => recordError p out now
  | RecordSuccess => (tt, recordSuccess p)
  | SetSwitch on => (tt, if on then pipeline_Enable p else pipeline_Disable p)
  | AskEnabled now => (isEnabledLocked p now, p)
  | Deliver out => (tt, p)
  end.

Definition pipeline_event (X : Set) (a : PipelineAction X) : X → option PipelineEvent :=
  match a in PipelineAction X return X → option PipelineEvent with
  | CheckEnabled now => λ x, Some (Checked now x)
  | CallPlan planner => λ x, Some (AskedPlanner planner x)
  | CallReview r proposal => λ x, Some (AskedReviewer r proposal x)
  | RecordError out now => λ o, Some (Failed now out o)
  | RecordSuccess => λ _, Some (Succeeded)
  | SetSwitch on => λ _, Some (Switched on)
  | AskEnabled _ => λ _, None
  | Deliver out => λ _, Some (Delivered out)
  end.

Definition pipeline_apply (p : Pipeline) (e : PipelineEvent) : Pipeline :=
  match e with
  | Failed now out _ => (recordError p out now).2
  | Succeeded => recordSuccess p
  | Switched true => pipeline_Enable p
  | Switched false => pipeline_Disable p
  | _ => p
  end.

Lemma pipeline_section_event (X : Set) (a : PipelineAction X) p :
  (pipeline_section X a p).2 =
    match pipeline_event X a (pipeline_section X a p).1 with Some e => pipeline_apply p e | None => p end.
Proof. by destruct a as [| | | | |[]| |]. Qed.

#[export] Instance pipeline_recorded : Recorded PipelineAction Pipeline PipelineEvent := {|
  section_of := pipeline_section; event_of := pipeline_event; apply_event := pipeline_apply;
  section_event := pipeline_section_event
|}.

Abbreviation PipelineShared := (Journal Pipeline PipelineEvent).

(** ** The programs *)

(** One call of [Run]: what its agents answer, and what it reads of the clock and of its
    context. *)
Record Job := mkJob { jb_planner : Planner; jb_reviewers : list Reviewer; jb_env : RunEnv }.

(** The loop over the reviewers; [None] when there are readings missing. *)
Fixpoint reviewers_p (name : string) (proposal : Proposal) (rs : list Reviewer)
    (envs : list ReviewEnv) (end_ : Time) : Prog PipelineAction (option PipelineOutcome) :=
  match rs, envs with
  | [], _ =>
      act RecordSuccess ;;
      mret (Some (mkOutcomeP OutcomeEmit (Some proposal) RolePlanner name "" "" None time_zero end_))
  | r :: rs, env :: envs =>
      match re_ctx env with
      | Some c =>
          o ← act (RecordError (error_outcome (reviewer_Role r) (reviewer_Name r)
                "context_cancelled" (ctx_error c) (re_decided env)) (re_recorded env));
          mret (Some o)
      | None =>
          res ← act (CallReview r proposal);
          match res with
          | Err err =>
              o ← act (RecordError (error_outcome (reviewer_Role r) (reviewer_Name r)
                    "reviewer_error" err (re_decided env)) (re_recorded env));
              mret (Some o)
          | Ok res =>
              if rv_Veto res then
                act RecordSuccess ;;
                mret (Some (mkOutcomeP OutcomeVeto None (reviewer_Role r) (reviewer_Name r)
                        (rv_Reason res) (rv_Detail res) None time_zero (re_decided env)))
              else reviewers_p name proposal rs envs end_
          end
      end
  | _ :: _, [] => mret None
  end.

(** [p.Run(ctx)] *)
Definition Run_p (j : Job) : Prog PipelineAction (option PipelineOutcome) :=
  let now := run_start (jb_env j) in
  let name := planner_Name (jb_planner j) in
  match run_ctx (jb_env j) with
  | Some c =>
      o ← act (RecordError (error_outcome RolePlanner name "context_cancelled" (ctx_error c) now) now);
      mret (Some o)
  | None =>
      '(open, from, manually) ← act (CheckEnabled now);
      if negb open then
        mret (Some (mkOutcomeP OutcomeDisabled None RolePlanner ""
          (if manually : bool then "error_budget_exhausted" else "operator_disabled") "" None from now))
      else
        res ← act (CallPlan (jb_planner j));
        match res with
        | Err err =>
            o ← act (RecordError (error_outcome RolePlanner name "planner_error" err now) now);
            mret (Some o)
        | Ok plan =>
            if pl_Emit plan then
              reviewers_p name (pl_Proposal plan) (jb_reviewers j) (run_reviews (jb_env j))
                (run_end (jb_env j))
            else
              act RecordSuccess ;;
              mret (Some (mkOutcomeP OutcomeNoProposal None RolePlanner name (pl_Reason plan)
                      "" None time_zero now))
        end
  end.

(** A run and the return of its outcome to the caller. *)
Definition call_p (j : Job) : Prog PipelineAction unit :=
  o ← Run_p j;
  match o with Some o => act (Deliver o) | None => mret tt end.

Definition Enable_p : Prog PipelineAction unit := act (SetSwitch true).
Definition Disable_p : Prog PipelineAction unit := act (SetSwitch false).
Definition Enabled_p (now : Time) : Prog PipelineAction bool := act (AskEnabled now).

(** The pipeline as a run sees it: with the agents' answers of that run. *)
Definition with_agents (j : Job) (p : Pipeline) : Pipeline :=
  (p <| pp_planner := jb_planner j |>) <| pp_reviewers := jb_reviewers j |>.

(** ** Alone, a run computes what the sequential definition says *)

Lemma recordError_with_agents j p out now :
  recordError (with_agents j p) out now =
    ((recordError p out now).1, with_agents j (recordError p out now).2).
Proof. unfold recordError. simpl. by case_decide. Qed.

(** The next action of a program that runs alone. *)
Ltac exec :=
  rewrite run_bind, run_act; unfold perform, perform_recorded;
  cbn [section_of event_of pipeline_recorded pipeline_section pipeline_event mbind option_bind].

(** [q] performs alone what [r] says. *)
Definition computes (j : Job) (t : nat) (s : PipelineShared)
    (q : Prog PipelineAction (option PipelineOutcome)) (r : option (PipelineOutcome * Pipeline)) : Prop :=
  ∃ s', run t q s = Some (fst <$> r, s') ∧ ∀ o p, r = Some (o, p) → with_agents j (jn_state s') = p.

Lemma computes_error j t s out now :
  computes j t s (o ← act (RecordError out now); mret (Some o))
    (Some (recordError (with_agents j (jn_state s)) out now)).
Proof.
  rewrite recordError_with_agents. unfold computes. exec.
  destruct (recordError (jn_state s) out now) as [o p]. eexists. split; [done |]. by intros ?? [= _ <-].
Qed.

Lemma computes_success j t s out :
  computes j t s (act RecordSuccess ;; mret (Some out))
    (Some (out, recordSuccess (with_agents j (jn_state s)))).
Proof. eexists. split; [done |]. by intros ?? [= _ <-]. Qed.

Lemma computes_reviewers j t s proposal rs envs end_ :
  computes j t s (reviewers_p (planner_Name (jb_planner j)) proposal rs envs end_)
    (run_reviewers (with_agents j (jn_state s)) proposal rs envs end_).
Proof.
  revert s envs. induction rs as [|r rs IH]; intros s [|env envs].
  1,2: apply computes_success.
  - eexists. split; [done |]. by intros.
  - cbn [reviewers_p run_reviewers].
    destruct (re_ctx env); [apply computes_error |].
    unfold computes. exec.
    set (s1 := mkJournal _ _). change (jn_state s) with (jn_state s1).
    destruct (reviewer_Review r proposal) as [res|err]; [|apply computes_error].
    destruct (rv_Veto res); [apply computes_success | apply IH].
Qed.

(** A run that nothing interrupts gives the outcome of [Run], and leaves the pipeline as
    [Run] does. *)
Lemma run_computes j t s : computes j t s (Run_p j) (Run (with_agents j (jn_state s)) (jb_env j)).
Proof.
  unfold Run_p, Run. destruct (run_ctx (jb_env j)); [apply computes_error |].
  unfold computes. exec.
  change (isEnabledLocked (with_agents j (jn_state s)) (run_start (jb_env j)))
    with (isEnabledLocked (jn_state s) (run_start (jb_env j))).
  destruct (isEnabledLocked _ _); cbn [negb]; [|eexists; split; [done | by intros ?? [= _ <-]]].
  exec.
  set (s2 := mkJournal _ _). change (jn_state s) with (jn_state s2).
  change (planner_Plan (pp_planner (with_agents j (jn_state s2)))) with (planner_Plan (jb_planner j)).
  destruct (planner_Plan (jb_planner j)) as [plan|err]; [|apply computes_error].
  destruct (pl_Emit plan); [apply computes_reviewers | apply computes_success].
Qed.

(** ** What the history makes of the pipeline *)

(** The same from the history alone, the latest event first: what the operator said
    last; the errors since the last success or [Enable]; and the end of the cooldown
    that the last error over the budget began, if no [Enable] came after it. *)
Fixpoint switch_after (l : list PipelineEvent) : bool :=
  match l with [] => true | Switched on :: _ => on | _ :: l => switch_after l end.

Fixpoint errors_after (l : list PipelineEvent) : Z :=
  match l with
  | [] | Succeeded :: _ | Switched true :: _ => 0
  | Failed _ _ _ :: l => errors_after l + 1
  | _ :: l => errors_after l
  end.

Definition over_budget (b : ErrorBudget) (errors : Z) : Prop :=
  0 < MaxConsecutiveErrors b ≤ wrap64 errors.

#[export] Instance over_budget_dec b n : base.Decision (over_budget b n).
Proof. unfold over_budget. apply _. Defined.

Definition cooldown_end (b : ErrorBudget) (now : Time) : Time :=
  if decide (0 < eb_Cooldown b) then time_add now (eb_Cooldown b) else farFuture.

Fixpoint cooldown_after (b : ErrorBudget) (l : list PipelineEvent) : Time :=
  match l with
  | [] | Switched true :: _ => time_zero
  | Failed now out o :: l' =>
      if decide (over_budget b (errors_after l)) then cooldown_end b now else cooldown_after b l'
  | _ :: l => cooldown_after b l
  end.

Definition fresh_pipeline (p : Pipeline) : Prop :=
  consecutiveErrors p = 0 ∧ enabledFrom p = time_zero ∧ enabled p = true.

Lemma wrap64_succ n : wrap64 (wrap64 n + 1) = wrap64 (n + 1).
Proof.
  unfold wrap64. f_equal. replace ((n + 2 ^ 63) mod 2 ^ 64 - 2 ^ 63 + 1 + 2 ^ 63) with
    ((n + 2 ^ 63) mod 2 ^ 64 + 1) by lia.
  rewrite Zplus_mod_idemp_l. f_equal. lia.
Qed.

Lemma replay_setup p0 l :
  pp_budget (replay p0 l) = pp_budget p0.
Proof.
  induction l as [|[t e] l IH] using rev_ind; [done |]. rewrite replay_snoc, <-IH.
  destruct e as [| | |now out o| |[]|]; try done. apply recordError_setup.
Qed.

Lemma replay_after p0 l :
  fresh_pipeline p0 →
  let es := reverse l.*2 in
  enabled (replay p0 l) = switch_after es ∧
  consecutiveErrors (replay p0 l) = wrap64 (errors_after es) ∧
  enabledFrom (replay p0 l) = cooldown_after (pp_budget p0) es.
Proof.
  intros (Hc & Hf & He). induction l as [|[t e] l (IHs & IHe & IHc)] using rev_ind; [by split_and! |].
  cbn zeta. rewrite replay_snoc, fmap_app, reverse_app. cbn [fmap list_fmap snd reverse rev_append app].
  set (es := reverse l.*2) in *. change (reverse [e] ++ es) with (e :: es).
  destruct e as [| | |now out o| |[]|]; try by split_and!.
  pose proof (replay_setup p0 l) as Hb. cbn [apply_event pipeline_recorded pipeline_apply switch_after errors_after cooldown_after].
  assert (wrap64 (errors_after es + 1) = wrap64 (consecutiveErrors (replay p0 l) + 1)) as Hn
    by by rewrite IHe, wrap64_succ.
  assert (over_budget (pp_budget p0) (errors_after es + 1) ↔
    0 < MaxConsecutiveErrors (pp_budget p0) ∧
    MaxConsecutiveErrors (pp_budget p0) ≤ wrap64 (consecutiveErrors (replay p0 l) + 1)) as Ho
    by by unfold over_budget; rewrite Hn.
  revert Ho. generalize (decide (over_budget (pp_budget p0) (errors_after es + 1))).
  intros d Ho. rewrite Hn, <-IHs, <-IHc. unfold recordError, cooldown_end. cbn. rewrite Hb.
  destruct d, (decide (_ ∧ _)); [|exfalso; tauto..|]; by split_and!.
Qed.

(** ** The protocol *)

(** The sections of [own] that changed the budget. *)
Definition is_mark (e : PipelineEvent) : bool :=
  match e with Failed _ _ _ | Succeeded => true | _ => false end.

Definition marks (own : list PipelineEvent) : list PipelineEvent := filter is_mark own.

(** What the run read at its check, if it came to it, is as in [p]; what its agents
    answered is theirs. *)
Definition read_in (p : Pipeline) (e : PipelineEvent) : Prop :=
  match e with
  | Checked now x => x = (isEnabledLocked p now, enabledFrom p, enabled p)
  | AskedPlanner planner x => x = planner_Plan planner
  | AskedReviewer r proposal x => x = reviewer_Review r proposal
  | _ => True
  end.

Definition read_from (own : list PipelineEvent) (p : Pipeline) : Prop := Forall (read_in p) own.

Definition found_open (own : list PipelineEvent) : Prop :=
  ∃ now x, Checked now x ∈ own ∧ x.1.1 = true.

(** The run that did [own] returns [out] as [Run] on [p] does, except that an error is
    recorded on the state of its own time.  A run that was disabled recorded nothing;
    every other one recorded exactly one error or success. *)
Definition earned (p : Pipeline) (env : RunEnv) (own : list PipelineEvent) (out : PipelineOutcome) : Prop :=
  match marks own with
  | [] => o_Kind out = OutcomeDisabled ∧ Run p env = Some (out, p)
  | [Succeeded] => o_Kind out ≠ OutcomeDisabled ∧ Run p env = Some (out, recordSuccess p)
  | [Failed now err recorded] => Run p env = Some (recordError p err now) ∧ out = recorded
  | _ => False
  end.

Definition pipeline_allowed (jobs : nat → Job) (X : Set) (t : nat) (own : list PipelineEvent)
    (a : PipelineAction X) : Prop :=
  match a with
  | CheckEnabled _ => own = []
  | CallPlan _ | CallReview _ _ => found_open own
  | Deliver out => ∀ p, read_from own p → earned (with_agents (jobs t) p) (jb_env (jobs t)) own out
  | _ => True
  end.

Section protocol.
Context (p0 : Pipeline) (jobs : nat → Job).

(** If the run has come to its check, [l] begins with it. *)
Definition begins_at_check (t : nat) (own : list PipelineEvent) (l : list (nat * PipelineEvent)) : Prop :=
  ∀ now x, Checked now x ∈ own → ∃ rest, l = (t, Checked now x) :: rest.

Lemma begins_at_check_app t own e l l' :
  begins_at_check t own l → (∀ now x, e ≠ Some (Checked now x)) →
  begins_at_check t (own ++ option_list e) (l ++ l').
Proof.
  intros Hl He now x [Hin|Hin]%elem_of_app.
  - destruct (Hl now x Hin) as [rest ->]. by exists (rest ++ l').
  - destruct e as [e|]; simpl in Hin; [|by apply elem_of_nil in Hin].
    apply list_elem_of_singleton in Hin as <-. by destruct (He now x).
Qed.

(** What every event says of the history before it. *)
Definition pipeline_truthful (l : list (nat * PipelineEvent)) (te : nat * PipelineEvent) : Prop :=
  let '(t, e) := te in
  match e with
  | Checked now x => x = (isEnabledLocked (replay p0 l) now, enabledFrom (replay p0 l), enabled (replay p0 l))
  | AskedPlanner _ _ | AskedReviewer _ _ _ => found_open (done_by t l)
  | Failed now out recorded => recorded = (recordError (replay p0 l) out now).1
  | Delivered out =>
      ∃ l1 l2, l = l1 ++ l2 ∧ begins_at_check t (done_by t l) l2 ∧
        earned (with_agents (jobs t) (replay p0 l1)) (jb_env (jobs t)) (done_by t l) out
  | _ => True
  end.

Definition run_ok (l : list (nat * PipelineEvent)) (t : nat) (own : list PipelineEvent) : Prop :=
  own = done_by t l ∧
  ∃ l1 l2, l = l1 ++ l2 ∧ begins_at_check t own l2 ∧ read_from own (replay p0 l1).

Lemma pipeline_may_truthful (X : Set) t (a : PipelineAction X) l own :
  run_ok l t own → pipeline_allowed jobs X t own a →
  Forall (λ e, pipeline_truthful l (t, e)) (option_list (event_of a (section_of a (replay p0 l)).1)).
Proof.
  intros [-> (l1 & l2 & Hl & Hcheck & Hread)] Ha.
  destruct a; cbn in *; rewrite ?Forall_singleton, ?Forall_nil; try done. by exists l1, l2; auto.
Qed.

Lemma run_ok_own (X : Set) t (a : PipelineAction X) l own :
  run_ok l t own → pipeline_allowed jobs X t own a →
  let es := option_list (event_of a (section_of a (replay p0 l)).1) in
  run_ok (l ++ (pair t <$> es)) t (own ++ es).
Proof.
  intros (Hown & l1 & l2 & Hl & Hcheck & Hread) Ha es.
  split; [by rewrite done_by_app, done_by_own, Hown |].
  destruct a as [now| | | | | | |];
    [|exists l1, (l2 ++ (pair t <$> es)); rewrite Hl, <-app_assoc; split; [done |];
      split; [by apply begins_at_check_app | apply Forall_app; split; [done | by repeat constructor]] ..].
  exists l, (pair t <$> es). simpl in Ha. rewrite Ha. split; [done | split].
  - intros now' x Hin. apply list_elem_of_singleton in Hin as [= -> ->]. by exists [].
  - by apply List.Forall_cons.
Qed.

Lemma run_ok_other l t u own es : u ≠ t → run_ok l u own → run_ok (l ++ (pair t <$> es)) u own.
Proof.
  intros Hne (-> & l1 & l2 & Hl & Hcheck & Hr).
  split; [by rewrite done_by_app, done_by_other, app_nil_r |].
  exists l1, (l2 ++ (pair t <$> es)). rewrite app_assoc, <-Hl. split; [done | split; [|done]].
  rewrite <-(app_nil_r (done_by u l)). by apply (begins_at_check_app u _ None).
Qed.

Lemma run_ok_start l t : done_by t l = [] → run_ok l t [].
Proof. intros Hl. split; [done |]. exists [], l. split; [done | split; [by intros ?? ?%elem_of_nil | constructor]]. Qed.

#[export] Instance pipeline_promises : Promises (Action := PipelineAction) (Event := PipelineEvent) p0 := {|
  may_do := λ X t own a, pipeline_allowed jobs X t own a; truthful := pipeline_truthful; knows := run_ok;
  may_do_truthful := pipeline_may_truthful; knows_own := run_ok_own;
  knows_other := run_ok_other; knows_start := run_ok_start
|}.

#[local] Instance runs_protocol : Protocol PipelineAction PipelineShared (list PipelineEvent) :=
  journal_protocol p0.

(** ** The programs keep to it *)

Definition accounted (t : nat) (o : option PipelineOutcome) (own : list PipelineEvent) : Prop :=
  match o with
  | Some o => pipeline_allowed jobs unit t own (Deliver o)
  | None => True
  end.

(** What is left of the run, on any state it may have read. *)
Definition left_to_do (t : nat) (own : list PipelineEvent)
    (r : Pipeline → option (PipelineOutcome * Pipeline)) : Prop :=
  marks own = [] ∧
  ∀ p, read_from own p → Run (with_agents (jobs t) p) (jb_env (jobs t)) = r (with_agents (jobs t) p).

Lemma marks_app own own' : marks (own ++ own') = marks own ++ marks own'.
Proof. unfold marks. by rewrite list.filter_app. Qed.

Lemma read_from_app_l own own' p : read_from (own ++ own') p → read_from own p.
Proof. by intros [? _]%Forall_app. Qed.

Lemma left_to_do_asked t own e r r' :
  marks [e] = [] → left_to_do t own r →
  (∀ p, read_in p e → r (with_agents (jobs t) p) = r' (with_agents (jobs t) p)) →
  left_to_do t (own ++ [e]) r'.
Proof.
  intros Hm' [Hm Hr] Heq. split; [by rewrite marks_app, Hm, Hm' |].
  intros p [Hp He]%Forall_app. rewrite <-(Heq p (Forall_inv He)). by apply Hr.
Qed.

Lemma found_open_app own own' : found_open own → found_open (own ++ own').
Proof. intros (now & x & Hin & Hx). exists now, x. split; [apply elem_of_app; by left | done]. Qed.

Lemma follows_error t own out now :
  left_to_do t own (λ p, Some (recordError p out now)) →
  follows t (accounted t) own (o ← act (RecordError out now); mret (Some o)).
Proof.
  intros [Hm Hr]. simpl. split; [done |]. intros o p Hp. unfold earned, journal_next.
  rewrite marks_app, Hm. simpl. split; [|done]. apply Hr. by eapply read_from_app_l.
Qed.

Lemma follows_success t own out :
  o_Kind out ≠ OutcomeDisabled → left_to_do t own (λ p, Some (out, recordSuccess p)) →
  follows t (accounted t) own (act RecordSuccess ;; mret (Some out)).
Proof.
  intros Hk [Hm Hr]. simpl. split; [done |]. intros [] p Hp. unfold earned, journal_next.
  rewrite marks_app, Hm. simpl. split; [done |]. apply Hr. by eapply read_from_app_l.
Qed.

Lemma follows_reviewers t own proposal rs envs end_ :
  found_open own → left_to_do t own (λ p, run_reviewers p proposal rs envs end_) →
  follows t (accounted t) own
    (reviewers_p (planner_Name (jb_planner (jobs t))) proposal rs envs end_).
Proof.
  revert own envs. induction rs as [|r rs IH]; intros own [|env envs] Hopen Hl.
  1,2: by apply follows_success.
  - done.
  - cbn [reviewers_p]. cbn [run_reviewers] in Hl.
    destruct (re_ctx env); [by apply follows_error |]. apply (follows_step p0); [done |]. intros res. cbn [event_of pipeline_recorded pipeline_event option_list].
    apply (found_open_app own [AskedReviewer r proposal res]) in Hopen.
    destruct res as [res|err]; [destruct (rv_Veto res) eqn:Hv|].
    + apply follows_success; [done |]. eapply left_to_do_asked; [done..|]. simpl. intros p <-. by rewrite Hv.
    + apply IH; [done |]. eapply left_to_do_asked; [done..|]. simpl. intros p <-. by rewrite Hv.
    + apply follows_error. eapply left_to_do_asked; [done..|]. simpl. by intros p <-.
Qed.

Lemma follows_Run t : follows t (accounted t) [] (Run_p (jobs t)).
Proof.
  unfold Run_p. set (env := jb_env (jobs t)).
  assert (left_to_do t [] (λ p, Run p env)) as Hl by done. unfold Run in Hl.
  destruct (run_ctx env); [by apply follows_error |]. apply (follows_step p0); [done |]. intros [[open from] on]. cbn [event_of pipeline_recorded pipeline_event option_list].
  set (e := Checked (run_start env) (open, from, on)).
  assert (left_to_do t ([] ++ [e]) (λ p, if negb open then
      Some (mkOutcomeP OutcomeDisabled None RolePlanner ""
        (if on : bool then "error_budget_exhausted" else "operator_disabled") "" None from (run_start env), p)
    else match planner_Plan (pp_planner p) with
      | Err err => Some (recordError p (error_outcome RolePlanner (planner_Name (pp_planner p)) "planner_error" err (run_start env)) (run_start env))
      | Ok plan => if pl_Emit plan then
            run_reviewers p (pl_Proposal plan) (pp_reviewers p) (run_reviews env) (run_end env)
          else Some (mkOutcomeP OutcomeNoProposal None RolePlanner (planner_Name (pp_planner p))
                 (pl_Reason plan) "" None time_zero (run_start env), recordSuccess p) end)) as Hl'.
  { eapply left_to_do_asked; [done | exact Hl |]. simpl. by intros p [= -> -> ->]. }
  clear Hl. destruct open; cbn [negb] in *.
  2: { intros p Hp. split; [done |]. apply Hl'. exact Hp. }
  assert (found_open ([] ++ [e])) as Hopen by (exists (run_start env), (true, from, on); split; [by left | done]).
  apply (follows_step p0); [done |]. intros res. cbn [event_of pipeline_recorded pipeline_event option_list].
  apply (found_open_app _ [AskedPlanner (jb_planner (jobs t)) res]) in Hopen.
  destruct res as [plan|err]; [destruct (pl_Emit plan) eqn:Hem|].
  - apply follows_reviewers; [done |]. eapply left_to_do_asked; [done | exact Hl' |].
    simpl. intros p <-. by rewrite Hem.
  - apply follows_success; [done |]. eapply left_to_do_asked; [done | exact Hl' |].
    simpl. intros p <-. by rewrite Hem.
  - apply follows_error. eapply left_to_do_asked; [done | exact Hl' |]. simpl. by intros p <-.
Qed.
End protocol.

(** ** Everything that happens to a pipeline *)

Abbreviation PipelinePool := (Pool (Action := PipelineAction) (Sh := PipelineShared) unit).

Section pool.
Context (p0 : Pipeline) (jobs : nat → Job).
Hypothesis p0_fresh : fresh_pipeline p0.

(** Runs, and calls of the other methods. *)
Inductive pipeline_start : nat → Prog PipelineAction unit → Prop :=
| start_run t : pipeline_start t (call_p (jobs t))
| start_enable t : pipeline_start t Enable_p
| start_disable t : pipeline_start t Disable_p
| start_enabled t now : pipeline_start t (background (Enabled_p now)).

Definition pipeline_pool : PipelinePool := mkPool (mkJournal p0 []) ∅.

#[local] Instance pool_promises : Promises (Action := PipelineAction) (Event := PipelineEvent) p0 :=
  pipeline_promises p0 jobs.

Lemma pipeline_start_follows t p : pipeline_start t p → follows t finishes [] p.
Proof.
  intros Hp. destruct Hp; [|done..].
  apply follows_bind. eapply follows_mono; [|apply (follows_Run p0)].
  intros [o|] own Ho; [by split | done].
Qed.

(** C12. However runs and calls of [Enable], [Disable] and [Enabled] overlap: a goroutine
    that has not returned can go on, and all of them end.  The switch is as the last
    [Enable] or [Disable] left it; the count is that of the errors recorded since the
    last success or [Enable]; the cooldown is the one that the last error over the
    budget began.  An agent is called only by a run that found the pipeline enabled,
    and that finding was right when it was made.  Every outcome is the one [Run] gives
    for the pipeline as it was when the run looked at the switch and the budget -- at
    any earlier time if it was cancelled before.  A run that was disabled recorded
    nothing, every other one exactly one error or one success; what an error says of
    the cooldown is as of its recording. *)
Theorem pipeline_interleavings (pl : PipelinePool) :
  rtc (pool_step pipeline_start) pipeline_pool pl →
  let s := pl_shared pl in
  let latest_first := reverse (jn_log s).*2 in
  (∀ t p, pl_threads pl !! t = Some p → returned p = false →
     ∃ pl' p', act_step pl pl' ∧ pl_threads pl' = <[t := p']> (pl_threads pl)) ∧
  sn act_step pl ∧
  (enabled (jn_state s) = switch_after latest_first ∧
   consecutiveErrors (jn_state s) = wrap64 (errors_after latest_first) ∧
   enabledFrom (jn_state s) = cooldown_after (pp_budget p0) latest_first) ∧
  (∀ l t e l', jn_log s = l ++ (t, e) :: l' →
     match e with
     | Checked now x =>
         let p := replay p0 l in x = (isEnabledLocked p now, enabledFrom p, enabled p)
     | AskedPlanner _ _ | AskedReviewer _ _ _ =>
         ∃ now x, (t, Checked now x) ∈ l ∧ x.1.1 = true
     | Failed now out recorded => recorded = (recordError (replay p0 l) out now).1
     | Delivered out =>
         ∃ earlier later, l = earlier ++ later ∧
           (∀ now x, (t, Checked now x) ∈ l → ∃ rest, later = (t, Checked now x) :: rest) ∧
           earned (with_agents (jobs t) (replay p0 earlier)) (jb_env (jobs t)) (done_by t l) out
     | _ => True
     end).
Proof.
  intros Hr s latest_first.
  destruct (journal_truthful p0 pipeline_start pipeline_start_follows pl Hr) as (Hgo & Hend & Hp & Hh).
  split; [done | split; [done | split]].
  - subst s latest_first. rewrite Hp at 1 2 3. by apply replay_after.
  - intros l t e l' Hl. specialize (Hh l (t, e) l' Hl). destruct e; simpl in Hh; try done.
    1,2: destruct Hh as (now & x & Hin%elem_of_done_by & Hx); by exists now, x.
    destruct Hh as (l1 & l2 & Hl12 & Hcheck & He). exists l1, l2. split; [done | split; [|done]].
    intros now x Hin. by apply Hcheck, elem_of_done_by.
Qed.
End pool.

(** ** Witnesses *)

Definition tired : ErrorBudget := mkBudget 1 (60 * Second).

Definition budgeted : Pipeline :=
  mkPipeline (PlannerFunc "plan" None) [] tired 0 time_zero true.

Lemma budgeted_fresh : fresh_pipeline budgeted.
Proof. done. Qed.

Definition job_at (answer : result PlanResult aerror) (start end_ : Time) : Job :=
  mkJob (PlannerFunc "plan" (Some answer)) [] (mkRunEnv start None [] end_).

(** A run whose planner emits, and one whose planner fails. *)
Definition two_jobs (t : nat) : Job :=
  if decide (t = 0%nat) then job_at (Ok demo_plan) (10 * Second) (20 * Second)
  else job_at (Err (ErrNew "down")) (10 * Second) (20 * Second).

Definition two_runs : PipelinePool :=
  mkPool (mkJournal budgeted []) (<[1%nat := call_p (two_jobs 1)]> (<[0%nat := call_p (two_jobs 0)]> ∅)).

Lemma two_runs_reachable :
  rtc (pool_step (pipeline_start two_jobs)) (pipeline_pool budgeted) two_runs.
Proof.
  eapply rtc_l; [|apply rtc_once]; apply step_start; [done | | done |]; apply (start_run two_jobs).
Qed.

(** Both have found the pipeline enabled; the second fails and begins the cooldown, the
    first goes on and emits. *)
Lemma pipeline_interleavings_witness :
  ∃ pl, schedule [0; 1; 1; 1; 1; 0; 0; 0]%nat two_runs = Some pl ∧
    enabledFrom (jn_state (pl_shared pl)) = 70 * Second ∧
    (∃ out, last (jn_log (pl_shared pl)) = Some (0%nat, Delivered out) ∧ o_Kind out = OutcomeEmit) ∧
    ∀ l t out l', jn_log (pl_shared pl) = l ++ (t, Delivered out) :: l' →
      ∃ earlier later, l = earlier ++ later ∧
        (∀ now x, (t, Checked now x) ∈ l → ∃ rest, later = (t, Checked now x) :: rest) ∧
        earned (with_agents (two_jobs t) (replay budgeted earlier)) (jb_env (two_jobs t)) (done_by t l) out.
Proof.
  eassert (schedule [0; 1; 1; 1; 1; 0; 0; 0]%nat two_runs = Some _) as Hs by (vm_compute; reflexivity).
  eexists. split; [exact Hs |]. split; [reflexivity |].
  split; [eexists; split; reflexivity |]. intros l t out l' Hl.
  pose proof (schedule_reaches _ _ _ _ _ two_runs_reachable Hs) as Hr.
  destruct (pipeline_interleavings budgeted two_jobs budgeted_fresh _ Hr) as (_ & _ & _ & Hh).
  exact (Hh l t (Delivered out) l' Hl).
Defined.

(** What the history says of outcomes, of errors with the time they are recorded for, and
    of the switch. *)
Definition summary (pl : PipelinePool) : list (nat * (string + Time + bool)) :=
  omap (λ '(t, e),
    match e with
    | Delivered out => Some (t, inl (inl (outcome_string (o_Kind out))))
    | Failed now _ _ => Some (t, inl (inr now))
    | Switched on => Some (t, inr on)
    | _ => None
    end) (jn_log (pl_shared pl)).

(** A run that found the pipeline enabled emits after [Disable] has returned. *)
Example emits_while_disabled :
  summary <$> schedule [0; 1; 0; 0; 0]%nat
    (mkPool (mkJournal budgeted [])
      (<[1%nat := Disable_p]> (<[0%nat := call_p (two_jobs 0)]> ∅))) =
  Some [(1%nat, inr false); (0%nat, inl (inl "emit"))].
Proof. by vm_compute. Qed.

(** A planner that fails is recorded for the time its run began.  The second run fails at
    70s and begins a cooldown that lasts until 130s; the first, begun at 10s, fails later
    and moves its end to 70s: a third run at 80s is let through. *)
Definition slow_failure (t : nat) : Job :=
  job_at (Err (ErrNew "down")) (match t with O => 10 | 1%nat => 70 | _ => 80 end * Second) (90 * Second).

Example late_error_shortens_cooldown :
  let ends l := (λ pl : PipelinePool, enabledFrom (jn_state (pl_shared pl))) <$>
    schedule l (mkPool (mkJournal budgeted [])
      (<[2%nat := call_p (slow_failure 2)]>
        (<[1%nat := call_p (slow_failure 1)]> (<[0%nat := call_p (slow_failure 0)]> ∅)))) in
  ends [0; 1; 1; 1; 1]%nat = Some (130 * Second) ∧
  ends [0; 1; 1; 1; 1; 0; 0; 0]%nat = Some (70 * Second) ∧
  (λ pl, returned <$> pl_threads pl !! 2%nat) <$>
    schedule [0; 1; 1; 1; 1; 0; 0; 0; 2]%nat (mkPool (mkJournal budgeted [])
      (<[2%nat := call_p (slow_failure 2)]>
        (<[1%nat := call_p (slow_failure 1)]> (<[0%nat := call_p (slow_failure 0)]> ∅)))) =
    Some (Some false).
Proof. by vm_compute. Qed.
