(* ===== verification/BufferConc.v ===== *)
(** * Pooled buffers (internal/proxy/proxy.go, internal/middleware/logging.go)

    Two [sync.Pool]s hand out objects that requests share over time: the response
    buffers of the retry loop and the captures of the request log.  An object is a
    pointer into a heap; [Get] takes one that is in the pool or makes a new one, which
    of them the runtime decides; every method call on an object is an action, so that
    a goroutine that still had a pointer after [Put] would see what others write.

    The sequential definitions give each request a buffer of its own.  Here it is
    proved that this is what the pools amount to, in every interleaving: what is
    replayed and what is logged is the request's own.  The one use of a buffer after
    it was put back, in a log record, is found on the way. *)

From stdpp Require Import relations.
From S2P Require Import Prelude GoStrings Http Config Writers Redact Middleware Logging Proxy ProxyServe Goroutine.

Open Scope Z_scope.

(** ** A pool *)

Section pool.
Context {O Out : Set} (new : O).

(** [choice]: which object of the pool [Get] takes; a new one if it is not there. *)
Inductive BufferAction : Set → Type :=
| PoolGet (choice : option nat) : BufferAction nat
| Update (p : nat) (f : O → O) : BufferAction unit
| Look (p : nat) : BufferAction O
| PoolPut (p : nat) : BufferAction unit
| LookAfterPut (p : nat) : BufferAction O
| Say (out : Out) : BufferAction unit.

Record BufferShared := mkBS { bs_heap : list O; bs_free : list nat; bs_log : list (nat * Out) }.

Definition take_free (choice : option nat) (free : list nat) : option (nat * list nat) :=
  i ← choice; p ← free !! i; Some (p, delete i free).

#[export] Instance perform_buffer : Semantics BufferAction BufferShared := λ X t a,
  match a in BufferAction X return BufferShared → option (X * BufferShared) with
  | PoolGet choice => λ s,
      match take_free choice (bs_free s) with
      | Some (p, free) => Some (p, mkBS (bs_heap s) free (bs_log s))
      | None => Some (length (bs_heap s), mkBS (bs_heap s ++ [new]) (bs_free s) (bs_log s))
      end
  | Update p f => λ s,
      o ← bs_heap s !! p; Some (tt, mkBS (<[p := f o]> (bs_heap s)) (bs_free s) (bs_log s))
  | Look p | LookAfterPut p => λ s, o ← bs_heap s !! p; Some (o, s)
  | PoolPut p => λ s, Some (tt, mkBS (bs_heap s) (p :: bs_free s) (bs_log s))
  | Say out => λ s, Some (tt, mkBS (bs_heap s) (bs_free s) (bs_log s ++ [(t, out)]))
  end.

(** ** Ownership

    A goroutine owns the object it got until it puts it back, and has a predicate
    that holds of what is in it: anything at first, then what its own updates make of
    that.  [bg_sound]: what it has read was as its predicate says. *)
Record BufferGhost := mkBG {
  bg_own : option (nat * (O → Prop));
  bg_past : list nat;
  bg_sound : Prop
}.

Definition no_buffer : BufferGhost := mkBG None [] True.

Context (may_say : nat → Out → Prop).

Definition owns (g : BufferGhost) (p : nat) : Prop := fst <$> bg_own g = Some p.

Definition buffer_allowed (X : Set) (t : nat) (g : BufferGhost) (a : BufferAction X) : Prop :=
  match a with
  | PoolGet _ => bg_own g = None
  | Update p _ | Look p | PoolPut p => owns g p
  | LookAfterPut p => p ∈ bg_past g
  | Say out => bg_sound g → may_say t out
  end.

Definition updated (f : O → O) (P : O → Prop) : O → Prop := λ o, ∃ o0, P o0 ∧ o = f o0.

(** What the goroutine knows of the object it owns. *)
Definition expected (g : BufferGhost) (o : O) : Prop :=
  match bg_own g with Some (_, P) => P o | None => True end.

Definition buffer_next (X : Set) (g : BufferGhost) (a : BufferAction X) : X → BufferGhost :=
  match a in BufferAction X return X → BufferGhost with
  | PoolGet _ => λ p, mkBG (Some (p, λ _, True)) (bg_past g) (bg_sound g)
  | Update p f => λ _, mkBG (prod_map id (updated f) <$> bg_own g) (bg_past g) (bg_sound g)
  | Look p => λ x, mkBG (bg_own g) (bg_past g) (bg_sound g ∧ expected g x)
  | PoolPut p => λ _, mkBG None (p :: bg_past g) (bg_sound g)
  | _ => λ _, g
  end.

(** No object is in the pool twice, or in the pool and in use, or used by two. *)
Record buffers_ok (s : BufferShared) (gs : gmap nat BufferGhost) : Prop := {
  bo_free : NoDup (bs_free s) ∧ Forall (λ p, (p < length (bs_heap s))%nat) (bs_free s);
  bo_own t g p P : gs !! t = Some g → bg_own g = Some (p, P) →
    (∃ o, bs_heap s !! p = Some o ∧ P o) ∧ p ∉ bs_free s;
  bo_apart t u g h p : gs !! t = Some g → gs !! u = Some h → owns g p → owns h p → t = u;
  bo_past t g p : gs !! t = Some g → p ∈ bg_past g → (p < length (bs_heap s))%nat;
  bo_sound t g : gs !! t = Some g → bg_sound g;
  bo_log t out : (t, out) ∈ bs_log s → may_say t out
}.

Lemma owns_Some g p : owns g p → ∃ P, bg_own g = Some (p, P).
Proof. unfold owns. destruct (bg_own g) as [[q P]|]; [|done]. intros [= ->]. by exists P. Qed.

(** A step of [t] that changes its own ghost state, the heap where [t] owns it or
    beyond its end, and the pool. *)
Lemma buffers_ok_step s s' gs t g g' :
  buffers_ok s gs → gs !! t = Some g →
  (length (bs_heap s) ≤ length (bs_heap s'))%nat →
  (∀ p, (p < length (bs_heap s))%nat → ¬ owns g p → bs_heap s' !! p = bs_heap s !! p) →
  NoDup (bs_free s') →
  (∀ p, p ∈ bs_free s' → p ∈ bs_free s ∨ owns g p) →
  (∀ p P, bg_own g' = Some (p, P) → ((∃ o, bs_heap s' !! p = Some o ∧ P o) ∧ p ∉ bs_free s') ∧
     (owns g p ∨ p ∈ bs_free s ∨ p = length (bs_heap s))) →
  (∀ p, p ∈ bg_past g' → p ∈ bg_past g ∨ owns g p) → bg_sound g' →
  (∀ u out, (u, out) ∈ bs_log s' → (u, out) ∈ bs_log s ∨ may_say u out) →
  buffers_ok s' (<[t := g']> gs).
Proof.
  intros Hok Ht Hlen Hheap Hnd Hfree Hown Hpast Hsound Hlog.
  pose proof (bo_free s gs Hok) as [_ Hlt]. rewrite Forall_forall in Hlt.
  assert (∀ u h p P, gs !! u = Some h → bg_own h = Some (p, P) → (p < length (bs_heap s))%nat) as Hin.
  { intros u h p P Hu Hp. destruct (bo_own s gs Hok u h p P Hu Hp) as [(o & Ho & _) _].
    by eapply lookup_lt_Some. }
  assert (∀ p, owns g p → (p < length (bs_heap s))%nat) as Hing.
  { intros p [P Hp]%owns_Some. by eapply Hin. }
  assert (∀ u h p, u ≠ t → gs !! u = Some h → owns h p → owns g' p → False) as Hapart.
  { intros u h p Hne Hu Hp Hg'. pose proof Hp as [Q Hq]%owns_Some. apply owns_Some in Hg' as [P HP].
    destruct (Hown p P HP) as (_ & [Hg|[Hf|Hl]]).
    - by apply Hne, (bo_apart s gs Hok u t h g p).
    - by destruct (bo_own s gs Hok u h p Q Hu Hq) as [_ ?].
    - specialize (Hin u h p Q Hu Hq). lia. }
  split.
  - split; [done |]. rewrite Forall_forall. intros p [Hp|Hp]%Hfree; [specialize (Hlt p Hp) | specialize (Hing p Hp)]; lia.
  - intros u h p P Hu Hp. destruct (decide (u = t)) as [->|Hne].
    + rewrite lookup_insert_eq in Hu. injection Hu as <-. by destruct (Hown p P Hp) as [? _].
    + rewrite lookup_insert_ne in Hu by done. destruct (bo_own s gs Hok u h p P Hu Hp) as [Ho Hn].
      assert (¬ owns g p) as Hng.
      { intros Hg. apply Hne, (bo_apart s gs Hok u t h g p Hu Ht); [|done]. unfold owns. by rewrite Hp. }
      split; [rewrite Hheap; eauto|]. by intros [?|?]%Hfree.
  - intros u v h k p Hu Hv Hp Hk. destruct (decide (u = t)) as [->|Hu'], (decide (v = t)) as [->|Hv']; [done | ..];
      rewrite ?lookup_insert_eq, ?lookup_insert_ne in Hu by done;
      rewrite ?lookup_insert_eq, ?lookup_insert_ne in Hv by done.
    + injection Hu as <-. by destruct (Hapart v k p).
    + injection Hv as <-. by destruct (Hapart u h p).
    + by apply (bo_apart s gs Hok u v h k p).
  - intros u h p Hu Hp. destruct (decide (u = t)) as [->|Hne].
    + rewrite lookup_insert_eq in Hu. injection Hu as <-. destruct (Hpast p Hp) as [Hg|Hg].
      * pose proof (bo_past s gs Hok t g p Ht Hg). lia.
      * specialize (Hing p Hg). lia.
    + rewrite lookup_insert_ne in Hu by done. pose proof (bo_past s gs Hok u h p Hu Hp). lia.
  - intros u h Hu. destruct (decide (u = t)) as [->|Hne].
    + rewrite lookup_insert_eq in Hu. by injection Hu as <-.
    + rewrite lookup_insert_ne in Hu by done. by apply (bo_sound s gs Hok u h).
  - intros u out [Hu|Hu]%Hlog; [by apply (bo_log s gs Hok) | done].
Qed.

Lemma take_free_Some choice free p free' :
  take_free choice free = Some (p, free') → free ≡ₚ p :: free'.
Proof.
  intros (i & _ & (q & Hq & [= -> <-])%bind_Some)%bind_Some. by apply delete_Permutation.
Qed.

Lemma buffers_get s gs t g choice :
  buffers_ok s gs → gs !! t = Some g → bg_own g = None →
  ∃ p s', perform t (PoolGet choice) s = Some (p, s') ∧
    buffers_ok s' (<[t := buffer_next nat g (PoolGet choice) p]> gs).
Proof.
  intros Hok Ht Hg. cbn [perform perform_buffer].
  pose proof (bo_free s gs Hok) as [Hnd Hlt].
  assert (∀ p, ¬ owns g p) as Hng by (intros p; unfold owns; by rewrite Hg).
  destruct (take_free choice (bs_free s)) as [[p free]|] eqn:Hf.
  - apply take_free_Some in Hf. rewrite Hf in Hnd, Hlt.
    apply NoDup_cons in Hnd as [Hp Hnd]. apply Forall_cons in Hlt as [Hpl _].
    eexists p, _. split; [done |]. apply (buffers_ok_step s _ gs t g); try done; cbn; [|..].
    + intros q Hq. left. rewrite Hf. by right.
    + intros q P [= <- <-]. split; [split; [|done] | right; left; rewrite Hf; by left].
      destruct (lookup_lt_is_Some_2 _ _ Hpl) as [o Ho]. by exists o.
    + by left.
    + by apply (bo_sound s gs Hok t).
    + by left.
  - eexists _, _. split; [done |]. apply (buffers_ok_step s _ gs t g); try done; cbn.
    + rewrite length_app. simpl. lia.
    + intros q Hq _. by rewrite lookup_app_l.
    + by left.
    + intros q P [= <- <-]. split; [split|by right; right].
      * exists new. by rewrite lookup_app_r, Nat.sub_diag.
      * rewrite Forall_forall in Hlt. intros Hin%Hlt. lia.
    + by left.
    + by apply (bo_sound s gs Hok t).
    + by left.
Qed.

Lemma buffers_inv_act (X : Set) t (a : BufferAction X) s gs g :
  buffers_ok s gs → gs !! t = Some g → buffer_allowed X t g a →
  ∃ x s', perform t a s = Some (x, s') ∧ buffers_ok s' (<[t := buffer_next X g a x]> gs).
Proof.
  intros Hok Ht Ha. pose proof (bo_sound s gs Hok t g Ht) as Hsound.
  pose proof (bo_free s gs Hok) as [Hnd Hlt].
  assert (∀ p P, bg_own g = Some (p, P) → ((∃ o, bs_heap s !! p = Some o ∧ P o) ∧ p ∉ bs_free s) ∧
    (owns g p ∨ p ∈ bs_free s ∨ p = length (bs_heap s))) as Hkeep.
  { intros p P Hp. split; [by apply (bo_own s gs Hok t g) | left; unfold owns; by rewrite Hp]. }
  destruct a as [choice|p f|p|p|p|out]; simpl in Ha; [by apply buffers_get | ..];
    try (pose proof Ha as [P HP]%owns_Some; pose proof (bo_own s gs Hok t g p P Ht HP) as [(o & Ho & HPo) Hp]).
  - cbn [perform perform_buffer]. rewrite Ho. eexists _, _. split; [done |].
    apply (buffers_ok_step s _ gs t g); try done; cbn; rewrite ?length_insert; try (by left).
    + intros q _ Hq. rewrite list_lookup_insert_ne; [done | by intros ->].
    + rewrite HP. intros q Q [= <- <-]. split; [split; [|done] | by left].
      exists (f o). split; [by apply list_lookup_insert_eq; eapply lookup_lt_Some | by exists o].
  - cbn [perform perform_buffer]. rewrite Ho. eexists _, _. split; [done |].
    apply (buffers_ok_step s _ gs t g); try done; cbn; try (by left).
    split; [done |]. unfold expected. by rewrite HP.
  - eexists _, _. split; [done |]. apply (buffers_ok_step s _ gs t g); try done; cbn; try (by left).
    + by apply NoDup_cons.
    + intros q [->|Hq]%elem_of_cons; [by right | by left].
    + intros q [->|Hq]%elem_of_cons; [by right | by left].
  - destruct (lookup_lt_is_Some_2 (bs_heap s) p) as [o Ho]; [by apply (bo_past s gs Hok t g p)|].
    cbn [perform perform_buffer]. rewrite Ho. eexists _, _. split; [done |].
    apply (buffers_ok_step s _ gs t g); try done; by left.
  - eexists _, _. split; [done |]. apply (buffers_ok_step s _ gs t g); try done; cbn; try (by left).
    intros u out' [Hin|[= -> ->]%list_elem_of_singleton]%elem_of_app; [by left | right; by apply Ha].
Qed.

Lemma buffers_inv_start t s gs g :
  buffers_ok s gs → gs !! t = None → g = no_buffer → buffers_ok s (<[t := g]> gs).
Proof.
  intros Hok Ht ->. pose proof Hok as [Hf Ho Ha Hp Hs Hl]. split; [done | ..| done].
  - intros u h p P [[<- <-]|[_ Hu]]%lookup_insert_Some; [done | by apply (Ho u h p P)].
  - intros u v h k p [[<- <-]|[_ Hu]]%lookup_insert_Some; [done |].
    intros [[<- <-]|[_ Hv]]%lookup_insert_Some; [by intros _ [? ?]%owns_Some | by apply (Ha u v h k p)].
  - intros u h p [[<- <-]|[_ Hu]]%lookup_insert_Some; [by intros ?%elem_of_nil | by apply (Hp u h p)].
  - intros u h [[<- <-]|[_ Hu]]%lookup_insert_Some; [done | by apply (Hs u)].
Qed.

Lemma buffers_ok_empty : buffers_ok (mkBS [] [] []) ∅.
Proof.
  split; try done; simpl; try by intros ???%elem_of_nil. by split; constructor.
Qed.

#[export] Instance buffer_protocol : Protocol BufferAction BufferShared BufferGhost := {|
  pr_allowed := buffer_allowed; pr_next := buffer_next;
  pr_idle g := g = no_buffer; pr_done _ := True; pr_inv := buffers_ok;
  pr_inv_act := buffers_inv_act; pr_inv_start := buffers_inv_start
|}.
(** ** The programs' parts *)

Lemma follows_buffer {X : Set} {A} t post g (a : BufferAction X) (k : X → Prog BufferAction A) :
  buffer_allowed X t g a → (∀ x, follows t post (buffer_next X g a x) (k x)) →
  follows t post g (act a ≫= k).
Proof. by split. Qed.

(** What an object becomes by updates one after the other. *)
Definition updates_p (p : nat) (fs : list (O → O)) : Prog BufferAction unit :=
  each (λ f, act (Update p f)) fs.

Lemma follows_updates {A} t post p P past sound fs (k : unit → Prog BufferAction A) :
  (∀ P' : O → Prop, (∀ o, P' o → ∃ o0, P o0 ∧ o = foldl (λ o f, f o) o0 fs) →
     follows t post (mkBG (Some (p, P')) past sound) (k tt)) →
  follows t post (mkBG (Some (p, P)) past sound) (updates_p p fs ≫= k).
Proof.
  revert P. induction fs as [|f fs IH]; intros P Hk.
  - apply Hk. intros o Ho. by exists o.
  - split; [done |]. intros x. simpl. apply (IH (updated f P)).
    intros P' HP'. apply Hk. intros o (o1 & (o0 & Ho0 & ->) & ->)%HP'. by exists o0.
Qed.

(** ** Objects in use

    From [Get] to [Put] the rest of a goroutine's program has calls on its object: it
    calls a method of [p], reads it or puts it back, before it gets another.  (Not
    counted is [LookAfterPut], which reads an object that was given up.) *)
Definition calls_on {X : Set} (a : BufferAction X) : option nat :=
  match a with Update p _ | Look p | PoolPut p => Some p | _ => None end.

Fixpoint in_use {A} (p : nat) (prog : Prog BufferAction A) : Prop :=
  match prog with
  | Ret _ => False
  | Do a k =>
      calls_on a = Some p ∨
      match a with PoolGet _ => False | _ => ∃ x, in_use p (k x) end
  end.

Lemma in_use_owned {A} t post g p (prog : Prog BufferAction A) :
  follows t post g prog → in_use p prog → owns g p.
Proof.
  revert g. induction prog as [a|X a k IH]; intros g; [done |]. intros [Ha Hk] [Hc|Hc].
  - destruct a; simplify_eq/=; done.
  - destruct a as [|q f|q|q|q|out]; [done |..]; destruct Hc as [x Hc];
      specialize (IH x _ (Hk x) Hc); [|done..].
    revert IH. unfold owns. simpl. by destruct (bg_own g) as [[]|].
Qed.

(** An object in use is not in the pool, and nobody else uses it. *)
Lemma in_use_exclusive {A} s gs (ts : gmap nat (Prog BufferAction A)) :
  buffers_ok s gs →
  (∀ t p, ts !! t = Some p → ∃ g, gs !! t = Some g ∧ follows t finishes g p) →
  ∀ t prog p, ts !! t = Some prog → in_use p prog →
    (p ∉ bs_free s) ∧ ∀ u prog', ts !! u = Some prog' → in_use p prog' → u = t.
Proof.
  intros Hok Hts t prog p Ht Hp. destruct (Hts t prog Ht) as (g & Hg & Hf).
  pose proof (in_use_owned _ _ _ _ _ Hf Hp) as Ho. split.
  - pose proof Ho as [P HP]%owns_Some. by destruct (bo_own s gs Hok t g p P Hg HP).
  - intros u prog' Hu Hp'. destruct (Hts u prog' Hu) as (h & Hh & Hf').
    apply (bo_apart s gs Hok u t h g p); [done.. | by eapply in_use_owned | done].
Qed.

End pool.
Arguments BufferAction : clear implicits.
Arguments BufferShared : clear implicits.
Arguments BufferGhost : clear implicits.

(** ** The retry loop's buffers *)

(** What a request makes of a buffer: it replays it to the client, or it logs that the
    attempt is retried, with a status. *)
Inductive ProxySays :=
| Replayed (a : Attempt) (b : ResponseBuffer)
| RetryLogged (a : Attempt) (status : Z).

(** A request at its backend: its route, the request sent, and its attempts with what
    the pool gives each of them. *)
Record ProxyJob := mkProxyJob {
  pj_route : RouteConfig; pj_req : Request; pj_attempts : list (Attempt * option nat)
}.

Definition new_buffer : ResponseBuffer := mkBuffer ∅ "" 0 false.

(** The loop of [ServeHTTP] as far as it concerns buffers; the breakers and the metrics
    are in [Concurrent]. *)
Fixpoint buffered_attempts_p (route : RouteConfig) (req : Request) (attempt : Z)
    (attempts : list (Attempt * option nat)) : Prog (BufferAction ResponseBuffer ProxySays) unit :=
  match attempts with
  | [] => mret tt
  | (a, choice) :: attempts =>
      if at_cancelled a then mret tt
      else if decide (attempt = max_attempts route) then mret tt
      else
        p ← act (PoolGet choice);
        act (Update p buffer_Reset) ;;
        updates_p p ((λ op, writer_op op.1 op.2) <$> attempt_ops req a) ;;
        match at_ending a with
        | Aborted => mret tt
        | _ =>
            b ← act (Look p);
            if negb (isRetryable (rb_statusCode b)) then
              b ← act (Look p);
              act (Say (Replayed a b)) ;;
              act (PoolPut p)
            else
              act (PoolPut p) ;;
              b ← act (LookAfterPut p);
              act (Say (RetryLogged a (rb_statusCode b))) ;;
              buffered_attempts_p route req (attempt + 1) attempts
        end
  end.

Definition buffers_p (j : ProxyJob) : Prog (BufferAction ResponseBuffer ProxySays) unit :=
  buffered_attempts_p (pj_route j) (pj_req j) 1 (pj_attempts j).

(** The buffer of [ProxyServe.buffered_attempt]. *)
Definition own_buffer (req : Request) (a : Attempt) : ResponseBuffer :=
  run_ops (attempt_ops req a) (buffer_Reset (mkBuffer ∅ "" StatusOK false)).

#[export] Instance proxy_pool : Semantics (BufferAction ResponseBuffer ProxySays)
    (BufferShared ResponseBuffer ProxySays) := perform_buffer new_buffer.

Section proxy.
Context (jobs : nat → ProxyJob).

Definition proxy_may_say (t : nat) (out : ProxySays) : Prop :=
  let j := jobs t in
  match out with
  | Replayed a b =>
      a ∈ (pj_attempts j).*1 ∧ b = own_buffer (pj_req j) a ∧
      isRetryable (rb_statusCode b) = false ∧ at_ending a ≠ Aborted
  | RetryLogged a _ =>
      a ∈ (pj_attempts j).*1 ∧ isRetryable (rb_statusCode (own_buffer (pj_req j) a)) = true
  end.

#[local] Instance proxy_buffers : Protocol (BufferAction ResponseBuffer ProxySays)
    (BufferShared ResponseBuffer ProxySays) (BufferGhost ResponseBuffer) :=
  buffer_protocol new_buffer proxy_may_say.

Lemma run_ops_updates {W} `{ResponseWriter W} ops (w : W) :
  foldl (λ w f, f w) w ((λ op, writer_op op.1 op.2) <$> ops) = run_ops ops w.
Proof. unfold run_ops. revert w. induction ops as [|op ops IH]; intros w; [done | apply IH]. Qed.

Lemma follows_attempts t past sound attempt attempts :
  (∀ x, x ∈ attempts.*1 → x ∈ (pj_attempts (jobs t)).*1) →
  follows t (λ _ _, True) (mkBG None past sound)
    (buffered_attempts_p (pj_route (jobs t)) (pj_req (jobs t)) attempt attempts).
Proof.
  set (req := pj_req (jobs t)).
  revert past sound attempt. induction attempts as [|[a choice] attempts IH]; intros past sound attempt Hin; [done |].
  cbn [buffered_attempts_p]. destruct (at_cancelled a); [done |]. case_decide; [done |].
  assert (a ∈ (pj_attempts (jobs t)).*1) as Ha by (apply Hin; by left).
  apply follows_buffer; [done |]. intros p. apply follows_buffer; [done |]. intros u.
  cbn. apply follows_updates. intros P HP.
  assert (∀ o, P o → o = own_buffer req a) as Hown.
  { intros o (o0 & (o1 & _ & ->) & ->)%HP. by rewrite run_ops_updates. }
  destruct (at_ending a) eqn:He; [..|done].
  all: apply follows_buffer; [done |]; intros b.
  all: destruct (isRetryable (rb_statusCode b)) eqn:Hr; cbn [negb].
  all: (apply follows_buffer; [done |]; intros x1).
  1,3: (apply follows_buffer; [by left |]; intros b1; split;
    [intros [_ Hb]; split; [done |]; by rewrite (Hown b Hb) in Hr
    | intros []; apply IH; intros x Hx; apply Hin; by right]).
  all: split; [|done]; intros [[_ Hb] Hb1];
    rewrite (Hown b Hb) in Hr; rewrite (Hown x1 Hb1); split_and!; [done.. | by rewrite He].
Qed.

(** ** Everything that happens to the buffers *)

Inductive buffers_start : nat → Prog (BufferAction ResponseBuffer ProxySays) unit → Prop :=
| start_buffers t : buffers_start t (buffers_p (jobs t)).

Definition buffers_pool : Pool (Action := BufferAction ResponseBuffer ProxySays)
    (Sh := BufferShared ResponseBuffer ProxySays) unit := mkPool (mkBS [] [] []) ∅.

Lemma buffers_start_follows t p :
  buffers_start t p → ∃ g, pr_idle g ∧ follows t finishes g p.
Proof. intros []. exists no_buffer. split; [done |]. by apply follows_attempts. Qed.

(** C11. Whatever requests share the response buffers, however they interleave, whichever
    of its objects the pool hands out: no request dereferences a pointer that is not
    there, and all of them end; no buffer is in the pool twice, or in the pool while a
    request still has a call to make on it before its [Put], or so used by two requests;
    and what a request
    replays to its client is what its own backend answered in that attempt, header,
    status and body, as with a buffer of its own, with nothing of an earlier response
    or of another request; it decides on that answer whether to retry.  (The status
    in the log record of a retry is not covered; see [status_of_another].) *)
Theorem replayed_is_own pl :
  rtc (pool_step buffers_start) buffers_pool pl →
  let s := pl_shared pl in
  (∀ t p, pl_threads pl !! t = Some p → returned p = false →
     ∃ pl' p', act_step pl pl' ∧ pl_threads pl' = <[t := p']> (pl_threads pl)) ∧
  sn act_step pl ∧
  NoDup (bs_free s) ∧
  (∀ t prog p, pl_threads pl !! t = Some prog → in_use p prog →
     (p ∉ bs_free s) ∧ ∀ u prog', pl_threads pl !! u = Some prog' → in_use p prog' → u = t) ∧
  (∀ t a b, (t, Replayed a b) ∈ bs_log s →
     a ∈ (pj_attempts (jobs t)).*1 ∧ b = own_buffer (pj_req (jobs t)) a ∧
     isRetryable (rb_statusCode b) = false ∧ at_ending a ≠ Aborted) ∧
  (∀ t a status, (t, RetryLogged a status) ∈ bs_log s →
     isRetryable (rb_statusCode (own_buffer (pj_req (jobs t)) a)) = true).
Proof.
  intros Hr s.
  assert (pool_ok pl) as Hok.
  { apply (pool_ok_steps buffers_start buffers_start_follows _ _) in Hr; [done |]. exists ∅.
    split; [apply buffers_ok_empty | by split]. }
  pose proof Hok as (gs & Hinv & _ & Hfollows).
  split; [|split; [apply pools_end | split; [apply Hinv | split; [|split]]]].
  - intros t p Ht Hp. destruct (pool_ok_progress pl t p Hok Ht Hp) as (pl' & Hst & p' & Hp'). by exists pl', p'.
  - intros t prog p. eapply in_use_exclusive; [exact Hinv | exact Hfollows].
  - intros t a b. apply (bo_log _ _ _ Hinv t (Replayed a b)).
  - intros t a status Hin. by destruct (bo_log _ _ _ Hinv t (RetryLogged a status) Hin).
Qed.
End proxy.

(** *** Witnesses *)



Definition answer_with (code : Z) (body : string) : Attempt :=
  mkAttempt false 0 [(OpWriteHeader code, 0); (OpWrite body, 0)] Finished 1.

(** One request whose backend fails once, and one whose backend answers. *)
Definition one_fails (t : nat) : ProxyJob :=
  mkProxyJob retry_route (new_request "GET" "/" ∅ "1.2.3.4:5")
    (match t with
     | O => [(answer_with 502 "bad", None); (answer_with 200 "later", None)]
     | _ => [(answer_with 200 "fine", Some 0%nat); (answer_with 200 "unused", None)]
     end).

Definition sharing_pool :=
  mkPool (mkBS [] [] []) (<[1%nat := buffers_p (one_fails 1)]> (<[0%nat := buffers_p (one_fails 0)]> ∅))
  : Pool (Action := BufferAction ResponseBuffer ProxySays) (Sh := BufferShared ResponseBuffer ProxySays) unit.

Definition said (pl : Pool (Action := BufferAction ResponseBuffer ProxySays)
    (Sh := BufferShared ResponseBuffer ProxySays) unit) : list (nat * (string + Z)) :=
  (λ '(t, out), (t, match out with Replayed _ b => inl (rb_body b) | RetryLogged _ st => inr st end))
    <$> bs_log (pl_shared pl).

(** The first request puts its buffer back and then logs the status in it: meanwhile the
    second has taken the buffer, and the record of the retry says 200. *)
Example status_of_another :
  said <$> schedule (replicate 6 0 ++ replicate 4 1 ++ replicate 2 0 ++ replicate 4 1)%nat sharing_pool =
    Some [(0%nat, inr 200); (1%nat, inl "fine")] ∧
  said <$> schedule (replicate 8 0 ++ replicate 8 1)%nat sharing_pool =
    Some [(0%nat, inr 502); (1%nat, inl "fine")].
Proof. by vm_compute. Qed.

Lemma sharing_reachable : rtc (pool_step (buffers_start one_fails)) buffers_pool sharing_pool.
Proof. eapply rtc_l; [|apply rtc_once]; apply step_start; [done | | done |]; apply (start_buffers one_fails). Qed.

Lemma replayed_is_own_witness :
  ∃ pl, schedule (replicate 6 0 ++ replicate 4 1 ++ replicate 2 0 ++ replicate 4 1)%nat sharing_pool = Some pl ∧
    said pl = [(0%nat, inr 200); (1%nat, inl "fine")] ∧
    (∀ t a b, (t, Replayed a b) ∈ bs_log (pl_shared pl) → b = own_buffer (pj_req (one_fails t)) a) ∧
    (∀ t a status, (t, RetryLogged a status) ∈ bs_log (pl_shared pl) →
       isRetryable (rb_statusCode (own_buffer (pj_req (one_fails t)) a)) = true).
Proof.
  assert (said <$> schedule (replicate 6 0 ++ replicate 4 1 ++ replicate 2 0 ++ replicate 4 1)%nat sharing_pool =
    Some [(0%nat, inr 200); (1%nat, inl "fine")]) as Hs by by vm_compute.
  apply fmap_Some in Hs as (pl & Hpl & Hs). exists pl. split; [done |]. split; [done |].
  pose proof (schedule_reaches _ _ _ _ _ sharing_reachable Hpl) as Hr.
  destruct (replayed_is_own one_fails pl Hr) as (_ & _ & _ & _ & Hrep & Hret).
  split; [intros t a b Hin; by apply (Hrep t a b) | exact Hret].
Defined.

(** ** The captures of the request log *)

Abbreviation CaptureAction := (BufferAction BodyCapture LogEntry).

Definition new_capture : BodyCapture := mkCapture "" 0 "".

#[export] Instance capture_pool : Semantics CaptureAction (BufferShared BodyCapture LogEntry) :=
  perform_buffer new_capture.

Section captures.
Context {W : Type} `{ResponseWriter W}.

(** The two recorders with the capture they point to. *)
Definition with_capture (c : BodyCapture) (sr : StatusRecorder (BodyRecorder W))
    : StatusRecorder (BodyRecorder W) :=
  mkStatusRecorder
    (mkBodyRecorder (br_ResponseWriter (sr_ResponseWriter sr)) c
       (br_headerWritten (sr_ResponseWriter sr))) (sr_statusCode sr).

(** What a call of the handler does to the capture. *)
Definition capture_update (op : WriterOp * Time) (sr : StatusRecorder (BodyRecorder W))
    (c : BodyCapture) : BodyCapture :=
  br_capture (sr_ResponseWriter (writer_op op.1 op.2 (with_capture c sr))).

Fixpoint capture_updates (ops : list (WriterOp * Time)) (sr : StatusRecorder (BodyRecorder W))
    : list (BodyCapture → BodyCapture) :=
  match ops with
  | [] => []
  | op :: ops => capture_update op sr :: capture_updates ops (writer_op op.1 op.2 sr)
  end.

Lemma writer_op_capture op c sr :
  writer_op op.1 op.2 (with_capture c sr) =
    with_capture (capture_update op sr c) (writer_op op.1 op.2 sr).
Proof.
  destruct op as [[u|code|b] t], sr as [[w c0 hw] st]; [done | ..];
    unfold capture_update, with_capture; simpl; unfold status_WriteHeader, body_WriteHeader, body_Write,
    note_content_type; simpl; by destruct hw.
Qed.

Lemma capture_updates_run ops sr c :
  foldl (λ c f, f c) c (capture_updates ops sr) =
    br_capture (sr_ResponseWriter (run_ops ops (with_capture c sr))) ∧
  with_capture c (run_ops ops sr) = with_capture c (run_ops ops (with_capture c sr)).
Proof.
  revert sr c. induction ops as [|op ops IH]; intros sr c; [done |].
  unfold run_ops. simpl. fold (run_ops ops (writer_op op.1 op.2 (with_capture c sr))).
  fold (run_ops ops (writer_op op.1 op.2 sr)). rewrite writer_op_capture.
  destruct (IH (writer_op op.1 op.2 sr) (capture_update op sr c)) as [-> Hw]. split; [done |].
  unfold with_capture in *. by injection Hw as -> -> ->.
Qed.

(** [Logging(logger, routeLogLevel, bodyConfig)(next).ServeHTTP(w, r)] with the capture
    it gets from the pool. *)
Definition logging_p {S} (routeLogLevel : option (string → Level))
    (bodyConfig : option LoggingOptions) (start stop : Time) (choice : option nat)
    (next : Handler S) (s : S) (r : Request) (w : W) : Prog CaptureAction (W * HandlerRun S) :=
  let level := default (λ _, LevelInfo) routeLogLevel (rq_Path r) in
  if decide (level = LogLevelNone) then
    let h := next s r (rw_header_of w) in mret (run_ops (h_ops h) w, h)
  else
    let '(reqBody, r') :=
      if logs_body bodyConfig && shouldLogBody (header_Get "Content-Type" (rq_Header r)) &&
         negb (is_nil (rq_Body r))
      then captureRequestBody r (max_body bodyConfig) else ("", r) in
    let h := next s r' (rw_header_of w) in
    let entry status body :=
      mkEntry level (rq_Method r') (h_path h) status (Z.quot (time_sub stop start) 1000000)
        (rq_RemoteAddr r') (GetRequestID r') (nonempty reqBody) body in
    if logs_body bodyConfig && shouldLogBody "" then
      p ← act (PoolGet choice);
      act (Update p capture_Reset) ;;
      act (Update p (λ c, c <| bc_maxBytes := max_body bodyConfig |>)) ;;
      let sr := mkStatusRecorder (mkBodyRecorder w new_capture false) StatusOK in
      updates_p p (capture_updates (h_ops h) sr) ;;
      let sr := run_ops (h_ops h) sr in
      let w' := br_ResponseWriter (sr_ResponseWriter sr) in
      match h_exit h with
      | Panicked => mret (w', h)
      | Returned =>
          c ← act (Look p);
          act (Say (entry (sr_statusCode sr)
            (if shouldLogBody (bc_contentType c) then redactSensitive <$> nonempty (bc_buf c) else None))) ;;
          act (PoolPut p) ;;
          mret (w', h)
      end
    else
      let sr := run_ops (h_ops h) (mkStatusRecorder w StatusOK) in
      match h_exit h with
      | Panicked => mret (sr_ResponseWriter sr, h)
      | Returned => act (Say (entry (sr_statusCode sr) None)) ;; mret (sr_ResponseWriter sr, h)
      end.
End captures.

Section logs.
Context {S W : Type} `{ResponseWriter W}.

(** A request at the log: the arguments of [Logging] but the capture. *)
Record LogJob := mkLogJob {
  lj_levels : option (string → Level); lj_config : option LoggingOptions;
  lj_start : Time; lj_stop : Time; lj_next : Handler S; lj_state : S;
  lj_req : Request; lj_writer : W
}.

Definition log_job_p (choice : option nat) (j : LogJob) : Prog CaptureAction (W * HandlerRun S) :=
  logging_p (lj_levels j) (lj_config j) (lj_start j) (lj_stop j) choice (lj_next j) (lj_state j)
    (lj_req j) (lj_writer j).

(** ... with a capture of its own. *)
Definition logged_alone (j : LogJob) (pooled : BodyCapture) : Logged S W :=
  Logging (lj_levels j) (lj_config j) (lj_start j) (lj_stop j) pooled (lj_next j) (lj_state j)
    (lj_req j) (lj_writer j).

(** The client and the handler's result are as with a capture of its own. *)
Definition as_alone (j : LogJob) (res : W * HandlerRun S) (_ : BufferGhost BodyCapture) : Prop :=
  ∀ pooled, res = (lg_writer (logged_alone j pooled), lg_run (logged_alone j pooled)).

Section log_job.
Context (may_say : nat → LogEntry → Prop).

#[local] Instance log_job_buffers : Protocol CaptureAction (BufferShared BodyCapture LogEntry)
    (BufferGhost BodyCapture) := buffer_protocol new_capture may_say.

Lemma follows_log_job t choice j :
  (∀ e, (∀ pooled, lg_entry (logged_alone j pooled) = Some e) → may_say t e) →
  follows t (as_alone j) no_buffer (log_job_p choice j).
Proof.
  unfold log_job_p, logging_p, as_alone, logged_alone, Logging. intros Hmay.
  destruct j as [levels cfg start stop next s r w]. cbn [lj_levels lj_config lj_start lj_stop lj_next lj_state lj_req lj_writer] in *.
  case_decide; [done |].
  destruct (if _ && _ && _ then captureRequestBody r (max_body cfg) else ("", r)) as [reqBody r'].
  set (h := next s r' (rw_header_of w)) in *. destruct (logs_body cfg && shouldLogBody "").
  2: { destruct (h_exit h); [|done]. apply follows_buffer; [|done]. intros _. by apply Hmay. }
  apply follows_buffer; [done |]. intros p. apply follows_buffer; [done |]. intros u1.
  apply follows_buffer; [done |]. intros u2. cbn.
  apply follows_updates. intros P HP.
  set (sr0 := mkStatusRecorder (mkBodyRecorder w new_capture false) StatusOK).
  set (c0 := mkCapture "" (max_body cfg) "").
  destruct (capture_updates_run (h_ops h) sr0 c0) as [Hc Hw]. injection Hw as Hw _ Hst.
  assert (∀ o, P o → o = br_capture (sr_ResponseWriter (run_ops (h_ops h) (with_capture c0 sr0)))) as HP'.
  { intros o (o0 & (o1 & (o2 & _ & ->) & ->) & ->)%HP. exact Hc. }
  rewrite Hw, Hst. destruct (h_exit h); [|by intros _].
  apply follows_buffer; [done |]. intros c. apply follows_buffer; [|by intros []].
  intros [_ Hcap]. apply Hmay. intros pooled. by rewrite (HP' c Hcap).
Qed.
End log_job.

Section pool.
Context (jobs : nat → LogJob).

Inductive log_start : nat → Prog CaptureAction unit → Prop :=
| start_log t choice : log_start t (background (log_job_p choice (jobs t))).

Definition captures_pool : Pool (Action := CaptureAction) (Sh := BufferShared BodyCapture LogEntry) unit :=
  mkPool (mkBS [] [] []) ∅.

Definition log_may_say (t : nat) (e : LogEntry) : Prop :=
  ∀ pooled, lg_entry (logged_alone (jobs t) pooled) = Some e.

#[local] Instance log_buffers : Protocol CaptureAction (BufferShared BodyCapture LogEntry)
    (BufferGhost BodyCapture) := buffer_protocol new_capture log_may_say.

Lemma log_start_follows t p : log_start t p → ∃ g, pr_idle g ∧ follows t finishes g p.
Proof.
  intros []. exists no_buffer. split; [done |]. apply follows_bind.
  eapply follows_mono; [|by apply (follows_log_job log_may_say)]. done.
Qed.

(** Whatever requests share the captures of the log, in every interleaving and
    whichever capture the pool hands out: every goroutine can go on and all end; no
    capture is in the pool twice; and every entry of the log is the one [Logging]
    writes with a capture of its own: no byte of another response is in it. *)
Theorem logged_is_own pl :
  rtc (pool_step log_start) captures_pool pl →
  let s := pl_shared pl in
  (∀ t p, pl_threads pl !! t = Some p → returned p = false →
     ∃ pl' p', act_step pl pl' ∧ pl_threads pl' = <[t := p']> (pl_threads pl)) ∧
  sn act_step pl ∧
  NoDup (bs_free s) ∧
  ∀ t e, (t, e) ∈ bs_log s → ∀ pooled, lg_entry (logged_alone (jobs t) pooled) = Some e.
Proof.
  intros Hr s.
  assert (pool_ok pl) as Hok.
  { apply (pool_ok_steps log_start log_start_follows _ _) in Hr; [done |]. exists ∅.
    split; [apply buffers_ok_empty | by split]. }
  pose proof Hok as (gs & Hinv & _).
  split; [|split; [apply pools_end | split; [apply Hinv | exact (bo_log _ _ _ Hinv)]]].
  intros t p Ht Hp. destruct (pool_ok_progress pl t p Hok Ht Hp) as (pl' & Hst & p' & Hp'). by exists pl', p'.
Qed.
End pool.
End logs.

(** *** Witness *)

Definition two_logs (t : nat) : LogJob (S := unit) (W := Client) :=
  mkLogJob None (Some (mkLoggingOptions true 8)) 0 1000000
    (λ s r _, mkRun [(OpWriteHeader 200, 0); (OpWrite (rq_Path r), 0)] Returned (rq_Path r) (rq_Header r) s)
    tt (new_request "GET" (match t with O => "/first/one" | _ => "/2" end) ∅ "1.2.3.4:5") new_client.

Definition logging_pool :=
  mkPool (mkBS [] [] [])
    (<[1%nat := background (log_job_p (Some 0%nat) (two_logs 1))]>
      (<[0%nat := background (log_job_p None (two_logs 0))]> ∅))
  : Pool (Action := CaptureAction) (Sh := BufferShared BodyCapture LogEntry) unit.

Lemma logging_reachable : rtc (pool_step (log_start two_logs)) captures_pool logging_pool.
Proof. eapply rtc_l; [|apply rtc_once]; apply step_start; [done | | done |]; apply (start_log two_logs). Qed.

(** The second request gets the capture of the first, and logs its own body alone. *)
Lemma logged_is_own_witness :
  ∃ pl, schedule (replicate 8 0 ++ replicate 8 1)%nat logging_pool = Some pl ∧
    length (bs_heap (pl_shared pl)) = 1%nat ∧
    ((λ '(t, e), (t, le_response_body e)) <$> bs_log (pl_shared pl)) =
      [(0%nat, Some "/first/o"); (1%nat, Some "/2")] ∧
    ∀ t e, (t, e) ∈ bs_log (pl_shared pl) →
      lg_entry (logged_alone (two_logs t) (mkCapture "left over" 0 "")) = Some e.
Proof.
  assert ((λ pl, (length (bs_heap (pl_shared pl)),
      (λ '(t, e), (t, le_response_body e)) <$> bs_log (pl_shared pl))) <$>
    schedule (replicate 8 0 ++ replicate 8 1)%nat logging_pool =
    Some (1%nat, [(0%nat, Some "/first/o"); (1%nat, Some "/2")])) as Hs by by vm_compute.
  apply fmap_Some in Hs as (pl & Hpl & [= Hlen Hlog]). exists pl. split_and!; [done.. |].
  pose proof (schedule_reaches _ _ _ _ _ logging_reachable Hpl) as Hr.
  destruct (logged_is_own two_logs pl Hr) as (_ & _ & _ & Hown).
  intros t e Hin. by apply (Hown t e).
Defined.
