(* ===== verification/LogConc.v ===== *)
(** * Writes to the log file beside its cleanups (internal/logging/writer.go)

    [Write] and [Close] run under the writer's mutex; every rotation starts [cleanup] in
    a goroutine of its own, which takes no lock: it reads the directory once and then
    looks at and removes one file after the other, while records are written and files
    rotated.  Here a [Write] is one action, and so is each call of [cleanup] on the
    file system.  What the system answers to each of these calls is open: a file may fail
    to be renamed, opened, written or removed, and the clock may say anything.

    The shared state has a history: the records with the results of their [Write]s, the
    files that rotations put aside, and what the cleanups removed and why. *)

From stdpp Require Import relations sorting.
From S2P Require Import Prelude GoStrings LogWriter Goroutine.

Open Scope Z_scope.

(** ** Actions *)

(** Why a cleanup removes a file: of those it listed at least [maxBackups] come [later]
    in the order of their names; or it was last modified before the cutoff. *)
Inductive Why := Excess (later : list string) | TooOld (mtime cutoff : Time).

Inductive LogAction : Set → Type :=
| WriteRecord (e : FileEnv) (p : string) : LogAction (Z * option FileError)
| CloseFile : LogAction unit
| ListBackups : LogAction (list string)
| StatFile (name : string) : LogAction (option Time)
| RemoveFile (name : string) (succeeds : bool) (why : Why) : LogAction unit
| IndexEmpty : LogAction unit.           (** [rotated[0]] of an empty slice *)

(** A record with what its [Write] returned. *)
Definition LogWrite : Type := string * (Z * option FileError).

Record LogShared := mkLogShared {
  ls_rw : RotatingWriter;
  ls_dir : gmap string LogFile;
  ls_writes : list LogWrite;
  ls_rotated : list (Civil * LogFile);
  ls_removed : list (string * LogFile * Why)
}.

#[export] Instance LogShared_eta : Eta LogShared := λ s,
  mkLogShared (ls_rw s) (ls_dir s) (ls_writes s) (ls_rotated s) (ls_removed s).

#[export] Instance perform_log : Semantics LogAction LogShared := λ X t a,
  match a in LogAction X return LogShared → option (X * LogShared) with
  | WriteRecord e p => λ s,
      let '(n, err, rw, dir) := log_Write e p (ls_rw s) (ls_dir s) in
      Some ((n, err), mkLogShared rw dir (ls_writes s ++ [(p, (n, err))])
        (ls_rotated s ++ (pair (fe_civil e) <$> option_list (put_aside e p (ls_rw s) (ls_dir s))))
        (ls_removed s))
  | CloseFile => λ s, Some (tt, s <| ls_rw := log_Close (ls_rw s) |>)
  | ListBackups => λ s, Some (backups (ls_rw s) (ls_dir s), s)
  | StatFile name => λ s, Some (lf_mtime <$> ls_dir s !! name, s)
  | RemoveFile name succeeds why => λ s,
      Some (tt,
        match (if succeeds then ls_dir s !! name else None) with
        | Some f =>
            (s <| ls_dir := delete name (ls_dir s) |>)
              <| ls_removed := ls_removed s ++ [(name, f, why)] |>
        | None => s
        end)
  | IndexEmpty => λ _, None
  end.

(** ** The programs *)

Definition Write_p (e : FileEnv) (p : string) : Prog LogAction (Z * option FileError) :=
  act (WriteRecord e p).

Definition Close_p : Prog LogAction unit := act CloseFile.

(** The first loop of [cleanup]; what is left of the list is returned. *)
Fixpoint remove_excess_p (e : CleanupEnv) (maxBackups : Z) (rotated : list string)
    : Prog LogAction (list string) :=
  match rotated with
  | [] => if decide (maxBackups < 0) then act IndexEmpty ;; mret [] else mret []
  | name :: rest =>
      if decide (maxBackups < Z.of_nat (length rotated)) then
        act (RemoveFile name (ce_removes e name) (Excess rest)) ;; remove_excess_p e maxBackups rest
      else mret rotated
  end.

(** The body of the second. *)
Definition remove_aged_p (e : CleanupEnv) (name : string) : Prog LogAction unit :=
  info ← act (StatFile name);
  match info with
  | Some mtime =>
      if ce_stats e name && bool_decide (mtime < ce_cutoff e) then
        act (RemoveFile name (ce_removes e name) (TooOld mtime (ce_cutoff e)))
      else mret tt
  | None => mret tt
  end.

(** [rw.cleanup()] *)
Definition cleanup_p (e : CleanupEnv) (maxBackups : Z) : Prog LogAction unit :=
  if negb (ce_reads e) then mret tt
  else
    rotated ← act ListBackups;
    rotated ← remove_excess_p e maxBackups rotated;
    each (remove_aged_p e) rotated.

(** ** Alone, a cleanup leaves the directory as [log_cleanup] does *)

Lemma perform_remove t name ok why s :
  ∃ s', perform t (RemoveFile name ok why) s = Some (tt, s') ∧
    ls_dir s' = (if ok then delete name (ls_dir s) else ls_dir s) ∧ ls_rw s' = ls_rw s.
Proof.
  eexists. split; [done |]. destruct ok; simpl; [|done].
  destruct (ls_dir s !! name) eqn:Hn; [done |]. split; [|done]. symmetry. by apply delete_id.
Qed.

Lemma run_remove_excess t e max l s :
  match remove_excess e max l (ls_dir s) with
  | Some (l', dir') => ∃ s', run t (remove_excess_p e max l) s = Some (l', s') ∧ ls_dir s' = dir'
  | None => run t (remove_excess_p e max l) s = None
  end.
Proof.
  revert s. induction l as [|n l IH]; intros s; cbn [remove_excess_p remove_excess].
  - by case_decide; [|exists s].
  - case_decide; [|by exists s].
    destruct (perform_remove t n (ce_removes e n) (Excess l) s) as (s1 & Hp & Hd & _).
    rewrite run_bind, run_act, Hp. cbn [mbind option_bind].
    specialize (IH s1). rewrite Hd in IH. unfold remove. exact IH.
Qed.

Lemma run_remove_aged t e l s :
  ∃ s', run t (each (remove_aged_p e) l) s = Some (tt, s') ∧
    ls_dir s' = foldl (remove_aged e) (ls_dir s) l.
Proof.
  revert s. induction l as [|n l IH]; intros s; [by exists s |]. cbn [each foldl].
  assert (∃ s1, run t (remove_aged_p e n) s = Some (tt, s1) ∧ ls_dir s1 = remove_aged e (ls_dir s) n)
    as (s1 & Hr1 & Hd1).
  { unfold remove_aged_p, remove_aged. rewrite run_bind, run_act. cbn [perform perform_log mbind option_bind].
    destruct (ls_dir s !! n) as [f|]; [|by exists s]. cbn [fmap option_fmap option_map].
    destruct (ce_stats e n && bool_decide (lf_mtime f < ce_cutoff e)); [|by exists s].
    rewrite run_act.
    destruct (perform_remove t n (ce_removes e n) (TooOld (lf_mtime f) (ce_cutoff e)) s) as (s1 & Hp & Hd & _).
    by exists s1. }
  rewrite run_bind, Hr1. cbn [mbind option_bind].
  destruct (IH s1) as (s' & Hr & Hd). exists s'. by rewrite Hr, Hd, Hd1.
Qed.

(** A cleanup that nothing interrupts; both panic for a negative [maxBackups]. *)
Lemma cleanup_alone t e s :
  match log_cleanup e (ls_rw s) (ls_dir s) with
  | Some dir' => ∃ s', run t (cleanup_p e (rw_maxBackups (ls_rw s))) s = Some (tt, s') ∧ ls_dir s' = dir'
  | None => run t (cleanup_p e (rw_maxBackups (ls_rw s))) s = None
  end.
Proof.
  unfold cleanup_p, log_cleanup. destruct (ce_reads e); cbn [negb]; [|by exists s].
  rewrite run_bind, run_act. cbn [perform perform_log mbind option_bind].
  pose proof (run_remove_excess t e (rw_maxBackups (ls_rw s)) (backups (ls_rw s) (ls_dir s)) s) as Hx.
  rewrite run_bind. destruct (remove_excess _ _ _ _) as [[l dir1]|]; [|by rewrite Hx].
  destruct Hx as (s1 & -> & Hd). cbn [mbind option_bind].
  destruct (run_remove_aged t e l s1) as (s2 & Hr2 & Hd2). exists s2.
  split; [exact Hr2 | by rewrite Hd2, Hd].
Qed.

(** ** A write *)

Definition join (l : list string) : string := foldr String.append "" l.

Lemma join_snoc l x : join (l ++ [x]) = join l +:+ x.
Proof.
  induction l as [|y l IH]; simpl; [by rewrite string_app_nil_r |]. by rewrite IH, string_app_assoc.
Qed.

(** The bytes of a record that the system took. *)
Definition accepted (w : LogWrite) : string := stake (Z.to_nat w.2.1) w.1.

(** A [Write] says how many bytes it took, and has no error only if it took all. *)
Definition reported (w : LogWrite) : Prop :=
  0 ≤ w.2.1 ≤ Z.of_nat (len w.1) ∧ (w.2.2 = None → accepted w = w.1).

(** What a write does to the stream: the live file is what was left of it by a rotation,
    and then the bytes that were accepted. *)
Lemma log_Write_extends e p rw (dir : gmap string LogFile) :
  let '(n, err, rw', dir') := log_Write e p rw dir in
  reported (p, (n, err)) ∧
  text_of (dir' !! rw_filePath rw) = text_of (left_live e p rw dir) +:+ accepted (p, (n, err)) ∧
  ((rw_open rw = true → is_Some (dir !! rw_filePath rw)) →
   rw_open rw' = true → is_Some (dir' !! rw_filePath rw)).
Proof.
  pose proof (log_Write_outcome e p rw dir) as Hw.
  assert (∀ err, err ≠ None → reported (p, (0, err)) ∧ accepted (p, (0, err)) = "") as Hnone.
  { intros err He. split; [split; [simpl; lia | by intros ?] | by destruct p]. }
  assert (∀ n err (dir' : gmap string LogFile), record_written e p (rw_filePath rw) (left_live e p rw dir) n err dir' →
    reported (p, (n, err)) ∧ text_of (dir' !! rw_filePath rw) =
      text_of (left_live e p rw dir) +:+ accepted (p, (n, err)) ∧ is_Some (dir' !! rw_filePath rw)) as Hsome.
  { intros n err dir' (-> & Herr & Hd). rewrite Hd. unfold reported, accepted. cbn [fst snd]. rewrite Nat2Z.id.
    split_and!; [lia | lia | | done | by eexists]. intros He%Herr. by rewrite stake_all by lia. }
  assert (∀ x, x +:+ "" = x) as Hnil by apply string_app_nil_r.
  destruct (log_Write e p rw dir) as [[[n err] rw'] dir']. destruct Hw as (_ & _ & Hout).
  destruct (write_rotates p rw) eqn:Hr; [destruct (fe_open e)|].
  - destruct Hout as (Hw & _). destruct (Hsome _ _ _ Hw) as (? & ? & ?). by split_and!.
  - destruct Hout as (-> & -> & Ho & _ & Hd). destruct (Hnone (Some ErrOpen)) as [? ->]; [done |].
    rewrite Hd, Hnil. split_and!; [done | done | congruence].
  - destruct Hout as (-> & -> & Ho & _ & Hd). destruct (Hnone (Some ErrStat)) as [? ->]; [done |].
    rewrite Hd, Hnil. split_and!; [done | by destruct (left_live e p rw dir) | congruence].
  - destruct Hout as (Ho & _ & Hout). destruct (rw_open rw).
    + destruct (Hsome _ _ _ Hout) as (? & ? & ?). by split_and!.
    + destruct Hout as (-> & -> & ->). destruct (Hnone (Some ErrClosed)) as [? ->]; [done |].
      rewrite Hnil. split_and!; [done | | congruence].
      unfold left_live, put_aside. by rewrite Hr.
Qed.

Lemma aside_text e p rw (dir : gmap string LogFile) :
  text_of (dir !! rw_filePath rw) = text_of (put_aside e p rw dir) +:+ text_of (left_live e p rw dir).
Proof.
  unfold left_live, put_aside. destruct (_ && _); [|done].
  destruct (dir !! rw_filePath rw) as [f|]; [|done]. by rewrite string_app_nil_r.
Qed.

(** ** The protocol *)

Section protocol.
Context (rw0 : RotatingWriter) (dir0 : gmap string LogFile).
Let path := rw_filePath rw0.

Definition backup_name (c : Civil) : string := rotatedName path c.

(** The files beside the live one if no cleanup removes any: those that were there at
    first, then those the rotations put aside; one of the same name replaces another. *)
Definition set_aside (l : list (Civil * LogFile)) : gmap string LogFile :=
  foldl (λ d x, <[backup_name x.1 := x.2]> d) dir0 l.

Lemma set_aside_snoc l x : set_aside (l ++ [x]) = <[backup_name x.1 := x.2]> (set_aside l).
Proof. unfold set_aside. by rewrite foldl_app. Qed.

Lemma set_aside_elem l name f :
  set_aside l !! name = Some f → dir0 !! name = Some f ∨ ∃ c, name = backup_name c ∧ (c, f) ∈ l.
Proof.
  induction l as [|[c g] l IH] using rev_ind; [by left |]. rewrite set_aside_snoc. simpl.
  intros [[<- <-]|[_ Hf]]%lookup_insert_Some.
  - right. exists c. split; [done |]. apply elem_of_app. right. by left.
  - destruct (IH Hf) as [?|(c' & -> & Hin)]; [by left | right]. exists c'. split; [done |].
    apply elem_of_app. by left.
Qed.

(** The last file of a name is the one that counts. *)
Lemma set_aside_first l name : name ∉ backup_name <$> l.*1 → set_aside l !! name = dir0 !! name.
Proof.
  induction l as [|[c g] l IH] using rev_ind; [done |].
  rewrite fmap_app, fmap_app, not_elem_of_app, set_aside_snoc. simpl. intros [Hl Hc].
  rewrite lookup_insert_ne; [by apply IH |]. intros <-. apply Hc. by left.
Qed.

Lemma set_aside_last l1 c f l2 :
  backup_name c ∉ backup_name <$> l2.*1 → set_aside (l1 ++ (c, f) :: l2) !! backup_name c = Some f.
Proof.
  induction l2 as [|[c' g] l2 IH] using rev_ind; [rewrite set_aside_snoc; simpl; by rewrite lookup_insert_eq |].
  rewrite app_comm_cons, app_assoc, set_aside_snoc, fmap_app, fmap_app, not_elem_of_app. simpl.
  intros [Hl Hc]. rewrite lookup_insert_ne; [by apply IH |]. intros Heq. apply Hc. rewrite Heq. by left.
Qed.

(** A backup: one that was there at first, or a rotation's. *)
Definition backup_of (s : LogShared) (name : string) (f : LogFile) : Prop :=
  is_backup rw0 name = true ∧
  (dir0 !! name = Some f ∨ ∃ c, name = backup_name c ∧ (c, f) ∈ ls_rotated s).

Definition justified (s : LogShared) (name : string) (why : Why) : Prop :=
  match why with
  | Excess later =>
      rw_maxBackups rw0 ≤ Z.of_nat (length later) ∧
      (∀ b, b ∈ later → String.le name b ∧ b ≠ name ∧ ∃ f, backup_of s b f)
  | TooOld mtime cutoff => mtime < cutoff ∧ ∃ f, backup_of s name f ∧ lf_mtime f = mtime
  end.

(** What a cleanup has seen: the backups it listed, and the times it asked for. *)
Record LogGhost := mkLogGhost { lg_listed : list string; lg_times : list (string * Time) }.

Definition nothing_seen : LogGhost := mkLogGhost [] [].

Record seen_ok (s : LogShared) (g : LogGhost) : Prop := {
  so_sorted : StronglySorted String.le (lg_listed g) ∧ NoDup (lg_listed g);
  so_listed : Forall (λ b, ∃ f, backup_of s b f) (lg_listed g);
  so_times : Forall (λ bt, ∃ f, backup_of s bt.1 f ∧ lf_mtime f = bt.2) (lg_times g)
}.

Definition log_allowed (X : Set) (t : nat) (g : LogGhost) (a : LogAction X) : Prop :=
  match a with
    | ListBackups => g = nothing_seen
  | StatFile name => name ∈ lg_listed g
  | RemoveFile name _ why =>
      name ∈ lg_listed g ∧
      match why with
      | Excess later =>
          rw_maxBackups rw0 ≤ Z.of_nat (length later) ∧ ∃ l, lg_listed g = l ++ name :: later
      | TooOld mtime cutoff => mtime < cutoff ∧ (name, mtime) ∈ lg_times g
      end
  | IndexEmpty => False
  | _ => True
  end.

Definition log_next (X : Set) (g : LogGhost) (a : LogAction X) : X → LogGhost :=
  match a in LogAction X return X → LogGhost with
  | ListBackups => λ l, mkLogGhost l []
  | StatFile name => λ m, mkLogGhost (lg_listed g) (lg_times g ++ (pair name <$> option_list m))
  | _ => λ _, g
  end.

(** The bytes accepted and what the file held at first are in the rotated files, in order,
    and then in the live one; the directory has the files set aside, but for those that
    were removed. *)
Record log_ok (s : LogShared) : Prop := {
  lo_settings : rw_filePath (ls_rw s) = path ∧ rw_maxBackups (ls_rw s) = rw_maxBackups rw0;
  lo_open : rw_open (ls_rw s) = true → is_Some (ls_dir s !! path);
  lo_stream : join (lf_content <$> (ls_rotated s).*2) +:+ text_of (ls_dir s !! path) =
    text_of (dir0 !! path) +:+ join (accepted <$> ls_writes s);
  lo_writes : Forall reported (ls_writes s);
  lo_kept name f : name ≠ path → set_aside (ls_rotated s) !! name = Some f →
    ls_dir s !! name = Some f ∨ ∃ why, (name, f, why) ∈ ls_removed s;
  lo_only name f : name ≠ path → ls_dir s !! name = Some f →
    set_aside (ls_rotated s) !! name = Some f;
  lo_removed name f why : (name, f, why) ∈ ls_removed s →
    backup_of s name f ∧ justified s name why
}.

(** What is known of backups stays so when there are more of them. *)
Definition more_backups (s s' : LogShared) : Prop := ∀ x, x ∈ ls_rotated s → x ∈ ls_rotated s'.

Lemma backup_of_more s s' name f : more_backups s s' → backup_of s name f → backup_of s' name f.
Proof.
  intros Hm [Hb [Hf|(c & Hc & Hin)]]; (split; [done |]); [by left | right].
  exists c. split; [done | by apply Hm].
Qed.

Lemma justified_more s s' name why : more_backups s s' → justified s name why → justified s' name why.
Proof.
  intros Hm. destruct why as [later|m c]; simpl.
  - intros [Hle Hall]. split; [done |]. intros b Hb. destruct (Hall b Hb) as (H1 & H2 & f & Hf).
    split_and!; [done.. |]. exists f. by apply (backup_of_more s).
  - intros [Hlt (f & Hf & Hm')]. split; [done |]. exists f. split; [by apply (backup_of_more s) | done].
Qed.

Lemma seen_ok_more s s' g : more_backups s s' → seen_ok s g → seen_ok s' g.
Proof.
  intros Hm [Hs Hl Ht]. split; [done |..]; (eapply Forall_impl; [eassumption |]); simpl.
  - intros b [f Hf]. exists f. by apply (backup_of_more s).
  - intros b [f [Hf Hm']]. exists f. split; [by apply (backup_of_more s) | done].
Qed.

Lemma log_ok_write t e p s :
  log_ok s → ∃ x s', perform t (WriteRecord e p) s = Some (x, s') ∧ more_backups s s' ∧ log_ok s'.
Proof.
  intros [[Hpath Hbak] Hopen Hstream Hw Hk Ho Hr]. cbn [perform perform_log].
  pose proof (log_Write_outcome e p (ls_rw s) (ls_dir s)) as Hout.
  pose proof (log_Write_extends e p (ls_rw s) (ls_dir s)) as Hext.
  pose proof (aside_text e p (ls_rw s) (ls_dir s)) as Htext.
  destruct (log_Write e p (ls_rw s) (ls_dir s)) as [[[n err] rw'] dir'].
  destruct Hout as (Hrw & Hothers & _). destruct Hext as (Hrep & Hlive & Hopen').
  rewrite Hpath in Hlive, Hopen', Htext. unfold others_after in Hothers. rewrite Hpath in Hothers.
  set (pa := put_aside e p (ls_rw s) (ls_dir s)) in *.
  set (s' := mkLogShared _ _ _ _ _). eexists _, s'. split; [done |].
  assert (more_backups s s') as Hm by (intros x Hx; apply elem_of_app; by left).
  split; [exact Hm |].
  assert (∀ name, name ≠ path → dir' !! name = ls_dir s !! name ∧
      set_aside (ls_rotated s') !! name = set_aside (ls_rotated s) !! name ∨
    ∃ f, dir' !! name = Some f ∧ set_aside (ls_rotated s') !! name = Some f) as Hnames.
  { intros name Hn. rewrite (Hothers name Hn). subst s'. cbn [ls_rotated].
    destruct pa as [f|]; [|left; by rewrite app_nil_r].
    change (_ <$> option_list (Some f)) with [(fe_civil e, f)]. rewrite set_aside_snoc. cbn [fst snd]. fold (backup_name (fe_civil e)).
    case_decide as Hd; [right; exists f; by rewrite Hd, lookup_insert_eq | left; by rewrite lookup_insert_ne]. }
  split.
  - cbn [ls_rw s']. rewrite Hrw. by split.
  - intros Hop. by apply Hopen'.
  - subst s'. cbn [ls_rotated ls_dir ls_writes]. rewrite Hlive, (fmap_app accepted). cbn [fmap list_fmap].
    assert (join (lf_content <$> (ls_rotated s ++ (pair (fe_civil e) <$> option_list pa)).*2) =
      join (lf_content <$> (ls_rotated s).*2) +:+ text_of pa) as ->.
    { destruct pa as [f|]; [|by rewrite app_nil_r, string_app_nil_r].
      change (_ <$> option_list (Some f)) with [(fe_civil e, f)].
      rewrite !fmap_app. cbn [fmap list_fmap snd]. by rewrite join_snoc. }
    rewrite join_snoc, !string_app_assoc. f_equal. by rewrite <-string_app_assoc, <-Htext.
  - apply Forall_app. split; [done | by apply Forall_singleton].
  - intros name f Hn. destruct (Hnames name Hn) as [[Hd ->]|(g & Hd & ->)]; cbn [ls_dir s' ls_removed]; rewrite Hd.
    + by apply Hk.
    + intros [= ->]. by left.
  - intros name f Hn. cbn [ls_dir s']. destruct (Hnames name Hn) as [[-> ->]|(g & -> & ->)]; [by apply Ho | done].
  - intros name f why Hin. destruct (Hr name f why Hin) as [Hb Hj].
    split; [by apply (backup_of_more s) | by apply (justified_more s)].
Qed.

Lemma is_backup_path rw name : rw_filePath rw = path → is_backup rw name = is_backup rw0 name.
Proof. unfold is_backup. by intros ->. Qed.

Lemma backup_ne_path name : is_backup rw0 name = true → name ≠ path.
Proof. intros Hb ->. unfold is_backup in Hb. by rewrite bool_decide_eq_true_2, andb_false_r in Hb. Qed.

(** A file that looks like a backup is one. *)
Lemma backup_found s name f :
  log_ok s → is_backup rw0 name = true → ls_dir s !! name = Some f → backup_of s name f.
Proof.
  intros Hs Hb Hf. split; [done |]. apply set_aside_elem, (lo_only s Hs); [by apply backup_ne_path | done].
Qed.

Lemma seen_ok_list s : log_ok s → seen_ok s (mkLogGhost (backups (ls_rw s) (ls_dir s)) []).
Proof.
  intros Hs. split; simpl.
  - split; [apply StronglySorted_merge_sort; apply _ | apply NoDup_backups].
  - apply Forall_forall. intros b [Hb [f Hf]]%elem_of_backups.
    rewrite is_backup_path in Hb by apply Hs. exists f. by apply backup_found.
  - constructor.
Qed.

Lemma seen_ok_stat s g name :
  log_ok s → seen_ok s g → name ∈ lg_listed g →
  seen_ok s (log_next _ g (StatFile name) (lf_mtime <$> ls_dir s !! name)).
Proof.
  intros Hs [Hg1 Hg2 Hg3] Hn. split; simpl; [done.. |]. apply Forall_app. split; [done |].
  destruct (ls_dir s !! name) as [f|] eqn:Hf; [|constructor]. apply Forall_singleton. simpl.
  rewrite Forall_forall in Hg2. destruct (Hg2 name Hn) as (f' & Hb & _).
  exists f. split; [by apply backup_found | done].
Qed.

Lemma removal_justified s t g name ok why :
  seen_ok s g → log_allowed unit t g (RemoveFile name ok why) →
  is_backup rw0 name = true ∧ justified s name why.
Proof.
  intros [[Hsort Hnd] Hl Ht] [Hn Hw]. rewrite Forall_forall in Hl; rewrite Forall_forall in Ht.
  split; [by destruct (Hl name Hn) as (f & Hb & _) |].
  destruct why as [later|m c]; simpl.
  - destruct Hw as [Hle [l Heq]]. rewrite Heq in *. split; [done |]. intros b Hb.
    assert (b ∈ l ++ name :: later) as Hin by (apply elem_of_app; right; by right).
    split_and!; [| | by apply Hl].
    + eapply (StronglySorted_app_1_elem_of _ (l ++ [name]) later); [by rewrite <-app_assoc | | done].
      apply elem_of_app. right. by left.
    + intros ->. apply NoDup_app in Hnd as (_ & _ & Hnd). by apply NoDup_cons in Hnd as [? _].
  - destruct Hw as [Hlt Hin]. split; [done |]. by apply (Ht (name, m)).
Qed.

Lemma log_ok_remove t s g name ok why :
  log_ok s → seen_ok s g → log_allowed unit t g (RemoveFile name ok why) →
  ∃ s', perform t (RemoveFile name ok why) s = Some (tt, s') ∧ log_ok s' ∧ ls_rotated s' = ls_rotated s.
Proof.
  intros Hs Hg Ha. eexists. split; [done |]. destruct (removal_justified s t g name ok why Hg Ha) as [Hb Hj].
  destruct ok; [|done]. destruct (ls_dir s !! name) as [f|] eqn:Hf; [|done]. split; [|done].
  pose proof (backup_ne_path name Hb) as Hne. pose proof (backup_found s name f Hs Hb Hf) as Hbf.
  destruct Hs as [Hset Hopen Hstream Hw Hk Ho Hr]. split; simpl; try done.
  - intros Hop. by rewrite lookup_delete_ne by done; apply Hopen.
  - by rewrite lookup_delete_ne.
  - intros b h Hb' Hh. destruct (Hk b h Hb' Hh) as [Hd|[w Hin]].
    + destruct (decide (b = name)) as [->|Hbn]; [|left; by rewrite lookup_delete_ne].
      right. exists why. assert (f = h) as -> by congruence. apply elem_of_app. right. by left.
    + right. exists w. apply elem_of_app. by left.
  - intros b h Hb' [_ Hh]%lookup_delete_Some. by apply Ho.
  - intros b h w [Hin|[= -> -> ->]%list_elem_of_singleton]%elem_of_app; [by apply (Hr b h w) | by split].
Qed.

Definition log_inv (s : LogShared) (gs : gmap nat LogGhost) : Prop :=
  log_ok s ∧ map_Forall (λ _, seen_ok s) gs.

Lemma log_inv_act (X : Set) t (a : LogAction X) s gs g :
  log_inv s gs → gs !! t = Some g → log_allowed X t g a →
  ∃ x s', perform t a s = Some (x, s') ∧ log_inv s' (<[t := log_next X g a x]> gs).
Proof.
  intros [Hs Hgs] Ht Ha. pose proof (Hgs t g Ht) as Hg.
  assert (∀ s' x, log_ok s' → more_backups s s' → (seen_ok s' g → seen_ok s' (log_next X g a x)) →
    log_inv s' (<[t := log_next X g a x]> gs)) as Hnext.
  { intros s' x Hs' Hm Hg'. split; [done |]. apply map_Forall_insert_2.
    - by apply Hg', (seen_ok_more s).
    - intros u h Hu. by apply (seen_ok_more s), (Hgs u h). }
  destruct a as [e p| | |name|name ok why|]; [.. | done].
  - destruct (log_ok_write t e p s Hs) as (x1 & s1 & Hx & Hm & Hs'). exists x1, s1.
    split; [done | by apply Hnext].
  - eexists _, _. split; [done |]. apply Hnext; [|by intros x | done]. by destruct Hs.
  - eexists _, _. split; [done |]. apply Hnext; [done | by intros x |]. intros _. by apply seen_ok_list.
  - eexists _, _. split; [done |]. apply Hnext; [done | by intros x |]. intros _. by apply seen_ok_stat.
  - destruct (log_ok_remove t s g name ok why Hs Hg Ha) as (s1 & Hx & Hs' & Hrot).
    exists tt, s1. split; [done |]. apply Hnext; [done | | done]. intros x. by rewrite Hrot.
Qed.

Lemma log_inv_start t s gs g :
  log_inv s gs → gs !! t = None → g = nothing_seen → log_inv s (<[t := g]> gs).
Proof.
  intros [Hs Hgs] _ ->. split; [done |]. apply map_Forall_insert_2; [|done].
  split; [split; constructor | constructor..].
Qed.

#[export] Instance log_protocol : Protocol LogAction LogShared LogGhost := {|
  pr_allowed := log_allowed; pr_next := log_next;
  pr_idle g := g = nothing_seen; pr_done _ := True; pr_inv := log_inv;
  pr_inv_act := log_inv_act; pr_inv_start := log_inv_start
|}.

(** ** The programs keep to it *)

Lemma follows_remove_excess t e g l0 l :
  0 ≤ rw_maxBackups rw0 → lg_listed g = l0 ++ l →
  follows t (λ l' g', g' = g ∧ ∀ b, b ∈ l' → b ∈ lg_listed g) g (remove_excess_p e (rw_maxBackups rw0) l).
Proof.
  intros Hmax. revert l0. induction l as [|n l IH]; intros l0 Hl; cbn [remove_excess_p].
  - rewrite decide_False by lia. split; [done |]. by intros b ?%elem_of_nil.
  - assert (n ∈ lg_listed g) as Hn by (rewrite Hl; apply elem_of_app; right; by left). case_decide as Hlt.
    + split; [split; [done |]; split; [simpl in Hlt; lia | by exists l0] |].
      intros []. apply (IH (l0 ++ [n])). by rewrite <-app_assoc.
    + split; [done |]. intros b Hb. rewrite Hl. apply elem_of_app. by right.
Qed.

Lemma follows_remove_aged t e g name :
  name ∈ lg_listed g →
  follows t (λ _ g', lg_listed g' = lg_listed g) g (remove_aged_p e name).
Proof.
  intros Hn. split; [done |]. intros [m|]; [|done]. cbn.
  destruct (ce_stats e name && bool_decide (m < ce_cutoff e)) eqn:Hc; [|done].
  apply andb_true_iff in Hc as [_ Hc%bool_decide_eq_true].
  split; [split; [done |]; split; [done |]; simpl; apply elem_of_app; right; by left | done].
Qed.

Lemma follows_cleanup t e :
  0 ≤ rw_maxBackups rw0 → follows t finishes nothing_seen (cleanup_p e (rw_maxBackups rw0)).
Proof.
  intros Hmax. unfold cleanup_p. destruct (negb (ce_reads e)); [done |]. split; [done |]. intros l. cbn.
  apply follows_bind. eapply follows_mono; [|by apply (follows_remove_excess t e _ [])].
  intros l' g [-> Hl']. cbn in Hl'.
  assert (∀ g l', (∀ b, b ∈ l' → b ∈ lg_listed g) → follows t finishes g (each (remove_aged_p e) l')) as Hall.
  { clear. intros g l'. revert g. induction l' as [|n l' IH]; intros g Hin; [done |].
    apply follows_bind. eapply follows_mono; [|apply follows_remove_aged, Hin; by left].
    intros [] g' Hg'. apply IH. intros b Hb. rewrite Hg'. apply Hin. by right. }
  by apply Hall.
Qed.
End protocol.
(** ** Everything that happens to the log *)

Abbreviation LogPool := (Pool (Action := LogAction) (Sh := LogShared) unit).

Section pool.
Context (rw0 : RotatingWriter) (dir0 : gmap string LogFile).

(** Writes, closing, and cleanups. *)
Inductive log_started : nat → Prog LogAction unit → Prop :=
| started_write t e p : log_started t (background (Write_p e p))
| started_close t : log_started t Close_p
| started_cleanup t e : log_started t (cleanup_p e (rw_maxBackups rw0)).

#[local] Instance pool_log_protocol : Protocol LogAction LogShared LogGhost := log_protocol rw0 dir0.

(** With a negative [max_backups] a cleanup panics. *)
Hypothesis backups_kept : 0 ≤ rw_maxBackups rw0.

Definition log_pool : LogPool := mkPool (mkLogShared rw0 dir0 [] [] []) ∅.

Lemma log_started_follows t p :
  log_started t p → ∃ g, pr_idle g ∧ follows t finishes g p.
Proof.
  intros Hp. exists nothing_seen. split; [done |]. destruct Hp as [t e p|t|t e]; [by split | by split |].
  by apply (follows_cleanup rw0 dir0).
Qed.

(** An open file is in the directory, under its name. *)
Hypothesis opened : rw_open rw0 = true → is_Some (dir0 !! rw_filePath rw0).

Lemma log_pool_ok pl : rtc (pool_step log_started) log_pool pl → pool_ok pl.
Proof.
  apply (pool_ok_steps log_started log_started_follows). exists ∅.
  split; [|by split]. split; [|apply map_Forall_empty]. split; simpl.
  - done.
  - exact opened.
  - by rewrite string_app_nil_r.
  - constructor.
  - intros name f _ Hf. by left.
  - by intros name f _ Hf.
  - by intros ??? ?%elem_of_nil.
Qed.

(** C23. However writes, closing the file and cleanups interleave, whatever calls on the
    file system fail and whenever rotations happen: a goroutine that has not returned can
    go on, and all of them end.  Every [Write] says how many bytes were taken of its
    record, without an error all of them; and what the file held at first and those
    bytes, in the order of the [Write]s, are exactly the files put aside in the order of
    the rotations and then the live file: nothing is doubled or torn, or lost on the way
    to them.  An open writer has its file in the directory.  A file put aside is in the
    directory as it was, unless a cleanup removed it or a later rotation had the same
    name -- that is, the same second -- and replaced it; the same holds for the files
    there before, and there are no others.  A cleanup removes only backups, one of a
    listing in which at least [maxBackups] were later by name, or one it found last
    modified before the cutoff.  ([max_backups] is not to be negative: a cleanup would
    panic.) *)
Theorem log_interleavings (pl : LogPool) :
  rtc (pool_step log_started) log_pool pl →
  let s := pl_shared pl in
  let path := rw_filePath rw0 in
  let name_of := rotatedName path in
  let kept name f := ls_dir s !! name = Some f ∨ ∃ why, (name, f, why) ∈ ls_removed s in
  (∀ t p, pl_threads pl !! t = Some p → returned p = false →
     ∃ pl' p', act_step pl pl' ∧ pl_threads pl' = <[t := p']> (pl_threads pl)) ∧
  sn act_step pl ∧
  (∀ p n err, (p, (n, err)) ∈ ls_writes s → 0 ≤ n ≤ Z.of_nat (len p) ∧
     (err = None → stake (Z.to_nat n) p = p)) ∧
  join (lf_content <$> (ls_rotated s).*2) +:+ text_of (ls_dir s !! path) =
    text_of (dir0 !! path) +:+ join ((λ w : LogWrite, stake (Z.to_nat w.2.1) w.1) <$> ls_writes s) ∧
  (rw_open (ls_rw s) = true → is_Some (ls_dir s !! path)) ∧
  (∀ l1 c f l2, ls_rotated s = l1 ++ (c, f) :: l2 →
     kept (name_of c) f ∨ ∃ c', c' ∈ l2.*1 ∧ name_of c' = name_of c) ∧
  (∀ name f, name ≠ path → dir0 !! name = Some f →
     kept name f ∨ ∃ c, c ∈ (ls_rotated s).*1 ∧ name_of c = name) ∧
  (∀ name f, name ≠ path → ls_dir s !! name = Some f →
     dir0 !! name = Some f ∨ ∃ c, name = name_of c ∧ (c, f) ∈ ls_rotated s) ∧
  (∀ name f why, (name, f, why) ∈ ls_removed s →
     backup_of rw0 dir0 s name f ∧ justified rw0 dir0 s name why).
Proof.
  intros Hr s path name_of kept. pose proof (log_pool_ok pl Hr) as Hok.
  pose proof Hok as (gs & [Hs _] & _). fold s in Hs.
  destruct Hs as [_ Hopen Hstream Hw Hk Ho Hrem]. rewrite Forall_forall in Hw.
  split; [|split; [apply pools_end | split_and!]].
  - intros t p Ht Hp. destruct (pool_ok_progress pl t p Hok Ht Hp) as (pl' & Hst & p' & Hp'). by exists pl', p'.
  - intros p n err Hin. exact (Hw (p, (n, err)) Hin).
  - exact Hstream.
  - exact Hopen.
  - intros l1 c f l2 Hl. destruct (decide (name_of c ∈ name_of <$> l2.*1)) as [Hin|Hn].
    + right. apply list_elem_of_fmap in Hin as (c' & Hc & Hin). by exists c'.
    + left. apply Hk; [apply rotatedName_ne |]. rewrite Hl. by apply (set_aside_last rw0).
  - intros name f Hn Hf. destruct (decide (name ∈ name_of <$> (ls_rotated s).*1)) as [Hin|Hni].
    + right. apply list_elem_of_fmap in Hin as (c' & Hc & Hin). by exists c'.
    + left. apply Hk; [done |]. by rewrite (set_aside_first rw0).
  - intros name f Hn Hf. by apply (set_aside_elem rw0), Ho.
  - exact Hrem.
Qed.
End pool.

(** ** Witness *)

Definition second_of (n : nat) : Civil := mkCivil 2024 3 7 9 5 (Z.of_nat n).

Definition small_log : RotatingWriter := mkRotatingWriter true "a.log" 3 4 1 30.

Definition one_file : gmap string LogFile := {["a.log" := mkLogFile "one" 0]}.

Definition write_at (n : nat) (now : Time) : FileEnv := mkFileEnv now (second_of n) true OpenOk 9.

(** A cleanup under way beside three writes, each of which rotates. *)
Definition busy_log : LogPool :=
  mkPool (mkLogShared small_log one_file [] [] [])
    (<[3%nat := cleanup_p (mkCleanupEnv true (λ _, true) (λ _, true) 2) 1]>
      (<[2%nat := background (Write_p (write_at 2 3) "four")]>
        (<[1%nat := background (Write_p (write_at 1 2) "three")]> (<[0%nat := background (Write_p (write_at 0 1) "two")]> ∅)))).

Lemma busy_log_reachable :
  rtc (pool_step (log_started small_log)) (log_pool small_log one_file) busy_log.
Proof.
  eapply rtc_l; [|eapply rtc_l; [|eapply rtc_l; [|apply rtc_once]]]; apply step_start;
    [done | | done | | done | | done |].
  1,2,3: apply started_write.
  apply (started_cleanup small_log).
Qed.

(** The cleanup lists two backups, a third is made, then it removes the first as one too
    many and the second as too old. *)
Lemma log_interleavings_witness :
  ∃ pl, schedule [0; 1; 3; 3; 2; 3; 3]%nat busy_log = Some pl ∧
    map_to_list (lf_content <$> ls_dir (pl_shared pl)) =
      [("a-20240307-090502.log", "three"); ("a.log", "four")] ∧
    join (lf_content <$> (ls_rotated (pl_shared pl)).*2) +:+ text_of (ls_dir (pl_shared pl) !! "a.log") =
      "onetwothreefour" ∧
    ∀ name f why, (name, f, why) ∈ ls_removed (pl_shared pl) →
      justified small_log one_file (pl_shared pl) name why.
Proof.
  assert ((λ pl, (map_to_list (lf_content <$> ls_dir (pl_shared pl)), ls_writes (pl_shared pl))) <$>
      schedule [0; 1; 3; 3; 2; 3; 3]%nat busy_log =
    Some ([("a-20240307-090502.log", "three"); ("a.log", "four")],
      [("two", (3, None)); ("three", (5, None)); ("four", (4, None))])) as Hs by by vm_compute.
  apply fmap_Some in Hs as (pl & Hpl & [= Hdir Hw]). exists pl. split; [done |]. split; [done |].
  pose proof (schedule_reaches _ _ _ _ _ busy_log_reachable Hpl) as Hr.
  destruct (log_interleavings small_log one_file ltac:(simpl; lia) ltac:(by eexists) pl Hr)
    as (_ & _ & _ & Hj & _ & _ & _ & _ & Hrem).
  split; [|intros name f why Hin; by apply (Hrem name f why)].
  change (rw_filePath small_log) with "a.log" in Hj. rewrite Hj, <-Hw. done.
Defined.

(** The names have the local time.  When clocks go back an hour, a later rotation has the
    earlier name, and a cleanup that keeps one backup removes the later one. *)
Example clock_set_back_removes_the_newest :
  let at_ h m := mkCivil 2024 10 27 h m 0 in
  let rw := mkRotatingWriter true "a.log" 3 4 1 30 in
  let '(_, _, rw, dir) := log_Write (mkFileEnv 10 (at_ 2 50) true OpenOk 9) "two" rw one_file in
  let '(_, _, rw, dir) := log_Write (mkFileEnv 20 (at_ 2 10) true OpenOk 9) "three" rw dir in
  (d ← log_cleanup (mkCleanupEnv true (λ _, true) (λ _, true) 0) rw dir;
   Some (map_to_list (lf_content <$> (d : gmap string LogFile)))) =
  Some [("a-20241027-025000.log", "one"); ("a.log", "three")].
Proof. by vm_compute. Qed.
