(* ===== verification/HealthConc.v ===== *)
(** * Readiness checks under way together (internal/health/health.go)

    The handler's cache is read under the read lock and written under the write lock;
    between the two a check probes every backend, for up to two seconds, and any number
    of checks may do so at once.  Every answer is that of one complete check, of the
    request's own or of the last one to have stored its result; but the last to store
    need not be the last to have looked.  The probes themselves are interleaved in
    [Concurrent]; here a check has their results, in the order in which they arrive. *)

From stdpp Require Import relations.
From S2P Require Import Prelude GoStrings FailureRateBreaker Config ConfigValidate Json Http Health Goroutine History.

Open Scope Z_scope.

(** ** Actions *)

Inductive HealthAction : Set → Type :=
| ReadCache (now : Time) : HealthAction (option (Z * string))
| StoreCache (status : Z) (body : string) (later : Time) : HealthAction unit
| Respond (ops : list WriterOp) : HealthAction unit.

Inductive HealthEvent :=
| Looked (now : Time) (found : option (Z * string))
| Stored (status : Z) (body : string) (later : Time)
| Responded (ops : list WriterOp).

(** The section under the read lock. *)
Definition read_cache (now : Time) (h : HealthHandler) : option (Z * string) :=
  match hh_cachedResult h with
  | Some body =>
      if decide (time_sub now (hh_cachedAt h) < readinessCacheTTL) then Some (hh_cachedStatus h, body)
      else None
  | None => None
  end.

(** The section under the write lock. *)
Definition store_cache (status : Z) (body : string) (later : Time) (h : HealthHandler) : HealthHandler :=
  h <| hh_cachedResult := Some body |> <| hh_cachedStatus := status |> <| hh_cachedAt := later |>.

Definition health_section (X : Set) (a : HealthAction X) (h : HealthHandler) : X * HealthHandler :=
  match a in HealthAction X return X * HealthHandler with
  | ReadCache now => (read_cache now h, h)
  | StoreCache status body later => (tt, store_cache status body later h)
  | Respond ops => (tt, h)
  end.

Definition health_event (X : Set) (a : HealthAction X) : X → option HealthEvent :=
  match a in HealthAction X return X → option HealthEvent with
  | ReadCache now => λ x, Some (Looked now x)
  | StoreCache status body later => λ _, Some (Stored status body later)
  | Respond ops => λ _, Some (Responded ops)
  end.

Definition health_apply (h : HealthHandler) (e : HealthEvent) : HealthHandler :=
  match e with Stored status body later => store_cache status body later h | _ => h end.

Lemma health_section_event (X : Set) (a : HealthAction X) h :
  (health_section X a h).2 =
    match health_event X a (health_section X a h).1 with Some e => health_apply h e | None => h end.
Proof. by destruct a. Qed.

#[export] Instance health_recorded : Recorded HealthAction HealthHandler HealthEvent := {|
  section_of := health_section; event_of := health_event; apply_event := health_apply;
  section_event := health_section_event
|}.

Abbreviation HealthShared := (Journal HealthHandler HealthEvent).

(** ** The program *)

(** One request: the two readings of the clock, and the results of its probes. *)
Record CheckJob := mkCheckJob { cj_now : Time; cj_later : Time; cj_arrivals : list BackendResult }.

Definition check_status (arrivals : list BackendResult) : Z :=
  if (collect arrivals).2 then StatusServiceUnavailable else StatusOK.

Definition check_body (arrivals : list BackendResult) : string :=
  let '(results, down) := collect arrivals in readiness_body results down.

(** [h.readiness(w, r)] *)
Definition readiness_p (j : CheckJob) : Prog HealthAction unit :=
  found ← act (ReadCache (cj_now j));
  match found with
  | Some (status, body) => act (Respond (json_answer_ops status body))
  | None =>
      let status := check_status (cj_arrivals j) in
      let body := check_body (cj_arrivals j) in
      act (StoreCache status body (cj_later j)) ;;
      act (Respond (json_answer_ops status body))
  end.

(** Alone, a request is answered, and leaves the handler, as [readiness] says. *)
Lemma readiness_alone t j (s : HealthShared) :
  ∃ s' l, run t (readiness_p j) s = Some (tt, s') ∧
    jn_log s' = l ++ [(t, Responded (readiness (cj_now j) (cj_later j) (cj_arrivals j) (jn_state s)).1)] ∧
    jn_state s' = (readiness (cj_now j) (cj_later j) (cj_arrivals j) (jn_state s)).2.
Proof.
  unfold readiness_p, readiness, check_status, check_body, read_cache.
  rewrite run_bind, run_act. unfold perform, perform_recorded.
  cbn [section_of event_of health_recorded health_section health_event mbind option_bind]. unfold read_cache.
  destruct (hh_cachedResult (jn_state s)) as [body|]; [case_decide; [by eexists _, _|]|];
    destruct (collect (cj_arrivals j)) as [results down]; by eexists _, _.
Qed.

(** ** The protocol *)

(** The result stored last, and when. *)
Definition stored (te : nat * HealthEvent) : option (nat * Z * string * Time) :=
  match te.2 with Stored status body later => Some (te.1, status, body, later) | _ => None end.

Definition last_stored (l : list (nat * HealthEvent)) : option (nat * Z * string * Time) :=
  last (omap stored l).

(** What a request that looks at [now] is to find. *)
Definition fresh_at (now : Time) (l : list (nat * HealthEvent)) : option (Z * string) :=
  '(u, status, body, later) ← last_stored l;
  if decide (time_sub now later < readinessCacheTTL) then Some (status, body) else None.

Definition cache_of (l : list (nat * HealthEvent)) (h : HealthHandler) : Prop :=
  match last_stored l with
  | Some (u, status, body, later) =>
      hh_cachedResult h = Some body ∧ hh_cachedStatus h = status ∧ hh_cachedAt h = later
  | None => hh_cachedResult h = None
  end.

Lemma read_cache_fresh now l h : cache_of l h → read_cache now h = fresh_at now l.
Proof.
  unfold cache_of, read_cache, fresh_at. destruct (last_stored l) as [[[[u st] body] later]|]; simpl.
  - by intros (-> & -> & ->).
  - by intros ->.
Qed.

Lemma last_stored_snoc l te :
  last_stored (l ++ [te]) = match stored te with Some x => Some x | None => last_stored l end.
Proof.
  unfold last_stored. rewrite omap_app. cbn [omap list_omap].
  destruct (stored te); [by rewrite last_snoc | by rewrite app_nil_r].
Qed.

(** The cache is the result stored last. *)
Lemma cache_of_replay h0 l : hh_cachedResult h0 = None → cache_of l (replay h0 l).
Proof.
  intros Hh. induction l as [|[t e] l IH] using rev_ind; [done |].
  rewrite replay_snoc. unfold cache_of in *. rewrite last_stored_snoc. by destruct e.
Qed.

Section protocol.
Context (h0 : HealthHandler) (jobs : nat → CheckJob).
Hypothesis h0_empty : hh_cachedResult h0 = None.

Definition own_answer (t : nat) : list WriterOp :=
  json_answer_ops (check_status (cj_arrivals (jobs t))) (check_body (cj_arrivals (jobs t))).

(** What every event says of the history before it. *)
Definition answered_right (l : list (nat * HealthEvent)) (te : nat * HealthEvent) : Prop :=
  let '(t, e) := te in
  match e with
  | Looked now found => now = cj_now (jobs t) ∧ found = fresh_at now l
  | Stored status body later =>
      status = check_status (cj_arrivals (jobs t)) ∧ body = check_body (cj_arrivals (jobs t)) ∧
      later = cj_later (jobs t) ∧ (t, Looked (cj_now (jobs t)) None) ∈ l
  | Responded ops =>
      (∃ status body, (t, Looked (cj_now (jobs t)) (Some (status, body))) ∈ l ∧
         ops = json_answer_ops status body) ∨
      (ops = own_answer t ∧ ∃ later, (t, Stored (check_status (cj_arrivals (jobs t)))
         (check_body (cj_arrivals (jobs t))) later) ∈ l)
  end.

Definition health_allowed (X : Set) (t : nat) (own : list HealthEvent) (a : HealthAction X) : Prop :=
  match a with
  | ReadCache now => now = cj_now (jobs t)
  | StoreCache status body later =>
      status = check_status (cj_arrivals (jobs t)) ∧ body = check_body (cj_arrivals (jobs t)) ∧
      later = cj_later (jobs t) ∧ Looked (cj_now (jobs t)) None ∈ own
  | Respond ops =>
      (∃ status body, Looked (cj_now (jobs t)) (Some (status, body)) ∈ own ∧
         ops = json_answer_ops status body) ∨
      (ops = own_answer t ∧ ∃ later, Stored (check_status (cj_arrivals (jobs t)))
         (check_body (cj_arrivals (jobs t))) later ∈ own)
  end.

Definition check_knows (l : list (nat * HealthEvent)) (t : nat) (own : list HealthEvent) : Prop :=
  ∀ e, e ∈ own → (t, e) ∈ l.

Lemma health_may_truthful (X : Set) t (a : HealthAction X) l own :
  check_knows l t own → health_allowed X t own a →
  Forall (λ e, answered_right l (t, e)) (option_list (event_of a (section_of a (replay h0 l)).1)).
Proof.
  intros Hown Ha. destruct a as [now|status body later|ops]; cbn in *; apply List.Forall_cons; try done.
  - split; [done |]. by apply read_cache_fresh, cache_of_replay.
  - destruct Ha as (? & ? & ? & Hin). by split_and!; [..|apply Hown].
  - destruct Ha as [(st & b & Hin & Heq)|[Heq [later Hin]]]; [left; exists st, b | right; split; [done |]; exists later];
      by eauto.
Qed.

Lemma check_knows_own (X : Set) t (a : HealthAction X) l own :
  check_knows l t own → health_allowed X t own a →
  let es := option_list (event_of a (section_of a (replay h0 l)).1) in
  check_knows (l ++ (pair t <$> es)) t (own ++ es).
Proof.
  intros Hown _ es e [Hin|Hin]%elem_of_app; apply elem_of_app; [left; by apply Hown | right].
  apply list_elem_of_fmap. by exists e.
Qed.

Lemma check_knows_other l t u own es : u ≠ t → check_knows l u own → check_knows (l ++ (pair t <$> es)) u own.
Proof. intros _ Hown e He. apply elem_of_app. left. by apply Hown. Qed.

Lemma check_knows_start l t : done_by t l = [] → check_knows l t [].
Proof. by intros _ e ?%elem_of_nil. Qed.

#[export] Instance health_promises : Promises (Action := HealthAction) (Event := HealthEvent) h0 := {|
  may_do := λ X t own a, health_allowed X t own a; truthful := answered_right; knows := check_knows;
  may_do_truthful := health_may_truthful; knows_own := check_knows_own;
  knows_other := check_knows_other; knows_start := check_knows_start
|}.

#[local] Instance checks_protocol : Protocol HealthAction HealthShared (list HealthEvent) :=
  journal_protocol h0.

Lemma follows_readiness t : follows t finishes [] (readiness_p (jobs t)).
Proof.
  split; [done |]. intros [[status body]|].
  - split; [|done]. left. exists status, body. split; [by left | done].
  - split; [split_and!; [done.. | by left] |]. intros []. split; [|done]. right. split; [done |].
    eexists. right. by left.
Qed.
End protocol.

(** ** Everything that happens to the handler *)

Abbreviation HealthPool := (Pool (Action := HealthAction) (Sh := HealthShared) unit).

Section pool.
Context (routes : list RouteConfig) (jobs : nat → CheckJob).

Inductive health_start : nat → Prog HealthAction unit → Prop :=
| start_check t : health_start t (readiness_p (jobs t)).

Definition health_pool : HealthPool := mkPool (mkJournal (NewHealth routes) []) ∅.

#[local] Instance pool_promises : Promises (Action := HealthAction) (Event := HealthEvent) (NewHealth routes) :=
  health_promises (NewHealth routes) jobs eq_refl.

Lemma health_start_follows t p : health_start t p → follows t finishes [] p.
Proof. intros []. by apply follows_readiness. Qed.

Lemma last_stored_elem l u status body later :
  last_stored l = Some (u, status, body, later) → (u, Stored status body later) ∈ l.
Proof.
  intros Hl%last_Some_elem_of. apply list_elem_of_omap in Hl as ([v e] & Hin & He).
  destruct e; try done. by injection He as <- <- <- <-.
Qed.

(** C32. However requests for the readiness interleave: a goroutine that has not returned
    can go on, and all of them end.  An answer is always that of one complete check,
    status and body together: of the request's own check, which it makes only if it
    found no fresh result; or of the check that had stored its result last when the
    request looked, by its stamp less than five seconds before. *)
Theorem readiness_interleavings (pl : HealthPool) :
  rtc (pool_step health_start) health_pool pl →
  let s := pl_shared pl in
  (∀ t p, pl_threads pl !! t = Some p → returned p = false →
     ∃ pl' p', act_step pl pl' ∧ pl_threads pl' = <[t := p']> (pl_threads pl)) ∧
  sn act_step pl ∧
  (∀ l t ops l', jn_log s = l ++ (t, Responded ops) :: l' →
     ∃ u, ops = own_answer jobs u ∧
       ∃ found l1 l2, l = l1 ++ (t, Looked (cj_now (jobs t)) found) :: l2 ∧
         match found with
         | None => u = t ∧ fresh_at (cj_now (jobs t)) l1 = None
         | Some x =>
             last_stored l1 = Some (u, x.1, x.2, cj_later (jobs u)) ∧
             time_sub (cj_now (jobs t)) (cj_later (jobs u)) < readinessCacheTTL
         end).
Proof.
  intros Hr s.
  destruct (journal_truthful (NewHealth routes) health_start health_start_follows pl Hr) as (Hgo & Hend & _ & Hh).
  split; [done | split; [done |]].
  intros l t ops l' Hl.
  assert (∀ l1 te l2, l = l1 ++ te :: l2 → answered_right jobs l1 te) as Hbefore.
  { intros l1 te l2 ->. apply (Hh l1 te (l2 ++ (t, Responded ops) :: l')). etrans; [exact Hl |]. by rewrite <-app_assoc. }
  destruct (Hh l (t, Responded ops) l' Hl) as [(st & body & Hin & ->)|[-> [later Hin]]].
  - apply list_elem_of_split in Hin as (l1 & l2 & Heq).
    destruct (Hbefore _ _ _ Heq) as [_ Hf]. unfold fresh_at in Hf. symmetry in Hf.
    apply bind_Some in Hf as ([[[u st'] body'] later] & Hlast & Hf).
    destruct (decide _) as [Hlt|]; [|done]. injection Hf as -> ->.
    pose proof Hlast as Hst%last_stored_elem. apply list_elem_of_split in Hst as (l3 & l4 & Heq').
    rewrite Heq', <-app_assoc in Heq. destruct (Hbefore _ _ _ Heq) as (-> & -> & -> & _).
    exists u. split; [done |]. eexists _, l1, l2. rewrite Heq', <-app_assoc. split; [exact Heq |].
    by rewrite <-Heq'.
  - exists t. split; [done |]. apply list_elem_of_split in Hin as (l3 & l4 & Heq).
    destruct (Hbefore _ _ _ Heq) as (_ & _ & _ & Hin). apply list_elem_of_split in Hin as (l1 & l2 & Heq').
    exists None, l1, (l2 ++ (t, Stored (check_status (cj_arrivals (jobs t))) (check_body (cj_arrivals (jobs t))) later) :: l4).
    rewrite Heq, Heq', <-app_assoc. split; [done |]. split; [done |].
    assert (answered_right jobs l1 (t, Looked (cj_now (jobs t)) None)) as [_ Hf]; [|done].
    rewrite Heq', <-app_assoc in Heq. by eapply Hbefore.
Qed.
End pool.

(** ** Witness *)

Definition result_of (ok : bool) : BackendResult :=
  mkResult "/api" "http://users:3000" (if ok then "ok" else "unreachable") ok.

(** A slow check that finds the backend down, a quick one after it that finds it up, and a
    request some seconds later. *)
Definition three_checks (t : nat) : CheckJob :=
  match t with
  | O => mkCheckJob (10 * Second) (12 * Second) [result_of false]
  | 1%nat => mkCheckJob (11 * Second) (11 * Second) [result_of true]
  | _ => mkCheckJob (16 * Second) (16 * Second) [result_of true]
  end.

Definition checking : HealthPool :=
  mkPool (mkJournal (NewHealth [demo_route]) [])
    (<[2%nat := readiness_p (three_checks 2)]>
      (<[1%nat := readiness_p (three_checks 1)]> (<[0%nat := readiness_p (three_checks 0)]> ∅))).

Lemma checking_reachable : rtc (pool_step (health_start three_checks)) (health_pool [demo_route]) checking.
Proof.
  eapply rtc_l; [|eapply rtc_l; [|apply rtc_once]]; apply step_start; [done | | done | | done |];
    apply (start_check three_checks).
Qed.

Definition answers_of (pl : HealthPool) : list (nat * option Z) :=
  omap (λ '(t, e), match e with Responded ops => Some (t, answer_status ops) | _ => None end)
    (jn_log (pl_shared pl)).

(** The first check ends last: it replaces the newer result by its older one, and the third
    request is told for four more seconds that the gateway is not ready. *)
Lemma readiness_interleavings_witness :
  ∃ pl, schedule [0; 1; 1; 1; 0; 0; 2; 2]%nat checking = Some pl ∧
    answers_of pl = [(1%nat, Some 200); (0%nat, Some 503); (2%nat, Some 503)] ∧
    ∀ l t ops l', jn_log (pl_shared pl) = l ++ (t, Responded ops) :: l' →
      ∃ u, ops = own_answer three_checks u.
Proof.
  assert (answers_of <$> schedule [0; 1; 1; 1; 0; 0; 2; 2]%nat checking =
    Some [(1%nat, Some 200); (0%nat, Some 503); (2%nat, Some 503)]) as Hs by by vm_compute.
  apply fmap_Some in Hs as (pl & Hpl & Hs). exists pl. split; [done |]. split; [done |].
  pose proof (schedule_reaches _ _ _ _ _ checking_reachable Hpl) as Hr.
  destruct (readiness_interleavings [demo_route] three_checks pl Hr) as (_ & _ & Hall).
  intros l t ops l' Hl. destruct (Hall l t ops l' Hl) as (u & Hu & _). by exists u.
Defined.
