(* ===== verification/CertConc.v ===== *)
(** * Reloads of the certificate under way together (internal/tlsutil/certloader.go)

    [loadCert] reads the two files outside the lock and takes it only to store the
    result; [Reload] is exported, and a timer that has fired is not waited for by the
    next event, so loads may overlap with each other, with handshakes and with whoever
    writes the files.  A stored certificate is made of what the two files held while its
    load read them; but the last to be stored need not be the last to have been read. *)

From stdpp Require Import relations.
From S2P Require Import Prelude GoStrings Config CertLoader Goroutine History.

Section cert.
(** What a file holds, and a parsed pair; [tls.LoadX509KeyPair] reads the certificate,
    then the key, and gives both to [X509KeyPair]. *)
Context {File Cert : Set} (X509KeyPair : File → File → result Cert string).

(** ** Actions *)

(** The last two are those of whoever writes the files. *)
Inductive CertAction : Set → Type :=
| ReadCertFile : CertAction (result File string)
| ReadKeyFile : CertAction (result File string)
| StoreCert (cert : Cert) : CertAction unit
| ServeCert : CertAction (option Cert)
| PutCertFile (f : result File string) : CertAction unit
| PutKeyFile (f : result File string) : CertAction unit.

Inductive CertEvent :=
| SawCertFile (f : result File string)
| SawKeyFile (f : result File string)
| CertStored (cert : Cert)
| CertServed (x : option Cert)
| CertFilePut (f : result File string)
| KeyFilePut (f : result File string).

(** The loader and the disk. *)
Record CertWorld := mkCertWorld {
  cw_loader : CertLoader Cert; cw_certFile : result File string; cw_keyFile : result File string
}.

Definition cert_section (X : Set) (a : CertAction X) (w : CertWorld) : X * CertWorld :=
  match a in CertAction X return X * CertWorld with
  | ReadCertFile => (cw_certFile w, w)
  | ReadKeyFile => (cw_keyFile w, w)
  | StoreCert cert =>
      (tt, mkCertWorld (mkCertLoader (Some cert) (cl_stopped (cw_loader w))) (cw_certFile w) (cw_keyFile w))
  | ServeCert => (GetCertificate (cw_loader w), w)
  | PutCertFile f => (tt, mkCertWorld (cw_loader w) f (cw_keyFile w))
  | PutKeyFile f => (tt, mkCertWorld (cw_loader w) (cw_certFile w) f)
  end.

Definition cert_event (X : Set) (a : CertAction X) : X → option CertEvent :=
  match a in CertAction X return X → option CertEvent with
  | ReadCertFile => λ x, Some (SawCertFile x)
  | ReadKeyFile => λ x, Some (SawKeyFile x)
  | StoreCert cert => λ _, Some (CertStored cert)
  | ServeCert => λ x, Some (CertServed x)
  | PutCertFile f => λ _, Some (CertFilePut f)
  | PutKeyFile f => λ _, Some (KeyFilePut f)
  end.

Definition cert_apply (w : CertWorld) (e : CertEvent) : CertWorld :=
  match e with
  | CertStored cert => (cert_section unit (StoreCert cert) w).2
  | CertFilePut f => (cert_section unit (PutCertFile f) w).2
  | KeyFilePut f => (cert_section unit (PutKeyFile f) w).2
  | _ => w
  end.

Lemma cert_section_event (X : Set) (a : CertAction X) w :
  (cert_section X a w).2 =
    match cert_event X a (cert_section X a w).1 with Some e => cert_apply w e | None => w end.
Proof. by destruct a. Qed.

#[export] Instance cert_recorded : Recorded CertAction CertWorld CertEvent := {|
  section_of := cert_section; event_of := cert_event; apply_event := cert_apply;
  section_event := cert_section_event
|}.

(** ** Programs *)

(** [cl.loadCert()] *)
Definition loadCert_p : Prog CertAction (option string) :=
  c ← act ReadCertFile;
  match c with
  | Err e => mret (Some e)
  | Ok c =>
      k ← act ReadKeyFile;
      match k with
      | Err e => mret (Some e)
      | Ok k =>
          match X509KeyPair c k with
          | Err e => mret (Some e)
          | Ok cert => act (StoreCert cert) ;; mret None
          end
      end
  end.

Definition GetCertificate_p : Prog CertAction (option Cert) := act ServeCert.

(** [tls.LoadX509KeyPair] on the files as they are. *)
Definition load_files (w : CertWorld) : result Cert string :=
  match cw_certFile w, cw_keyFile w with
  | Err e, _ | Ok _, Err e => Err e
  | Ok c, Ok k => X509KeyPair c k
  end.

(** A load that nothing interrupts is [CertLoader.loadCert] on the files. *)
Lemma loadCert_alone t (s : Journal CertWorld CertEvent) now :
  let r := loadCert (λ _, load_files (jn_state s)) now (cw_loader (jn_state s)) in
  ∃ s', run t loadCert_p s = Some (r.1, s') ∧ cw_loader (jn_state s') = r.2.
Proof.
  destruct s as [[cl [c|e] [k|e']] l]; [|by eexists..].
  unfold loadCert_p, loadCert, load_files. cbn [jn_state cw_loader cw_certFile cw_keyFile].
  rewrite run_bind, run_act. unfold perform, perform_recorded. cbn.
  destruct (X509KeyPair c k) as [cert|e]; by eexists.
Qed.

(** ** What the history says *)

(** The last of the entries that [g] picks, [x0] if there is none. *)
Definition latest {A} (g : CertEvent → option A) (x0 : A) (l : list (nat * CertEvent)) : A :=
  default x0 (last (omap (g ∘ snd) l)).

Definition stored_cert (e : CertEvent) : option (option Cert) :=
  match e with CertStored cert => Some (Some cert) | _ => None end.

Definition put_cert_file (e : CertEvent) : option (result File string) :=
  match e with CertFilePut f => Some f | _ => None end.

Definition put_key_file (e : CertEvent) : option (result File string) :=
  match e with KeyFilePut f => Some f | _ => None end.

Lemma latest_snoc {A} (g : CertEvent → option A) x0 l te :
  latest g x0 (l ++ [te]) = match g te.2 with Some x => x | None => latest g x0 l end.
Proof.
  unfold latest. rewrite omap_app. cbn. destruct (g te.2); [by rewrite last_snoc | by rewrite app_nil_r].
Qed.

Lemma replay_latest w0 l :
  let w := replay w0 l in
  cl_cert (cw_loader w) = latest stored_cert (cl_cert (cw_loader w0)) l ∧
  cw_certFile w = latest put_cert_file (cw_certFile w0) l ∧
  cw_keyFile w = latest put_key_file (cw_keyFile w0) l.
Proof.
  induction l as [|[t e] l (IH1 & IH2 & IH3)] using rev_ind; [done |]. cbn zeta.
  rewrite replay_snoc, !latest_snoc. by destruct e; split_and!.
Qed.

Section protocol.
Context (w0 : CertWorld).

Definition read_pair (own : list CertEvent) (cert : Cert) : Prop :=
  ∃ c k, own = [SawCertFile (Ok c); SawKeyFile (Ok k)] ∧ X509KeyPair c k = Ok cert.

Definition cert_allowed (X : Set) (own : list CertEvent) (a : CertAction X) : Prop :=
  match a with StoreCert cert => read_pair own cert | _ => True end.

(** What every event says of the history before it. *)
Definition cert_truthful (l : list (nat * CertEvent)) (te : nat * CertEvent) : Prop :=
  match te.2 with
  | SawCertFile f => f = cw_certFile (replay w0 l)
  | SawKeyFile f => f = cw_keyFile (replay w0 l)
  | CertStored cert => read_pair (done_by te.1 l) cert
  | CertServed x => x = cl_cert (cw_loader (replay w0 l))
  | _ => True
  end.

Definition load_knows (l : list (nat * CertEvent)) (t : nat) (own : list CertEvent) : Prop :=
  own = done_by t l.

Lemma cert_may_truthful (X : Set) t (a : CertAction X) l own :
  load_knows l t own → cert_allowed X own a →
  Forall (λ e, cert_truthful l (t, e)) (option_list (event_of a (section_of a (replay w0 l)).1)).
Proof. intros -> Ha. destruct a; by apply List.Forall_cons. Qed.

Lemma load_knows_own (X : Set) t (a : CertAction X) l own :
  load_knows l t own → cert_allowed X own a →
  let es := option_list (event_of a (section_of a (replay w0 l)).1) in
  load_knows (l ++ (pair t <$> es)) t (own ++ es).
Proof. unfold load_knows. intros Hown _. by rewrite done_by_app, done_by_own, Hown. Qed.

Lemma load_knows_other l t u own es : u ≠ t → load_knows l u own → load_knows (l ++ (pair t <$> es)) u own.
Proof. unfold load_knows. intros Hne ->. by rewrite done_by_app, done_by_other, app_nil_r. Qed.

Lemma load_knows_start l t : done_by t l = [] → load_knows l t [].
Proof. done. Qed.

#[export] Instance cert_promises : Promises (Action := CertAction) (Event := CertEvent) w0 := {|
  may_do := λ X _ own a, cert_allowed X own a; truthful := cert_truthful; knows := load_knows;
  may_do_truthful := cert_may_truthful; knows_own := load_knows_own;
  knows_other := load_knows_other; knows_start := load_knows_start
|}.

#[local] Instance loads_protocol : Protocol CertAction (Journal CertWorld CertEvent) (list CertEvent) :=
  journal_protocol w0.

Lemma follows_loadCert t : follows t finishes [] (background loadCert_p).
Proof.
  unfold background, loadCert_p. split; [done |]. intros [c|e]; [|done].
  split; [done |]. intros [k|e]; [|done]. cbn. destruct (X509KeyPair c k) as [cert|e] eqn:Hp; [|done].
  split; [by exists c, k | done].
Qed.

(** ** Everything that happens to the loader and its files *)

Inductive cert_start : nat → Prog CertAction unit → Prop :=
| start_load t : cert_start t (background loadCert_p)
| start_handshake t : cert_start t (background GetCertificate_p)
| start_put_cert t f : cert_start t (act (PutCertFile f))
| start_put_key t f : cert_start t (act (PutKeyFile f)).

Lemma cert_start_follows t p : cert_start t p → follows t finishes [] p.
Proof. intros []; [apply follows_loadCert | done..]. Qed.

(** C22. However reloads, handshakes and changes of the files interleave: a goroutine
    that has not returned can go on, and all of them end.  A handshake is served the
    certificate stored last, the first one if there is none.  Every certificate stored
    is a valid pair of a certificate and a key that the files held, the certificate
    before the key, while its load was under way: a pair that does not match is never
    served.  Of loads that overlap, the one to store last need not be the one that read
    last ([older_certificate_is_stored_last]). *)
Theorem cert_interleavings (pl : Pool (Action := CertAction) (Sh := Journal CertWorld CertEvent) unit) :
  rtc (pool_step cert_start) (mkPool (mkJournal w0 []) ∅) pl →
  let s := pl_shared pl in
  (∀ t p, pl_threads pl !! t = Some p → returned p = false →
     ∃ pl' p', act_step pl pl' ∧ pl_threads pl' = <[t := p']> (pl_threads pl)) ∧
  sn act_step pl ∧
  (∀ l t x l', jn_log s = l ++ (t, CertServed x) :: l' →
     x = latest stored_cert (cl_cert (cw_loader w0)) l) ∧
  (∀ l t cert l', jn_log s = l ++ (t, CertStored cert) :: l' →
     ∃ c k l1 l2 l3, X509KeyPair c k = Ok cert ∧
       l = l1 ++ (t, SawCertFile (Ok c)) :: l2 ++ (t, SawKeyFile (Ok k)) :: l3 ∧
       latest put_cert_file (cw_certFile w0) l1 = Ok c ∧
       latest put_key_file (cw_keyFile w0) (l1 ++ (t, SawCertFile (Ok c)) :: l2) = Ok k).
Proof.
  intros Hr s. destruct (journal_truthful w0 cert_start cert_start_follows pl Hr) as (Hgo & Hend & _ & Hh).
  fold s in Hh. split; [done | split; [done | split]].
  - intros l t x l' Hl. rewrite (Hh _ _ _ Hl). apply replay_latest.
  - intros l t cert l' Hl. destruct (Hh _ _ _ Hl) as (c & k & Hdone & Hp). cbn [fst] in Hdone.
    apply done_by_cons in Hdone as (l1 & l2' & -> & Hdone).
    apply done_by_cons in Hdone as (l2 & l3 & -> & _).
    exists c, k, l1, l2, l3. split_and!; [done | done | |].
    + rewrite <-(proj1 (proj2 (replay_latest w0 l1))). symmetry.
      eapply (Hh l1 (t, SawCertFile (Ok c))). rewrite Hl, <-app_assoc. done.
    + rewrite <-(proj2 (proj2 (replay_latest w0 _))). symmetry.
      eapply (Hh _ (t, SawKeyFile (Ok k))). rewrite Hl, <-!app_assoc. cbn. by rewrite <-app_assoc.
Qed.
End protocol.
End cert.

(** ** Two reloads that overlap *)

(** Pairs match if they are equal. *)
Definition matching (c k : nat) : result nat string := if decide (c = k) then Ok c else Err "no match".

Definition rotating : Pool (Action := CertAction)
    (Sh := Journal (CertWorld (File := nat) (Cert := nat)) (CertEvent (File := nat) (Cert := nat))) unit :=
  mkPool (mkJournal (mkCertWorld (mkCertLoader (Some 0%nat) false) (Ok 1%nat) (Ok 1%nat)) [])
    (<[4%nat := background GetCertificate_p]>
      (<[3%nat := background (loadCert_p matching)]>
        (<[2%nat := act (PutKeyFile (Ok 2%nat))]>
          (<[1%nat := act (PutCertFile (Ok 2%nat))]>
            (<[0%nat := background (loadCert_p matching)]> ∅))))).

Lemma rotating_reachable :
  rtc (pool_step (cert_start matching)) (mkPool (pl_shared rotating) ∅) rotating.
Proof.
  eapply rtc_l; [|eapply rtc_l; [|eapply rtc_l; [|eapply rtc_l; [|apply rtc_once]]]]; apply step_start;
    [done | | done | | done | | done | | done |]; constructor.
Qed.

(** The certificates stored, the certificate file, and what happened last. *)
Definition certs_of (pl : Pool (Action := CertAction (File := nat) (Cert := nat))
    (Sh := Journal (CertWorld (File := nat) (Cert := nat)) (CertEvent (File := nat) (Cert := nat))) unit) :=
  (omap (λ e, match e.2 with CertStored c => Some c | _ => None end) (jn_log (pl_shared pl)),
   cw_certFile (jn_state (pl_shared pl)), last (jn_log (pl_shared pl)).*2).

(** Load 0 reads the files, which are then replaced; load 3 reads and stores the new pair;
    then load 0 stores the old one, and it is served although nothing else will happen to
    the files. *)
Example older_certificate_is_stored_last :
  certs_of <$> schedule [0; 0; 1; 2; 3; 3; 3; 0; 4]%nat rotating =
  Some ([2; 1]%nat, Ok 2%nat, Some (CertServed (Some 1%nat))).
Proof. by vm_compute. Qed.

(** The same run, by the theorem: what is served was stored last, and is a pair that the
    files held. *)
Lemma cert_interleavings_witness :
  ∃ pl, schedule [0; 0; 1; 2; 3; 3; 3; 0; 4]%nat rotating = Some pl ∧
    (∀ l t x l', jn_log (pl_shared pl) = l ++ (t, CertServed x) :: l' →
       x = latest stored_cert (Some 0%nat) l) ∧
    (∀ l t cert l', jn_log (pl_shared pl) = l ++ (t, CertStored cert) :: l' →
       ∃ c k, matching c k = Ok cert).
Proof.
  assert (is_Some (schedule [0; 0; 1; 2; 3; 3; 3; 0; 4]%nat rotating)) as [pl Hpl]
    by by (eexists; vm_compute).
  exists pl. split; [done |].
  pose proof (schedule_reaches _ _ _ _ _ rotating_reachable Hpl) as Hr.
  destruct (cert_interleavings matching (jn_state (pl_shared rotating)) pl Hr) as (_ & _ & Hs & Hc).
  split; [done |]. intros l t cert l' Hl. destruct (Hc l t cert l' Hl) as (c & k & ? & ? & ? & Hm & _).
  by exists c, k.
Defined.
